(** * PolyHJ: a shallow embedding of the polymorphic hash join

    The development follows the C sources file by file:
    - [common.h], [types.h]: machine integers, tuples, relations, the
      hashing macros;
    - [util/util.c]: [lg_floor], [lg_ceil], [div_ceil];
    - [join/partition.c]: [ICP] and [ICP_estimate_skew];
    - [join/buildprobe_I.c], [buildprobe_II.c], [buildprobe_III.c]: the
      collaborative build/probe models;
    - [join/run.c]: [join_thread] and [execute_join];
    - [util/cmd_args.c]: [extract_cmd_args];
    - [common.h]: the random number generator [xorshift128], [randgen];
    - [util/generate.c]: [permutation], the keys of R and S, [create_rel];
    - [util/sys_info.h], [util/threads.c]: [prepare_threads_meta];
    - [main.c]: [main];
    - [util/util.c]: [barrier_init] and [sbarrier], step by step;
    - [util/sys_info.c]: [prepare_sys_hierarchy], from the lines of
      [lscpu] on.

    C integers are [Z] with the wrap-around written out ([u16], [u32],
    [u64]); arrays are lists read and written through [rd] and [wr], which
    fail outside the array; [assert] and the other ways a C run can stop
    (division by zero) make the embedded function return [None].  Where
    no barrier orders the steps of the workers, as in the cleanup of
    [ColBP_II], the order they are taken in is an argument of the
    embedded function.

    The file has three parts: the embedding of the sources, the
    definitions the statements are written with, and the proofs. *)

From Stdlib Require Import ZArith List Lia Bool Permutation.
From Stdlib Require Ascii String DecimalString DecimalN.
Import ListNotations.
Open Scope Z_scope.

(** ** Failure monad *)

Definition bind {A B : Type} (m : option A) (f : A -> option B) : option B :=
  match m with
  | Some a => f a
  | None => None
  end.

Notation "x <- m ;; k" := (bind m (fun x => k))
  (at level 61, m at next level, right associativity).
Notation "' pat <- m ;; k" :=
  (bind m (fun x => match x with pat => k end))
  (at level 61, pat pattern, m at next level, right associativity).

(** [assert(b)] of <assert.h>: the run stops when [b] is false. *)
Definition c_assert (b : bool) : option unit :=
  if b then Some tt else None.

(** ** Machine integers *)

Definition wrap (w x : Z) : Z := x mod 2 ^ w.
Definition u8 : Z -> Z := wrap 8.
Definition u16 : Z -> Z := wrap 16.
Definition u32 : Z -> Z := wrap 32.
Definition u64 : Z -> Z := wrap 64.

(** ** C arrays *)

Definition rd {A : Type} (l : list A) (i : Z) : option A :=
  if i <? 0 then None else nth_error l (Z.to_nat i).

Definition wr {A : Type} (l : list A) (i : Z) (v : A) : option (list A) :=
  if (0 <=? i) && (i <? Z.of_nat (length l))
  then Some (firstn (Z.to_nat i) l ++ v :: skipn (S (Z.to_nat i)) l)
  else None.

Definition len {A : Type} (l : list A) : Z := Z.of_nat (length l).

(** ** types.h *)

Record tuple_t := { key : Z; payload : Z }.

Inductive rel_id := id_R | id_S.

Record relation_t := {
  tuples : list tuple_t;
  size : Z;      (* number of tuples *)
  offset : Z;    (* within the parent relation *)
  id : rel_id
}.

Record block_t := { start : Z; end_ : Z }.

Record block_meta_t := { blocks_N : Z; Pos : list (list block_t) }.

Record radix_info_t := {
  Radix_R : Z;
  Radix_S : Z;
  user_defined : bool
}.

(** ** common.h *)

Definition ChunkSize : Z := Z.shiftl 1 15 - 10.

(** [1 << n] on [int]: undefined unless the result is representable. *)
Definition shl1 (n : Z) : option Z :=
  if (0 <=? n) && (n <? 31) then Some (Z.shiftl 1 n) else None.

(** [K >> n] on [uint32_t]: undefined for [n >= 32]. *)
Definition shr32 (K n : Z) : option Z :=
  if (0 <=? n) && (n <? 32) then Some (Z.shiftr K n) else None.

Definition HASH (K MASK : Z) : Z := Z.land K MASK.
Definition HASHx (K MASK SHIFT : Z) : option Z :=
  k <- shr32 K SHIFT ;;
  Some (Z.land k MASK).

(** [for(j = i; j < i + n; j++) body]; the counter is bounded by a 32-bit
    limit, so its increment never wraps. *)
Fixpoint for_loop {St : Type} (n : nat) (i : Z)
    (body : Z -> St -> option St) (st : St) : option St :=
  match n with
  | O => Some st
  | S n' => st' <- body i st ;; for_loop n' (i + 1) body st'
  end.

Definition for_range {St : Type} (lo hi : Z)
    (body : Z -> St -> option St) (st : St) : option St :=
  for_loop (Z.to_nat (hi - lo)) lo body st.

(** ** util/util.c *)

(** [while(N >>= 1) result++;] on a 32-bit [N]: at most 32 rounds. *)
Fixpoint lg_floor_loop (fuel : nat) (N result : Z) : Z :=
  match fuel with
  | O => result
  | S fuel' =>
      let N' := Z.shiftr N 1 in
      if N' =? 0 then result else lg_floor_loop fuel' N' (u32 (result + 1))
  end.

Definition lg_floor (N : Z) : option Z :=
  _ <- c_assert (1 <=? N) ;;
  Some (lg_floor_loop 32 N 0).

Definition lg_ceil (N : Z) : option Z :=
  _ <- c_assert (1 <=? N) ;;
  result <- lg_floor N ;;
  Some (u32 (result + (if u32 (Z.shiftl 1 result) =? N then 0 else 1))).

(** A division by zero stops the run. *)
Definition c_div (a b : Z) : option Z :=
  if b =? 0 then None else Some (a / b).
Definition c_mod (a b : Z) : option Z :=
  if b =? 0 then None else Some (a mod b).

Definition div_ceil (a b : Z) : option Z :=
  q <- c_div a b ;;
  r <- c_mod a b ;;
  Some (u32 (q + (if 0 <? r then 1 else 0))).

(** ** join/run.c: the model dispatch of [join_thread] *)

Inductive model := Model_I | Model_II | Model_III | Model_IV.

Inductive dispatch :=
| Run (m : model)
| AssertFalse.   (* [assert(false)] *)

Definition join_thread_dispatch (Radix : radix_info_t) : dispatch :=
  if Radix_R Radix =? Radix_S Radix then
    if Radix_R Radix =? 0 then Run Model_I else Run Model_II
  else
    if Radix_S Radix =? 0 then Run Model_III else AssertFalse.

(** ** Process-wide state

    [Radix], the fields of [Threads] the join reads, and the globals of
    [join/partition.c]. *)

Record globals := {
  Radix : radix_info_t;
  Threads_N : Z;
  num_groups : Z;
  RelR_size : Z;            (* Threads.RelR->size *)
  RelS_size : Z;            (* Threads.RelS->size *)
  HighSkewObserved : Z;
  ChangedRadixS : bool;
  ModelIII_shift : Z
}.

Definition set_HighSkewObserved (g : globals) (v : Z) : globals :=
  {| Radix := Radix g; Threads_N := Threads_N g; num_groups := num_groups g;
     RelR_size := RelR_size g; RelS_size := RelS_size g;
     HighSkewObserved := v; ChangedRadixS := ChangedRadixS g;
     ModelIII_shift := ModelIII_shift g |}.

Definition set_ModelIII_shift (g : globals) (v : Z) : globals :=
  {| Radix := Radix g; Threads_N := Threads_N g; num_groups := num_groups g;
     RelR_size := RelR_size g; RelS_size := RelS_size g;
     HighSkewObserved := HighSkewObserved g; ChangedRadixS := ChangedRadixS g;
     ModelIII_shift := v |}.

Definition FanoutR (g : globals) : option Z := shl1 (Radix_R (Radix g)).
Definition FanoutS (g : globals) : option Z := shl1 (Radix_S (Radix g)).
Definition MaskR (g : globals) : option Z :=
  f <- FanoutR g ;; Some (f - 1).
(** [#define MaskS (FanoutR - 1)], as common.h has it. *)
Definition MaskS (g : globals) : option Z :=
  f <- FanoutR g ;; Some (f - 1).

(** ** join/partition.c: skew estimation *)

(** The two most common partitions of the histogram (lines 202-205). *)
Definition two_most_common (FanoutS : Z) (Histo : list Z) : option (Z * Z) :=
  for_range 0 FanoutS
    (fun j '(maxA, maxB) =>
       c <- rd Histo j ;;
       if maxA <? c then Some (c, maxA)
       else if maxB <? c then Some (maxA, c)
       else Some (maxA, maxB))
    (0, 0).

(** Lines 195-214, up to the first [sbarrier]: [Some None] when the
    |S|/|R| test returns early, [Some (Some b)] when the worker reaches
    the barrier, [b] telling whether it added one to [HighSkewObserved]. *)
Definition skew_report (g : globals) (Histo : list Z) (block_size : Z)
  : option (option bool) :=
  ratio <- c_div (RelS_size g) (RelR_size g) ;;
  if ratio <? 3 then Some None
  else
    fanoutS <- FanoutS g ;;
    '(maxA, maxB) <- two_most_common fanoutS Histo ;;
    let skew_threshold := u32 (block_size * 35) / 100 in
    Some (Some
      (((4 <? fanoutS) && (skew_threshold <? u32 (maxA + maxB)))
       || ((fanoutS <=? 4) && (u32 (block_size / 2 + 10) <? maxA)))).

(** Lines 219-230, between the two [sbarrier]s: what worker [tid] does to
    the process-wide state. *)
Definition skew_switch (tid : Z) (g : globals) : globals :=
  if (tid =? 0) && (HighSkewObserved g =? Threads_N g) then
    {| Radix := {| Radix_R := u32 (Radix_R (Radix g) + 1);
                   Radix_S := 0;
                   user_defined := user_defined (Radix g) |};
       Threads_N := Threads_N g; num_groups := num_groups g;
       RelR_size := RelR_size g; RelS_size := RelS_size g;
       HighSkewObserved := HighSkewObserved g;
       ChangedRadixS := true;
       ModelIII_shift := ModelIII_shift g |}
  else g.

(** [ICP_estimate_skew] as one worker sees it.  [peers] is the number of
    other workers that added to [HighSkewObserved] before the first
    [sbarrier]; after the second [sbarrier] every worker sees what worker
    zero wrote in between. *)
Definition ICP_estimate_skew (g : globals) (peers : Z) (tid : Z)
    (Histo : list Z) (block_size : Z) : option (globals * bool) :=
  report <- skew_report g Histo block_size ;;
  match report with
  | None => Some (g, false)
  | Some own =>
      let g1 := set_HighSkewObserved g
                  (u32 (HighSkewObserved g + (if own then 1 else 0) + peers)) in
      (* sbarrier; worker zero acts; sbarrier *)
      let g2 := skew_switch 0 g1 in
      Some (g2, HighSkewObserved g2 =? Threads_N g2)
  end.

(** ** join/partition.c: ICP *)

(** Where the current block is scattered to: [TmpBlock], or the tuple
    array [T] from offset [off] on. *)
Inductive directory :=
| Dir_TmpBlock
| Dir_T (off : Z).

Record icp_mem := { mem_T : list tuple_t; mem_Tmp : list tuple_t }.

(** [Directory[c] = t]. *)
Definition dir_write (m : icp_mem) (d : directory) (c : Z) (t : tuple_t)
  : option icp_mem :=
  match d with
  | Dir_TmpBlock =>
      Tmp' <- wr (mem_Tmp m) c t ;;
      Some {| mem_T := mem_T m; mem_Tmp := Tmp' |}
  | Dir_T off =>
      T' <- wr (mem_T m) (off + c) t ;;
      Some {| mem_T := T'; mem_Tmp := mem_Tmp m |}
  end.

(** Lines 109-112: the histogram of the block [from, to). *)
Definition fill_histogram (T : list tuple_t) (from to mask shift fanout : Z)
  : option (list Z) :=
  for_range from to
    (fun j Histo =>
       t <- rd T j ;;
       h <- HASHx (key t) mask shift ;;
       c <- rd Histo h ;;
       wr Histo h (u16 (c + 1)))
    (repeat 0 (Z.to_nat fanout)).

(** Lines 139-144: the prefix sums, in place. *)
Definition prefix_sum (fanout : Z) (Histo : list Z) : option (list Z) :=
  '(_, Histo') <-
    for_range 0 fanout
      (fun j '(accum, Histo) =>
         pre_accum <- rd Histo j ;;
         Histo' <- wr Histo j (u16 accum) ;;
         Some (u32 (accum + pre_accum), Histo'))
      (0, Histo) ;;
  Some Histo'.

(** Lines 149-157: the positions of the sub-blocks of one block. *)
Definition fill_positions (num_sub_blocks sub_block_partitions fanout : Z)
    (block N from length first_block_size : Z) (Histo : list Z)
    (row : list block_t) : option (list block_t) :=
  for_range 0 num_sub_blocks
    (fun m row =>
       let p := u32 (m * sub_block_partitions) in
       let q := u32 (p + sub_block_partitions) in
       let r := u32 ((if block =? 0 then N else from) - first_block_size) in
       hp <- rd Histo p ;;
       e <- (if q =? fanout then Some length else rd Histo q) ;;
       wr row m {| start := u32 (r + hp); end_ := u32 (r + e) |})
    row.

(** Lines 161-165: the scatter loop. *)
Definition scatter (from to mask shift : Z) (Directory : directory)
    (m : icp_mem) (Histo : list Z) : option (icp_mem * list Z) :=
  for_range from to
    (fun i '(m, Histo) =>
       t <- rd (mem_T m) i ;;
       h <- HASHx (key t) mask shift ;;
       c <- rd Histo h ;;
       Histo' <- wr Histo h (u16 (c + 1)) ;;
       m' <- dir_write m Directory c t ;;
       Some (m', Histo'))
    (m, Histo).

(** The values [ICP] computes before its loop (lines 36-94). *)
Record icp_params := {
  ip_shift : Z;
  ip_fanout : Z;
  ip_mask : Z;
  ip_N : Z;
  ip_num_blocks : Z;
  ip_avg_block_size : Z;
  ip_first_block_size : Z;
  ip_num_sub_blocks : Z;
  ip_sub_block_partitions : Z
}.

(** The state of the loop over the blocks (lines 97-172). *)
Record icp_state := {
  st_mem : icp_mem;
  st_Directory : directory;
  st_i : Z;
  st_block : Z;
  st_remainder : Z;
  st_Pos : list (list block_t)
}.

Inductive icp_outcome :=
| Restarted (g : globals)                 (* the skew branch was taken *)
| Partitioned (g : globals) (st : icp_state).

(** Lines 36-94.  Returns the globals too: [ModelIII_shift] is written. *)
Definition ICP_setup (g : globals) (Sub : relation_t) (radix : Z)
  : option (globals * icp_params * Z) :=
  fanout <- shl1 radix ;;
  let mask := u32 (fanout - 1) in
  '(g1, shift) <-
    (match id Sub with
     | id_R =>
         if Radix_S (Radix g) =? 0 then
           l <- lg_ceil (RelR_size g) ;;
           let s := u8 (u32 (l - Radix_R (Radix g) - 1)) in
           Some (set_ModelIII_shift g s, s)
         else Some (g, 0)
     | id_S => Some (g, 0)
     end) ;;
  let N := size Sub in
  num_blocks <- div_ceil N ChunkSize ;;
  avg_block_size <- c_div N num_blocks ;;
  remainder <- c_mod N num_blocks ;;
  let first_block_size :=
    u32 (avg_block_size + (if 0 <? remainder then 1 else 0)) in
  let num_sub_blocks := num_groups g in
  sub_block_partitions <- c_div fanout num_sub_blocks ;;
  rem <- c_mod fanout num_sub_blocks ;;
  _ <- c_assert (rem =? 0) ;;
  let num_sub_blocks :=
    match id Sub with
    | id_S =>
        if Radix_S (Radix g) <? Radix_R (Radix g) then 1 else num_sub_blocks
    | id_R => num_sub_blocks
    end in
  Some (g1,
        {| ip_shift := shift; ip_fanout := fanout; ip_mask := mask;
           ip_N := N; ip_num_blocks := num_blocks;
           ip_avg_block_size := avg_block_size;
           ip_first_block_size := first_block_size;
           ip_num_sub_blocks := num_sub_blocks;
           ip_sub_block_partitions := sub_block_partitions |},
        remainder).

(** One round of the loop over the blocks, from the skew test on
    (lines 125-172); [Histo] is the block's histogram. *)
Definition ICP_block_rest (P : icp_params) (st : icp_state)
    (from length to : Z) (remainder : Z) (Histo : list Z)
  : option icp_state :=
  Histo <- prefix_sum (ip_fanout P) Histo ;;
  h0 <- rd Histo 0 ;;
  _ <- c_assert (h0 =? 0) ;;
  row <- rd (st_Pos st) (st_block st) ;;
  row' <- fill_positions (ip_num_sub_blocks P) (ip_sub_block_partitions P)
            (ip_fanout P) (st_block st) (ip_N P) from length
            (ip_first_block_size P) Histo row ;;
  Pos' <- wr (st_Pos st) (st_block st) row' ;;
  '(m', Histo) <- scatter (st_i st) to (ip_mask P) (ip_shift P)
                    (st_Directory st) (st_mem st) Histo ;;
  hlast <- rd Histo (ip_fanout P - 1) ;;
  _ <- c_assert (hlast =? u32 (to - from)) ;;
  Some {| st_mem := m';
          st_Directory :=
            match st_Directory st with
            | Dir_TmpBlock => Dir_T 0
            | Dir_T off => Dir_T (off + hlast)
            end;
          st_i := to;
          st_block := u32 (st_block st + 1);
          st_remainder := remainder;
          st_Pos := Pos' |}.

(** The head of one round (lines 100-112): the block's bounds, the
    assertions on them, and its histogram. *)
Definition ICP_block_head (P : icp_params) (st : icp_state)
  : option (Z * Z * Z * Z * list Z) :=
  let from := st_i st in
  let length :=
    u32 (ip_avg_block_size P + (if 0 <? st_remainder st then 1 else 0)) in
  let remainder :=
    if 0 <? st_remainder st then u32 (st_remainder st - 1)
    else st_remainder st in
  let to := u32 (from + length) in
  _ <- c_assert (to <=? ip_N P) ;;
  _ <- c_assert ((st_block st <? u32 (ip_num_blocks P - 1))
                 || (to =? ip_N P)) ;;
  Histo <- fill_histogram (mem_T (st_mem st)) from to
             (ip_mask P) (ip_shift P) (ip_fanout P) ;;
  Some (from, length, to, remainder, Histo).

(** The loop over the blocks, [for(uint32_t i = 0; i < N;)]. *)
Fixpoint ICP_blocks (fuel : nat) (P : icp_params) (Sub_id : rel_id)
    (peers tid : Z) (g : globals) (st : icp_state) : option icp_outcome :=
  if st_i st <? ip_N P then
    match fuel with
    | O => None
    | S fuel' =>
        '(from, length, to, remainder, Histo) <- ICP_block_head P st ;;
        skew <-
          (match Sub_id with
           | id_S =>
               if (st_block st =? 0) && negb (user_defined (Radix g))
                  && negb (ChangedRadixS g)
               then ICP_estimate_skew g peers tid Histo
                      (ip_first_block_size P)
               else Some (g, false)
           | id_R => Some (g, false)
           end) ;;
        let '(g', high) := skew in
        if high then Some (Restarted g')
        else
          st' <- ICP_block_rest P st from length to remainder Histo ;;
          ICP_blocks fuel' P Sub_id peers tid g' st'
    end
  else Some (Partitioned g st).

(** The state [ICP] enters its loop with (lines 68-98). *)
Definition ICP_init_state (P : icp_params) (Sub : relation_t)
    (remainder : Z) : icp_state :=
  {| st_mem := {| mem_T := tuples Sub;
                  mem_Tmp := repeat {| key := 0; payload := 0 |}
                               (Z.to_nat (ip_first_block_size P)) |};
     st_Directory := Dir_TmpBlock;
     st_i := 0; st_block := 0; st_remainder := remainder;
     st_Pos := repeat (repeat {| start := 0; end_ := 0 |}
                         (Z.to_nat (ip_num_sub_blocks P)))
                      (Z.to_nat (ip_num_blocks P)) |}.

(** [memcpy(Directory, TmpBlock, first_block_size * sizeof(tuple_t))]. *)
Definition memcpy_tuples (T : list tuple_t) (off : Z) (Tmp : list tuple_t)
    (n : Z) : option (list tuple_t) :=
  if (0 <=? off) && (0 <=? n) && (off + n <=? len T) && (n <=? len Tmp)
  then Some (firstn (Z.to_nat off) T ++ firstn (Z.to_nat n) Tmp
             ++ skipn (Z.to_nat (off + n)) T)
  else None.

(** [ICP(Args, Sub, radix, Blocks)] for one worker.  The function calls
    itself once at most (after a switch [ChangedRadixS] is set), so two
    units of [fuel] are enough. *)
Fixpoint ICP_rec (fuel : nat) (g : globals) (peers tid : Z)
    (Sub : relation_t) (radix : Z) (Blocks : block_meta_t)
  : option (globals * relation_t * block_meta_t) :=
  if radix =? 0 then Some (g, Sub, Blocks)
  else
    match fuel with
    | O => None
    | S fuel' =>
        '(g1, P, remainder) <- ICP_setup g Sub radix ;;
        let st0 := ICP_init_state P Sub remainder in
        out <- ICP_blocks (Z.to_nat (ip_N P)) P (id Sub) peers tid g1 st0 ;;
        match out with
        | Restarted g' =>
            (* [Pos] has been freed; [Blocks->N] stays set. *)
            ICP_rec fuel' g' peers tid Sub (Radix_S (Radix g'))
              {| blocks_N := ip_num_blocks P; Pos := [] |}
        | Partitioned g' st =>
            _ <- c_assert (st_remainder st =? 0) ;;
            match st_Directory st with
            | Dir_TmpBlock => None
            | Dir_T off =>
                _ <- c_assert (ip_N P - off =? ip_first_block_size P) ;;
                T' <- memcpy_tuples (mem_T (st_mem st)) off
                        (mem_Tmp (st_mem st)) (ip_first_block_size P) ;;
                Some (g',
                      {| tuples := T'; size := size Sub;
                         offset := offset Sub; id := id Sub |},
                      {| blocks_N := ip_num_blocks P; Pos := st_Pos st |})
            end
        end
    end.

Definition ICP : globals -> Z -> Z -> relation_t -> Z -> block_meta_t ->
                 option (globals * relation_t * block_meta_t) :=
  ICP_rec 2.

(** Whether a worker adds one to [HighSkewObserved] during [ICP] of its
    sub-relation: the path of [ICP] down to [__sync_fetch_and_add]. *)
Definition ICP_own_report (g : globals) (Sub : relation_t) (radix : Z)
  : option bool :=
  if radix =? 0 then Some false
  else
    '(g1, P, remainder) <- ICP_setup g Sub radix ;;
    let st0 := ICP_init_state P Sub remainder in
    if st_i st0 <? ip_N P then
      '(_, _, _, _, Histo) <- ICP_block_head P st0 ;;
      match id Sub with
      | id_S =>
          if negb (user_defined (Radix g1)) && negb (ChangedRadixS g1) then
            report <- skew_report g1 Histo (ip_first_block_size P) ;;
            Some (match report with Some own => own | None => false end)
          else Some false
      | id_R => Some false
      end
    else Some false.

(** ** Threads *)

Record thread_t := {
  tid : Z;
  group : Z;
  SubR : relation_t;
  SubS : relation_t;
  BlocksR : block_meta_t;
  BlocksS : block_meta_t;
  matches : Z;
  checksum : Z
}.

Definition set_SubS (T : thread_t) (Sub : relation_t) (B : block_meta_t)
  : thread_t :=
  {| tid := tid T; group := group T; SubR := SubR T; SubS := Sub;
     BlocksR := BlocksR T; BlocksS := B;
     matches := matches T; checksum := checksum T |}.

Definition set_SubR (T : thread_t) (Sub : relation_t) (B : block_meta_t)
  : thread_t :=
  {| tid := tid T; group := group T; SubR := Sub; SubS := SubS T;
     BlocksR := B; BlocksS := BlocksS T;
     matches := matches T; checksum := checksum T |}.

Definition set_PosR (T : thread_t) (P : list (list block_t)) : thread_t :=
  set_SubR T (SubR T) {| blocks_N := blocks_N (BlocksR T); Pos := P |}.

Definition set_PosS (T : thread_t) (P : list (list block_t)) : thread_t :=
  set_SubS T (SubS T) {| blocks_N := blocks_N (BlocksS T); Pos := P |}.

Definition set_stats (T : thread_t) (m c : Z) : thread_t :=
  {| tid := tid T; group := group T; SubR := SubR T; SubS := SubS T;
     BlocksR := BlocksR T; BlocksS := BlocksS T;
     matches := m; checksum := c |}.

(** One phase of the run: every worker executes [f] between two barriers.
    The workers are taken in thread order; [st] is the shared state. *)
Fixpoint each_thread {St : Type}
    (f : thread_t -> St -> option (thread_t * St))
    (Ts : list thread_t) (st : St) : option (list thread_t * St) :=
  match Ts with
  | [] => Some ([], st)
  | T :: Ts' =>
      '(T', st') <- f T st ;;
      '(Ts'', st'') <- each_thread f Ts' st' ;;
      Some (T' :: Ts'', st'')
  end.

Fixpoint count_true (l : list bool) : Z :=
  match l with
  | [] => 0
  | b :: l' => (if b then 1 else 0) + count_true l'
  end.

Fixpoint map_opt {A B : Type} (f : A -> option B) (l : list A)
  : option (list B) :=
  match l with
  | [] => Some []
  | a :: l' => b <- f a ;; bs <- map_opt f l' ;; Some (b :: bs)
  end.

(** The partitioning of S by all the workers (run.c line 39).  Every
    worker starts from the same process-wide state; the counter it reads
    after the barrier holds its own report and its peers'.  All workers
    leave with the same view of the state, that of the first one. *)
Definition ICP_S_all (g : globals) (Ts : list thread_t)
  : option (globals * list thread_t) :=
  owns <- map_opt (fun T => ICP_own_report g (SubS T) (Radix_S (Radix g))) Ts ;;
  let total := count_true owns in
  res <- map_opt
           (fun x : thread_t * bool =>
              let '(T, own) := x in
              '(g', Sub, B) <- ICP g (total - (if own then 1 else 0)) (tid T)
                                 (SubS T) (Radix_S (Radix g)) (BlocksS T) ;;
              Some (g', set_SubS T Sub B))
           (combine Ts owns) ;;
  Some (match res with
        | (g', _) :: _ => g'
        | [] => g
        end,
        map snd res).

(** The partitioning of R by all the workers (run.c line 42). *)
Definition ICP_R_all (g : globals) (Ts : list thread_t)
  : option (globals * list thread_t) :=
  res <- map_opt
           (fun T =>
              '(g', Sub, B) <- ICP g 0 (tid T) (SubR T) (Radix_R (Radix g))
                                 (BlocksR T) ;;
              Some (g', set_SubR T Sub B))
           Ts ;;
  Some (match res with
        | (g', _) :: _ => g'
        | [] => g
        end,
        map snd res).

(** ** The build/probe models *)

Section BuildProbe.

(** [#define TEST_KEY_INPLACEOF_PAYLOAD] of common.h ([false] there). *)
Variable TEST_KEY_INPLACEOF_PAYLOAD : bool.

(** What [SafeMalloc] hands out is not initialised: [junk g j] is the
    content of cell [j] of the [g]-th table before anything is written. *)
Variable junk : Z -> nat -> Z.

(** The order in which the workers take the two lines of the cleanup of
    [ColBP_II], which no barrier orders: every entry names a worker by its
    place in the thread table, and stands for the next of its two
    lines. *)
Variable sched : list Z.

Definition SafeMalloc (g : Z) (n : Z) : list Z :=
  map (junk g) (seq 0 (Z.to_nat n)).

(** [memset(Table + offset, 0, n * sizeof(bucket_t))]. *)
Definition memset0 (Table : list Z) (offset n : Z) : option (list Z) :=
  for_range offset (offset + n) (fun j Table => wr Table j 0) Table.

(** The bucket a build stores for tuple [t]. *)
Definition stored (t : tuple_t) : Z :=
  if TEST_KEY_INPLACEOF_PAYLOAD then key t else payload t.

(** The probe's update of [matches] for key [k] and bucket value [v]. *)
Definition count_match (k v matches : Z) : Z :=
  if TEST_KEY_INPLACEOF_PAYLOAD
  then (if v =? k then u64 (matches + 1) else matches)
  else u64 (matches + 1).

(** Scatter, NOPA-style (I lines 45-55, III lines 72-82):
    [HTable[k] = t.payload; checksum += k]. *)
Definition NOPA_scatter (t : tuple_t) (st : list Z * Z)
  : option (list Z * Z) :=
  let '(HTable, checksum) := st in
  let k := key t in
  HTable' <- wr HTable k (stored t) ;;
  Some (HTable', u64 (checksum + k)).

(** Gather, NOPA-style (I lines 69-84, III lines 98-113):
    [checksum += HTable[k]; ++matches]. *)
Definition NOPA_gather (HTable : list Z) (t : tuple_t) (st : Z * Z)
  : option (Z * Z) :=
  let '(matches, checksum) := st in
  let k := key t in
  v <- rd HTable k ;;
  Some (count_match k v matches, u64 (checksum + v)).

(** Scatter, CPRA-style (II lines 98-108):
    [HTable[k >> radix] = t.payload; checksum += k]. *)
Definition CPRA_scatter (radix : Z) (t : tuple_t) (st : list Z * Z)
  : option (list Z * Z) :=
  let '(HTable, checksum) := st in
  let k := key t in
  c <- shr32 k radix ;;
  HTable' <- wr HTable c (stored t) ;;
  Some (HTable', u64 (checksum + k)).

(** Gather, CPRA-style (II lines 139-155):
    [checksum += HTable[k >> shift]; ++matches]. *)
Definition CPRA_gather (shift : Z) (HTable : list Z) (t : tuple_t)
    (st : Z * Z) : option (Z * Z) :=
  let '(matches, checksum) := st in
  let k := key t in
  c <- shr32 k shift ;;
  v <- rd HTable c ;;
  Some (count_match k v matches, u64 (checksum + v)).

(** The table of Models I and III (I line 23, III line 39). *)
Definition NOPA_HTable_size (g : globals) : Z := u32 (RelR_size g + 1).

(** The tables of Model II (II lines 37-38). *)
Definition CPRA_HTable_size (g : globals) : option Z :=
  q <- shr32 (RelR_size g) (Radix_R (Radix g)) ;;
  let avg_partition := u32 (q + 1) in
  l <- lg_ceil avg_partition ;;
  shl1 l.

(** *** join/buildprobe_I.c *)

(** Lines 34-36. *)
Definition ColBP_I_zero (g : globals) (HTable_size : Z) (T : thread_t)
    (HTable : list Z) : option (thread_t * list Z) :=
  share <- c_div HTable_size (Threads_N g) ;;
  let offset := u32 (tid T * share) in
  HTable' <- memset0 HTable offset share ;;
  Some (T, HTable').

(** Lines 41-56. *)
Definition ColBP_I_build (T : thread_t) (HTable : list Z)
  : option (thread_t * list Z) :=
  '(HTable', checksum) <-
    for_range 0 (size (SubR T))
      (fun i st => t <- rd (tuples (SubR T)) i ;; NOPA_scatter t st)
      (HTable, 0) ;;
  Some (set_stats T 0 checksum, HTable').

(** Lines 65-85 and 93-94. *)
Definition ColBP_I_probe (T : thread_t) (HTable : list Z)
  : option (thread_t * list Z) :=
  '(matches, checksum) <-
    for_range 0 (size (SubS T))
      (fun i st => t <- rd (tuples (SubS T)) i ;; NOPA_gather HTable t st)
      (matches T, checksum T) ;;
  Some (set_stats T matches checksum, HTable).

(** Lines 23-28: worker 0 allocates the one table. *)
Definition ColBP_I_alloc (g : globals) : list Z :=
  SafeMalloc 0 (NOPA_HTable_size g).

Definition ColBP_I (g : globals) (Ts : list thread_t)
  : option (list thread_t) :=
  _ <- c_assert ((Radix_R (Radix g) =? 0) && (Radix_S (Radix g) =? 0)) ;;
  let HTable_size := NOPA_HTable_size g in
  let HTable := ColBP_I_alloc g in
  (* barrier *)
  '(Ts, HTable) <- each_thread (ColBP_I_zero g HTable_size) Ts HTable ;;
  (* barrier *)
  '(Ts, HTable) <- each_thread ColBP_I_build Ts HTable ;;
  (* barrier *)
  '(Ts, _) <- each_thread ColBP_I_probe Ts HTable ;;
  Some Ts.

(** *** The scans of Models II and III *)

(** [for(; idx < end && p == hash(A[idx].key); idx++) body], the inner
    loop of the three scans (II lines 97-109 and 138-156, III lines
    71-84). *)
Fixpoint scan_run {St : Type} (fuel : nat) (A : list tuple_t)
    (idx end_ : Z) (hash : Z -> option Z) (p : Z)
    (body : tuple_t -> St -> option St) (st : St) : option (Z * St) :=
  if idx <? end_ then
    t <- rd A idx ;;
    h <- hash (key t) ;;
    if p =? h then
      match fuel with
      | O => None
      | S fuel' =>
          st' <- body t st ;;
          scan_run fuel' A (idx + 1) end_ hash p body st'
      end
    else Some (idx, st)
  else Some (idx, st).

(** [for(b = 0; b < num_blocks; b++)] around the inner loop: the scan of
    sub-block [h] of every block, the cursor [start] written back. *)
Definition scan_blocks {St : Type} (A : list tuple_t)
    (Blocks : list (list block_t)) (num_blocks h : Z)
    (hash : Z -> option Z) (p : Z)
    (body : tuple_t -> St -> option St) (st : St)
  : option (list (list block_t) * St) :=
  for_range 0 num_blocks
    (fun b '(Blocks, st) =>
       row <- rd Blocks b ;;
       blk <- rd row h ;;
       '(idx, st') <- scan_run (Z.to_nat (end_ blk - start blk)) A
                        (start blk) (end_ blk) hash p body st ;;
       row' <- wr row h {| start := idx; end_ := end_ blk |} ;;
       Blocks' <- wr Blocks b row' ;;
       Some (Blocks', st'))
    (Blocks, st).

(** *** join/buildprobe_II.c *)

(** Lines 46-49: one worker of each group allocates the group's table. *)
Definition ColBP_II_alloc (HTable_size : Z) (T : thread_t)
    (HTables : list (list Z)) : option (thread_t * list (list Z)) :=
  if tid T =? group T then
    HTables' <- wr HTables (group T) (SafeMalloc (group T) HTable_size) ;;
    Some (T, HTables')
  else Some (T, HTables).

(** Lines 53-61. *)
Definition ColBP_II_zero (g : globals) (HTable_size : Z) (T : thread_t)
    (HTables : list (list Z)) : option (thread_t * list (list Z)) :=
  HTables' <-
    for_range 0 (num_groups g)
      (fun gi HTables =>
         let t := u32 (num_groups g * 2) in
         Table <- rd HTables gi ;;
         share <- c_div HTable_size t ;;
         let offset := u32 (tid T * share) in
         if tid T <? t then
           Table' <- memset0 Table offset share ;;
           wr HTables gi Table'
         else Some HTables)
      HTables ;;
  Some (T, HTables').

(** Lines 85-118: the build of worker [T] at step [gi] of iteration [i]. *)
Definition ColBP_II_build (g : globals) (iters i gi : Z) (T : thread_t)
    (HTables : list (list Z)) : option (thread_t * list (list Z)) :=
  h <- c_mod (u32 (gi + group T)) (num_groups g) ;;
  let p := u32 (h * iters + i) in
  HTable <- rd HTables h ;;
  let radix := Radix_R (Radix g) in
  mask <- MaskR g ;;
  '(Pos', (HTable', checksum')) <-
    scan_blocks (tuples (SubR T)) (Pos (BlocksR T)) (blocks_N (BlocksR T)) h
      (fun k => Some (HASH k mask)) p
      (CPRA_scatter radix)
      (HTable, checksum T) ;;
  HTables' <- wr HTables h HTable' ;;
  Some (set_stats (set_PosR T Pos') (matches T) checksum', HTables').

(** Lines 126-160: the probe of worker [T] at step [gi] of iteration [i]. *)
Definition ColBP_II_probe_step (g : globals) (iters i gi : Z) (T : thread_t)
    (HTables : list (list Z)) : option thread_t :=
  h <- c_mod (u32 (gi + group T)) (num_groups g) ;;
  let p := u32 (h * iters + i) in
  HTable <- rd HTables h ;;
  let shift := Radix_R (Radix g) in
  mask <- MaskS g ;;
  '(Pos', (matches', checksum')) <-
    scan_blocks (tuples (SubS T)) (Pos (BlocksS T)) (blocks_N (BlocksS T)) h
      (fun k => Some (HASH k mask)) p
      (CPRA_gather shift HTable)
      (matches T, checksum T) ;;
  Some (set_stats (set_PosS T Pos') matches' checksum').

(** [for(int g = num_groups - 1; g >= 0; g--)]. *)
Definition ColBP_II_probe (g : globals) (iters i : Z) (T : thread_t)
    (HTables : list (list Z)) : option (thread_t * list (list Z)) :=
  T' <- for_range 0 (num_groups g)
          (fun j T =>
             ColBP_II_probe_step g iters i (num_groups g - 1 - j) T HTables)
          T ;;
  Some (T', HTables).

Definition assert_group (g : globals) (T : thread_t) : option unit :=
  r <- c_mod (tid T) (num_groups g) ;;
  c_assert (r =? group T).

(** Lines 177-178, the cleanup: [if(tid == group)
    free(Threads.HTables[group]);] and [if(tid == 0)
    free(Threads.HTables);].  The last barrier is before them, so that
    the lines of one worker fall anywhere among those of the others.
    [cu_array] says whether the array [Threads.HTables] has been freed,
    [cu_tables] which of the tables have been, and [cu_line] the line
    every worker is at, 179 when it has left the function. *)
Record cleanup_state := {
  cu_array : bool;
  cu_tables : list bool;
  cu_line : list Z
}.

(** The next line of the worker at place [t].  Line 177 reads
    [Threads.HTables[group]] from the array: once the array is freed
    the pointer read is not defined, and neither is [free] of what has
    been freed; the run stops being defined there.  A name that is no
    worker's, or that of a worker that has left, changes nothing. *)
Definition ColBP_II_cleanup_step (Ts : list thread_t) (t : Z)
    (st : cleanup_state) : option cleanup_state :=
  match rd Ts t, rd (cu_line st) t with
  | Some T, Some line =>
      if line =? 177 then
        tables' <-
          (if tid T =? group T then
             _ <- c_assert (negb (cu_array st)) ;;
             freed <- rd (cu_tables st) (group T) ;;
             _ <- c_assert (negb freed) ;;
             wr (cu_tables st) (group T) true
           else Some (cu_tables st)) ;;
        lines' <- wr (cu_line st) t 178 ;;
        Some {| cu_array := cu_array st; cu_tables := tables';
                cu_line := lines' |}
      else if line =? 178 then
        array' <-
          (if tid T =? 0 then
             _ <- c_assert (negb (cu_array st)) ;;
             Some true
           else Some (cu_array st)) ;;
        lines' <- wr (cu_line st) t 179 ;;
        Some {| cu_array := array'; cu_tables := cu_tables st;
                cu_line := lines' |}
      else Some st
  | _, _ => Some st
  end.

Fixpoint ColBP_II_cleanup_run (Ts : list thread_t) (order : list Z)
    (st : cleanup_state) : option cleanup_state :=
  match order with
  | [] => Some st
  | t :: order' =>
      st' <- ColBP_II_cleanup_step Ts t st ;;
      ColBP_II_cleanup_run Ts order' st'
  end.

(** The cleanup of all the workers: the lines are taken in the order
    [sched] gives, and the lines it leaves worker by worker in the order
    of the thread table, as the other phases are run. *)
Definition ColBP_II_cleanup (g : globals) (Ts : list thread_t)
  : option unit :=
  let st0 := {| cu_array := false;
                cu_tables := repeat false (Z.to_nat (num_groups g));
                cu_line := repeat 177 (length Ts) |} in
  st <- ColBP_II_cleanup_run Ts sched st0 ;;
  _ <- ColBP_II_cleanup_run Ts
         (flat_map (fun t => [Z.of_nat t; Z.of_nat t]) (seq 0 (length Ts)))
         st ;;
  Some tt.

Definition ColBP_II (g : globals) (Ts : list thread_t)
  : option (list thread_t) :=
  _ <- c_assert ((Radix_R (Radix g) =? Radix_S (Radix g))
                 && (0 <? Radix_R (Radix g))) ;;
  _ <- map_opt (assert_group g) Ts ;;
  let Ts := map (fun T => set_stats T 0 0) Ts in
  HTable_size <- CPRA_HTable_size g ;;
  let HTables := repeat [] (Z.to_nat (num_groups g)) in
  (* barrier *)
  '(Ts, HTables) <- each_thread (ColBP_II_alloc HTable_size) Ts HTables ;;
  (* barrier *)
  '(Ts, HTables) <- each_thread (ColBP_II_zero g HTable_size) Ts HTables ;;
  (* barrier *)
  fanoutR <- FanoutR g ;;
  iters <- c_div fanoutR (num_groups g) ;;
  remainder_iters <- c_mod fanoutR (num_groups g) ;;
  _ <- c_assert (remainder_iters =? 0) ;;
  '(Ts, _) <-
    for_range 0 iters
      (fun i st =>
         st <- for_range 0 (num_groups g)
                 (fun gi '(Ts, HTables) =>
                    (* ... sbarrier *)
                    each_thread (ColBP_II_build g iters i gi) Ts HTables)
                 st ;;
         let '(Ts, HTables) := st in
         (* ... sbarrier *)
         each_thread (ColBP_II_probe g iters i) Ts HTables)
      (Ts, HTables) ;;
  (* the last sbarrier is the one that ends the last iteration *)
  _ <- ColBP_II_cleanup g Ts ;;
  Some Ts.

(** *** join/buildprobe_III.c *)

(** Lines 61-88: the build of worker [T] at step [gi] of iteration [i]. *)
Definition ColBP_III_build (g : globals) (iters i gi : Z) (T : thread_t)
    (GlobalTable : list Z) : option (thread_t * list Z) :=
  h <- c_mod (u32 (gi + group T)) (num_groups g) ;;
  let p := u32 (h * iters + i) in
  let shift := ModelIII_shift g in
  mask <- MaskR g ;;
  '(Pos', (GlobalTable', checksum')) <-
    scan_blocks (tuples (SubR T)) (Pos (BlocksR T)) (blocks_N (BlocksR T)) h
      (fun k => HASHx k mask shift) p
      NOPA_scatter
      (GlobalTable, checksum T) ;;
  Some (set_stats (set_PosR T Pos') (matches T) checksum', GlobalTable').

(** Lines 97-114 and 120-121. *)
Definition ColBP_III_probe (T : thread_t) (GlobalTable : list Z)
  : option (thread_t * list Z) :=
  '(matches, checksum) <-
    for_range 0 (size (SubS T))
      (fun i st => t <- rd (tuples (SubS T)) i ;; NOPA_gather GlobalTable t st)
      (matches T, checksum T) ;;
  Some (set_stats T matches checksum, GlobalTable).

(** Lines 39-43: worker 0 allocates the one table. *)
Definition ColBP_III_alloc (g : globals) : list Z :=
  SafeMalloc 0 (NOPA_HTable_size g).

Definition ColBP_III (g : globals) (Ts : list thread_t)
  : option (list thread_t) :=
  _ <- c_assert ((0 <? Radix_R (Radix g)) && (Radix_S (Radix g) =? 0)) ;;
  _ <- map_opt (assert_group g) Ts ;;
  let Ts := map (fun T => set_stats T 0 0) Ts in
  let GlobalTable := ColBP_III_alloc g in
  (* barrier *)
  fanoutR <- FanoutR g ;;
  iters <- c_div fanoutR (num_groups g) ;;
  remainder_iters <- c_mod fanoutR (num_groups g) ;;
  _ <- c_assert (remainder_iters =? 0) ;;
  '(Ts, GlobalTable) <-
    for_range 0 iters
      (fun i st =>
         for_range 0 (num_groups g)
           (fun gi '(Ts, GlobalTable) =>
              (* ... sbarrier *)
              each_thread (ColBP_III_build g iters i gi) Ts GlobalTable)
           st)
      (Ts, GlobalTable) ;;
  (* barrier *)
  '(Ts, _) <- each_thread ColBP_III_probe Ts GlobalTable ;;
  Some Ts.

(** *** join/run.c *)

(** [run_threads(join_thread)]: the partitioning, then the model the
    radix pair selects, every phase run by all the workers. *)
Definition join_threads (g : globals) (Ts : list thread_t)
  : option (globals * list thread_t) :=
  '(g1, Ts1) <-
    (if 0 <? Radix_R (Radix g) then
       '(g', Ts') <- ICP_S_all g Ts ;;
       ICP_R_all g' Ts'
     else Some (g, Ts)) ;;
  Ts2 <-
    (match join_thread_dispatch (Radix g1) with
     | Run Model_I => ColBP_I g1 Ts1
     | Run Model_II => ColBP_II g1 Ts1
     | Run Model_III => ColBP_III g1 Ts1
     | Run Model_IV => None
     | AssertFalse => None
     end) ;;
  Some (g1, Ts2).

(** [execute_join]: the totals it prints, [(total_matches,
    global_checksum)]. *)
Definition execute_join (g : globals) (Ts : list thread_t)
  : option (Z * Z) :=
  '(_, Ts') <- join_threads g Ts ;;
  Some (fold_left (fun acc T => u64 (acc + matches T)) Ts' 0,
        fold_left (fun acc T => u64 (acc + checksum T)) Ts' 0).

End BuildProbe.

(** ** util/cmd_args.c *)

Module CmdArgs.

Import Ascii String.

(** [#define LINEMAX 4096] of common.h. *)
Definition LINEMAX : Z := 4096.

(** What a call of [sscanf] with one conversion returns: 1 with the value
    stored, 0 on a matching failure, [EOF] when the input ends before
    anything is converted. *)
Inductive scanned (A : Type) :=
| Matched (v : A)
| MatchFailure
| InputEOF.
Arguments Matched {A} v.
Arguments MatchFailure {A}.
Arguments InputEOF {A}.

(** The return value of [sscanf] as a condition: [EOF] is -1. *)
Definition sscanf_true {A : Type} (r : scanned A) : bool :=
  match r with
  | Matched _ => true
  | MatchFailure => false
  | InputEOF => true
  end.

Definition is_space (c : ascii) : bool :=
  let n := Z.of_nat (nat_of_ascii c) in
  (n =? 32) || ((9 <=? n) && (n <=? 13)).

Definition digit_of (c : ascii) : option Z :=
  let n := Z.of_nat (nat_of_ascii c) in
  if (48 <=? n) && (n <=? 57) then Some (n - 48) else None.

Fixpoint skip_spaces (s : string) : string :=
  match s with
  | String c s' => if is_space c then skip_spaces s' else s
  | EmptyString => s
  end.

Fixpoint read_digits (s : string) (acc : Z) : Z :=
  match s with
  | String c s' =>
      match digit_of c with
      | Some d => read_digits s' (10 * acc + d)
      | None => acc
      end
  | EmptyString => acc
  end.

(** What [strtoul] makes of a sign and the value of the digits: a value
    that does not fit [unsigned long] becomes [ULONG_MAX], any other is
    negated under a minus sign. *)
Definition strtoul (minus : bool) (v : Z) : Z :=
  if 2 ^ 64 <=? v then 2 ^ 64 - 1
  else u64 (if minus then - v else v).

(** [sscanf(s, "%u", &ival)] of the C library: white space, an optional
    sign, decimal digits.  The input ending before the sign or the first
    digit is [EOF]; a sign or another character with no digit after it is
    a matching failure; the digits are converted as by [strtoul] and the
    result is stored in an [unsigned int]. *)
Definition sscanf_u (s : string) : scanned Z :=
  match skip_spaces s with
  | EmptyString => InputEOF
  | String c s' =>
      match digit_of c with
      | Some d => Matched (u32 (strtoul false (read_digits s' d)))
      | None =>
          if (c =? "+")%char || (c =? "-")%char then
            match s' with
            | EmptyString => MatchFailure
            | String c' s'' =>
                match digit_of c' with
                | Some d =>
                    Matched (u32 (strtoul (c =? "-")%char
                                    (read_digits s'' d)))
                | None => MatchFailure
                end
            end
          else MatchFailure
      end
  end.

(** Lines 32-38: the option name is copied to [buffer], the dashes
    skipped, up to the first [=] or the end of the argument; [argv[i]] is
    left after the [=], or at the terminator.  The result is the name and
    what [argv[i]] then points to. *)
Fixpoint scan_name (arg : string) (buffer : string) (pos : Z)
  : option (string * string) :=
  match arg with
  | EmptyString => Some (buffer, EmptyString)
  | String c rest =>
      if (c =? "-")%char then scan_name rest buffer pos
      else if (c =? "=")%char then Some (buffer, rest)
      else
        _ <- c_assert (pos <? LINEMAX - 1) ;;
        scan_name rest (buffer ++ String c EmptyString)%string (u32 (pos + 1))
  end.

Inductive message :=
| Msg_TODO
| Msg_help
| Msg_unrecognized (buffer : string).

Section Libc.

(** [double], and [sscanf(s, "%lf", &dval)]. *)
Variable double : Type.
Variable sscanf_lf : string -> scanned double.

(** [Threads], [Radix] and the locals [ival] and [dval], with what has
    been printed. *)
Record state := {
  Threads_N : Z;
  RelR_size : Z;
  RelS_size : Z;
  RelS_skew : double;
  favor_physical_cores : bool;
  Radix : radix_info_t;
  ival : Z;
  dval : double;
  printed : list message
}.

Inductive outcome :=
| Running (st : state)
| Exited (st : state).

Definition set_ival (st : state) (r : scanned Z) : state :=
  match r with
  | Matched v =>
      {| Threads_N := Threads_N st; RelR_size := RelR_size st;
         RelS_size := RelS_size st; RelS_skew := RelS_skew st;
         favor_physical_cores := favor_physical_cores st;
         Radix := Radix st; ival := v; dval := dval st;
         printed := printed st |}
  | _ => st
  end.

Definition set_dval (st : state) (r : scanned double) : state :=
  match r with
  | Matched v =>
      {| Threads_N := Threads_N st; RelR_size := RelR_size st;
         RelS_size := RelS_size st; RelS_skew := RelS_skew st;
         favor_physical_cores := favor_physical_cores st;
         Radix := Radix st; ival := ival st; dval := v;
         printed := printed st |}
  | _ => st
  end.

Definition set_Threads_N (st : state) (v : Z) : state :=
  {| Threads_N := v; RelR_size := RelR_size st;
     RelS_size := RelS_size st; RelS_skew := RelS_skew st;
     favor_physical_cores := favor_physical_cores st;
     Radix := Radix st; ival := ival st; dval := dval st;
     printed := printed st |}.

Definition set_RelR_size (st : state) (v : Z) : state :=
  {| Threads_N := Threads_N st; RelR_size := v;
     RelS_size := RelS_size st; RelS_skew := RelS_skew st;
     favor_physical_cores := favor_physical_cores st;
     Radix := Radix st; ival := ival st; dval := dval st;
     printed := printed st |}.

Definition set_RelS_size (st : state) (v : Z) : state :=
  {| Threads_N := Threads_N st; RelR_size := RelR_size st;
     RelS_size := v; RelS_skew := RelS_skew st;
     favor_physical_cores := favor_physical_cores st;
     Radix := Radix st; ival := ival st; dval := dval st;
     printed := printed st |}.

Definition set_RelS_skew (st : state) (v : double) : state :=
  {| Threads_N := Threads_N st; RelR_size := RelR_size st;
     RelS_size := RelS_size st; RelS_skew := v;
     favor_physical_cores := favor_physical_cores st;
     Radix := Radix st; ival := ival st; dval := dval st;
     printed := printed st |}.

Definition set_favor_physical_cores (st : state) (v : bool) : state :=
  {| Threads_N := Threads_N st; RelR_size := RelR_size st;
     RelS_size := RelS_size st; RelS_skew := RelS_skew st;
     favor_physical_cores := v;
     Radix := Radix st; ival := ival st; dval := dval st;
     printed := printed st |}.

Definition set_Radix (st : state) (v : radix_info_t) : state :=
  {| Threads_N := Threads_N st; RelR_size := RelR_size st;
     RelS_size := RelS_size st; RelS_skew := RelS_skew st;
     favor_physical_cores := favor_physical_cores st;
     Radix := v; ival := ival st; dval := dval st;
     printed := printed st |}.

Definition printf (st : state) (m : message) : state :=
  {| Threads_N := Threads_N st; RelR_size := RelR_size st;
     RelS_size := RelS_size st; RelS_skew := RelS_skew st;
     favor_physical_cores := favor_physical_cores st;
     Radix := Radix st; ival := ival st; dval := dval st;
     printed := printed st ++ [m] |}.

(** [!strcmp(buffer, name) && sscanf(argv[i], "%u", &ival)]: the state
    after the condition is evaluated, and its value. *)
Definition valued_u (buffer name value : string) (st : state)
  : state * bool :=
  if (buffer =? name)%string
  then (set_ival st (sscanf_u value), sscanf_true (sscanf_u value))
  else (st, false).

Definition valued_lf (buffer name value : string) (st : state)
  : state * bool :=
  if (buffer =? name)%string
  then (set_dval st (sscanf_lf value), sscanf_true (sscanf_lf value))
  else (st, false).

(** Lines 40-98: the chain of comparisons for one argument. *)
Definition compare_options (buffer value : string) (st : state) : outcome :=
  let '(st, c) := valued_u buffer "threads"%string value st in
  if c then Running (set_Threads_N st (ival st)) else
  let '(st, c) := valued_u buffer "r"%string value st in
  if c then Running (set_RelR_size st (ival st)) else
  let '(st, c) := valued_u buffer "s"%string value st in
  if c then Running (set_RelS_size st (ival st)) else
  let '(st, c) := valued_lf buffer "skew"%string value st in
  if c then Running (set_RelS_skew st (dval st)) else
  let '(st, c) := valued_u buffer "radix"%string value st in
  if c then
    Running (set_Radix st {| Radix_R := ival st; Radix_S := ival st;
                             user_defined := true |})
  else
  let '(st, c) := valued_u buffer "radixR"%string value st in
  if c then
    Running (set_Radix st {| Radix_R := ival st;
                             Radix_S := Radix_S (Radix st);
                             user_defined := true |})
  else
  let '(st, c) := valued_u buffer "radixS"%string value st in
  if c then
    Running (set_Radix st {| Radix_R := Radix_R (Radix st);
                             Radix_S := ival st;
                             user_defined := true |})
  else
  if (buffer =? "sched")%string then Exited (printf st Msg_TODO)
  else if (buffer =? "favor_hyperthreading")%string
  then Running (set_favor_physical_cores st false)
  else if (buffer =? "h")%string || (buffer =? "help")%string
  then Exited (printf st Msg_help)
  else
    match buffer with
    | EmptyString => Running st
    | String _ _ => Running (printf st (Msg_unrecognized buffer))
    end.

(** The body of the loop of line 28 for one argument. *)
Definition extract_arg (arg : string) (st : state) : option outcome :=
  '(buffer, value) <- scan_name arg EmptyString 0 ;;
  Some (compare_options buffer value st).

(** The loop of line 28 over [argv[1]], ..., [argv[argc - 1]]. *)
Fixpoint extract_args (args : list string) (st : state) : option outcome :=
  match args with
  | [] => Some (Running st)
  | arg :: args' =>
      r <- extract_arg arg st ;;
      match r with
      | Running st' => extract_args args' st'
      | Exited st' => Some (Exited st')
      end
  end.

(** [extract_cmd_args(argc, argv)], [args] the arguments after the
    program's name and [st] the globals on entry, [ival] and [dval] in it
    what the two uninitialised locals happen to hold. *)
Definition extract_cmd_args (args : list string) (st : state)
  : option outcome :=
  extract_args args
    (set_Radix st {| Radix_R := Radix_R (Radix st);
                     Radix_S := Radix_S (Radix st);
                     user_defined := false |}).

End Libc.

End CmdArgs.

(** ** common.h: the random number generator *)

(** [randgen_t]: the four words [w], [x], [y], [z]. *)
Record randgen_t := { G_w : Z; G_x : Z; G_y : Z; G_z : Z }.

(** [xorshift128(G)]: the value returned and the state left in [*G]. *)
Definition xorshift128 (G : randgen_t) : Z * randgen_t :=
  let t := G_x G in
  let t := Z.lxor t (u32 (Z.shiftl t 11)) in
  let t := Z.lxor t (Z.shiftr t 8) in
  let w := Z.lxor (G_w G) (Z.shiftr (G_w G) 19) in
  let w := Z.lxor w t in
  (w, {| G_w := w; G_x := G_y G; G_y := G_z G; G_z := G_w G |}).

(** [while ((r = xorshift128(G)) < threshold);] with [fuel] bounding the
    number of draws. *)
Fixpoint randgen_loop (fuel : nat) (threshold : Z) (G : randgen_t)
  : option (Z * randgen_t) :=
  match fuel with
  | O => None
  | S fuel' =>
      let '(r, G') := xorshift128 G in
      if r <? threshold then randgen_loop fuel' threshold G'
      else Some (r, G')
  end.

(** [randgen(max, G)]; [-max % max] and [r % max] divide by [max]. *)
Definition randgen (fuel : nat) (max : Z) (G : randgen_t)
  : option (Z * randgen_t) :=
  threshold <- c_mod (u32 (- max)) max ;;
  '(r, G') <- randgen_loop fuel threshold G ;;
  v <- c_mod r max ;;
  Some (v, G').

(** ** util/generate.c *)

(** [seed(seed)]: the state written to the global [G]. *)
Definition seed (s : Z) : randgen_t :=
  {| G_w := u32 (67819 + s); G_x := u32 (2 + s);
     G_y := u32 (138 + s); G_z := u32 (9127 + s) |}.

(** The shuffle loop of lines 139-144 and 196-203,
    [for(i = N-1; i > 0; i--) { j = randgen(i, &G); swap the keys at i, j }],
    on an array whose cells hold a key read with [get] and written with
    [set]; the array starts at offset [off] of [T]; [n] is [i] on entry. *)
Fixpoint shuffle {A : Type} (get : A -> Z) (set : A -> Z -> A)
    (fuel : nat) (n : nat) (T : list A) (off : Z) (G : randgen_t)
  : option (list A * randgen_t) :=
  match n with
  | O => Some (T, G)
  | S n' =>
      let i := Z.of_nat n in
      '(j, G') <- randgen fuel i G ;;
      ti <- rd T (off + i) ;;
      let tmp := get ti in
      tj <- rd T (off + j) ;;
      T1 <- wr T (off + i) (set ti (get tj)) ;;
      tj' <- rd T1 (off + j) ;;
      T2 <- wr T1 (off + j) (set tj' tmp) ;;
      shuffle get set fuel n' T2 off G'
  end.

(** [T[i].key = k]. *)
Definition set_key (t : tuple_t) (k : Z) : tuple_t :=
  {| key := k; payload := payload t |}.

(** [permutation(T + off, N)], lines 136-147. *)
Definition permutation (fuel : nat) (T : list tuple_t) (off N : Z)
    (G : randgen_t) : option (list tuple_t * randgen_t) :=
  if N =? 0 then Some (T, G)
  else
    T1 <- for_range 0 N
            (fun i T =>
               t <- rd T (off + i) ;;
               wr T (off + i) (set_key t (u32 (i + 1))))
            T ;;
    shuffle key set_key fuel (Z.to_nat (u32 (N - 1))) T1 off G.

(** [fill_primary_keys(RelR)]: [seed_R] is [RelR->seed], [T] and [N] the
    array and the size of the relation. *)
Definition fill_primary_keys (fuel : nat) (seed_R : Z) (T : list tuple_t)
    (N : Z) : option (list tuple_t * randgen_t) :=
  permutation fuel T 0 N (seed seed_R).

(** [fill_foreign_keys(RelR, RelS)]: [sizeR] is [RelR->size], [seed_S],
    [T] and [sizeS] are the seed, the array and the size of [RelS]. *)
Definition fill_foreign_keys (fuel : nat) (sizeR : Z) (seed_S : Z)
    (T : list tuple_t) (sizeS : Z) : option (list tuple_t * randgen_t) :=
  let G := seed seed_S in
  ratio <- c_div sizeS sizeR ;;
  '(T, G) <-
    for_range 0 ratio
      (fun i '(T, G) => permutation fuel T (u32 (i * sizeR)) sizeR G)
      (T, G) ;;
  remainder <- c_mod sizeS sizeR ;;
  permutation fuel T (u32 (ratio * sizeR)) remainder G.

(** *** [fill_skewed_keys]

    The floating-point operations and [rand] of the C library are
    parameters: [of_Z] is the conversion of an integer to [double],
    [rand s n] the [n]-th value [rand()] returns after [srand(s)]. *)

Section Libm.

Variable double : Type.
Variable of_Z : Z -> double.
Variables fadd fdiv pow : double -> double -> double.
Variables flt fge : double -> double -> bool.
Variable RAND_MAX : Z.
Variable rand : Z -> nat -> Z.

(** What [SafeMalloc] hands out for [Keys] and [Table]. *)
Variable junk_keys : nat -> Z.
Variable junk_table : nat -> double.

(** [while(r - l > 1) { m = l + (r - l) / 2; ... }], lines 222-224. *)
Fixpoint skew_search (fuel : nat) (Table : list double) (x : double)
    (l r : Z) : option Z :=
  if 1 <? u32 (r - l) then
    match fuel with
    | O => None
    | S fuel' =>
        let m := u32 (l + u32 (r - l) / 2) in
        tm <- rd Table m ;;
        if flt tm x then skew_search fuel' Table x m r
        else skew_search fuel' Table x l m
    end
  else Some r.

(** Lines 186-235.  [z] is [RelS->skew]; the search halves a distance
    below [2 ^ 32], so 32 rounds are enough for it. *)
Definition fill_skewed_keys (fuel : nat) (sizeR : Z) (seed_S : Z)
    (z : double) (T : list tuple_t) (sizeS : Z)
  : option (list tuple_t * randgen_t) :=
  let G := seed seed_S in
  let Keys := map junk_keys (seq 0 (Z.to_nat sizeR)) in
  Keys <- for_range 0 sizeR (fun i Keys => wr Keys i (u32 (i + 1))) Keys ;;
  '(Keys, G) <- shuffle (fun k => k) (fun _ k => k) fuel
                  (Z.to_nat (u32 (sizeR - 1))) Keys 0 G ;;
  let Table := map junk_table (seq 0 (Z.to_nat sizeR)) in
  let term i := fdiv (of_Z 1) (pow (of_Z (u32 (i + 1))) z) in
  d <- for_range 0 sizeR (fun i d => Some (fadd d (term i))) (of_Z 0) ;;
  '(_, Table) <-
    for_range 0 sizeR
      (fun i '(s, Table) =>
         let s := fadd s (term i) in
         Table <- wr Table i (fdiv s d) ;;
         Some (s, Table))
      (of_Z 0, Table) ;;
  T <- for_range 0 sizeS
         (fun i T =>
            let x := fdiv (of_Z (rand seed_S (Z.to_nat i))) (of_Z RAND_MAX) in
            t0 <- rd Table 0 ;;
            let r := if fge t0 x then 0 else u32 (sizeR - 1) in
            r <- skew_search 32 Table x 0 r ;;
            k <- rd Keys r ;;
            t <- rd T i ;;
            wr T i (set_key t k))
         T ;;
  Some (T, G).

(** *** [create_rel]

    [PageAlignedAlloc] hands out the cells [junk_tuples]; the state the
    workers share is the array [Rel->tuples]. *)

Variable junk_tuples : rel_id -> nat -> tuple_t.

Definition Sub_of (which : rel_id) (T : thread_t) : relation_t :=
  match which with id_R => SubR T | id_S => SubS T end.

Definition set_tuples (which : rel_id) (T : thread_t) (l : list tuple_t)
  : thread_t :=
  let Sub := Sub_of which T in
  let Sub' := {| tuples := l; size := size Sub; offset := offset Sub;
                 id := id Sub |} in
  match which with
  | id_R => set_SubR T Sub' (BlocksR T)
  | id_S => set_SubS T Sub' (BlocksS T)
  end.

(** Line 41: [memset(Rel->tuples + Sub->offset, 0, ...)]. *)
Definition create_rel_zero (which : rel_id) (T : thread_t)
    (Rel : list tuple_t) : option (thread_t * list tuple_t) :=
  let Sub := Sub_of which T in
  Rel' <- for_range (offset Sub) (offset Sub + size Sub)
            (fun i Rel => wr Rel i {| key := 0; payload := 0 |}) Rel ;;
  Some (T, Rel').

(** Lines 45-49: worker zero fills the relation.  [skewed] is
    [Rel->skew > 0.0]. *)
Definition create_rel_fill (fuel : nat) (which : rel_id)
    (sizeR sizeS seed_R seed_S : Z) (skewed : bool) (z : double)
    (T : thread_t) (Rel : list tuple_t) : option (thread_t * list tuple_t) :=
  if tid T =? 0 then
    match which with
    | id_R =>
        '(Rel', _) <- fill_primary_keys fuel seed_R Rel sizeR ;;
        Some (T, Rel')
    | id_S =>
        '(Rel', _) <-
          (if skewed then fill_skewed_keys fuel sizeR seed_S z Rel sizeS
           else fill_foreign_keys fuel sizeR seed_S Rel sizeS) ;;
        Some (T, Rel')
    end
  else Some (T, Rel).

(** [realloc(p, n * sizeof(tuple_t))]. *)
Definition realloc (which : rel_id) (Rel : list tuple_t) (n : Z)
  : list tuple_t :=
  firstn (Z.to_nat n) Rel
  ++ map (junk_tuples which) (seq (length Rel) (Z.to_nat n - length Rel)).

(** Lines 56-60, for the worker whose turn it is. *)
Definition create_rel_localize (which : rel_id) (t : Z) (T : thread_t)
    (Rel : list tuple_t) : option (thread_t * list tuple_t) :=
  if t =? tid T then
    let Sub := Sub_of which T in
    _ <- c_assert ((0 <=? offset Sub) && (0 <=? size Sub)
                   && (offset Sub + size Sub <=? len Rel)) ;;
    let copy := firstn (Z.to_nat (size Sub))
                  (skipn (Z.to_nat (offset Sub)) Rel) in
    Some (set_tuples which T copy, realloc which Rel (offset Sub))
  else Some (T, Rel).

(** [for(int t = Threads.N - 1; t >= 0; t--) { ...; barrier(); }]. *)
Fixpoint create_rel_turns (which : rel_id) (n : nat) (Ts : list thread_t)
    (Rel : list tuple_t) : option (list thread_t * list tuple_t) :=
  match n with
  | O => Some (Ts, Rel)
  | S n' =>
      '(Ts', Rel') <-
        each_thread (create_rel_localize which (Z.of_nat n')) Ts Rel ;;
      create_rel_turns which n' Ts' Rel'
  end.

(** [create_rel] run by all the workers, phase by phase. *)
Definition create_rel (fuel : nat) (which : rel_id)
    (N sizeR sizeS seed_R seed_S : Z) (skewed : bool) (z : double)
    (Ts : list thread_t) : option (list thread_t) :=
  let Rel_size := match which with id_R => sizeR | id_S => sizeS end in
  let Rel := map (junk_tuples which) (seq 0 (Z.to_nat Rel_size)) in
  (* barrier *)
  '(Ts, Rel) <- each_thread (create_rel_zero which) Ts Rel ;;
  (* barrier *)
  '(Ts, Rel) <- each_thread
                  (create_rel_fill fuel which sizeR sizeS seed_R seed_S
                     skewed z) Ts Rel ;;
  (* barrier *)
  '(Ts, _) <- create_rel_turns which (Z.to_nat N) Ts Rel ;;
  Some Ts.

(** [run_threads(create_R); run_threads(create_S);] of main.c, with
    [create_R_first] as [create_R] leaves it. *)
Definition create_relations (fuel : nat) (N sizeR sizeS seed_R seed_S : Z)
    (skewed : bool) (z : double) (Ts : list thread_t)
  : option (list thread_t) :=
  let create_R_first := negb ((16 * 128 * 1000 * 1000 <? sizeS) && skewed) in
  Ts <- (if create_R_first
         then create_rel fuel id_R N sizeR sizeS seed_R seed_S skewed z Ts
         else Some Ts) ;;
  Ts <- create_rel fuel id_S N sizeR sizeS seed_R seed_S skewed z Ts ;;
  if create_R_first then Some Ts
  else create_rel fuel id_R N sizeR sizeS seed_R seed_S skewed z Ts.

End Libm.

(** ** util/sys_info.h *)

Record cpu_t := { cpu_id : Z; cpu_core : Z; cpu_llc : Z }.

Record core_t := {
  core_id : Z;
  core_num_cpus : Z;
  core_CPUs : list cpu_t;
  core_llc : Z
}.

Record llc_t := { llc_id : Z; llc_num_cores : Z; llc_Cores : list core_t }.

Record sys_info_t := {
  llc_size : Z;
  LLCs : list llc_t;
  num_llcs : Z;
  num_cores : Z;
  num_cpus : Z;
  cores_per_llc : Z;
  cpus_per_core : Z
}.

(** ** util/util.c: [barrier_init] *)

Definition MAXTIDS : Z := 2048.
Definition MAGICNUM : Z := 8.

(** The assertions of [barrier_init]. *)
Definition barrier_init (N : Z) : option unit :=
  _ <- c_assert (N <=? MAXTIDS) ;;
  _ <- c_assert (3 <? MAGICNUM) ;;
  _ <- c_assert (MAGICNUM <? Z.shiftl 1 8) ;;
  c_assert (MAXTIDS <? Z.shiftl 1 16).

(** ** util/threads.c *)

(** The counters of the loop of [prepare_threads_meta] and the thread
    table it fills, every worker with the CPU it is pinned to. *)
Record meta_state := {
  ms_llc : Z;
  ms_cores_on_llc : list Z;
  ms_cpus_on_core : list Z;
  ms_R_leftover : Z;
  ms_S_leftover : Z;
  ms_Args : list (thread_t * cpu_t)
}.

(** [section + (leftover > 0 && leftover--)]: the size, and [leftover]
    afterwards. *)
Definition take_share (section leftover : Z) : Z * Z :=
  if 0 <? leftover then (u32 (section + 1), u32 (leftover - 1))
  else (u32 (section + 0), leftover).

(** Lines 95-120: the body of the loop for worker [t]. *)
Definition prepare_thread (SysInfo : sys_info_t)
    (utilized_llcs utilized_cpus_per_core : Z)
    (R_section S_section R_remainder S_remainder : Z)
    (t : Z) (st : meta_state) : option meta_state :=
  let offR := u32 (u32 (t * R_section) + u32 (R_remainder - ms_R_leftover st)) in
  let offS := u32 (u32 (t * S_section) + u32 (S_remainder - ms_S_leftover st)) in
  let '(sizeR, R_leftover) := take_share R_section (ms_R_leftover st) in
  let '(sizeS, S_leftover) := take_share S_section (ms_S_leftover st) in
  let llc := ms_llc st in
  L <- rd (LLCs SysInfo) llc ;;
  c <- rd (ms_cores_on_llc st) llc ;;
  core <- rd (llc_Cores L) c ;;
  h <- rd (ms_cpus_on_core st) (core_id core) ;;
  CPU <- rd (core_CPUs core) h ;;
  cpus_on_core <- wr (ms_cpus_on_core st) (core_id core) (u32 (h + 1)) ;;
  cores_on_llc <-
    (if u32 (h + 1) =? utilized_cpus_per_core
     then wr (ms_cores_on_llc st) llc (u32 (c + 1))
     else Some (ms_cores_on_llc st)) ;;
  llc' <- c_mod (u32 (llc + 1)) utilized_llcs ;;
  let T :=
    {| tid := t; group := llc;
       SubR := {| tuples := []; size := sizeR; offset := offR; id := id_R |};
       SubS := {| tuples := []; size := sizeS; offset := offS; id := id_S |};
       BlocksR := {| blocks_N := 0; Pos := [] |};
       BlocksS := {| blocks_N := 0; Pos := [] |};
       matches := 0; checksum := 0 |} in
  Some {| ms_llc := llc';
          ms_cores_on_llc := cores_on_llc;
          ms_cpus_on_core := cpus_on_core;
          ms_R_leftover := R_leftover;
          ms_S_leftover := S_leftover;
          ms_Args := ms_Args st ++ [(T, CPU)] |}.

(** What [prepare_threads_meta] leaves in [Threads]. *)
Record threads_meta := {
  Args : list (thread_t * cpu_t);
  tm_num_groups : Z;
  utilized_llcs : Z;
  utilized_cpus_per_core : Z
}.

(** [prepare_threads_meta()]; [N], [sizeR] and [sizeS] are [Threads.N],
    [RelR->size] and [RelS->size].  [abort()] stops the run as a failed
    assertion does. *)
Definition prepare_threads_meta (SysInfo : sys_info_t)
    (favor_physical_cores : bool) (N sizeR sizeS : Z)
  : option threads_meta :=
  let cpus_per_llc :=
    if favor_physical_cores && (N <=? num_cores SysInfo)
    then cores_per_llc SysInfo
    else u32 (cpus_per_core SysInfo * cores_per_llc SysInfo) in
  utilized_llcs <- div_ceil N cpus_per_llc ;;
  let utilizable_cores := u32 (utilized_llcs * cores_per_llc SysInfo) in
  utilized_cpus_per_core <- div_ceil N utilizable_cores ;;
  _ <- c_assert (negb (num_llcs SysInfo <? utilized_llcs)) ;;
  R_section <- c_div sizeR N ;;
  S_section <- c_div sizeS N ;;
  R_remainder <- c_mod sizeR N ;;
  S_remainder <- c_mod sizeS N ;;
  _ <- c_assert (N <=? num_cpus SysInfo) ;;
  st <- for_range 0 N
          (prepare_thread SysInfo utilized_llcs utilized_cpus_per_core
             R_section S_section R_remainder S_remainder)
          {| ms_llc := 0;
             ms_cores_on_llc := repeat 0 (Z.to_nat utilized_llcs);
             ms_cpus_on_core := repeat 0 (Z.to_nat (num_cores SysInfo));
             ms_R_leftover := R_remainder;
             ms_S_leftover := S_remainder;
             ms_Args := [] |} ;;
  _ <- barrier_init N ;;
  Some {| Args := ms_Args st;
          tm_num_groups := utilized_llcs;
          utilized_llcs := utilized_llcs;
          utilized_cpus_per_core := utilized_cpus_per_core |}.

(** ** main.c *)

(** Lines 63-66: the radix bits [main] selects; [size_t] is 64 bits
    wide. *)
Definition select_radix (SysInfo : sys_info_t) (Radix : radix_info_t)
    (sizeR : Z) : option radix_info_t :=
  qx <- c_div (u64 (4 * sizeR)) (u64 (llc_size SysInfo * 6) / 5) ;;
  let ratiox := u32 qx in
  q <- c_div (u64 (4 * sizeR)) (u64 (llc_size SysInfo * 2) / 3) ;;
  let ratio := u32 q in
  if negb (user_defined Radix) && (1 <=? ratiox) then
    r <- lg_ceil ratio ;;
    Some {| Radix_R := r; Radix_S := r; user_defined := user_defined Radix |}
  else Some Radix.

(** [main]: what the run leaves on the terminal that depends on the
    arguments, that is the messages of [extract_cmd_args] and, for a run
    that reaches the join, the radix bits of the "Join Info" line and the
    totals of [execute_join]. *)
Inductive main_outcome :=
| Main_exit (printed : list CmdArgs.message)
| Main_joined (printed : list CmdArgs.message) (Radix : radix_info_t)
    (total_matches global_checksum : Z).

Section Main.

Variable TEST_KEY_INPLACEOF_PAYLOAD : bool.
Variable junk : Z -> nat -> Z.

(** The order of the lines of the cleanup of [ColBP_II]. *)
Variable sched : list Z.

Variable double : Type.
Variable of_Z : Z -> double.
Variables fadd fdiv pow : double -> double -> double.
Variables flt fge : double -> double -> bool.
Variable RAND_MAX : Z.
Variable rand : Z -> nat -> Z.
Variable junk_keys : nat -> Z.
Variable junk_table : nat -> double.
Variable junk_tuples : rel_id -> nat -> tuple_t.
Variable sscanf_lf : String.string -> CmdArgs.scanned double.

(** Lines 40-49: the defaults; [ival0] and [dval0] are what the
    uninitialised locals of [extract_cmd_args] hold. *)
Definition default_state (SysInfo : sys_info_t) (ival0 : Z) (dval0 : double)
  : CmdArgs.state double :=
  {| CmdArgs.Threads_N := num_cpus SysInfo;
     CmdArgs.RelR_size := 128 * 1000 * 100;
     CmdArgs.RelS_size := 128 * 1000 * 100;
     CmdArgs.RelS_skew := of_Z 0;
     CmdArgs.favor_physical_cores := true;
     CmdArgs.Radix := {| Radix_R := 0; Radix_S := 0; user_defined := false |};
     CmdArgs.ival := ival0; CmdArgs.dval := dval0;
     CmdArgs.printed := [] |}.

(** [SysInfo] is what [sys_info_prepare] found; that function aborts
    when it has no LLC size. *)
Definition main (fuel : nat) (SysInfo : sys_info_t)
    (args : list String.string) (ival0 : Z) (dval0 : double)
  : option main_outcome :=
  _ <- c_assert (negb (llc_size SysInfo =? 0)) ;;
  let st0 := default_state SysInfo ival0 dval0 in
  out <- CmdArgs.extract_cmd_args double sscanf_lf args st0 ;;
  match out with
  | CmdArgs.Exited _ st => Some (Main_exit (CmdArgs.printed _ st))
  | CmdArgs.Running _ st =>
      let N := CmdArgs.Threads_N _ st in
      let sizeR := CmdArgs.RelR_size _ st in
      let sizeS := CmdArgs.RelS_size _ st in
      let skew := CmdArgs.RelS_skew _ st in
      tm <- prepare_threads_meta SysInfo (CmdArgs.favor_physical_cores _ st)
              N sizeR sizeS ;;
      Radix <- select_radix SysInfo (CmdArgs.Radix _ st) sizeR ;;
      Ts <- create_relations double of_Z fadd fdiv pow flt fge RAND_MAX rand
              junk_keys junk_table junk_tuples fuel N sizeR sizeS 12345 54321
              (flt (of_Z 0) skew) skew (map fst (Args tm)) ;;
      let g := {| Radix := Radix; Threads_N := N;
                  num_groups := tm_num_groups tm;
                  RelR_size := sizeR; RelS_size := sizeS;
                  HighSkewObserved := 0; ChangedRadixS := false;
                  ModelIII_shift := 0 |} in
      '(total_matches, global_checksum) <-
        execute_join TEST_KEY_INPLACEOF_PAYLOAD junk sched g Ts ;;
      Some (Main_joined (CmdArgs.printed _ st) Radix
              total_matches global_checksum)
  end.

End Main.

(** ** util/util.c: [sbarrier]

    The workers run [sbarrier] concurrently.  A worker is followed
    through the function statement by statement, every step with one
    access to the shared arrays at most; the accesses of the workers
    interleave.  [Step] and [Barrier] are the two static arrays, and every
    worker has a place in the function with its locals [step] and [w]. *)

Inductive sb_pc :=
| SB_out                    (* not in [sbarrier] *)
| SB_loop (step w : Z)      (* at the test of the [while] *)
| SB_after (step : Z)       (* after the loop and [__sync_synchronize] *)
| SB_incr.                  (* before the assignment to [Step[tid]] *)

Record sb_state := {
  sb_Step : list Z;
  sb_Barrier : list Z;
  sb_pcs : list sb_pc
}.

(** The statement a step runs. *)
Inductive sb_event :=
| Ev_arrive     (* [step = Step[tid]] and [__sync_add_and_fetch] *)
| Ev_spin       (* [w != Threads.N], then [w = Barrier[step]] *)
| Ev_pass       (* [w == Threads.N]: the loop ends *)
| Ev_clear      (* [if(tid == 0) Barrier[...] = 0] *)
| Ev_return.    (* [Step[tid] = (Step[tid] + 1) % MAGICNUM] *)

(** [barrier_init]: the two loops. *)
Definition sb_init (N : Z) : sb_state :=
  {| sb_Step := repeat 0 (Z.to_nat MAXTIDS);
     sb_Barrier := repeat 0 (Z.to_nat MAGICNUM);
     sb_pcs := repeat SB_out (Z.to_nat N) |}.

(** The next step of worker [tid] in [sbarrier(tid)]; a worker that is
    not in the function calls it.  [N] is [Threads.N]. *)
Definition sbarrier_step (N tid : Z) (s : sb_state)
  : option (sb_event * sb_state) :=
  pc <- rd (sb_pcs s) tid ;;
  match pc with
  | SB_out =>
      step <- rd (sb_Step s) tid ;;
      b <- rd (sb_Barrier s) step ;;
      let w := u16 (b + 1) in
      Barrier' <- wr (sb_Barrier s) step w ;;
      pcs' <- wr (sb_pcs s) tid (SB_loop step w) ;;
      Some (Ev_arrive,
            {| sb_Step := sb_Step s; sb_Barrier := Barrier';
               sb_pcs := pcs' |})
  | SB_loop step w =>
      if w =? N then
        pcs' <- wr (sb_pcs s) tid (SB_after step) ;;
        Some (Ev_pass,
              {| sb_Step := sb_Step s; sb_Barrier := sb_Barrier s;
                 sb_pcs := pcs' |})
      else
        w' <- rd (sb_Barrier s) step ;;
        pcs' <- wr (sb_pcs s) tid (SB_loop step w') ;;
        Some (Ev_spin,
              {| sb_Step := sb_Step s; sb_Barrier := sb_Barrier s;
                 sb_pcs := pcs' |})
  | SB_after step =>
      Barrier' <-
        (if tid =? 0
         then wr (sb_Barrier s)
                (if step =? 0 then MAGICNUM - 1 else step - 1) 0
         else Some (sb_Barrier s)) ;;
      pcs' <- wr (sb_pcs s) tid SB_incr ;;
      Some (Ev_clear,
            {| sb_Step := sb_Step s; sb_Barrier := Barrier';
               sb_pcs := pcs' |})
  | SB_incr =>
      st <- rd (sb_Step s) tid ;;
      Step' <- wr (sb_Step s) tid (u8 ((st + 1) mod MAGICNUM)) ;;
      pcs' <- wr (sb_pcs s) tid SB_out ;;
      Some (Ev_return,
            {| sb_Step := Step'; sb_Barrier := sb_Barrier s;
               sb_pcs := pcs' |})
  end.

(** The workers step in the order [sched] names them; the result is the
    steps taken and the state reached. *)
Fixpoint sb_run (N : Z) (sched : list Z) (s : sb_state)
  : option (list (Z * sb_event) * sb_state) :=
  match sched with
  | [] => Some ([], s)
  | tid :: sched' =>
      '(ev, s') <- sbarrier_step N tid s ;;
      '(evs, s'') <- sb_run N sched' s' ;;
      Some ((tid, ev) :: evs, s'')
  end.

(** ** util/sys_info.c: [prepare_sys_hierarchy]

    The function from the loop that reads the CPUs on: [CPUs] holds what
    [sscanf] stored for each line of [lscpu], in the order of the lines.
    The arrays [core->CPUs] and [llc->Cores] hold pointers into [CPUs]
    and [Cores]; they are indices here, [None] for the null pointer
    [calloc] leaves, and the cells of [Cores] and [LLCs] are records of
    their own. *)

Record core_cell := {
  cc_id : Z;
  cc_num_cpus : Z;
  cc_CPUs : list (option Z);
  cc_llc : Z
}.

Record llc_cell := {
  lc_id : Z;
  lc_num_cores : Z;
  lc_Cores : list (option Z)
}.

Definition UINT_MAX : Z := 2 ^ 32 - 1.

(** [MIN] and [MAX] of common.h. *)
Definition MIN (X Y : Z) : Z := if X <? Y then X else Y.
Definition MAX (X Y : Z) : Z := if Y <? X then X else Y.

(** What [calloc] hands out for a cell. *)
Definition calloc_core : core_cell :=
  {| cc_id := 0; cc_num_cpus := 0; cc_CPUs := []; cc_llc := 0 |}.
Definition calloc_llc : llc_cell :=
  {| lc_id := 0; lc_num_cores := 0; lc_Cores := [] |}.

(** Lines 200-214: the numbers of cores and of LLCs, while the lines are
    read. *)
Definition count_ids (CPUs : list cpu_t) : Z * Z :=
  fold_left
    (fun (n : Z * Z) cpu =>
       (MAX (fst n) (u32 (cpu_core cpu + 1)),
        MAX (snd n) (u32 (cpu_llc cpu + 1))))
    CPUs (0, 0).

(** Lines 224-227: the number of CPUs and the LLC of every core. *)
Definition count_cpus (CPUs : list cpu_t) (num_cpus : Z)
    (Cores : list core_cell) : option (list core_cell) :=
  for_range 0 num_cpus
    (fun i Cores =>
       cpu <- rd CPUs i ;;
       core <- rd Cores (cpu_core cpu) ;;
       wr Cores (cpu_core cpu)
         {| cc_id := cc_id core; cc_num_cpus := u32 (cc_num_cpus core + 1);
            cc_CPUs := cc_CPUs core; cc_llc := cpu_llc cpu |})
    Cores.

(** Lines 231-247: the cores are prepared and counted for their LLCs;
    the state is [SysInfo.cpus_per_core], [Cores] and [LLCs]. *)
Definition prepare_cores (num_cores : Z)
    (st : Z * list core_cell * list llc_cell)
  : option (Z * list core_cell * list llc_cell) :=
  for_range 0 num_cores
    (fun i '(cpus_per_core, Cores, LLCs) =>
       core <- rd Cores i ;;
       _ <- c_assert (0 <? cc_num_cpus core) ;;
       let cpus_per_core := MIN cpus_per_core (cc_num_cpus core) in
       Cores' <- wr Cores i
                   {| cc_id := i; cc_num_cpus := 0;
                      cc_CPUs := repeat None (Z.to_nat (cc_num_cpus core));
                      cc_llc := cc_llc core |} ;;
       llc <- rd LLCs (cc_llc core) ;;
       LLCs' <- wr LLCs (cc_llc core)
                  {| lc_id := lc_id llc;
                     lc_num_cores := u32 (lc_num_cores llc + 1);
                     lc_Cores := lc_Cores llc |} ;;
       Some (cpus_per_core, Cores', LLCs'))
    st.

(** Lines 251-263: the LLCs are prepared; the state is
    [SysInfo.cores_per_llc] and [LLCs]. *)
Definition prepare_llcs (num_llcs : Z) (st : Z * list llc_cell)
  : option (Z * list llc_cell) :=
  for_range 0 num_llcs
    (fun i '(cores_per_llc, LLCs) =>
       llc <- rd LLCs i ;;
       _ <- c_assert (0 <? lc_num_cores llc) ;;
       let cores_per_llc := MIN cores_per_llc (lc_num_cores llc) in
       LLCs' <- wr LLCs i
                  {| lc_id := i; lc_num_cores := 0;
                     lc_Cores := repeat None (Z.to_nat (lc_num_cores llc)) |} ;;
       Some (cores_per_llc, LLCs'))
    st.

(** Lines 267-271: every CPU is appended to the list of its core. *)
Definition append_cpus (CPUs : list cpu_t) (num_cpus : Z)
    (Cores : list core_cell) : option (list core_cell) :=
  for_range 0 num_cpus
    (fun i Cores =>
       cpu <- rd CPUs i ;;
       core <- rd Cores (cpu_core cpu) ;;
       CPUs' <- wr (cc_CPUs core) (cc_num_cpus core) (Some i) ;;
       wr Cores (cpu_core cpu)
         {| cc_id := cc_id core; cc_num_cpus := u32 (cc_num_cpus core + 1);
            cc_CPUs := CPUs'; cc_llc := cc_llc core |})
    Cores.

(** Lines 274-278: every core is appended to the list of its LLC. *)
Definition append_cores (num_cores : Z) (Cores : list core_cell)
    (LLCs : list llc_cell) : option (list llc_cell) :=
  for_range 0 num_cores
    (fun i LLCs =>
       core <- rd Cores i ;;
       llc <- rd LLCs (cc_llc core) ;;
       Cores' <- wr (lc_Cores llc) (lc_num_cores llc) (Some i) ;;
       wr LLCs (cc_llc core)
         {| lc_id := lc_id llc; lc_num_cores := u32 (lc_num_cores llc + 1);
            lc_Cores := Cores' |})
    LLCs.

(** The pointers followed: the core a cell of [Cores] describes, with its
    CPUs, and the LLC a cell of [LLCs] describes, with its cores. *)
Definition core_of_cell (CPUs : list cpu_t) (cell : core_cell)
  : option core_t :=
  cpus <- map_opt (fun p : option Z => i <- p ;; rd CPUs i) (cc_CPUs cell) ;;
  Some {| core_id := cc_id cell; core_num_cpus := cc_num_cpus cell;
          core_CPUs := cpus; core_llc := cc_llc cell |}.

Definition llc_of_cell (CPUs : list cpu_t) (Cores : list core_cell)
    (cell : llc_cell) : option llc_t :=
  cores <- map_opt (fun p : option Z =>
                      i <- p ;; c <- rd Cores i ;; core_of_cell CPUs c)
             (lc_Cores cell) ;;
  Some {| llc_id := lc_id cell; llc_num_cores := lc_num_cores cell;
          llc_Cores := cores |}.

(** [prepare_sys_hierarchy] from line 200 on, and [SysInfo] as it leaves
    it; [llc_size0] is the size [prepare_llc_info] found. *)
Definition prepare_sys_hierarchy (llc_size0 : Z) (CPUs : list cpu_t)
  : option sys_info_t :=
  let num_cpus := u32 (len CPUs) in
  let '(num_cores, num_llcs) := count_ids CPUs in
  let Cores := repeat calloc_core (Z.to_nat num_cores) in
  let LLCs := repeat calloc_llc (Z.to_nat num_llcs) in
  Cores <- count_cpus CPUs num_cpus Cores ;;
  '(cpus_per_core, Cores, LLCs) <-
    prepare_cores num_cores (UINT_MAX, Cores, LLCs) ;;
  '(cores_per_llc, LLCs) <- prepare_llcs num_llcs (UINT_MAX, LLCs) ;;
  Cores <- append_cpus CPUs num_cpus Cores ;;
  LLCs <- append_cores num_cores Cores LLCs ;;
  LLCs' <- map_opt (llc_of_cell CPUs Cores) LLCs ;;
  Some {| llc_size := llc_size0;
          LLCs := LLCs';
          num_llcs := num_llcs; num_cores := num_cores; num_cpus := num_cpus;
          cores_per_llc := cores_per_llc; cpus_per_core := cpus_per_core |}.

(** * Definitions for the statements *)

(** ** The dispatch and the table sizes as the specification words them *)

(** The dispatch as the specification words it (section 4.1). *)
Definition spec_dispatch (r s : Z) : dispatch :=
  if (r =? 0) && (s =? 0) then Run Model_I
  else if (r =? s) && (0 <? r) then Run Model_II
  else if (0 <? r) && (s =? 0) then Run Model_III
  else if (s <? r) && (0 <? s) then Run Model_IV
  else AssertFalse.

(** The least power of two that is at least [n]. *)
Definition next_pow2 (n : Z) : Z := 2 ^ Z.log2_up n.

(** The table size of Model II as the specification words it:
    the next power of two of the ceiling of |R| / 2^R_bits. *)
Definition spec_CPRA_HTable_size (R_size R_bits : Z) : Z :=
  next_pow2 ((R_size + 2 ^ R_bits - 1) / 2 ^ R_bits).

(** The same with "next power of two" read as the least power of two
    strictly above its argument. *)
Definition spec_CPRA_HTable_size_above (R_size R_bits : Z) : Z :=
  2 ^ (Z.log2 ((R_size + 2 ^ R_bits - 1) / 2 ^ R_bits) + 1).

Definition mk_globals (r s : Z) (ud : bool) (N G sizeR sizeS : Z) : globals :=
  {| Radix := {| Radix_R := r; Radix_S := s; user_defined := ud |};
     Threads_N := N; num_groups := G;
     RelR_size := sizeR; RelS_size := sizeS;
     HighSkewObserved := 0; ChangedRadixS := false; ModelIII_shift := 0 |}.

(** ** Tabulated arrays and folds *)

(** The array whose cell [i] holds [f i], for [0 <= i < n]. *)
Definition ztab {A : Type} (f : Z -> A) (n : Z) : list A :=
  map (fun i => f (Z.of_nat i)) (seq 0 (Z.to_nat n)).

(** A loop body applied to the elements of a list, in order. *)
Fixpoint fold_opt {X St : Type} (f : X -> St -> option St) (l : list X)
    (st : St) : option St :=
  match l with
  | [] => Some st
  | x :: l' => st' <- f x st ;; fold_opt f l' st'
  end.

(** ** The skew criterion as the specification words it *)

(** The largest entry of a histogram (0 for the empty one). *)
Definition largest (l : list Z) : Z := fold_right Z.max 0 l.

(** [l] without the first occurrence of [x]. *)
Fixpoint remove_one (x : Z) (l : list Z) : list Z :=
  match l with
  | [] => []
  | y :: l' => if y =? x then l' else y :: remove_one x l'
  end.

(** The second largest entry: the largest of the others. *)
Definition second_largest (l : list Z) : Z :=
  largest (remove_one (largest l) l).

(** "High local skew" as section 4.3 words it, the fractions cleared:
    |S|/|R| >= 3, and either fanout > 4 and maxA + maxB > 0.35 block_size,
    or fanout <= 4 and maxA > block_size/2 + 10. *)
Definition spec_high_skew (sizeS sizeR fanout block_size maxA maxB : Z)
  : Prop :=
  3 * sizeR <= sizeS /\
  ((4 < fanout /\ 35 * block_size < 100 * (maxA + maxB)) \/
   (fanout <= 4 /\ block_size + 20 < 2 * maxA)).

(** One step of the search for the two largest entries. *)
Definition top2_step (c : Z) (st : Z * Z) : Z * Z :=
  let '(maxA, maxB) := st in
  if maxA <? c then (c, maxA)
  else if maxB <? c then (maxA, c)
  else (maxA, maxB).

(** ** Partitions of a block *)

(** The partition a tuple hashes to: [HASHx] where its shift is defined. *)
Definition hashx (mask shift : Z) (t : tuple_t) : Z :=
  Z.land (Z.shiftr (key t) shift) mask.

(** The tuples of [blk] that hash to [p], in their order. *)
Definition bucket (hf : tuple_t -> Z) (p : Z) (blk : list tuple_t)
  : list tuple_t :=
  filter (fun t => hf t =? p) blk.

(** The histogram of a block: [cnt hf p blk] tuples hash to [p]. *)
Definition cnt (hf : tuple_t -> Z) (p : Z) (blk : list tuple_t) : Z :=
  len (bucket hf p blk).

(** Its prefix sum at [p]: the number of tuples that hash below [p]. *)
Definition below (hf : tuple_t -> Z) (p : Z) (blk : list tuple_t) : Z :=
  len (filter (fun t => hf t <? p) blk).

(** A block with its tuples grouped by partition: partition 0 first, the
    order inside a partition kept. *)
Definition part (hf : tuple_t -> Z) (fanout : Z) (blk : list tuple_t)
  : list tuple_t :=
  concat (ztab (fun p => bucket hf p blk) fanout).

(** The position of sub-block [m] of a block that ends up at offset [r]:
    the run of the partitions [m * sbp, (m + 1) * sbp). *)
Definition sub_block_pos (hf : tuple_t -> Z) (sbp r : Z)
    (blk : list tuple_t) (m : Z) : block_t :=
  {| start := r + below hf (m * sbp) blk;
     end_ := r + below hf ((m + 1) * sbp) blk |}.

(** ** Blocks and the layout after [ICP] *)

(** [n] cells of an array from cell [from] on. *)
Definition slice {A : Type} (l : list A) (from n : Z) : list A :=
  firstn (Z.to_nat n) (skipn (Z.to_nat from) l).

(** The blocks [ICP] cuts a sub-relation into: [rem0] blocks of
    [avg + 1] tuples, then blocks of [avg] tuples. *)
Definition blk_len (avg rem0 b : Z) : Z := avg + (if b <? rem0 then 1 else 0).
Definition blk_from (avg rem0 b : Z) : Z := b * avg + Z.min b rem0.
Definition block_of (T : list tuple_t) (avg rem0 b : Z) : list tuple_t :=
  slice T (blk_from avg rem0 b) (blk_len avg rem0 b).

(** Where block [b] lies after [ICP]: block 0 last, the others moved
    down by the size of the first block. *)
Definition blk_offset (N avg rem0 fbs b : Z) : Z :=
  (if b =? 0 then N else blk_from avg rem0 b) - fbs.

(** The tuple array [ICP] leaves. *)
Definition ICP_layout (hf : tuple_t -> Z) (fanout : Z) (T : list tuple_t)
    (nb avg rem0 : Z) : list tuple_t :=
  concat (ztab (fun j => part hf fanout (block_of T avg rem0 (j + 1))) (nb - 1))
  ++ part hf fanout (block_of T avg rem0 0).

(** The positions [ICP] records. *)
Definition ICP_positions (hf : tuple_t -> Z) (T : list tuple_t)
    (N nb avg rem0 fbs nsb sbp : Z) : list (list block_t) :=
  ztab (fun b => ztab (sub_block_pos hf sbp (blk_offset N avg rem0 fbs b)
                         (block_of T avg rem0 b)) nsb) nb.

(** ** The parameters and the result of [ICP] *)

(** The block geometry of a sub-relation of [N] tuples (ICP lines 54-57). *)
Definition ICP_num_blocks (N : Z) : Z :=
  N / ChunkSize + (if 0 <? N mod ChunkSize then 1 else 0).
Definition ICP_avg (N : Z) : Z := N / ICP_num_blocks N.
Definition ICP_rem (N : Z) : Z := N mod ICP_num_blocks N.
Definition ICP_fbs (N : Z) : Z :=
  ICP_avg N + (if 0 <? ICP_rem N then 1 else 0).

(** The shift [ICP] hashes with: that of Model III for R when S is not
    partitioned, none otherwise. *)
Definition ICP_shift (g : globals) (Sub_id : rel_id) : Z :=
  match Sub_id with
  | id_R =>
      if Radix_S (Radix g) =? 0
      then Z.log2_up (RelR_size g) - Radix_R (Radix g) - 1
      else 0
  | id_S => 0
  end.

(** The number of sub-blocks per block. *)
Definition ICP_nsb (g : globals) (Sub_id : rel_id) : Z :=
  match Sub_id with
  | id_S => if Radix_S (Radix g) <? Radix_R (Radix g) then 1 else num_groups g
  | id_R => num_groups g
  end.

(** The globals [ICP] leaves when it does not consult the skew estimate. *)
Definition ICP_globals (g : globals) (Sub_id : rel_id) : globals :=
  match Sub_id with
  | id_R =>
      if Radix_S (Radix g) =? 0
      then set_ModelIII_shift g (ICP_shift g id_R)
      else g
  | id_S => g
  end.

(** The skew test of the first round (ICP lines 125-137). *)
Definition first_block_skew (g : globals) (peers tid : Z) (Sub_id : rel_id)
    (Histo : list Z) (first_block_size : Z) : option (globals * bool) :=
  match Sub_id with
  | id_S =>
      if negb (user_defined (Radix g)) && negb (ChangedRadixS g)
      then ICP_estimate_skew g peers tid Histo first_block_size
      else Some (g, false)
  | id_R => Some (g, false)
  end.

(** What [ICP] needs of its caller to run to its end. *)
Definition ICP_pre (g : globals) (Sub : relation_t) (radix : Z) : Prop :=
  1 <= radix <= 30 /\
  size Sub = len (tuples Sub) /\ 1 <= size Sub < 2 ^ 32 /\
  1 <= num_groups g /\ 2 ^ radix mod num_groups g = 0 /\
  (id Sub = id_R -> Radix_S (Radix g) = 0 ->
     1 <= RelR_size g < 2 ^ 32 /\
     0 <= Radix_R (Radix g) < Z.log2_up (RelR_size g)).

(** What [ICP] returns when it partitions: the array regrouped block by
    block, and the positions of the sub-blocks. *)
Definition ICP_result (g : globals) (Sub : relation_t) (radix : Z)
  : relation_t * block_meta_t :=
  let N := size Sub in
  let hf := hashx (2 ^ radix - 1) (ICP_shift g (id Sub)) in
  ({| tuples := ICP_layout hf (2 ^ radix) (tuples Sub)
                  (ICP_num_blocks N) (ICP_avg N) (ICP_rem N);
      size := size Sub; offset := offset Sub; id := id Sub |},
   {| blocks_N := ICP_num_blocks N;
      Pos := ICP_positions hf (tuples Sub) N (ICP_num_blocks N) (ICP_avg N)
               (ICP_rem N) (ICP_fbs N) (ICP_nsb g (id Sub))
               (2 ^ radix / num_groups g) |}).

(** The histogram of the first block, which the skew estimate reads. *)
Definition first_histogram (g : globals) (Sub : relation_t) (radix : Z)
  : list Z :=
  let N := size Sub in
  ztab (fun p => cnt (hashx (2 ^ radix - 1) (ICP_shift g (id Sub))) p
                   (block_of (tuples Sub) (ICP_avg N) (ICP_rem N) 0))
       (2 ^ radix).

(** ** The calls of [ICP] *)

(** What the calls of [join_thread] give [ICP], beyond the radix: a
    non-empty sub-relation whose [size] is that of its array, a fanout the
    groups divide, a defined Model III shift when R is partitioned for
    Model III, and, where the skew estimate runs, |R| >= 1 and the radix
    of S as the radix of the call. *)
Definition ICP_call_ok (g : globals) (Sub : relation_t) (radix : Z) : Prop :=
  size Sub = len (tuples Sub) /\ 1 <= size Sub < 2 ^ 32 /\
  1 <= num_groups g /\ 2 ^ radix mod num_groups g = 0 /\
  (id Sub = id_R -> Radix_S (Radix g) = 0 ->
     1 <= RelR_size g < 2 ^ 32 /\
     0 <= Radix_R (Radix g) < Z.log2_up (RelR_size g)) /\
  (id Sub = id_S -> user_defined (Radix g) = false ->
     ChangedRadixS g = false ->
     1 <= RelR_size g /\ 0 <= RelS_size g /\ Radix_S (Radix g) = radix).



(** ** Keys, sums and the thread table *)

(** R holds a permutation of [1, |R|]. *)
Definition primary_key (R : list tuple_t) : Prop :=
  Permutation (map key R) (map Z.of_nat (seq 1 (length R))).

(** Every key of S is in [1, |R|]. *)
Definition foreign_key (S R : list tuple_t) : Prop :=
  Forall (fun s => 1 <= key s <= len R) S.

Definition sum_keys (l : list tuple_t) : Z :=
  fold_right (fun t acc => key t + acc) 0 l.

(** What a probe reads for key [k] once R is built: the bucket of the
    tuple of R with that key. *)
Definition val_of (TEST : bool) (R : list tuple_t) (k : Z) : Z :=
  match find (fun t => key t =? k) R with
  | Some t => stored TEST t
  | None => 0
  end.

Definition sum_vals (TEST : bool) (R S : list tuple_t) : Z :=
  fold_right (fun s acc => val_of TEST R (key s) + acc) 0 S.

(** The sub-relations of all the workers, in thread order. *)
Definition all_R (Ts : list thread_t) : list tuple_t :=
  flat_map (fun T => tuples (SubR T)) Ts.
Definition all_S (Ts : list thread_t) : list tuple_t :=
  flat_map (fun T => tuples (SubS T)) Ts.

(** The thread table as [prepare_threads_meta] leaves it. *)
Definition threads_ok (g : globals) (Ts : list thread_t) : Prop :=
  Threads_N g = len Ts /\ 1 <= len Ts /\ 1 <= num_groups g /\
  forall k T, nth_error Ts k = Some T ->
    tid T = Z.of_nat k /\ group T = tid T mod num_groups g /\
    size (SubR T) = len (tuples (SubR T)) /\
    size (SubS T) = len (tuples (SubS T)) /\
    id (SubR T) = id_R /\ id (SubS T) = id_S.

(** ** A sample sub-relation *)

(** A small sub-relation of R and a configuration for it. *)
Definition tuple_of (k : Z) : tuple_t := {| key := k; payload := 10 * k |}.
Definition sample_Sub : relation_t :=
  {| tuples := [tuple_of 1; tuple_of 2; tuple_of 3; tuple_of 4];
     size := 4; offset := 0; id := id_R |}.
Definition sample_Blocks : block_meta_t := {| blocks_N := 0; Pos := [] |}.

(** ** The command line *)

Module CmdArgsSpec.

Import Ascii String CmdArgs.

(** Setting the parameter of the valued option [name] that reads an
    unsigned: [threads], [r], [s], [radix], [radixR], [radixS]. *)
Definition set_param {double : Type} (name : string) (v : Z)
    (st : state double) : state double :=
  if (name =? "threads")%string then set_Threads_N double st v
  else if (name =? "r")%string then set_RelR_size double st v
  else if (name =? "s")%string then set_RelS_size double st v
  else if (name =? "radix")%string then
    set_Radix double st
      {| Radix_R := v; Radix_S := v; user_defined := true |}
  else if (name =? "radixR")%string then
    set_Radix double st
      {| Radix_R := v; Radix_S := Radix_S (Radix double st);
         user_defined := true |}
  else if (name =? "radixS")%string then
    set_Radix double st
      {| Radix_R := Radix_R (Radix double st); Radix_S := v;
         user_defined := true |}
  else st.

Definition unsigned_options : list string :=
  ["threads"; "r"; "s"; "radix"; "radixR"; "radixS"]%string.

(** The globals before the arguments are read, the two locals holding
    [scratch] and [dscratch]. *)
Definition initial_state {double : Type} (scratch : Z) (dscratch : double)
  : state double :=
  {| Threads_N := 1; RelR_size := 0; RelS_size := 0; RelS_skew := dscratch;
     favor_physical_cores := true;
     Radix := {| Radix_R := 0; Radix_S := 0; user_defined := false |};
     ival := scratch; dval := dscratch; printed := [] |}.

(** The parameter the specification expects after [--threads 8]. *)
Definition spec_threads_after_two_arguments : Z := 8.

End CmdArgsSpec.

(** ** The input of the join *)

(** What the join is given: the thread table of [prepare_threads_meta]
    over the two relations, R with the keys 1..|R| and every key of S
    among them. *)
Definition join_input (g : globals) (Ts : list thread_t) : Prop :=
  threads_ok g Ts /\
  RelR_size g = len (all_R Ts) /\ RelS_size g = len (all_S Ts) /\
  1 <= RelR_size g < 2 ^ 31 /\ RelS_size g < 2 ^ 32 /\
  primary_key (all_R Ts) /\ foreign_key (all_S Ts) (all_R Ts).

(** The statistics a worker ends with: one match per tuple of its part of
    S, and the checksum of the keys it built and the buckets it read. *)
Definition final_stats (TEST : bool) (R : list tuple_t) (T : thread_t)
  : thread_t :=
  set_stats T (u64 (len (tuples (SubS T))))
    (u64 (sum_keys (tuples (SubR T)) + sum_vals TEST R (tuples (SubS T)))).

(** The table of Model I after the zeroing step. *)
Definition zeroed_table (junk : Z -> nat -> Z) (N n : Z) : list Z :=
  ztab (fun j => if j <? N * (n / N) then 0 else junk 0 (Z.to_nat j)) n.

(** ** Cursors *)

(** The cursor of sub-block [h] of block [b] once [c h] partitions of
    the sub-block have been scanned. *)
Definition cursor_pos (hf : tuple_t -> Z) (T : list tuple_t)
    (N avg rem0 fbs iters : Z) (c : Z -> Z) (b h : Z) : block_t :=
  {| start := blk_offset N avg rem0 fbs b
              + below hf (h * iters + c h) (block_of T avg rem0 b);
     end_ := blk_offset N avg rem0 fbs b
             + below hf ((h + 1) * iters) (block_of T avg rem0 b) |}.

Definition Pos_at (hf : tuple_t -> Z) (T : list tuple_t)
    (N nb avg rem0 fbs G iters : Z) (c : Z -> Z) : list (list block_t) :=
  ztab (fun b => ztab (cursor_pos hf T N avg rem0 fbs iters c b) G) nb.

(** One more partition of sub-block [h] scanned. *)
Definition advance (c : Z -> Z) (h : Z) : Z -> Z :=
  fun h' => if h' =? h then c h + 1 else c h'.

(** ** Sums *)

(** [f 0 + ... + f (n - 1)]. *)
Definition zsum (f : Z -> Z) (n : Z) : Z := fold_right Z.add 0 (ztab f n).

(** The sum of a weight over a list of tuples. *)
Definition wsum (w : tuple_t -> Z) (l : list tuple_t) : Z :=
  fold_right (fun t acc => w t + acc) 0 l.

(** What a worker has accumulated of [F], a quantity per partition, when
    its cursors are at [c]: the partitions [h * iters + q], [q < c h], of
    every sub-block [h]. *)
Definition done_sum (F : Z -> Z) (G iters : Z) (c : Z -> Z) : Z :=
  zsum (fun h => zsum (fun q => F (h * iters + q)) (c h)) G.

(** ** Partitioned workers *)

(** A sub-relation as an [ICP] pass with the hash [hf] leaves it, and
    its block table with the cursors at [c]. *)
Definition scanned_sub (hf : tuple_t -> Z) (fanout : Z) (Sub : relation_t)
  : relation_t :=
  let N := size Sub in
  {| tuples := ICP_layout hf fanout (tuples Sub)
                 (ICP_num_blocks N) (ICP_avg N) (ICP_rem N);
     size := size Sub; offset := offset Sub; id := id Sub |}.

Definition scanned_blocks (hf : tuple_t -> Z) (G iters : Z)
    (Sub : relation_t) (c : Z -> Z) : block_meta_t :=
  let N := size Sub in
  {| blocks_N := ICP_num_blocks N;
     Pos := Pos_at hf (tuples Sub) N (ICP_num_blocks N) (ICP_avg N)
              (ICP_rem N) (ICP_fbs N) G iters c |}.

(** A worker whose part of R, or of S, is partitioned, the cursors at [c]. *)
Definition with_R (hf : tuple_t -> Z) (fanout G iters : Z) (c : Z -> Z)
    (T : thread_t) : thread_t :=
  set_SubR T (scanned_sub hf fanout (SubR T))
    (scanned_blocks hf G iters (SubR T) c).

Definition with_S (hf : tuple_t -> Z) (fanout G iters : Z) (c : Z -> Z)
    (T : thread_t) : thread_t :=
  set_SubS T (scanned_sub hf fanout (SubS T))
    (scanned_blocks hf G iters (SubS T) c).

(** The cursors of a worker of group [grp] after [gi] steps of
    iteration [i]: sub-block [h] is visited at step
    [(h - grp) mod G]. *)
Definition cursors (G i gi grp : Z) : Z -> Z :=
  fun h => i + (if (h - grp) mod G <? gi then 1 else 0).

(** A tuple whose partition the cursors [c] have passed. *)
Definition passed (hf : tuple_t -> Z) (iters : Z) (c : Z -> Z)
    (t : tuple_t) : Prop :=
  hf t mod iters < c (hf t / iters).

(** ** The order of the cleanup of Model II *)

(** The lines worker [t] is named for in [p]. *)
Definition named (p : list Z) (t : Z) : Z :=
  Z.of_nat (count_occ Z.eq_dec p t).

(** [Threads.HTables] is read before it is freed: every worker [g] of
    [1 .. G - 1], the ones that free the table of a group other than
    worker 0's, is named in [sched] at a place before which worker 0 is
    named once at most. *)
Definition frees_in_order (G : Z) (sched : list Z) : Prop :=
  forall g, 1 <= g < G ->
    exists a b, sched = a ++ g :: b /\ named a 0 < 2.

(** [Threads.HTables] is freed before it is read: some worker [g] of
    [1 .. G - 1] is named in [sched] only after worker 0 has been named
    twice, or not at all. *)
Definition frees_early (G : Z) (sched : list Z) : Prop :=
  exists g, 1 <= g < G /\
    forall a b, sched = a ++ g :: b -> 2 <= named a 0.

(** The state of the cleanup after the lines named in [p]. *)
Definition cleanup_after (G N : Z) (p : list Z) : cleanup_state :=
  {| cu_array := 2 <=? named p 0;
     cu_tables := ztab (fun g => 1 <=? named p g) G;
     cu_line := ztab (fun t => 177 + Z.min 2 (named p t)) N |}.

(** The lines [ColBP_II_cleanup] adds to the schedule. *)
Definition cleanup_rest (n : nat) : list Z :=
  flat_map (fun t => [Z.of_nat t; Z.of_nat t]) (seq 0 n).

(** ** Model II *)

(** The cursors of the probe of a worker of group [grp] after [j] steps
    of iteration [i]: the steps run from [G - 1] down. *)
Definition pcursors (G i j grp : Z) : Z -> Z :=
  fun h => i + (if G - j <=? (h - grp) mod G then 1 else 0).

(** The cell of a tuple in a table of Model II. *)
Definition CPRA_cell (radix : Z) (t : tuple_t) : Z := Z.shiftr (key t) radix.

(** The tables of Model II once allocated. *)
Definition tables_ok (G sz : Z) (HTables : list (list Z)) : Prop :=
  len HTables = G /\
  forall h, 0 <= h < G -> exists HT, rd HTables h = Some HT /\ len HT = sz.

(** ** Skew reports *)

(** Whether a worker reports high skew on the first block of its part
    of S. *)
Definition own_report (g : globals) (Sub : relation_t) (radix : Z) : bool :=
  match skew_report g (first_histogram g Sub radix) (ICP_fbs (size Sub)) with
  | Some (Some own) => own
  | _ => false
  end.

(** The process-wide state after the switch of the radix. *)
Definition switched (g : globals) (reports : Z) : globals :=
  skew_switch 0 (set_HighSkewObserved g reports).

(** The number of workers that report high skew. *)
Definition reports (g : globals) (Ts : list thread_t) : Z :=
  count_true
    (map (fun T => negb (user_defined (Radix g)) && negb (ChangedRadixS g)
                   && own_report g (SubS T) (Radix_S (Radix g))) Ts).

(** Whether the skew estimate runs and the workers reach its barrier. *)
Definition estimating (g : globals) : bool :=
  negb (user_defined (Radix g)) && negb (ChangedRadixS g)
  && negb (RelS_size g / RelR_size g <? 3).

(** ** Legal configurations *)

(** Every worker has tuples of R, of S, of both relations to
    partition. *)
Definition nonempty_R (Ts : list thread_t) : Prop :=
  forall T, In T Ts -> 1 <= size (SubR T).

Definition nonempty_S (Ts : list thread_t) : Prop :=
  forall T, In T Ts -> 1 <= size (SubS T).

Definition partition_ok (Ts : list thread_t) : Prop :=
  forall T, In T Ts -> 1 <= size (SubR T) /\ 1 <= size (SubS T).

(** A legal configuration: the input of the join, the process-wide state
    as [main] leaves it, and a radix pair the dispatch accepts, with a
    fanout the groups divide, tuples for every worker in a relation that
    is partitioned, and a shift Model III can hash with. *)
Definition legal_configuration (g : globals) (Ts : list thread_t) : Prop :=
  join_input g Ts /\
  HighSkewObserved g = 0 /\ ChangedRadixS g = false /\
  let r := Radix_R (Radix g) in
  let s := Radix_S (Radix g) in
  ((r = 0 /\ s = 0) \/
   (1 <= r <= 30 /\ 2 ^ r mod num_groups g = 0 /\ nonempty_R Ts /\
    ((s = 0 /\ r < Z.log2_up (RelR_size g)) \/
     (s = r /\ nonempty_S Ts /\ num_groups g <= Threads_N g /\
      (user_defined (Radix g) = false ->
       r + 1 < Z.log2_up (RelR_size g)))))).

(** The cleanup of Model II is in order, or S is not partitioned and
    Model II is not run: the workers of the groups other than the first
    read [Threads.HTables] before worker 0 frees it. *)
Definition cleanup_in_order (g : globals) (sched : list Z) : Prop :=
  Radix_S (Radix g) = 0 \/ frees_in_order (num_groups g) sched.

(** The totals the join is to print: one match per tuple of S, and the
    checksum of the keys built and the buckets read. *)
Definition join_totals (TEST : bool) (Ts : list thread_t) : Z * Z :=
  (len (all_S Ts),
   u64 (sum_keys (all_R Ts) + sum_vals TEST (all_R Ts) (all_S Ts))).

(** ** Sample inputs *)

(** Sample inputs: R with the keys 1..4 over two workers, S with six
    foreign keys. *)
Definition sample_thread (tid group : Z) (R S : list Z) : thread_t :=
  {| tid := tid; group := group;
     SubR := {| tuples := map tuple_of R; size := len R; offset := 0;
                id := id_R |};
     SubS := {| tuples := map tuple_of S; size := len S; offset := 0;
                id := id_S |};
     BlocksR := sample_Blocks; BlocksS := sample_Blocks;
     matches := 0; checksum := 0 |}.

(** Two workers in two groups, for Models II and III. *)
Definition sample_threads : list thread_t :=
  [sample_thread 0 0 [1; 2] [3; 1; 4]; sample_thread 1 1 [3; 4] [2; 2; 1]].

(** Two workers in one group, for Model I. *)
Definition sample_threads_I : list thread_t :=
  [sample_thread 0 0 [1; 2] [3; 1; 4]; sample_thread 1 0 [3; 4] [2; 2; 1]].

(** One worker whose part of S is one key thirty times over. *)
Definition sample_skewed : list thread_t :=
  [sample_thread 0 0 [1; 2; 3; 4] (repeat 2 30)].

(** One worker with the keys 1..16 of R and one key of S sixty times
    over: a configuration in which the radix switches. *)
Definition sample_switching : list thread_t :=
  [sample_thread 0 0 (map Z.of_nat (seq 1 16)) (repeat 2 60)].

Definition sample_junk : Z -> nat -> Z := fun _ j => 7 + Z.of_nat j.

(** ** The states of the generator as bit vectors *)

(** A generator state of four 32-bit words, and the all-zero state (the
    one state [xorshift128] never leaves). *)
Definition G_ok (G : randgen_t) : Prop :=
  0 <= G_w G < 2 ^ 32 /\ 0 <= G_x G < 2 ^ 32 /\
  0 <= G_y G < 2 ^ 32 /\ 0 <= G_z G < 2 ^ 32.

Definition G_zero : randgen_t := {| G_w := 0; G_x := 0; G_y := 0; G_z := 0 |}.

(** The state as one 128-bit number, and back. *)
Definition pack (G : randgen_t) : Z :=
  G_w G + 2 ^ 32 * (G_x G + 2 ^ 32 * (G_y G + 2 ^ 32 * G_z G)).

Definition unpack (v : Z) : randgen_t :=
  {| G_w := Z.land v (Z.ones 32);
     G_x := Z.land (Z.shiftr v 32) (Z.ones 32);
     G_y := Z.land (Z.shiftr v 64) (Z.ones 32);
     G_z := Z.land (Z.shiftr v 96) (Z.ones 32) |}.

Definition gxor (a b : randgen_t) : randgen_t :=
  {| G_w := Z.lxor (G_w a) (G_w b); G_x := Z.lxor (G_x a) (G_x b);
     G_y := Z.lxor (G_y a) (G_y b); G_z := Z.lxor (G_z a) (G_z b) |}.

(** The top bits of the next [n] values drawn from [G], the first one at
    bit 0. *)
Fixpoint observe (n : nat) (G : randgen_t) : Z :=
  match n with
  | O => 0
  | S n' =>
      let '(r, G') := xorshift128 G in
      Z.lxor (Z.land (Z.shiftr r 31) 1) (Z.shiftl (observe n' G') 1)
  end.

(** Elimination over GF(2).  A row [(a, b)] records that the state [b]
    is observed as [a]; rows are added to one another until every
    observation is a single bit. *)
Definition reduce_with (j : Z) (p r : Z * Z) : Z * Z :=
  if Z.testbit (fst r) j
  then (Z.lxor (fst r) (fst p), Z.lxor (snd r) (snd p))
  else r.

Fixpoint pick (j : Z) (rows : list (Z * Z))
  : option ((Z * Z) * list (Z * Z)) :=
  match rows with
  | [] => None
  | r :: rs =>
      if Z.testbit (fst r) j then Some (r, rs)
      else match pick j rs with
           | Some (p, rs') => Some (p, r :: rs')
           | None => None
           end
  end.

Fixpoint eliminate (js : list Z) (todo : list (Z * Z))
    (done : list (Z * (Z * Z))) : list (Z * (Z * Z)) :=
  match js with
  | [] => done
  | j :: js' =>
      match pick j todo with
      | Some (p, rest) =>
          eliminate js' (map (reduce_with j p) rest)
            ((j, p) :: map (fun d => (fst d, reduce_with j p (snd d))) done)
      | None => done
      end
  end.

(** The state whose observation is [u], by the table of an elimination. *)
Definition decode (table : list (Z * (Z * Z))) (u : Z) : Z :=
  fold_right
    (fun d acc => Z.lxor (if Z.testbit u (fst d) then snd (snd d) else 0) acc)
    0 table.

Definition bits128 : list Z := map Z.of_nat (seq 0 128).

Definition observed (v : Z) : Z := observe 128 (unpack v).

Definition xorshift128_table : list (Z * (Z * Z)) :=
  eliminate bits128 (map (fun i => (observed (2 ^ i), 2 ^ i)) bits128) [].

(** ** Arrays that differ in their keys *)

(** [B'] is [B] with other keys: cell by cell the same but for the key. *)
Definition rekeyed {A : Type} (set : A -> Z -> A) (B B' : list A) : Prop :=
  Forall2 (fun a a' => exists k, a' = set a k) B B'.

(** The keys 1, ..., n. *)
Definition keys_upto (n : Z) : list Z := map Z.of_nat (seq 1 (Z.to_nat n)).

(** ** Occurrences of a key *)

(** How often the key [k] occurs among the keys of [T]. *)
Definition occurrences (T : list tuple_t) (k : Z) : Z :=
  Z.of_nat (count_occ Z.eq_dec (map key T) k).

(** ** Shares of a relation *)

(** The share of worker [k] when [total] tuples are dealt to [N] workers:
    the first [total mod N] workers get one tuple more. *)
Definition share_size (total N k : Z) : Z :=
  total / N + (if k <? total mod N then 1 else 0).

Definition share_offset (total N k : Z) : Z :=
  k * (total / N) + Z.min k (total mod N).

(** Worker [k] as [prepare_threads_meta] describes it, [U] the number of
    LLCs in use. *)
Definition share_thread (N sizeR sizeS U k : Z) : thread_t :=
  {| tid := k; group := k mod U;
     SubR := {| tuples := []; size := share_size sizeR N k;
                offset := share_offset sizeR N k; id := id_R |};
     SubS := {| tuples := []; size := share_size sizeS N k;
                offset := share_offset sizeS N k; id := id_S |};
     BlocksR := {| blocks_N := 0; Pos := [] |};
     BlocksS := {| blocks_N := 0; Pos := [] |};
     matches := 0; checksum := 0 |}.

(** ** Loading the shares *)

(** The thread table deals the [total] tuples of a relation to the
    workers: worker [k] has thread id [k] and the [k]-th share. *)
Definition shares_of (which : rel_id) (total : Z) (Ts : list thread_t) : Prop :=
  forall k T, nth_error Ts k = Some T ->
    tid T = Z.of_nat k /\
    offset (Sub_of which T) = share_offset total (len Ts) (Z.of_nat k) /\
    size (Sub_of which T) = share_size total (len Ts) (Z.of_nat k).

(** Worker [T] with its share of the array [Rel] as its sub-relation. *)
Definition load (which : rel_id) (Rel : list tuple_t) (T : thread_t)
  : thread_t :=
  set_tuples which T
    (slice Rel (offset (Sub_of which T)) (size (Sub_of which T))).

Definition zero_tuple : tuple_t := {| key := 0; payload := 0 |}.

(** ** The relations [main] generates *)

(** The workers with their shares of the arrays [RelR] and [RelS]. *)
Definition loaded (RelR RelS : list tuple_t) (Ts : list thread_t)
  : list thread_t :=
  map (fun T => load id_S RelS (load id_R RelR T)) Ts.

(** The arrays worker zero fills: the relations [create_rel] deals to
    the workers. *)
Definition generated_R (fuel : nat) (seed_R sizeR : Z) : list tuple_t :=
  match fill_primary_keys fuel seed_R
          (repeat zero_tuple (Z.to_nat sizeR)) sizeR with
  | Some (Rel, _) => Rel
  | None => []
  end.

Definition generated_S (double : Type) (of_Z : Z -> double)
    (fadd fdiv pow : double -> double -> double)
    (flt fge : double -> double -> bool)
    (RAND_MAX : Z) (rand : Z -> nat -> Z)
    (junk_keys : nat -> Z) (junk_table : nat -> double)
    (fuel : nat) (sizeR sizeS seed_S : Z) (skewed : bool) (z : double)
  : list tuple_t :=
  let Z0 := repeat zero_tuple (Z.to_nat sizeS) in
  match (if skewed
         then fill_skewed_keys double of_Z fadd fdiv pow flt fge RAND_MAX rand
                junk_keys junk_table fuel sizeR seed_S z Z0 sizeS
         else fill_foreign_keys fuel sizeR seed_S Z0 sizeS) with
  | Some (Rel, _) => Rel
  | None => []
  end.

(** The process-wide state [main] hands to the join. *)
Definition main_globals (Radix : radix_info_t) (N U sizeR sizeS : Z)
  : globals :=
  {| Radix := Radix; Threads_N := N; num_groups := U;
     RelR_size := sizeR; RelS_size := sizeS;
     HighSkewObserved := 0; ChangedRadixS := false; ModelIII_shift := 0 |}.

(** ** The radix pairs [main] can run *)

(** The radix pairs [main] can run the join with, for [N] workers in
    [U] groups: no partitioning (Model I), or a fanout the groups divide,
    every worker with tuples of R, and of S when S is partitioned, and
    room for the shift of Model III. *)
Definition radix_fits (Radix : radix_info_t) (N U sizeR sizeS : Z) : Prop :=
  let r := Radix_R Radix in
  let s := Radix_S Radix in
  (r = 0 /\ s = 0) \/
  (1 <= r <= 30 /\ 2 ^ r mod U = 0 /\ N <= sizeR /\
   ((s = 0 /\ r < Z.log2_up sizeR) \/
    (s = r /\ N <= sizeS /\
     (user_defined Radix = false -> r + 1 < Z.log2_up sizeR)))).

(** ** A sample machine *)

(** A machine with two LLCs of two cores of two hardware threads each,
    and an LLC of one MiB. *)
Definition sample_cpu (i : Z) : cpu_t :=
  {| cpu_id := i; cpu_core := i / 2; cpu_llc := i / 4 |}.

Definition sample_core (c : Z) : core_t :=
  {| core_id := c; core_num_cpus := 2;
     core_CPUs := [sample_cpu (2 * c); sample_cpu (2 * c + 1)];
     core_llc := c / 2 |}.

Definition sample_llc (l : Z) : llc_t :=
  {| llc_id := l; llc_num_cores := 2;
     llc_Cores := [sample_core (2 * l); sample_core (2 * l + 1)] |}.

Definition sample_SysInfo : sys_info_t :=
  {| llc_size := 1048576;
     LLCs := [sample_llc 0; sample_llc 1];
     num_llcs := 2; num_cores := 4; num_cpus := 8;
     cores_per_llc := 2; cpus_per_core := 2 |}.

(** Six workers on it, for relations of 10 and 22 tuples. *)
Definition sample_meta : threads_meta :=
  Eval vm_compute in
    match prepare_threads_meta sample_SysInfo true 6 10 22 with
    | Some tm => tm
    | None => {| Args := []; tm_num_groups := 0; utilized_llcs := 0;
                 utilized_cpus_per_core := 0 |}
    end.

(** ** Sample runs of [main] *)

(** A run on the sample machine: three workers, relations of 5 and 12
    tuples, one radix bit. *)
Module SampleRun.

Import Ascii String.

Definition args : list string :=
  ["--threads=3"; "--r=5"; "--s=12"; "--radix=1"]%string.

Definition state : CmdArgs.state Z :=
  {| CmdArgs.Threads_N := 3;
     CmdArgs.RelR_size := 5;
     CmdArgs.RelS_size := 12;
     CmdArgs.RelS_skew := 0;
     CmdArgs.favor_physical_cores := true;
     CmdArgs.Radix := {| Radix_R := 1; Radix_S := 1; user_defined := true |};
     CmdArgs.ival := 1;
     CmdArgs.dval := 0;
     CmdArgs.printed := [] |}.

Definition meta : threads_meta :=
  Eval vm_compute in
    match prepare_threads_meta sample_SysInfo true 3 5 12 with
    | Some tm => tm
    | None => {| Args := []; tm_num_groups := 0; utilized_llcs := 0;
                 utilized_cpus_per_core := 0 |}
    end.

(** Eight workers for relations of 5 and 6 tuples. *)
Definition few_args : list string :=
  ["--threads=8"; "--r=5"; "--s=6"; "--radix=1"]%string.

Definition few_state : CmdArgs.state Z :=
  {| CmdArgs.Threads_N := 8;
     CmdArgs.RelR_size := 5;
     CmdArgs.RelS_size := 6;
     CmdArgs.RelS_skew := 0;
     CmdArgs.favor_physical_cores := true;
     CmdArgs.Radix := {| Radix_R := 1; Radix_S := 1; user_defined := true |};
     CmdArgs.ival := 1;
     CmdArgs.dval := 0;
     CmdArgs.printed := [] |}.

End SampleRun.

(** ** Names and values of the arguments *)

Module CmdArgsNames.

Import Ascii String CmdArgs.

(** The name of an argument: its characters before the first [=], the
    dashes left out. *)
Fixpoint name_of (arg : string) : string :=
  match arg with
  | EmptyString => EmptyString
  | String c rest =>
      if (c =? "-")%char then name_of rest
      else if (c =? "=")%char then EmptyString
      else String c (name_of rest)
  end.

(** The value of an argument: what follows its first [=]. *)
Fixpoint value_of (arg : string) : string :=
  match arg with
  | EmptyString => EmptyString
  | String c rest => if (c =? "=")%char then rest else value_of rest
  end.

(** The names [extract_cmd_args] compares with. *)
Definition radix_options : list string :=
  ["radix"; "radixR"; "radixS"]%string.

Definition option_names : list string :=
  ["threads"; "r"; "s"; "skew"; "radix"; "radixR"; "radixS"; "sched";
   "favor_hyperthreading"; "h"; "help"]%string.

Definition state_of {double : Type} (out : outcome double) : state double :=
  match out with
  | Running _ st => st
  | Exited _ st => st
  end.

End CmdArgsNames.

(** ** The hierarchy and the places of the workers *)

(** Core [c] of LLC [l], and hardware thread [h] of that core. *)
Definition core_at (S : sys_info_t) (l c : Z) : option core_t :=
  L <- rd (LLCs S) l ;; rd (llc_Cores L) c.

Definition cpu_at (S : sys_info_t) (l c h : Z) : option cpu_t :=
  core <- core_at S l c ;; rd (core_CPUs core) h.

(** A hierarchy [prepare_threads_meta] can place workers on: every LLC
    has [cores_per_llc] cores at least and every core [cpus_per_core]
    hardware threads at least, the cores are numbered apart below
    [num_cores], and so are the CPUs. *)
Definition topology_ok (S : sys_info_t) : Prop :=
  1 <= cores_per_llc S /\ 1 <= cpus_per_core S /\ 1 <= num_llcs S /\
  num_llcs S * cores_per_llc S * cpus_per_core S < 2 ^ 32 /\
  (forall l c, 0 <= l < num_llcs S -> 0 <= c < cores_per_llc S ->
     exists core, core_at S l c = Some core /\
       0 <= core_id core < num_cores S /\
       forall h, 0 <= h < cpus_per_core S ->
         exists x, rd (core_CPUs core) h = Some x) /\
  (forall l c l' c' core core',
     core_at S l c = Some core -> core_at S l' c' = Some core' ->
     core_id core = core_id core' -> l = l' /\ c = c') /\
  (forall l c h l' c' h' x x',
     cpu_at S l c h = Some x -> cpu_at S l' c' h' = Some x' ->
     cpu_id x = cpu_id x' -> l = l' /\ c = c' /\ h = h').

(** The workers before worker [t] on LLC [l], when the workers go round
    [U] LLCs. *)
Definition placed (U t l : Z) : Z :=
  t / U + (if l <? t mod U then 1 else 0).

(** The hardware threads in use on core [c] of an LLC with [k] workers,
    [m] to a core. *)
Definition in_use (m k c : Z) : Z := Z.max 0 (Z.min m (k - c * m)).

(** What the loop of [prepare_threads_meta] keeps before worker [t]:
    the LLC of the next worker, the cores and the hardware threads in
    use, and the CPU of every worker placed. *)
Definition pins_inv (S : sys_info_t) (U ucpc t : Z) (st : meta_state) : Prop :=
  ms_llc st = t mod U /\
  ms_cores_on_llc st = ztab (fun l => placed U t l / ucpc) U /\
  (forall l c core, 0 <= l < num_llcs S -> 0 <= c < cores_per_llc S ->
     core_at S l c = Some core ->
     rd (ms_cpus_on_core st) (core_id core)
     = Some (if l <? U then in_use ucpc (placed U t l) c else 0)) /\
  len (ms_Args st) = t /\
  (forall t' T x, rd (ms_Args st) t' = Some (T, x) ->
     cpu_at S (t' mod U) (t' / U / ucpc) ((t' / U) mod ucpc) = Some x /\
     group T = t' mod U /\ tid T = t').

(** The workers [prepare_threads_meta] has CPUs for. *)
Definition capacity (S : sys_info_t) (favor : bool) (N : Z) : Z :=
  num_llcs S * cores_per_llc S
  * (if favor && (N <=? num_cores S) then 1 else cpus_per_core S).

(** ** Runs of [sbarrier] *)

Definition sb_event_eqb (a b : sb_event) : bool :=
  match a, b with
  | Ev_arrive, Ev_arrive | Ev_spin, Ev_spin | Ev_pass, Ev_pass
  | Ev_clear, Ev_clear | Ev_return, Ev_return => true
  | _, _ => false
  end.

(** The steps of kind [e] that worker [tid] takes in a run. *)
Fixpoint count_ev (e : sb_event) (tid : Z) (evs : list (Z * sb_event)) : Z :=
  match evs with
  | [] => 0
  | (t, e') :: evs' =>
      (if (t =? tid) && sb_event_eqb e e' then 1 else 0) + count_ev e tid evs'
  end.

(** How often a worker has arrived at the barrier, and how often it has
    passed it. *)
Definition arrivals (evs : list (Z * sb_event)) (tid : Z) : Z :=
  count_ev Ev_arrive tid evs.
Definition passes (evs : list (Z * sb_event)) (tid : Z) : Z :=
  count_ev Ev_pass tid evs.

(** The numbers below [n] that satisfy [f]. *)
Fixpoint tally (f : Z -> bool) (n : nat) : Z :=
  match n with
  | O => 0
  | S n' => tally f n' + (if f (Z.of_nat n') then 1 else 0)
  end.

(** The workers that have arrived at the barrier more than [e] times. *)
Definition arrived_count (a : Z -> Z) (N e : Z) : Z :=
  tally (fun u => e <? a u) (Z.to_nat N).

Definition bump (f : Z -> Z) (t : Z) : Z -> Z :=
  fun u => if u =? t then f u + 1 else f u.

Definition is_after (pc : option sb_pc) : bool :=
  match pc with
  | Some (SB_after _) => true
  | _ => false
  end.

(** The counters: the ones of the barriers worker 0 has passed are full
    until it clears them, the ones in use count the workers that have
    arrived, the others are zero.  [P] is the number of barriers worker 0
    has passed and [af] tells whether it has a counter to clear. *)
Definition barrier_ok (N : Z) (a : Z -> Z) (P : Z) (af : bool)
    (B : list Z) : Prop :=
  len B = MAGICNUM /\
  forall e, P - 2 <= e <= P + 5 ->
    rd B (e mod MAGICNUM)
    = Some (if (e <? 0) || ((e =? P - 2) && negb af) then 0
            else arrived_count a N e).

(** A worker at its place in [sbarrier]; [a] and [p] count the arrivals
    and the passes of the workers. *)
Definition thread_ok (N : Z) (a p : Z -> Z) (Step : list Z) (t : Z)
    (pc : sb_pc) : Prop :=
  match pc with
  | SB_out => a t = p t /\ rd Step t = Some (a t mod MAGICNUM)
  | SB_loop step w =>
      a t = p t + 1 /\ step = p t mod MAGICNUM /\ rd Step t = Some step /\
      (w = N -> forall u, 0 <= u < N -> p t < a u)
  | SB_after step =>
      a t = p t /\ 1 <= p t /\ step = (p t - 1) mod MAGICNUM /\
      rd Step t = Some step
  | SB_incr =>
      a t = p t /\ 1 <= p t /\ rd Step t = Some ((p t - 1) mod MAGICNUM)
  end.

(** What every state of a run satisfies. *)
Definition sb_inv (N : Z) (a p : Z -> Z) (s : sb_state) : Prop :=
  len (sb_pcs s) = N /\ len (sb_Step s) = MAXTIDS /\
  (forall t, 0 <= t < N -> 0 <= p t) /\
  (forall t u, 0 <= t < N -> 0 <= u < N -> p t <= a u) /\
  (forall t pc, rd (sb_pcs s) t = Some pc ->
     thread_ok N a p (sb_Step s) t pc) /\
  barrier_ok N a (p 0) (is_after (rd (sb_pcs s) 0)) (sb_Barrier s).

(** Two workers, both at the barrier for the first time. *)
Definition sample_sb_run : list (Z * sb_event) * sb_state :=
  match sb_run 2 [0; 1] (sb_init 2) with
  | Some r => r
  | None => ([], sb_init 2)
  end.

(** ** The hierarchy of a listing *)

(** The places among the first [n] of [l] whose value under [f] is [c],
    in increasing order. *)
Fixpoint places {A : Type} (f : A -> Z) (l : list A) (c : Z) (n : nat)
  : list Z :=
  match n with
  | O => []
  | S n' =>
      places f l c n' ++
      match nth_error l n' with
      | Some x => if f x =? c then [Z.of_nat n'] else []
      | None => []
      end
  end.

(** The LLC of the last of the first [n] CPUs that is on core [c]. *)
Fixpoint llc_upto (CPUs : list cpu_t) (c : Z) (n : nat) : Z :=
  match n with
  | O => 0
  | S n' =>
      match nth_error CPUs n' with
      | Some x => if cpu_core x =? c then cpu_llc x else llc_upto CPUs c n'
      | None => llc_upto CPUs c n'
      end
  end.

(** [MIN] over [init] and [f 0], ..., [f (n - 1)]. *)
Fixpoint min_upto (f : Z -> Z) (init : Z) (n : nat) : Z :=
  match n with
  | O => init
  | S n' => MIN (min_upto f init n') (f (Z.of_nat n'))
  end.

(** The CPUs of a core, the LLC of a core and the cores of an LLC, by
    their places in [CPUs] and [Cores]. *)
Definition cpus_on (CPUs : list cpu_t) (c : Z) : list Z :=
  places cpu_core CPUs c (length CPUs).
Definition llc_on (CPUs : list cpu_t) (c : Z) : Z :=
  llc_upto CPUs c (length CPUs).
Definition core_llcs (CPUs : list cpu_t) : list Z :=
  ztab (llc_on CPUs) (fst (count_ids CPUs)).
Definition cores_on (CPUs : list cpu_t) (l : Z) : list Z :=
  places (fun x : Z => x) (core_llcs CPUs) l (length (core_llcs CPUs)).

Definition cpu_zero : cpu_t := {| cpu_id := 0; cpu_core := 0; cpu_llc := 0 |}.
Definition cpu_val (CPUs : list cpu_t) (i : Z) : cpu_t :=
  nth (Z.to_nat i) CPUs cpu_zero.
Definition core_val (CPUs : list cpu_t) (c : Z) : core_t :=
  {| core_id := c; core_num_cpus := len (cpus_on CPUs c);
     core_CPUs := map (cpu_val CPUs) (cpus_on CPUs c);
     core_llc := llc_on CPUs c |}.
Definition llc_val (CPUs : list cpu_t) (l : Z) : llc_t :=
  {| llc_id := l; llc_num_cores := len (cores_on CPUs l);
     llc_Cores := map (core_val CPUs) (cores_on CPUs l) |}.

(** The hierarchy of a list of CPUs: every LLC with its cores in the
    order of their numbers, every core with its CPUs in the order of the
    list. *)
Definition hierarchy_of (llc_size0 : Z) (CPUs : list cpu_t) : sys_info_t :=
  let nc := fst (count_ids CPUs) in
  let nl := snd (count_ids CPUs) in
  {| llc_size := llc_size0;
     LLCs := ztab (llc_val CPUs) nl;
     num_llcs := nl; num_cores := nc; num_cpus := len CPUs;
     cores_per_llc :=
       min_upto (fun l => len (cores_on CPUs l)) UINT_MAX (Z.to_nat nl);
     cpus_per_core :=
       min_upto (fun c => len (cpus_on CPUs c)) UINT_MAX (Z.to_nat nc) |}.

(** A listing [prepare_sys_hierarchy] can work with: there is a CPU, the
    numbers of the cores and of the LLCs are used from 0 on without a
    gap, the CPUs of a core are on one LLC, and no CPU is listed
    twice. *)
Definition listing_ok (CPUs : list cpu_t) : Prop :=
  CPUs <> [] /\ len CPUs < 2 ^ 32 /\
  (forall x, In x CPUs ->
     0 <= cpu_core x < 2 ^ 32 - 1 /\ 0 <= cpu_llc x < 2 ^ 32 - 1) /\
  (forall x c, In x CPUs -> 0 <= c <= cpu_core x ->
     exists y, In y CPUs /\ cpu_core y = c) /\
  (forall x l, In x CPUs -> 0 <= l <= cpu_llc x ->
     exists y, In y CPUs /\ cpu_llc y = l) /\
  (forall x y, In x CPUs -> In y CPUs -> cpu_core x = cpu_core y ->
     cpu_llc x = cpu_llc y) /\
  NoDup (map cpu_id CPUs).

(** ** Values on the command line *)

Module CmdArgsValues.

Import Ascii String CmdArgs.

(** The decimal numeral of [n]: its digits, the most significant first,
    [0] for zero. *)
Definition decimal (n : Z) : string :=
  DecimalString.NilZero.string_of_uint (N.to_uint (Z.to_N n)).

(** An argument that begins with a digit. *)
Definition starts_with_digit (s : string) : bool :=
  match s with
  | String c _ =>
      match digit_of c with
      | Some _ => true
      | None => false
      end
  | EmptyString => false
  end.

(** An argument with no dash and no [=] in it. *)
Fixpoint plain (s : string) : bool :=
  match s with
  | EmptyString => true
  | String c rest => negb (c =? "-")%char && negb (c =? "=")%char && plain rest
  end.

End CmdArgsValues.

(** * Proofs *)

#[local] Set Default Proof Using "All".

(** ** Machine integers *)

Lemma wrap_small w x : 0 <= x < 2 ^ w -> wrap w x = x.
Proof. intros H. unfold wrap. apply Z.mod_small; assumption. Qed.

Lemma u8_small x : 0 <= x < 2 ^ 8 -> u8 x = x.
Proof. apply wrap_small. Qed.
Lemma u16_small x : 0 <= x < 2 ^ 16 -> u16 x = x.
Proof. apply wrap_small. Qed.
Lemma u32_small x : 0 <= x < 2 ^ 32 -> u32 x = x.
Proof. apply wrap_small. Qed.
Lemma u64_small x : 0 <= x < 2 ^ 64 -> u64 x = x.
Proof. apply wrap_small. Qed.

Lemma u64_add_l a b : u64 (u64 a + b) = u64 (a + b).
Proof. unfold u64, wrap. apply Zplus_mod_idemp_l. Qed.

Lemma u64_add_r a b : u64 (a + u64 b) = u64 (a + b).
Proof. unfold u64, wrap. apply Zplus_mod_idemp_r. Qed.

Lemma u64_range x : 0 <= u64 x < 2 ^ 64.
Proof. unfold u64, wrap. apply Z.mod_pos_bound. reflexivity. Qed.

Lemma u64_idem x : u64 (u64 x) = u64 x.
Proof. unfold u64, wrap. apply Zmod_mod. Qed.

(** ** util/util.c *)

Lemma lg_floor_loop_spec fuel : forall N r,
  0 < N < 2 ^ Z.of_nat fuel -> 0 <= r -> r + Z.log2 N < 2 ^ 32 ->
  lg_floor_loop fuel N r = r + Z.log2 N.
Proof.
  induction fuel as [|fuel IH]; intros N r HN Hr Hb.
  - simpl in HN. lia.
  - cbn [lg_floor_loop]. rewrite Z.shiftr_div_pow2 by lia. change (2 ^ 1) with 2.
    destruct (Z.eqb_spec (N / 2) 0) as [E|E].
    + assert (N = 1) by (assert (N / 2 >= 1 \/ N < 2) by (destruct (Z_lt_le_dec N 2); [right; lia | left; apply Z.le_ge, Z.div_le_lower_bound; lia]); lia).
      subst N. simpl. lia.
    + assert (2 <= N) by (destruct (Z_lt_le_dec N 2) as [L|L]; [ rewrite Z.div_small in E by lia; lia | lia ]).
      assert (HL : Z.log2 (N / 2) = Z.log2 N - 1).
      { change (N / 2) with (N / 2 ^ 1). rewrite <- (Z.shiftr_div_pow2 N 1) by lia.
        rewrite Z.log2_shiftr by lia.
        assert (1 <= Z.log2 N) by (apply Z.log2_le_pow2; simpl; lia). lia. }
      assert (0 <= Z.log2 (N / 2)) by apply Z.log2_nonneg.
      rewrite u32_small by lia.
      rewrite IH.
      * lia.
      * split.
        -- apply Z.div_str_pos. lia.
        -- apply Z.div_lt_upper_bound; [lia|].
           rewrite Nat2Z.inj_succ, Z.pow_succ_r in HN by lia. lia.
      * lia.
      * lia.
Qed.

Lemma log2_lt_32 N : 0 < N < 2 ^ 32 -> 0 <= Z.log2 N < 32.
Proof.
  intros H. split; [apply Z.log2_nonneg|].
  apply Z.log2_lt_pow2; lia.
Qed.

Lemma lg_floor_spec N : 1 <= N < 2 ^ 32 -> lg_floor N = Some (Z.log2 N).
Proof.
  intros H. unfold lg_floor.
  assert (E : (1 <=? N) = true) by (apply Z.leb_le; lia). rewrite E. cbn [c_assert bind].
  f_equal. rewrite lg_floor_loop_spec.
  - lia.
  - change (Z.of_nat 32) with 32. lia.
  - lia.
  - pose proof (log2_lt_32 N). lia.
Qed.

Lemma lg_ceil_spec N : 1 <= N < 2 ^ 32 -> lg_ceil N = Some (Z.log2_up N).
Proof.
  intros H. unfold lg_ceil. rewrite lg_floor_spec by assumption.
  assert (E : (1 <=? N) = true) by (apply Z.leb_le; lia). rewrite E. cbn [c_assert bind].
  f_equal.
  pose proof (log2_lt_32 N ltac:(lia)) as HL.
  pose proof (Z.log2_spec N ltac:(lia)) as HS.
  rewrite Z.shiftl_1_l.
  rewrite (u32_small (2 ^ Z.log2 N)) by lia.
  destruct (Z.eqb_spec (2 ^ Z.log2 N) N) as [E1|E1].
  - rewrite Z.add_0_r, u32_small by lia.
    apply (proj2 (Z.log2_log2_up_exact N ltac:(lia))). exists (Z.log2 N). congruence.
  - rewrite u32_small by lia.
    pose proof (Z.le_log2_up_succ_log2 N).
    pose proof (Z.le_log2_log2_up N).
    destruct (Z.eq_dec (Z.log2 N) (Z.log2_up N)) as [E3|E3]; [|lia].
    apply Z.log2_log2_up_exact in E3; [|lia]. destruct E3 as [b E3].
    exfalso. apply E1.
    destruct (Z_lt_le_dec b 0) as [Hb|Hb].
    + rewrite Z.pow_neg_r in E3 by assumption. lia.
    + rewrite E3 at 1. rewrite Z.log2_pow2 by lia. congruence.
Qed.

(** ** The dispatch and the table sizes *)

(** C5, a counterexample: the pair (2, 1), for which the specification
    names Model IV, fails the assertion. *)
Lemma C5_counterexample :
  spec_dispatch 2 1 = Run Model_IV /\
  join_thread_dispatch {| Radix_R := 2; Radix_S := 1; user_defined := true |}
    = AssertFalse.
Proof. split; reflexivity. Qed.

(** C5 (amended): the dispatch of [join_thread] on the radix pair: (0,0)
    runs Model I, (r,r) with r>0 Model II, (r,0) with r>0 Model III; every
    other pair, (r,s) with r>s>0 among them, fails the assertion, and no
    pair runs Model IV. *)
Theorem C5_dispatch (Radix : radix_info_t) :
  0 <= Radix_R Radix -> 0 <= Radix_S Radix ->
  (Radix_R Radix = 0 /\ Radix_S Radix = 0 ->
     join_thread_dispatch Radix = Run Model_I) /\
  (Radix_R Radix = Radix_S Radix /\ 0 < Radix_R Radix ->
     join_thread_dispatch Radix = Run Model_II) /\
  (0 < Radix_R Radix /\ Radix_S Radix = 0 ->
     join_thread_dispatch Radix = Run Model_III) /\
  (Radix_R Radix <> Radix_S Radix /\ 0 < Radix_S Radix ->
     join_thread_dispatch Radix = AssertFalse) /\
  join_thread_dispatch Radix <> Run Model_IV.
Proof.
  intros HR HS. unfold join_thread_dispatch.
  destruct (Z.eqb_spec (Radix_R Radix) (Radix_S Radix)) as [E|E];
    destruct (Z.eqb_spec (Radix_R Radix) 0) as [E0|E0];
    destruct (Z.eqb_spec (Radix_S Radix) 0) as [E1|E1];
    repeat split; intros; try discriminate; try reflexivity; lia.
Qed.

(** The pair (3, 2). *)
Lemma C5_dispatch_witness :
  join_thread_dispatch {| Radix_R := 3; Radix_S := 2; user_defined := true |}
    = AssertFalse.
Proof.
  apply (C5_dispatch {| Radix_R := 3; Radix_S := 2; user_defined := true |});
    simpl; lia.
Defined.



Lemma next_pow2_least n :
  1 <= n ->
  n <= next_pow2 n /\ forall k, 0 <= k -> n <= 2 ^ k -> next_pow2 n <= 2 ^ k.
Proof.
  intros Hn. unfold next_pow2. split.
  - destruct (Z.eq_dec n 1) as [->|]; [simpl; lia|].
    apply Z.log2_up_spec. lia.
  - intros k Hk Hle. apply Z.pow_le_mono_r; [lia|].
    apply Z.log2_up_le_pow2; lia.
Qed.

Lemma shr32_spec K n : 0 <= n < 32 -> shr32 K n = Some (K / 2 ^ n).
Proof.
  intros H. unfold shr32.
  assert (E : (0 <=? n) && (n <? 32) = true)
    by (apply andb_true_iff; split; [apply Z.leb_le | apply Z.ltb_lt]; lia).
  rewrite E. f_equal. apply Z.shiftr_div_pow2. lia.
Qed.

Lemma shl1_spec n : 0 <= n < 31 -> shl1 n = Some (2 ^ n).
Proof.
  intros H. unfold shl1.
  assert (E : (0 <=? n) && (n <? 31) = true)
    by (apply andb_true_iff; split; [apply Z.leb_le | apply Z.ltb_lt]; lia).
  rewrite E. f_equal. apply Z.shiftl_1_l.
Qed.

Lemma shl1_Some n f : shl1 n = Some f -> 0 <= n < 31 /\ f = 2 ^ n.
Proof.
  unfold shl1. intros H.
  destruct ((0 <=? n) && (n <? 31)) eqn:E; [|discriminate].
  apply andb_true_iff in E. destruct E as [E1 E2].
  apply Z.leb_le in E1. apply Z.ltb_lt in E2.
  injection H as <-. rewrite Z.shiftl_1_l. lia.
Qed.

Lemma CPRA_HTable_size_spec g :
  1 <= Radix_R (Radix g) < 32 -> 0 <= RelR_size g < 2 ^ 31 ->
  CPRA_HTable_size g
    = Some (next_pow2 (RelR_size g / 2 ^ Radix_R (Radix g) + 1)).
Proof.
  intros HR HS. unfold CPRA_HTable_size.
  rewrite shr32_spec by lia. cbn [bind].
  set (q := RelR_size g / 2 ^ Radix_R (Radix g)).
  assert (Hq : 0 <= q < 2 ^ 30).
  { unfold q. split.
    - apply Z.div_pos; [lia | apply Z.pow_pos_nonneg; lia].
    - apply Z.div_lt_upper_bound; [apply Z.pow_pos_nonneg; lia|].
      assert (2 ^ 1 <= 2 ^ Radix_R (Radix g)) by (apply Z.pow_le_mono_r; lia).
      change (2 ^ 1) with 2 in *. nia. }
  rewrite u32_small by lia.
  rewrite lg_ceil_spec by lia. cbn [bind].
  assert (Z.log2_up (q + 1) <= 30).
  { apply Z.log2_up_le_pow2; lia. }
  pose proof (Z.log2_up_nonneg (q + 1)).
  rewrite shl1_spec by lia. reflexivity.
Qed.

(** C6, a counterexample: with |R| = 16 and R_bits = 2 the code
    allocates 8 buckets where next_pow2(ceil(16 / 4)) is 4, and the cell
    of key 16 is 4, outside a table of 4 buckets; with "next power of
    two" read as strictly above, |R| = 13 gives 8 where the code
    allocates 4. *)
Lemma C6_counterexample :
  CPRA_HTable_size (mk_globals 2 2 true 1 1 16 16) = Some 8 /\
  spec_CPRA_HTable_size 16 2 = 4 /\
  Z.shiftr 16 2 = 4 /\
  CPRA_HTable_size (mk_globals 2 2 true 1 1 13 13) = Some 4 /\
  spec_CPRA_HTable_size_above 13 2 = 8.
Proof. repeat split; reflexivity. Qed.

Lemma len_SafeMalloc junk gi n : 0 <= n -> len (SafeMalloc junk gi n) = n.
Proof.
  intros Hn. unfold SafeMalloc, len. rewrite length_map, length_seq. lia.
Qed.

Lemma shiftr_key_bound k R_size R_bits :
  0 <= R_bits -> 0 <= k <= R_size ->
  0 <= Z.shiftr k R_bits < next_pow2 (R_size / 2 ^ R_bits + 1).
Proof.
  intros HR Hk. rewrite Z.shiftr_div_pow2 by lia.
  assert (Hp : 0 < 2 ^ R_bits) by (apply Z.pow_pos_nonneg; lia).
  assert (0 <= k / 2 ^ R_bits) by (apply Z.div_pos; lia).
  assert (k / 2 ^ R_bits <= R_size / 2 ^ R_bits)
    by (apply Z.div_le_mono; lia).
  assert (1 <= R_size / 2 ^ R_bits + 1) by lia.
  pose proof (proj1 (next_pow2_least _ H1)). lia.
Qed.

(** ** Arrays *)

Lemma len_nonneg {A} (l : list A) : 0 <= len l.
Proof. unfold len. lia. Qed.

Lemma len_app {A} (a b : list A) : len (a ++ b) = len a + len b.
Proof. unfold len. rewrite length_app. lia. Qed.

Lemma len_cons {A} (x : A) l : len (x :: l) = 1 + len l.
Proof. unfold len. cbn [length]. lia. Qed.

Lemma len_nil {A} : len (@nil A) = 0.
Proof. reflexivity. Qed.

Lemma len_0_nil {A} (l : list A) : len l = 0 -> l = [].
Proof. destruct l; [reflexivity|]. rewrite len_cons. pose proof (len_nonneg l). lia. Qed.

Lemma len_map {A B} (f : A -> B) l : len (map f l) = len l.
Proof. unfold len. rewrite length_map. reflexivity. Qed.

Lemma len_repeat {A} (x : A) n : len (repeat x n) = Z.of_nat n.
Proof. unfold len. rewrite repeat_length. reflexivity. Qed.

Lemma len_firstn {A} (l : list A) n :
  0 <= n <= len l -> len (firstn (Z.to_nat n) l) = n.
Proof. unfold len. intros H. rewrite length_firstn. lia. Qed.

Lemma len_skipn {A} (l : list A) n :
  0 <= n <= len l -> len (skipn (Z.to_nat n) l) = len l - n.
Proof. unfold len. intros H. rewrite length_skipn. lia. Qed.

Lemma rd_app_r {A} (a b : list A) j :
  0 <= j -> rd (a ++ b) (len a + j) = rd b j.
Proof.
  intros Hj. unfold rd, len.
  destruct (Z.ltb_spec (Z.of_nat (length a) + j) 0); [lia|].
  destruct (Z.ltb_spec j 0); [lia|].
  rewrite nth_error_app2 by lia. f_equal. lia.
Qed.

Lemma rd_app_l {A} (a b : list A) i :
  i < len a -> rd (a ++ b) i = rd a i.
Proof.
  intros Hi. unfold rd, len in *.
  destruct (Z.ltb_spec i 0); [reflexivity|].
  apply nth_error_app1. lia.
Qed.

Lemma rd_head {A} (x : A) l : rd (x :: l) 0 = Some x.
Proof. reflexivity. Qed.

Lemma rd_mid {A} (a : list A) x b : rd (a ++ x :: b) (len a) = Some x.
Proof. rewrite <- (Z.add_0_r (len a)). rewrite rd_app_r by lia. reflexivity. Qed.

Lemma rd_Some_range {A} (l : list A) i x : rd l i = Some x -> 0 <= i < len l.
Proof.
  unfold rd, len. destruct (Z.ltb_spec i 0); [discriminate|].
  intros H0. assert (nth_error l (Z.to_nat i) <> None) by congruence.
  apply nth_error_Some in H1. lia.
Qed.

Lemma rd_In {A} (l : list A) i x : rd l i = Some x -> In x l.
Proof.
  unfold rd. destruct (i <? 0); [discriminate|]. apply nth_error_In.
Qed.

Lemma split_at {A} (l : list A) i :
  0 <= i < len l -> exists a x b, l = a ++ x :: b /\ len a = i.
Proof.
  intros Hi. unfold len in *.
  destruct (nth_error l (Z.to_nat i)) as [x|] eqn:E.
  - apply nth_error_split in E. destruct E as (a & b & -> & Hl).
    exists a, x, b. split; [reflexivity | lia].
  - apply nth_error_None in E. lia.
Qed.

Lemma split_at_le {A} (l : list A) i :
  0 <= i <= len l -> exists a b, l = a ++ b /\ len a = i.
Proof.
  intros Hi. exists (firstn (Z.to_nat i) l), (skipn (Z.to_nat i) l).
  split; [symmetry; apply firstn_skipn | apply len_firstn; assumption].
Qed.

Lemma rd_lt {A} (l : list A) i : 0 <= i < len l -> exists x, rd l i = Some x.
Proof.
  intros Hi. destruct (split_at l i Hi) as (a & x & b & -> & <-).
  exists x. apply rd_mid.
Qed.

Lemma wr_mid {A} (a : list A) x b v :
  wr (a ++ x :: b) (len a) v = Some (a ++ v :: b).
Proof.
  unfold wr, len. rewrite length_app. cbn [length].
  destruct (Z.leb_spec 0 (Z.of_nat (length a))); [|lia].
  destruct (Z.ltb_spec (Z.of_nat (length a)) (Z.of_nat (length a + S (length b)))); [|lia].
  cbn [andb]. rewrite Nat2Z.id. f_equal.
  rewrite firstn_app, Nat.sub_diag, firstn_all. cbn [firstn].
  rewrite app_nil_r. f_equal.
  replace (S (length a)) with (length a + 1)%nat by lia.
  rewrite skipn_app. rewrite skipn_all2 by lia.
  replace (length a + 1 - length a)%nat with 1%nat by lia. reflexivity.
Qed.

Lemma wr_inv {A} (l l' : list A) i v :
  wr l i v = Some l' ->
  exists a x b, l = a ++ x :: b /\ len a = i /\ l' = a ++ v :: b.
Proof.
  intros H. assert (Hi : 0 <= i < len l).
  { unfold wr in H. fold (len l) in H.
    destruct (Z.leb_spec 0 i); destruct (Z.ltb_spec i (len l)); try discriminate. lia. }
  destruct (split_at l i Hi) as (a & x & b & -> & <-).
  rewrite wr_mid in H. injection H as <-. exists a, x, b. auto.
Qed.

Lemma wr_None {A} (l : list A) i v : ~ (0 <= i < len l) -> wr l i v = None.
Proof.
  intros H. unfold wr. fold (len l).
  destruct (Z.leb_spec 0 i); destruct (Z.ltb_spec i (len l)); try reflexivity. lia.
Qed.

Lemma wr_len {A} (l l' : list A) i v : wr l i v = Some l' -> len l' = len l.
Proof.
  intros H. apply wr_inv in H. destruct H as (a & x & b & -> & _ & ->).
  rewrite !len_app, !len_cons. reflexivity.
Qed.

Lemma wr_lt {A} (l : list A) i v :
  0 <= i < len l -> exists l', wr l i v = Some l'.
Proof.
  intros Hi. destruct (split_at l i Hi) as (a & x & b & -> & <-).
  eexists. apply wr_mid.
Qed.

Lemma rd_wr_eq {A} (l l' : list A) i v : wr l i v = Some l' -> rd l' i = Some v.
Proof.
  intros H. apply wr_inv in H. destruct H as (a & x & b & -> & <- & ->).
  apply rd_mid.
Qed.

Lemma rd_wr_neq {A} (l l' : list A) i j v :
  wr l i v = Some l' -> i <> j -> rd l' j = rd l j.
Proof.
  intros H Hne. apply wr_inv in H. destruct H as (a & x & b & -> & <- & ->).
  destruct (Z_lt_le_dec j (len a)) as [L|L].
  - rewrite !rd_app_l by assumption. reflexivity.
  - replace j with (len a + (j - len a)) by lia.
    rewrite !rd_app_r by lia.
    unfold rd. destruct (Z.ltb_spec (j - len a) 0); [reflexivity|].
    destruct (Z.to_nat (j - len a)) eqn:E; [lia|]. reflexivity.
Qed.

Lemma wr_app_r {A} (a b b' : list A) j v :
  wr b j v = Some b' -> wr (a ++ b) (len a + j) v = Some (a ++ b').
Proof.
  intros H. apply wr_inv in H. destruct H as (c & x & d & -> & <- & ->).
  rewrite !app_assoc. rewrite <- len_app. apply wr_mid.
Qed.

Lemma wr_app_l {A} (a a' b : list A) j v :
  wr a j v = Some a' -> wr (a ++ b) j v = Some (a' ++ b).
Proof.
  intros H. apply wr_inv in H. destruct H as (c & x & d & -> & <- & ->).
  rewrite <- !app_assoc. cbn [app]. apply wr_mid.
Qed.

Lemma list_ext_rd {A} (l l' : list A) :
  len l = len l' -> (forall i, 0 <= i < len l -> rd l i = rd l' i) -> l = l'.
Proof.
  intros Hl H. apply nth_error_ext. intros n.
  destruct (Nat.lt_ge_cases n (length l)) as [L|L].
  - specialize (H (Z.of_nat n)). unfold rd, len in *.
    destruct (Z.ltb_spec (Z.of_nat n) 0); [lia|].
    rewrite Nat2Z.id in H. apply H. lia.
  - rewrite (proj2 (nth_error_None l n)) by lia.
    rewrite (proj2 (nth_error_None l' n)); [reflexivity|]. unfold len in Hl. lia.
Qed.

(** ** Tabulated arrays *)

Lemma len_ztab {A} (f : Z -> A) n : 0 <= n -> len (ztab f n) = n.
Proof. intros H. unfold ztab, len. rewrite length_map, length_seq. lia. Qed.

Lemma rd_ztab {A} (f : Z -> A) n i : 0 <= i < n -> rd (ztab f n) i = Some (f i).
Proof.
  intros H. unfold rd, ztab. destruct (Z.ltb_spec i 0); [lia|].
  rewrite nth_error_map, nth_error_seq.
  destruct (Nat.ltb_spec (Z.to_nat i) (Z.to_nat n)); [|lia].
  cbn. f_equal. f_equal. lia.
Qed.

Lemma ztab_ext {A} (f g : Z -> A) n :
  (forall i, 0 <= i < n -> f i = g i) -> ztab f n = ztab g n.
Proof.
  intros H. unfold ztab. apply map_ext_in. intros a Ha.
  apply in_seq in Ha. apply H. lia.
Qed.

Lemma wr_ztab {A} (f : Z -> A) n i v :
  0 <= i < n ->
  wr (ztab f n) i v = Some (ztab (fun j => if j =? i then v else f j) n).
Proof.
  intros H.
  destruct (wr_lt (ztab f n) i v) as [l' Hl']; [rewrite len_ztab; lia|].
  rewrite Hl'. f_equal. apply list_ext_rd.
  - rewrite (wr_len _ _ _ _ Hl'), !len_ztab; lia.
  - intros j Hj. rewrite (wr_len _ _ _ _ Hl'), len_ztab in Hj by lia.
    rewrite rd_ztab by lia.
    destruct (Z.eqb_spec j i) as [->|Hne].
    + apply (rd_wr_eq _ _ _ _ Hl').
    + rewrite (rd_wr_neq _ _ _ _ _ Hl') by congruence. apply rd_ztab. lia.
Qed.

Lemma repeat_ztab {A} (x : A) n : repeat x (Z.to_nat n) = ztab (fun _ => x) n.
Proof.
  unfold ztab. generalize 0%nat. induction (Z.to_nat n) as [|k IH]; intros s.
  - reflexivity.
  - cbn. f_equal. apply IH.
Qed.

Lemma ztab_succ {A} (f : Z -> A) n :
  0 <= n -> ztab f (n + 1) = ztab f n ++ [f n].
Proof.
  intros H. unfold ztab. replace (Z.to_nat (n + 1)) with (Z.to_nat n + 1)%nat by lia.
  rewrite seq_app, map_app. cbn. rewrite Z2Nat.id by lia. reflexivity.
Qed.

(** ** Loops *)

Lemma for_loop_inv {St} (P : Z -> St -> Prop) body n : forall i st,
  P i st ->
  (forall j s, i <= j < i + Z.of_nat n -> P j s ->
     exists s', body j s = Some s' /\ P (j + 1) s') ->
  exists s', for_loop n i body st = Some s' /\ P (i + Z.of_nat n) s'.
Proof.
  induction n as [|n IH]; intros i st HP Hstep.
  - exists st. split; [reflexivity|]. rewrite Z.add_0_r. assumption.
  - cbn [for_loop]. destruct (Hstep i st ltac:(lia) HP) as (s1 & E1 & P1).
    rewrite E1. cbn [bind].
    destruct (IH (i + 1) s1 P1) as (s' & E' & P').
    + intros j s Hj. apply Hstep. lia.
    + exists s'. split; [assumption|].
      replace (i + Z.of_nat (S n)) with (i + 1 + Z.of_nat n) by lia. assumption.
Qed.

Lemma for_range_inv {St} (P : Z -> St -> Prop) body lo hi st :
  lo <= hi ->
  P lo st ->
  (forall j s, lo <= j < hi -> P j s ->
     exists s', body j s = Some s' /\ P (j + 1) s') ->
  exists s', for_range lo hi body st = Some s' /\ P hi s'.
Proof.
  intros Hle HP Hstep. unfold for_range.
  destruct (for_loop_inv P body (Z.to_nat (hi - lo)) lo st HP) as (s' & E & P').
  - intros j s Hj. apply Hstep. lia.
  - exists s'. split; [assumption|].
    replace (lo + Z.of_nat (Z.to_nat (hi - lo))) with hi in P' by lia. assumption.
Qed.

Lemma for_range_empty {St} body lo hi (st : St) :
  hi <= lo -> for_range lo hi body st = Some st.
Proof.
  intros H. unfold for_range. replace (Z.to_nat (hi - lo)) with 0%nat by lia. reflexivity.
Qed.

Lemma for_loop_fold {X St} (A : list X) body (f : X -> St -> option St) :
  forall i st,
  (forall k x s, nth_error A k = Some x -> body (i + Z.of_nat k) s = f x s) ->
  for_loop (length A) i body st = fold_opt f A st.
Proof.
  induction A as [|a A IH]; intros i st H.
  - reflexivity.
  - cbn [length for_loop fold_opt].
    rewrite <- (H 0%nat a st eq_refl). rewrite Z.add_0_r.
    destruct (body i st) as [s1|]; [|reflexivity]. cbn [bind].
    apply IH. intros k x s Hk.
    replace (i + 1 + Z.of_nat k) with (i + Z.of_nat (S k)) by lia.
    apply H. assumption.
Qed.

(** A loop that reads the cells [[from, from + len blk)] of an array in
    which [blk] sits at offset [from]. *)
Lemma for_range_slice {X St} (pre blk post : list X) body
    (f : X -> St -> option St) st :
  (forall i x s, rd (pre ++ blk ++ post) i = Some x -> len pre <= i < len pre + len blk ->
     body i s = f x s) ->
  for_range (len pre) (len pre + len blk) body st = fold_opt f blk st.
Proof.
  intros H. unfold for_range.
  replace (Z.to_nat (len pre + len blk - len pre)) with (length blk) by (unfold len; lia).
  apply for_loop_fold. intros k x s Hk. apply H.
  - rewrite rd_app_r by lia. rewrite rd_app_l.
    + unfold rd. destruct (Z.ltb_spec (Z.of_nat k) 0); [lia|]. rewrite Nat2Z.id. assumption.
    + assert (k < length blk)%nat by (apply nth_error_Some; congruence). unfold len. lia.
  - assert (k < length blk)%nat by (apply nth_error_Some; congruence). unfold len. lia.
Qed.

Lemma fold_opt_app {X St} (f : X -> St -> option St) a b st :
  fold_opt f (a ++ b) st = (s <- fold_opt f a st ;; fold_opt f b s).
Proof.
  revert st. induction a as [|x a IH]; intros st.
  - reflexivity.
  - cbn [app fold_opt]. destruct (f x st); [apply IH | reflexivity].
Qed.

(** ** The skew criterion *)

Lemma largest_app l c : largest (l ++ [c]) = Z.max (largest l) (Z.max c 0).
Proof.
  unfold largest. induction l as [|x l IH]; cbn [app fold_right].
  - lia.
  - rewrite IH. lia.
Qed.

Lemma largest_ge l x : In x l -> x <= largest l.
Proof.
  unfold largest. induction l as [|y l IH]; cbn [fold_right In]; [tauto|].
  intros [->|H]; [lia|]. specialize (IH H). lia.
Qed.

Lemma largest_nonneg l : 0 <= largest l.
Proof. unfold largest. induction l; cbn [fold_right]; lia. Qed.

Lemma largest_In l : l <> [] -> Forall (fun x => 0 <= x) l -> In (largest l) l.
Proof.
  unfold largest. induction l as [|y l IH]; [congruence|]. intros _ HF.
  inversion HF as [|? ? Hy HF']; subst. cbn [fold_right].
  destruct l as [|z l].
  - cbn. left. lia.
  - specialize (IH ltac:(congruence) HF').
    destruct (Z.max_spec y (fold_right Z.max 0 (z :: l))) as [[_ ->]|[_ ->]].
    + right. assumption.
    + left. reflexivity.
Qed.

Lemma remove_one_app_in x l c :
  In x l -> remove_one x (l ++ [c]) = remove_one x l ++ [c].
Proof.
  induction l as [|y l IH]; [intros []|]. intros H. cbn [app remove_one].
  destruct (Z.eqb_spec y x); [reflexivity|].
  destruct H as [->|H]; [congruence|]. rewrite IH by assumption. reflexivity.
Qed.

Lemma remove_one_app_notin x l :
  ~ In x l -> remove_one x (l ++ [x]) = l.
Proof.
  induction l as [|y l IH]; intros H; cbn [app remove_one].
  - rewrite Z.eqb_refl. reflexivity.
  - destruct (Z.eqb_spec y x) as [->|]; [exfalso; apply H; left; reflexivity|].
    rewrite IH; [reflexivity|]. intros HI. apply H. right. assumption.
Qed.

Lemma top2_spec l :
  Forall (fun x => 0 <= x) l ->
  fold_left (fun st c => top2_step c st) l (0, 0)
    = (largest l, second_largest l).
Proof.
  induction l as [|c l IH] using rev_ind; intros HF.
  - reflexivity.
  - apply Forall_app in HF. destruct HF as [HF Hc].
    inversion Hc as [|? ? Hc0 _]; subst.
    rewrite fold_left_app. cbn [fold_left]. rewrite IH by assumption.
    unfold top2_step, second_largest. rewrite !largest_app.
    pose proof (largest_nonneg l) as Hn.
    replace (Z.max c 0) with c by lia.
    destruct (Z.ltb_spec (largest l) c) as [L|L].
    + replace (Z.max (largest l) c) with c by lia.
      rewrite remove_one_app_notin; [reflexivity|].
      intros HI. apply largest_ge in HI. lia.
    + replace (Z.max (largest l) c) with (largest l) by lia.
      destruct l as [|y l'].
      * cbn. assert (c = 0) by (cbn in L; lia). subst c. reflexivity.
      * rewrite remove_one_app_in by (apply largest_In; [congruence | assumption]).
        rewrite largest_app. replace (Z.max c 0) with c by lia.
        set (b := largest (remove_one (largest (y :: l')) (y :: l'))).
        destruct (Z.ltb_spec b c); f_equal; lia.
Qed.

Lemma fold_opt_total {X St} (f : X -> St -> St) l st :
  fold_opt (fun x s => Some (f x s)) l st = Some (fold_left (fun s x => f x s) l st).
Proof.
  revert st. induction l as [|x l IH]; intros st; [reflexivity|].
  cbn [fold_opt fold_left bind]. apply IH.
Qed.

Lemma two_most_common_spec Histo :
  Forall (fun x => 0 <= x) Histo ->
  two_most_common (len Histo) Histo
    = Some (largest Histo, second_largest Histo).
Proof.
  intros HF. unfold two_most_common.
  pose proof (for_range_slice (St := Z * Z) [] Histo []
                (fun j '(maxA, maxB) =>
                   c <- rd Histo j ;;
                   if maxA <? c then Some (c, maxA)
                   else if maxB <? c then Some (maxA, c)
                   else Some (maxA, maxB))
                (fun c st => Some (top2_step c st)) (0, 0)) as H.
  rewrite len_nil, Z.add_0_l in H. rewrite H.
  - rewrite fold_opt_total. f_equal. apply top2_spec. assumption.
  - intros i x [a b] Hrd _. cbn [app] in Hrd. rewrite app_nil_r in Hrd.
    rewrite Hrd. cbn [bind]. unfold top2_step.
    destruct (a <? x); [reflexivity|]. destruct (b <? x); reflexivity.
Qed.

Lemma Forall_range_nonneg (l : list Z) :
  Forall (fun x => 0 <= x < 2 ^ 16) l -> Forall (fun x => 0 <= x) l.
Proof. apply Forall_impl. intros; lia. Qed.

Lemma largest_lt l B :
  0 < B -> Forall (fun x => 0 <= x < B) l -> 0 <= largest l < B.
Proof.
  intros HB HF. unfold largest. induction HF as [|x l Hx HF IH]; cbn [fold_right]; lia.
Qed.

Lemma remove_one_Forall (P : Z -> Prop) x l :
  Forall P l -> Forall P (remove_one x l).
Proof.
  induction 1 as [|y l Hy HF IH]; cbn [remove_one]; [constructor|].
  destruct (y =? x); [assumption | constructor; assumption].
Qed.

Lemma skew_report_spec g Histo block_size fanout :
  0 < RelR_size g -> 0 <= RelS_size g ->
  FanoutS g = Some fanout -> len Histo = fanout ->
  Forall (fun x => 0 <= x < 2 ^ 16) Histo ->
  0 <= block_size < 2 ^ 16 ->
  exists r, skew_report g Histo block_size = Some r /\
    (r = Some true <->
       spec_high_skew (RelS_size g) (RelR_size g) fanout block_size
         (largest Histo) (second_largest Histo)).
Proof.
  intros HR HS HF HL HH HB. unfold skew_report, c_div, spec_high_skew.
  destruct (Z.eqb_spec (RelR_size g) 0); [lia|]. cbn [bind].
  assert (Hdiv : RelS_size g / RelR_size g < 3 <-> ~ 3 * RelR_size g <= RelS_size g).
  { split; intros H.
    - intros H'. assert (3 <= RelS_size g / RelR_size g) by (apply Z.div_le_lower_bound; lia). lia.
    - apply Z.div_lt_upper_bound; lia. }
  destruct (Z.ltb_spec (RelS_size g / RelR_size g) 3) as [L|L].
  - exists None. split; [reflexivity|]. split; [discriminate|].
    intros [H _]. apply Hdiv in L. contradiction.
  - rewrite HF. cbn [bind]. rewrite <- HL.
    rewrite two_most_common_spec by (apply Forall_range_nonneg; assumption). cbn [bind].
    eexists. split; [reflexivity|].
    pose proof (largest_lt Histo (2 ^ 16) ltac:(lia) HH) as HA.
    pose proof (largest_lt (remove_one (largest Histo) Histo) (2 ^ 16) ltac:(lia)
                  (remove_one_Forall _ _ _ HH)) as HBb.
    fold (second_largest Histo) in HBb.
    set (a := largest Histo) in *. set (b := second_largest Histo) in *.
    rewrite (u32_small (block_size * 35)) by lia.
    rewrite (u32_small (a + b)) by lia.
    assert (0 <= block_size / 2 <= block_size) by (split; [apply Z.div_pos; lia | apply Z.div_le_upper_bound; lia]).
    rewrite (u32_small (block_size / 2 + 10)) by lia.
    rewrite HL.
    assert (E1 : block_size * 35 / 100 < a + b <-> 35 * block_size < 100 * (a + b)).
    { split; intros H0.
      - assert (block_size * 35 < 100 * (a + b)); [|lia].
        pose proof (Z.mul_succ_div_gt (block_size * 35) 100 ltac:(lia)). lia.
      - apply Z.div_lt_upper_bound; lia. }
    assert (E2 : block_size / 2 + 10 < a <-> block_size + 20 < 2 * a).
    { split; intros H0.
      - pose proof (Z.mul_succ_div_gt block_size 2 ltac:(lia)). lia.
      - assert (block_size / 2 < a - 10); [|lia]. apply Z.div_lt_upper_bound; lia. }
    assert (L3 : 3 * RelR_size g <= RelS_size g).
    { destruct (Z_le_gt_dec (3 * RelR_size g) (RelS_size g)); [assumption|].
      assert (RelS_size g / RelR_size g < 3) by (apply Hdiv; lia). lia. }
    destruct (Z.ltb_spec 4 fanout) as [F|F];
      destruct (Z.leb_spec fanout 4) as [F'|F']; try lia;
      destruct (Z.ltb_spec (block_size * 35 / 100) (a + b)) as [C1|C1];
      destruct (Z.ltb_spec (block_size / 2 + 10) a) as [C2|C2];
      cbn [andb orb]; split; intros H0; try discriminate; try reflexivity;
      try (split; [assumption|]); try tauto; try lia.
    all: destruct H0 as [_ [[? ?]|[? ?]]]; try lia.
Qed.

(** ** Counting the tuples of a partition *)

Lemma ztab_0 {A} (f : Z -> A) : ztab f 0 = [].
Proof. reflexivity. Qed.

Lemma ztab_app {A} (f : Z -> A) a b :
  0 <= a -> 0 <= b -> ztab f (a + b) = ztab f a ++ ztab (fun q => f (a + q)) b.
Proof.
  intros Ha Hb. apply list_ext_rd.
  - rewrite len_app, !len_ztab by lia. reflexivity.
  - intros i Hi. rewrite len_ztab in Hi by lia. rewrite rd_ztab by lia.
    destruct (Z_lt_le_dec i a) as [L|L].
    + rewrite rd_app_l by (rewrite len_ztab; lia). rewrite rd_ztab by lia. reflexivity.
    + replace i with (len (ztab f a) + (i - a)) at 2 by (rewrite len_ztab; lia).
      rewrite rd_app_r by lia. rewrite rd_ztab by lia. f_equal. f_equal. lia.
Qed.

Lemma ztab_split {A} (f : Z -> A) n h :
  0 <= h < n ->
  ztab f n = ztab f h ++ f h :: ztab (fun q => f (h + 1 + q)) (n - h - 1).
Proof.
  intros H. replace n with (h + (1 + (n - h - 1))) at 1 by lia.
  rewrite ztab_app by lia. f_equal.
  rewrite ztab_app by lia. cbn [app].
  change (ztab (fun q => f (h + q)) 1) with [f (h + 0)]. cbn [app].
  rewrite Z.add_0_r. f_equal. apply ztab_ext. intros i Hi. f_equal. lia.
Qed.

Lemma concat_ztab_nil {A} (seg : Z -> list A) n :
  (forall q, seg q = []) -> concat (ztab seg n) = [].
Proof.
  intros H. unfold ztab. induction (seq 0 (Z.to_nat n)) as [|x l IH]; [reflexivity|].
  cbn [map concat]. rewrite H, IH. reflexivity.
Qed.

(** Counting lemmas that hold for every hash function. *)

Lemma cnt_nonneg (hf : tuple_t -> Z) p blk : 0 <= cnt hf p blk.
Proof. apply len_nonneg. Qed.

Lemma below_nonneg (hf : tuple_t -> Z) p blk : 0 <= below hf p blk.
Proof. apply len_nonneg. Qed.

Lemma cnt_nil (hf : tuple_t -> Z) p : cnt hf p [] = 0.
Proof. reflexivity. Qed.

Lemma cnt_cons (hf : tuple_t -> Z) p t blk :
  cnt hf p (t :: blk) = (if hf t =? p then 1 else 0) + cnt hf p blk.
Proof.
  unfold cnt, bucket. cbn [filter]. destruct (hf t =? p).
  - rewrite len_cons. reflexivity.
  - lia.
Qed.

Lemma cnt_app (hf : tuple_t -> Z) p a b : cnt hf p (a ++ b) = cnt hf p a + cnt hf p b.
Proof. unfold cnt, bucket. rewrite filter_app, len_app. reflexivity. Qed.

Lemma below_cons (hf : tuple_t -> Z) p t blk :
  below hf p (t :: blk) = (if hf t <? p then 1 else 0) + below hf p blk.
Proof.
  unfold below. cbn [filter]. destruct (hf t <? p).
  - rewrite len_cons. reflexivity.
  - lia.
Qed.

Lemma below_app (hf : tuple_t -> Z) p a b : below hf p (a ++ b) = below hf p a + below hf p b.
Proof. unfold below. rewrite filter_app, len_app. reflexivity. Qed.

Lemma below_succ (hf : tuple_t -> Z) p blk : below hf (p + 1) blk = below hf p blk + cnt hf p blk.
Proof.
  induction blk as [|t blk IH]; [reflexivity|].
  rewrite !below_cons, cnt_cons, IH.
  destruct (Z.ltb_spec (hf t) (p + 1)); destruct (Z.ltb_spec (hf t) p);
    destruct (Z.eqb_spec (hf t) p); lia.
Qed.

Lemma below_mono (hf : tuple_t -> Z) p q blk : p <= q -> below hf p blk <= below hf q blk.
Proof.
  intros H. induction blk as [|t blk IH]; [reflexivity|].
  rewrite !below_cons.
  destruct (Z.ltb_spec (hf t) p); destruct (Z.ltb_spec (hf t) q); lia.
Qed.

Lemma below_le_len (hf : tuple_t -> Z) p blk : below hf p blk <= len blk.
Proof.
  induction blk as [|t blk IH]; [reflexivity|].
  rewrite below_cons, len_cons. destruct (hf t <? p); lia.
Qed.

Lemma cnt_le_len (hf : tuple_t -> Z) p blk : cnt hf p blk <= len blk.
Proof.
  induction blk as [|t blk IH]; [reflexivity|].
  rewrite cnt_cons, len_cons. destruct (hf t =? p); lia.
Qed.

Lemma below_cnt_le (hf : tuple_t -> Z) p blk : below hf p blk + cnt hf p blk <= len blk.
Proof. rewrite <- below_succ. apply below_le_len. Qed.


Section Hashing.

Variable hf : tuple_t -> Z.
Variable fanout : Z.
Hypothesis hf_range : forall t, 0 <= hf t < fanout.

Lemma fanout_pos_of (t : tuple_t) : 0 < fanout.
Proof. pose proof (hf_range t). lia. Qed.

Lemma below_0 blk : below hf 0 blk = 0.
Proof.
  induction blk as [|t blk IH]; [reflexivity|].
  rewrite below_cons, IH. pose proof (hf_range t).
  destruct (Z.ltb_spec (hf t) 0); lia.
Qed.

Lemma below_fanout blk : below hf fanout blk = len blk.
Proof.
  induction blk as [|t blk IH]; [reflexivity|].
  rewrite below_cons, IH, len_cons. pose proof (hf_range t).
  destruct (Z.ltb_spec (hf t) fanout); lia.
Qed.

(** The segments of a directory add up to the prefix sums. *)
Lemma len_concat_ztab (seg : Z -> list tuple_t) blk p :
  0 <= p ->
  (forall q, 0 <= q < p -> len (seg q) = cnt hf q blk) ->
  len (concat (ztab seg p)) = below hf p blk.
Proof.
  intros Hp. revert p Hp. apply (natlike_ind (fun p =>
    (forall q, 0 <= q < p -> len (seg q) = cnt hf q blk) ->
    len (concat (ztab seg p)) = below hf p blk)).
  - intros _. rewrite ztab_0. cbn. rewrite below_0. reflexivity.
  - intros p Hp IH H. change (Z.succ p) with (p + 1).
    rewrite ztab_succ by assumption. rewrite concat_app, len_app.
    cbn [concat]. rewrite app_nil_r.
    rewrite IH by (intros; apply H; lia). rewrite H by lia.
    rewrite below_succ. reflexivity.
Qed.

Lemma len_part blk : len (part hf fanout blk) = len blk.
Proof.
  unfold part. destruct blk as [|t blk'] eqn:E.
  - rewrite concat_ztab_nil; reflexivity.
  - rewrite <- E. rewrite (len_concat_ztab _ blk).
    + apply below_fanout.
    + pose proof (fanout_pos_of t). lia.
    + intros. reflexivity.
Qed.

Lemma part_Permutation blk : Permutation (part hf fanout blk) blk.
Proof.
  unfold part.
  assert (G : forall p, 0 <= p ->
            Permutation (concat (ztab (fun q => bucket hf q blk) p))
                        (filter (fun t => hf t <? p) blk)).
  { apply natlike_ind.
    - rewrite ztab_0. cbn [concat].
      assert (E : filter (fun t => hf t <? 0) blk = []).
      { apply len_0_nil. apply (below_0 blk). }
      rewrite E. constructor.
    - intros p Hp IH. change (Z.succ p) with (p + 1).
      rewrite ztab_succ by assumption. rewrite concat_app. cbn [concat].
      rewrite app_nil_r.
      eapply Permutation_trans; [apply Permutation_app_tail, IH|].
      clear IH. unfold bucket. induction blk as [|t blk' IHb]; [constructor|].
      cbn [filter].
      destruct (Z.ltb_spec (hf t) p); destruct (Z.eqb_spec (hf t) p);
        destruct (Z.ltb_spec (hf t) (p + 1)); try lia.
      + cbn [app]. constructor. assumption.
      + eapply Permutation_trans; [apply Permutation_sym, Permutation_middle|].
        constructor. assumption.
      + assumption. }
  assert (Hf : blk = [] \/ 0 < fanout)
    by (destruct blk as [|t ?]; [left; reflexivity | right; apply (fanout_pos_of t)]).
  destruct Hf as [-> | Hf].
  - rewrite concat_ztab_nil by reflexivity. constructor.
  - eapply Permutation_trans; [apply G; lia|].
    assert (E2 : filter (fun t0 => hf t0 <? fanout) blk = blk).
    { clear G. induction blk as [|x l IH]; [reflexivity|]. cbn [filter].
      pose proof (hf_range x). destruct (Z.ltb_spec (hf x) fanout); [|lia].
      f_equal. assumption. }
    rewrite E2. apply Permutation_refl.
Qed.


End Hashing.

(** ** The loops of a round of [ICP] *)

Lemma bind_Some {A B} (m : option A) (f : A -> option B) b :
  bind m f = Some b -> exists a, m = Some a /\ f a = Some b.
Proof. destruct m as [a|]; [|discriminate]. intros H. exists a. auto. Qed.

Lemma c_assert_true b : b = true -> c_assert b = Some tt.
Proof. intros ->. reflexivity. Qed.

Section BlockLoops.

Variables mask shift fanout : Z.
Variable hf : tuple_t -> Z.
Hypothesis hf_hash : forall t, HASHx (key t) mask shift = Some (hf t).
Hypothesis hf_range : forall t, 0 <= hf t < fanout.

Local Abbreviation cntH := (cnt hf).
Local Abbreviation belowH := (below hf).
Local Abbreviation bucketH := (bucket hf).
Local Abbreviation partH := (part hf fanout).

(** *** The histogram *)

Lemma histogram_fold blk : forall done,
  len (done ++ blk) < 2 ^ 16 ->
  fold_opt (fun t Histo =>
              h <- HASHx (key t) mask shift ;;
              c <- rd Histo h ;;
              wr Histo h (u16 (c + 1)))
    blk (ztab (fun p => cntH p done) fanout)
  = Some (ztab (fun p => cntH p (done ++ blk)) fanout).
Proof.
  induction blk as [|t blk IH]; intros done Hlen.
  - rewrite app_nil_r. reflexivity.
  - cbn [fold_opt]. rewrite hf_hash. cbn [bind].
    pose proof (hf_range t) as Ht.
    rewrite rd_ztab by assumption. cbn [bind].
    rewrite wr_ztab by assumption. cbn [bind].
    replace (done ++ t :: blk) with ((done ++ [t]) ++ blk) in *
      by (rewrite <- app_assoc; reflexivity).
    rewrite <- IH by assumption. f_equal.
    apply ztab_ext. intros p Hp.
    rewrite cnt_app, cnt_cons, cnt_nil.
    pose proof (cnt_le_len hf (hf t) done).
    pose proof (cnt_nonneg hf (hf t) done).
    rewrite !len_app in Hlen. pose proof (len_nonneg blk). rewrite len_cons, len_nil in Hlen.
    destruct (Z.eqb_spec p (hf t)) as [->|Hne].
    + rewrite Z.eqb_refl. apply u16_small. lia.
    + destruct (Z.eqb_spec (hf t) p); [congruence|]. lia.
Qed.

Lemma fill_histogram_spec pre blk post :
  len blk < 2 ^ 16 ->
  fill_histogram (pre ++ blk ++ post) (len pre) (len pre + len blk)
    mask shift fanout
  = Some (ztab (fun p => cntH p blk) fanout).
Proof.
  intros Hlen. unfold fill_histogram.
  rewrite (for_range_slice pre blk post _
             (fun t Histo =>
                h <- HASHx (key t) mask shift ;;
                c <- rd Histo h ;;
                wr Histo h (u16 (c + 1)))).
  - rewrite repeat_ztab.
    rewrite (ztab_ext (fun _ => 0) (fun p => cntH p [])) by reflexivity.
    apply (histogram_fold blk []). assumption.
  - intros i x s Hrd _. rewrite Hrd. reflexivity.
Qed.

(** *** The prefix sums *)

Lemma prefix_sum_spec blk :
  len blk < 2 ^ 16 -> 0 <= fanout ->
  prefix_sum fanout (ztab (fun p => cntH p blk) fanout)
  = Some (ztab (fun p => belowH p blk) fanout).
Proof.
  intros Hlen Hf. unfold prefix_sum.
  destruct (for_range_inv
    (fun j (st : Z * list Z) =>
       fst st = belowH j blk /\
       snd st = ztab (fun p => if p <? j then belowH p blk else cntH p blk) fanout)
    (fun j '(accum, Histo) =>
         pre_accum <- rd Histo j ;;
         Histo' <- wr Histo j (u16 accum) ;;
         Some (u32 (accum + pre_accum), Histo'))
    0 fanout (0, ztab (fun p => cntH p blk) fanout) Hf) as (s' & E & HP).
  - cbn [fst snd]. split.
    + symmetry. apply (below_0 hf fanout hf_range).
    + apply ztab_ext. intros i Hi. destruct (Z.ltb_spec i 0); [lia | reflexivity].
  - intros j [accum Histo] Hj [Ha HH]. cbn [fst snd] in Ha, HH. subst accum Histo.
    rewrite rd_ztab by assumption. cbn [bind].
    destruct (Z.ltb_spec j j); [lia|].
    rewrite wr_ztab by assumption. cbn [bind].
    eexists. split; [reflexivity|]. cbn [fst snd].
    pose proof (below_cnt_le hf j blk). pose proof (below_nonneg hf j blk).
    pose proof (cnt_nonneg hf j blk).
    split.
    + rewrite u32_small by lia. symmetry. apply below_succ.
    + apply ztab_ext. intros i Hi.
      destruct (Z.eqb_spec i j) as [->|Hne].
      * destruct (Z.ltb_spec j (j + 1)); [|lia]. apply u16_small. lia.
      * destruct (Z.ltb_spec i j); destruct (Z.ltb_spec i (j + 1)); try lia; reflexivity.
  - rewrite E. destruct s' as [accum Histo']. cbn [fst snd] in HP. destruct HP as [_ ->].
    cbn. f_equal. apply ztab_ext. intros i Hi. destruct (Z.ltb_spec i fanout); [reflexivity | lia].
Qed.

(** *** The positions of the sub-blocks *)


Lemma fill_positions_spec nsb sbp block N from first_block_size blk row :
  0 <= nsb -> len row = nsb ->
  1 <= sbp -> nsb * sbp <= fanout -> fanout < 2 ^ 32 ->
  let r := (if block =? 0 then N else from) - first_block_size in
  0 <= r -> r + len blk < 2 ^ 32 ->
  fill_positions nsb sbp fanout block N from (len blk) first_block_size
    (ztab (fun p => belowH p blk) fanout) row
  = Some (ztab (sub_block_pos hf sbp r blk) nsb).
Proof.
  intros Hn Hrow Hsbp Hfit Hf32 r Hr Hr32. unfold fill_positions.
  destruct (for_range_inv
    (fun j (row' : list block_t) =>
       len row' = nsb /\
       forall m, 0 <= m < j -> rd row' m = Some (sub_block_pos hf sbp r blk m))
    (fun m row =>
       let p := u32 (m * sbp) in
       let q := u32 (p + sbp) in
       let r := u32 ((if block =? 0 then N else from) - first_block_size) in
       hp <- rd (ztab (fun p => belowH p blk) fanout) p ;;
       e <- (if q =? fanout then Some (len blk)
             else rd (ztab (fun p => belowH p blk) fanout) q) ;;
       wr row m {| start := u32 (r + hp); end_ := u32 (r + e) |})
    0 nsb row Hn) as (s' & E & HP & HQ).
  - split; [assumption|]. intros; lia.
  - intros j row' Hj [Hl Hrows]. cbn zeta. fold r.
    assert (Hjs : 0 <= j * sbp /\ j * sbp + sbp <= fanout) by nia.
    rewrite (u32_small (j * sbp)) by lia.
    rewrite (u32_small (j * sbp + sbp)) by lia.
    rewrite (u32_small r) by (pose proof (len_nonneg blk); lia).
    rewrite rd_ztab by lia. cbn [bind].
    assert (He : (if j * sbp + sbp =? fanout then Some (len blk)
                  else rd (ztab (fun p => belowH p blk) fanout) (j * sbp + sbp))
                 = Some (belowH ((j + 1) * sbp) blk)).
    { replace ((j + 1) * sbp) with (j * sbp + sbp) by lia.
      destruct (Z.eqb_spec (j * sbp + sbp) fanout) as [->|Hne].
      - rewrite (below_fanout hf fanout hf_range). reflexivity.
      - rewrite rd_ztab by lia. reflexivity. }
    rewrite He. cbn [bind].
    pose proof (below_le_len hf (j * sbp) blk). pose proof (below_nonneg hf (j * sbp) blk).
    pose proof (below_le_len hf ((j + 1) * sbp) blk).
    pose proof (below_nonneg hf ((j + 1) * sbp) blk).
    rewrite !u32_small by lia.
    destruct (wr_lt row' j (sub_block_pos hf sbp r blk j)) as [row'' Hw]; [lia|].
    unfold sub_block_pos in Hw at 1. rewrite Hw.
    eexists. split; [reflexivity|]. split.
    + rewrite (wr_len _ _ _ _ Hw). assumption.
    + intros m Hm. destruct (Z.eq_dec m j) as [->|Hne].
      * apply (rd_wr_eq _ _ _ _ Hw).
      * rewrite (rd_wr_neq _ _ _ _ _ Hw) by congruence. apply Hrows. lia.
  - cbv zeta in E. rewrite E. f_equal. apply list_ext_rd.
    + rewrite len_ztab by assumption. assumption.
    + intros i Hi. rewrite HP in Hi. rewrite HQ by assumption.
      rewrite rd_ztab by assumption. reflexivity.
Qed.

(** *** The scatter loop *)

Section Scatter.

Variable d : directory.
Variable put : list tuple_t -> icp_mem.
Variable blk : list tuple_t.
Variable from : Z.
Hypothesis put_read : forall D i,
  len D = len blk -> 0 <= i < len blk -> rd (mem_T (put D)) (from + i) = rd blk i.
Hypothesis put_write : forall D c t D',
  len D = len blk -> wr D c t = Some D' -> dir_write (put D) d c t = Some (put D').
Hypothesis blk_small : len blk < 2 ^ 16.

Let body := fun (i : Z) '((m, Histo) : icp_mem * list Z) =>
       t <- rd (mem_T m) i ;;
       h <- HASHx (key t) mask shift ;;
       c <- rd Histo h ;;
       Histo' <- wr Histo h (u16 (c + 1)) ;;
       m' <- dir_write m d c t ;;
       Some (m', Histo').

Lemma concat_ztab_split (seg : Z -> list tuple_t) h :
  0 <= h < fanout ->
  concat (ztab seg fanout)
  = concat (ztab seg h) ++ seg h
    ++ concat (ztab (fun q => seg (h + 1 + q)) (fanout - h - 1)).
Proof.
  intros H. rewrite (ztab_split seg fanout h H).
  rewrite concat_app. cbn [concat]. reflexivity.
Qed.

Lemma scatter_loop : forall post pre J,
  blk = pre ++ post ->
  (forall p, 0 <= p < fanout -> len (J p) = cntH p post) ->
  for_loop (length post) (from + len pre) body
    (put (concat (ztab (fun p => bucketH p pre ++ J p) fanout)),
     ztab (fun p => belowH p blk + cntH p pre) fanout)
  = Some (put (partH blk), ztab (fun p => belowH (p + 1) blk) fanout).
Proof.
  induction post as [|t post IH]; intros pre J Hblk HJ.
  - cbn [for_loop length]. rewrite app_nil_r in Hblk. subst pre.
    assert (E1 : concat (ztab (fun p => bucketH p blk ++ J p) fanout) = partH blk).
    { unfold part. f_equal. apply ztab_ext. intros p Hp.
      rewrite (len_0_nil (J p)) by (rewrite HJ by assumption; reflexivity).
      apply app_nil_r. }
    assert (E2 : ztab (fun p => belowH p blk + cntH p blk) fanout
                 = ztab (fun p => belowH (p + 1) blk) fanout).
    { apply ztab_ext. intros p Hp. symmetry. apply below_succ. }
    rewrite E1, E2. reflexivity.
  - cbn [for_loop length]. unfold body at 1.
    set (seg := fun p => bucketH p pre ++ J p).
    assert (Hseg : forall q, 0 <= q < fanout -> len (seg q) = cntH q blk).
    { intros q Hq. unfold seg. rewrite len_app, HJ by assumption.
      rewrite Hblk, cnt_app. reflexivity. }
    pose proof (hf_range t) as Ht.
    assert (HD : len (concat (ztab seg fanout)) = len blk).
    { rewrite (len_concat_ztab hf fanout hf_range seg blk) by (assumption || lia).
      apply (below_fanout hf fanout hf_range). }
    assert (Hpre : 0 <= len pre < len blk).
    { rewrite Hblk, len_app, len_cons. pose proof (len_nonneg pre). pose proof (len_nonneg post). lia. }
    rewrite put_read by assumption.
    assert (Hrd : rd blk (len pre) = Some t) by (rewrite Hblk; apply rd_mid).
    rewrite Hrd. cbn [bind]. rewrite hf_hash. cbn [bind].
    rewrite rd_ztab by assumption. cbn [bind].
    rewrite wr_ztab by assumption. cbn [bind].
    (* the segment of [hf t] has room *)
    assert (HJt : exists x rest, J (hf t) = x :: rest).
    { specialize (HJ (hf t) Ht). rewrite cnt_cons, Z.eqb_refl in HJ.
      destruct (J (hf t)) as [|x rest].
      - rewrite len_nil in HJ. pose proof (cnt_nonneg hf (hf t) post). lia.
      - eauto. }
    destruct HJt as (x & rest & HJt).
    set (J' := fun p => if p =? hf t then rest else J p).
    assert (Hw : wr (concat (ztab seg fanout)) (belowH (hf t) blk + cntH (hf t) pre) t
                 = Some (concat (ztab (fun p => bucketH p (pre ++ [t]) ++ J' p) fanout))).
    { rewrite (concat_ztab_split seg (hf t) Ht).
      rewrite (concat_ztab_split (fun p => bucketH p (pre ++ [t]) ++ J' p) (hf t) Ht).
      unfold seg at 2. rewrite HJt.
      replace (belowH (hf t) blk + cntH (hf t) pre)
        with (len (concat (ztab seg (hf t)) ++ bucketH (hf t) pre)).
      2:{ rewrite len_app.
          rewrite (len_concat_ztab hf fanout hf_range seg blk) by (try lia; intros; apply Hseg; lia).
          reflexivity. }
      rewrite <- !app_assoc.
      rewrite (app_assoc (concat (ztab seg (hf t)))).
      rewrite <- app_comm_cons. rewrite wr_mid. f_equal.
      assert (EA : concat (ztab (fun p => bucketH p (pre ++ [t]) ++ J' p) (hf t))
                   = concat (ztab seg (hf t))).
      { f_equal. apply ztab_ext. intros p Hp. unfold seg, J', bucket.
        rewrite filter_app. cbn [filter].
        destruct (Z.eqb_spec (hf t) p); [lia|].
        destruct (Z.eqb_spec p (hf t)); [lia|]. rewrite app_nil_r. reflexivity. }
      assert (EB : concat (ztab (fun q => bucketH (hf t + 1 + q) (pre ++ [t])
                                          ++ J' (hf t + 1 + q)) (fanout - hf t - 1))
                   = concat (ztab (fun q => seg (hf t + 1 + q)) (fanout - hf t - 1))).
      { f_equal. apply ztab_ext. intros p Hp. unfold seg, J', bucket.
        rewrite filter_app. cbn [filter].
        destruct (Z.eqb_spec (hf t) (hf t + 1 + p)); [lia|].
        destruct (Z.eqb_spec (hf t + 1 + p) (hf t)); [lia|]. rewrite app_nil_r. reflexivity. }
      assert (EF : bucketH (hf t) (pre ++ [t]) ++ J' (hf t)
                   = bucketH (hf t) pre ++ t :: rest).
      { unfold J', bucket. rewrite filter_app. cbn [filter]. rewrite !Z.eqb_refl.
        rewrite <- app_assoc. reflexivity. }
      cbv beta. rewrite EA, EB.
      rewrite (app_assoc (bucketH (hf t) (pre ++ [t]))). rewrite EF.
      rewrite <- !app_assoc. reflexivity. }
    rewrite (put_write _ _ _ _ HD Hw). cbn [bind].
    assert (H1 : blk = (pre ++ [t]) ++ post) by (rewrite <- app_assoc; assumption).
    assert (H2 : forall p, 0 <= p < fanout -> len (J' p) = cntH p post).
    { intros p Hp. unfold J'. specialize (HJ p Hp). rewrite cnt_cons in HJ.
      destruct (Z.eqb_spec p (hf t)) as [->|Hne].
      * rewrite Z.eqb_refl in HJ. rewrite HJt, len_cons in HJ. lia.
      * destruct (Z.eqb_spec (hf t) p); [congruence|]. lia. }
    pose proof (IH (pre ++ [t]) J' H1 H2) as IH'.
    rewrite len_app, len_cons, len_nil in IH'.
    replace (from + len pre + 1) with (from + (len pre + (1 + 0))) by lia.
    rewrite <- IH'.
    f_equal. f_equal. apply ztab_ext. intros p Hp.
    rewrite cnt_app, cnt_cons, cnt_nil.
    pose proof (below_cnt_le hf (hf t) blk). pose proof (below_nonneg hf (hf t) blk).
    pose proof (cnt_nonneg hf (hf t) pre).
    assert (cntH (hf t) pre < cntH (hf t) blk).
    { rewrite Hblk, cnt_app, cnt_cons, Z.eqb_refl. pose proof (cnt_nonneg hf (hf t) post). lia. }
    destruct (Z.eqb_spec p (hf t)) as [->|Hne].
    + rewrite Z.eqb_refl. rewrite u16_small by lia. lia.
    + destruct (Z.eqb_spec (hf t) p); [congruence|]. lia.
Qed.

(** Whatever the directory held, the scatter leaves the block grouped by
    partition in it, and the cursors at the ends of the partitions. *)
Lemma scatter_spec D0 :
  len D0 = len blk -> 0 <= fanout ->
  scatter from (from + len blk) mask shift d (put D0)
    (ztab (fun p => belowH p blk) fanout)
  = Some (put (partH blk), ztab (fun p => belowH (p + 1) blk) fanout).
Proof.
  intros HD Hf. unfold scatter, for_range.
  replace (Z.to_nat (from + len blk - from)) with (length blk) by (unfold len; lia).
  (* cut the old content of the directory into segments *)
  set (J := fun p => firstn (Z.to_nat (cntH p blk)) (skipn (Z.to_nat (belowH p blk)) D0)).
  assert (HJlen : forall p, 0 <= p < fanout -> len (J p) = cntH p blk).
  { intros p Hp. unfold J. pose proof (below_cnt_le hf p blk).
    pose proof (below_nonneg hf p blk). pose proof (cnt_nonneg hf p blk).
    apply len_firstn. rewrite len_skipn by lia. lia. }
  assert (HJcat : forall p, 0 <= p -> p <= fanout ->
            concat (ztab J p) = firstn (Z.to_nat (belowH p blk)) D0).
  { apply (natlike_ind (fun p => p <= fanout ->
            concat (ztab J p) = firstn (Z.to_nat (belowH p blk)) D0)).
    - intros _. rewrite ztab_0, (below_0 hf fanout hf_range). reflexivity.
    - intros p Hp IH Hle. change (Z.succ p) with (p + 1).
      rewrite ztab_succ by assumption. rewrite concat_app. cbn [concat].
      rewrite app_nil_r, IH by lia. rewrite below_succ. unfold J.
      pose proof (below_nonneg hf p blk). pose proof (cnt_nonneg hf p blk).
      rewrite Z2Nat.inj_add by lia.
      generalize (Z.to_nat (belowH p blk)) (Z.to_nat (cntH p blk)). clear.
      intros a b. revert D0. induction a as [|a IHa]; intros D0.
      + reflexivity.
      + destruct D0 as [|x D0]; [rewrite !firstn_nil; reflexivity|].
        cbn. f_equal. apply IHa. }
  assert (E0 : D0 = concat (ztab (fun p => bucketH p [] ++ J p) fanout)).
  { rewrite (ztab_ext _ J) by reflexivity. rewrite HJcat by lia.
    rewrite (below_fanout hf fanout hf_range). rewrite <- HD. unfold len.
    rewrite Nat2Z.id. symmetry. apply firstn_all. }
  rewrite E0 at 1.
  rewrite (ztab_ext (fun p => belowH p blk) (fun p => belowH p blk + cntH p [])) by (intros; cbn; lia).
  pose proof (scatter_loop blk [] J eq_refl HJlen) as H.
  rewrite len_nil, Z.add_0_r in H. exact H.
Qed.

End Scatter.

End BlockLoops.

(** ** The geometry of the blocks *)

Lemma slice_app_skipn {A} (l : list A) from n :
  0 <= from -> 0 <= n ->
  skipn (Z.to_nat from) l = slice l from n ++ skipn (Z.to_nat (from + n)) l.
Proof.
  intros Hf Hn. unfold slice. rewrite Z2Nat.inj_add by lia.
  rewrite <- (firstn_skipn (Z.to_nat n) (skipn (Z.to_nat from) l)) at 1.
  f_equal. rewrite skipn_skipn. f_equal. lia.
Qed.

Lemma len_slice {A} (l : list A) from n :
  0 <= from -> 0 <= n -> from + n <= len l -> len (slice l from n) = n.
Proof.
  intros Hf Hn Hl. unfold slice. apply len_firstn. rewrite len_skipn by lia. lia.
Qed.

Section Geometry.

Variables N nb avg rem0 fbs : Z.
Hypothesis HN : N = nb * avg + rem0.
Hypothesis Hrem : 0 <= rem0 < nb.
Hypothesis Havg : 1 <= avg.
Hypothesis Hfbs : fbs = avg + (if 0 <? rem0 then 1 else 0).

Lemma blk_from_0 : blk_from avg rem0 0 = 0.
Proof. unfold blk_from. lia. Qed.

Lemma blk_from_succ b :
  0 <= b -> blk_from avg rem0 (b + 1) = blk_from avg rem0 b + blk_len avg rem0 b.
Proof.
  intros Hb. unfold blk_from, blk_len. destruct (Z.ltb_spec b rem0); lia.
Qed.

Lemma blk_from_nb : blk_from avg rem0 nb = N.
Proof. unfold blk_from. lia. Qed.

Lemma blk_len_bounds b : 0 <= b -> 1 <= blk_len avg rem0 b <= fbs.
Proof.
  intros Hb. unfold blk_len. rewrite Hfbs.
  destruct (Z.ltb_spec b rem0); destruct (Z.ltb_spec 0 rem0); lia.
Qed.

Lemma blk_len_0 : blk_len avg rem0 0 = fbs.
Proof. unfold blk_len. rewrite Hfbs. reflexivity. Qed.

Lemma blk_from_mono b : 0 <= b -> b < nb -> blk_from avg rem0 (b + 1) <= N.
Proof. intros H0 H1. unfold blk_from. nia. Qed.

Lemma blk_from_nonneg b : 0 <= b -> 0 <= blk_from avg rem0 b.
Proof. intros. unfold blk_from. nia. Qed.

Lemma blk_from_ge_fbs b : 1 <= b -> fbs <= blk_from avg rem0 b.
Proof.
  intros Hb. unfold blk_from. rewrite Hfbs. destruct (Z.ltb_spec 0 rem0); nia.
Qed.

Lemma blk_from_lt b : 0 <= b < nb -> blk_from avg rem0 b < N.
Proof.
  intros Hb. pose proof (blk_from_succ b ltac:(lia)). pose proof (blk_len_bounds b ltac:(lia)).
  pose proof (blk_from_mono b ltac:(lia) ltac:(lia)). lia.
Qed.

Lemma blk_from_eq_N b : 0 <= b <= nb -> blk_from avg rem0 b = N -> b = nb.
Proof.
  intros Hb E. destruct (Z.eq_dec b nb); [assumption|].
  pose proof (blk_from_lt b ltac:(lia)). lia.
Qed.

End Geometry.

(** ** The loop over the blocks *)

Section BlockLoop.

Variables mask shift fanout : Z.
Variable hf : tuple_t -> Z.
Hypothesis hf_hash : forall t, HASHx (key t) mask shift = Some (hf t).
Hypothesis hf_range : forall t, 0 <= hf t < fanout.
Hypothesis fanout_32 : fanout < 2 ^ 32.

Variables N nb avg rem0 fbs : Z.
Hypothesis HN : N = nb * avg + rem0.
Hypothesis Hrem : 0 <= rem0 < nb.
Hypothesis Havg : 1 <= avg.
Hypothesis Hfbs : fbs = avg + (if 0 <? rem0 then 1 else 0).
Hypothesis fbs_16 : fbs < 2 ^ 16.
Hypothesis N_32 : N < 2 ^ 32.

Variables nsb sbp : Z.
Hypothesis Hnsb : 0 <= nsb.
Hypothesis Hsbp : 1 <= sbp.
Hypothesis Hfit : nsb * sbp <= fanout.

Variable T0 : list tuple_t.
Hypothesis HT0 : len T0 = N.

Let P : icp_params :=
  {| ip_shift := shift; ip_fanout := fanout; ip_mask := mask;
     ip_N := N; ip_num_blocks := nb; ip_avg_block_size := avg;
     ip_first_block_size := fbs; ip_num_sub_blocks := nsb;
     ip_sub_block_partitions := sbp |}.

Local Abbreviation bfrom := (blk_from avg rem0).
Local Abbreviation blen := (blk_len avg rem0).
Local Abbreviation block := (block_of T0 avg rem0).
Local Abbreviation partH := (part hf fanout).
Local Abbreviation boff := (blk_offset N avg rem0 fbs).

Let row_spec (b : Z) : list block_t :=
  ztab (sub_block_pos hf sbp (boff b) (block b)) nsb.

Let init_row : list block_t :=
  repeat {| start := 0; end_ := 0 |} (Z.to_nat nsb).

Let Pos_upto (b : Z) : list (list block_t) :=
  ztab (fun j => if j <? b then row_spec j else init_row) nb.

Let done (b : Z) : list tuple_t :=
  concat (ztab (fun j => partH (block (j + 1))) (b - 1)).

Lemma nb_pos : 1 <= nb.
Proof. lia. Qed.

Lemma nb_le_N : nb <= N.
Proof. nia. Qed.

Lemma fbs_le_N : fbs <= N.
Proof. rewrite Hfbs, HN. destruct (Z.ltb_spec 0 rem0); nia. Qed.

Lemma len_block b : 0 <= b < nb -> len (block b) = blen b.
Proof.
  intros Hb. unfold block_of.
  pose proof (blk_len_bounds N nb avg rem0 fbs HN Hrem Havg Hfbs b ltac:(lia)).
  pose proof (blk_from_nonneg N nb avg rem0 fbs HN Hrem Havg Hfbs b ltac:(lia)).
  pose proof (blk_from_succ N nb avg rem0 fbs HN Hrem Havg Hfbs b ltac:(lia)).
  pose proof (blk_from_mono N nb avg rem0 fbs HN Hrem Havg Hfbs b ltac:(lia) ltac:(lia)).
  apply len_slice; lia.
Qed.

Lemma block_small b : 0 <= b < nb -> len (block b) < 2 ^ 16.
Proof.
  intros Hb. rewrite len_block by assumption.
  pose proof (blk_len_bounds N nb avg rem0 fbs HN Hrem Havg Hfbs b ltac:(lia)). lia.
Qed.

Lemma skipn_block b :
  0 <= b < nb ->
  skipn (Z.to_nat (bfrom b)) T0 = block b ++ skipn (Z.to_nat (bfrom (b + 1))) T0.
Proof.
  intros Hb. rewrite (blk_from_succ N nb avg rem0 fbs HN Hrem Havg Hfbs b) by lia.
  apply slice_app_skipn.
  - apply (blk_from_nonneg N nb avg rem0 fbs HN Hrem Havg Hfbs). lia.
  - pose proof (blk_len_bounds N nb avg rem0 fbs HN Hrem Havg Hfbs b ltac:(lia)). lia.
Qed.

Lemma done_succ b : 1 <= b -> done (b + 1) = done b ++ partH (block b).
Proof.
  intros Hb. unfold done. replace (b + 1 - 1) with (b - 1 + 1) by lia.
  rewrite ztab_succ by lia. rewrite concat_app. cbn [concat].
  rewrite app_nil_r. replace (b - 1 + 1) with b by lia. reflexivity.
Qed.

Lemma len_done b : 1 <= b <= nb -> len (done b) = bfrom b - fbs.
Proof.
  intros Hb. destruct Hb as [Hb1 Hb2]. revert Hb2.
  replace b with (1 + (b - 1)) by lia.
  assert (Hk : 0 <= b - 1) by lia. revert Hk. generalize (b - 1). clear b Hb1.
  apply (natlike_ind (fun k => 1 + k <= nb -> len (done (1 + k)) = bfrom (1 + k) - fbs)).
  - intros _. unfold done. cbn. unfold blk_from. rewrite Hfbs.
    destruct (Z.ltb_spec 0 rem0); lia.
  - intros k Hk IH Hle. replace (1 + Z.succ k) with (1 + k + 1) by lia.
    rewrite done_succ by lia. rewrite len_app, IH by lia.
    rewrite (len_part hf fanout hf_range). rewrite len_block by lia.
    rewrite (blk_from_succ N nb avg rem0 fbs HN Hrem Havg Hfbs (1 + k)) by lia. lia.
Qed.

(** *** The head of a round *)

Lemma ICP_block_head_spec st b pre blk post :
  0 <= b < nb ->
  st_i st = bfrom b -> st_block st = b ->
  st_remainder st = Z.max (rem0 - b) 0 ->
  mem_T (st_mem st) = pre ++ blk ++ post ->
  len pre = bfrom b -> len blk = blen b ->
  ICP_block_head P st
  = Some (bfrom b, blen b, bfrom (b + 1), Z.max (rem0 - (b + 1)) 0,
          ztab (fun p => cnt hf p blk) fanout).
Proof.
  intros Hb Hi Hblock Hr HT Hpre Hblk. unfold ICP_block_head.
  cbn [P ip_avg_block_size ip_N ip_num_blocks ip_mask ip_shift ip_fanout].
  rewrite Hi, Hblock, Hr, HT.
  pose proof (blk_len_bounds N nb avg rem0 fbs HN Hrem Havg Hfbs b ltac:(lia)) as Hlen.
  pose proof (blk_from_nonneg N nb avg rem0 fbs HN Hrem Havg Hfbs b ltac:(lia)) as Hfrom.
  pose proof (blk_from_succ N nb avg rem0 fbs HN Hrem Havg Hfbs b ltac:(lia)) as Hsucc.
  pose proof (blk_from_mono N nb avg rem0 fbs HN Hrem Havg Hfbs b ltac:(lia) ltac:(lia)) as Hto.
  assert (E1 : avg + (if 0 <? Z.max (rem0 - b) 0 then 1 else 0) = blen b).
  { unfold blk_len. destruct (Z.ltb_spec 0 (Z.max (rem0 - b) 0));
      destruct (Z.ltb_spec b rem0); lia. }
  rewrite E1. rewrite (u32_small (blen b)) by lia.
  rewrite <- Hsucc. rewrite (u32_small (bfrom (b + 1))) by lia.
  rewrite c_assert_true by (apply Z.leb_le; lia). cbn [bind].
  rewrite (u32_small (nb - 1)) by lia.
  rewrite c_assert_true.
  2:{ destruct (Z.ltb_spec b (nb - 1)); [reflexivity|]. cbn [orb].
      apply Z.eqb_eq. replace (b + 1) with nb by lia. apply (blk_from_nb N nb avg rem0 fbs HN Hrem Havg Hfbs). }
  cbn [bind].
  rewrite <- Hpre at 1. rewrite Hsucc, <- Hpre, <- Hblk.
  rewrite (fill_histogram_spec mask shift fanout hf hf_hash hf_range); [|lia].
  cbn [bind]. rewrite Hpre, Hblk. repeat f_equal.
  assert (nb <= N) by nia.
  destruct (Z.ltb_spec 0 (Z.max (rem0 - b) 0)).
  - rewrite u32_small by lia. lia.
  - lia.
Qed.

(** *** The rest of a round *)

Lemma ICP_block_rest_spec st b d put blk D0 remainder :
  (forall D i, len D = len blk -> 0 <= i < len blk ->
     rd (mem_T (put D)) (bfrom b + i) = rd blk i) ->
  (forall D c t D', len D = len blk -> wr D c t = Some D' ->
     dir_write (put D) d c t = Some (put D')) ->
  0 <= b < nb ->
  st_mem st = put D0 -> len D0 = len blk -> len blk = blen b ->
  blk = block b ->
  st_Directory st = d -> st_i st = bfrom b -> st_block st = b ->
  st_Pos st = Pos_upto b ->
  ICP_block_rest P st (bfrom b) (blen b) (bfrom (b + 1)) remainder
    (ztab (fun p => cnt hf p blk) fanout)
  = Some {| st_mem := put (partH blk);
            st_Directory := match d with
                            | Dir_TmpBlock => Dir_T 0
                            | Dir_T off => Dir_T (off + blen b)
                            end;
            st_i := bfrom (b + 1);
            st_block := b + 1;
            st_remainder := remainder;
            st_Pos := Pos_upto (b + 1) |}.
Proof.
  intros Hread Hwrite Hb Hmem HD0 Hblk Hblock Hd Hi Hbl HPos.
  unfold ICP_block_rest.
  cbn [P ip_fanout ip_num_sub_blocks ip_sub_block_partitions ip_N
         ip_first_block_size ip_mask ip_shift].
  pose proof (blk_len_bounds N nb avg rem0 fbs HN Hrem Havg Hfbs b ltac:(lia)) as Hlen.
  pose proof (blk_from_nonneg N nb avg rem0 fbs HN Hrem Havg Hfbs b ltac:(lia)) as Hfrom.
  pose proof (blk_from_succ N nb avg rem0 fbs HN Hrem Havg Hfbs b ltac:(lia)) as Hsucc.
  pose proof (blk_from_mono N nb avg rem0 fbs HN Hrem Havg Hfbs b ltac:(lia) ltac:(lia)) as Hto.
  assert (Hf0 : 0 < fanout).
  { destruct blk as [|t ?]; [rewrite len_nil in Hblk; lia|]. apply (fanout_pos_of hf fanout hf_range t). }
  rewrite (prefix_sum_spec mask shift fanout hf hf_hash hf_range) by lia. cbn [bind].
  rewrite rd_ztab by lia. cbn [bind].
  rewrite (below_0 hf fanout hf_range). cbn [Z.eqb c_assert bind].
  rewrite HPos, Hbl.
  unfold Pos_upto at 1. rewrite rd_ztab by lia. cbn [bind].
  destruct (Z.ltb_spec b b); [lia|].
  rewrite <- Hblk.
  pose proof fbs_le_N as HfN.
  rewrite (fill_positions_spec mask shift fanout hf hf_hash hf_range nsb sbp b N (bfrom b) fbs blk init_row).
  2: assumption.
  2: unfold init_row; rewrite len_repeat; lia.
  2: assumption.
  2: assumption.
  2: assumption.
  2:{ destruct (Z.eqb_spec b 0); [lia|].
      pose proof (blk_from_ge_fbs N nb avg rem0 fbs HN Hrem Havg Hfbs b ltac:(lia)). lia. }
  2:{ destruct (Z.eqb_spec b 0) as [->|].
      - rewrite Hblk, (blk_len_0 N nb avg rem0 fbs HN Hrem Havg Hfbs). lia.
      - lia. }
  cbn [bind].
  unfold Pos_upto at 1. rewrite wr_ztab by lia. cbn [bind].
  rewrite Hi, Hmem, Hd. rewrite Hsucc, <- Hblk.
  rewrite (scatter_spec mask shift fanout hf hf_hash hf_range d put blk (bfrom b)
             Hread Hwrite ltac:(lia) D0 HD0 ltac:(lia)).
  cbn [bind].
  rewrite rd_ztab by lia. cbn [bind].
  replace (fanout - 1 + 1) with fanout by lia.
  rewrite (below_fanout hf fanout hf_range).
  replace (bfrom b + len blk - bfrom b) with (len blk) by lia.
  rewrite (u32_small (len blk)) by lia.
  rewrite Z.eqb_refl. cbn [c_assert bind].
  pose proof nb_le_N as HnbN.
  rewrite (u32_small (b + 1)) by lia.
  f_equal. f_equal.
  unfold Pos_upto. apply ztab_ext. intros j Hj.
  destruct (Z.eqb_spec j b) as [->|Hne].
  - destruct (Z.ltb_spec b (b + 1)); [|lia]. unfold row_spec.
    unfold blk_offset. rewrite Hblock. reflexivity.
  - destruct (Z.ltb_spec j b); destruct (Z.ltb_spec j (b + 1)); try lia; reflexivity.
Qed.

(** *** The invariant of the loop over the blocks

    Before block [b >= 1] is read: block 0 sits grouped in [TmpBlock]; the
    array holds the blocks [1 .. b-1], grouped, then a gap as long as the
    first block, then the blocks from [b] on, untouched. *)
Definition ICP_inv (b : Z) (st : icp_state) : Prop :=
  st_i st = bfrom b /\ st_block st = b /\
  st_remainder st = Z.max (rem0 - b) 0 /\
  st_Directory st = Dir_T (bfrom b - fbs) /\
  mem_Tmp (st_mem st) = partH (block 0) /\
  (exists gap, len gap = fbs /\
     mem_T (st_mem st) = done b ++ gap ++ skipn (Z.to_nat (bfrom b)) T0) /\
  st_Pos st = Pos_upto b.

Lemma first_round Sub :
  tuples Sub = T0 ->
  let st0 := ICP_init_state P Sub rem0 in
  ICP_block_head P st0
  = Some (bfrom 0, blen 0, bfrom 1, Z.max (rem0 - 1) 0,
          ztab (fun p => cnt hf p (block 0)) fanout) /\
  exists st1,
    ICP_block_rest P st0 (bfrom 0) (blen 0) (bfrom 1) (Z.max (rem0 - 1) 0)
      (ztab (fun p => cnt hf p (block 0)) fanout) = Some st1 /\
    ICP_inv 1 st1.
Proof.
  intros HT st0.
  pose proof nb_pos as Hnb.
  pose proof (blk_len_0 N nb avg rem0 fbs HN Hrem Havg Hfbs) as Hl0.
  pose proof (blk_from_0 N nb avg rem0 fbs HN Hrem Havg Hfbs) as Hf0.
  pose proof (blk_from_succ N nb avg rem0 fbs HN Hrem Havg Hfbs 0 ltac:(lia)) as Hf1.
  cbn [Z.add] in Hf1.
  pose proof (len_block 0 ltac:(lia)) as Hlb.
  pose proof (skipn_block 0 ltac:(lia)) as Hsk.
  rewrite Hf0 in Hsk. cbn [Z.to_nat skipn Z.add] in Hsk.
  pose proof fbs_le_N as HfN.
  assert (Hfbs1 : 1 <= fbs) by (rewrite Hfbs; destruct (0 <? rem0); lia).
  split.
  - replace (Z.max (rem0 - 1) 0) with (Z.max (rem0 - (0 + 1)) 0) by reflexivity.
    apply (ICP_block_head_spec st0 0 [] (block 0) (skipn (Z.to_nat (bfrom 1)) T0)).
    + lia.
    + rewrite Hf0. reflexivity.
    + reflexivity.
    + cbn. lia.
    + cbn [st0 ICP_init_state st_mem mem_T app]. rewrite HT. exact Hsk.
    + rewrite Hf0. reflexivity.
    + assumption.
  - eexists. split.
    + apply (ICP_block_rest_spec st0 0 Dir_TmpBlock
               (fun D => {| mem_T := T0; mem_Tmp := D |}) (block 0)
               (repeat {| key := 0; payload := 0 |} (Z.to_nat fbs))).
      * intros D i HD Hi. cbn [mem_T]. rewrite Hf0, Z.add_0_l.
        rewrite Hsk at 1. apply rd_app_l. lia.
      * intros D c t D' HD Hw. cbn [dir_write mem_Tmp mem_T]. rewrite Hw. reflexivity.
      * lia.
      * cbn [st0 ICP_init_state st_mem P ip_first_block_size]. rewrite HT. reflexivity.
      * rewrite len_repeat. lia.
      * assumption.
      * reflexivity.
      * reflexivity.
      * rewrite Hf0. reflexivity.
      * reflexivity.
      * cbn [st0 ICP_init_state st_Pos P ip_num_sub_blocks ip_num_blocks].
        rewrite repeat_ztab. unfold Pos_upto. apply ztab_ext. intros j Hj.
        destruct (Z.ltb_spec j 0); [lia | reflexivity].
    + unfold ICP_inv. cbn [st_i st_block st_remainder st_Directory st_mem mem_Tmp mem_T st_Pos].
      repeat split.
      * f_equal. lia.
      * exists (block 0). split; [lia|]. unfold done. cbn [Z.sub Z.add ztab Z.to_nat seq map concat app].
        replace (1 - 1) with 0 by lia. rewrite ztab_0. cbn [concat app]. exact Hsk.
Qed.

Lemma next_round st b :
  1 <= b < nb -> ICP_inv b st ->
  ICP_block_head P st
  = Some (bfrom b, blen b, bfrom (b + 1), Z.max (rem0 - (b + 1)) 0,
          ztab (fun p => cnt hf p (block b)) fanout) /\
  exists st',
    ICP_block_rest P st (bfrom b) (blen b) (bfrom (b + 1))
      (Z.max (rem0 - (b + 1)) 0)
      (ztab (fun p => cnt hf p (block b)) fanout) = Some st' /\
    ICP_inv (b + 1) st'.
Proof.
  intros Hb (Hi & Hbl & Hr & Hd & Htmp & (gap & Hgap & HT) & HPos).
  pose proof (blk_len_bounds N nb avg rem0 fbs HN Hrem Havg Hfbs b ltac:(lia)) as Hlen.
  pose proof (blk_from_succ N nb avg rem0 fbs HN Hrem Havg Hfbs b ltac:(lia)) as Hsucc.
  pose proof (len_block b ltac:(lia)) as Hlb.
  pose proof (len_done b ltac:(lia)) as Hld.
  pose proof (skipn_block b ltac:(lia)) as Hsk.
  rewrite Hsk in HT.
  destruct (split_at_le gap (blen b) ltac:(lia)) as (D0 & gap' & -> & HD0).
  rewrite len_app in Hgap.
  split.
  - apply (ICP_block_head_spec st b (done b ++ D0 ++ gap') (block b)
             (skipn (Z.to_nat (bfrom (b + 1))) T0)); try assumption; try lia.
    + rewrite HT. rewrite <- !app_assoc. reflexivity.
    + rewrite !len_app. lia.
  - eexists. split.
    + apply (ICP_block_rest_spec st b (Dir_T (bfrom b - fbs))
               (fun D => {| mem_T := done b ++ D ++ gap' ++ block b
                                      ++ skipn (Z.to_nat (bfrom (b + 1))) T0;
                            mem_Tmp := mem_Tmp (st_mem st) |}) (block b) D0);
        try assumption; try lia; try reflexivity.
      * intros D i HD Hi'. cbn [mem_T].
        replace (bfrom b + i) with (len (done b ++ D ++ gap') + i)
          by (rewrite !len_app; lia).
        replace (done b ++ D ++ gap' ++ block b ++ skipn (Z.to_nat (bfrom (b + 1))) T0)
          with ((done b ++ D ++ gap') ++ block b ++ skipn (Z.to_nat (bfrom (b + 1))) T0)
          by (rewrite <- !app_assoc; reflexivity).
        rewrite rd_app_r by lia. apply rd_app_l. lia.
      * intros D c t D' HD Hw. cbn [dir_write mem_T mem_Tmp].
        rewrite <- Hld.
        rewrite (wr_app_r (done b) _ (D' ++ gap' ++ block b
                                        ++ skipn (Z.to_nat (bfrom (b + 1))) T0)).
        -- reflexivity.
        -- apply wr_app_l. assumption.
      * destruct (st_mem st) as [mT mTmp]. cbn [mem_T mem_Tmp] in *.
        rewrite HT. rewrite <- !app_assoc. reflexivity.
    + unfold ICP_inv. cbn [st_i st_block st_remainder st_Directory st_mem mem_Tmp mem_T st_Pos].
      repeat split; try assumption.
      * f_equal. lia.
      * exists (gap' ++ block b). split; [rewrite len_app; lia|].
        rewrite done_succ by lia. rewrite <- !app_assoc. reflexivity.
Qed.

(** From block [b >= 1] on, the loop runs to the end of the array. *)
Lemma ICP_blocks_from Sub_id peers tid g : forall k fuel b st,
  Z.of_nat k = nb - b -> 1 <= b -> (k <= fuel)%nat ->
  ICP_inv b st ->
  exists st',
    ICP_blocks fuel P Sub_id peers tid g st = Some (Partitioned g st') /\
    ICP_inv nb st'.
Proof.
  induction k as [|k IH]; intros fuel b st Hk Hb Hfuel HI.
  - assert (b = nb) by lia. subst b.
    exists st. split; [|assumption].
    destruct HI as (Hi & _). destruct fuel; cbn [ICP_blocks];
      rewrite Hi, (blk_from_nb N nb avg rem0 fbs HN Hrem Havg Hfbs);
      cbn [P ip_N]; rewrite Z.ltb_irrefl; reflexivity.
  - destruct fuel as [|fuel]; [lia|].
    destruct (next_round st b ltac:(lia) HI) as (Hhead & st' & Hrest & HI').
    cbn [ICP_blocks].
    assert (Hlt : (st_i st <? ip_N P) = true).
    { destruct HI as (Hi & _). rewrite Hi. cbn [P ip_N]. apply Z.ltb_lt.
      apply (blk_from_lt N nb avg rem0 fbs HN Hrem Havg Hfbs). lia. }
    rewrite Hlt, Hhead. cbn [bind].
    assert (Hskew : (match Sub_id with
                     | id_S =>
                         if (st_block st =? 0) && negb (user_defined (Radix g))
                            && negb (ChangedRadixS g)
                         then ICP_estimate_skew g peers tid
                                (ztab (fun p => cnt hf p (block b)) fanout)
                                (ip_first_block_size P)
                         else Some (g, false)
                     | id_R => Some (g, false)
                     end) = Some (g, false)).
    { destruct Sub_id; [reflexivity|]. destruct HI as (_ & Hbl & _). rewrite Hbl.
      destruct (Z.eqb_spec b 0); [lia | reflexivity]. }
    rewrite Hskew. cbn [bind]. rewrite Hrest. cbn [bind].
    apply (IH fuel (b + 1) st'); try lia. assumption.
Qed.

(** The copy of [TmpBlock] after the loop. *)
Lemma ICP_finish st :
  ICP_inv nb st ->
  st_remainder st = 0 /\
  st_Directory st = Dir_T (N - fbs) /\
  memcpy_tuples (mem_T (st_mem st)) (N - fbs) (mem_Tmp (st_mem st)) fbs
  = Some (ICP_layout hf fanout T0 nb avg rem0) /\
  st_Pos st = ICP_positions hf T0 N nb avg rem0 fbs nsb sbp.
Proof.
  intros (Hi & Hbl & Hr & Hd & Htmp & (gap & Hgap & HT) & HPos).
  pose proof nb_pos as Hnb. pose proof fbs_le_N as HfN.
  pose proof (blk_from_nb N nb avg rem0 fbs HN Hrem Havg Hfbs) as HfromN.
  pose proof (len_done nb ltac:(lia)) as Hld. rewrite HfromN in Hld.
  assert (Hfbs1 : 1 <= fbs) by (rewrite Hfbs; destruct (0 <? rem0); lia).
  rewrite HfromN in HT, Hd.
  assert (Hsk : skipn (Z.to_nat N) T0 = []).
  { apply skipn_all2. unfold len in HT0. lia. }
  rewrite Hsk, app_nil_r in HT.
  repeat split.
  - rewrite Hr. lia.
  - assumption.
  - unfold memcpy_tuples. rewrite HT, Htmp.
    rewrite len_app, (len_part hf fanout hf_range), (len_block 0 ltac:(lia)).
    rewrite (blk_len_0 N nb avg rem0 fbs HN Hrem Havg Hfbs).
    assert (E : (0 <=? N - fbs) && (0 <=? fbs) && (N - fbs + fbs <=? len (done nb) + len gap)
                && (fbs <=? fbs) = true).
    { repeat (apply andb_true_iff; split); apply Z.leb_le; lia. }
    rewrite E. f_equal. unfold ICP_layout. fold (done nb).
    rewrite <- Hld. unfold len at 1. rewrite Nat2Z.id.
    rewrite firstn_app, Nat.sub_diag, firstn_all. cbn [firstn]. rewrite app_nil_r.
    f_equal.
    rewrite skipn_all2 by (rewrite length_app; unfold len in *; lia).
    rewrite app_nil_r. apply firstn_all2.
    pose proof (len_part hf fanout hf_range (block 0)) as Hlp.
    rewrite (len_block 0 ltac:(lia)), (blk_len_0 N nb avg rem0 fbs HN Hrem Havg Hfbs) in Hlp.
    unfold len in Hlp. lia.
  - rewrite HPos. unfold Pos_upto, ICP_positions. apply ztab_ext. intros j Hj.
    destruct (Z.ltb_spec j nb); [reflexivity | lia].
Qed.

End BlockLoop.

(** ** [ICP] as an equation *)

Lemma ChunkSize_val : ChunkSize = 32758.
Proof. reflexivity. Qed.

Lemma ICP_geometry N :
  1 <= N < 2 ^ 32 ->
  let nb := ICP_num_blocks N in
  N = nb * ICP_avg N + ICP_rem N /\
  0 <= ICP_rem N < nb /\
  1 <= ICP_avg N /\
  ICP_fbs N < 2 ^ 16 /\ nb <= N.
Proof.
  intros HN nb. unfold ICP_fbs, ICP_avg, ICP_rem. fold nb.
  assert (Hnb : 1 <= nb /\ nb <= N /\ N <= nb * ChunkSize).
  { unfold nb, ICP_num_blocks. rewrite ChunkSize_val.
    pose proof (Z.div_mod N 32758 ltac:(lia)).
    pose proof (Z.mod_pos_bound N 32758 ltac:(lia)).
    assert (0 <= N / 32758) by (apply Z.div_pos; lia).
    destruct (Z.ltb_spec 0 (N mod 32758)); split; try split; lia. }
  destruct Hnb as (Hnb1 & Hnb2 & Hnb3).
  pose proof (Z.div_mod N nb ltac:(lia)) as Hdm.
  pose proof (Z.mod_pos_bound N nb ltac:(lia)) as Hm.
  assert (Havg : 1 <= N / nb) by (apply Z.div_le_lower_bound; lia).
  rewrite ChunkSize_val in Hnb3.
  repeat split; try lia.
  change (2 ^ 16) with 65536.
  destruct (Z.ltb_spec 0 (N mod nb)).
  - assert (Hlt : nb * (N / nb) < nb * 32758) by lia.
    apply Z.mul_lt_mono_pos_l in Hlt; lia.
  - assert (Hle : nb * (N / nb) <= nb * 32758) by lia.
    apply Z.mul_le_mono_pos_l in Hle; lia.
Qed.

Lemma hashx_hash mask shift t :
  0 <= shift < 32 -> HASHx (key t) mask shift = Some (hashx mask shift t).
Proof.
  intros H. unfold HASHx, shr32, hashx.
  assert (E : (0 <=? shift) && (shift <? 32) = true)
    by (apply andb_true_iff; split; [apply Z.leb_le | apply Z.ltb_lt]; lia).
  rewrite E. reflexivity.
Qed.

Lemma hashx_range radix shift t :
  0 <= radix -> 0 <= hashx (2 ^ radix - 1) shift t < 2 ^ radix.
Proof.
  intros H. unfold hashx.
  replace (2 ^ radix - 1) with (Z.ones radix) by (rewrite Z.ones_equiv; lia).
  rewrite Z.land_ones by assumption. apply Z.mod_pos_bound.
  apply Z.pow_pos_nonneg; lia.
Qed.

Lemma pow2_bounds radix : 1 <= radix <= 30 -> 2 <= 2 ^ radix <= 2 ^ 30.
Proof.
  intros H. split.
  - change 2 with (2 ^ 1) at 1. apply Z.pow_le_mono_r; lia.
  - apply Z.pow_le_mono_r; lia.
Qed.

Lemma log2_up_le_32 n : 1 <= n < 2 ^ 32 -> 0 <= Z.log2_up n <= 32.
Proof.
  intros H. split; [apply Z.log2_up_nonneg|].
  apply Z.log2_up_le_pow2; lia.
Qed.

Lemma ICP_shift_range g Sub radix :
  ICP_pre g Sub radix -> 0 <= ICP_shift g (id Sub) < 32.
Proof.
  intros (_ & _ & _ & _ & _ & HR). unfold ICP_shift.
  destruct (id Sub); [|lia].
  destruct (Z.eqb_spec (Radix_S (Radix g)) 0) as [E|E]; [|lia].
  destruct (HR eq_refl E) as (H1 & H2).
  pose proof (log2_up_le_32 _ H1). lia.
Qed.

Lemma ICP_setup_spec g Sub radix :
  ICP_pre g Sub radix ->
  let N := size Sub in
  ICP_setup g Sub radix
  = Some (ICP_globals g (id Sub),
          {| ip_shift := ICP_shift g (id Sub);
             ip_fanout := 2 ^ radix;
             ip_mask := 2 ^ radix - 1;
             ip_N := N;
             ip_num_blocks := ICP_num_blocks N;
             ip_avg_block_size := ICP_avg N;
             ip_first_block_size := ICP_fbs N;
             ip_num_sub_blocks := ICP_nsb g (id Sub);
             ip_sub_block_partitions := 2 ^ radix / num_groups g |},
          ICP_rem N).
Proof.
  intros Hpre N. pose proof (ICP_shift_range g Sub radix Hpre) as Hshift.
  destruct Hpre as (Hr & Hsz & HN & HG & Hdiv & HR). fold N in Hsz, HN.
  unfold ICP_setup. rewrite shl1_spec by lia. cbn [bind].
  pose proof (pow2_bounds radix Hr) as Hp.
  rewrite (u32_small (2 ^ radix - 1)) by lia.
  destruct (ICP_geometry N HN) as (Hg1 & Hg2 & Hg3 & Hg4 & Hg5).
  assert (0 <= ICP_fbs N) by (unfold ICP_fbs; destruct (0 <? ICP_rem N); lia).
  unfold ICP_globals, ICP_shift in *.
  destruct (id Sub) eqn:Eid;
    [destruct (Z.eqb_spec (Radix_S (Radix g)) 0) as [E|E];
       [destruct (HR eq_refl E) as (H1 & H2);
        pose proof (log2_up_le_32 _ H1);
        rewrite lg_ceil_spec by assumption; cbn [bind];
        rewrite (u32_small (Z.log2_up (RelR_size g) - Radix_R (Radix g) - 1)) by lia;
        rewrite u8_small by lia |] |];
    cbn [bind]; fold N.
  all: unfold div_ceil, c_div, c_mod; rewrite ChunkSize_val;
    cbn [Z.eqb bind]; fold (ICP_num_blocks N) in *;
    change (N / 32758 + (if 0 <? N mod 32758 then 1 else 0)) with (ICP_num_blocks N);
    rewrite (u32_small (ICP_num_blocks N)) by lia;
    destruct (Z.eqb_spec (ICP_num_blocks N) 0); [lia|]; cbn [bind];
    fold (ICP_avg N); fold (ICP_rem N);
    change (ICP_avg N + (if 0 <? ICP_rem N then 1 else 0)) with (ICP_fbs N);
    rewrite (u32_small (ICP_fbs N)) by lia;
    destruct (Z.eqb_spec (num_groups g) 0); [lia|]; cbn [bind];
    rewrite Hdiv; cbn [Z.eqb c_assert bind]; reflexivity.
Qed.

Section ICP_equation.

Variable g : globals.
Variable Sub : relation_t.
Variable radix : Z.
Hypothesis Hpre : ICP_pre g Sub radix.

Let N := size Sub.
Let hf := hashx (2 ^ radix - 1) (ICP_shift g (id Sub)).
Let fanout := 2 ^ radix.
Let nb := ICP_num_blocks N.
Let avg := ICP_avg N.
Let rem0 := ICP_rem N.
Let fbs := ICP_fbs N.
Let nsb := ICP_nsb g (id Sub).
Let sbp := 2 ^ radix / num_groups g.

Lemma sbp_facts : 1 <= sbp /\ num_groups g * sbp = fanout.
Proof.
  destruct Hpre as (Hr & _ & _ & HG & Hdiv & _). unfold sbp, fanout.
  pose proof (pow2_bounds radix Hr).
  pose proof (Z.div_mod (2 ^ radix) (num_groups g) ltac:(lia)) as Hdm.
  rewrite Hdiv in Hdm.
  assert (0 <= 2 ^ radix / num_groups g) by (apply Z.div_pos; lia).
  split; [|lia].
  destruct (Z.eq_dec (2 ^ radix / num_groups g) 0) as [E|E]; [|lia].
  rewrite E in Hdm. lia.
Qed.

Lemma nsb_facts : 1 <= nsb /\ nsb * sbp <= fanout.
Proof.
  destruct sbp_facts as (H1 & H2).
  destruct Hpre as (_ & _ & _ & HG & _).
  unfold nsb, ICP_nsb. destruct (id Sub).
  - split; lia.
  - destruct (Radix_S (Radix g) <? Radix_R (Radix g)).
    + split; [lia|]. nia.
    + split; lia.
Qed.

Lemma ICP_rec_eq fuel peers tid Blocks :
  ICP_rec (S fuel) g peers tid Sub radix Blocks
  = (skew <- first_block_skew (ICP_globals g (id Sub)) peers tid (id Sub)
               (first_histogram g Sub radix) fbs ;;
     let '(g', high) := skew in
     if high then
       ICP_rec fuel g' peers tid Sub (Radix_S (Radix g'))
         {| blocks_N := nb; Pos := [] |}
     else
       Some (g', fst (ICP_result g Sub radix), snd (ICP_result g Sub radix))).
Proof.
  pose proof (ICP_shift_range g Sub radix Hpre) as Hshift.
  pose proof sbp_facts as (Hsbp1 & Hsbp2).
  pose proof nsb_facts as (Hnsb1 & Hnsb2).
  pose proof (ICP_setup_spec g Sub radix Hpre) as Hsetup. cbn zeta in Hsetup.
  destruct Hpre as (Hr & Hsz & HN & HG & Hdiv & HR).
  fold N in Hsz, HN, Hsetup.
  destruct (ICP_geometry N HN) as (Hg1 & Hg2 & Hg3 & Hg4 & Hg5).
  pose proof (pow2_bounds radix Hr) as Hp.
  cbn [ICP_rec]. destruct (Z.eqb_spec radix 0); [lia|].
  rewrite Hsetup. cbn [bind].
  fold sbp. fold fanout nb avg rem0 fbs nsb.
  set (P := {| ip_shift := ICP_shift g (id Sub); ip_fanout := fanout;
               ip_mask := fanout - 1; ip_N := N; ip_num_blocks := nb;
               ip_avg_block_size := avg; ip_first_block_size := fbs;
               ip_num_sub_blocks := nsb; ip_sub_block_partitions := sbp |}).
  assert (Hhash : forall t, HASHx (key t) (fanout - 1) (ICP_shift g (id Sub)) = Some (hf t))
    by (intros t; apply hashx_hash; assumption).
  assert (Hrange : forall t, 0 <= hf t < fanout)
    by (intros t; apply hashx_range; lia).
  assert (Hf32 : fanout < 2 ^ 32) by (unfold fanout; lia).
  assert (Hfbs : fbs = avg + (if 0 <? rem0 then 1 else 0)) by reflexivity.
  assert (HT0 : len (tuples Sub) = N) by (symmetry; assumption).
  destruct (first_round (fanout - 1) (ICP_shift g (id Sub)) fanout hf Hhash Hrange Hf32
              N nb avg rem0 fbs Hg1 Hg2 Hg3 Hfbs Hg4 ltac:(lia) nsb sbp ltac:(lia)
              Hsbp1 Hnsb2 (tuples Sub) HT0 Sub eq_refl)
    as (Hhead & st1 & Hrest & Hinv).
  fold P in Hhead, Hrest.
  change (Z.to_nat (ip_N P)) with (Z.to_nat N).
  change (ip_num_blocks P) with nb.
  destruct (Z.to_nat N) as [|k] eqn:Ek; [lia|].
  cbn [ICP_blocks].
  assert (Hlt : (st_i (ICP_init_state P Sub rem0) <? ip_N P) = true)
    by (cbn; apply Z.ltb_lt; lia).
  rewrite Hlt, Hhead. cbn [bind].
  change (st_block (ICP_init_state P Sub rem0)) with 0. rewrite Z.eqb_refl.
  cbn [andb]. cbn [P ip_first_block_size].
  fold (first_histogram g Sub radix).
  unfold first_block_skew.
  match goal with
  | |- bind (bind ?a _) _ = bind ?m _ => change a with m; set (sk := m)
  end.
  destruct sk as [[g' high]|]; [|reflexivity].
  cbn [bind]. destruct high; [reflexivity|].
  fold P. rewrite Hrest. cbn [bind].
  destruct (ICP_blocks_from (fanout - 1) (ICP_shift g (id Sub)) fanout hf Hhash Hrange Hf32
              N nb avg rem0 fbs Hg1 Hg2 Hg3 Hfbs Hg4 ltac:(lia) nsb sbp ltac:(lia)
              Hsbp1 Hnsb2 (tuples Sub) HT0 (id Sub) peers tid g'
              (Z.to_nat (nb - 1)) k 1 st1 ltac:(lia) ltac:(lia) ltac:(lia) Hinv)
    as (st' & Hloop & Hinv').
  fold P in Hloop. rewrite Hloop. cbn [bind].
  destruct (ICP_finish (fanout - 1) (ICP_shift g (id Sub)) fanout hf Hhash Hrange Hf32
              N nb avg rem0 fbs Hg1 Hg2 Hg3 Hfbs Hg4 ltac:(lia) nsb sbp ltac:(lia)
              Hsbp1 Hnsb2 (tuples Sub) HT0 st' Hinv')
    as (Hrem' & Hdir & Hcpy & Hpos).
  rewrite Hrem'. cbn [Z.eqb c_assert bind]. rewrite Hdir.
  cbn [P ip_N ip_first_block_size].
  replace (N - (N - fbs)) with fbs by lia. rewrite Z.eqb_refl. cbn [c_assert bind].
  rewrite Hcpy. cbn [bind]. rewrite Hpos. reflexivity.
Qed.

End ICP_equation.

(** ** The skew estimate as [ICP] sees it *)

Lemma skew_switch_HSO tid g : HighSkewObserved (skew_switch tid g) = HighSkewObserved g.
Proof. unfold skew_switch. destruct (_ && _); reflexivity. Qed.

Lemma skew_switch_N tid g : Threads_N (skew_switch tid g) = Threads_N g.
Proof. unfold skew_switch. destruct (_ && _); reflexivity. Qed.

Lemma ICP_estimate_skew_high g peers tid Histo bs g' :
  ICP_estimate_skew g peers tid Histo bs = Some (g', true) ->
  Radix_S (Radix g') = 0 /\ ChangedRadixS g' = true /\
  Radix_R (Radix g') = u32 (Radix_R (Radix g) + 1) /\
  HighSkewObserved g' = Threads_N g'.
Proof.
  unfold ICP_estimate_skew. intros H.
  apply bind_Some in H. destruct H as (report & _ & H).
  destruct report as [own|]; [|discriminate].
  injection H as <- Hb.
  rewrite skew_switch_HSO, skew_switch_N in Hb. apply Z.eqb_eq in Hb.
  unfold skew_switch. rewrite Z.eqb_refl. cbn [andb].
  destruct (Z.eqb_spec (HighSkewObserved (set_HighSkewObserved g
              (u32 (HighSkewObserved g + (if own then 1 else 0) + peers))))
              (Threads_N (set_HighSkewObserved g
              (u32 (HighSkewObserved g + (if own then 1 else 0) + peers))))) as [E|E].
  - cbn. repeat split. exact E.
  - contradiction.
Qed.


Lemma first_block_skew_high g peers tid Sub_id Histo bs g' :
  first_block_skew g peers tid Sub_id Histo bs = Some (g', true) ->
  Sub_id = id_S /\ ChangedRadixS g = false /\ user_defined (Radix g) = false /\
  Radix_S (Radix g') = 0 /\ ChangedRadixS g' = true.
Proof.
  unfold first_block_skew. destruct Sub_id; [discriminate|].
  destruct (user_defined (Radix g)); [discriminate|].
  destruct (ChangedRadixS g); [discriminate|]. cbn [negb andb].
  intros H. apply ICP_estimate_skew_high in H. tauto.
Qed.


(** ** [ICP], case by case *)

Lemma ICP_spec g peers tid Sub radix Blocks :
  ICP_pre g Sub radix ->
  ICP g peers tid Sub radix Blocks
  = match first_block_skew (ICP_globals g (id Sub)) peers tid (id Sub)
            (first_histogram g Sub radix) (ICP_fbs (size Sub)) with
    | None => None
    | Some (g', true) =>
        Some (g', Sub,
              {| blocks_N := ICP_num_blocks (size Sub); Pos := [] |})
    | Some (g', false) =>
        Some (g', fst (ICP_result g Sub radix), snd (ICP_result g Sub radix))
    end.
Proof.
  intros Hpre. unfold ICP. rewrite (ICP_rec_eq g Sub radix Hpre).
  destruct (first_block_skew _ _ _ _ _ _) as [[g' high]|] eqn:E; [|reflexivity].
  cbn [bind]. destruct high; [|reflexivity].
  apply first_block_skew_high in E. destruct E as (_ & _ & _ & E & _).
  cbn [ICP_rec]. rewrite E. reflexivity.
Qed.

(** [ICP] with radix 0 returns at once. *)
Lemma ICP_radix_0 g peers tid Sub Blocks :
  ICP g peers tid Sub 0 Blocks = Some (g, Sub, Blocks).
Proof. reflexivity. Qed.

(** ** The layout [ICP] leaves *)

Section Layout.

Variable hf : tuple_t -> Z.
Variable fanout : Z.
Hypothesis hf_range : forall t, 0 <= hf t < fanout.

Variables N nb avg rem0 fbs : Z.
Hypothesis HN : N = nb * avg + rem0.
Hypothesis Hrem : 0 <= rem0 < nb.
Hypothesis Havg : 1 <= avg.
Hypothesis Hfbs : fbs = avg + (if 0 <? rem0 then 1 else 0).

Variable T0 : list tuple_t.
Hypothesis HT0 : len T0 = N.

Local Abbreviation layout := (ICP_layout hf fanout T0 nb avg rem0).
Local Abbreviation block := (block_of T0 avg rem0).

Lemma len_block' b : 0 <= b < nb -> len (block b) = blk_len avg rem0 b.
Proof.
  intros Hb. unfold block_of.
  pose proof (blk_len_bounds N nb avg rem0 fbs HN Hrem Havg Hfbs b ltac:(lia)).
  pose proof (blk_from_nonneg N nb avg rem0 fbs HN Hrem Havg Hfbs b ltac:(lia)).
  pose proof (blk_from_succ N nb avg rem0 fbs HN Hrem Havg Hfbs b ltac:(lia)).
  pose proof (blk_from_mono N nb avg rem0 fbs HN Hrem Havg Hfbs b ltac:(lia) ltac:(lia)).
  apply len_slice; lia.
Qed.

Lemma len_moved k :
  0 <= k <= nb - 1 ->
  len (concat (ztab (fun j => part hf fanout (block (j + 1))) k))
  = blk_from avg rem0 (k + 1) - fbs.
Proof.
  intros [Hk Hle]. revert Hle. revert k Hk.
  apply (natlike_ind (fun k => k <= nb - 1 ->
     len (concat (ztab (fun j => part hf fanout (block (j + 1))) k))
     = blk_from avg rem0 (k + 1) - fbs)).
  - intros _. rewrite ztab_0. cbn. unfold blk_from. rewrite Hfbs.
    destruct (Z.ltb_spec 0 rem0); lia.
  - intros k Hk IH Hle. change (Z.succ k) with (k + 1).
    rewrite ztab_succ by lia. rewrite concat_app, len_app. cbn [concat].
    rewrite app_nil_r, IH by lia.
    rewrite (len_part hf fanout hf_range), len_block' by lia.
    rewrite (blk_from_succ N nb avg rem0 fbs HN Hrem Havg Hfbs (k + 1)) by lia. lia.
Qed.

(** Block [b], grouped by partition, lies at its offset. *)
Lemma layout_block b :
  0 <= b < nb ->
  exists X Y, layout = X ++ part hf fanout (block b) ++ Y /\
              len X = blk_offset N avg rem0 fbs b.
Proof.
  intros Hb. unfold ICP_layout, blk_offset.
  destruct (Z.eqb_spec b 0) as [->|Hne].
  - eexists. exists []. split; [rewrite app_nil_r; reflexivity|].
    rewrite len_moved by lia. replace (nb - 1 + 1) with nb by lia.
    rewrite (blk_from_nb N nb avg rem0 fbs HN Hrem Havg Hfbs). reflexivity.
  - rewrite (ztab_split _ (nb - 1) (b - 1)) by lia.
    rewrite concat_app. cbn [concat]. replace (b - 1 + 1) with b by lia.
    exists (concat (ztab (fun j => part hf fanout (block (j + 1))) (b - 1))).
    exists (concat (ztab (fun q => part hf fanout (block (b + q + 1)))
                      (nb - 1 - (b - 1) - 1))
            ++ part hf fanout (block 0)).
    split.
    + rewrite <- !app_assoc. reflexivity.
    + rewrite len_moved by lia. replace (b - 1 + 1) with b by lia. reflexivity.
Qed.

Lemma len_layout : len layout = N.
Proof.
  unfold ICP_layout. rewrite len_app, len_moved by lia.
  rewrite (len_part hf fanout hf_range), len_block' by lia.
  replace (nb - 1 + 1) with nb by lia.
  rewrite (blk_from_nb N nb avg rem0 fbs HN Hrem Havg Hfbs).
  rewrite (blk_len_0 N nb avg rem0 fbs HN Hrem Havg Hfbs). lia.
Qed.

(** The blocks, in order, make up the input. *)
Lemma blocks_concat k :
  0 <= k <= nb ->
  concat (ztab block k) = firstn (Z.to_nat (blk_from avg rem0 k)) T0.
Proof.
  intros [Hk Hle]. revert Hle. revert k Hk.
  apply (natlike_ind (fun k => k <= nb ->
     concat (ztab block k) = firstn (Z.to_nat (blk_from avg rem0 k)) T0)).
  - intros _. rewrite ztab_0. rewrite (blk_from_0 N nb avg rem0 fbs HN Hrem Havg Hfbs).
    reflexivity.
  - intros k Hk IH Hle. change (Z.succ k) with (k + 1).
    rewrite ztab_succ by lia. rewrite concat_app. cbn [concat].
    rewrite app_nil_r, IH by lia.
    rewrite (blk_from_succ N nb avg rem0 fbs HN Hrem Havg Hfbs k) by lia.
    pose proof (blk_from_nonneg N nb avg rem0 fbs HN Hrem Havg Hfbs k ltac:(lia)).
    pose proof (blk_len_bounds N nb avg rem0 fbs HN Hrem Havg Hfbs k ltac:(lia)).
    unfold block_of, slice. rewrite Z2Nat.inj_add by lia.
    generalize (Z.to_nat (blk_from avg rem0 k)) (Z.to_nat (blk_len avg rem0 k)).
    intros a c. clear. revert T0. induction a as [|a IHa]; intros T0.
    + reflexivity.
    + destruct T0 as [|x T0]; [rewrite !firstn_nil; reflexivity|].
      cbn. f_equal. apply IHa.
Qed.

Lemma blocks_all : concat (ztab block nb) = T0.
Proof.
  rewrite blocks_concat by lia.
  rewrite (blk_from_nb N nb avg rem0 fbs HN Hrem Havg Hfbs).
  apply firstn_all2. unfold len in HT0. lia.
Qed.

Lemma concat_Permutation {A} (l1 l2 : list (list A)) :
  Forall2 (@Permutation A) l1 l2 -> Permutation (concat l1) (concat l2).
Proof.
  induction 1 as [|x y l1 l2 Hxy HF IH]; [constructor|].
  cbn [concat]. apply Permutation_app; assumption.
Qed.

Lemma layout_Permutation : Permutation layout T0.
Proof.
  rewrite <- blocks_all at 2. unfold ICP_layout.
  rewrite (ztab_split block nb 0) by lia. rewrite ztab_0.
  cbn [app concat].
  eapply Permutation_trans; [apply Permutation_app_comm|].
  apply Permutation_app.
  - apply part_Permutation. assumption.
  - replace (nb - 0 - 1) with (nb - 1) by lia.
    apply concat_Permutation. unfold ztab.
    induction (seq 0 (Z.to_nat (nb - 1))) as [|x l IH]; [constructor|].
    cbn [map]. constructor; [|assumption].
    replace (0 + 1 + Z.of_nat x) with (Z.of_nat x + 1) by lia.
    apply part_Permutation. assumption.
Qed.

End Layout.

(** A partition is one run inside its grouped block. *)
Lemma part_bucket hf fanout blk p :
  (forall t, 0 <= hf t < fanout) -> 0 <= p < fanout ->
  exists X Y, part hf fanout blk = X ++ bucket hf p blk ++ Y /\
              len X = below hf p blk /\
              Y = concat (ztab (fun q => bucket hf (p + 1 + q) blk) (fanout - p - 1)).
Proof.
  intros Hr Hp. unfold part. rewrite (ztab_split _ fanout p Hp).
  rewrite concat_app. cbn [concat]. eexists. eexists. split; [reflexivity|].
  split; [|reflexivity].
  apply (len_concat_ztab hf fanout Hr); [lia|]. intros; reflexivity.
Qed.

(** ** [ICP]: permutation and layout *)

Lemma Forall_ztab {A} (P : A -> Prop) (f : Z -> A) n :
  (forall i, 0 <= i < n -> P (f i)) -> Forall P (ztab f n).
Proof.
  intros H. unfold ztab. apply Forall_forall. intros x Hx.
  apply in_map_iff in Hx. destruct Hx as (i & <- & Hi).
  apply in_seq in Hi. apply H. lia.
Qed.





Lemma ICP_call_ok_pre g Sub radix :
  1 <= radix <= 30 -> ICP_call_ok g Sub radix -> ICP_pre g Sub radix.
Proof.
  intros Hr (H1 & H2 & H3 & H4 & H5 & H6). unfold ICP_pre. tauto.
Qed.

Lemma ICP_globals_fields g sid :
  Radix (ICP_globals g sid) = Radix g /\
  ChangedRadixS (ICP_globals g sid) = ChangedRadixS g /\
  RelR_size (ICP_globals g sid) = RelR_size g /\
  RelS_size (ICP_globals g sid) = RelS_size g /\
  num_groups (ICP_globals g sid) = num_groups g /\
  Threads_N (ICP_globals g sid) = Threads_N g /\
  HighSkewObserved (ICP_globals g sid) = HighSkewObserved g.
Proof.
  unfold ICP_globals. destruct sid; [|tauto].
  destruct (Radix_S (Radix g) =? 0); cbn; tauto.
Qed.

Lemma first_histogram_range g Sub radix :
  ICP_pre g Sub radix ->
  len (first_histogram g Sub radix) = 2 ^ radix /\
  Forall (fun x => 0 <= x < 2 ^ 16) (first_histogram g Sub radix).
Proof.
  intros Hpre. destruct Hpre as (Hr & Hsz & HN & HG & Hdiv & HR).
  pose proof (pow2_bounds radix Hr).
  destruct (ICP_geometry _ HN) as (Hg1 & Hg2 & Hg3 & Hg4 & Hg5).
  unfold first_histogram. split; [apply len_ztab; lia|].
  apply Forall_ztab. intros p Hp. split; [apply cnt_nonneg|].
  eapply Z.le_lt_trans; [apply cnt_le_len|].
  assert (Hrange : forall t, 0 <= hashx (2 ^ radix - 1) (ICP_shift g (id Sub)) t < 2 ^ radix)
    by (intros t; apply hashx_range; lia).
  rewrite (len_block' _ _ Hrange (size Sub) (ICP_num_blocks (size Sub)) (ICP_avg (size Sub))
             (ICP_rem (size Sub)) (ICP_fbs (size Sub)) Hg1 Hg2 Hg3 eq_refl
             (tuples Sub) (eq_sym Hsz) 0) by lia.
  rewrite (blk_len_0 _ _ _ _ _ Hg1 Hg2 Hg3 eq_refl). assumption.
Qed.

(** The skew test of the first round is defined wherever [ICP] is
    called as [join_thread] calls it. *)
Lemma first_block_skew_defined g peers tid Sub radix :
  1 <= radix <= 30 -> ICP_call_ok g Sub radix ->
  exists g' high,
    first_block_skew (ICP_globals g (id Sub)) peers tid (id Sub)
      (first_histogram g Sub radix) (ICP_fbs (size Sub)) = Some (g', high).
Proof.
  intros Hr Hok. pose proof (ICP_call_ok_pre g Sub radix Hr Hok) as Hpre.
  destruct (first_histogram_range g Sub radix Hpre) as (Hlen & Hfor).
  destruct Hok as (Hsz & HN & HG & Hdiv & HR & HS).
  destruct (ICP_geometry _ HN) as (Hg1 & Hg2 & Hg3 & Hg4 & Hg5).
  unfold first_block_skew.
  destruct (id Sub) eqn:Eid; [eauto|].
  cbn [ICP_globals].
  destruct (user_defined (Radix g)) eqn:Eud; [cbn; eauto|].
  destruct (ChangedRadixS g) eqn:Ech; [cbn; eauto|]. cbn [negb andb].
  destruct (HS eq_refl eq_refl eq_refl) as (HR1 & HS1 & Hrad).
  assert (0 <= ICP_fbs (size Sub)) by (unfold ICP_fbs; destruct (0 <? _); lia).
  destruct (skew_report_spec g (first_histogram g Sub radix) (ICP_fbs (size Sub))
              (2 ^ radix)) as (r & Er & _); try assumption; try lia.
  { unfold FanoutS. rewrite Hrad. apply shl1_spec. lia. }
  unfold ICP_estimate_skew. rewrite Er. cbn [bind].
  destruct r; eauto.
Qed.

(** C2: for every sub-relation of size >= 1 and every radix in [0,16]
    whose fanout the groups divide, [ICP] returns, and the tuple array it
    leaves is a permutation of the one it was given, of the same length:
    the same multiset of tuples in the same storage. *)
Theorem C2_ICP_permutation g peers tid Sub radix Blocks :
  0 <= radix <= 16 -> ICP_call_ok g Sub radix ->
  exists g' Sub' Blocks',
    ICP g peers tid Sub radix Blocks = Some (g', Sub', Blocks') /\
    Permutation (tuples Sub') (tuples Sub) /\
    len (tuples Sub') = len (tuples Sub) /\
    size Sub' = size Sub.
Proof.
  intros Hr Hok.
  destruct (Z.eq_dec radix 0) as [->|Hne].
  - exists g, Sub, Blocks. rewrite ICP_radix_0. auto using Permutation_refl.
  - pose proof (ICP_call_ok_pre g Sub radix ltac:(lia) Hok) as Hpre.
    rewrite (ICP_spec g peers tid Sub radix Blocks Hpre).
    destruct (first_block_skew_defined g peers tid Sub radix ltac:(lia) Hok)
      as (g' & high & E).
    rewrite E. destruct high.
    + eexists. eexists. eexists. split; [reflexivity|]. auto using Permutation_refl.
    + eexists. eexists. eexists. split; [reflexivity|].
      destruct Hok as (Hsz & HN & _).
      destruct (ICP_geometry _ HN) as (Hg1 & Hg2 & Hg3 & Hg4 & Hg5).
      pose proof (pow2_bounds radix ltac:(lia)).
      assert (Hrange : forall t, 0 <= hashx (2 ^ radix - 1) (ICP_shift g (id Sub)) t < 2 ^ radix)
        by (intros t; apply hashx_range; lia).
      cbn [ICP_result fst tuples size]. split; [|split; [|reflexivity]].
      * apply (layout_Permutation _ _ Hrange (size Sub) _ _ _ (ICP_fbs (size Sub))
                 Hg1 Hg2 Hg3 eq_refl _ (eq_sym Hsz)).
      * rewrite (len_layout _ _ Hrange (size Sub) _ _ _ (ICP_fbs (size Sub))
                   Hg1 Hg2 Hg3 eq_refl _ (eq_sym Hsz)). assumption.
Qed.


Lemma for_range_list {X St} (l : list X) (f : X -> St -> option St) st :
  for_range 0 (len l) (fun i st => t <- rd l i ;; f t st) st = fold_opt f l st.
Proof.
  pose proof (for_range_slice [] l [] (fun i st => t <- rd l i ;; f t st) f st) as H.
  rewrite len_nil, Z.add_0_l in H. apply H.
  intros i x s Hrd _. cbn [app] in Hrd. rewrite app_nil_r in Hrd.
  rewrite Hrd. reflexivity.
Qed.

Lemma each_thread_map {St} (f : thread_t -> St -> option (thread_t * St))
    (Inv : nat -> St -> Prop) (gT : thread_t -> thread_t) :
  forall Ts k0 st,
  Inv k0 st ->
  (forall k T s, nth_error Ts k = Some T -> Inv (k0 + k)%nat s ->
     exists s', f T s = Some (gT T, s') /\ Inv (S (k0 + k)) s') ->
  exists s', each_thread f Ts st = Some (map gT Ts, s') /\
             Inv (k0 + length Ts)%nat s'.
Proof.
  induction Ts as [|T Ts IH]; intros k0 st HI Hstep.
  - exists st. split; [reflexivity|]. rewrite Nat.add_0_r. assumption.
  - cbn [each_thread]. destruct (Hstep 0%nat T st eq_refl) as (s1 & E1 & I1).
    { rewrite Nat.add_0_r. assumption. }
    rewrite E1. cbn [bind]. rewrite Nat.add_0_r in I1.
    destruct (IH (S k0) s1 I1) as (s' & E' & I').
    + intros k T' s Hk HIk. replace (S k0 + k)%nat with (k0 + S k)%nat in * by lia.
      apply (Hstep (S k) T' s Hk HIk).
    + rewrite E'. cbn [bind map]. exists s'. split; [reflexivity|].
      cbn [length]. replace (k0 + S (length Ts))%nat with (S k0 + length Ts)%nat by lia.
      assumption.
Qed.

Lemma u64_fold {X} (f : X -> Z) (l : list X) a :
  fold_left (fun acc x => u64 (acc + f x)) l (u64 a)
  = u64 (a + fold_right (fun x acc => f x + acc) 0 l).
Proof.
  revert a. induction l as [|x l IH]; intros a; cbn [fold_left fold_right].
  - rewrite Z.add_0_r. reflexivity.
  - rewrite u64_add_l. rewrite IH. f_equal. lia.
Qed.

(** ** Keys *)

Lemma primary_key_NoDup R : primary_key R -> NoDup (map key R).
Proof.
  intros H. eapply Permutation_NoDup; [apply Permutation_sym, H|].
  apply Finite.Injective_map_NoDup; [|apply seq_NoDup].
  intros x y. apply Nat2Z.inj.
Qed.

Lemma primary_key_In R k :
  primary_key R -> 1 <= k <= len R -> exists t, In t R /\ key t = k.
Proof.
  intros H Hk. assert (Hin : In k (map key R)).
  { eapply Permutation_in; [apply Permutation_sym, H|].
    apply in_map_iff. exists (Z.to_nat k). split; [lia|].
    apply in_seq. unfold len in Hk. lia. }
  apply in_map_iff in Hin. destruct Hin as (t & E & Hin). eauto.
Qed.

Lemma primary_key_range R t :
  primary_key R -> In t R -> 1 <= key t <= len R.
Proof.
  intros H Hin. assert (Hk : In (key t) (map Z.of_nat (seq 1 (length R)))).
  { eapply Permutation_in; [apply H|]. apply in_map. assumption. }
  apply in_map_iff in Hk. destruct Hk as (n & E & Hn). apply in_seq in Hn.
  unfold len. lia.
Qed.

Lemma NoDup_key_inj R t t' :
  NoDup (map key R) -> In t R -> In t' R -> key t = key t' -> t = t'.
Proof.
  induction R as [|x R IH]; [intros _ []|].
  cbn [map]. intros HND Ht Ht' E. inversion HND as [|? ? Hx HND']; subst.
  destruct Ht as [->|Ht]; destruct Ht' as [->|Ht'].
  - reflexivity.
  - exfalso. apply Hx. rewrite E. apply in_map. assumption.
  - exfalso. apply Hx. rewrite <- E. apply in_map. assumption.
  - apply IH; assumption.
Qed.

Lemma val_of_In TEST R t :
  NoDup (map key R) -> In t R -> val_of TEST R (key t) = stored TEST t.
Proof.
  intros HND Hin. unfold val_of.
  destruct (find (fun t0 => key t0 =? key t) R) as [t'|] eqn:E.
  - apply find_some in E. destruct E as (Hin' & E). apply Z.eqb_eq in E.
    f_equal. apply (NoDup_key_inj R); auto.
  - exfalso. apply (find_none _ _ E) in Hin. rewrite Z.eqb_refl in Hin. discriminate.
Qed.

(** ** Building and probing a table *)

Section Tables.

Variable TEST : bool.
Variable cell : tuple_t -> Z.

(** The table holds the buckets of the tuples of [W]. *)
Definition holds (HT : list Z) (W : list tuple_t) : Prop :=
  forall t, In t W -> rd HT (cell t) = Some (stored TEST t).

(** No two tuples of [L] with different buckets share a cell. *)
Definition compatible (L : list tuple_t) : Prop :=
  forall t t', In t L -> In t' L -> cell t = cell t' ->
    stored TEST t = stored TEST t'.

Lemma holds_wr HT HT' W t :
  wr HT (cell t) (stored TEST t) = Some HT' ->
  holds HT W -> compatible (W ++ [t]) -> holds HT' (W ++ [t]).
Proof.
  intros Hw Hh Hc u Hu.
  destruct (Z.eq_dec (cell u) (cell t)) as [E|E].
  - rewrite E. rewrite (rd_wr_eq _ _ _ _ Hw). f_equal. symmetry.
    apply Hc; [assumption | | assumption].
    apply in_or_app. right. left. reflexivity.
  - rewrite (rd_wr_neq _ _ _ _ _ Hw) by congruence.
    apply in_app_or in Hu. destruct Hu as [Hu|[<-|[]]]; [auto | congruence].
Qed.

Lemma compatible_incl L L' : incl L' L -> compatible L -> compatible L'.
Proof. intros Hi Hc t t' Ht Ht'. apply Hc; apply Hi; assumption. Qed.

Lemma scatter_fold_holds l : forall HT cs W,
  Forall (fun t => 0 <= cell t < len HT) l ->
  holds HT W -> compatible (W ++ l) ->
  exists HT',
    fold_opt (fun t '(HT, cs) =>
                HT' <- wr HT (cell t) (stored TEST t) ;;
                Some (HT', u64 (cs + key t))) l (HT, u64 cs)
    = Some (HT', u64 (cs + sum_keys l)) /\
    len HT' = len HT /\ holds HT' (W ++ l) /\
    (forall j, (forall t, In t l -> cell t <> j) -> rd HT' j = rd HT j).
Proof.
  induction l as [|t l IH]; intros HT cs W Hb Hh Hc.
  - exists HT. cbn [fold_opt sum_keys fold_right]. rewrite Z.add_0_r, app_nil_r.
    repeat split; auto.
  - inversion Hb as [|? ? Ht Hb']; subst.
    destruct (wr_lt HT (cell t) (stored TEST t) Ht) as (HT1 & Hw).
    cbn [fold_opt]. rewrite Hw. cbn [bind]. rewrite u64_add_l.
    assert (Hc1 : compatible (W ++ [t])).
    { eapply compatible_incl; [|exact Hc]. intros x Hx.
      apply in_app_or in Hx. apply in_or_app. destruct Hx as [Hx|[<-|[]]]; [left|right; left]; auto. }
    pose proof (holds_wr HT HT1 W t Hw Hh Hc1) as Hh1.
    destruct (IH HT1 (cs + key t) (W ++ [t])) as (HT' & E & Hl & Hh' & Hfr).
    + rewrite (wr_len _ _ _ _ Hw). assumption.
    + assumption.
    + rewrite <- app_assoc. assumption.
    + exists HT'. rewrite E. split; [|split; [|split]].
      * f_equal. f_equal. cbn [sum_keys fold_right]. fold (sum_keys l). f_equal. lia.
      * rewrite Hl. apply (wr_len _ _ _ _ Hw).
      * rewrite <- app_assoc in Hh'. assumption.
      * intros j Hj. rewrite Hfr by (intros u Hu; apply Hj; right; assumption).
        apply (rd_wr_neq _ _ _ _ _ Hw). apply Hj. left. reflexivity.
Qed.

(** A probe of a table that holds R reads, for every tuple of S, the
    bucket of its partner, and counts it. *)
Lemma gather_fold_holds (R : list tuple_t) HT l : forall m cs,
  holds HT R -> NoDup (map key R) ->
  (forall s, In s l -> exists t, In t R /\ key t = key s /\ cell t = cell s) ->
  fold_opt (fun s '(matches, checksum) =>
              v <- rd HT (cell s) ;;
              Some (count_match TEST (key s) v matches, u64 (checksum + v)))
    l (u64 m, u64 cs)
  = Some (u64 (m + len l), u64 (cs + sum_vals TEST R l)).
Proof.
  induction l as [|s l IH]; intros m cs Hh HND Hex.
  - cbn [fold_opt sum_vals fold_right]. rewrite len_nil, !Z.add_0_r. reflexivity.
  - destruct (Hex s (or_introl eq_refl)) as (t & Hin & Ek & Ec).
    cbn [fold_opt]. rewrite <- Ec, (Hh t Hin). cbn [bind].
    assert (Ev : stored TEST t = val_of TEST R (key s)).
    { rewrite <- Ek. symmetry. apply val_of_In; assumption. }
    assert (Em : count_match TEST (key s) (stored TEST t) (u64 m) = u64 (m + 1)).
    { unfold count_match, stored. destruct TEST.
      - rewrite Ek, Z.eqb_refl. apply u64_add_l.
      - apply u64_add_l. }
    rewrite Em, u64_add_l, Ev.
    rewrite IH; try assumption.
    + f_equal. f_equal.
      * f_equal. rewrite len_cons. lia.
      * f_equal. cbn [sum_vals fold_right]. fold (sum_vals TEST R l). lia.
    + intros s' Hs'. apply Hex. right. assumption.
Qed.

(** A build keeps what the table held of [U], a set of tuples no two of
    which collide, and adds its own tuples. *)
Lemma scatter_fold_keeps (U l : list tuple_t) HT cs :
  compatible U -> incl l U ->
  Forall (fun t => 0 <= cell t < len HT) l ->
  exists HT',
    fold_opt (fun t '(HT, cs) =>
                HT' <- wr HT (cell t) (stored TEST t) ;;
                Some (HT', u64 (cs + key t))) l (HT, u64 cs)
    = Some (HT', u64 (cs + sum_keys l)) /\
    len HT' = len HT /\
    (forall t, In t l -> rd HT' (cell t) = Some (stored TEST t)) /\
    (forall t, In t U -> rd HT (cell t) = Some (stored TEST t) ->
       rd HT' (cell t) = Some (stored TEST t)).
Proof.
  intros HU Hincl Hb.
  destruct (scatter_fold_holds l HT cs [] Hb) as (HT' & E & Hl & Hh & Hfr).
  - intros t [].
  - cbn [app]. eapply compatible_incl; eassumption.
  - exists HT'. split; [exact E|]. split; [exact Hl|]. split; [exact Hh|].
    intros t Ht Hrd.
    destruct (in_dec Z.eq_dec (cell t) (map cell l)) as [Hin|Hnin].
    + apply in_map_iff in Hin. destruct Hin as (t' & Ec & Ht').
      rewrite <- Ec, (Hh t' Ht'). f_equal.
      apply HU; [apply Hincl| |]; assumption.
    + rewrite Hfr; [assumption|].
      intros t' Ht' Ec. apply Hnin. rewrite <- Ec. apply in_map. assumption.
Qed.

End Tables.

(** ** Sums over tuples *)

Lemma sum_keys_app l1 l2 : sum_keys (l1 ++ l2) = sum_keys l1 + sum_keys l2.
Proof.
  unfold sum_keys. induction l1 as [|t l1 IH]; cbn [app fold_right]; lia.
Qed.

Lemma sum_vals_app TEST R l1 l2 :
  sum_vals TEST R (l1 ++ l2) = sum_vals TEST R l1 + sum_vals TEST R l2.
Proof.
  unfold sum_vals. induction l1 as [|t l1 IH]; cbn [app fold_right]; lia.
Qed.

Lemma sum_keys_flat_map {X} (f : X -> list tuple_t) (l : list X) :
  sum_keys (flat_map f l)
  = fold_right (fun x acc => sum_keys (f x) + acc) 0 l.
Proof.
  induction l as [|x l IH]; cbn [flat_map fold_right]; [reflexivity|].
  rewrite sum_keys_app, IH. reflexivity.
Qed.

Lemma sum_vals_flat_map {X} TEST R (f : X -> list tuple_t) (l : list X) :
  sum_vals TEST R (flat_map f l)
  = fold_right (fun x acc => sum_vals TEST R (f x) + acc) 0 l.
Proof.
  induction l as [|x l IH]; cbn [flat_map fold_right]; [reflexivity|].
  rewrite sum_vals_app, IH. reflexivity.
Qed.

Lemma len_flat_map {X Y} (f : X -> list Y) (l : list X) :
  len (flat_map f l) = fold_right (fun x acc => len (f x) + acc) 0 l.
Proof.
  induction l as [|x l IH]; cbn [flat_map fold_right]; [reflexivity|].
  rewrite len_app, IH. reflexivity.
Qed.

Lemma In_all_R Ts T t k :
  nth_error Ts k = Some T -> In t (tuples (SubR T)) -> In t (all_R Ts).
Proof.
  intros Hk Ht. apply in_flat_map. exists T. split; [|assumption].
  eapply nth_error_In; eassumption.
Qed.

Lemma In_all_S Ts T t k :
  nth_error Ts k = Some T -> In t (tuples (SubS T)) -> In t (all_S Ts).
Proof.
  intros Hk Ht. apply in_flat_map. exists T. split; [|assumption].
  eapply nth_error_In; eassumption.
Qed.

(** With the keys of R distinct, no two tuples of R collide in a table
    indexed by the key. *)
Lemma compatible_key TEST R : NoDup (map key R) -> compatible TEST key R.
Proof.
  intros HND t t' Ht Ht' E. f_equal. eapply NoDup_key_inj; eassumption.
Qed.

(** The NOPA build and probe of a list of tuples. *)
Lemma NOPA_scatter_fold TEST U l HT cs :
  compatible TEST key U -> incl l U ->
  Forall (fun t => 0 <= key t < len HT) l ->
  exists HT',
    fold_opt (NOPA_scatter TEST) l (HT, u64 cs)
    = Some (HT', u64 (cs + sum_keys l)) /\
    len HT' = len HT /\
    (forall t, In t l -> rd HT' (key t) = Some (stored TEST t)) /\
    (forall t, In t U -> rd HT (key t) = Some (stored TEST t) ->
       rd HT' (key t) = Some (stored TEST t)).
Proof. apply scatter_fold_keeps. Qed.

Lemma NOPA_gather_fold TEST R HT l m cs :
  holds TEST key HT R -> NoDup (map key R) ->
  (forall s, In s l -> exists t, In t R /\ key t = key s) ->
  fold_opt (NOPA_gather TEST HT) l (u64 m, u64 cs)
  = Some (u64 (m + len l), u64 (cs + sum_vals TEST R l)).
Proof.
  intros Hh HND Hex.
  apply (gather_fold_holds TEST key R HT l m cs Hh HND).
  intros s Hs. destruct (Hex s Hs) as (t & Ht & E). exists t. auto.
Qed.

(** ** The skew estimate *)

Lemma largest_remove_one x l : largest (remove_one x l) <= largest l.
Proof.
  induction l as [|y l IH]; [reflexivity|].
  change (largest (y :: l)) with (Z.max y (largest l)).
  cbn [remove_one]. destruct (y =? x).
  - lia.
  - change (largest (y :: remove_one x l))
      with (Z.max y (largest (remove_one x l))). lia.
Qed.

Lemma largest_ge_second l : second_largest l <= largest l.
Proof. apply largest_remove_one. Qed.

(** C8: the skew estimation of a worker on the histogram of its first S
    block adds one to the process-wide counter [HighSkewObserved] if and
    only if |S| / |R| >= 3 and either fanout > 4 and
    maxA + maxB > 0.35 * block_size, or fanout <= 4 and
    maxA > block_size / 2 + 10, with maxA >= maxB the two largest entries
    of the histogram; when |S| / |R| < 3 it returns before the counter is
    touched. *)
Theorem C8_skew_estimation g peers tid Histo block_size fanout :
  0 < RelR_size g -> 0 <= RelS_size g ->
  FanoutS g = Some fanout -> len Histo = fanout ->
  Forall (fun x => 0 <= x < 2 ^ 16) Histo ->
  0 <= block_size < 2 ^ 16 ->
  exists r,
    skew_report g Histo block_size = Some r /\
    (r = Some true <->
       spec_high_skew (RelS_size g) (RelR_size g) fanout block_size
         (largest Histo) (second_largest Histo)) /\
    (r = None <-> RelS_size g < 3 * RelR_size g) /\
    second_largest Histo <= largest Histo /\
    match r with
    | None => ICP_estimate_skew g peers tid Histo block_size = Some (g, false)
    | Some own =>
        exists g' all_high,
          ICP_estimate_skew g peers tid Histo block_size
            = Some (g', all_high) /\
          HighSkewObserved g'
            = u32 (HighSkewObserved g + (if own then 1 else 0) + peers)
    end.
Proof.
  intros HR HS HF HL HH Hbs.
  destruct (skew_report_spec g Histo block_size fanout HR HS HF HL HH Hbs)
    as (r & Er & Hiff).
  exists r. split; [exact Er|]. split; [exact Hiff|].
  split; [|split].
  - unfold skew_report in Er. unfold c_div in Er.
    destruct (Z.eqb_spec (RelR_size g) 0) as [E0|E0]; [lia|]. cbn [bind] in Er.
    assert (Hq : RelS_size g / RelR_size g < 3 <-> RelS_size g < 3 * RelR_size g).
    { split; intros Hlt.
      - pose proof (Z.mul_div_le (RelS_size g) (RelR_size g) HR).
        pose proof (Z.mod_pos_bound (RelS_size g) (RelR_size g) HR).
        pose proof (Z.div_mod (RelS_size g) (RelR_size g) ltac:(lia)). nia.
      - apply Z.div_lt_upper_bound; lia. }
    destruct (Z.ltb_spec (RelS_size g / RelR_size g) 3) as [Hlt|Hge].
    + injection Er as <-. split; [intros _; apply Hq; exact Hlt | reflexivity].
    + split; [|intros Hlt; apply Hq in Hlt; lia].
      intros ->. exfalso.
      destruct (FanoutS g); cbn [bind] in Er; [|discriminate].
      destruct (two_most_common _ _) as [[a b]|]; cbn [bind] in Er; discriminate.
  - apply largest_ge_second.
  - unfold ICP_estimate_skew. rewrite Er. cbn [bind].
    destruct r as [own|]; [|reflexivity].
    eexists. eexists. split; [reflexivity|].
    rewrite skew_switch_HSO. reflexivity.
Qed.

(** A histogram of eight partitions with one of nine tuples out of ten. *)
Lemma C8_skew_estimation_witness :
  exists r,
    skew_report (mk_globals 3 3 false 2 1 4 12) [9; 0; 0; 1; 0; 0; 0; 0] 10
      = Some r /\ r = Some true.
Proof.
  destruct (C8_skew_estimation (mk_globals 3 3 false 2 1 4 12) 0 0
              [9; 0; 0; 1; 0; 0; 0; 0] 10 8) as (r & Er & Hiff & _);
    [simpl; lia | simpl; lia | reflexivity | reflexivity
    | repeat constructor; simpl; lia | simpl; lia |].
  exists r. split; [exact Er|].
  apply Hiff. unfold spec_high_skew. simpl. lia.
Defined.

(** ** [ICP] on a sample *)

Lemma sample_call_ok : ICP_call_ok (mk_globals 1 1 true 1 1 4 4) sample_Sub 1.
Proof.
  unfold ICP_call_ok. simpl.
  repeat split; try lia; try discriminate.
Qed.

(** The sample partitioned with radix 1. *)
Lemma C2_ICP_permutation_witness :
  exists g' Sub' Blocks',
    ICP (mk_globals 1 1 true 1 1 4 4) 0 0 sample_Sub 1 sample_Blocks
      = Some (g', Sub', Blocks') /\
    Permutation (tuples Sub') (tuples sample_Sub) /\
    len (tuples Sub') = len (tuples sample_Sub) /\
    size Sub' = size sample_Sub.
Proof.
  apply (C2_ICP_permutation (mk_globals 1 1 true 1 1 4 4) 0 0 sample_Sub 1
           sample_Blocks); [lia | exact sample_call_ok].
Defined.


(** ** The command line *)

Module CmdArgsFacts.

Import Ascii String CmdArgs CmdArgsSpec.

(** C10, a counterexample: [--threads 8] leaves [Threads.N] at what
    the scratch variable held, here 0, and reports [8] as an option it
    does not know; and [--r=4294967296] stores 0, the value as a 32-bit
    unsigned, as the size of R. *)
Lemma C10_counterexample :
  (exists st,
     extract_cmd_args unit (fun _ => MatchFailure) ["--threads"; "8"]%string
       (initial_state 0 tt)
       = Some (Running unit st) /\
     Threads_N unit st = 0 /\
     printed unit st = [Msg_unrecognized "8"%string] /\
     Threads_N unit st <> spec_threads_after_two_arguments) /\
  (exists st,
     extract_cmd_args unit (fun _ => MatchFailure) ["--r=4294967296"]%string
       (initial_state 0 tt)
       = Some (Running unit st) /\
     RelR_size unit st = 0 /\
     RelR_size unit st <> 4294967296).
Proof.
  split.
  - eexists. split; [vm_compute; reflexivity|].
    split; [reflexivity|]. split; [reflexivity|]. discriminate.
  - eexists. split; [vm_compute; reflexivity|].
    split; [reflexivity|]. discriminate.
Qed.

End CmdArgsFacts.

(** ** Model I *)

Lemma SafeMalloc_ztab junk gi n :
  SafeMalloc junk gi n = ztab (fun j => junk gi (Z.to_nat j)) n.
Proof.
  unfold SafeMalloc, ztab. apply map_ext. intros a. rewrite Nat2Z.id. reflexivity.
Qed.

Lemma memset0_ztab (f : Z -> Z) n off cnt :
  0 <= off -> 0 <= cnt -> off + cnt <= n ->
  memset0 (ztab f n) off cnt
  = Some (ztab (fun j => if (off <=? j) && (j <? off + cnt) then 0 else f j) n).
Proof.
  intros Hoff Hcnt Hn. unfold memset0.
  destruct (for_range_inv
              (fun k Table => Table = ztab (fun j => if (off <=? j) && (j <? k)
                                                     then 0 else f j) n)
              (fun j Table => wr Table j 0) off (off + cnt) (ztab f n))
    as (s' & E & ->); [lia | | | exact E].
  - apply ztab_ext. intros i Hi.
    destruct (Z.leb_spec off i); destruct (Z.ltb_spec i off); cbn; lia || reflexivity.
  - intros j s Hj ->. eexists. split; [apply wr_ztab; lia|].
    apply ztab_ext. intros i Hi.
    destruct (Z.eqb_spec i j) as [->|Hne].
    + destruct (Z.leb_spec off j); destruct (Z.ltb_spec j (j + 1)); cbn; lia || reflexivity.
    + destruct (Z.leb_spec off i); destruct (Z.ltb_spec i j);
        destruct (Z.ltb_spec i (j + 1)); cbn; lia || reflexivity.
Qed.

Lemma threads_ok_nth g Ts k T :
  threads_ok g Ts -> nth_error Ts k = Some T ->
  tid T = Z.of_nat k /\ 0 <= tid T < Threads_N g /\
  group T = tid T mod num_groups g /\
  size (SubR T) = len (tuples (SubR T)) /\
  size (SubS T) = len (tuples (SubS T)) /\
  id (SubR T) = id_R /\ id (SubS T) = id_S.
Proof.
  intros (HN & HN1 & HG & Hall) Hk.
  destruct (Hall k T Hk) as (H1 & H2 & H3 & H4 & H5 & H6).
  assert (k < length Ts)%nat by (apply nth_error_Some; congruence).
  unfold len in HN. repeat split; try assumption; lia.
Qed.

Lemma map_id_ext {X} (f : X -> X) (l : list X) :
  (forall x, In x l -> f x = x) -> map f l = l.
Proof.
  intros H. induction l as [|x l IH]; [reflexivity|].
  cbn [map]. rewrite H by (left; reflexivity). f_equal.
  apply IH. intros y Hy. apply H. right. assumption.
Qed.

(** A phase in which worker [k] turns [T] into [gT T]. *)
Lemma each_thread_phase {St} (f : thread_t -> St -> option (thread_t * St))
    (Inv : nat -> St -> Prop) (gT : thread_t -> thread_t) Ts st :
  Inv 0%nat st ->
  (forall k T s, nth_error Ts k = Some T -> Inv k s ->
     exists s', f T s = Some (gT T, s') /\ Inv (S k) s') ->
  exists s', each_thread f Ts st = Some (map gT Ts, s') /\
             Inv (length Ts) s'.
Proof.
  intros H0 Hstep.
  apply (each_thread_map f Inv gT Ts 0%nat st H0 Hstep).
Qed.

(** The probe loop of Models I and III over a table that holds R. *)
Lemma NOPA_probe_loop TEST R HT T m cs :
  size (SubS T) = len (tuples (SubS T)) ->
  holds TEST key HT R -> NoDup (map key R) ->
  (forall s, In s (tuples (SubS T)) -> exists t, In t R /\ key t = key s) ->
  for_range 0 (size (SubS T))
    (fun i st => t <- rd (tuples (SubS T)) i ;; NOPA_gather TEST HT t st)
    (u64 m, u64 cs)
  = Some (u64 (m + len (tuples (SubS T))),
          u64 (cs + sum_vals TEST R (tuples (SubS T)))).
Proof.
  intros Hsz Hh HND Hex. rewrite Hsz, for_range_list.
  apply NOPA_gather_fold; assumption.
Qed.

Lemma foreign_key_partner S R s :
  primary_key R -> foreign_key S R -> In s S ->
  exists t, In t R /\ key t = key s.
Proof.
  intros Hpk Hfk Hs. unfold foreign_key in Hfk.
  rewrite Forall_forall in Hfk. apply primary_key_In; auto.
Qed.

Section ModelI.

Variable TEST : bool.
Variable junk : Z -> nat -> Z.
Variable g : globals.
Variable Ts : list thread_t.
Hypothesis Hin : join_input g Ts.

Local Abbreviation n := (RelR_size g + 1).
Local Abbreviation N := (Threads_N g).

Lemma ColBP_I_zero_spec :
  each_thread (ColBP_I_zero g n) Ts (SafeMalloc junk 0 n)
  = Some (Ts, zeroed_table junk N n).
Proof.
  destruct Hin as (Hok & HR & HS & HR31 & HS32 & Hpk & Hfk).
  pose proof Hok as (HN & HN1 & HG & _).
  assert (Hshare : 0 <= n / N /\ N * (n / N) <= n).
  { split; [apply Z.div_pos; lia | apply Z.mul_div_le; lia]. }
  destruct (each_thread_phase (ColBP_I_zero g n)
              (fun k HT => HT = ztab (fun j => if j <? Z.of_nat k * (n / N)
                                               then 0 else junk 0 (Z.to_nat j)) n)
              (fun T => T) Ts (SafeMalloc junk 0 n)) as (s' & E & Hs').
  - rewrite SafeMalloc_ztab. apply ztab_ext. intros i Hi.
    destruct (Z.ltb_spec i (Z.of_nat 0 * (n / N))); [lia | reflexivity].
  - intros k T s Hk ->.
    destruct (threads_ok_nth g Ts k T Hok Hk) as (Htid & Hlt & _).
    unfold ColBP_I_zero, c_div.
    destruct (Z.eqb_spec N 0) as [E0|_]; [lia|]. cbn [bind].
    assert (Hk1 : Z.of_nat k * (n / N) + n / N <= N * (n / N)) by nia.
    rewrite u32_small by (change (2 ^ 32) with 4294967296;
                          change (2 ^ 31) with 2147483648 in HR31; nia).
    rewrite Htid, memset0_ztab by nia. cbn [bind].
    eexists. split; [reflexivity|].
    apply ztab_ext. intros i Hi.
    destruct (Z.ltb_spec i (Z.of_nat k * (n / N)));
      destruct (Z.leb_spec (Z.of_nat k * (n / N)) i);
      destruct (Z.ltb_spec i (Z.of_nat k * (n / N) + n / N));
      destruct (Z.ltb_spec i (Z.of_nat (S k) * (n / N))); cbn; lia || reflexivity.
  - rewrite E, map_id. f_equal. f_equal. rewrite Hs'. unfold zeroed_table.
    unfold len in HN. rewrite HN. reflexivity.
Qed.

Lemma ColBP_I_build_spec HT :
  len HT = n ->
  exists HT',
    each_thread (ColBP_I_build TEST) Ts HT
    = Some (map (fun T => set_stats T 0 (u64 (sum_keys (tuples (SubR T))))) Ts,
            HT') /\
    len HT' = n /\ holds TEST key HT' (all_R Ts).
Proof.
  intros HlenHT.
  destruct Hin as (Hok & HR & HS & HR31 & HS32 & Hpk & Hfk).
  pose proof (compatible_key TEST _ (primary_key_NoDup _ Hpk)) as Hcompat.
  destruct (each_thread_phase (ColBP_I_build TEST)
              (fun k HT => len HT = n /\
                 forall j T t, (j < k)%nat -> nth_error Ts j = Some T ->
                   In t (tuples (SubR T)) ->
                   rd HT (key t) = Some (stored TEST t))
              (fun T => set_stats T 0 (u64 (sum_keys (tuples (SubR T)))))
              Ts HT) as (HT' & E & Hl' & Hh').
  - split; [assumption|]. intros j T t Hj. lia.
  - intros k T HTk Hk (Hlen & Hheld).
    destruct (threads_ok_nth g Ts k T Hok Hk) as (_ & _ & _ & HszR & _).
    unfold ColBP_I_build. rewrite HszR, for_range_list.
    destruct (NOPA_scatter_fold TEST (all_R Ts) (tuples (SubR T)) HTk 0 Hcompat)
      as (HT1 & E1 & Hl1 & Hnew & Hkeep).
    + intros t Ht. eapply In_all_R; eassumption.
    + apply Forall_forall. intros t Ht.
      pose proof (primary_key_range _ t Hpk (In_all_R _ _ _ _ Hk Ht)). lia.
    + change (u64 0) with 0 in E1. rewrite E1. cbn [bind Z.add].
      eexists. split; [reflexivity|]. split; [lia|].
      intros j T' t Hj Hj' Ht.
      destruct (Nat.eq_dec j k) as [->|Hne].
      * assert (T' = T) by congruence. subst T'. apply Hnew. assumption.
      * apply Hkeep; [eapply In_all_R; eassumption|].
        eapply Hheld; [|eassumption|assumption]. lia.
  - exists HT'. split; [exact E|]. split; [exact Hl'|].
    intros t Ht. apply in_flat_map in Ht. destruct Ht as (T & HT_in & Ht).
    apply In_nth_error in HT_in. destruct HT_in as (j & Hj).
    eapply Hh'; [|eassumption|assumption].
    apply nth_error_Some. congruence.
Qed.

Lemma ColBP_I_probe_spec HT :
  holds TEST key HT (all_R Ts) ->
  each_thread (ColBP_I_probe TEST)
    (map (fun T => set_stats T 0 (u64 (sum_keys (tuples (SubR T))))) Ts) HT
  = Some (map (final_stats TEST (all_R Ts)) Ts, HT).
Proof.
  intros Hh.
  destruct Hin as (Hok & HR & HS & HR31 & HS32 & Hpk & Hfk).
  set (gT := fun T => set_stats T 0 (u64 (sum_keys (tuples (SubR T))))).
  destruct (each_thread_phase (ColBP_I_probe TEST) (fun _ HT' => HT' = HT)
              (fun T' => final_stats TEST (all_R Ts) T') (map gT Ts) HT)
    as (s' & E & ->).
  - reflexivity.
  - intros k T' s Hk ->. rewrite nth_error_map in Hk.
    destruct (nth_error Ts k) as [T|] eqn:HkT; [|discriminate].
    injection Hk as <-.
    destruct (threads_ok_nth g Ts k T Hok HkT) as (_ & _ & _ & _ & HszS & _).
    unfold ColBP_I_probe. cbn [gT set_stats SubS matches checksum].
    change 0 with (u64 0) at 2.
    rewrite (NOPA_probe_loop TEST (all_R Ts) HT T 0 _ HszS Hh
               (primary_key_NoDup _ Hpk)).
    + cbn [bind Z.add]. eexists. split; [reflexivity|]. reflexivity.
    + intros s0 Hs0. eapply foreign_key_partner; try eassumption.
      eapply In_all_S; eassumption.
  - rewrite E, map_map. reflexivity.
Qed.

(** Model I: every worker ends with its final statistics, whatever the
    table held when it was allocated. *)
Lemma ColBP_I_spec :
  Radix_R (Radix g) = 0 -> Radix_S (Radix g) = 0 ->
  ColBP_I TEST junk g Ts = Some (map (final_stats TEST (all_R Ts)) Ts).
Proof.
  intros HR0 HS0. pose proof Hin as (Hok & HR & HS & HR31 & HS32 & Hpk & Hfk).
  unfold ColBP_I, ColBP_I_alloc. rewrite HR0, HS0. cbn [Z.eqb andb c_assert bind].
  assert (Hn : NOPA_HTable_size g = n).
  { unfold NOPA_HTable_size. apply u32_small.
    change (2 ^ 32) with 4294967296. change (2 ^ 31) with 2147483648 in HR31. lia. }
  rewrite Hn, ColBP_I_zero_spec. cbn [bind].
  destruct (ColBP_I_build_spec (zeroed_table junk N n)) as (HT' & E & Hl & Hh).
  { unfold zeroed_table. apply len_ztab. lia. }
  rewrite E. cbn [bind]. rewrite (ColBP_I_probe_spec HT' Hh). reflexivity.
Qed.

End ModelI.

(** What a probe reads for the key of a tuple of S is the bucket of its
    partner in R. *)
Lemma holds_val_of TEST HT R S s :
  primary_key R -> foreign_key S R -> holds TEST key HT R -> In s S ->
  rd HT (key s) = Some (val_of TEST R (key s)).
Proof.
  intros Hpk Hfk Hh Hs.
  destruct (foreign_key_partner S R s Hpk Hfk Hs) as (t & Ht & E).
  rewrite <- E, (Hh t Ht). f_equal. symmetry.
  apply val_of_In; [apply primary_key_NoDup|]; assumption.
Qed.

(** C9: in Model I the workers zero the first N * floor((|R|+1)/N)
    buckets and leave the others, at most N - 1, as they were allocated;
    the build then writes every bucket a probe reads, and the statistics
    of the workers do not depend on what the table first held. *)
Theorem C9_model_I_zeroing (TEST : bool) (junk : Z -> nat -> Z)
    (g : globals) (Ts : list thread_t) :
  join_input g Ts -> Radix_R (Radix g) = 0 -> Radix_S (Radix g) = 0 ->
  let n := RelR_size g + 1 in
  let N := Threads_N g in
  each_thread (ColBP_I_zero g n) Ts (SafeMalloc junk 0 n)
    = Some (Ts, zeroed_table junk N n) /\
  (forall j, 0 <= j < N * (n / N) -> rd (zeroed_table junk N n) j = Some 0) /\
  (forall j, N * (n / N) <= j < n ->
     rd (zeroed_table junk N n) j = Some (junk 0 (Z.to_nat j))) /\
  0 <= n - N * (n / N) <= N - 1 /\
  (exists Ts' HT,
     each_thread (ColBP_I_build TEST) Ts (zeroed_table junk N n)
       = Some (Ts', HT) /\
     forall s, In s (all_S Ts) ->
       rd HT (key s) = Some (val_of TEST (all_R Ts) (key s))) /\
  ColBP_I TEST junk g Ts = Some (map (final_stats TEST (all_R Ts)) Ts) /\
  (forall junk', ColBP_I TEST junk' g Ts = ColBP_I TEST junk g Ts).
Proof.
  intros Hin HR0 HS0 n N.
  pose proof Hin as (Hok & HR & HS & HR31 & HS32 & Hpk & Hfk).
  pose proof Hok as (HN & HN1 & HG & _).
  assert (HNpos : 0 < N) by (unfold N; lia).
  assert (Hn0 : 0 <= n) by (unfold n; lia).
  pose proof (Z.mul_div_le n N HNpos) as Hle.
  pose proof (Z.mod_pos_bound n N HNpos) as Hmod.
  pose proof (Z.div_mod n N ltac:(lia)) as Hdm.
  assert (Hq : 0 <= n / N) by (apply Z.div_pos; lia).
  split; [apply ColBP_I_zero_spec; assumption|].
  split; [|split; [|split; [|split; [|split]]]].
  - intros j Hj. unfold zeroed_table. rewrite rd_ztab by lia.
    destruct (Z.ltb_spec j (N * (n / N))); [reflexivity | lia].
  - intros j Hj. unfold zeroed_table. rewrite rd_ztab by lia.
    destruct (Z.ltb_spec j (N * (n / N))); [lia | reflexivity].
  - lia.
  - destruct (ColBP_I_build_spec TEST junk g Ts Hin (zeroed_table junk N n))
      as (HT' & E & Hl & Hh).
    { unfold zeroed_table. apply len_ztab. lia. }
    eexists. exists HT'. split; [exact E|].
    intros s Hs. eapply holds_val_of; eassumption.
  - apply ColBP_I_spec; assumption.
  - intros junk'. rewrite !ColBP_I_spec by assumption. reflexivity.
Qed.

(** ** The scans of Models II and III *)

(** The inner loop of a scan over a run of tuples of partition [p]
    that ends at [end_] or before a tuple of another partition. *)
Lemma scan_run_eq {St} (hash : Z -> option Z) p
    (body : tuple_t -> St -> option St) (run : list tuple_t) :
  forall fuel X Y end_ st,
  (forall t, In t run -> hash (key t) = Some p) ->
  (length run <= fuel)%nat ->
  len X + len run <= end_ ->
  (end_ = len X + len run \/
   exists y Y' h', Y = y :: Y' /\ hash (key y) = Some h' /\ h' <> p) ->
  scan_run fuel (X ++ run ++ Y) (len X) end_ hash p body st
  = (st' <- fold_opt body run st ;; Some (len X + len run, st')).
Proof.
  induction run as [|t run IH]; intros fuel X Y end_ st Hrun Hfuel Hend Hstop.
  - cbn [fold_opt bind app]. rewrite len_nil, Z.add_0_r in *.
    destruct Hstop as [->|(y & Y' & h' & -> & Hy & Hne)].
    + destruct fuel; cbn [scan_run]; rewrite Z.ltb_irrefl; reflexivity.
    + assert (E : scan_run fuel (X ++ y :: Y') (len X) end_ hash p body st
                  = if len X <? end_ then Some (len X, st) else Some (len X, st)).
      { destruct fuel; cbn [scan_run]; destruct (len X <? end_); try reflexivity;
          rewrite rd_mid; cbn [bind]; rewrite Hy; cbn [bind];
          destruct (Z.eqb_spec p h'); congruence. }
      rewrite E. destruct (len X <? end_); reflexivity.
  - rewrite len_cons in Hend.
    destruct fuel as [|fuel]; [cbn [length] in Hfuel; lia|].
    cbn [scan_run]. destruct (Z.ltb_spec (len X) end_) as [_|Hge];
      [|pose proof (len_nonneg run); lia].
    cbn [app]. rewrite rd_mid. cbn [bind].
    rewrite (Hrun t (or_introl eq_refl)). cbn [bind]. rewrite Z.eqb_refl.
    cbn [fold_opt]. destruct (body t st) as [st1|]; cbn [bind]; [|reflexivity].
    replace (X ++ t :: run ++ Y) with ((X ++ [t]) ++ run ++ Y)
      by (rewrite <- app_assoc; reflexivity).
    replace (len X + 1) with (len (X ++ [t]))
      by (rewrite len_app, len_cons, len_nil; lia).
    rewrite IH.
    + rewrite len_app, !len_cons, len_nil.
      destruct (fold_opt body run st1); cbn [bind]; [|reflexivity].
      do 2 f_equal. lia.
    + intros u Hu. apply Hrun. right. assumption.
    + cbn [length] in Hfuel. lia.
    + rewrite len_app, len_cons, len_nil. lia.
    + rewrite len_app, len_cons, len_nil.
      destruct Hstop as [->|Hstop]; [left; rewrite len_cons; lia | right; assumption].
Qed.

Lemma bucket_app hf p l1 l2 :
  bucket hf p (l1 ++ l2) = bucket hf p l1 ++ bucket hf p l2.
Proof. unfold bucket. apply filter_app. Qed.

Lemma bucket_concat hf p (L : list (list tuple_t)) :
  bucket hf p (concat L) = concat (map (bucket hf p) L).
Proof.
  induction L as [|l L IH]; cbn [concat map]; [reflexivity|].
  rewrite bucket_app, IH. reflexivity.
Qed.

Lemma map_ztab {A B} (f : A -> B) (h : Z -> A) n :
  map f (ztab h n) = ztab (fun i => f (h i)) n.
Proof. unfold ztab. rewrite map_map. reflexivity. Qed.

Lemma bucket_In hf p blk t : In t (bucket hf p blk) -> hf t = p /\ In t blk.
Proof.
  unfold bucket. intros H. apply filter_In in H. destruct H as (H1 & H2).
  apply Z.eqb_eq in H2. auto.
Qed.

Lemma In_concat_ztab {A} (f : Z -> list A) n x :
  In x (concat (ztab f n)) -> exists q, 0 <= q < n /\ In x (f q).
Proof.
  intros H. apply in_concat in H. destruct H as (l & Hl & Hx).
  unfold ztab in Hl. apply in_map_iff in Hl. destruct Hl as (k & <- & Hk).
  apply in_seq in Hk. exists (Z.of_nat k). split; [lia | assumption].
Qed.

Lemma ztab_cons {A} (f : Z -> A) k :
  0 <= k -> ztab f (k + 1) = f 0 :: ztab (fun j => f (j + 1)) k.
Proof.
  intros Hk. replace (k + 1) with (1 + k) by lia.
  rewrite ztab_app by lia. change (ztab f 1) with [f 0]. cbn [app].
  f_equal. apply ztab_ext. intros i Hi. f_equal. lia.
Qed.

Section Scan.

Variable hf : tuple_t -> Z.
Variable fanout : Z.
Hypothesis hf_range : forall t, 0 <= hf t < fanout.

Variable hash : Z -> option Z.
Hypothesis hash_hf : forall t, hash (key t) = Some (hf t).

Variables N nb avg rem0 fbs : Z.
Hypothesis HN : N = nb * avg + rem0.
Hypothesis Hrem : 0 <= rem0 < nb.
Hypothesis Havg : 1 <= avg.
Hypothesis Hfbs : fbs = avg + (if 0 <? rem0 then 1 else 0).

Variable T0 : list tuple_t.
Hypothesis HT0 : len T0 = N.

Variables G iters : Z.
Hypothesis HG : 1 <= G.
Hypothesis Hiters : 1 <= iters.
Hypothesis HGi : G * iters = fanout.

Local Abbreviation layout := (ICP_layout hf fanout T0 nb avg rem0).
Local Abbreviation block := (block_of T0 avg rem0).
Local Abbreviation off := (blk_offset N avg rem0 fbs).
Local Abbreviation cpos := (cursor_pos hf T0 N avg rem0 fbs iters).

Lemma ICP_positions_Pos_at :
  ICP_positions hf T0 N nb avg rem0 fbs G iters
  = Pos_at hf T0 N nb avg rem0 fbs G iters (fun _ => 0).
Proof.
  unfold ICP_positions, Pos_at. apply ztab_ext. intros b Hb.
  apply ztab_ext. intros h Hh. unfold sub_block_pos, cursor_pos.
  rewrite Z.add_0_r. reflexivity.
Qed.

(** The scan of partition [p = h * iters + c h] in block [b]. *)
Lemma scan_block_eq {St} (body : tuple_t -> St -> option St) c b h st :
  0 <= b < nb -> 0 <= h < G -> 0 <= c h < iters ->
  scan_run (Z.to_nat (end_ (cpos c b h) - start (cpos c b h))) layout
    (start (cpos c b h)) (end_ (cpos c b h)) hash (h * iters + c h) body st
  = (st' <- fold_opt body (bucket hf (h * iters + c h) (block b)) st ;;
     Some (start (cpos (advance c h) b h), st')).
Proof.
  intros Hb Hh Hc. set (p := h * iters + c h).
  assert (Hp : 0 <= p /\ p + 1 <= (h + 1) * iters /\ (h + 1) * iters <= fanout)
    by (unfold p; nia).
  destruct (layout_block hf fanout hf_range N nb avg rem0 fbs HN Hrem Havg Hfbs
              T0 HT0 b Hb) as (X & Y & Hlay & HX).
  destruct (part_bucket hf fanout (block b) p hf_range ltac:(lia))
    as (X1 & Y1 & Hpart & HX1 & HY1).
  cbn [cursor_pos start end_]. fold p.
  unfold advance. rewrite Z.eqb_refl.
  replace (h * iters + (c h + 1)) with (p + 1) by (unfold p; lia).
  rewrite Hlay, Hpart.
  replace (X ++ (X1 ++ bucket hf p (block b) ++ Y1) ++ Y)
    with ((X ++ X1) ++ bucket hf p (block b) ++ (Y1 ++ Y))
    by (rewrite <- !app_assoc; reflexivity).
  replace (off b + below hf p (block b)) with (len (X ++ X1))
    by (rewrite len_app; lia).
  pose proof (below_succ hf p (block b)) as Hsucc. unfold cnt in Hsucc.
  pose proof (below_mono hf (p + 1) ((h + 1) * iters) (block b) ltac:(lia)) as Hmono.
  rewrite scan_run_eq.
  - rewrite len_app, HX, HX1, Hsucc.
    replace (off b + below hf p (block b) + len (bucket hf p (block b)))
      with (off b + (below hf p (block b) + len (bucket hf p (block b)))) by lia.
    reflexivity.
  - intros t Ht. rewrite hash_hf. f_equal. apply (bucket_In hf p (block b) t Ht).
  - rewrite len_app, HX, HX1. unfold len in *. lia.
  - rewrite len_app, HX, HX1. lia.
  - rewrite len_app, HX, HX1.
    destruct (Z.eq_dec (below hf ((h + 1) * iters) (block b))
                (below hf (p + 1) (block b))) as [E|E]; [left; lia|].
    right. destruct Y1 as [|y Y1'].
    + exfalso. apply E.
      pose proof (f_equal len Hpart) as Hlen.
      rewrite (len_part hf fanout hf_range) in Hlen.
      rewrite !len_app, len_nil in Hlen.
      pose proof (below_le_len hf ((h + 1) * iters) (block b)). lia.
    + exists y, (Y1' ++ Y), (hf y). split; [reflexivity|]. split; [apply hash_hf|].
      assert (Hy : In y (concat (ztab (fun q => bucket hf (p + 1 + q) (block b))
                                   (fanout - p - 1))))
        by (rewrite <- HY1; left; reflexivity).
      apply In_concat_ztab in Hy. destruct Hy as (q & Hq & Hy).
      apply bucket_In in Hy. lia.
Qed.

Section ScanBlocks.

Context {St : Type}.
Variable body : tuple_t -> St -> option St.
Variable c : Z -> Z.
Variable h : Z.
Hypothesis Hh : 0 <= h < G.
Hypothesis Hc : 0 <= c h < iters.

Local Abbreviation p := (h * iters + c h).

(** The positions when the blocks before [b] have been scanned. *)
Definition Pos_mid (b : Z) : list (list block_t) :=
  ztab (fun b' => ztab (cpos (if b' <? b then advance c h else c) b') G) nb.

Definition scan_step (b : Z) (x : list (list block_t) * St)
  : option (list (list block_t) * St) :=
  let '(Blocks, st) := x in
  row <- rd Blocks b ;;
  blk <- rd row h ;;
  '(idx, st') <- scan_run (Z.to_nat (end_ blk - start blk)) layout
                   (start blk) (end_ blk) hash p body st ;;
  row' <- wr row h {| start := idx; end_ := end_ blk |} ;;
  Blocks' <- wr Blocks b row' ;;
  Some (Blocks', st').

Lemma scan_step_eq b st :
  0 <= b < nb ->
  scan_step b (Pos_mid b, st)
  = (st' <- fold_opt body (bucket hf p (block b)) st ;;
     Some (Pos_mid (b + 1), st')).
Proof.
  intros Hb. unfold scan_step, Pos_mid.
  rewrite rd_ztab by assumption. cbn [bind]. rewrite Z.ltb_irrefl.
  rewrite rd_ztab by assumption. cbn [bind].
  rewrite scan_block_eq by assumption.
  destruct (fold_opt body (bucket hf p (block b)) st) as [st'|]; cbn [bind];
    [|reflexivity].
  rewrite wr_ztab by assumption. cbn [bind].
  rewrite wr_ztab by assumption. cbn [bind].
  f_equal. f_equal. apply ztab_ext. intros b' Hb'.
  destruct (Z.eqb_spec b' b) as [->|Hne].
  - destruct (Z.ltb_spec b (b + 1)); [|lia].
    apply ztab_ext. intros j Hj.
    destruct (Z.eqb_spec j h) as [->|Hjh]; [reflexivity|].
    unfold cursor_pos, advance.
    destruct (Z.eqb_spec j h); [contradiction | reflexivity].
  - destruct (Z.ltb_spec b' b); destruct (Z.ltb_spec b' (b + 1)); lia || reflexivity.
Qed.

Lemma scan_loop k : forall b0 st,
  0 <= b0 -> b0 + Z.of_nat k = nb ->
  for_loop k b0 scan_step (Pos_mid b0, st)
  = (st' <- fold_opt body
              (concat (ztab (fun j => bucket hf p (block (b0 + j))) (Z.of_nat k)))
              st ;;
     Some (Pos_mid nb, st')).
Proof.
  induction k as [|k IH]; intros b0 st Hb0 Hk.
  - cbn [for_loop Z.of_nat]. rewrite ztab_0. cbn [concat fold_opt bind].
    replace b0 with nb by lia. reflexivity.
  - cbn [for_loop]. rewrite scan_step_eq by lia.
    rewrite Nat2Z.inj_succ. unfold Z.succ. rewrite ztab_cons by lia.
    cbn [concat]. rewrite fold_opt_app, Z.add_0_r.
    destruct (fold_opt body (bucket hf p (block b0)) st) as [st1|]; cbn [bind];
      [|reflexivity].
    rewrite IH by lia. do 2 f_equal. f_equal. apply ztab_ext. intros j Hj.
    do 2 f_equal. lia.
Qed.

(** A scan of partition [p] over all the blocks takes the tuples of
    [T0] that hash to [p], in their order, and moves the cursors of
    sub-block [h]. *)
Lemma scan_blocks_eq st :
  scan_blocks layout (Pos_at hf T0 N nb avg rem0 fbs G iters c) nb h hash p
    body st
  = (st' <- fold_opt body (bucket hf p T0) st ;;
     Some (Pos_at hf T0 N nb avg rem0 fbs G iters (advance c h), st')).
Proof.
  assert (Hnb : 0 <= nb) by lia.
  unfold scan_blocks, for_range. fold scan_step.
  replace (Pos_at hf T0 N nb avg rem0 fbs G iters c) with (Pos_mid 0).
  2:{ unfold Pos_mid, Pos_at. apply ztab_ext. intros b' Hb'.
      destruct (Z.ltb_spec b' 0); [lia | reflexivity]. }
  rewrite Z.sub_0_r, scan_loop by lia. rewrite Z2Nat.id by lia.
  replace (concat (ztab (fun j => bucket hf p (block (0 + j))) nb))
    with (bucket hf p T0).
  2:{ rewrite <- (blocks_all hf fanout hf_range N nb avg rem0 fbs HN Hrem Havg Hfbs
                    T0 HT0) at 1.
      rewrite bucket_concat, map_ztab. reflexivity. }
  destruct (fold_opt body (bucket hf p T0) st); cbn [bind]; [|reflexivity].
  do 2 f_equal. unfold Pos_mid, Pos_at. apply ztab_ext. intros b' Hb'.
  destruct (Z.ltb_spec b' nb); [reflexivity | lia].
Qed.

End ScanBlocks.

End Scan.

(** ** Sums over the partitions *)

Lemma zsum_0 f : zsum f 0 = 0.
Proof. reflexivity. Qed.

Lemma zsum_succ f n : 0 <= n -> zsum f (n + 1) = zsum f n + f n.
Proof.
  intros Hn. unfold zsum. rewrite ztab_succ by assumption.
  induction (ztab f n) as [|x l IH]; cbn [app fold_right]; lia.
Qed.

Lemma zsum_ext f f' n :
  (forall i, 0 <= i < n -> f i = f' i) -> zsum f n = zsum f' n.
Proof. intros H. unfold zsum. rewrite (ztab_ext f f' n H). reflexivity. Qed.

Lemma fold_right_add_app l1 l2 :
  fold_right Z.add 0 (l1 ++ l2) = fold_right Z.add 0 l1 + fold_right Z.add 0 l2.
Proof. induction l1 as [|x l1 IH]; cbn [app fold_right]; lia. Qed.

Lemma zsum_app f a b :
  0 <= a -> 0 <= b -> zsum f (a + b) = zsum f a + zsum (fun q => f (a + q)) b.
Proof.
  intros Ha Hb. unfold zsum. rewrite ztab_app by assumption.
  apply fold_right_add_app.
Qed.

(** Changing one term of a sum. *)
Lemma zsum_update f f' n h0 :
  0 <= h0 < n -> (forall h, 0 <= h < n -> h <> h0 -> f' h = f h) ->
  zsum f' n = zsum f n + (f' h0 - f h0).
Proof.
  intros Hh Hext. unfold zsum.
  rewrite (ztab_split f n h0 Hh), (ztab_split f' n h0 Hh).
  rewrite !fold_right_add_app. cbn [fold_right].
  rewrite (ztab_ext f' f h0) by (intros i Hi; apply Hext; lia).
  rewrite (ztab_ext (fun q => f' (h0 + 1 + q)) (fun q => f (h0 + 1 + q)))
    by (intros i Hi; apply Hext; lia).
  lia.
Qed.

Lemma zsum_const_0 n : zsum (fun _ => 0) n = 0.
Proof.
  unfold zsum, ztab. induction (seq 0 (Z.to_nat n)) as [|x l IH]; [reflexivity|].
  cbn [map fold_right]. rewrite IH. reflexivity.
Qed.

Lemma done_sum_ext F G iters c c' :
  (forall h, 0 <= h < G -> c h = c' h) ->
  done_sum F G iters c = done_sum F G iters c'.
Proof.
  intros H. unfold done_sum. apply zsum_ext. intros h Hh. rewrite (H h Hh).
  reflexivity.
Qed.

Lemma done_sum_start F G iters c :
  (forall h, 0 <= h < G -> c h = 0) -> done_sum F G iters c = 0.
Proof.
  intros H. unfold done_sum.
  rewrite (zsum_ext _ (fun _ => 0)); [apply zsum_const_0|].
  intros h Hh. rewrite (H h Hh). reflexivity.
Qed.

Lemma done_sum_advance F G iters c h0 :
  0 <= h0 < G -> 0 <= c h0 ->
  done_sum F G iters (advance c h0)
  = done_sum F G iters c + F (h0 * iters + c h0).
Proof.
  intros Hh Hc. unfold done_sum.
  rewrite (zsum_update (fun h => zsum (fun q => F (h * iters + q)) (c h))
             (fun h => zsum (fun q => F (h * iters + q)) (advance c h0 h)) G h0 Hh).
  - unfold advance at 1. rewrite Z.eqb_refl, zsum_succ by assumption. lia.
  - intros h Hh' Hne. unfold advance.
    destruct (Z.eqb_spec h h0); [contradiction | reflexivity].
Qed.

Lemma done_sum_full F G iters c :
  0 <= G -> 0 <= iters -> (forall h, 0 <= h < G -> c h = iters) ->
  done_sum F G iters c = zsum F (G * iters).
Proof.
  intros HG Hi Hc. unfold done_sum.
  rewrite (zsum_ext _ (fun h => zsum (fun q => F (h * iters + q)) iters))
    by (intros h Hh; rewrite (Hc h Hh); reflexivity).
  clear Hc. rewrite <- (Z2Nat.id G HG).
  induction (Z.to_nat G) as [|k IH]; [reflexivity|].
  rewrite Nat2Z.inj_succ. unfold Z.succ. rewrite zsum_succ by lia.
  rewrite IH. replace ((Z.of_nat k + 1) * iters) with (Z.of_nat k * iters + iters) by lia.
  rewrite zsum_app by nia. reflexivity.
Qed.

Lemma wsum_app w l1 l2 : wsum w (l1 ++ l2) = wsum w l1 + wsum w l2.
Proof. unfold wsum. induction l1 as [|t l1 IH]; cbn [app fold_right]; lia. Qed.

Lemma wsum_Permutation w l l' : Permutation l l' -> wsum w l = wsum w l'.
Proof.
  intros H. induction H; cbn [wsum fold_right] in *; try lia.
  unfold wsum in *. lia.
Qed.

Lemma wsum_concat_ztab w (f : Z -> list tuple_t) n :
  wsum w (concat (ztab f n)) = zsum (fun p => wsum w (f p)) n.
Proof.
  unfold zsum, ztab. induction (seq 0 (Z.to_nat n)) as [|x l IH]; [reflexivity|].
  cbn [map concat fold_right]. rewrite wsum_app, IH. reflexivity.
Qed.

(** Summed over the partitions, the weights of the tuples of [l]. *)
Lemma zsum_buckets hf fanout w l :
  (forall t, 0 <= hf t < fanout) ->
  zsum (fun p => wsum w (bucket hf p l)) fanout = wsum w l.
Proof.
  intros Hr. rewrite <- wsum_concat_ztab. fold (part hf fanout l).
  apply wsum_Permutation. apply (part_Permutation hf fanout Hr).
Qed.

Lemma sum_keys_wsum l : sum_keys l = wsum key l.
Proof. reflexivity. Qed.

Lemma sum_vals_wsum TEST R l :
  sum_vals TEST R l = wsum (fun s => val_of TEST R (key s)) l.
Proof. reflexivity. Qed.

Lemma len_wsum (l : list tuple_t) : len l = wsum (fun _ => 1) l.
Proof.
  induction l as [|t l IH]; [reflexivity|].
  rewrite len_cons. cbn [wsum fold_right]. unfold wsum in IH. lia.
Qed.

(** ** The schedule of the sub-blocks *)

Lemma each_thread_rel {St} (f : thread_t -> St -> option (thread_t * St))
    (Inv : nat -> St -> Prop) (cur next : thread_t -> thread_t) :
  forall Ds k0 st,
  Inv k0 st ->
  (forall k D s, nth_error Ds k = Some D -> Inv (k0 + k)%nat s ->
     exists s', f (cur D) s = Some (next D, s') /\ Inv (S (k0 + k)) s') ->
  exists s', each_thread f (map cur Ds) st = Some (map next Ds, s') /\
             Inv (k0 + length Ds)%nat s'.
Proof.
  induction Ds as [|D Ds IH]; intros k0 st HI Hstep.
  - exists st. split; [reflexivity|]. rewrite Nat.add_0_r. assumption.
  - cbn [map each_thread]. destruct (Hstep 0%nat D st eq_refl) as (s1 & E1 & I1).
    { rewrite Nat.add_0_r. assumption. }
    rewrite E1. cbn [bind]. rewrite Nat.add_0_r in I1.
    destruct (IH (S k0) s1 I1) as (s' & E' & I').
    + intros k D' s Hk HIk. replace (S k0 + k)%nat with (k0 + S k)%nat in * by lia.
      apply (Hstep (S k) D' s Hk HIk).
    + rewrite E'. cbn [bind]. exists s'. split; [reflexivity|].
      cbn [length]. replace (k0 + S (length Ds))%nat with (S k0 + length Ds)%nat by lia.
      assumption.
Qed.

Lemma Pos_at_ext hf T N nb avg rem0 fbs G iters c c' :
  (forall h, 0 <= h < G -> c h = c' h) ->
  Pos_at hf T N nb avg rem0 fbs G iters c
  = Pos_at hf T N nb avg rem0 fbs G iters c'.
Proof.
  intros H. unfold Pos_at. apply ztab_ext. intros b Hb.
  apply ztab_ext. intros h Hh. unfold cursor_pos. rewrite (H h Hh). reflexivity.
Qed.

(** The rotation of the sub-blocks among the groups. *)
Lemma rot_mod G gi grp :
  0 <= gi < G -> 0 <= grp < G ->
  0 <= (gi + grp) mod G < G /\ ((gi + grp) mod G - grp) mod G = gi.
Proof.
  intros Hgi Hgrp. split; [apply Z.mod_pos_bound; lia|].
  destruct (Z_lt_le_dec (gi + grp) G) as [L|L].
  - rewrite (Z.mod_small (gi + grp)) by lia.
    replace (gi + grp - grp) with gi by lia. apply Z.mod_small. lia.
  - rewrite <- (Zmod_unique (gi + grp) G 1 (gi + grp - G)) by lia.
    symmetry. apply (Zmod_unique _ G (-1)); lia.
Qed.

Lemma rot_mod_inj G gi grp h :
  0 <= gi < G -> 0 <= grp < G -> 0 <= h < G ->
  (h - grp) mod G = gi -> h = (gi + grp) mod G.
Proof.
  intros Hgi Hgrp Hh E. subst gi.
  destruct (Z_lt_le_dec h grp) as [L|L].
  - rewrite <- (Zmod_unique (h - grp) G (-1) (h - grp + G)) by lia.
    apply (Zmod_unique _ G 1); lia.
  - rewrite (Z.mod_small (h - grp)) by lia.
    replace (h - grp + grp) with h by lia. symmetry. apply Z.mod_small. lia.
Qed.

Lemma cursors_at G i gi grp :
  0 <= gi < G -> 0 <= grp < G ->
  cursors G i gi grp ((gi + grp) mod G) = i.
Proof.
  intros Hgi Hgrp. unfold cursors.
  rewrite (proj2 (rot_mod G gi grp Hgi Hgrp)), Z.ltb_irrefl. lia.
Qed.

Lemma cursors_advance G i gi grp h :
  0 <= gi < G -> 0 <= grp < G -> 0 <= h < G ->
  advance (cursors G i gi grp) ((gi + grp) mod G) h
  = cursors G i (gi + 1) grp h.
Proof.
  intros Hgi Hgrp Hh. unfold advance.
  destruct (Z.eqb_spec h ((gi + grp) mod G)) as [->|Hne].
  - rewrite cursors_at by assumption. unfold cursors.
    rewrite (proj2 (rot_mod G gi grp Hgi Hgrp)).
    destruct (Z.ltb_spec gi (gi + 1)); lia.
  - unfold cursors.
    assert ((h - grp) mod G <> gi)
      by (intros E; apply Hne; apply rot_mod_inj; assumption).
    destruct (Z.ltb_spec ((h - grp) mod G) gi);
      destruct (Z.ltb_spec ((h - grp) mod G) (gi + 1)); lia.
Qed.

Lemma cursors_next G i grp h :
  1 <= G -> cursors G i G grp h = cursors G (i + 1) 0 grp h.
Proof.
  intros HG. unfold cursors.
  pose proof (Z.mod_pos_bound (h - grp) G ltac:(lia)).
  destruct (Z.ltb_spec ((h - grp) mod G) G);
    destruct (Z.ltb_spec ((h - grp) mod G) 0); lia.
Qed.

Lemma cursors_0 G grp h : 1 <= G -> cursors G 0 0 grp h = 0.
Proof.
  intros HG. unfold cursors.
  pose proof (Z.mod_pos_bound (h - grp) G ltac:(lia)).
  destruct (Z.ltb_spec ((h - grp) mod G) 0); lia.
Qed.

(** The tuples the step of sub-block [h] adds to those passed are the
    tuples of partition [h * iters + c h]. *)
Lemma passed_advance hf iters c h t :
  1 <= iters -> 0 <= c h < iters ->
  (passed hf iters (advance c h) t
   <-> passed hf iters c t \/ hf t = h * iters + c h).
Proof.
  intros Hi Hc. unfold passed, advance.
  pose proof (Z.mod_pos_bound (hf t) iters ltac:(lia)) as Hm.
  pose proof (Z.div_mod (hf t) iters ltac:(lia)) as Hdm.
  destruct (Z.eqb_spec (hf t / iters) h) as [E|E].
  - rewrite E in *. split.
    + intros H. destruct (Z.eq_dec (hf t mod iters) (c h)); [right; nia | left; lia].
    + intros [H|H]; [lia|]. assert (hf t mod iters = c h) by nia. lia.
  - split; [auto|]. intros [H|H]; [assumption|]. exfalso. apply E.
    rewrite H. symmetry. apply (Zdiv_unique _ _ _ (c h)); lia.
Qed.

Lemma passed_full hf iters c t :
  1 <= iters -> (forall h, c h = iters) -> passed hf iters c t.
Proof.
  intros Hi Hc. unfold passed. rewrite Hc. apply Z.mod_pos_bound. lia.
Qed.

Lemma map_opt_all {X Y} (f : X -> option Y) (y : X -> Y) (l : list X) :
  (forall x, In x l -> f x = Some (y x)) -> map_opt f l = Some (map y l).
Proof.
  intros H. induction l as [|x l IH]; [reflexivity|].
  cbn [map_opt map]. rewrite (H x (or_introl eq_refl)). cbn [bind].
  rewrite IH by (intros x' Hx'; apply H; right; assumption). reflexivity.
Qed.

(** ** Model III *)

Section ModelIII.

Variable TEST : bool.
Variable junk : Z -> nat -> Z.
Variable g : globals.
Variable Ds : list thread_t.
Hypothesis Hin : join_input g Ds.
Hypothesis HRr : 1 <= Radix_R (Radix g) <= 30.
Hypothesis HS0 : Radix_S (Radix g) = 0.
Hypothesis Hdiv : 2 ^ Radix_R (Radix g) mod num_groups g = 0.
Hypothesis Hshift : 0 <= ModelIII_shift g < 32.
Hypothesis Hne : forall D, In D Ds -> 1 <= size (SubR D).

Local Abbreviation fanout := (2 ^ Radix_R (Radix g)).
Local Abbreviation G := (num_groups g).
Local Abbreviation iters := (2 ^ Radix_R (Radix g) / num_groups g).
Local Abbreviation hf := (hashx (2 ^ Radix_R (Radix g) - 1) (ModelIII_shift g)).
Local Abbreviation n := (RelR_size g + 1).

(** The keys a worker has built when its cursors are at [c]. *)
Definition built_keys (c : Z -> Z) (D : thread_t) : Z :=
  done_sum (fun p => sum_keys (bucket hf p (tuples (SubR D)))) G iters c.

(** A worker of the build of Model III, its cursors at [c]. *)
Definition III_thread (c : thread_t -> Z -> Z) (D : thread_t) : thread_t :=
  set_stats (with_R hf fanout G iters (c D) D) 0 (u64 (built_keys (c D) D)).

Lemma III_facts :
  1 <= G /\ 1 <= iters /\ G * iters = fanout /\ 2 <= fanout <= 2 ^ 30 /\
  (forall t, 0 <= hf t < fanout) /\
  (forall t, HASHx (key t) (fanout - 1) (ModelIII_shift g) = Some (hf t)) /\
  MaskR g = Some (fanout - 1) /\ FanoutR g = Some fanout.
Proof.
  destruct Hin as ((HN & HN1 & HG & _) & _).
  pose proof (pow2_bounds _ HRr) as Hp.
  assert (HGi : G * iters = fanout).
  { pose proof (Z.div_mod fanout G ltac:(lia)) as Hdm. rewrite Hdiv in Hdm. lia. }
  assert (FanoutR g = Some fanout)
    by (unfold FanoutR; apply shl1_spec; lia).
  assert (1 <= iters).
  { destruct (Z_lt_le_dec iters 1) as [L|L]; [|assumption].
    assert (G * iters <= 0) by (apply Z.mul_nonneg_nonpos; lia). lia. }
  repeat split; try lia.
  - apply hashx_range. lia.
  - apply hashx_range. lia.
  - intros t. apply hashx_hash. assumption.
  - unfold MaskR. rewrite H. reflexivity.
  - assumption.
Qed.

Lemma thread_facts k D :
  nth_error Ds k = Some D ->
  tid D = Z.of_nat k /\ 0 <= tid D < Threads_N g /\ 0 <= group D < G /\
  group D = tid D mod G /\
  size (SubR D) = len (tuples (SubR D)) /\ 1 <= size (SubR D) < 2 ^ 32 /\
  size (SubS D) = len (tuples (SubS D)) /\
  incl (tuples (SubR D)) (all_R Ds) /\ incl (tuples (SubS D)) (all_S Ds).
Proof.
  intros Hk. destruct Hin as (Hok & HR & HS & HR31 & HS32 & Hpk & Hfk).
  destruct (threads_ok_nth g Ds k D Hok Hk) as (H1 & H2 & H3 & H4 & H5 & H6 & H7).
  destruct Hok as (_ & _ & HG & _).
  assert (HinD : In D Ds) by (eapply nth_error_In; eassumption).
  assert (Hi : incl (tuples (SubR D)) (all_R Ds))
    by (intros t Ht; eapply In_all_R; eassumption).
  assert (Hs : incl (tuples (SubS D)) (all_S Ds))
    by (intros t Ht; eapply In_all_S; eassumption).
  assert (Hle : len (tuples (SubR D)) <= len (all_R Ds)).
  { unfold len. apply inj_le. apply NoDup_incl_length; [|exact Hi].
    apply (NoDup_map_inv key).
    assert (Hnd : NoDup (map key (all_R Ds))) by (apply primary_key_NoDup; assumption).
    clear - Hnd HinD. unfold all_R in Hnd.
    induction Ds as [|D' Ds' IH]; [destruct HinD|].
    cbn [flat_map] in Hnd. rewrite map_app in Hnd.
    destruct HinD as [->|HinD].
    - eapply NoDup_app_remove_r; eassumption.
    - apply IH; [assumption | eapply NoDup_app_remove_l; eassumption]. }
  pose proof (Hne D HinD).
  pose proof (Z.mod_pos_bound (tid D) G ltac:(lia)).
  change (2 ^ 32) with 4294967296. change (2 ^ 31) with 2147483648 in HR31.
  repeat split; try assumption; try lia.
Qed.

Lemma III_geometry D k :
  nth_error Ds k = Some D ->
  let N := size (SubR D) in
  N = ICP_num_blocks N * ICP_avg N + ICP_rem N /\
  0 <= ICP_rem N < ICP_num_blocks N /\ 1 <= ICP_avg N /\
  ICP_fbs N = ICP_avg N + (if 0 <? ICP_rem N then 1 else 0) /\
  len (tuples (SubR D)) = N.
Proof.
  intros Hk N.
  destruct (thread_facts k D Hk) as (_ & _ & _ & _ & Hsz & HN & _).
  destruct (ICP_geometry N HN) as (Hg1 & Hg2 & Hg3 & _).
  repeat split; try assumption; try lia.
Qed.

(** One build step of one worker. *)
Lemma ColBP_III_build_step k D i gi GT :
  nth_error Ds k = Some D -> 0 <= i < iters -> 0 <= gi < G -> len GT = n ->
  exists GT',
    ColBP_III_build TEST g iters i gi
      (III_thread (fun D => cursors G i gi (group D)) D) GT
    = Some (III_thread (fun D => cursors G i (gi + 1) (group D)) D, GT') /\
    len GT' = n /\
    (forall t, In t (tuples (SubR D)) ->
       hf t = ((gi + group D) mod G) * iters + i ->
       rd GT' (key t) = Some (stored TEST t)) /\
    (forall t, In t (all_R Ds) -> rd GT (key t) = Some (stored TEST t) ->
       rd GT' (key t) = Some (stored TEST t)).
Proof.
  intros Hk Hi Hgi HGT.
  destruct III_facts as (HG & Hit & HGi & Hfan & Hrange & Hhash & HMask & _).
  destruct (thread_facts k D Hk) as (_ & _ & Hgrp & _ & Hsz & HN & _ & Hincl & _).
  destruct (III_geometry D k Hk) as (Hg1 & Hg2 & Hg3 & Hg4 & Hg5).
  pose proof Hin as (_ & HR & _ & HR31 & _ & Hpk & _).
  set (c := cursors G i gi (group D)).
  set (h0 := (gi + group D) mod G).
  destruct (rot_mod G gi (group D) Hgi Hgrp) as (Hh0 & _). fold h0 in Hh0.
  assert (Hc0 : c h0 = i) by (apply cursors_at; assumption).
  assert (Hp : 0 <= h0 * iters + i < fanout) by nia.
  unfold ColBP_III_build, III_thread.
  cbn [with_R set_stats set_SubR scanned_sub scanned_blocks group tid SubR
       BlocksR tuples Pos blocks_N checksum matches size].
  rewrite (u32_small (gi + group D))
    by (change (2 ^ 32) with 4294967296; change (2 ^ 30) with 1073741824 in Hfan; nia).
  unfold c_mod. destruct (Z.eqb_spec G 0) as [E0|_]; [lia|]. cbn [bind].
  fold h0. rewrite (u32_small (h0 * iters + i))
    by (change (2 ^ 32) with 4294967296; change (2 ^ 30) with 1073741824 in Hfan; lia).
  rewrite HMask. cbn [bind]. fold c.
  replace (h0 * iters + i) with (h0 * iters + c h0) by lia.
  rewrite (scan_blocks_eq hf fanout Hrange
             (fun k0 => HASHx k0 (fanout - 1) (ModelIII_shift g)) Hhash
             (size (SubR D)) _ _ _ (ICP_fbs (size (SubR D))) Hg1 Hg2 Hg3 Hg4
             (tuples (SubR D)) Hg5 G iters HG Hit HGi (NOPA_scatter TEST) c h0
             Hh0 ltac:(lia)).
  destruct (NOPA_scatter_fold TEST (all_R Ds)
              (bucket hf (h0 * iters + c h0) (tuples (SubR D))) GT
              (built_keys c D)) as (GT' & E & Hl & Hnew & Hkeep).
  - apply compatible_key. apply primary_key_NoDup. assumption.
  - intros t Ht. apply Hincl. apply (bucket_In _ _ _ _ Ht).
  - apply Forall_forall. intros t Ht.
    pose proof (primary_key_range _ t Hpk (Hincl _ (proj2 (bucket_In _ _ _ _ Ht)))).
    lia.
  - rewrite E. cbn [bind]. exists GT'. split; [|split; [lia|split]].
    + f_equal. f_equal. unfold III_thread, with_R, set_PosR, set_SubR, set_stats.
      cbn [group tid SubR SubS BlocksR BlocksS tuples Pos blocks_N checksum
           matches size scanned_blocks scanned_sub].
      f_equal.
      * unfold scanned_blocks. f_equal.
        apply Pos_at_ext. intros h Hh. apply cursors_advance; assumption.
      * f_equal. unfold built_keys.
        rewrite (done_sum_ext _ G iters (cursors G i (gi + 1) (group D))
                   (advance c h0))
          by (intros h Hh; symmetry; apply cursors_advance; assumption).
        rewrite done_sum_advance by lia. reflexivity.
    + intros t Ht Hhf. apply Hnew. unfold bucket. apply filter_In.
      split; [assumption|]. apply Z.eqb_eq. lia.
    + exact Hkeep.
Qed.

Local Abbreviation curs := (fun i gi (D : thread_t) => cursors G i gi (group D)).

(** The table holds the buckets of the tuples the workers have passed. *)
Definition III_table (c : nat -> thread_t -> Z -> Z) (GT : list Z) : Prop :=
  len GT = n /\
  forall j D t, nth_error Ds j = Some D -> In t (tuples (SubR D)) ->
    passed hf iters (c j D) t -> rd GT (key t) = Some (stored TEST t).

Lemma hf_sub_block t : 0 <= hf t / iters < G.
Proof.
  destruct III_facts as (HG & Hit & HGi & Hfan & Hrange & _).
  pose proof (Hrange t). split; [apply Z.div_pos; lia|].
  apply Z.div_lt_upper_bound; lia.
Qed.

Lemma III_build_phase i gi GT :
  0 <= i < iters -> 0 <= gi < G ->
  III_table (fun _ => curs i gi) GT ->
  exists GT',
    each_thread (ColBP_III_build TEST g iters i gi)
      (map (III_thread (curs i gi)) Ds) GT
    = Some (map (III_thread (curs i (gi + 1))) Ds, GT') /\
    III_table (fun _ => curs i (gi + 1)) GT'.
Proof.
  intros Hi Hgi Htbl.
  destruct III_facts as (HG & Hit & HGi & Hfan & Hrange & _).
  destruct (each_thread_rel (ColBP_III_build TEST g iters i gi)
              (fun k GT => III_table (fun j => if (j <? k)%nat then curs i (gi + 1)
                                               else curs i gi) GT)
              (III_thread (curs i gi)) (III_thread (curs i (gi + 1)))
              Ds 0%nat GT) as (GT' & E & Hl & Hh).
  - exact Htbl.
  - intros k D GTk Hk (Hlen & Hheld). cbn [Nat.add] in *.
    destruct (ColBP_III_build_step k D i gi GTk Hk Hi Hgi Hlen)
      as (GT1 & E1 & Hl1 & Hnew & Hkeep).
    exists GT1. split; [exact E1|]. split; [exact Hl1|].
    destruct (thread_facts k D Hk) as (_ & _ & Hgrp & _).
    intros j D' t Hj Ht Hpass.
    destruct (Nat.eq_dec j k) as [->|Hne'].
    + assert (D' = D) by congruence. subst D'.
      destruct (Nat.ltb_spec k (S k)); [|lia].
      assert (Hadv : passed hf iters (advance (curs i gi D) ((gi + group D) mod G)) t).
      { unfold passed in *. rewrite cursors_advance; auto using hf_sub_block. }
      apply passed_advance in Hadv;
        [|lia|rewrite cursors_at by assumption; lia].
      destruct Hadv as [Hold|Hhf].
      * eapply Hkeep; [eapply In_all_R; eassumption|].
        apply (Hheld k D t Hk Ht). rewrite Nat.ltb_irrefl. exact Hold.
      * apply Hnew; [assumption|]. rewrite Hhf.
        rewrite cursors_at by assumption. reflexivity.
    + eapply Hkeep; [eapply In_all_R; eassumption|].
      apply (Hheld j D' t Hj Ht).
      destruct (Nat.ltb_spec j k); destruct (Nat.ltb_spec j (S k));
        try assumption; lia.
  - exists GT'. split; [exact E|]. split; [exact Hl|].
    intros j D t Hj Ht Hpass. apply (Hh j D t Hj Ht).
    assert (j < length Ds)%nat by (apply nth_error_Some; congruence).
    cbn [Nat.add]. destruct (Nat.ltb_spec j (length Ds)); [assumption | lia].
Qed.

Lemma III_thread_ext c c' D :
  (forall h, 0 <= h < G -> c D h = c' D h) -> III_thread c D = III_thread c' D.
Proof.
  intros H. unfold III_thread, with_R, scanned_blocks, built_keys.
  rewrite (Pos_at_ext _ _ _ _ _ _ _ G iters (c D) (c' D) H).
  rewrite (done_sum_ext _ G iters (c D) (c' D) H). reflexivity.
Qed.

Lemma III_build_iteration i GT :
  0 <= i < iters ->
  III_table (fun _ => curs i 0) GT ->
  exists GT',
    for_range 0 G
      (fun gi '(Ts, GlobalTable) =>
         each_thread (ColBP_III_build TEST g iters i gi) Ts GlobalTable)
      (map (III_thread (curs i 0)) Ds, GT)
    = Some (map (III_thread (curs (i + 1) 0)) Ds, GT') /\
    III_table (fun _ => curs (i + 1) 0) GT'.
Proof.
  intros Hi Htbl.
  destruct III_facts as (HG & Hit & HGi & Hfan & Hrange & _).
  destruct (for_range_inv
              (fun gi (st : list thread_t * list Z) =>
                 fst st = map (III_thread (curs i gi)) Ds /\
                 III_table (fun _ => curs i gi) (snd st))
              (fun gi '(Ts, GlobalTable) =>
                 each_thread (ColBP_III_build TEST g iters i gi) Ts GlobalTable)
              0 G (map (III_thread (curs i 0)) Ds, GT))
    as ((Ts' & GT') & E & HTs & Htbl').
  - lia.
  - split; [reflexivity | exact Htbl].
  - intros gi (Ts1 & GT1) Hgi (HTs1 & Htbl1). cbn [fst snd] in *. subst Ts1.
    destruct (III_build_phase i gi GT1 Hi Hgi Htbl1) as (GT2 & E2 & Htbl2).
    exists (map (III_thread (curs i (gi + 1))) Ds, GT2).
    split; [exact E2|]. split; [reflexivity | exact Htbl2].
  - cbn [fst snd] in *. subst Ts'. exists GT'. split.
    + rewrite E. f_equal. f_equal. apply map_ext. intros D.
      apply III_thread_ext. intros h Hh. apply cursors_next. assumption.
    + destruct Htbl' as (Hlen & Hheld). split; [assumption|].
      intros j D t Hj Ht Hpass. apply (Hheld j D t Hj Ht).
      unfold passed in *. rewrite cursors_next; assumption.
Qed.

Lemma III_build_all GT :
  len GT = n ->
  exists GT',
    for_range 0 iters
      (fun i st =>
         for_range 0 G
           (fun gi '(Ts, GlobalTable) =>
              each_thread (ColBP_III_build TEST g iters i gi) Ts GlobalTable)
           st)
      (map (III_thread (curs 0 0)) Ds, GT)
    = Some (map (III_thread (curs iters 0)) Ds, GT') /\
    len GT' = n /\ holds TEST key GT' (all_R Ds).
Proof.
  intros HGT.
  destruct III_facts as (HG & Hit & HGi & Hfan & Hrange & _).
  destruct (for_range_inv
              (fun i (st : list thread_t * list Z) =>
                 fst st = map (III_thread (curs i 0)) Ds /\
                 III_table (fun _ => curs i 0) (snd st))
              (fun i st =>
                 for_range 0 G
                   (fun gi '(Ts, GlobalTable) =>
                      each_thread (ColBP_III_build TEST g iters i gi) Ts GlobalTable)
                   st)
              0 iters (map (III_thread (curs 0 0)) Ds, GT))
    as ((Ts' & GT') & E & HTs & Htbl').
  - lia.
  - split; [reflexivity|]. split; [assumption|].
    intros j D t Hj Ht Hpass. exfalso. unfold passed in Hpass.
    rewrite cursors_0 in Hpass by assumption.
    pose proof (Z.mod_pos_bound (hf t) iters ltac:(lia)). lia.
  - intros i (Ts1 & GT1) Hi (HTs1 & Htbl1). cbn [fst snd] in *. subst Ts1.
    destruct (III_build_iteration i GT1 Hi Htbl1) as (GT2 & E2 & Htbl2).
    exists (map (III_thread (curs (i + 1) 0)) Ds, GT2).
    split; [exact E2|]. split; [reflexivity | exact Htbl2].
  - cbn [fst snd] in *. subst Ts'. exists GT'. split; [exact E|].
    destruct Htbl' as (Hlen & Hheld). split; [assumption|].
    intros t Ht. apply in_flat_map in Ht. destruct Ht as (D & HD & Ht).
    apply In_nth_error in HD. destruct HD as (j & Hj).
    apply (Hheld j D t Hj Ht). unfold passed, cursors.
    pose proof (Z.mod_pos_bound (hf t / iters - group D) G ltac:(lia)).
    destruct (Z.ltb_spec ((hf t / iters - group D) mod G) 0); [lia|].
    pose proof (Z.mod_pos_bound (hf t) iters ltac:(lia)). lia.
Qed.

(** What a worker of Model III ends with. *)
Definition III_final (D : thread_t) : thread_t :=
  set_stats (with_R hf fanout G iters (curs iters 0 D) D)
    (u64 (len (tuples (SubS D))))
    (u64 (sum_keys (tuples (SubR D))
          + sum_vals TEST (all_R Ds) (tuples (SubS D)))).

Lemma built_keys_all k D :
  nth_error Ds k = Some D ->
  built_keys (curs iters 0 D) D = sum_keys (tuples (SubR D)).
Proof.
  intros Hk.
  destruct III_facts as (HG & Hit & HGi & Hfan & Hrange & _).
  unfold built_keys. rewrite done_sum_full; try lia.
  - rewrite HGi. rewrite (zsum_ext _ (fun p => wsum key (bucket hf p (tuples (SubR D)))))
      by reflexivity.
    rewrite zsum_buckets by assumption. reflexivity.
  - intros h Hh. unfold cursors.
    pose proof (Z.mod_pos_bound (h - group D) G ltac:(lia)).
    destruct (Z.ltb_spec ((h - group D) mod G) 0); lia.
Qed.

Lemma ColBP_III_probe_phase GT :
  holds TEST key GT (all_R Ds) ->
  each_thread (ColBP_III_probe TEST) (map (III_thread (curs iters 0)) Ds) GT
  = Some (map III_final Ds, GT).
Proof.
  intros Hh. pose proof Hin as (Hok & HR & HS & HR31 & HS32 & Hpk & Hfk).
  destruct (each_thread_rel (ColBP_III_probe TEST) (fun _ GT' => GT' = GT)
              (III_thread (curs iters 0)) III_final Ds 0%nat GT)
    as (s' & E & ->).
  - reflexivity.
  - intros k D s Hk ->.
    destruct (thread_facts k D Hk) as (_ & _ & _ & _ & _ & _ & HszS & _ & HinclS).
    unfold ColBP_III_probe, III_thread.
    cbn [with_R set_stats set_SubR SubS matches checksum].
    change 0 with (u64 0) at 2.
    rewrite (NOPA_probe_loop TEST (all_R Ds) GT D 0 _ HszS Hh
               (primary_key_NoDup _ Hpk)).
    + cbn [bind Z.add]. eexists. split; [|reflexivity].
      f_equal. f_equal. unfold III_final, set_stats, with_R, set_SubR.
      cbn [tid group SubR SubS BlocksR BlocksS]. f_equal.
      rewrite (built_keys_all k D Hk). reflexivity.
    + intros s0 Hs0. eapply foreign_key_partner; try eassumption.
      apply HinclS. assumption.
  - exact E.
Qed.

(** Model III over the partitioned R. *)
Lemma ColBP_III_spec :
  ColBP_III TEST junk g (map (with_R hf fanout G iters (fun _ => 0)) Ds)
  = Some (map III_final Ds).
Proof.
  pose proof Hin as (Hok & HR & HS & HR31 & HS32 & Hpk & Hfk).
  destruct III_facts as (HG & Hit & HGi & Hfan & Hrange & Hhash & HMask & HFan).
  unfold ColBP_III, ColBP_III_alloc. rewrite HS0.
  destruct (Z.ltb_spec 0 (Radix_R (Radix g))) as [_|]; [|lia].
  cbn [Z.eqb andb c_assert bind].
  rewrite (map_opt_all (assert_group g) (fun _ => tt)).
  2:{ intros T HT. apply in_map_iff in HT. destruct HT as (D & <- & HD).
      apply In_nth_error in HD. destruct HD as (k & Hk).
      destruct (thread_facts k D Hk) as (_ & _ & _ & Hgrp & _).
      unfold assert_group, c_mod. cbn [with_R set_SubR tid group].
      destruct (Z.eqb_spec G 0) as [E0|_]; [lia|]. cbn [bind].
      rewrite <- Hgrp, Z.eqb_refl. reflexivity. }
  cbn [bind]. rewrite HFan. cbn [bind]. unfold c_div, c_mod.
  destruct (Z.eqb_spec G 0) as [E0|_]; [lia|]. cbn [bind].
  rewrite Hdiv. cbn [Z.eqb c_assert bind].
  assert (Hn : NOPA_HTable_size g = n).
  { unfold NOPA_HTable_size. apply u32_small.
    change (2 ^ 32) with 4294967296. change (2 ^ 31) with 2147483648 in HR31. lia. }
  rewrite Hn, map_map.
  rewrite (map_ext _ (III_thread (curs 0 0))).
  2:{ intros D. unfold III_thread, with_R, scanned_blocks, built_keys.
      rewrite (Pos_at_ext _ _ _ _ _ _ _ G iters (fun _ => 0) (curs 0 0 D))
        by (intros h Hh; symmetry; apply cursors_0; assumption).
      rewrite done_sum_start by (intros h Hh; apply cursors_0; assumption).
      reflexivity. }
  destruct (III_build_all (SafeMalloc junk 0 n)) as (GT' & E & Hl & Hh).
  { apply len_SafeMalloc. lia. }
  rewrite E. cbn [bind]. rewrite (ColBP_III_probe_phase GT' Hh). reflexivity.
Qed.

End ModelIII.

(** ** join/buildprobe_II.c: the cleanup *)

Lemma named_nonneg p t : 0 <= named p t.
Proof. unfold named. lia. Qed.

Lemma named_nil t : named [] t = 0.
Proof. reflexivity. Qed.

Lemma named_app p q t : named (p ++ q) t = named p t + named q t.
Proof. unfold named. rewrite count_occ_app. lia. Qed.

Lemma named_one x t : named [x] t = if t =? x then 1 else 0.
Proof.
  unfold named. cbn [count_occ].
  destruct (Z.eq_dec x t) as [->|Hne].
  - rewrite Z.eqb_refl. reflexivity.
  - destruct (Z.eqb_spec t x); [congruence|reflexivity].
Qed.

Lemma named_snoc p x t :
  named (p ++ [x]) t = named p t + (if t =? x then 1 else 0).
Proof. rewrite named_app, named_one. reflexivity. Qed.

Lemma named_In p t : In t p <-> 1 <= named p t.
Proof.
  unfold named. rewrite (count_occ_In Z.eq_dec). lia.
Qed.

Lemma first_split (t : Z) (l : list Z) :
  In t l -> exists a b, l = a ++ t :: b /\ ~ In t a.
Proof.
  induction l as [|x l IH]; [contradiction|].
  intros H. destruct (Z.eq_dec x t) as [->|Hne].
  - exists [], l. split; [reflexivity|intros []].
  - destruct H as [H|H]; [contradiction|].
    destruct (IH H) as (a & b & -> & Ha).
    exists (x :: a), b. split; [reflexivity|].
    intros [E|E]; [contradiction|exact (Ha E)].
Qed.

Lemma split_prefix (t : Z) (a : list Z) : forall a' b b',
  a ++ t :: b = a' ++ t :: b' -> ~ In t a -> exists c, a' = a ++ c.
Proof.
  induction a as [|x a IH]; intros a' b b' E Ha.
  - exists a'. reflexivity.
  - destruct a' as [|x' a'].
    + cbn in E. injection E as E1 E2. exfalso. apply Ha. left. exact E1.
    + cbn in E. injection E as E1 E2. subst x'.
      destruct (IH a' b b' E2) as (c & ->).
      { intros H. apply Ha. right. exact H. }
      exists c. reflexivity.
Qed.

Section Cleanup.

Variable G : Z.
Variable Ts : list thread_t.

Let N := len Ts.

Hypothesis HG : 1 <= G <= N.
Hypothesis Htable : forall k T, nth_error Ts k = Some T ->
  tid T = Z.of_nat k /\ group T = tid T mod G.

Lemma cleanup_worker t :
  0 <= t < N -> exists T, rd Ts t = Some T /\ tid T = t /\ group T = t mod G.
Proof.
  intros Ht. destruct (rd_lt Ts t Ht) as (T & E). exists T.
  split; [exact E|]. unfold rd in E. destruct (Z.ltb_spec t 0); [lia|].
  destruct (Htable _ _ E) as (H1 & H2). rewrite H2, H1.
  split; [lia|]. f_equal. lia.
Qed.

Lemma cleanup_after_ext p q :
  (forall t, 0 <= t < N -> named q t = named p t) ->
  cleanup_after G N q = cleanup_after G N p.
Proof.
  intros H. unfold cleanup_after. f_equal.
  - rewrite (H 0) by lia. reflexivity.
  - apply ztab_ext. intros g Hg. rewrite (H g) by lia. reflexivity.
  - apply ztab_ext. intros t Ht. rewrite (H t) by lia. reflexivity.
Qed.

(** A line that is taken in order. *)
Lemma cleanup_step_after p t :
  (1 <= t < G -> named p t = 0 -> named p 0 < 2) ->
  ColBP_II_cleanup_step Ts t (cleanup_after G N p)
  = Some (cleanup_after G N (p ++ [t])).
Proof.
  intros Hsafe. unfold ColBP_II_cleanup_step.
  destruct (Z_lt_le_dec t 0) as [Hneg|Hpos].
  { unfold rd at 1. destruct (Z.ltb_spec t 0); [|lia].
    f_equal. symmetry. apply cleanup_after_ext. intros x Hx.
    rewrite named_snoc. destruct (Z.eqb_spec x t); lia. }
  destruct (Z_lt_le_dec t N) as [HtN|HtN].
  2:{ destruct (rd Ts t) as [T|] eqn:E.
      { apply rd_Some_range in E. fold N in E. lia. }
      f_equal. symmetry. apply cleanup_after_ext. intros x Hx.
      rewrite named_snoc. destruct (Z.eqb_spec x t); lia. }
  destruct (cleanup_worker t ltac:(lia)) as (T & ET & Etid & Egrp).
  rewrite ET. cbn [cleanup_after cu_line cu_array cu_tables].
  rewrite rd_ztab by lia.
  pose proof (named_nonneg p t) as Hn0.
  pose proof (named_nonneg p 0) as Hz0.
  rewrite Etid, Egrp.
  destruct (Z.eq_dec (named p t) 0) as [E0|Hne0].
  - (* line 177 *)
    replace (177 + Z.min 2 (named p t)) with 177 by lia.
    change (177 =? 177) with true. cbv iota.
    destruct (Z_lt_le_dec t G) as [HtG|HtG].
    + rewrite Z.mod_small by lia. rewrite Z.eqb_refl.
      assert (Harr : named p 0 < 2).
      { destruct (Z.eq_dec t 0) as [->|]; [lia|]. apply Hsafe; lia. }
      destruct (Z.leb_spec 2 (named p 0)) as [|_]; [lia|].
      cbn [negb c_assert bind]. rewrite rd_ztab by lia. cbn [bind].
      rewrite E0. cbn [Z.leb Z.compare negb c_assert bind].
      rewrite wr_ztab by lia. cbn [bind].
      rewrite wr_ztab by lia. cbn [bind]. f_equal.
      unfold cleanup_after. f_equal.
      * rewrite named_snoc. destruct (Z.eqb_spec 0 t) as [<-|].
        -- destruct (Z.leb_spec 2 (named p 0 + 1)); [lia|reflexivity].
        -- rewrite Z.add_0_r.
           destruct (Z.leb_spec 2 (named p 0)); [lia|reflexivity].
      * apply ztab_ext. intros x Hx. rewrite named_snoc.
        destruct (Z.eqb_spec x t) as [->|].
        -- rewrite E0. reflexivity.
        -- rewrite Z.add_0_r. reflexivity.
      * apply ztab_ext. intros x Hx. rewrite named_snoc.
        destruct (Z.eqb_spec x t) as [->|].
        -- rewrite E0. reflexivity.
        -- rewrite Z.add_0_r. reflexivity.
    + assert (Hmod : t mod G <> t).
      { pose proof (Z.mod_pos_bound t G ltac:(lia)). lia. }
      destruct (Z.eqb_spec t (t mod G)) as [E|_]; [congruence|].
      cbn [bind]. rewrite wr_ztab by lia. cbn [bind]. f_equal.
      unfold cleanup_after. f_equal.
      * rewrite named_snoc. destruct (Z.eqb_spec 0 t); [lia|].
        rewrite Z.add_0_r. reflexivity.
      * apply ztab_ext. intros x Hx. rewrite named_snoc.
        destruct (Z.eqb_spec x t); [lia|]. rewrite Z.add_0_r. reflexivity.
      * apply ztab_ext. intros x Hx. rewrite named_snoc.
        destruct (Z.eqb_spec x t) as [->|].
        -- rewrite E0. reflexivity.
        -- rewrite Z.add_0_r. reflexivity.
  - destruct (Z.eq_dec (named p t) 1) as [E1|Hne1].
    + (* line 178 *)
      replace (177 + Z.min 2 (named p t)) with 178 by lia.
      change (178 =? 177) with false. change (178 =? 178) with true.
      cbv iota.
      destruct (Z.eqb_spec t 0) as [->|Ht0].
      * rewrite E1. cbn [Z.leb Z.compare Pos.compare Pos.compare_cont negb
                         c_assert bind].
        rewrite wr_ztab by lia. cbn [bind]. f_equal.
        unfold cleanup_after. f_equal.
        -- rewrite named_snoc, E1. reflexivity.
        -- apply ztab_ext. intros x Hx. rewrite named_snoc.
           destruct (Z.eqb_spec x 0) as [->|].
           ++ rewrite E1. reflexivity.
           ++ rewrite Z.add_0_r. reflexivity.
        -- apply ztab_ext. intros x Hx. rewrite named_snoc.
           destruct (Z.eqb_spec x 0) as [->|].
           ++ rewrite E1. reflexivity.
           ++ rewrite Z.add_0_r. reflexivity.
      * cbn [bind]. rewrite wr_ztab by lia. cbn [bind]. f_equal.
        unfold cleanup_after. f_equal.
        -- rewrite named_snoc. destruct (Z.eqb_spec 0 t); [lia|].
           rewrite Z.add_0_r. reflexivity.
        -- apply ztab_ext. intros x Hx. rewrite named_snoc.
           destruct (Z.eqb_spec x t) as [->|].
           ++ rewrite E1. reflexivity.
           ++ rewrite Z.add_0_r. reflexivity.
        -- apply ztab_ext. intros x Hx. rewrite named_snoc.
           destruct (Z.eqb_spec x t) as [->|].
           ++ rewrite E1. reflexivity.
           ++ rewrite Z.add_0_r. reflexivity.
    + (* the worker has left *)
      replace (177 + Z.min 2 (named p t)) with 179 by lia.
      change (179 =? 177) with false. change (179 =? 178) with false.
      cbv iota. f_equal.
      change (cleanup_after G N p = cleanup_after G N (p ++ [t])).
      unfold cleanup_after. f_equal.
      * rewrite named_snoc. destruct (Z.eqb_spec 0 t) as [<-|].
        -- destruct (Z.leb_spec 2 (named p 0)),
             (Z.leb_spec 2 (named p 0 + 1)); try lia; reflexivity.
        -- rewrite Z.add_0_r. reflexivity.
      * apply ztab_ext. intros x Hx. rewrite named_snoc.
        destruct (Z.eqb_spec x t) as [->|].
        -- destruct (Z.leb_spec 1 (named p t)),
             (Z.leb_spec 1 (named p t + 1)); try lia; reflexivity.
        -- rewrite Z.add_0_r. reflexivity.
      * apply ztab_ext. intros x Hx. rewrite named_snoc.
        destruct (Z.eqb_spec x t) as [->|].
        -- f_equal. lia.
        -- rewrite Z.add_0_r. reflexivity.
Qed.

(** The first line of a worker of another group, after worker 0 has
    freed the array. *)
Lemma cleanup_step_freed p t :
  1 <= t < G -> named p t = 0 -> 2 <= named p 0 ->
  ColBP_II_cleanup_step Ts t (cleanup_after G N p) = None.
Proof.
  intros Ht E0 Hz. unfold ColBP_II_cleanup_step.
  destruct (cleanup_worker t ltac:(lia)) as (T & ET & Etid & Egrp).
  rewrite ET. cbn [cleanup_after cu_line cu_array cu_tables].
  rewrite rd_ztab by lia.
  replace (177 + Z.min 2 (named p t)) with 177 by lia.
  change (177 =? 177) with true. cbv iota.
  rewrite Etid, Egrp, Z.mod_small by lia. rewrite Z.eqb_refl.
  destruct (Z.leb_spec 2 (named p 0)); [|lia]. reflexivity.
Qed.

Lemma cleanup_run_after order : forall p,
  (forall a t b, order = a ++ t :: b -> 1 <= t < G ->
     named (p ++ a) t = 0 -> named (p ++ a) 0 < 2) ->
  ColBP_II_cleanup_run Ts order (cleanup_after G N p)
  = Some (cleanup_after G N (p ++ order)).
Proof.
  induction order as [|x order IH]; intros p H.
  - rewrite app_nil_r. reflexivity.
  - cbn [ColBP_II_cleanup_run].
    rewrite cleanup_step_after.
    2:{ intros Hx E0. specialize (H [] x order eq_refl Hx).
        rewrite app_nil_r in H. apply H. exact E0. }
    cbn [bind]. rewrite IH.
    + rewrite <- app_assoc. reflexivity.
    + intros a t b E Ht E0. rewrite <- app_assoc in *. cbn [app] in *.
      apply (H (x :: a) t b); [rewrite E; reflexivity|exact Ht|exact E0].
Qed.

Lemma cleanup_run_freed order : forall p,
  (exists a t b, order = a ++ t :: b /\ 1 <= t < G /\
     named (p ++ a) t = 0 /\ 2 <= named (p ++ a) 0) ->
  ColBP_II_cleanup_run Ts order (cleanup_after G N p) = None.
Proof.
  induction order as [|x order IH]; intros p (a & t & b & E & Ht & E0 & Hz).
  - destruct a; discriminate.
  - cbn [ColBP_II_cleanup_run].
    destruct (Z_lt_le_dec x 1) as [Hx|Hx];
      [|destruct (Z_lt_le_dec x G) as [HxG|HxG];
        [destruct (Z.eq_dec (named p x) 0) as [Ex|Ex];
         [destruct (Z_lt_le_dec (named p 0) 2) as [Hp|Hp]|]|]].
    5:{ rewrite cleanup_step_after by lia. cbn [bind]. apply IH.
        destruct a as [|y a].
        { cbn in E. injection E as -> ->. lia. }
        cbn in E. injection E as -> ->. exists a, t, b.
        rewrite <- app_assoc. cbn [app]. auto. }
    4:{ rewrite cleanup_step_after by lia. cbn [bind]. apply IH.
        destruct a as [|y a].
        { cbn in E. injection E as -> ->. rewrite app_nil_r in E0. lia. }
        cbn in E. injection E as -> ->. exists a, t, b.
        rewrite <- app_assoc. cbn [app]. auto. }
    3:{ rewrite cleanup_step_freed by (assumption || lia). reflexivity. }
    2:{ rewrite cleanup_step_after by lia. cbn [bind]. apply IH.
        destruct a as [|y a].
        { cbn in E. injection E as -> ->. rewrite app_nil_r in Hz. lia. }
        cbn in E. injection E as -> ->. exists a, t, b.
        rewrite <- app_assoc. cbn [app]. auto. }
    rewrite cleanup_step_after by lia. cbn [bind]. apply IH.
    destruct a as [|y a].
    { cbn in E. injection E as -> ->. lia. }
    cbn in E. injection E as -> ->. exists a, t, b.
    rewrite <- app_assoc. cbn [app]. auto.
Qed.

Lemma cleanup_start g0 :
  num_groups g0 = G ->
  {| cu_array := false;
     cu_tables := repeat false (Z.to_nat (num_groups g0));
     cu_line := repeat 177 (length Ts) |}
  = cleanup_after G N [].
Proof.
  intros ->. unfold cleanup_after. f_equal.
  - rewrite repeat_ztab. apply ztab_ext. reflexivity.
  - replace (length Ts) with (Z.to_nat N) by (unfold N, len; lia).
    rewrite repeat_ztab. apply ztab_ext. reflexivity.
Qed.

Lemma cleanup_rest_S n :
  cleanup_rest (S n) = cleanup_rest n ++ [Z.of_nat n; Z.of_nat n].
Proof.
  unfold cleanup_rest. rewrite seq_S, flat_map_app. reflexivity.
Qed.

Lemma cleanup_rest_lt n x :
  In x (cleanup_rest n) -> exists j, (j < n)%nat /\ x = Z.of_nat j.
Proof.
  unfold cleanup_rest. intros Hx. apply in_flat_map in Hx.
  destruct Hx as (j & Hj & Hx). apply in_seq in Hj. exists j.
  split; [lia|]. destruct Hx as [<-|[<-|[]]]; reflexivity.
Qed.

Lemma named_not_In p t : ~ In t p -> named p t = 0.
Proof.
  intros H. destruct (Z.eq_dec (named p t) 0) as [E|E]; [exact E|].
  exfalso. apply H. apply named_In. pose proof (named_nonneg p t). lia.
Qed.

Lemma cleanup_rest_named n j :
  (j < n)%nat -> named (cleanup_rest n) (Z.of_nat j) = 2.
Proof.
  induction n as [|n IH]; [lia|]. intros Hj.
  rewrite cleanup_rest_S, named_app.
  change [Z.of_nat n; Z.of_nat n] with ([Z.of_nat n] ++ [Z.of_nat n]).
  rewrite named_app, named_one.
  destruct (Z.eqb_spec (Z.of_nat j) (Z.of_nat n)) as [E|E].
  - apply Nat2Z.inj in E. subst j. rewrite named_not_In; [reflexivity|].
    intros H. apply cleanup_rest_lt in H. destruct H as (k & Hk & Ek). lia.
  - rewrite IH by lia. lia.
Qed.

Lemma split_unique (t : Z) (a a' b b' : list Z) :
  a ++ t :: b = a' ++ t :: b' -> ~ In t a -> ~ In t a' -> a = a'.
Proof.
  intros E Ha Ha'.
  destruct (split_prefix t a a' b b' E Ha) as (c & Ec).
  symmetry in E.
  destruct (split_prefix t a' a b' b E Ha') as (c' & Ec').
  rewrite Ec' in Ec. rewrite <- app_assoc in Ec.
  rewrite <- (app_nil_r a') in Ec at 1. apply app_inv_head in Ec.
  symmetry in Ec. apply app_eq_nil in Ec. destruct Ec as (-> & _).
  rewrite app_nil_r in Ec'. exact Ec'.
Qed.

Lemma cleanup_rest_before n : forall a t b,
  cleanup_rest n = a ++ Z.of_nat t :: b -> ~ In (Z.of_nat t) a ->
  forall k, (k < t)%nat -> named a (Z.of_nat k) = 2.
Proof.
  induction n as [|n IH]; intros a t b E Ha k Hk.
  - destruct a; discriminate.
  - rewrite cleanup_rest_S in E.
    destruct (Nat.lt_ge_cases t n) as [Htn|Htn].
    + (* the place is among the lines of the workers before [n] *)
      assert (Hin : In (Z.of_nat t) (cleanup_rest n)).
      { apply named_In. rewrite cleanup_rest_named by exact Htn. lia. }
      destruct (first_split _ _ Hin) as (a1 & b1 & Ec & Ha1).
      rewrite Ec, <- app_assoc in E. cbn [app] in E.
      pose proof (split_unique _ _ _ _ _ E Ha1 Ha) as <-.
      apply (IH a1 t b1 Ec Ha1 k Hk).
    + (* the place is the first line of worker [n] *)
      assert (Hnot : ~ In (Z.of_nat t) (cleanup_rest n)).
      { intros Hx. apply cleanup_rest_lt in Hx.
        destruct Hx as (j & Hj & Ej). lia. }
      assert (Et : t = n).
      { assert (Hin : In (Z.of_nat t)
                        (cleanup_rest n ++ [Z.of_nat n; Z.of_nat n])).
        { rewrite E. apply in_or_app. right. left. reflexivity. }
        apply in_app_or in Hin. destruct Hin as [Hin|Hin]; [contradiction|].
        destruct Hin as [Hin|[Hin|[]]]; lia. }
      subst t.
      pose proof (split_unique _ _ _ _ _ E Hnot Ha) as <-.
      apply cleanup_rest_named. exact Hk.
Qed.

Lemma cleanup_rest_In n t :
  (t < n)%nat -> In (Z.of_nat t) (cleanup_rest n).
Proof.
  intros Ht. unfold cleanup_rest. apply in_flat_map. exists t.
  split; [apply in_seq; lia|left; reflexivity].
Qed.

Lemma cleanup_rest_range n x :
  In x (cleanup_rest n) -> exists t, x = Z.of_nat t.
Proof.
  unfold cleanup_rest. intros H. apply in_flat_map in H.
  destruct H as (t & _ & [<-|[<-|[]]]); exists t; reflexivity.
Qed.

(** The cleanup ends when the array is read before it is freed. *)
Lemma ColBP_II_cleanup_in_order sched g0 :
  num_groups g0 = G -> frees_in_order G sched ->
  ColBP_II_cleanup sched g0 Ts = Some tt.
Proof.
  intros EG Hord. unfold ColBP_II_cleanup.
  rewrite (cleanup_start g0 EG).
  rewrite cleanup_run_after.
  2:{ intros a t b E Ht E0. cbn [app] in *.
      destruct (Hord t Ht) as (a' & b' & E' & Hz).
      rewrite E in E'.
      destruct (split_prefix t a a' b b' E') as (c & ->).
      { intros H. apply named_In in H. lia. }
      rewrite named_app in Hz. pose proof (named_nonneg c 0). lia. }
  cbn [bind app].
  fold (cleanup_rest (length Ts)).
  rewrite cleanup_run_after; [reflexivity|].
  intros a t b E Ht E0. exfalso.
  destruct (Hord t Ht) as (a' & b' & E' & _).
  rewrite named_app in E0.
  assert (In t sched) by (rewrite E'; apply in_or_app; right; left; reflexivity).
  apply named_In in H. pose proof (named_nonneg a t). lia.
Qed.

Lemma cleanup_run_app a : forall b st,
  ColBP_II_cleanup_run Ts (a ++ b) st
  = bind (ColBP_II_cleanup_run Ts a st) (ColBP_II_cleanup_run Ts b).
Proof.
  induction a as [|x a IH]; intros b st; [reflexivity|].
  cbn [app ColBP_II_cleanup_run].
  destruct (ColBP_II_cleanup_step Ts x st) as [st'|]; [|reflexivity].
  cbn [bind]. apply IH.
Qed.

(** The cleanup stops when the array is freed before it is read. *)
Lemma ColBP_II_cleanup_early sched g0 :
  num_groups g0 = G -> frees_early G sched ->
  ColBP_II_cleanup sched g0 Ts = None.
Proof.
  intros EG (t & Ht & Hearly). unfold ColBP_II_cleanup.
  rewrite (cleanup_start g0 EG). fold (cleanup_rest (length Ts)).
  assert (E : ColBP_II_cleanup_run Ts (sched ++ cleanup_rest (length Ts))
                (cleanup_after G N []) = None).
  { apply cleanup_run_freed. cbn [app].
    destruct (in_dec Z.eq_dec t sched) as [Hin|Hnin].
    - (* the worker is named too late *)
      destruct (first_split t sched Hin) as (a & b & E & Ha).
      exists a, t, (b ++ cleanup_rest (length Ts)).
      split; [rewrite E, <- app_assoc; reflexivity|]. split; [exact Ht|].
      split; [|apply (Hearly a b E)].
      destruct (Z.eq_dec (named a t) 0) as [E0|E0]; [exact E0|].
      exfalso. apply Ha. apply named_In. pose proof (named_nonneg a t). lia.
    - (* the worker is not named *)
      assert (Hin : In t (cleanup_rest (length Ts))).
      { replace t with (Z.of_nat (Z.to_nat t)) by lia.
        apply cleanup_rest_In. unfold N, len in HG. lia. }
      destruct (first_split t _ Hin) as (a & b & E & Ha).
      exists (sched ++ a), t, b.
      split; [rewrite E, <- app_assoc; reflexivity|]. split; [exact Ht|].
      assert (E0 : named a t = 0).
      { destruct (Z.eq_dec (named a t) 0) as [E0|E0]; [exact E0|].
        exfalso. apply Ha. apply named_In.
        pose proof (named_nonneg a t). lia. }
      assert (Es : named sched t = 0).
      { destruct (Z.eq_dec (named sched t) 0) as [E1|E1]; [exact E1|].
        exfalso. apply Hnin. apply named_In.
        pose proof (named_nonneg sched t). lia. }
      rewrite !named_app. split; [lia|].
      pose proof (named_nonneg sched 0).
      replace t with (Z.of_nat (Z.to_nat t)) in E, Ha by lia.
      pose proof (cleanup_rest_before _ _ _ _ E Ha 0%nat ltac:(lia)) as H0.
      change (Z.of_nat 0) with 0 in H0. lia. }
  rewrite cleanup_run_app in E.
  destruct (ColBP_II_cleanup_run Ts sched (cleanup_after G N []))
    as [st|]; [|reflexivity].
  cbn [bind] in *. rewrite E. reflexivity.
Qed.

End Cleanup.

Lemma fold_opt_ext {X St} (f f' : X -> St -> option St) l st :
  (forall x s, f x s = f' x s) -> fold_opt f l st = fold_opt f' l st.
Proof.
  intros H. revert st. induction l as [|x l IH]; intros st; [reflexivity|].
  cbn [fold_opt]. rewrite H. destruct (f' x st); cbn [bind]; auto.
Qed.

Lemma shr32_ok k n : 0 <= n < 32 -> shr32 k n = Some (Z.shiftr k n).
Proof.
  intros H. unfold shr32.
  assert (E : (0 <=? n) && (n <? 32) = true)
    by (apply andb_true_iff; split; [apply Z.leb_le | apply Z.ltb_lt]; lia).
  rewrite E. reflexivity.
Qed.

Lemma CPRA_scatter_fold TEST radix U l HT cs :
  0 <= radix < 32 ->
  compatible TEST (CPRA_cell radix) U -> incl l U ->
  Forall (fun t => 0 <= CPRA_cell radix t < len HT) l ->
  exists HT',
    fold_opt (CPRA_scatter TEST radix) l (HT, u64 cs)
    = Some (HT', u64 (cs + sum_keys l)) /\
    len HT' = len HT /\
    (forall t, In t l -> rd HT' (CPRA_cell radix t) = Some (stored TEST t)) /\
    (forall t, In t U -> rd HT (CPRA_cell radix t) = Some (stored TEST t) ->
       rd HT' (CPRA_cell radix t) = Some (stored TEST t)).
Proof.
  intros Hr HU Hincl Hb.
  destruct (scatter_fold_keeps TEST (CPRA_cell radix) U l HT cs HU Hincl Hb)
    as (HT' & E & H).
  exists HT'. split; [|exact H]. rewrite <- E. apply fold_opt_ext.
  intros t (HT0 & cs0). unfold CPRA_scatter. rewrite shr32_ok by assumption.
  reflexivity.
Qed.

Lemma CPRA_gather_fold TEST R shift HT l : forall m cs,
  0 <= shift < 32 -> NoDup (map key R) ->
  (forall s, In s l ->
     exists t, In t R /\ key t = key s /\
               rd HT (CPRA_cell shift s) = Some (stored TEST t)) ->
  fold_opt (CPRA_gather TEST shift HT) l (u64 m, u64 cs)
  = Some (u64 (m + len l), u64 (cs + sum_vals TEST R l)).
Proof.
  induction l as [|s l IH]; intros m cs Hs HND Hex.
  - cbn [fold_opt sum_vals fold_right]. rewrite len_nil, !Z.add_0_r. reflexivity.
  - destruct (Hex s (or_introl eq_refl)) as (t & Hin & Ek & Hrd).
    cbn [fold_opt]. unfold CPRA_gather at 1. rewrite shr32_ok by assumption.
    cbn [bind]. unfold CPRA_cell in Hrd. rewrite Hrd. cbn [bind].
    assert (Ev : stored TEST t = val_of TEST R (key s)).
    { rewrite <- Ek. symmetry. apply val_of_In; assumption. }
    assert (Em : count_match TEST (key s) (stored TEST t) (u64 m) = u64 (m + 1)).
    { unfold count_match, stored. destruct TEST.
      - rewrite Ek, Z.eqb_refl. apply u64_add_l.
      - apply u64_add_l. }
    rewrite Em, u64_add_l, Ev.
    rewrite IH; try assumption.
    + f_equal. f_equal.
      * f_equal. rewrite len_cons. lia.
      * f_equal. cbn [sum_vals fold_right]. fold (sum_vals TEST R l). lia.
    + intros s' Hs'. apply Hex. right. assumption.
Qed.

(** A key is its cell and its partition. *)
Lemma key_cell_hash radix t :
  0 <= radix ->
  key t = CPRA_cell radix t * 2 ^ radix + hashx (2 ^ radix - 1) 0 t.
Proof.
  intros Hr. unfold CPRA_cell, hashx.
  rewrite Z.shiftr_0_r, Z.shiftr_div_pow2 by assumption.
  replace (2 ^ radix - 1) with (Z.ones radix)
    by (rewrite Z.ones_equiv; lia).
  rewrite Z.land_ones by assumption.
  pose proof (Z.div_mod (key t) (2 ^ radix)
                ltac:(pose proof (Z.pow_pos_nonneg 2 radix); lia)). lia.
Qed.

(** The tuples of R of one partition do not collide in a table. *)
Lemma compatible_cell TEST radix R p :
  0 <= radix -> NoDup (map key R) ->
  compatible TEST (CPRA_cell radix) (bucket (hashx (2 ^ radix - 1) 0) p R).
Proof.
  intros Hr HND t t' Ht Ht' E.
  apply bucket_In in Ht, Ht'. destruct Ht as (Hp & Ht), Ht' as (Hp' & Ht').
  f_equal. apply (NoDup_key_inj R); try assumption.
  rewrite (key_cell_hash radix t), (key_cell_hash radix t') by assumption.
  congruence.
Qed.

Lemma memset0_len (Table : list Z) off cnt :
  0 <= off -> 0 <= cnt -> off + cnt <= len Table ->
  exists Table', memset0 Table off cnt = Some Table' /\ len Table' = len Table.
Proof.
  intros Hoff Hcnt Hle. unfold memset0.
  apply (for_range_inv (fun _ T' => len T' = len Table)); [lia | reflexivity|].
  intros j s Hj Hs. destruct (wr_lt s j 0 ltac:(lia)) as (s' & E).
  exists s'. split; [exact E|]. rewrite (wr_len _ _ _ _ E). assumption.
Qed.

Lemma pcursors_0 G i grp h : 1 <= G -> pcursors G i 0 grp h = i.
Proof.
  intros HG. unfold pcursors.
  pose proof (Z.mod_pos_bound (h - grp) G ltac:(lia)).
  destruct (Z.leb_spec (G - 0) ((h - grp) mod G)); lia.
Qed.

Lemma pcursors_G G i grp h : 1 <= G -> pcursors G i G grp h = i + 1.
Proof.
  intros HG. unfold pcursors.
  pose proof (Z.mod_pos_bound (h - grp) G ltac:(lia)).
  destruct (Z.leb_spec (G - G) ((h - grp) mod G)); lia.
Qed.

Lemma pcursors_at G i j grp :
  0 <= j < G -> 0 <= grp < G ->
  pcursors G i j grp ((G - 1 - j + grp) mod G) = i.
Proof.
  intros Hj Hgrp. unfold pcursors.
  rewrite (proj2 (rot_mod G (G - 1 - j) grp ltac:(lia) Hgrp)).
  destruct (Z.leb_spec (G - j) (G - 1 - j)); lia.
Qed.

Lemma pcursors_advance G i j grp h :
  0 <= j < G -> 0 <= grp < G -> 0 <= h < G ->
  advance (pcursors G i j grp) ((G - 1 - j + grp) mod G) h
  = pcursors G i (j + 1) grp h.
Proof.
  intros Hj Hgrp Hh. unfold advance.
  destruct (Z.eqb_spec h ((G - 1 - j + grp) mod G)) as [->|Hne].
  - rewrite pcursors_at by assumption. unfold pcursors.
    rewrite (proj2 (rot_mod G (G - 1 - j) grp ltac:(lia) Hgrp)).
    destruct (Z.leb_spec (G - (j + 1)) (G - 1 - j)); lia.
  - unfold pcursors.
    assert ((h - grp) mod G <> G - 1 - j)
      by (intros E; apply Hne; apply rot_mod_inj; assumption || lia).
    destruct (Z.leb_spec (G - j) ((h - grp) mod G));
      destruct (Z.leb_spec (G - (j + 1)) ((h - grp) mod G)); lia.
Qed.

(** ** Model II *)

Section ModelII.

Variable TEST : bool.
Variable junk : Z -> nat -> Z.
Variable g : globals.
Variable Ds : list thread_t.
Hypothesis Hin : join_input g Ds.
Hypothesis HRr : 1 <= Radix_R (Radix g) <= 30.
Hypothesis HRS : Radix_S (Radix g) = Radix_R (Radix g).
Hypothesis Hdiv : 2 ^ Radix_R (Radix g) mod num_groups g = 0.
Hypothesis HGN : num_groups g <= Threads_N g.
Hypothesis HneR : forall D, In D Ds -> 1 <= size (SubR D).
Hypothesis HneS : forall D, In D Ds -> 1 <= size (SubS D).

Local Abbreviation radix := (Radix_R (Radix g)).
Local Abbreviation fanout := (2 ^ Radix_R (Radix g)).
Local Abbreviation G := (num_groups g).
Local Abbreviation iters := (2 ^ Radix_R (Radix g) / num_groups g).
Local Abbreviation hf := (hashx (2 ^ Radix_R (Radix g) - 1) 0).
Local Abbreviation sz :=
  (next_pow2 (RelR_size g / 2 ^ Radix_R (Radix g) + 1)).
Local Abbreviation cell := (CPRA_cell (Radix_R (Radix g))).

Lemma II_facts :
  1 <= G /\ 1 <= iters /\ G * iters = fanout /\ 2 <= fanout <= 2 ^ 30 /\
  (forall t, 0 <= hf t < fanout) /\
  (forall t, (fun k => Some (HASH k (fanout - 1))) (key t) = Some (hf t)) /\
  MaskR g = Some (fanout - 1) /\ MaskS g = Some (fanout - 1) /\
  FanoutR g = Some fanout /\ CPRA_HTable_size g = Some sz /\ 1 <= sz.
Proof.
  destruct Hin as ((HN & HN1 & HG & _) & _ & _ & HR31 & _).
  pose proof (pow2_bounds _ HRr) as Hp.
  assert (HGi : G * iters = fanout).
  { pose proof (Z.div_mod fanout G ltac:(lia)) as Hdm. rewrite Hdiv in Hdm. lia. }
  assert (HF : FanoutR g = Some fanout)
    by (unfold FanoutR; apply shl1_spec; lia).
  assert (1 <= iters).
  { destruct (Z_lt_le_dec iters 1) as [L|L]; [|assumption].
    assert (G * iters <= 0) by (apply Z.mul_nonneg_nonpos; lia). lia. }
  assert (Hsz : 1 <= sz).
  { unfold next_pow2.
    pose proof (Z.log2_up_nonneg (RelR_size g / fanout + 1)).
    pose proof (Z.pow_pos_nonneg 2 (Z.log2_up (RelR_size g / fanout + 1))). lia. }
  assert (Hrng : forall t, 0 <= hf t < fanout)
    by (intros t; apply hashx_range; lia).
  assert (Hhash : forall t, Some (HASH (key t) (fanout - 1)) = Some (hf t))
    by (intros t; unfold HASH, hashx; rewrite Z.shiftr_0_r; reflexivity).
  assert (HMR : MaskR g = Some (fanout - 1))
    by (unfold MaskR; rewrite HF; reflexivity).
  assert (HMS : MaskS g = Some (fanout - 1))
    by (unfold MaskS; rewrite HF; reflexivity).
  assert (HCP : CPRA_HTable_size g = Some sz)
    by (apply CPRA_HTable_size_spec; lia).
  repeat (split; [first [assumption | lia]|]). assumption.
Qed.

Lemma II_thread_facts k D :
  nth_error Ds k = Some D ->
  tid D = Z.of_nat k /\ 0 <= tid D < Threads_N g /\ 0 <= group D < G /\
  group D = tid D mod G /\
  size (SubR D) = len (tuples (SubR D)) /\ 1 <= size (SubR D) < 2 ^ 32 /\
  size (SubS D) = len (tuples (SubS D)) /\ 1 <= size (SubS D) < 2 ^ 32 /\
  incl (tuples (SubR D)) (all_R Ds) /\ incl (tuples (SubS D)) (all_S Ds).
Proof.
  intros Hk. destruct Hin as (Hok & HR & HS & HR31 & HS32 & Hpk & Hfk).
  destruct (threads_ok_nth g Ds k D Hok Hk) as (H1 & H2 & H3 & H4 & H5 & H6 & H7).
  destruct Hok as (_ & _ & HG & _).
  assert (HinD : In D Ds) by (eapply nth_error_In; eassumption).
  assert (Hi : incl (tuples (SubR D)) (all_R Ds))
    by (intros t Ht; eapply In_all_R; eassumption).
  assert (Hs : incl (tuples (SubS D)) (all_S Ds))
    by (intros t Ht; eapply In_all_S; eassumption).
  assert (HleS : len (tuples (SubS D)) <= len (all_S Ds)).
  { clear - HinD. unfold all_S. induction Ds as [|D' Ds' IH]; [destruct HinD|].
    cbn [flat_map]. rewrite len_app.
    pose proof (len_nonneg (tuples (SubS D'))).
    pose proof (len_nonneg (flat_map (fun T => tuples (SubS T)) Ds')).
    destruct HinD as [->|HinD]; [lia|]. specialize (IH HinD). lia. }
  assert (HleR : len (tuples (SubR D)) <= len (all_R Ds)).
  { clear - HinD. unfold all_R. induction Ds as [|D' Ds' IH]; [destruct HinD|].
    cbn [flat_map]. rewrite len_app.
    pose proof (len_nonneg (tuples (SubR D'))).
    pose proof (len_nonneg (flat_map (fun T => tuples (SubR T)) Ds')).
    destruct HinD as [->|HinD]; [lia|]. specialize (IH HinD). lia. }
  pose proof (HneR D HinD). pose proof (HneS D HinD).
  pose proof (Z.mod_pos_bound (tid D) G ltac:(lia)).
  change (2 ^ 32) with 4294967296 in *. change (2 ^ 31) with 2147483648 in HR31.
  repeat split; try assumption; try lia.
Qed.

(** The allocation of the tables. *)
Lemma ColBP_II_alloc_phase Ts :
  threads_ok g Ts ->
  exists HTables,
    each_thread (ColBP_II_alloc junk sz) Ts (repeat [] (Z.to_nat G))
    = Some (Ts, HTables) /\ tables_ok G sz HTables.
Proof.
  intros Hok. destruct II_facts as (HG & _ & _ & _ & _ & _ & _ & _ & _ & _ & Hsz).
  pose proof Hok as (HNT & _).
  destruct (each_thread_phase (ColBP_II_alloc junk sz)
              (fun k HTs => len HTs = G /\
                 forall h, 0 <= h < G -> h < Z.of_nat k ->
                   exists HT, rd HTs h = Some HT /\ len HT = sz)
              (fun T => T) Ts (repeat [] (Z.to_nat G))) as (HTs & E & Hl & Hh).
  - split; [unfold len; rewrite repeat_length; lia|]. intros h Hh Hk. lia.
  - intros k T HTs Hk (Hlen & Hall).
    destruct (threads_ok_nth g Ts k T Hok Hk) as (Htid & Hlt & Hgrp & _).
    unfold ColBP_II_alloc.
    destruct (Z.eqb_spec (tid T) (group T)) as [Eg|Eg].
    + assert (Hk' : 0 <= Z.of_nat k < G).
      { pose proof (Z.mod_pos_bound (tid T) G ltac:(lia)). lia. }
      destruct (wr_lt HTs (group T) (SafeMalloc junk (group T) sz) ltac:(lia))
        as (HTs' & Ew).
      rewrite Ew. cbn [bind]. exists HTs'. split; [reflexivity|].
      split; [rewrite (wr_len _ _ _ _ Ew); assumption|].
      intros h Hh Hhk. destruct (Z.eq_dec h (group T)) as [->|Hne].
      * rewrite (rd_wr_eq _ _ _ _ Ew). eexists. split; [reflexivity|].
        apply len_SafeMalloc. lia.
      * rewrite (rd_wr_neq _ _ _ _ _ Ew) by congruence. apply Hall; lia.
    + exists HTs. split; [reflexivity|]. split; [assumption|].
      intros h Hh Hhk. apply Hall; [assumption|].
      assert (h <> Z.of_nat k); [|lia].
      intros ->. apply Eg. rewrite Hgrp, Htid. symmetry. apply Z.mod_small. lia.
  - exists HTs. rewrite map_id in E. split; [exact E|]. split; [exact Hl|].
    intros h Hh0. apply Hh; [assumption|]. unfold len in HNT. lia.
Qed.

(** The zeroing of the tables. *)
Lemma ColBP_II_zero_phase Ts HTables :
  threads_ok g Ts -> tables_ok G sz HTables ->
  exists HTables',
    each_thread (ColBP_II_zero g sz) Ts HTables = Some (Ts, HTables') /\
    tables_ok G sz HTables'.
Proof.
  intros Hok Htb. destruct II_facts as (HG & _ & _ & Hfan & _ & _ & _ & _ & _ & _ & Hsz).
  destruct Hin as (_ & _ & _ & HR31 & _).
  assert (HG30 : G <= 2 ^ 30).
  { pose proof (Z.div_mod fanout G ltac:(lia)) as Hdm. rewrite Hdiv in Hdm.
    assert (1 <= fanout / G); [|nia].
    destruct (Z_lt_le_dec (fanout / G) 1) as [L|L]; [|assumption].
    assert (G * (fanout / G) <= 0) by (apply Z.mul_nonneg_nonpos; lia). lia. }
  change (2 ^ 30) with 1073741824 in HG30.
  destruct (each_thread_phase (ColBP_II_zero g sz)
              (fun _ HTs => tables_ok G sz HTs)
              (fun T => T) Ts HTables) as (HTs & E & Hh).
  - assumption.
  - intros k T HTs Hk Htbk.
    destruct (threads_ok_nth g Ts k T Hok Hk) as (Htid & Hlt & _).
    unfold ColBP_II_zero.
    match goal with
    | |- context [for_range 0 G ?body HTs] =>
        destruct (for_range_inv (fun _ HTs' => tables_ok G sz HTs') body 0 G HTs)
          as (HTs' & E' & Htb')
    end.
    + lia.
    + assumption.
    + intros gi HTs0 Hgi (Hlen0 & Hall0).
      destruct (Hall0 gi Hgi) as (Table & Erd & HlT).
      cbn zeta. rewrite Erd. cbn [bind].
      rewrite (u32_small (G * 2)) by (change (2 ^ 32) with 4294967296; lia).
      unfold c_div. destruct (Z.eqb_spec (G * 2) 0) as [|_]; [lia|]. cbn [bind].
      destruct (Z.ltb_spec (tid T) (G * 2)) as [Ht|Ht].
      * assert (Hq : 0 <= sz / (G * 2)) by (apply Z.div_pos; lia).
        assert (Hm : (G * 2) * (sz / (G * 2)) <= sz) by (apply Z.mul_div_le; lia).
        assert (Hsz32 : sz <= 2 ^ 30).
        { assert (0 <= RelR_size g / fanout) by (apply Z.div_pos; lia).
          assert (RelR_size g / fanout < 2 ^ 30).
          { apply Z.div_lt_upper_bound; [lia|].
            change (2 ^ 31) with 2147483648 in HR31.
            change (2 ^ 30) with 1073741824. nia. }
          unfold next_pow2. apply Z.pow_le_mono_r; [lia|].
          apply Z.log2_up_le_pow2; lia. }
        change (2 ^ 30) with 1073741824 in Hsz32.
        rewrite u32_small by (change (2 ^ 32) with 4294967296; nia).
        destruct (memset0_len Table (tid T * (sz / (G * 2))) (sz / (G * 2)))
          as (Table' & Em & HlT'); [nia | lia | nia |].
        rewrite Em. cbn [bind].
        destruct (wr_lt HTs0 gi Table' ltac:(lia)) as (HTs1 & Ew).
        exists HTs1. split; [exact Ew|].
        split; [rewrite (wr_len _ _ _ _ Ew); assumption|].
        intros h Hh. destruct (Z.eq_dec h gi) as [->|Hne].
        -- rewrite (rd_wr_eq _ _ _ _ Ew). exists Table'. split; [reflexivity|lia].
        -- rewrite (rd_wr_neq _ _ _ _ _ Ew) by congruence. apply Hall0. assumption.
      * exists HTs0. split; [reflexivity|]. split; assumption.
    + rewrite E'. cbn [bind]. exists HTs'. split; [reflexivity | assumption].
  - exists HTs. rewrite map_id in E. split; assumption.
Qed.

Local Abbreviation curs := (fun i gi (D : thread_t) => cursors G i gi (group D)).
Local Abbreviation pcurs := (fun i j (D : thread_t) => pcursors G i j (group D)).

(** The keys a worker has built, and the tuples and buckets it has
    probed, when its cursors are at [c]. *)
Definition II_built (c : Z -> Z) (D : thread_t) : Z :=
  done_sum (fun p => sum_keys (bucket hf p (tuples (SubR D)))) G iters c.
Definition probed_len (c : Z -> Z) (D : thread_t) : Z :=
  done_sum (fun p => len (bucket hf p (tuples (SubS D)))) G iters c.
Definition probed_vals (c : Z -> Z) (D : thread_t) : Z :=
  done_sum (fun p => sum_vals TEST (all_R Ds) (bucket hf p (tuples (SubS D))))
    G iters c.

(** A worker of Model II, its cursors in R at [cR] and in S at [cS]. *)
Definition II_thread (cR cS : thread_t -> Z -> Z) (D : thread_t) : thread_t :=
  set_stats
    (with_S hf fanout G iters (cS D) (with_R hf fanout G iters (cR D) D))
    (u64 (probed_len (cS D) D))
    (u64 (II_built (cR D) D + probed_vals (cS D) D)).

(** Table [h] holds the buckets of the tuples of partition
    [h * iters + i] the workers have passed. *)
Definition II_tables (cR : nat -> thread_t -> Z -> Z) (i : Z)
    (HTables : list (list Z)) : Prop :=
  tables_ok G sz HTables /\
  forall h HT, 0 <= h < G -> rd HTables h = Some HT ->
    forall j D t, nth_error Ds j = Some D -> In t (tuples (SubR D)) ->
      hf t = h * iters + i -> i < cR j D h ->
      rd HT (cell t) = Some (stored TEST t).

Lemma II_geometry (Sub : relation_t) :
  size Sub = len (tuples Sub) -> 1 <= size Sub < 2 ^ 32 ->
  let N := size Sub in
  N = ICP_num_blocks N * ICP_avg N + ICP_rem N /\
  0 <= ICP_rem N < ICP_num_blocks N /\ 1 <= ICP_avg N /\
  ICP_fbs N = ICP_avg N + (if 0 <? ICP_rem N then 1 else 0) /\
  len (tuples Sub) = N.
Proof.
  intros Hsz HN N.
  destruct (ICP_geometry N HN) as (Hg1 & Hg2 & Hg3 & _).
  repeat split; try assumption; try lia.
Qed.

Lemma II_cell_range t :
  In t (all_R Ds) -> 0 <= cell t < sz.
Proof.
  intros Ht. destruct Hin as (_ & HR & _ & HR31 & _ & Hpk & _).
  pose proof (primary_key_range _ t Hpk Ht).
  apply shiftr_key_bound; lia.
Qed.

(** One build step of one worker. *)
Lemma ColBP_II_build_step cS k D i gi HTables :
  nth_error Ds k = Some D -> 0 <= i < iters -> 0 <= gi < G ->
  tables_ok G sz HTables ->
  exists HT HT' HTables',
    rd HTables ((gi + group D) mod G) = Some HT /\
    wr HTables ((gi + group D) mod G) HT' = Some HTables' /\
    ColBP_II_build TEST g iters i gi (II_thread (curs i gi) cS D) HTables
    = Some (II_thread (curs i (gi + 1)) cS D, HTables') /\
    len HT' = sz /\
    (forall t, In t (tuples (SubR D)) ->
       hf t = ((gi + group D) mod G) * iters + i ->
       rd HT' (cell t) = Some (stored TEST t)) /\
    (forall t, In t (all_R Ds) ->
       hf t = ((gi + group D) mod G) * iters + i ->
       rd HT (cell t) = Some (stored TEST t) ->
       rd HT' (cell t) = Some (stored TEST t)).
Proof.
  intros Hk Hi Hgi (Hlen & Hall).
  destruct II_facts as (HG & Hit & HGi & Hfan & Hrange & Hhash & HMask & _).
  destruct (II_thread_facts k D Hk)
    as (_ & _ & Hgrp & _ & Hsz & HN & _ & _ & Hincl & _).
  destruct (II_geometry (SubR D) Hsz HN) as (Hg1 & Hg2 & Hg3 & Hg4 & Hg5).
  pose proof Hin as (_ & HR & _ & HR31 & _ & Hpk & _).
  set (c := cursors G i gi (group D)).
  set (h0 := (gi + group D) mod G).
  destruct (rot_mod G gi (group D) Hgi Hgrp) as (Hh0 & _). fold h0 in Hh0.
  assert (Hc0 : c h0 = i) by (apply cursors_at; assumption).
  assert (Hp : 0 <= h0 * iters + i < fanout) by nia.
  destruct (Hall h0 Hh0) as (HT & Erd & HlHT).
  unfold ColBP_II_build, II_thread.
  cbn [with_R with_S set_stats set_SubR set_SubS scanned_sub scanned_blocks
       group tid SubR BlocksR tuples Pos blocks_N checksum matches size].
  rewrite (u32_small (gi + group D))
    by (change (2 ^ 32) with 4294967296; change (2 ^ 30) with 1073741824 in Hfan; nia).
  unfold c_mod. destruct (Z.eqb_spec G 0) as [E0|_]; [lia|]. cbn [bind].
  fold h0. rewrite (u32_small (h0 * iters + i))
    by (change (2 ^ 32) with 4294967296; change (2 ^ 30) with 1073741824 in Hfan; lia).
  rewrite Erd. cbn [bind]. rewrite HMask. cbn [bind]. fold c.
  replace (h0 * iters + i) with (h0 * iters + c h0) by lia.
  rewrite (scan_blocks_eq hf fanout Hrange
             (fun k0 => Some (HASH k0 (fanout - 1))) Hhash
             (size (SubR D)) _ _ _ (ICP_fbs (size (SubR D))) Hg1 Hg2 Hg3 Hg4
             (tuples (SubR D)) Hg5 G iters HG Hit HGi (CPRA_scatter TEST radix)
             c h0 Hh0 ltac:(lia)).
  destruct (CPRA_scatter_fold TEST radix
              (bucket hf (h0 * iters + c h0) (all_R Ds))
              (bucket hf (h0 * iters + c h0) (tuples (SubR D))) HT
              (II_built c D + probed_vals (cS D) D))
    as (HT' & E & Hl & Hnew & Hkeep).
  - lia.
  - apply compatible_cell; [lia|]. apply primary_key_NoDup. assumption.
  - intros t Ht. apply bucket_In in Ht. destruct Ht as (Hp1 & Ht).
    unfold bucket. apply filter_In. split; [apply Hincl; assumption|].
    apply Z.eqb_eq. assumption.
  - apply Forall_forall. intros t Ht. rewrite HlHT. apply II_cell_range.
    apply Hincl. apply (bucket_In _ _ _ _ Ht).
  - rewrite E. cbn [bind].
    destruct (wr_lt HTables h0 HT' ltac:(lia)) as (HTables' & Ew).
    rewrite Ew. cbn [bind].
    exists HT, HT', HTables'. split; [reflexivity|]. split; [exact Ew|].
    split; [|split; [lia|split]].
    + f_equal. f_equal.
      unfold II_thread, with_R, with_S, set_PosR, set_SubR, set_SubS, set_stats.
      cbn [group tid SubR SubS BlocksR BlocksS tuples Pos blocks_N checksum
           matches size scanned_blocks scanned_sub].
      f_equal.
      * unfold scanned_blocks. f_equal.
        apply Pos_at_ext. intros h Hh. apply cursors_advance; assumption.
      * f_equal. unfold II_built.
        rewrite (done_sum_ext _ G iters (cursors G i (gi + 1) (group D))
                   (advance c h0))
          by (intros h Hh; symmetry; apply cursors_advance; assumption).
        rewrite done_sum_advance by lia. lia.
    + intros t Ht Hhf. apply Hnew. unfold bucket. apply filter_In.
      split; [assumption|]. apply Z.eqb_eq. lia.
    + intros t Ht Hhf. apply Hkeep. unfold bucket. apply filter_In.
      split; [assumption|]. apply Z.eqb_eq. lia.
Qed.

Lemma passed_cursors i gi grp h :
  0 <= gi < G -> 0 <= grp < G -> 0 <= h < G ->
  (i < cursors G i (gi + 1) grp h
   <-> i < cursors G i gi grp h \/ h = (gi + grp) mod G).
Proof.
  intros Hgi Hgrp Hh. rewrite <- cursors_advance by assumption.
  unfold advance. destruct (Z.eqb_spec h ((gi + grp) mod G)) as [->|Hne].
  - rewrite cursors_at by assumption. split; [auto | lia].
  - split; [auto|]. intros [H|H]; [assumption | contradiction].
Qed.

Lemma II_build_phase cS i gi HTables :
  0 <= i < iters -> 0 <= gi < G ->
  II_tables (fun _ => curs i gi) i HTables ->
  exists HTables',
    each_thread (ColBP_II_build TEST g iters i gi)
      (map (II_thread (curs i gi) cS) Ds) HTables
    = Some (map (II_thread (curs i (gi + 1)) cS) Ds, HTables') /\
    II_tables (fun _ => curs i (gi + 1)) i HTables'.
Proof.
  intros Hi Hgi Htbl.
  destruct II_facts as (HG & Hit & HGi & Hfan & Hrange & _).
  destruct (each_thread_rel (ColBP_II_build TEST g iters i gi)
              (fun k HTs => II_tables (fun j => if (j <? k)%nat then curs i (gi + 1)
                                                else curs i gi) i HTs)
              (II_thread (curs i gi) cS) (II_thread (curs i (gi + 1)) cS)
              Ds 0%nat HTables) as (HTs' & E & Hok' & Hh).
  - exact Htbl.
  - intros k D HTk Hk (Hok & Hheld). cbn [Nat.add] in *.
    destruct (ColBP_II_build_step cS k D i gi HTk Hk Hi Hgi Hok)
      as (HT & HT1 & HTs1 & Erd & Ew & E1 & Hl1 & Hnew & Hkeep).
    exists HTs1. split; [exact E1|].
    destruct (II_thread_facts k D Hk) as (_ & _ & Hgrp & _).
    destruct (rot_mod G gi (group D) Hgi Hgrp) as (Hh0 & _).
    destruct Hok as (Hlen & Hall).
    split.
    + split; [rewrite (wr_len _ _ _ _ Ew); assumption|].
      intros h Hh. destruct (Z.eq_dec h ((gi + group D) mod G)) as [->|Hne].
      * rewrite (rd_wr_eq _ _ _ _ Ew). exists HT1. split; [reflexivity | assumption].
      * rewrite (rd_wr_neq _ _ _ _ _ Ew) by congruence. apply Hall. assumption.
    + intros h HTh Hh Hrdh j D' t Hj Ht Hhf Hpass.
      destruct (Z.eq_dec h ((gi + group D) mod G)) as [->|Hne].
      * rewrite (rd_wr_eq _ _ _ _ Ew) in Hrdh. injection Hrdh as <-.
        destruct (Nat.eq_dec j k) as [->|Hne'].
        -- assert (D' = D) by congruence. subst D'. apply Hnew; assumption.
        -- apply Hkeep; [eapply In_all_R; eassumption | assumption|].
           apply (Hheld _ HT Hh Erd j D' t Hj Ht Hhf).
           destruct (Nat.ltb_spec j k); destruct (Nat.ltb_spec j (S k));
             try assumption; lia.
      * rewrite (rd_wr_neq _ _ _ _ _ Ew) in Hrdh by congruence.
        apply (Hheld _ HTh Hh Hrdh j D' t Hj Ht Hhf).
        destruct (Nat.eq_dec j k) as [->|Hne'].
        -- assert (D' = D) by congruence. subst D'.
           rewrite Nat.ltb_irrefl.
           destruct (Nat.ltb_spec k (S k)); [|lia].
           apply passed_cursors in Hpass; try assumption.
           destruct Hpass as [Hp|Hp]; [assumption | contradiction].
        -- destruct (Nat.ltb_spec j k); destruct (Nat.ltb_spec j (S k));
             try assumption; lia.
  - exists HTs'. split; [exact E|]. split; [exact Hok'|].
    intros h HTh Hh0 Hrdh j D t Hj Ht Hhf Hpass.
    apply (Hh h HTh Hh0 Hrdh j D t Hj Ht Hhf).
    assert (j < length Ds)%nat by (apply nth_error_Some; congruence).
    cbn [Nat.add]. destruct (Nat.ltb_spec j (length Ds)); [assumption | lia].
Qed.

Lemma II_build_iteration cS i HTables :
  0 <= i < iters -> tables_ok G sz HTables ->
  exists HTables',
    for_range 0 G
      (fun gi '(Ts, HTables) =>
         each_thread (ColBP_II_build TEST g iters i gi) Ts HTables)
      (map (II_thread (curs i 0) cS) Ds, HTables)
    = Some (map (II_thread (curs i G) cS) Ds, HTables') /\
    II_tables (fun _ => curs i G) i HTables'.
Proof.
  intros Hi Htbl.
  destruct II_facts as (HG & Hit & HGi & Hfan & Hrange & _).
  destruct (for_range_inv
              (fun gi (st : list thread_t * list (list Z)) =>
                 fst st = map (II_thread (curs i gi) cS) Ds /\
                 II_tables (fun _ => curs i gi) i (snd st))
              (fun gi '(Ts, HTables) =>
                 each_thread (ColBP_II_build TEST g iters i gi) Ts HTables)
              0 G (map (II_thread (curs i 0) cS) Ds, HTables))
    as ((Ts' & HTs') & E & HTs & Htbl').
  - lia.
  - split; [reflexivity|]. split; [exact Htbl|].
    intros h HTh Hh Hrdh j D t Hj Ht Hhf Hpass. exfalso.
    unfold cursors in Hpass.
    pose proof (Z.mod_pos_bound (h - group D) G ltac:(lia)).
    destruct (Z.ltb_spec ((h - group D) mod G) 0); lia.
  - intros gi (Ts1 & HTs1) Hgi (HTs1' & Htbl1). cbn [fst snd] in *. subst Ts1.
    destruct (II_build_phase cS i gi HTs1 Hi Hgi Htbl1) as (HTs2 & E2 & Htbl2).
    exists (map (II_thread (curs i (gi + 1)) cS) Ds, HTs2).
    split; [exact E2|]. split; [reflexivity | exact Htbl2].
  - cbn [fst snd] in *. subst Ts'. exists HTs'. split; assumption.
Qed.

Lemma hashx_key mask shift t t' :
  key t = key t' -> hashx mask shift t = hashx mask shift t'.
Proof. unfold hashx. intros ->. reflexivity. Qed.

Lemma In_all_R_inv Ts t :
  In t (all_R Ts) ->
  exists j D, nth_error Ts j = Some D /\ In t (tuples (SubR D)).
Proof.
  intros Ht. apply in_flat_map in Ht. destruct Ht as (D & HD & Ht).
  apply In_nth_error in HD. destruct HD as (j & Hj). eauto.
Qed.

(** One probe step of one worker, the tables built for iteration [i]. *)
Lemma ColBP_II_probe_step_spec cR k D i j HTables :
  nth_error Ds k = Some D -> 0 <= i < iters -> 0 <= j < G ->
  II_tables (fun _ => curs i G) i HTables ->
  ColBP_II_probe_step TEST g iters i (G - 1 - j)
    (II_thread cR (pcurs i j) D) HTables
  = Some (II_thread cR (pcurs i (j + 1)) D).
Proof.
  intros Hk Hi Hj ((Hlen & Hall) & Hheld).
  destruct II_facts as (HG & Hit & HGi & Hfan & Hrange & Hhash & _ & HMask & _).
  destruct (II_thread_facts k D Hk)
    as (_ & _ & Hgrp & _ & _ & _ & Hsz & HN & _ & Hincl).
  destruct (II_geometry (SubS D) Hsz HN) as (Hg1 & Hg2 & Hg3 & Hg4 & Hg5).
  pose proof Hin as (_ & HR & _ & HR31 & _ & Hpk & Hfk).
  set (c := pcursors G i j (group D)).
  set (h0 := (G - 1 - j + group D) mod G).
  destruct (rot_mod G (G - 1 - j) (group D) ltac:(lia) Hgrp) as (Hh0 & _).
  fold h0 in Hh0.
  assert (Hc0 : c h0 = i) by (apply pcursors_at; assumption).
  assert (Hp : 0 <= h0 * iters + i < fanout) by nia.
  destruct (Hall h0 Hh0) as (HT & Erd & HlHT).
  unfold ColBP_II_probe_step, II_thread.
  cbn [with_R with_S set_stats set_SubR set_SubS scanned_sub scanned_blocks
       group tid SubS BlocksS tuples Pos blocks_N checksum matches size].
  rewrite (u32_small (G - 1 - j + group D))
    by (change (2 ^ 32) with 4294967296; change (2 ^ 30) with 1073741824 in Hfan; nia).
  unfold c_mod. destruct (Z.eqb_spec G 0) as [E0|_]; [lia|]. cbn [bind].
  fold h0. rewrite (u32_small (h0 * iters + i))
    by (change (2 ^ 32) with 4294967296; change (2 ^ 30) with 1073741824 in Hfan; lia).
  rewrite Erd. cbn [bind]. rewrite HMask. cbn [bind]. fold c.
  replace (h0 * iters + i) with (h0 * iters + c h0) by lia.
  rewrite (scan_blocks_eq hf fanout Hrange
             (fun k0 => Some (HASH k0 (fanout - 1))) Hhash
             (size (SubS D)) _ _ _ (ICP_fbs (size (SubS D))) Hg1 Hg2 Hg3 Hg4
             (tuples (SubS D)) Hg5 G iters HG Hit HGi
             (CPRA_gather TEST radix HT) c h0 Hh0 ltac:(lia)).
  rewrite (CPRA_gather_fold TEST (all_R Ds) radix HT
             (bucket hf (h0 * iters + c h0) (tuples (SubS D)))
             (probed_len c D) (II_built (cR D) D + probed_vals c D)).
  - cbn [bind]. f_equal.
    unfold II_thread, with_R, with_S, set_PosS, set_SubR, set_SubS, set_stats.
    cbn [group tid SubR SubS BlocksR BlocksS tuples Pos blocks_N checksum
         matches size scanned_blocks scanned_sub].
    f_equal.
    + unfold scanned_blocks. f_equal.
      apply Pos_at_ext. intros h Hh. apply pcursors_advance; assumption.
    + f_equal. unfold probed_len.
      rewrite (done_sum_ext _ G iters (pcursors G i (j + 1) (group D))
                 (advance c h0))
        by (intros h Hh; symmetry; apply pcursors_advance; assumption).
      rewrite done_sum_advance by lia. reflexivity.
    + f_equal. unfold probed_vals.
      rewrite (done_sum_ext _ G iters (pcursors G i (j + 1) (group D))
                 (advance c h0))
        by (intros h Hh; symmetry; apply pcursors_advance; assumption).
      rewrite done_sum_advance by lia. lia.
  - lia.
  - apply primary_key_NoDup. assumption.
  - intros s0 Hs0. apply bucket_In in Hs0. destruct Hs0 as (Hps & Hs0).
    destruct (foreign_key_partner _ _ s0 Hpk Hfk (Hincl _ Hs0)) as (t & Ht & Ek).
    exists t. split; [assumption|]. split; [assumption|].
    destruct (In_all_R_inv Ds t Ht) as (j' & D' & Hj' & Ht').
    replace (CPRA_cell radix s0) with (cell t)
      by (unfold CPRA_cell; rewrite Ek; reflexivity).
    apply (Hheld h0 HT Hh0 Erd j' D' t Hj' Ht').
    + rewrite (hashx_key _ _ t s0 Ek). lia.
    + unfold cursors.
      pose proof (Z.mod_pos_bound (h0 - group D') G ltac:(lia)).
      destruct (Z.ltb_spec ((h0 - group D') mod G) G); lia.
Qed.

Lemma ColBP_II_probe_spec cR k D i HTables :
  nth_error Ds k = Some D -> 0 <= i < iters ->
  II_tables (fun _ => curs i G) i HTables ->
  ColBP_II_probe TEST g iters i (II_thread cR (pcurs i 0) D) HTables
  = Some (II_thread cR (pcurs i G) D, HTables).
Proof.
  intros Hk Hi Htbl.
  destruct II_facts as (HG & _).
  unfold ColBP_II_probe.
  destruct (for_range_inv
              (fun j T => T = II_thread cR (pcurs i j) D)
              (fun j T => ColBP_II_probe_step TEST g iters i (G - 1 - j) T HTables)
              0 G (II_thread cR (pcurs i 0) D)) as (T' & E & ->).
  - lia.
  - reflexivity.
  - intros j T Hj ->. eexists. split; [|reflexivity].
    apply (ColBP_II_probe_step_spec cR k D i j HTables Hk Hi Hj Htbl).
  - rewrite E. reflexivity.
Qed.

Lemma II_thread_ext cR cR' cS cS' D :
  (forall h, 0 <= h < G -> cR D h = cR' D h) ->
  (forall h, 0 <= h < G -> cS D h = cS' D h) ->
  II_thread cR cS D = II_thread cR' cS' D.
Proof.
  intros HR HS.
  unfold II_thread, with_R, with_S, scanned_blocks, II_built, probed_len,
    probed_vals.
  cbn [set_SubR SubS SubR].
  rewrite (Pos_at_ext _ (tuples (SubR D)) _ _ _ _ _ G iters (cR D) (cR' D) HR).
  rewrite (Pos_at_ext _ (tuples (SubS D)) _ _ _ _ _ G iters (cS D) (cS' D) HS).
  rewrite (done_sum_ext _ G iters (cR D) (cR' D) HR).
  rewrite !(done_sum_ext _ G iters (cS D) (cS' D) HS). reflexivity.
Qed.

(** One iteration: the build steps, then the probes. *)
Lemma II_iteration i HTables :
  0 <= i < iters -> tables_ok G sz HTables ->
  exists HTables',
    (st <- for_range 0 G
             (fun gi '(Ts, HTables) =>
                each_thread (ColBP_II_build TEST g iters i gi) Ts HTables)
             (map (II_thread (curs i 0) (pcurs i 0)) Ds, HTables) ;;
     let '(Ts, HTables) := st in
     each_thread (ColBP_II_probe TEST g iters i) Ts HTables)
    = Some (map (II_thread (curs (i + 1) 0) (pcurs (i + 1) 0)) Ds, HTables') /\
    tables_ok G sz HTables'.
Proof.
  intros Hi Htbl. destruct II_facts as (HG & _).
  destruct (II_build_iteration (pcurs i 0) i HTables Hi Htbl)
    as (HTs1 & E1 & Htbl1).
  rewrite E1. cbn [bind].
  destruct (each_thread_rel (ColBP_II_probe TEST g iters i)
              (fun _ HTs => HTs = HTs1)
              (II_thread (curs i G) (pcurs i 0))
              (II_thread (curs i G) (pcurs i G)) Ds 0%nat HTs1)
    as (HTs2 & E2 & ->).
  - reflexivity.
  - intros k D s Hk ->. eexists. split; [|reflexivity].
    apply (ColBP_II_probe_spec (curs i G) k D i HTs1 Hk Hi Htbl1).
  - exists HTs1. split; [|apply Htbl1].
    rewrite E2. f_equal. f_equal. apply map_ext. intros D.
    apply II_thread_ext; intros h Hh.
    + apply cursors_next. assumption.
    + rewrite pcursors_G, pcursors_0 by assumption. reflexivity.
Qed.

(** What a worker of Model II ends with. *)
Definition II_final (D : thread_t) : thread_t :=
  set_stats
    (with_S hf fanout G iters (pcurs iters 0 D)
       (with_R hf fanout G iters (curs iters 0 D) D))
    (u64 (len (tuples (SubS D))))
    (u64 (sum_keys (tuples (SubR D))
          + sum_vals TEST (all_R Ds) (tuples (SubS D)))).

Lemma II_thread_final D :
  II_thread (curs iters 0) (pcurs iters 0) D = II_final D.
Proof.
  destruct II_facts as (HG & Hit & HGi & Hfan & Hrange & _).
  unfold II_thread, II_final. f_equal.
  - f_equal. unfold probed_len. rewrite done_sum_full; try lia.
    + rewrite HGi.
      rewrite (zsum_ext _ (fun p => wsum (fun _ => 1) (bucket hf p (tuples (SubS D)))))
        by (intros; apply len_wsum).
      rewrite zsum_buckets by assumption. symmetry. apply len_wsum.
    + intros h Hh. apply pcursors_0. assumption.
  - f_equal. f_equal.
    + unfold II_built. rewrite done_sum_full; try lia.
      * rewrite HGi.
        rewrite (zsum_ext _ (fun p => wsum key (bucket hf p (tuples (SubR D)))))
          by reflexivity.
        rewrite zsum_buckets by assumption. reflexivity.
      * intros h Hh. unfold cursors.
        pose proof (Z.mod_pos_bound (h - group D) G ltac:(lia)).
        destruct (Z.ltb_spec ((h - group D) mod G) 0); lia.
    + unfold probed_vals. rewrite done_sum_full; try lia.
      * rewrite HGi.
        rewrite (zsum_ext _ (fun p => wsum (fun s => val_of TEST (all_R Ds) (key s))
                                        (bucket hf p (tuples (SubS D)))))
          by reflexivity.
        rewrite zsum_buckets by assumption. reflexivity.
      * intros h Hh. apply pcursors_0. assumption.
Qed.

Lemma II_threads_ok c c' :
  threads_ok g (map (fun D => with_S hf fanout G iters (c' D)
                                (with_R hf fanout G iters (c D) D)) Ds).
Proof.
  destruct Hin as ((HN & HN1 & HG & Hall) & _).
  split; [unfold len in *; rewrite length_map; assumption|].
  split; [unfold len in *; rewrite length_map; assumption|].
  split; [assumption|].
  intros k T Hk. rewrite nth_error_map in Hk.
  destruct (nth_error Ds k) as [D|] eqn:HkD; [|discriminate].
  injection Hk as <-.
  destruct (Hall k D HkD) as (H1 & H2 & H3 & H4 & H5 & H6).
  destruct (II_thread_facts k D HkD) as (_ & _ & _ & _ & HszR & HNR & HszS & HNS & _).
  destruct II_facts as (_ & _ & _ & _ & Hrange & _).
  destruct (II_geometry (SubR D) HszR HNR) as (Hg1 & Hg2 & Hg3 & Hg4 & Hg5).
  destruct (II_geometry (SubS D) HszS HNS) as (Hs1 & Hs2 & Hs3 & Hs4 & Hs5).
  cbn [with_R with_S set_SubR set_SubS tid group SubR SubS scanned_sub size
       tuples id].
  repeat split; try assumption.
  - symmetry.
    apply (len_layout hf fanout Hrange (size (SubR D)) _ _ _ (ICP_fbs (size (SubR D)))
             Hg1 Hg2 Hg3 Hg4 _ Hg5).
  - symmetry.
    apply (len_layout hf fanout Hrange (size (SubS D)) _ _ _ (ICP_fbs (size (SubS D)))
             Hs1 Hs2 Hs3 Hs4 _ Hs5).
Qed.

Section ModelIICleanup.

Variable sched : list Z.

(** Model II over the partitioned R and S, up to the cleanup. *)
Lemma ColBP_II_run :
  ColBP_II TEST junk sched g
    (map (fun D => with_S hf fanout G iters (fun _ => 0)
                     (with_R hf fanout G iters (fun _ => 0) D)) Ds)
  = bind (ColBP_II_cleanup sched g (map II_final Ds))
      (fun _ => Some (map II_final Ds)).
Proof.
  pose proof Hin as (Hok & HR & HS & HR31 & HS32 & Hpk & Hfk).
  destruct II_facts as (HG & Hit & HGi & Hfan & Hrange & Hhash & HMask & HMaskS
                        & HFan & Hsize & Hsz1).
  unfold ColBP_II. rewrite HRS, Z.eqb_refl.
  destruct (Z.ltb_spec 0 radix) as [_|]; [|lia].
  cbn [andb c_assert bind].
  rewrite (map_opt_all (assert_group g) (fun _ => tt)).
  2:{ intros T HT. apply in_map_iff in HT. destruct HT as (D & <- & HD).
      apply In_nth_error in HD. destruct HD as (k & Hk).
      destruct (II_thread_facts k D Hk) as (_ & _ & _ & Hgrp & _).
      unfold assert_group, c_mod. cbn [with_R with_S set_SubR set_SubS tid group].
      destruct (Z.eqb_spec G 0) as [E0|_]; [lia|]. cbn [bind].
      rewrite <- Hgrp, Z.eqb_refl. reflexivity. }
  cbn [bind]. rewrite Hsize. cbn [bind]. rewrite map_map.
  rewrite (map_ext _ (II_thread (curs 0 0) (pcurs 0 0))).
  2:{ intros D. unfold II_thread, with_R, with_S, scanned_blocks, II_built,
        probed_len, probed_vals.
      cbn [set_SubR SubS SubR].
      rewrite (Pos_at_ext _ (tuples (SubR D)) _ _ _ _ _ G iters (fun _ => 0) (curs 0 0 D))
        by (intros h Hh; symmetry; apply cursors_0; assumption).
      rewrite (Pos_at_ext _ (tuples (SubS D)) _ _ _ _ _ G iters (fun _ => 0) (pcurs 0 0 D))
        by (intros h Hh; symmetry; apply pcursors_0; assumption).
      rewrite !done_sum_start
        by (intros h Hh; apply cursors_0 || apply pcursors_0; assumption).
      reflexivity. }
  assert (Hok0 : threads_ok g (map (II_thread (curs 0 0) (pcurs 0 0)) Ds)).
  { destruct (II_threads_ok (curs 0 0) (pcurs 0 0)) as (H1 & H2 & H3 & H4).
    split; [unfold len in *; rewrite length_map in *; assumption|].
    split; [unfold len in *; rewrite length_map in *; assumption|].
    split; [assumption|].
    intros k T Hk. rewrite nth_error_map in Hk.
    destruct (nth_error Ds k) as [D|] eqn:HkD; [|discriminate].
    injection Hk as <-.
    apply (H4 k (with_S hf fanout G iters (pcurs 0 0 D)
                   (with_R hf fanout G iters (curs 0 0 D) D))).
    rewrite nth_error_map, HkD. reflexivity. }
  destruct (ColBP_II_alloc_phase _ Hok0) as (HTs0 & E0 & Htb0).
  rewrite E0. cbn [bind].
  destruct (ColBP_II_zero_phase _ HTs0 Hok0 Htb0) as (HTs1 & E1 & Htb1).
  rewrite E1. cbn [bind]. rewrite HFan. cbn [bind]. unfold c_div, c_mod.
  destruct (Z.eqb_spec G 0) as [E0'|_]; [lia|]. cbn [bind].
  rewrite Hdiv. cbn [Z.eqb c_assert bind].
  match goal with
  | |- context [for_range 0 iters ?body ?st0] =>
      destruct (for_range_inv
                  (fun i (st : list thread_t * list (list Z)) =>
                     fst st = map (II_thread (curs i 0) (pcurs i 0)) Ds /\
                     tables_ok G sz (snd st))
                  body 0 iters st0) as ((Ts' & HTs') & E & HTs & Htbl')
  end.
  - lia.
  - split; [reflexivity | exact Htb1].
  - intros i (Ts1 & HTsi) Hi (HTs1' & Htbli). cbn [fst snd] in *. subst Ts1.
    destruct (II_iteration i HTsi Hi Htbli) as (HTs2 & E2 & Htbl2).
    exists (map (II_thread (curs (i + 1) 0) (pcurs (i + 1) 0)) Ds, HTs2).
    split; [exact E2|]. split; [reflexivity | exact Htbl2].
  - rewrite E. cbn [bind fst snd] in *. subst Ts'.
    rewrite (map_ext _ II_final) by (intros D; apply II_thread_final).
    reflexivity.
Qed.

Lemma II_final_table :
  1 <= G <= len (map II_final Ds) /\
  forall k T, nth_error (map II_final Ds) k = Some T ->
    tid T = Z.of_nat k /\ group T = tid T mod G.
Proof.
  destruct Hin as ((HN & HN1 & HG & Hall) & _). split.
  - unfold len in *. rewrite length_map. lia.
  - intros k T Hk. rewrite nth_error_map in Hk.
    destruct (nth_error Ds k) as [D|] eqn:HkD; [|discriminate].
    injection Hk as <-. destruct (Hall k D HkD) as (H1 & H2 & _).
    split; [exact H1|exact H2].
Qed.

(** Model II when the workers of the other groups read
    [Threads.HTables] before worker 0 frees it. *)
Lemma ColBP_II_spec :
  frees_in_order G sched ->
  ColBP_II TEST junk sched g
    (map (fun D => with_S hf fanout G iters (fun _ => 0)
                     (with_R hf fanout G iters (fun _ => 0) D)) Ds)
  = Some (map II_final Ds).
Proof.
  intros Hord. destruct II_final_table as (HG & Htab).
  rewrite ColBP_II_run.
  rewrite (ColBP_II_cleanup_in_order G _ HG Htab sched g eq_refl Hord).
  reflexivity.
Qed.

(** Model II when worker 0 frees [Threads.HTables] before the worker of
    another group has read it. *)
Lemma ColBP_II_early :
  frees_early G sched ->
  ColBP_II TEST junk sched g
    (map (fun D => with_S hf fanout G iters (fun _ => 0)
                     (with_R hf fanout G iters (fun _ => 0) D)) Ds)
  = None.
Proof.
  intros Hearly. destruct II_final_table as (HG & Htab).
  rewrite ColBP_II_run.
  rewrite (ColBP_II_cleanup_early G _ HG Htab sched g eq_refl Hearly).
  reflexivity.
Qed.

End ModelIICleanup.

End ModelII.

(** ** The skew estimate of all the workers *)

Lemma ICP_own_report_spec g Sub radix :
  ICP_pre g Sub radix -> id Sub = id_S ->
  ICP_own_report g Sub radix
  = if negb (user_defined (Radix g)) && negb (ChangedRadixS g)
    then (report <- skew_report g (first_histogram g Sub radix)
                      (ICP_fbs (size Sub)) ;;
          Some (match report with Some own => own | None => false end))
    else Some false.
Proof.
  intros Hpre Hid.
  pose proof (ICP_shift_range g Sub radix Hpre) as Hshift.
  pose proof (sbp_facts g Sub radix Hpre) as (Hsbp1 & Hsbp2).
  pose proof (nsb_facts g Sub radix Hpre) as (Hnsb1 & Hnsb2).
  pose proof (ICP_setup_spec g Sub radix Hpre) as Hsetup. cbn zeta in Hsetup.
  destruct Hpre as (Hr & Hsz & HN & HG & Hdiv & HR).
  set (N := size Sub) in *.
  destruct (ICP_geometry N HN) as (Hg1 & Hg2 & Hg3 & Hg4 & Hg5).
  pose proof (pow2_bounds radix Hr) as Hp.
  unfold ICP_own_report. destruct (Z.eqb_spec radix 0); [lia|].
  rewrite Hsetup. cbn [bind].
  set (hf := hashx (2 ^ radix - 1) (ICP_shift g (id Sub))).
  set (P := {| ip_shift := ICP_shift g (id Sub); ip_fanout := 2 ^ radix;
               ip_mask := 2 ^ radix - 1; ip_N := N;
               ip_num_blocks := ICP_num_blocks N;
               ip_avg_block_size := ICP_avg N;
               ip_first_block_size := ICP_fbs N;
               ip_num_sub_blocks := ICP_nsb g (id Sub);
               ip_sub_block_partitions := 2 ^ radix / num_groups g |}).
  assert (Hhash : forall t, HASHx (key t) (2 ^ radix - 1) (ICP_shift g (id Sub))
                            = Some (hf t))
    by (intros t; apply hashx_hash; assumption).
  assert (Hrange : forall t, 0 <= hf t < 2 ^ radix)
    by (intros t; apply hashx_range; lia).
  assert (Hf32 : 2 ^ radix < 2 ^ 32) by lia.
  assert (HT0 : len (tuples Sub) = N) by (symmetry; assumption).
  destruct (first_round (2 ^ radix - 1) (ICP_shift g (id Sub)) (2 ^ radix) hf
              Hhash Hrange Hf32
              N (ICP_num_blocks N) (ICP_avg N) (ICP_rem N) (ICP_fbs N)
              Hg1 Hg2 Hg3 eq_refl Hg4 ltac:(lia)
              (ICP_nsb g (id Sub)) (2 ^ radix / num_groups g) ltac:(lia)
              Hsbp1 Hnsb2 (tuples Sub) HT0 Sub eq_refl)
    as (Hhead & _).
  fold P in Hhead.
  assert (Hlt : (st_i (ICP_init_state P Sub (ICP_rem N)) <? ip_N P) = true)
    by (cbn; apply Z.ltb_lt; lia).
  rewrite Hlt, Hhead. cbn [bind]. rewrite Hid.
  unfold ICP_globals.
  destruct (negb (user_defined (Radix g)) && negb (ChangedRadixS g));
    [|reflexivity].
  cbn [P ip_first_block_size]. unfold first_histogram. subst hf.
  rewrite Hid. reflexivity.
Qed.

(** The report is withheld exactly when |S| / |R| < 3. *)
Lemma skew_report_ratio g Histo block_size fanout :
  0 < RelR_size g -> 0 <= RelS_size g ->
  FanoutS g = Some fanout -> len Histo = fanout ->
  Forall (fun x => 0 <= x < 2 ^ 16) Histo ->
  0 <= block_size < 2 ^ 16 ->
  if RelS_size g / RelR_size g <? 3
  then skew_report g Histo block_size = Some None
  else exists own, skew_report g Histo block_size = Some (Some own).
Proof.
  intros HR HS HF HL HH Hbs.
  destruct (skew_report_spec g Histo block_size fanout HR HS HF HL HH Hbs)
    as (r & Er & _).
  unfold skew_report in *. unfold c_div in *.
  destruct (Z.eqb_spec (RelR_size g) 0) as [E0|E0]; [lia|]. cbn [bind] in *.
  destruct (RelS_size g / RelR_size g <? 3); [reflexivity|].
  rewrite HF in *. cbn [bind] in *.
  destruct (two_most_common fanout Histo) as [[a b]|]; cbn [bind] in *;
    [|discriminate].
  eexists. reflexivity.
Qed.

Lemma ICP_call_ok_S_report g Sub radix :
  1 <= radix <= 30 -> ICP_call_ok g Sub radix -> id Sub = id_S ->
  user_defined (Radix g) = false -> ChangedRadixS g = false ->
  if RelS_size g / RelR_size g <? 3
  then skew_report g (first_histogram g Sub radix) (ICP_fbs (size Sub))
       = Some None
  else skew_report g (first_histogram g Sub radix) (ICP_fbs (size Sub))
       = Some (Some (own_report g Sub radix)).
Proof.
  intros Hr Hok Hid Hud Hch.
  pose proof (ICP_call_ok_pre g Sub radix Hr Hok) as Hpre.
  destruct (first_histogram_range g Sub radix Hpre) as (Hlen & Hfor).
  destruct Hok as (Hsz & HN & HG & Hdiv & HR & HS).
  destruct (ICP_geometry _ HN) as (Hg1 & Hg2 & Hg3 & Hg4 & Hg5).
  destruct (HS Hid Hud Hch) as (HR1 & HS1 & Hrad).
  assert (0 <= ICP_fbs (size Sub)) by (unfold ICP_fbs; destruct (0 <? _); lia).
  pose proof (skew_report_ratio g (first_histogram g Sub radix)
                (ICP_fbs (size Sub)) (2 ^ radix) ltac:(lia) HS1) as Hrep.
  unfold own_report.
  destruct (RelS_size g / RelR_size g <? 3).
  - apply Hrep; try assumption; try lia.
    unfold FanoutS. rewrite Hrad. apply shl1_spec. lia.
  - destruct Hrep as (own & E); try assumption; try lia.
    { unfold FanoutS. rewrite Hrad. apply shl1_spec. lia. }
    rewrite E. reflexivity.
Qed.

(** [ICP] on a part of S when the skew estimate runs. *)
Lemma ICP_S_estimate g peers tid Sub radix Blocks :
  1 <= radix <= 30 -> ICP_call_ok g Sub radix -> id Sub = id_S ->
  user_defined (Radix g) = false -> ChangedRadixS g = false ->
  let reports := HighSkewObserved g
                 + (if own_report g Sub radix then 1 else 0) + peers in
  0 <= reports < 2 ^ 32 ->
  ICP g peers tid Sub radix Blocks
  = if RelS_size g / RelR_size g <? 3
    then Some (g, fst (ICP_result g Sub radix), snd (ICP_result g Sub radix))
    else if reports =? Threads_N g
    then Some (switched g reports, Sub,
               {| blocks_N := ICP_num_blocks (size Sub); Pos := [] |})
    else Some (set_HighSkewObserved g reports,
               fst (ICP_result g Sub radix), snd (ICP_result g Sub radix)).
Proof.
  intros Hr Hok Hid Hud Hch reports Hrep.
  pose proof (ICP_call_ok_pre g Sub radix Hr Hok) as Hpre.
  pose proof (ICP_call_ok_S_report g Sub radix Hr Hok Hid Hud Hch) as Hsk.
  rewrite (ICP_spec g peers tid Sub radix Blocks Hpre).
  unfold first_block_skew, ICP_globals. rewrite Hid, Hud, Hch. cbn [negb andb].
  unfold ICP_estimate_skew.
  destruct (RelS_size g / RelR_size g <? 3).
  - rewrite Hsk. reflexivity.
  - rewrite Hsk. cbn [bind]. fold reports. rewrite (u32_small reports Hrep).
    rewrite skew_switch_HSO, skew_switch_N.
    cbn [set_HighSkewObserved HighSkewObserved Threads_N].
    unfold switched.
    destruct (Z.eqb_spec reports (Threads_N g)) as [E|E]; [reflexivity|].
    replace (skew_switch 0 (set_HighSkewObserved g reports))
      with (set_HighSkewObserved g reports); [reflexivity|].
    unfold skew_switch. cbn [set_HighSkewObserved HighSkewObserved Threads_N].
    destruct (Z.eqb_spec reports (Threads_N g)); [contradiction|].
    rewrite andb_false_r. reflexivity.
Qed.

(** [ICP] when the skew estimate does not run. *)
Lemma ICP_no_estimate g peers tid Sub radix Blocks :
  1 <= radix <= 30 -> ICP_call_ok g Sub radix ->
  (id Sub = id_S ->
   user_defined (Radix g) = true \/ ChangedRadixS g = true) ->
  ICP g peers tid Sub radix Blocks
  = Some (ICP_globals g (id Sub),
          fst (ICP_result g Sub radix), snd (ICP_result g Sub radix)).
Proof.
  intros Hr Hok Hno.
  pose proof (ICP_call_ok_pre g Sub radix Hr Hok) as Hpre.
  rewrite (ICP_spec g peers tid Sub radix Blocks Hpre).
  unfold first_block_skew. destruct (id Sub) eqn:Hid; [reflexivity|].
  cbn [ICP_globals].
  destruct (Hno eq_refl) as [-> | ->]; cbn [negb andb];
    [|rewrite andb_false_r]; reflexivity.
Qed.

(** ** The partitioning passes of all the workers *)

Lemma combine_map_r {X Y} (f : X -> Y) (l : list X) :
  combine l (map f l) = map (fun x => (x, f x)) l.
Proof.
  induction l as [|x l IH]; [reflexivity|]. cbn [map combine]. rewrite IH.
  reflexivity.
Qed.

Lemma count_true_range l : 0 <= count_true l <= len l.
Proof.
  induction l as [|b l IH]; [cbn; lia|].
  cbn [count_true]. rewrite len_cons. destruct b; lia.
Qed.

Lemma count_true_all_false {X} (f : X -> bool) (l : list X) :
  (forall x, In x l -> f x = false) -> count_true (map f l) = 0.
Proof.
  intros H. induction l as [|x l IH]; [reflexivity|].
  cbn [map count_true]. rewrite H by (left; reflexivity).
  rewrite IH by (intros y Hy; apply H; right; assumption). reflexivity.
Qed.

Lemma set_SubS_same T : set_SubS T (SubS T) (BlocksS T) = T.
Proof. destruct T. reflexivity. Qed.

Lemma ICP_result_scanned g Sub radix :
  ICP_nsb g (id Sub) = num_groups g ->
  ICP_result g Sub radix
  = (scanned_sub (hashx (2 ^ radix - 1) (ICP_shift g (id Sub))) (2 ^ radix) Sub,
     scanned_blocks (hashx (2 ^ radix - 1) (ICP_shift g (id Sub)))
       (num_groups g) (2 ^ radix / num_groups g) Sub (fun _ => 0)).
Proof.
  intros Hnsb. unfold ICP_result, scanned_sub, scanned_blocks. rewrite Hnsb.
  f_equal. f_equal. unfold ICP_positions, Pos_at.
  apply ztab_ext. intros b Hb. apply ztab_ext. intros h Hh.
  unfold sub_block_pos, cursor_pos. rewrite Z.add_0_r. reflexivity.
Qed.

(** The partitioning of R: no skew estimate, the same state for all. *)
Lemma ICP_R_all_spec g Ts :
  1 <= Radix_R (Radix g) <= 30 -> 1 <= len Ts ->
  (forall T, In T Ts ->
     id (SubR T) = id_R /\ ICP_call_ok g (SubR T) (Radix_R (Radix g))) ->
  ICP_R_all g Ts
  = Some (ICP_globals g id_R,
          map (fun T => set_SubR T
                          (fst (ICP_result g (SubR T) (Radix_R (Radix g))))
                          (snd (ICP_result g (SubR T) (Radix_R (Radix g)))))
              Ts).
Proof.
  intros Hr HTs Hall. unfold ICP_R_all.
  rewrite (map_opt_all _
             (fun T => (ICP_globals g id_R,
                        set_SubR T
                          (fst (ICP_result g (SubR T) (Radix_R (Radix g))))
                          (snd (ICP_result g (SubR T) (Radix_R (Radix g))))))).
  - cbn [bind]. rewrite map_map. cbn [snd].
    destruct Ts as [|T Ts']; [rewrite len_nil in HTs; lia|]. reflexivity.
  - intros T HT. destruct (Hall T HT) as (Hid & Hok).
    rewrite (ICP_no_estimate g 0 (tid T) (SubR T) _ (BlocksR T) Hr Hok)
      by (rewrite Hid; discriminate).
    rewrite Hid. reflexivity.
Qed.

(** What the workers report. *)
Lemma ICP_own_report_all g Ts :
  1 <= Radix_S (Radix g) <= 30 ->
  (forall T, In T Ts ->
     id (SubS T) = id_S /\ ICP_call_ok g (SubS T) (Radix_S (Radix g))) ->
  map_opt (fun T => ICP_own_report g (SubS T) (Radix_S (Radix g))) Ts
  = Some (map (fun T => negb (user_defined (Radix g))
                        && negb (ChangedRadixS g)
                        && own_report g (SubS T) (Radix_S (Radix g))) Ts).
Proof.
  intros Hr Hall. apply map_opt_all. intros T HT.
  destruct (Hall T HT) as (Hid & Hok).
  rewrite (ICP_own_report_spec g (SubS T) _
             (ICP_call_ok_pre g _ _ Hr Hok) Hid).
  destruct (user_defined (Radix g)) eqn:Hud; [reflexivity|].
  destruct (ChangedRadixS g) eqn:Hch; [reflexivity|]. cbn [negb andb].
  pose proof (ICP_call_ok_S_report g (SubS T) _ Hr Hok Hid Hud Hch) as Hsk.
  unfold own_report.
  destruct (RelS_size g / RelR_size g <? 3); rewrite Hsk; reflexivity.
Qed.

(** The partitioning of S: every worker partitions its part, unless all
    report high skew, and then none does. *)
Lemma ICP_S_all_spec g Ts :
  1 <= Radix_S (Radix g) <= 30 ->
  1 <= len Ts -> Threads_N g = len Ts -> Threads_N g < 2 ^ 32 ->
  HighSkewObserved g = 0 ->
  (forall T, In T Ts ->
     id (SubS T) = id_S /\ ICP_call_ok g (SubS T) (Radix_S (Radix g))) ->
  ICP_S_all g Ts
  = Some (if reports g Ts =? Threads_N g
          then (switched g (reports g Ts),
                map (fun T => set_SubS T (SubS T)
                                {| blocks_N := ICP_num_blocks (size (SubS T));
                                   Pos := [] |}) Ts)
          else (if estimating g
                then set_HighSkewObserved g (reports g Ts) else g,
                map (fun T => set_SubS T
                                (fst (ICP_result g (SubS T) (Radix_S (Radix g))))
                                (snd (ICP_result g (SubS T) (Radix_S (Radix g)))))
                    Ts)).
Proof.
  intros Hr HTs HN HN32 HHSO Hall.
  assert (Hrep : 0 <= reports g Ts <= len Ts).
  { unfold reports. match goal with |- context [count_true ?l] =>
      pose proof (count_true_range l) as H end.
    unfold len in *. rewrite length_map in H. exact H. }
  assert (Hown : forall T, In T Ts ->
            ICP_own_report g (SubS T) (Radix_S (Radix g))
            = Some (negb (user_defined (Radix g)) && negb (ChangedRadixS g)
                    && own_report g (SubS T) (Radix_S (Radix g)))).
  { intros T HT. destruct (Hall T HT) as (Hid & Hok).
    rewrite (ICP_own_report_spec g (SubS T) _
               (ICP_call_ok_pre g _ _ Hr Hok) Hid).
    destruct (user_defined (Radix g)) eqn:Hud; [reflexivity|].
    destruct (ChangedRadixS g) eqn:Hch; [reflexivity|]. cbn [negb andb].
    pose proof (ICP_call_ok_S_report g (SubS T) _ Hr Hok Hid Hud Hch) as Hsk.
    unfold own_report.
    destruct (RelS_size g / RelR_size g <? 3); rewrite Hsk; reflexivity. }
  assert (Hnone : estimating g = false -> reports g Ts = 0).
  { intros Hest. unfold reports. apply count_true_all_false. intros T HT.
    destruct (Hall T HT) as (Hid & Hok). unfold estimating in Hest.
    destruct (user_defined (Radix g)) eqn:Hud; [reflexivity|].
    destruct (ChangedRadixS g) eqn:Hch; [reflexivity|]. cbn [negb andb] in *.
    apply negb_false_iff in Hest.
    pose proof (ICP_call_ok_S_report g (SubS T) _ Hr Hok Hid Hud Hch) as Hsk.
    rewrite Hest in Hsk. unfold own_report. rewrite Hsk. reflexivity. }
  set (gres := if reports g Ts =? Threads_N g then switched g (reports g Ts)
               else if estimating g then set_HighSkewObserved g (reports g Ts)
                    else g).
  set (newT := fun T =>
         if reports g Ts =? Threads_N g
         then set_SubS T (SubS T)
                {| blocks_N := ICP_num_blocks (size (SubS T)); Pos := [] |}
         else set_SubS T (fst (ICP_result g (SubS T) (Radix_S (Radix g))))
                (snd (ICP_result g (SubS T) (Radix_S (Radix g))))).
  assert (Hone : forall T, In T Ts ->
            ICP g (reports g Ts
                   - (if negb (user_defined (Radix g)) && negb (ChangedRadixS g)
                         && own_report g (SubS T) (Radix_S (Radix g))
                      then 1 else 0))
              (tid T) (SubS T) (Radix_S (Radix g)) (BlocksS T)
            = Some (gres, SubS (newT T), BlocksS (newT T))).
  { intros T HT. destruct (Hall T HT) as (Hid & Hok).
    destruct (negb (user_defined (Radix g)) && negb (ChangedRadixS g)) eqn:Hest.
    - pose proof Hest as Hest'.
      apply andb_true_iff in Hest'. destruct Hest' as (Hud & Hch).
      apply negb_true_iff in Hud, Hch. cbn [andb].
      rewrite (ICP_S_estimate g _ (tid T) (SubS T) _ (BlocksS T) Hr Hok Hid Hud Hch)
        by (rewrite HHSO; lia).
      rewrite HHSO.
      replace (0 + (if own_report g (SubS T) (Radix_S (Radix g)) then 1 else 0)
               + (reports g Ts
                  - (if own_report g (SubS T) (Radix_S (Radix g)) then 1 else 0)))
        with (reports g Ts) by lia.
      unfold gres, newT. unfold estimating at 1. rewrite Hest. cbn [andb].
      destruct (RelS_size g / RelR_size g <? 3) eqn:Hlt.
      + rewrite Hnone by (unfold estimating; rewrite Hest, Hlt; reflexivity).
        destruct (Z.eqb_spec 0 (Threads_N g)); [lia|]. reflexivity.
      + cbn [negb]. destruct (reports g Ts =? Threads_N g); reflexivity.
    - cbn [andb].
      assert (Hest0 : estimating g = false)
        by (unfold estimating; rewrite Hest; reflexivity).
      rewrite (ICP_no_estimate g _ (tid T) (SubS T) _ (BlocksS T) Hr Hok).
      + unfold gres, newT. rewrite Hest0, (Hnone Hest0).
        destruct (Z.eqb_spec 0 (Threads_N g)); [lia|]. rewrite Hid. reflexivity.
      + intros _. apply andb_false_iff in Hest.
        destruct Hest as [H|H]; apply negb_false_iff in H; auto. }
  unfold ICP_S_all.
  rewrite (map_opt_all _ _ Ts Hown). cbn [bind]. fold (reports g Ts).
  rewrite combine_map_r.
  rewrite (map_opt_all _ (fun x : thread_t * bool => (gres, newT (fst x)))).
  - cbn [bind]. rewrite !map_map. cbn [snd fst].
    destruct Ts as [|T Ts']; [rewrite len_nil in HTs; lia|].
    cbn [map]. unfold gres, newT.
    destruct (reports g (T :: Ts') =? Threads_N g); reflexivity.
  - intros (T & own) Hx. apply in_map_iff in Hx.
    destruct Hx as (T' & E & HT). injection E as -> <-. cbn [fst].
    rewrite (Hone T HT). cbn [bind]. f_equal. f_equal.
    unfold newT. destruct (reports g Ts =? Threads_N g); reflexivity.
Qed.

(** ** The totals of the run *)

Lemma u64_fold_map {X} (m : thread_t -> Z) (fin : X -> thread_t)
    (h : X -> Z) (l : list X) :
  (forall x, In x l -> m (fin x) = u64 (h x)) ->
  forall a,
  fold_left (fun acc T => u64 (acc + m T)) (map fin l) (u64 a)
  = u64 (a + fold_right (fun x acc => h x + acc) 0 l).
Proof.
  intros Hm. induction l as [|x l IH]; intros a; cbn [map fold_left fold_right].
  - rewrite Z.add_0_r. reflexivity.
  - rewrite (Hm x (or_introl eq_refl)), u64_add_l, u64_add_r.
    rewrite IH by (intros y Hy; apply Hm; right; assumption).
    f_equal. lia.
Qed.

(** The totals of the final statistics of the workers. *)
Lemma totals_of_final TEST (Ds : list thread_t) (fin : thread_t -> thread_t) :
  (forall D, In D Ds ->
     matches (fin D) = u64 (len (tuples (SubS D))) /\
     checksum (fin D)
     = u64 (sum_keys (tuples (SubR D))
            + sum_vals TEST (all_R Ds) (tuples (SubS D)))) ->
  0 <= len (all_S Ds) < 2 ^ 64 ->
  (fold_left (fun acc T => u64 (acc + matches T)) (map fin Ds) 0,
   fold_left (fun acc T => u64 (acc + checksum T)) (map fin Ds) 0)
  = join_totals TEST Ds.
Proof.
  intros Hfin HS. unfold join_totals. f_equal.
  - change 0 with (u64 0) at 1.
    rewrite (u64_fold_map matches fin (fun D => len (tuples (SubS D))))
      by (intros D HD; apply (Hfin D HD)).
    unfold all_S in *. rewrite <- len_flat_map. cbn [Z.add]. apply u64_small.
    assumption.
  - change 0 with (u64 0) at 1.
    rewrite (u64_fold_map checksum fin
               (fun D => sum_keys (tuples (SubR D))
                         + sum_vals TEST (all_R Ds) (tuples (SubS D))))
      by (intros D HD; apply (Hfin D HD)).
    cbn [Z.add]. f_equal.
    assert (E : forall R0 l,
              fold_right (fun x acc => sum_keys (tuples (SubR x))
                                       + sum_vals TEST R0 (tuples (SubS x)) + acc)
                0 l
              = sum_keys (all_R l) + sum_vals TEST R0 (all_S l)).
    { intros R0 l. unfold all_R, all_S.
      rewrite sum_keys_flat_map, sum_vals_flat_map.
      induction l as [|D l IH]; cbn [fold_right]; lia. }
    apply E.
Qed.

Lemma len_sub_le {X} (f : X -> list tuple_t) (l : list X) x :
  In x l -> len (f x) <= len (flat_map f l).
Proof.
  intros Hx. induction l as [|y l IH]; [destruct Hx|].
  cbn [flat_map]. rewrite len_app.
  pose proof (len_nonneg (f y)). pose proof (len_nonneg (flat_map f l)).
  destruct Hx as [->|Hx]; [lia|]. specialize (IH Hx). lia.
Qed.

(** What [join_input] and [partition_ok] give for one worker. *)
Lemma worker_facts g Ts T :
  join_input g Ts -> In T Ts ->
  0 <= tid T < Threads_N g /\ group T = tid T mod num_groups g /\
  size (SubR T) = len (tuples (SubR T)) /\
  size (SubS T) = len (tuples (SubS T)) /\
  id (SubR T) = id_R /\ id (SubS T) = id_S /\
  size (SubR T) < 2 ^ 32 /\ size (SubS T) < 2 ^ 32 /\
  1 <= num_groups g.
Proof.
  intros (Hok & HR & HS & HR31 & HS32 & Hpk & Hfk) HT.
  destruct (In_nth_error _ _ HT) as (k & Hk).
  destruct (threads_ok_nth g Ts k T Hok Hk) as (H1 & H2 & H3 & H4 & H5 & H6 & H7).
  destruct Hok as (_ & _ & HG & _).
  pose proof (len_sub_le (fun T => tuples (SubR T)) Ts T HT) as HleR.
  pose proof (len_sub_le (fun T => tuples (SubS T)) Ts T HT) as HleS.
  cbn beta in HleR, HleS. fold (all_R Ts) in HleR. fold (all_S Ts) in HleS.
  change (2 ^ 32) with 4294967296 in *. change (2 ^ 31) with 2147483648 in *.
  repeat split; try assumption; try lia.
Qed.

Lemma ICP_S_all_radix0 g Ts :
  Radix_S (Radix g) = 0 -> ICP_S_all g Ts = Some (g, Ts).
Proof.
  intros HS0. unfold ICP_S_all. rewrite HS0.
  rewrite (map_opt_all _ (fun _ => false)) by reflexivity.
  cbn [bind]. rewrite combine_map_r.
  rewrite (map_opt_all _ (fun x : thread_t * bool => (g, fst x))).
  - cbn [bind]. rewrite !map_map. cbn [snd fst]. rewrite map_id.
    destruct Ts; reflexivity.
  - intros (T & own) _. rewrite ICP_radix_0. cbn [bind fst].
    rewrite set_SubS_same. reflexivity.
Qed.

Lemma log2_up_le_31 n : 1 <= n < 2 ^ 31 -> Z.log2_up n <= 31.
Proof. intros H. apply Z.log2_up_le_pow2; lia. Qed.

(** The calls of [ICP] on the parts of R are as [ICP] expects. *)
Lemma ICP_call_ok_R g Ts T radix :
  join_input g Ts -> nonempty_R Ts -> In T Ts ->
  2 ^ radix mod num_groups g = 0 ->
  (Radix_S (Radix g) = 0 -> 0 <= Radix_R (Radix g) < Z.log2_up (RelR_size g)) ->
  id (SubR T) = id_R /\ ICP_call_ok g (SubR T) radix.
Proof.
  intros Hin Hpart HT Hdiv Hsh.
  destruct (worker_facts g Ts T Hin HT) as (_ & _ & HszR & _ & HidR & _ & HR32 & _ & HG).
  pose proof (Hpart T HT) as HneR.
  destruct Hin as (_ & _ & _ & HR31 & _).
  split; [assumption|]. unfold ICP_call_ok.
  change (2 ^ 32) with 4294967296 in *. change (2 ^ 31) with 2147483648 in *.
  split; [assumption|]. split; [lia|]. split; [assumption|].
  split; [assumption|]. split.
  - intros _ HS0. split; [lia | apply Hsh; assumption].
  - intros Hid. rewrite HidR in Hid. discriminate.
Qed.

Lemma ICP_call_ok_S g Ts T :
  join_input g Ts -> nonempty_S Ts -> In T Ts ->
  2 ^ Radix_S (Radix g) mod num_groups g = 0 ->
  id (SubS T) = id_S /\ ICP_call_ok g (SubS T) (Radix_S (Radix g)).
Proof.
  intros Hin Hpart HT Hdiv.
  destruct (worker_facts g Ts T Hin HT) as (_ & _ & _ & HszS & _ & HidS & _ & HS32 & HG).
  pose proof (Hpart T HT) as HneS.
  destruct Hin as (_ & _ & HS & HR31 & _).
  split; [assumption|]. unfold ICP_call_ok.
  pose proof (len_nonneg (all_S Ts)).
  split; [assumption|]. split; [lia|]. split; [assumption|].
  split; [assumption|]. split.
  - intros Hid. rewrite HidS in Hid. discriminate.
  - intros _ _ _. repeat split; lia.
Qed.

(** ** The run, model by model *)

(** R partitioned for Model III, then Model III. *)
Lemma partition_R_then_III TEST junk g Ds :
  join_input g Ds -> nonempty_R Ds ->
  1 <= Radix_R (Radix g) <= 30 -> Radix_S (Radix g) = 0 ->
  2 ^ Radix_R (Radix g) mod num_groups g = 0 ->
  Radix_R (Radix g) < Z.log2_up (RelR_size g) ->
  exists g1 Ts1,
    ICP_R_all g Ds = Some (g1, Ts1) /\ Radix g1 = Radix g /\
    ColBP_III TEST junk g1 Ts1 = Some (map (III_final TEST g1 Ds) Ds).
Proof.
  intros Hin Hpart Hr HS0 Hdiv Hlog.
  pose proof Hin as (Hok & HR & HS & HR31 & HS32 & Hpk & Hfk).
  pose proof Hok as (HN & HN1 & HG & _).
  pose proof (log2_up_le_31 _ HR31) as Hl31.
  set (shift := Z.log2_up (RelR_size g) - Radix_R (Radix g) - 1).
  set (g1 := set_ModelIII_shift g shift).
  assert (Hg1 : ICP_globals g id_R = g1).
  { unfold ICP_globals, ICP_shift. rewrite HS0. reflexivity. }
  exists g1. eexists. split; [|split; [reflexivity|]].
  - rewrite ICP_R_all_spec; [rewrite Hg1; reflexivity | assumption | assumption|].
    intros T HT. apply (ICP_call_ok_R g Ds T _ Hin Hpart HT Hdiv).
    intros _. lia.
  - rewrite (map_ext_in _
               (with_R (hashx (2 ^ Radix_R (Radix g1) - 1) (ModelIII_shift g1))
                  (2 ^ Radix_R (Radix g1)) (num_groups g1)
                  (2 ^ Radix_R (Radix g1) / num_groups g1) (fun _ => 0))).
    + apply (ColBP_III_spec TEST junk g1 Ds Hin Hr HS0 Hdiv).
      * cbn. unfold shift. lia.
      * intros D HD. apply (Hpart D HD).
    + intros T HT.
      destruct (worker_facts g Ds T Hin HT) as (_ & _ & _ & _ & HidR & _).
      rewrite ICP_result_scanned by (rewrite HidR; reflexivity).
      cbn [fst snd]. rewrite HidR. unfold ICP_shift. rewrite HS0. reflexivity.
Qed.

(** The statistics of the workers of Model III. *)
Lemma III_final_stats TEST g Ds D :
  matches (III_final TEST g Ds D) = u64 (len (tuples (SubS D))) /\
  checksum (III_final TEST g Ds D)
  = u64 (sum_keys (tuples (SubR D))
         + sum_vals TEST (all_R Ds) (tuples (SubS D))).
Proof. split; reflexivity. Qed.

Lemma II_final_stats TEST g Ds D :
  matches (II_final TEST g Ds D) = u64 (len (tuples (SubS D))) /\
  checksum (II_final TEST g Ds D)
  = u64 (sum_keys (tuples (SubR D))
         + sum_vals TEST (all_R Ds) (tuples (SubS D))).
Proof. split; reflexivity. Qed.

Lemma final_stats_stats TEST R D :
  matches (final_stats TEST R D) = u64 (len (tuples (SubS D))) /\
  checksum (final_stats TEST R D)
  = u64 (sum_keys (tuples (SubR D)) + sum_vals TEST R (tuples (SubS D))).
Proof. split; reflexivity. Qed.

(** S partitioned, then R, then Model II up to its cleanup. *)
Lemma partition_R_then_II TEST junk sched g Ts :
  join_input g Ts -> nonempty_R Ts -> nonempty_S Ts ->
  1 <= Radix_R (Radix g) <= 30 -> Radix_S (Radix g) = Radix_R (Radix g) ->
  2 ^ Radix_R (Radix g) mod num_groups g = 0 ->
  num_groups g <= Threads_N g ->
  exists Ts2,
    ICP_R_all g
      (map (fun T => set_SubS T
                       (fst (ICP_result g (SubS T) (Radix_S (Radix g))))
                       (snd (ICP_result g (SubS T) (Radix_S (Radix g))))) Ts)
    = Some (g, Ts2) /\
    (frees_in_order (num_groups g) sched ->
     ColBP_II TEST junk sched g Ts2 = Some (map (II_final TEST g Ts) Ts)) /\
    (frees_early (num_groups g) sched ->
     ColBP_II TEST junk sched g Ts2 = None).
Proof.
  intros Hin HpR HpS Hr HRS Hdiv HGN.
  pose proof Hin as (Hok & HR & HS & HR31 & HS32 & Hpk & Hfk).
  pose proof Hok as (HN & HN1 & HG & _).
  assert (Hg1 : ICP_globals g id_R = g).
  { unfold ICP_globals. rewrite HRS.
    destruct (Z.eqb_spec (Radix_R (Radix g)) 0); [lia | reflexivity]. }
  eexists. split.
  - rewrite ICP_R_all_spec; [rewrite Hg1; reflexivity | assumption | |].
    + unfold len in *. rewrite length_map. assumption.
    + intros T' HT'. apply in_map_iff in HT'. destruct HT' as (T & <- & HT).
      cbn [set_SubS SubR].
      apply (ICP_call_ok_R g Ts T _ Hin HpR HT Hdiv). intros HS0. lia.
  - rewrite map_map.
    rewrite (map_ext_in _
               (fun D => with_S (hashx (2 ^ Radix_R (Radix g) - 1) 0)
                           (2 ^ Radix_R (Radix g)) (num_groups g)
                           (2 ^ Radix_R (Radix g) / num_groups g) (fun _ => 0)
                           (with_R (hashx (2 ^ Radix_R (Radix g) - 1) 0)
                              (2 ^ Radix_R (Radix g)) (num_groups g)
                              (2 ^ Radix_R (Radix g) / num_groups g)
                              (fun _ => 0) D))).
    + split.
      * apply (ColBP_II_spec TEST junk g Ts Hin Hr HRS Hdiv HGN HpR HpS).
      * apply (ColBP_II_early TEST junk g Ts Hin Hr HRS Hdiv HGN HpR HpS).
    + intros T HT.
      destruct (worker_facts g Ts T Hin HT) as (_ & _ & _ & _ & HidR & HidS & _).
      cbn [set_SubS SubR BlocksR].
      rewrite !ICP_result_scanned.
      * cbn [fst snd]. rewrite HidR, HidS. unfold ICP_shift. rewrite HRS.
        destruct (Z.eqb_spec (Radix_R (Radix g)) 0); [lia|]. reflexivity.
      * first [ rewrite HidS; unfold ICP_nsb; rewrite HRS, Z.ltb_irrefl; reflexivity
                | rewrite HidR; reflexivity ].
      * first [ rewrite HidS; unfold ICP_nsb; rewrite HRS, Z.ltb_irrefl; reflexivity
                | rewrite HidR; reflexivity ].
Qed.

Lemma flat_map_map {X Y Z0} (f : Y -> list Z0) (h : X -> Y) (l : list X) :
  flat_map f (map h l) = flat_map (fun x => f (h x)) l.
Proof.
  induction l as [|x l IH]; [reflexivity|]. cbn [map flat_map]. rewrite IH.
  reflexivity.
Qed.

(** The workers after a pass over S that left the tuples in place. *)
Lemma join_input_unpartitioned g g' Ts (B : thread_t -> block_meta_t) :
  Threads_N g' = Threads_N g -> num_groups g' = num_groups g ->
  RelR_size g' = RelR_size g -> RelS_size g' = RelS_size g ->
  join_input g Ts ->
  let Ts' := map (fun T => set_SubS T (SubS T) (B T)) Ts in
  join_input g' Ts' /\ all_R Ts' = all_R Ts /\ all_S Ts' = all_S Ts /\
  (nonempty_R Ts -> nonempty_R Ts').
Proof.
  intros HN HG HR HS ((HNT & HN1 & HG1 & Hall) & HsR & HsS & HR31 & HS32 & Hpk & Hfk) Ts'.
  assert (ER : all_R Ts' = all_R Ts).
  { unfold Ts', all_R. rewrite flat_map_map. reflexivity. }
  assert (ES : all_S Ts' = all_S Ts).
  { unfold Ts', all_S. rewrite flat_map_map. reflexivity. }
  split; [|split; [exact ER|split; [exact ES|]]].
  - unfold join_input. rewrite ER, ES, HR, HS.
    split; [|repeat split; assumption || lia].
    unfold threads_ok. rewrite HN, HG. unfold Ts', len in *. rewrite length_map.
    repeat split; try assumption.
    all: rewrite nth_error_map in H;
      destruct (nth_error Ts k) as [T0|] eqn:Hk; [|discriminate];
      injection H as <-; destruct (Hall k T0 Hk) as (H1 & H2 & H3 & H4 & H5 & H6);
      assumption.
  - intros Hp T' HT'. unfold Ts' in HT'. apply in_map_iff in HT'.
    destruct HT' as (T & <- & HT). apply (Hp T HT).
Qed.

Lemma pow2_succ_divisible r G :
  0 <= r -> 1 <= G -> 2 ^ r mod G = 0 -> 2 ^ (r + 1) mod G = 0.
Proof.
  intros Hr HG H. apply Z.mod_divide in H; [|lia].
  apply Z.mod_divide; [lia|]. replace (r + 1) with (Z.succ r) by lia.
  rewrite Z.pow_succ_r by assumption.
  apply Z.divide_mul_r. assumption.
Qed.

Lemma reports_positive g Ts :
  0 < reports g Ts -> user_defined (Radix g) = false.
Proof.
  intros H. destruct (user_defined (Radix g)) eqn:E; [|reflexivity].
  exfalso. unfold reports in H. rewrite E in H.
  rewrite count_true_all_false in H by reflexivity. lia.
Qed.

(** More workers than tuples of R cannot be. *)
Lemma workers_lt_2_32 g Ts :
  join_input g Ts -> nonempty_R Ts -> Threads_N g < 2 ^ 32.
Proof.
  intros Hin Hpart. pose proof Hin as (Hok & HR & HS & HR31 & _).
  pose proof Hok as (HN & _).
  assert (len Ts <= len (all_R Ts)).
  { clear - Hpart Hok. destruct Hok as (_ & _ & _ & Hall).
    assert (Hsz : forall T, In T Ts -> 1 <= len (tuples (SubR T))).
    { intros T HT. destruct (In_nth_error _ _ HT) as (k & Hk).
      destruct (Hall k T Hk) as (_ & _ & E & _). rewrite <- E.
      apply (Hpart T HT). }
    clear Hall Hpart. unfold all_R.
    induction Ts as [|T Ts' IH]; [cbn; lia|].
    cbn [flat_map]. rewrite len_app, len_cons.
    pose proof (Hsz T (or_introl eq_refl)).
    assert (len Ts' <= len (flat_map (fun T0 => tuples (SubR T0)) Ts'))
      by (apply IH; intros T0 HT0; apply Hsz; right; assumption).
    lia. }
  change (2 ^ 32) with 4294967296. change (2 ^ 31) with 2147483648 in HR31.
  lia.
Qed.

(** The run: the totals [execute_join] prints. *)
Lemma execute_join_spec TEST junk sched g Ts :
  legal_configuration g Ts -> cleanup_in_order g sched ->
  execute_join TEST junk sched g Ts = Some (join_totals TEST Ts).
Proof.
  intros (Hin & HHSO & Hch & Hcfg) Hsched. cbn zeta in Hcfg.
  pose proof Hin as (Hok & HR & HS & HR31 & HS32 & Hpk & Hfk).
  pose proof Hok as (HN & HN1 & HG & _).
  assert (HlenS : 0 <= len (all_S Ts) < 2 ^ 64).
  { pose proof (len_nonneg (all_S Ts)).
    change (2 ^ 64) with 18446744073709551616.
    change (2 ^ 32) with 4294967296 in HS32. lia. }
  unfold execute_join, join_threads.
  destruct Hcfg as [(HR0 & HS0) | (Hr & Hdiv & HpR & Hcase)].
  - (* Model I *)
    rewrite HR0. cbn [Z.ltb Z.compare bind].
    unfold join_thread_dispatch. rewrite HR0, HS0. cbn [Z.eqb andb].
    rewrite (ColBP_I_spec TEST junk g Ts Hin HR0 HS0). cbn [bind]. f_equal.
    apply totals_of_final; [|assumption].
    intros D _. apply final_stats_stats.
  - destruct (Z.ltb_spec 0 (Radix_R (Radix g))) as [_|]; [|lia].
    destruct Hcase as [(HS0 & Hlog) | (HRS & HpS & HGN & Hud)].
    + (* Model III *)
      rewrite (ICP_S_all_radix0 g Ts HS0). cbn [bind].
      destruct (partition_R_then_III TEST junk g Ts Hin HpR Hr HS0 Hdiv Hlog)
        as (g1 & Ts1 & E1 & ERad & E3).
      rewrite E1. cbn [bind]. rewrite ERad.
      unfold join_thread_dispatch. rewrite HS0.
      destruct (Z.eqb_spec (Radix_R (Radix g)) 0) as [|_]; [lia|].
      cbn [Z.eqb andb negb]. rewrite E3. cbn [bind]. f_equal.
      apply totals_of_final; [|assumption].
      intros D _. apply III_final_stats.
    + pose proof (workers_lt_2_32 g Ts Hin HpR) as HN32.
      rewrite (ICP_S_all_spec g Ts ltac:(lia) HN1 HN HN32 HHSO).
      2:{ intros T HT. apply (ICP_call_ok_S g Ts T Hin HpS HT).
          rewrite HRS. assumption. }
      destruct (Z.eqb_spec (reports g Ts) (Threads_N g)) as [Eall|Enot].
      * (* all the workers reported: the switch, then Model III *)
        cbn [bind].
        assert (Hud' : user_defined (Radix g) = false)
          by (apply (reports_positive g Ts); lia).
        specialize (Hud Hud').
        pose proof (log2_up_le_31 _ HR31) as Hl31.
        set (g' := switched g (reports g Ts)).
        assert (Hg' : g' = {| Radix := {| Radix_R := Radix_R (Radix g) + 1;
                                          Radix_S := 0;
                                          user_defined := user_defined (Radix g) |};
                              Threads_N := Threads_N g; num_groups := num_groups g;
                              RelR_size := RelR_size g; RelS_size := RelS_size g;
                              HighSkewObserved := reports g Ts;
                              ChangedRadixS := true;
                              ModelIII_shift := ModelIII_shift g |}).
        { unfold g', switched, skew_switch.
          cbn [set_HighSkewObserved HighSkewObserved Threads_N Radix num_groups
               RelR_size RelS_size ModelIII_shift Z.eqb andb].
          rewrite Eall, Z.eqb_refl.
          rewrite u32_small by (change (2 ^ 32) with 4294967296; lia).
          reflexivity. }
        clearbody g'. subst g'.
        match goal with
        | |- context [ICP_R_all ?g0 ?Ts0] => set (g' := g0); set (Ts' := Ts0)
        end.
        destruct (join_input_unpartitioned g g' Ts
                    (fun T => {| blocks_N := ICP_num_blocks (size (SubS T));
                                 Pos := [] |})
                    eq_refl eq_refl eq_refl eq_refl Hin)
          as (Hin' & ER & ES & Hpart').
        fold Ts' in Hin', ER, ES, Hpart'.
        destruct (partition_R_then_III TEST junk g' Ts' Hin' (Hpart' HpR))
          as (g1 & Ts1 & E1 & ERad & E3).
        { cbn. lia. }
        { reflexivity. }
        { cbn. apply pow2_succ_divisible; lia. }
        { cbn. lia. }
        rewrite E1. cbn [bind]. rewrite ERad.
        unfold join_thread_dispatch. cbn [g' Radix Radix_R Radix_S].
        destruct (Z.eqb_spec (Radix_R (Radix g) + 1) 0) as [|_]; [lia|].
        cbn [Z.eqb andb negb]. rewrite E3. cbn [bind]. f_equal.
        unfold join_totals. rewrite <- ER, <- ES.
        apply totals_of_final; [|rewrite ES; assumption].
        intros D _. apply III_final_stats.
      * (* Model II *)
        cbn [bind].
        assert (Hord : frees_in_order (num_groups g) sched)
          by (destruct Hsched as [E0|H]; [lia|exact H]).
        set (g' := if estimating g
                   then set_HighSkewObserved g (reports g Ts) else g).
        assert (Hin' : join_input g' Ts)
          by (unfold g'; destruct (estimating g); exact Hin).
        assert (ERad : Radix g' = Radix g)
          by (unfold g'; destruct (estimating g); reflexivity).
        assert (EG : num_groups g' = num_groups g)
          by (unfold g'; destruct (estimating g); reflexivity).
        assert (ERes : forall Sub rdx, ICP_result g' Sub rdx = ICP_result g Sub rdx)
          by (intros; unfold g'; destruct (estimating g); reflexivity).
        destruct (partition_R_then_II TEST junk sched g' Ts Hin' HpR HpS)
          as (Ts2 & E2 & E3 & _).
        { rewrite ERad. assumption. }
        { rewrite ERad. assumption. }
        { rewrite ERad. unfold g'. destruct (estimating g); assumption. }
        { unfold g'. destruct (estimating g); assumption. }
        rewrite EG in E3. specialize (E3 Hord).
        rewrite ERad in E2.
        rewrite (map_ext _ _ (fun T => f_equal2 (set_SubS T)
                                (f_equal fst (ERes (SubS T) (Radix_S (Radix g))))
                                (f_equal snd (ERes (SubS T) (Radix_S (Radix g))))))
          in E2.
        rewrite E2. cbn [bind]. rewrite ERad.
        unfold join_thread_dispatch. rewrite HRS, Z.eqb_refl.
        destruct (Z.eqb_spec (Radix_R (Radix g)) 0) as [|_]; [lia|].
        cbn [andb negb]. rewrite E3. cbn [bind]. f_equal.
        apply totals_of_final; [|assumption].
        intros D _. apply II_final_stats.
Qed.

(** The run of Model II in which worker 0 frees [Threads.HTables]
    before the worker of another group has read it: nothing is
    printed. *)
Lemma execute_join_early TEST junk sched g Ts :
  legal_configuration g Ts ->
  1 <= Radix_S (Radix g) -> user_defined (Radix g) = true ->
  frees_early (num_groups g) sched ->
  execute_join TEST junk sched g Ts = None.
Proof.
  intros (Hin & HHSO & Hch & Hcfg) HS1 Hud Hearly. cbn zeta in Hcfg.
  pose proof Hin as (Hok & HR & HS & HR31 & HS32 & Hpk & Hfk).
  pose proof Hok as (HN & HN1 & HG & _).
  unfold execute_join, join_threads.
  destruct Hcfg as [(HR0 & HS0) | (Hr & Hdiv & HpR & Hcase)]; [lia|].
  destruct (Z.ltb_spec 0 (Radix_R (Radix g))) as [_|]; [|lia].
  destruct Hcase as [(HS0 & Hlog) | (HRS & HpS & HGN & _)]; [lia|].
  pose proof (workers_lt_2_32 g Ts Hin HpR) as HN32.
  rewrite (ICP_S_all_spec g Ts ltac:(lia) HN1 HN HN32 HHSO).
  2:{ intros T HT. apply (ICP_call_ok_S g Ts T Hin HpS HT).
      rewrite HRS. assumption. }
  assert (Hrep : reports g Ts = 0).
  { unfold reports. rewrite Hud.
    apply count_true_all_false. reflexivity. }
  destruct (Z.eqb_spec (reports g Ts) (Threads_N g)) as [Eall|Enot]; [lia|].
  cbn [bind].
  set (g' := if estimating g
             then set_HighSkewObserved g (reports g Ts) else g).
  assert (Hin' : join_input g' Ts)
    by (unfold g'; destruct (estimating g); exact Hin).
  assert (ERad : Radix g' = Radix g)
    by (unfold g'; destruct (estimating g); reflexivity).
  assert (EG : num_groups g' = num_groups g)
    by (unfold g'; destruct (estimating g); reflexivity).
  assert (ERes : forall Sub rdx, ICP_result g' Sub rdx = ICP_result g Sub rdx)
    by (intros; unfold g'; destruct (estimating g); reflexivity).
  destruct (partition_R_then_II TEST junk sched g' Ts Hin' HpR HpS)
    as (Ts2 & E2 & _ & E3).
  { rewrite ERad. assumption. }
  { rewrite ERad. assumption. }
  { rewrite ERad. unfold g'. destruct (estimating g); assumption. }
  { unfold g'. destruct (estimating g); assumption. }
  rewrite EG in E3. specialize (E3 Hearly).
  rewrite ERad in E2.
  rewrite (map_ext _ _ (fun T => f_equal2 (set_SubS T)
                          (f_equal fst (ERes (SubS T) (Radix_S (Radix g))))
                          (f_equal snd (ERes (SubS T) (Radix_S (Radix g))))))
    in E2.
  rewrite E2. cbn [bind]. rewrite ERad.
  unfold join_thread_dispatch. rewrite HRS, Z.eqb_refl.
  destruct (Z.eqb_spec (Radix_R (Radix g)) 0) as [|_]; [lia|].
  cbn [andb negb]. rewrite E3. reflexivity.
Qed.

(** ** The results of the join *)

(** With the keys stored in place of the payloads, a probe reads the key
    it looks up. *)
Lemma sum_vals_keys R S :
  primary_key R -> foreign_key S R -> sum_vals true R S = sum_keys S.
Proof.
  intros Hpk Hfk. unfold foreign_key in Hfk. rewrite Forall_forall in Hfk.
  induction S as [|s S IH]; [reflexivity|].
  cbn [sum_vals sum_keys fold_right]. fold (sum_vals true R S) (sum_keys S).
  rewrite IH by (intros x Hx; apply Hfk; right; assumption). f_equal.
  destruct (primary_key_In R (key s) Hpk (Hfk s (or_introl eq_refl)))
    as (t & Ht & E).
  rewrite <- E. rewrite val_of_In by (try apply primary_key_NoDup; assumption).
  reflexivity.
Qed.

Lemma sum_keys_bound (l : list tuple_t) B :
  0 <= B -> Forall (fun t => 0 <= key t <= B) l ->
  0 <= sum_keys l <= len l * B.
Proof.
  intros HB H. induction H as [|t l Ht Hl IH]; [cbn; lia|].
  cbn [sum_keys fold_right]. fold (sum_keys l). rewrite len_cons. nia.
Qed.

(** The checksum of a test run does not wrap. *)
Lemma test_checksum_small g Ts :
  join_input g Ts ->
  0 <= sum_keys (all_R Ts) + sum_keys (all_S Ts) < 2 ^ 64.
Proof.
  intros (Hok & HR & HS & HR31 & HS32 & Hpk & Hfk).
  assert (H1 : 0 <= sum_keys (all_R Ts) <= len (all_R Ts) * len (all_R Ts)).
  { apply sum_keys_bound; [apply len_nonneg|]. apply Forall_forall.
    intros t Ht. pose proof (primary_key_range _ t Hpk Ht). lia. }
  assert (H2 : 0 <= sum_keys (all_S Ts) <= len (all_S Ts) * len (all_R Ts)).
  { apply sum_keys_bound; [apply len_nonneg|].
    unfold foreign_key in Hfk. rewrite Forall_forall in *.
    intros t Ht. pose proof (Hfk t Ht). lia. }
  pose proof (len_nonneg (all_S Ts)).
  change (2 ^ 64) with 18446744073709551616.
  change (2 ^ 31) with 2147483648 in HR31. change (2 ^ 32) with 4294967296 in HS32.
  nia.
Qed.

(** The totals of a test run. *)
Lemma execute_join_test junk sched g Ts :
  legal_configuration g Ts -> cleanup_in_order g sched ->
  execute_join true junk sched g Ts
  = Some (len (all_S Ts), sum_keys (all_R Ts) + sum_keys (all_S Ts)).
Proof.
  intros Hl Hs. pose proof Hl as (Hin & _).
  rewrite (execute_join_spec true junk sched g Ts Hl Hs). unfold join_totals.
  pose proof Hin as (_ & _ & _ & _ & _ & Hpk & Hfk).
  rewrite (sum_vals_keys _ _ Hpk Hfk).
  rewrite u64_small by (apply (test_checksum_small g Ts Hin)). reflexivity.
Qed.

(** C4 (amended): in the test configuration, the keys in place of the
    payloads, every legal run of Model I or III, and every legal run of
    Model II in which [Threads.HTables] is read before worker 0 frees
    it, reports |S| matches and the checksum (sum of the keys of R) +
    (sum of the keys of S); so two such runs on the same R and S report
    the same totals, whatever their thread counts, radix settings and
    models.  No radix pair is routed to Model IV. *)
Theorem C4_checksum (junk : Z -> nat -> Z) (sched : list Z) (g : globals)
    (Ts : list thread_t) :
  legal_configuration g Ts -> cleanup_in_order g sched ->
  execute_join true junk sched g Ts
    = Some (len (all_S Ts), sum_keys (all_R Ts) + sum_keys (all_S Ts)) /\
  (forall junk' sched' g' Ts',
     legal_configuration g' Ts' -> cleanup_in_order g' sched' ->
     all_R Ts' = all_R Ts -> all_S Ts' = all_S Ts ->
     execute_join true junk' sched' g' Ts'
     = execute_join true junk sched g Ts) /\
  (forall Radix, join_thread_dispatch Radix <> Run Model_IV).
Proof.
  intros Hlegal Hsched.
  split; [apply execute_join_test; assumption|]. split.
  - intros junk' sched' g' Ts' Hl' Hs' ER ES.
    rewrite !execute_join_test by assumption.
    rewrite ER, ES. reflexivity.
  - intros Radix. unfold join_thread_dispatch.
    destruct (Radix_R Radix =? Radix_S Radix);
      [destruct (Radix_R Radix =? 0)|destruct (Radix_S Radix =? 0)];
      discriminate.
Qed.

Lemma skew_switch_other tid g : tid <> 0 -> skew_switch tid g = g.
Proof.
  intros H. unfold skew_switch.
  destruct (Z.eqb_spec tid 0); [contradiction | reflexivity].
Qed.

(** Once the flag is raised, no call of [ICP] changes the radix. *)
Lemma ICP_after_switch g peers tid Sub radix Blocks :
  ChangedRadixS g = true -> 1 <= radix <= 30 -> ICP_call_ok g Sub radix ->
  exists g1 Sub' Blocks',
    ICP g peers tid Sub radix Blocks = Some (g1, Sub', Blocks') /\
    Radix g1 = Radix g /\ ChangedRadixS g1 = true.
Proof.
  intros Hch Hr Hok.
  rewrite (ICP_no_estimate g peers tid Sub radix Blocks Hr Hok) by auto.
  eexists. eexists. eexists. split; [reflexivity|].
  destruct (ICP_globals_fields g (id Sub)) as (H1 & H2 & _).
  split; congruence.
Qed.

(** C7: the radix switch fires if and only if all the N workers
    reported high skew, which needs a radix that is not user-defined;
    worker zero then sets S_bits to 0 and R_bits to R_bits + 1 and raises
    the flag, the restarted [ICP] of S returns at once and leaves S as it
    was; once the flag is raised no later call of [ICP] switches again. *)
Theorem C7_skew_switch (g : globals) (Ts : list thread_t) :
  1 <= Radix_S (Radix g) <= 30 ->
  1 <= len Ts -> Threads_N g = len Ts -> Threads_N g < 2 ^ 32 ->
  HighSkewObserved g = 0 -> ChangedRadixS g = false ->
  (forall T, In T Ts ->
     id (SubS T) = id_S /\ ICP_call_ok g (SubS T) (Radix_S (Radix g))) ->
  exists owns g' Ts',
    map_opt (fun T => ICP_own_report g (SubS T) (Radix_S (Radix g))) Ts
      = Some owns /\
    ICP_S_all g Ts = Some (g', Ts') /\
    (ChangedRadixS g' = true <-> count_true owns = Threads_N g) /\
    (count_true owns = Threads_N g ->
       user_defined (Radix g) = false /\
       g' = skew_switch 0 (set_HighSkewObserved g (Threads_N g)) /\
       Radix_S (Radix g') = 0 /\
       Radix_R (Radix g') = u32 (Radix_R (Radix g) + 1) /\
       map (fun T => tuples (SubS T)) Ts' = map (fun T => tuples (SubS T)) Ts /\
       forall peers tid Sub Blocks,
         ICP g' peers tid Sub (Radix_S (Radix g')) Blocks
         = Some (g', Sub, Blocks)) /\
    (count_true owns <> Threads_N g -> Radix g' = Radix g) /\
    (forall tid g0, tid <> 0 -> skew_switch tid g0 = g0) /\
    (forall g0 peers tid Sub radix Blocks,
       ChangedRadixS g0 = true -> 1 <= radix <= 30 ->
       ICP_call_ok g0 Sub radix ->
       exists g1 Sub' Blocks',
         ICP g0 peers tid Sub radix Blocks = Some (g1, Sub', Blocks') /\
         Radix g1 = Radix g0 /\ ChangedRadixS g1 = true).
Proof.
  intros Hr HTs HN HN32 HHSO Hch Hall.
  pose proof (ICP_own_report_all g Ts Hr Hall) as Hown.
  pose proof (ICP_S_all_spec g Ts Hr HTs HN HN32 HHSO Hall) as HS.
  fold (reports g Ts) in HS.
  destruct (Z.eqb_spec (reports g Ts) (Threads_N g)) as [Eall|Enot].
  - eexists. eexists. eexists. split; [exact Hown|].
    fold (reports g Ts). split; [exact HS|].
    assert (Hg' : switched g (reports g Ts)
                  = {| Radix := {| Radix_R := u32 (Radix_R (Radix g) + 1);
                                   Radix_S := 0;
                                   user_defined := user_defined (Radix g) |};
                       Threads_N := Threads_N g; num_groups := num_groups g;
                       RelR_size := RelR_size g; RelS_size := RelS_size g;
                       HighSkewObserved := reports g Ts;
                       ChangedRadixS := true;
                       ModelIII_shift := ModelIII_shift g |}).
    { unfold switched, skew_switch.
      cbn [set_HighSkewObserved HighSkewObserved Threads_N Radix num_groups
           RelR_size RelS_size ModelIII_shift Z.eqb andb].
      rewrite Eall, Z.eqb_refl. reflexivity. }
    cbn [fst snd]. split; [|split; [|split; [|split]]].
    + rewrite Hg'. cbn. tauto.
    + intros _. split; [apply (reports_positive g Ts); lia|].
      split; [unfold switched; rewrite Eall; reflexivity|].
      rewrite Hg'. cbn [Radix Radix_S Radix_R].
      split; [reflexivity|]. split; [reflexivity|].
      split; [rewrite map_map; reflexivity|].
      intros peers tid Sub Blocks. apply ICP_radix_0.
    + intros Hne. contradiction.
    + intros tid g0. apply skew_switch_other.
    + intros g0 peers tid Sub radix Blocks. apply ICP_after_switch.
  - eexists. eexists. eexists. split; [exact Hown|].
    fold (reports g Ts). split; [exact HS|]. cbn [fst snd].
    split; [|split; [|split; [|split]]].
    + assert (Hc' : ChangedRadixS (if estimating g
                                   then set_HighSkewObserved g (reports g Ts)
                                   else g) = false)
        by (destruct (estimating g); exact Hch).
      rewrite Hc'. split; [discriminate | intros E; contradiction].
    + intros E. contradiction.
    + intros _. destruct (estimating g); reflexivity.
    + intros tid g0. apply skew_switch_other.
    + intros g0 peers tid Sub radix Blocks. apply ICP_after_switch.
Qed.

(** ** The runs of the samples *)

(** The samples are inputs of the join. *)
Lemma sample_join_input G :
  1 <= G <= 2 ->
  join_input (mk_globals 1 1 true 2 G 4 6)
    (if G =? 1 then sample_threads_I else sample_threads).
Proof.
  intros HG. assert (G = 1 \/ G = 2) as [-> | ->] by lia; cbn [Z.eqb Pos.eqb].
  - unfold join_input, threads_ok. cbn.
    repeat split; try lia; try apply Permutation_refl;
      try (repeat constructor; cbn; lia).
    all: destruct k as [|[|[|k]]]; cbn in H; try discriminate;
      injection H as <-; reflexivity.
  - unfold join_input, threads_ok. cbn.
    repeat split; try lia; try apply Permutation_refl;
      try (repeat constructor; cbn; lia).
    all: destruct k as [|[|[|k]]]; cbn in H; try discriminate;
      injection H as <-; reflexivity.
Qed.

(** Every worker of the sample has tuples of R and of S. *)
Lemma sample_nonempty_R : nonempty_R sample_threads.
Proof.
  intros T [<- | [<- | []]]; cbn; lia.
Qed.

Lemma sample_nonempty_S : nonempty_S sample_threads.
Proof.
  intros T [<- | [<- | []]]; cbn; lia.
Qed.

(** Model II on the sample. *)
Lemma sample_legal_II :
  legal_configuration (mk_globals 1 1 true 2 2 4 6) sample_threads.
Proof.
  split; [exact (sample_join_input 2 ltac:(lia))|].
  split; [reflexivity|]. split; [reflexivity|]. cbn zeta. right.
  split; [cbn; lia|]. split; [reflexivity|].
  split; [exact sample_nonempty_R|]. right.
  split; [reflexivity|]. split; [exact sample_nonempty_S|].
  split; [cbn; lia|]. cbn. discriminate.
Qed.

(** Model III on the sample. *)
Lemma sample_legal_III :
  legal_configuration (mk_globals 1 0 true 2 2 4 6) sample_threads.
Proof.
  split; [exact (sample_join_input 2 ltac:(lia))|].
  split; [reflexivity|]. split; [reflexivity|]. cbn zeta. right.
  split; [cbn; lia|]. split; [reflexivity|].
  split; [exact sample_nonempty_R|]. left.
  split; [reflexivity|]. cbn. lia.
Qed.

(** Model I on the sample. *)
Lemma sample_legal_I :
  legal_configuration (mk_globals 0 0 true 2 1 4 6) sample_threads_I.
Proof.
  split; [exact (sample_join_input 1 ltac:(lia))|].
  split; [reflexivity|]. split; [reflexivity|]. cbn zeta. left.
  split; reflexivity.
Qed.

(** Worker 1 takes its first line of the cleanup before worker 0 its
    second. *)
Lemma sample_in_order : frees_in_order 2 [1; 0; 0].
Proof.
  intros g Hg. assert (g = 1) as -> by lia.
  exists [], [0; 0]. split; [reflexivity|]. cbn. lia.
Qed.

(** Worker 0 takes both lines before worker 1 takes its first. *)
Lemma sample_early : frees_early 2 [0; 0; 1].
Proof.
  exists 1. split; [lia|]. intros a b E.
  destruct a as [|x [|y [|z a]]]; cbn in E.
  - discriminate.
  - injection E as _ E. discriminate.
  - injection E as <- <- _. cbn. lia.
  - injection E as _ _ _ E. destruct a; discriminate.
Qed.

(** The workers in the order of the thread table. *)
Lemma sample_early_nil : frees_early 2 [].
Proof.
  exists 1. split; [lia|]. intros a b E. destruct a; discriminate.
Qed.

(** C1: two workers in two groups run Model II on the sample, a legal
    configuration.  When worker 0 takes both lines of the cleanup before
    worker 1 takes its first, and when the workers take them one after
    the other in the order of the thread table, worker 1 reads
    [Threads.HTables[1]] from the array worker 0 has freed and
    [execute_join] prints no total; when worker 1 takes its first line
    before worker 0 its second, it prints the 6 matches of |S| = 6. *)
Theorem C1_cleanup_race (TEST : bool) (junk : Z -> nat -> Z) :
  legal_configuration (mk_globals 1 1 true 2 2 4 6) sample_threads /\
  execute_join TEST junk [0; 0; 1] (mk_globals 1 1 true 2 2 4 6)
    sample_threads = None /\
  execute_join TEST junk [] (mk_globals 1 1 true 2 2 4 6)
    sample_threads = None /\
  exists global_checksum,
    execute_join TEST junk [1; 0; 0] (mk_globals 1 1 true 2 2 4 6)
      sample_threads = Some (6, global_checksum).
Proof.
  split; [exact sample_legal_II|]. split; [|split].
  - apply execute_join_early;
      [exact sample_legal_II|cbn; lia|reflexivity|exact sample_early].
  - apply execute_join_early;
      [exact sample_legal_II|cbn; lia|reflexivity|exact sample_early_nil].
  - rewrite (execute_join_spec TEST junk [1; 0; 0] _ _ sample_legal_II)
      by (right; exact sample_in_order).
    eexists. reflexivity.
Qed.

(** Model III on the sample, and Model II when worker 1 is first in the
    cleanup. *)
Lemma C4_checksum_witness :
  execute_join true sample_junk [] (mk_globals 1 0 true 2 2 4 6)
    sample_threads
  = Some (len (all_S sample_threads),
          sum_keys (all_R sample_threads) + sum_keys (all_S sample_threads)) /\
  execute_join true sample_junk [1; 0; 0] (mk_globals 1 1 true 2 2 4 6)
    sample_threads
  = execute_join true sample_junk [] (mk_globals 1 0 true 2 2 4 6)
      sample_threads.
Proof.
  destruct (C4_checksum sample_junk [] (mk_globals 1 0 true 2 2 4 6)
              sample_threads sample_legal_III (or_introl eq_refl))
    as (H1 & H2 & _).
  split; [exact H1|].
  apply (H2 sample_junk [1; 0; 0] (mk_globals 1 1 true 2 2 4 6)
           sample_threads sample_legal_II (or_intror sample_in_order)
           eq_refl eq_refl).
Defined.

(** C4, a counterexample: the radix pair (2, 1), R partitioned finer
    than S, is the one the claim routes to Model IV.  On the sample both
    relations are partitioned, then [join_thread] stops at its
    [assert(false)] and no total is printed, where the run of Model III
    on the same R and S prints 6 matches and the checksum 23. *)
Lemma C4_counterexample :
  join_thread_dispatch (Radix (mk_globals 2 1 true 2 2 4 6)) = AssertFalse /\
  (exists g1 Ts1 g2 Ts2,
     ICP_S_all (mk_globals 2 1 true 2 2 4 6) sample_threads = Some (g1, Ts1) /\
     ICP_R_all g1 Ts1 = Some (g2, Ts2) /\
     join_thread_dispatch (Radix g2) = AssertFalse) /\
  execute_join true sample_junk [] (mk_globals 2 1 true 2 2 4 6)
    sample_threads = None /\
  execute_join true sample_junk [] (mk_globals 1 0 true 2 2 4 6)
    sample_threads = Some (6, 23).
Proof.
  split; [reflexivity|]. split; [|split; vm_compute; reflexivity].
  eexists. eexists. eexists. eexists.
  split; [vm_compute; reflexivity|].
  split; [vm_compute; reflexivity|reflexivity].
Qed.

(** Five buckets and two workers: the last bucket is not zeroed. *)
Lemma C9_model_I_zeroing_witness :
  rd (zeroed_table sample_junk 2 5) 4 = Some (sample_junk 0 4%nat).
Proof.
  apply (C9_model_I_zeroing false sample_junk (mk_globals 0 0 true 2 1 4 6)
           sample_threads_I);
    [exact (sample_join_input 1 ltac:(lia)) | reflexivity | reflexivity
    | cbn; lia].
Defined.

(** The skewed sample is a call [ICP] accepts. *)
Lemma sample_skewed_ok T :
  In T sample_skewed ->
  id (SubS T) = id_S /\
  ICP_call_ok (mk_globals 1 1 false 1 1 4 30) (SubS T) 1.
Proof.
  intros [<- | []]. split; [reflexivity|].
  unfold ICP_call_ok. cbn.
  repeat split; try lia; try discriminate.
Qed.

(** The skewed sample. *)
Lemma C7_skew_switch_witness :
  exists owns g' Ts',
    map_opt (fun T => ICP_own_report (mk_globals 1 1 false 1 1 4 30)
                        (SubS T) 1) sample_skewed = Some owns /\
    ICP_S_all (mk_globals 1 1 false 1 1 4 30) sample_skewed = Some (g', Ts') /\
    (ChangedRadixS g' = true <-> count_true owns = 1).
Proof.
  destruct (C7_skew_switch (mk_globals 1 1 false 1 1 4 30) sample_skewed)
    as (owns & g' & Ts' & H1 & H2 & H3 & _);
    [cbn; lia | cbn; lia | reflexivity | cbn; lia | reflexivity | reflexivity
    | exact sample_skewed_ok |].
  exists owns, g', Ts'. split; [exact H1|]. split; [exact H2 | exact H3].
Defined.

(** The runs of the samples, computed. *)
Example sample_run_I :
  execute_join false sample_junk [] (mk_globals 0 0 true 2 1 4 6)
    sample_threads_I
  = Some (6, 140).
Proof. vm_compute. reflexivity. Qed.

Example sample_run_II :
  execute_join false sample_junk [1; 0; 0] (mk_globals 1 1 true 2 2 4 6)
    sample_threads
  = Some (6, 140) /\
  execute_join false sample_junk [0; 1; 1; 0] (mk_globals 1 1 true 2 2 4 6)
    sample_threads
  = Some (6, 140) /\
  execute_join false sample_junk [0; 0; 1] (mk_globals 1 1 true 2 2 4 6)
    sample_threads
  = None.
Proof. repeat split; vm_compute; reflexivity. Qed.

Example sample_run_III :
  execute_join false sample_junk [] (mk_globals 1 0 true 2 2 4 6)
    sample_threads
  = Some (6, 140).
Proof. vm_compute. reflexivity. Qed.

(** On the skewed sample the one worker reports, and the radix switches. *)
Example sample_switch :
  exists g' Ts',
    ICP_S_all (mk_globals 1 1 false 1 1 4 30) sample_skewed = Some (g', Ts') /\
    ChangedRadixS g' = true /\
    Radix_R (Radix g') = 2 /\ Radix_S (Radix g') = 0 /\
    map (fun T => tuples (SubS T)) Ts'
    = map (fun T => tuples (SubS T)) sample_skewed.
Proof.
  eexists. eexists. split; [vm_compute; reflexivity|].
  repeat split.
Qed.

(** The run in which the switch fires: R_bits goes from 1 to 2, S is
    left as it was, and Model III joins. *)
Example sample_run_switch :
  execute_join false sample_junk [] (mk_globals 1 1 false 1 1 16 60)
    sample_switching
  = Some (60, 1336) /\
  execute_join true sample_junk [] (mk_globals 1 1 false 1 1 16 60)
    sample_switching
  = Some (60, 256).
Proof. split; vm_compute; reflexivity. Qed.

(** A radix pair (2, 1) stops at the assertion of [join_thread]. *)
Example sample_run_stops :
  execute_join true sample_junk [] (mk_globals 2 1 true 1 1 16 60)
    sample_switching
  = None.
Proof. vm_compute. reflexivity. Qed.

(** ** The tables the models allocate *)

(** The tables of Model II: one worker of every group allocates the
    table of the group. *)
Lemma ColBP_II_alloc_tables junk g Ts n :
  threads_ok g Ts -> num_groups g <= Threads_N g -> 0 <= n ->
  exists HTables,
    each_thread (ColBP_II_alloc junk n) Ts
      (repeat [] (Z.to_nat (num_groups g)))
    = Some (Ts, HTables) /\ tables_ok (num_groups g) n HTables.
Proof.
  intros Hok HGN Hn. pose proof Hok as (HNT & _ & HG & _).
  destruct (each_thread_phase (ColBP_II_alloc junk n)
              (fun k HTs => len HTs = num_groups g /\
                 forall h, 0 <= h < num_groups g -> h < Z.of_nat k ->
                   exists HT, rd HTs h = Some HT /\ len HT = n)
              (fun T => T) Ts (repeat [] (Z.to_nat (num_groups g))))
    as (HTs & E & Hl & Hh).
  - split; [unfold len; rewrite repeat_length; lia|]. intros h Hh Hk. lia.
  - intros k T HTs Hk (Hlen & Hall).
    destruct (threads_ok_nth g Ts k T Hok Hk) as (Htid & Hlt & Hgrp & _).
    unfold ColBP_II_alloc.
    destruct (Z.eqb_spec (tid T) (group T)) as [Eg|Eg].
    + assert (Hk' : 0 <= Z.of_nat k < num_groups g).
      { pose proof (Z.mod_pos_bound (tid T) (num_groups g) ltac:(lia)). lia. }
      destruct (wr_lt HTs (group T) (SafeMalloc junk (group T) n) ltac:(lia))
        as (HTs' & Ew).
      rewrite Ew. cbn [bind]. exists HTs'. split; [reflexivity|].
      split; [rewrite (wr_len _ _ _ _ Ew); assumption|].
      intros h Hh Hhk. destruct (Z.eq_dec h (group T)) as [->|Hne].
      * rewrite (rd_wr_eq _ _ _ _ Ew). eexists. split; [reflexivity|].
        apply len_SafeMalloc. lia.
      * rewrite (rd_wr_neq _ _ _ _ _ Ew) by congruence. apply Hall; lia.
    + exists HTs. split; [reflexivity|]. split; [assumption|].
      intros h Hh Hhk. apply Hall; [assumption|].
      assert (h <> Z.of_nat k); [|lia].
      intros ->. apply Eg. rewrite Hgrp, Htid. symmetry. apply Z.mod_small. lia.
  - exists HTs. rewrite map_id in E. split; [exact E|]. split; [exact Hl|].
    intros h Hh0. apply Hh; [assumption|]. unfold len in HNT. lia.
Qed.

(** A store into a table, inside it. *)
Lemma store_in_table (HTable : list Z) (c v : Z) :
  0 <= c < len HTable ->
  exists HTable',
    wr HTable c v = Some HTable' /\ len HTable' = len HTable /\
    rd HTable' c = Some v /\ forall j, j <> c -> rd HTable' j = rd HTable j.
Proof.
  intros Hc. destruct (wr_lt HTable c v Hc) as (HTable' & E).
  exists HTable'. split; [exact E|]. split; [apply (wr_len _ _ _ _ E)|].
  split; [apply (rd_wr_eq _ _ _ _ E)|].
  intros j Hj. apply (rd_wr_neq _ _ _ _ _ E). congruence.
Qed.

(** C6 (amended): Models I and III allocate one table of exactly
    |R| + 1 buckets, and their build stores the tuple of key k at
    bucket k of it; one worker of every group of Model II allocates a
    table of exactly next_pow2(floor(|R| / 2^R_bits) + 1) buckets, and
    the build stores the tuple of key k (1 <= k <= |R|) at bucket
    k >> R_bits, which is inside the table. *)
Theorem C6_table_sizes (TEST : bool) (junk : Z -> nat -> Z) (g : globals)
    (Ts : list thread_t) :
  0 <= RelR_size g < 2 ^ 31 ->
  (len (ColBP_I_alloc junk g) = RelR_size g + 1 /\
   len (ColBP_III_alloc junk g) = RelR_size g + 1 /\
   forall t HTable cs,
     len HTable = RelR_size g + 1 -> 0 <= key t <= RelR_size g ->
     exists HTable',
       NOPA_scatter TEST t (HTable, cs) = Some (HTable', u64 (cs + key t)) /\
       len HTable' = RelR_size g + 1 /\
       rd HTable' (key t) = Some (stored TEST t) /\
       forall j, j <> key t -> rd HTable' j = rd HTable j) /\
  (1 <= Radix_R (Radix g) < 32 -> threads_ok g Ts ->
   num_groups g <= Threads_N g ->
   let R_bits := Radix_R (Radix g) in
   let n := next_pow2 (RelR_size g / 2 ^ R_bits + 1) in
   CPRA_HTable_size g = Some n /\
   (exists HTables,
      each_thread (ColBP_II_alloc junk n) Ts
        (repeat [] (Z.to_nat (num_groups g))) = Some (Ts, HTables) /\
      len HTables = num_groups g /\
      forall h, 0 <= h < num_groups g ->
        exists HT, rd HTables h = Some HT /\ len HT = n) /\
   forall t HTable cs, len HTable = n -> 1 <= key t <= RelR_size g ->
     0 <= Z.shiftr (key t) R_bits < n /\
     exists HTable',
       CPRA_scatter TEST R_bits t (HTable, cs)
         = Some (HTable', u64 (cs + key t)) /\
       len HTable' = n /\
       rd HTable' (Z.shiftr (key t) R_bits) = Some (stored TEST t) /\
       forall j, j <> Z.shiftr (key t) R_bits -> rd HTable' j = rd HTable j).
Proof.
  intros HS.
  assert (HN : NOPA_HTable_size g = RelR_size g + 1).
  { unfold NOPA_HTable_size. apply u32_small.
    change (2 ^ 32) with 4294967296. change (2 ^ 31) with 2147483648 in HS.
    lia. }
  split.
  - unfold ColBP_I_alloc, ColBP_III_alloc. rewrite HN.
    split; [apply len_SafeMalloc; lia|]. split; [apply len_SafeMalloc; lia|].
    intros t HTable cs Hl Hk. unfold NOPA_scatter.
    destruct (store_in_table HTable (key t) (stored TEST t) ltac:(lia))
      as (HTable' & E & Hl' & Hrd & Hother).
    exists HTable'. rewrite E. cbn [bind].
    split; [reflexivity|]. split; [lia|]. split; [exact Hrd|exact Hother].
  - intros HR Hok HGN R_bits n.
    assert (Hn : 1 <= n).
    { unfold n, next_pow2.
      pose proof (Z.log2_up_nonneg (RelR_size g / 2 ^ R_bits + 1)).
      assert (0 < 2 ^ Z.log2_up (RelR_size g / 2 ^ R_bits + 1))
        by (apply Z.pow_pos_nonneg; lia). lia. }
    split; [apply CPRA_HTable_size_spec; assumption|]. split.
    + destruct (ColBP_II_alloc_tables junk g Ts n Hok HGN ltac:(lia))
        as (HTables & E & Hl & Hh).
      exists HTables. split; [exact E|]. split; [exact Hl|exact Hh].
    + intros t HTable cs Hl Hk.
      assert (Hc : 0 <= Z.shiftr (key t) R_bits < n)
        by (apply shiftr_key_bound; unfold R_bits; lia).
      split; [exact Hc|].
      unfold CPRA_scatter, shr32.
      assert (E : (0 <=? R_bits) && (R_bits <? 32) = true)
        by (apply andb_true_iff; split; [apply Z.leb_le | apply Z.ltb_lt];
            unfold R_bits; lia).
      rewrite E. cbn [bind].
      destruct (store_in_table HTable (Z.shiftr (key t) R_bits)
                  (stored TEST t) ltac:(lia))
        as (HTable' & Ew & Hl' & Hrd & Hother).
      exists HTable'. rewrite Ew. cbn [bind].
      split; [reflexivity|]. split; [lia|]. split; [exact Hrd|exact Hother].
Qed.

(** The sample of Model II, and tables for |R| = 4 with one radix bit:
    four buckets each. *)
Lemma C6_table_sizes_witness :
  len (ColBP_I_alloc sample_junk (mk_globals 1 1 true 2 2 4 6)) = 5 /\
  len (ColBP_III_alloc sample_junk (mk_globals 1 1 true 2 2 4 6)) = 5 /\
  CPRA_HTable_size (mk_globals 1 1 true 2 2 4 6) = Some 4 /\
  exists HTables,
    each_thread (ColBP_II_alloc sample_junk 4) sample_threads [[]; []]
    = Some (sample_threads, HTables) /\
    len HTables = 2 /\
    forall h, 0 <= h < 2 -> exists HT, rd HTables h = Some HT /\ len HT = 4.
Proof.
  destruct (C6_table_sizes false sample_junk (mk_globals 1 1 true 2 2 4 6)
              sample_threads ltac:(cbn; lia))
    as ((H1 & H3 & _) & HII).
  destruct (HII ltac:(cbn; lia)
              (proj1 (sample_join_input 2 ltac:(lia))) ltac:(cbn; lia))
    as (Hsz & Halloc & _).
  split; [exact H1|]. split; [exact H3|]. split; [exact Hsz|exact Halloc].
Defined.

(** ** Exclusive or *)

Lemma land_lxor_l a b c :
  Z.land (Z.lxor a b) c = Z.lxor (Z.land a c) (Z.land b c).
Proof.
  apply Z.bits_inj'. intros n Hn.
  rewrite Z.land_spec, !Z.lxor_spec, !Z.land_spec.
  destruct (Z.testbit a n), (Z.testbit b n), (Z.testbit c n); reflexivity.
Qed.

Lemma u32_land x : u32 x = Z.land x (Z.ones 32).
Proof. unfold u32, wrap. rewrite Z.land_ones by lia. reflexivity. Qed.

Lemma u32_lxor a b : u32 (Z.lxor a b) = Z.lxor (u32 a) (u32 b).
Proof. rewrite !u32_land. apply land_lxor_l. Qed.

Lemma lxor_range n a b :
  0 <= n -> 0 <= a < 2 ^ n -> 0 <= b < 2 ^ n -> 0 <= Z.lxor a b < 2 ^ n.
Proof.
  intros Hn Ha Hb.
  assert (H0 : 0 <= Z.lxor a b) by (apply Z.lxor_nonneg; lia).
  split; [exact H0|].
  destruct (Z.eq_dec (Z.lxor a b) 0) as [E|E].
  - rewrite E. apply Z.pow_pos_nonneg; lia.
  - apply Z.log2_lt_pow2; [lia|].
    pose proof (Z.log2_lxor a b ltac:(lia) ltac:(lia)) as Hl.
    assert (0 < n).
    { destruct (Z.eq_dec n 0) as [->|]; [|lia]. exfalso. apply E.
      replace a with 0 by (cbn in Ha; lia). replace b with 0 by (cbn in Hb; lia).
      reflexivity. }
    assert (Z.log2 a < n).
    { destruct (Z.eq_dec a 0) as [->|]; [cbn; lia|]. apply Z.log2_lt_pow2; lia. }
    assert (Z.log2 b < n).
    { destruct (Z.eq_dec b 0) as [->|]; [cbn; lia|]. apply Z.log2_lt_pow2; lia. }
    lia.
Qed.

Lemma shiftr_range n a k :
  0 <= k -> 0 <= a < 2 ^ n -> 0 <= Z.shiftr a k < 2 ^ n.
Proof.
  intros Hk Ha. rewrite Z.shiftr_div_pow2 by lia.
  assert (0 < 2 ^ k) by (apply Z.pow_pos_nonneg; lia).
  split; [apply Z.div_pos; lia|].
  apply Z.le_lt_trans with a; [|lia].
  apply Z.div_le_upper_bound; [lia|]. nia.
Qed.

Lemma u32_range x : 0 <= u32 x < 2 ^ 32.
Proof. unfold u32, wrap. apply Z.mod_pos_bound. lia. Qed.

(** ** One draw *)

Lemma xorshift128_range G :
  G_ok G ->
  0 <= fst (xorshift128 G) < 2 ^ 32 /\ G_ok (snd (xorshift128 G)).
Proof.
  intros (Hw & Hx & Hy & Hz).
  assert (H : 0 <= fst (xorshift128 G) < 2 ^ 32).
  { unfold xorshift128. cbn [fst]. apply lxor_range; [lia| |].
    - apply lxor_range; [lia|assumption|]. apply shiftr_range; lia.
    - apply lxor_range; [lia| |].
      + apply lxor_range; [lia|assumption|apply u32_range].
      + apply shiftr_range; [lia|].
        apply lxor_range; [lia|assumption|apply u32_range]. }
  split; [exact H|]. unfold xorshift128 in *. cbn [fst snd] in *.
  unfold G_ok. cbn [G_w G_x G_y G_z]. tauto.
Qed.

Lemma xorshift128_gxor a b :
  xorshift128 (gxor a b) =
  (Z.lxor (fst (xorshift128 a)) (fst (xorshift128 b)),
   gxor (snd (xorshift128 a)) (snd (xorshift128 b))).
Proof.
  assert (E : fst (xorshift128 (gxor a b)) =
              Z.lxor (fst (xorshift128 a)) (fst (xorshift128 b))).
  { unfold xorshift128, gxor. cbn [fst snd G_w G_x G_y G_z].
    rewrite !Z.shiftl_lxor, !u32_lxor, !Z.shiftr_lxor.
    apply Z.bits_inj'. intros n Hn. rewrite !Z.lxor_spec.
    destruct (Z.testbit (G_w a) n), (Z.testbit (G_w b) n),
      (Z.testbit (Z.shiftr (G_w a) 19) n), (Z.testbit (Z.shiftr (G_w b) 19) n),
      (Z.testbit (G_x a) n), (Z.testbit (G_x b) n),
      (Z.testbit (u32 (Z.shiftl (G_x a) 11)) n),
      (Z.testbit (u32 (Z.shiftl (G_x b) 11)) n),
      (Z.testbit (Z.shiftr (G_x a) 8) n), (Z.testbit (Z.shiftr (G_x b) 8) n),
      (Z.testbit (Z.shiftr (u32 (Z.shiftl (G_x a) 11)) 8) n),
      (Z.testbit (Z.shiftr (u32 (Z.shiftl (G_x b) 11)) 8) n); reflexivity. }
  change (xorshift128 (gxor a b)) with
    (fst (xorshift128 (gxor a b)),
     {| G_w := fst (xorshift128 (gxor a b)); G_x := G_y (gxor a b);
        G_y := G_z (gxor a b); G_z := G_w (gxor a b) |}).
  rewrite E. reflexivity.
Qed.

Lemma xorshift128_zero : xorshift128 G_zero = (0, G_zero).
Proof. reflexivity. Qed.

(** ** Observations *)

Lemma observe_gxor n : forall a b,
  observe n (gxor a b) = Z.lxor (observe n a) (observe n b).
Proof.
  induction n as [|n IH]; intros a b; [reflexivity|].
  cbn [observe]. rewrite xorshift128_gxor.
  destruct (xorshift128 a) as [ra a'], (xorshift128 b) as [rb b'].
  cbn [fst snd]. rewrite IH, Z.shiftl_lxor, Z.shiftr_lxor, land_lxor_l.
  apply Z.bits_inj'. intros k Hk. rewrite !Z.lxor_spec.
  destruct (Z.testbit (Z.land (Z.shiftr ra 31) 1) k),
    (Z.testbit (Z.land (Z.shiftr rb 31) 1) k),
    (Z.testbit (Z.shiftl (observe n a') 1) k),
    (Z.testbit (Z.shiftl (observe n b') 1) k); reflexivity.
Qed.

Lemma observe_zero n : observe n G_zero = 0.
Proof.
  induction n as [|n IH]; [reflexivity|].
  cbn [observe]. rewrite xorshift128_zero, IH. reflexivity.
Qed.

Lemma unpack_lxor a b : unpack (Z.lxor a b) = gxor (unpack a) (unpack b).
Proof.
  unfold unpack, gxor. cbn [G_w G_x G_y G_z].
  rewrite !Z.shiftr_lxor, !land_lxor_l. reflexivity.
Qed.

Lemma observed_lxor a b : observed (Z.lxor a b) = Z.lxor (observed a) (observed b).
Proof. unfold observed. rewrite unpack_lxor. apply observe_gxor. Qed.

Lemma decode_lxor table a b :
  decode table (Z.lxor a b) = Z.lxor (decode table a) (decode table b).
Proof.
  unfold decode. induction table as [|d table IH]; [reflexivity|].
  cbn [fold_right]. rewrite IH, Z.lxor_spec.
  destruct (Z.testbit a (fst d)), (Z.testbit b (fst d)); cbn [xorb];
    apply Z.bits_inj'; intros n Hn; rewrite !Z.lxor_spec, ?Z.bits_0;
    repeat match goal with
           | |- context [Z.testbit ?x n] => destruct (Z.testbit x n)
           end; reflexivity.
Qed.

Lemma decode_0 table : decode table 0 = 0.
Proof.
  unfold decode. induction table as [|d table IH]; [reflexivity|].
  cbn [fold_right]. rewrite IH, Z.bits_0. reflexivity.
Qed.

(** A map that respects exclusive or and fixes the powers of two below
    [2 ^ n] fixes every number below [2 ^ n]. *)
Lemma lxor_linear_id (F : Z -> Z) (n : nat) :
  (forall a b, F (Z.lxor a b) = Z.lxor (F a) (F b)) ->
  (forall i, 0 <= i < Z.of_nat n -> F (2 ^ i) = 2 ^ i) ->
  forall v, 0 <= v < 2 ^ Z.of_nat n -> F v = v.
Proof.
  intros Hlin. assert (F0 : F 0 = 0).
  { specialize (Hlin 0 0). rewrite Z.lxor_0_l in Hlin.
    rewrite Hlin at 1. apply Z.lxor_nilpotent. }
  induction n as [|n IH]; intros Hb v Hv.
  - cbn in Hv. replace v with 0 by lia. exact F0.
  - rewrite Nat2Z.inj_succ, Z.pow_succ_r in Hv by lia.
    destruct (Z.lt_ge_cases v (2 ^ Z.of_nat n)) as [Hlt|Hge].
    + apply IH; [intros i Hi; apply Hb; lia|lia].
    + set (v' := v - 2 ^ Z.of_nat n).
      assert (Hv' : 0 <= v' < 2 ^ Z.of_nat n) by (unfold v'; lia).
      assert (E : v = Z.lxor (2 ^ Z.of_nat n) v').
      { rewrite <- Z.add_nocarry_lxor; [unfold v'; lia|].
        apply Z.bits_inj'. intros k Hk. rewrite Z.land_spec, Z.bits_0.
        destruct (Z.eq_dec k (Z.of_nat n)) as [->|Hne].
        - destruct (Z.eq_dec v' 0) as [->|Hnz];
            [rewrite Z.bits_0; apply andb_false_r|].
          rewrite (Z.bits_above_log2 v');
            [apply andb_false_r|lia|apply Z.log2_lt_pow2; lia].
        - rewrite Z.pow2_bits_false by lia. reflexivity. }
      rewrite E, Hlin, Hb by lia. f_equal.
      apply IH; [intros i Hi; apply Hb; lia|exact Hv'].
Qed.

(** ** The state is determined by the top bits of its next 128 values *)

Lemma table_check :
  forallb (fun i => decode xorshift128_table (observed (2 ^ i)) =? 2 ^ i)
    bits128 = true.
Proof. vm_compute. reflexivity. Qed.

Lemma decode_observed v :
  0 <= v < 2 ^ 128 -> decode xorshift128_table (observed v) = v.
Proof.
  apply (lxor_linear_id (fun v => decode xorshift128_table (observed v)) 128).
  - intros a b.
    exact (eq_trans (f_equal (decode xorshift128_table) (observed_lxor a b))
             (decode_lxor _ _ _)).
  - intros i Hi. pose proof table_check as H.
    rewrite forallb_forall in H. apply Z.eqb_eq, (H i).
    unfold bits128. apply in_map_iff. exists (Z.to_nat i).
    split; [lia|]. apply in_seq. lia.
Qed.

Lemma unpack_pack G : G_ok G -> unpack (pack G) = G.
Proof.
  intros (Hw & Hx & Hy & Hz). destruct G as [w x y z]. cbn in *.
  unfold unpack, pack. cbn [G_w G_x G_y G_z].
  rewrite !Z.land_ones, !Z.shiftr_div_pow2 by lia.
  change (2 ^ 64) with (2 ^ 32 * 2 ^ 32).
  change (2 ^ 96) with (2 ^ 32 * (2 ^ 32 * 2 ^ 32)).
  rewrite <- !Z.div_div by lia.
  assert (D : forall a q, 0 <= a < 2 ^ 32 ->
            (a + 2 ^ 32 * q) / 2 ^ 32 = q /\ (a + 2 ^ 32 * q) mod 2 ^ 32 = a).
  { intros a q Ha. split.
    - symmetry. apply (Z.div_unique _ _ q a); lia.
    - symmetry. apply (Z.mod_unique _ _ q a); lia. }
  destruct (D w (x + 2 ^ 32 * (y + 2 ^ 32 * z)) Hw) as [-> ->].
  destruct (D x (y + 2 ^ 32 * z) Hx) as [-> ->].
  destruct (D y z Hy) as [-> ->].
  rewrite Z.mod_small by lia. reflexivity.
Qed.

Lemma pack_range G : G_ok G -> 0 <= pack G < 2 ^ 128.
Proof.
  intros (Hw & Hx & Hy & Hz). unfold pack.
  change (2 ^ 128) with (2 ^ 32 * (2 ^ 32 * (2 ^ 32 * 2 ^ 32))). nia.
Qed.

Lemma pack_0 G : G_ok G -> pack G = 0 -> G = G_zero.
Proof.
  intros (Hw & Hx & Hy & Hz) H. destruct G as [w x y z]. cbn in *.
  unfold pack in H. cbn [G_w G_x G_y G_z] in H. unfold G_zero.
  assert (w = 0 /\ x = 0 /\ y = 0 /\ z = 0) as (-> & -> & -> & ->) by nia.
  reflexivity.
Qed.

Lemma observe_0 G : G_ok G -> observe 128 G = 0 -> G = G_zero.
Proof.
  intros Hok H. apply pack_0; [exact Hok|].
  rewrite <- (decode_observed (pack G)) by (apply pack_range; exact Hok).
  unfold observed. rewrite unpack_pack by exact Hok.
  rewrite H. apply decode_0.
Qed.

(** [xorshift128] never reaches the zero state from another one. *)
Lemma xorshift128_nonzero G :
  G_ok G -> G <> G_zero -> snd (xorshift128 G) <> G_zero.
Proof.
  intros Hok Hnz Hz. apply Hnz. apply observe_0; [exact Hok|].
  change (observe 128 G) with
    (Z.lxor (Z.land (Z.shiftr (fst (xorshift128 G)) 31) 1)
       (Z.shiftl (observe 127 (snd (xorshift128 G))) 1)).
  rewrite Hz, observe_zero.
  replace (fst (xorshift128 G)) with (G_w (snd (xorshift128 G))) by reflexivity.
  rewrite Hz. reflexivity.
Qed.

(** ** The rejection loop *)

Lemma randgen_loop_None n : forall threshold G,
  G_ok G -> threshold <= 2 ^ 31 ->
  randgen_loop n threshold G = None -> observe n G = 0.
Proof.
  induction n as [|n IH]; intros threshold G Hok Hth H; [reflexivity|].
  cbn [randgen_loop observe] in *.
  pose proof (xorshift128_range G Hok) as [Hr Hok'].
  destruct (xorshift128 G) as [r G']. cbn [fst snd] in *.
  destruct (Z.ltb_spec r threshold) as [Hlt|]; [|discriminate].
  rewrite (IH threshold G' Hok' Hth H).
  rewrite Z.shiftr_div_pow2, Z.div_small by lia. reflexivity.
Qed.

Lemma randgen_loop_Some n : forall threshold G r G',
  G_ok G -> G <> G_zero ->
  randgen_loop n threshold G = Some (r, G') ->
  threshold <= r < 2 ^ 32 /\ 0 <= r /\ G_ok G' /\ G' <> G_zero.
Proof.
  induction n as [|n IH]; intros threshold G r G' Hok Hnz H; [discriminate|].
  cbn [randgen_loop] in H.
  pose proof (xorshift128_range G Hok) as [Hr Hok'].
  pose proof (xorshift128_nonzero G Hok Hnz) as Hnz'.
  destruct (xorshift128 G) as [r1 G1]. cbn [fst snd] in *.
  destruct (Z.ltb_spec r1 threshold) as [Hlt|Hge].
  - eapply IH; eassumption.
  - inversion H; subst. split; [lia|]. split; [lia|]. split; assumption.
Qed.

Lemma randgen_loop_more n : forall m threshold G res,
  randgen_loop n threshold G = Some res ->
  randgen_loop (n + m) threshold G = Some res.
Proof.
  induction n as [|n IH]; intros m threshold G res H; [discriminate|].
  cbn [randgen_loop Nat.add] in *.
  destruct (xorshift128 G) as [r G'].
  destruct (r <? threshold); [apply IH; exact H|exact H].
Qed.

Lemma randgen_loop_returns fuel threshold G :
  (128 <= fuel)%nat -> G_ok G -> G <> G_zero -> threshold <= 2 ^ 31 ->
  exists r G', randgen_loop fuel threshold G = Some (r, G') /\
    threshold <= r < 2 ^ 32 /\ 0 <= r /\ G_ok G' /\ G' <> G_zero.
Proof.
  intros Hf Hok Hnz Hth.
  destruct (randgen_loop 128 threshold G) as [[r G']|] eqn:E.
  - exists r, G'. split.
    + replace fuel with (128 + (fuel - 128))%nat by lia.
      apply randgen_loop_more. exact E.
    + eapply randgen_loop_Some; eassumption.
  - exfalso. apply Hnz. apply observe_0; [exact Hok|].
    eapply randgen_loop_None; eassumption.
Qed.

Lemma randgen_returns fuel max G :
  (128 <= fuel)%nat -> 1 <= max < 2 ^ 32 -> G_ok G -> G <> G_zero ->
  exists v G', randgen fuel max G = Some (v, G') /\
    0 <= v < max /\ G_ok G' /\ G' <> G_zero.
Proof.
  intros Hf Hmax Hok Hnz. unfold randgen, c_mod.
  destruct (Z.eqb_spec max 0) as [|_]; [lia|]. cbn [bind].
  assert (Hth : u32 (- max) mod max <= 2 ^ 31).
  { assert (E : u32 (- max) = 2 ^ 32 - max).
    { unfold u32, wrap. symmetry. apply (Z.mod_unique _ _ (-1)); lia. }
    rewrite E. pose proof (Z.mod_pos_bound (2 ^ 32 - max) max ltac:(lia)).
    destruct (Z.le_gt_cases max (2 ^ 31)); [lia|].
    rewrite Z.mod_small by lia. lia. }
  destruct (randgen_loop_returns fuel _ G Hf Hok Hnz Hth)
    as (r & G' & -> & Hr & Hr0 & Hok' & Hnz').
  cbn [bind]. exists (r mod max), G'. split; [reflexivity|].
  split; [apply Z.mod_pos_bound; lia|]. split; assumption.
Qed.

Lemma seed_ok s : G_ok (seed s) /\ seed s <> G_zero.
Proof.
  split.
  - unfold G_ok, seed. cbn [G_w G_x G_y G_z]. repeat split; apply u32_range.
  - intros H. assert (Hw : G_w (seed s) = 0) by (rewrite H; reflexivity).
    assert (Hx : G_x (seed s) = 0) by (rewrite H; reflexivity).
    unfold seed in Hw, Hx. cbn [G_w G_x] in Hw, Hx. unfold u32, wrap in *.
    apply Z.mod_divide in Hw; [|lia]. apply Z.mod_divide in Hx; [|lia].
    destruct Hw as [a Ha], Hx as [b Hb]. lia.
Qed.

(** ** Lists as tables *)

Lemma ztab_nth {A} (d : A) (B : list A) :
  ztab (fun i => nth (Z.to_nat i) B d) (len B) = B.
Proof.
  apply list_ext_rd.
  - apply len_ztab, len_nonneg.
  - intros i Hi. rewrite len_ztab in Hi by apply len_nonneg.
    rewrite rd_ztab by exact Hi. unfold rd.
    destruct (Z.ltb_spec i 0); [lia|]. symmetry.
    apply nth_error_nth'. unfold len in Hi. lia.
Qed.

Lemma keys_upto_ztab n : keys_upto n = ztab (fun i => i + 1) n.
Proof.
  unfold keys_upto, ztab. generalize (Z.to_nat n). intros k.
  rewrite <- seq_shift, map_map. apply map_ext. intros a. lia.
Qed.

Lemma keys_upto_In n k : In k (keys_upto n) <-> 1 <= k <= n.
Proof.
  unfold keys_upto. rewrite in_map_iff. split.
  - intros (x & <- & Hx). apply in_seq in Hx. lia.
  - intros Hk. exists (Z.to_nat k). split; [lia|]. apply in_seq. lia.
Qed.

Lemma keys_upto_NoDup n : NoDup (keys_upto n).
Proof.
  apply Finite.Injective_map_NoDup; [|apply seq_NoDup].
  intros x y. apply Nat2Z.inj.
Qed.

Lemma keys_upto_count n k :
  count_occ Z.eq_dec (keys_upto n) k = if (1 <=? k) && (k <=? n) then 1%nat else 0%nat.
Proof.
  destruct (Z.leb_spec 1 k); destruct (Z.leb_spec k n); cbn [andb].
  - apply NoDup_count_occ'; [apply keys_upto_NoDup|]. apply keys_upto_In. lia.
  - apply count_occ_not_In. rewrite keys_upto_In. lia.
  - apply count_occ_not_In. rewrite keys_upto_In. lia.
  - apply count_occ_not_In. rewrite keys_upto_In. lia.
Qed.

(** ** The shuffle *)

Section Shuffle.

Context {A : Type} (get : A -> Z) (set : A -> Z -> A).
Hypothesis get_set : forall a k, get (set a k) = k.
Hypothesis set_set : forall a k k', set (set a k) k' = set a k'.
Hypothesis set_get : forall a, set a (get a) = a.

Lemma rekeyed_refl B : rekeyed set B B.
Proof.
  induction B as [|a B IH]; constructor; [|exact IH].
  exists (get a). symmetry. apply set_get.
Qed.

Lemma rekeyed_trans B1 B2 B3 :
  rekeyed set B1 B2 -> rekeyed set B2 B3 -> rekeyed set B1 B3.
Proof.
  intros H. revert B3. induction H as [|a a' B B' (k & ->) H IH]; intros B3 H3.
  - inversion H3. constructor.
  - inversion H3 as [|x y l l' (k' & ->) Hl]; subst. constructor.
    + exists k'. apply set_set.
    + apply IH. exact Hl.
Qed.

Lemma rekeyed_app B1 B2 C1 C2 :
  rekeyed set B1 B2 -> rekeyed set C1 C2 -> rekeyed set (B1 ++ C1) (B2 ++ C2).
Proof. apply Forall2_app. Qed.

Lemma rekeyed_len B B' : rekeyed set B B' -> len B' = len B.
Proof. intros H. unfold len. rewrite (Forall2_length H). reflexivity. Qed.

(** The three assignments of one round, on cells [j < i] of [B]. *)
Lemma swap_step B i j :
  0 <= j < i -> i < len B ->
  exists ti tj T1 T2,
    rd B i = Some ti /\ rd B j = Some tj /\
    wr B i (set ti (get tj)) = Some T1 /\
    rd T1 j = Some tj /\
    wr T1 j (set tj (get ti)) = Some T2 /\
    rekeyed set B T2 /\ Permutation (map get T2) (map get B).
Proof.
  intros Hj Hi.
  destruct (split_at B j ltac:(lia)) as (a & tj & r & -> & Ha).
  assert (Hr : 0 <= i - j - 1 < len r).
  { rewrite len_app, len_cons in Hi. lia. }
  destruct (split_at r (i - j - 1) Hr) as (b & ti & c & -> & Hb).
  assert (Ei : i = len (a ++ tj :: b)) by (rewrite len_app, len_cons; lia).
  exists ti, tj, (a ++ tj :: b ++ set ti (get tj) :: c),
    (a ++ set tj (get ti) :: b ++ set ti (get tj) :: c).
  split.
  { rewrite Ei. change (a ++ tj :: b ++ ti :: c) with (a ++ (tj :: b) ++ ti :: c).
    rewrite app_assoc. apply rd_mid. }
  split; [rewrite <- Ha; apply rd_mid|].
  split.
  { rewrite Ei. change (a ++ tj :: b ++ ti :: c) with (a ++ (tj :: b) ++ ti :: c).
    rewrite app_assoc, wr_mid, <- app_assoc. reflexivity. }
  split; [rewrite <- Ha; apply rd_mid|].
  split; [rewrite <- Ha; apply wr_mid|].
  split.
  - apply rekeyed_app; [apply rekeyed_refl|].
    constructor; [eexists; reflexivity|].
    apply rekeyed_app; [apply rekeyed_refl|].
    constructor; [eexists; reflexivity|apply rekeyed_refl].
  - rewrite !map_app. cbn [map]. rewrite !map_app. cbn [map].
    rewrite !get_set. apply Permutation_app_head.
    etransitivity; [apply perm_skip; symmetry; apply Permutation_middle|].
    etransitivity; [apply perm_swap|]. apply perm_skip, Permutation_middle.
Qed.

Lemma shuffle_spec fuel n : forall B G,
  (128 <= fuel)%nat -> Z.of_nat n < len B -> len B <= 2 ^ 32 ->
  G_ok G -> G <> G_zero ->
  exists B' G', shuffle get set fuel n B 0 G = Some (B', G') /\
    rekeyed set B B' /\ Permutation (map get B') (map get B) /\
    G_ok G' /\ G' <> G_zero.
Proof.
  induction n as [|n IH]; intros B G Hf Hn Hlen Hok Hnz.
  - exists B, G. split; [reflexivity|]. split; [apply rekeyed_refl|].
    split; [apply Permutation_refl|]. split; assumption.
  - cbn [shuffle]. cbv zeta.
    destruct (randgen_returns fuel (Z.of_nat (S n)) G Hf ltac:(lia) Hok Hnz)
      as (j & G1 & -> & Hj & Hok1 & Hnz1).
    cbn [bind]. rewrite !Z.add_0_l.
    destruct (swap_step B (Z.of_nat (S n)) j ltac:(lia) Hn)
      as (ti & tj & T1 & T2 & -> & -> & W1 & R1 & W2 & Hrk & Hperm).
    cbn [bind]. rewrite W1. cbn [bind]. rewrite R1. cbn [bind].
    rewrite W2. cbn [bind].
    assert (Hlen2 : len T2 = len B) by (apply rekeyed_len; exact Hrk).
    destruct (IH T2 G1 Hf ltac:(lia) ltac:(lia) Hok1 Hnz1)
      as (B' & G' & -> & Hrk' & Hperm' & Hok' & Hnz').
    exists B', G'. split; [reflexivity|].
    split; [eapply rekeyed_trans; eassumption|].
    split; [eapply Permutation_trans; eassumption|]. split; assumption.
Qed.

(** The shuffle of a part of an array leaves the rest alone. *)
Lemma shuffle_frame fuel n (P Q : list A) : forall B G B' G',
  Z.of_nat n < len B ->
  shuffle get set fuel n B 0 G = Some (B', G') ->
  shuffle get set fuel n (P ++ B ++ Q) (len P) G = Some (P ++ B' ++ Q, G').
Proof.
  induction n as [|n IH]; intros B G B' G' Hn H.
  - cbn [shuffle] in *. inversion H; subst. reflexivity.
  - cbn [shuffle] in *. cbv zeta in *.
    destruct (randgen fuel (Z.of_nat (S n)) G) as [[j G1]|] eqn:Ej;
      [|discriminate].
    cbn [bind] in *. rewrite !Z.add_0_l in H.
    destruct (rd B (Z.of_nat (S n))) as [ti|] eqn:Eti; [|discriminate].
    cbn [bind] in H.
    destruct (rd B j) as [tj|] eqn:Etj; [|discriminate]. cbn [bind] in H.
    destruct (wr B (Z.of_nat (S n)) (set ti (get tj))) as [T1|] eqn:E1;
      [|discriminate].
    cbn [bind] in H.
    destruct (rd T1 j) as [tj'|] eqn:Etj'; [|discriminate]. cbn [bind] in H.
    destruct (wr T1 j (set tj' (get ti))) as [T2|] eqn:E2; [|discriminate].
    cbn [bind] in H.
    pose proof (rd_Some_range _ _ _ Etj) as Hj.
    pose proof (rd_Some_range _ _ _ Etj') as Hj'.
    rewrite rd_app_r, rd_app_l, Eti by lia. cbn [bind].
    rewrite rd_app_r, rd_app_l, Etj by lia. cbn [bind].
    rewrite (wr_app_r P _ _ _ _ (wr_app_l _ _ Q _ _ E1)). cbn [bind].
    rewrite rd_app_r, rd_app_l, Etj' by lia. cbn [bind].
    rewrite (wr_app_r P _ _ _ _ (wr_app_l _ _ Q _ _ E2)). cbn [bind].
    apply IH; [|exact H].
    apply wr_len in E1, E2. lia.
Qed.

End Shuffle.

Lemma Forall2_ztab {A B} (R : A -> B -> Prop) (d : A) (l : list A) :
  forall f, (forall i, 0 <= i < len l -> R (nth (Z.to_nat i) l d) (f i)) ->
  Forall2 R l (ztab f (len l)).
Proof.
  induction l as [|a l IH]; intros f H.
  - constructor.
  - rewrite len_cons, Z.add_comm, ztab_cons by apply len_nonneg.
    constructor.
    + apply (H 0). rewrite len_cons. pose proof (len_nonneg l). lia.
    + apply IH. intros i Hi. specialize (H (i + 1)).
      replace (Z.to_nat (i + 1)) with (S (Z.to_nat i)) in H by lia.
      apply H. rewrite len_cons. lia.
Qed.

(** ** [permutation] *)

Lemma set_key_laws :
  (forall a k, key (set_key a k) = k) /\
  (forall a k k', set_key (set_key a k) k' = set_key a k') /\
  (forall a, set_key a (key a) = a).
Proof.
  split; [reflexivity|]. split; [reflexivity|]. intros [k p]. reflexivity.
Qed.

Lemma rekeyed_payload B B' :
  rekeyed set_key B B' -> map payload B' = map payload B.
Proof.
  induction 1 as [|a a' B B' (k & ->) H IH]; [reflexivity|].
  cbn [map]. rewrite IH. reflexivity.
Qed.

(** The first loop of [permutation]: the keys 1, ..., N in order. *)
Lemma permutation_init (P B Q : list tuple_t) :
  len B < 2 ^ 32 ->
  exists B1,
    for_range 0 (len B)
      (fun i T => t <- rd T (len P + i) ;;
                  wr T (len P + i) (set_key t (u32 (i + 1))))
      (P ++ B ++ Q) = Some (P ++ B1 ++ Q) /\
    rekeyed set_key B B1 /\ map key B1 = keys_upto (len B).
Proof.
  intros Hlen. set (d := {| key := 0; payload := 0 |}).
  set (cell := fun i => nth (Z.to_nat i) B d).
  set (tab := fun j => ztab (fun i => if i <? j then set_key (cell i) (i + 1)
                                      else cell i) (len B)).
  pose proof (len_nonneg B) as H0.
  destruct (for_range_inv (fun j T => T = P ++ tab j ++ Q)
              (fun i T => t <- rd T (len P + i) ;;
                          wr T (len P + i) (set_key t (u32 (i + 1))))
              0 (len B) (P ++ B ++ Q) H0) as (T' & E & HT').
  - f_equal. f_equal. unfold tab. rewrite <- (ztab_nth d B) at 1.
    apply ztab_ext. intros i Hi. destruct (Z.ltb_spec i 0); [lia|reflexivity].
  - intros j s Hj ->.
    assert (Hl : len (tab j) = len B) by (apply len_ztab; lia).
    rewrite rd_app_r, rd_app_l by lia. unfold tab at 1.
    rewrite rd_ztab by lia. rewrite Z.ltb_irrefl. cbn [bind].
    eexists. split.
    + apply wr_app_r, wr_app_l. unfold tab. apply wr_ztab. lia.
    + f_equal. f_equal. unfold tab. apply ztab_ext. intros i Hi.
      rewrite u32_small by lia.
      destruct (Z.eqb_spec i j) as [->|Hne].
      * destruct (Z.ltb_spec j (j + 1)); [reflexivity|lia].
      * destruct (Z.ltb_spec i j); destruct (Z.ltb_spec i (j + 1));
          try reflexivity; lia.
  - exists (tab (len B)). split; [rewrite E, HT'; reflexivity|]. split.
    + unfold rekeyed, tab. apply (Forall2_ztab _ d). intros i Hi.
      destruct (Z.ltb_spec i (len B)); [|lia]. eexists. reflexivity.
    + unfold tab. rewrite map_ztab, keys_upto_ztab. apply ztab_ext.
      intros i Hi. destruct (Z.ltb_spec i (len B)); [reflexivity|lia].
Qed.

(** [permutation(T + off, N)] writes a permutation of the keys 1, ..., N
    to the N cells from [off] on; it changes no payload and no other
    cell. *)
Lemma permutation_spec fuel (P B Q : list tuple_t) G :
  (128 <= fuel)%nat -> len B < 2 ^ 32 -> G_ok G -> G <> G_zero ->
  exists B' G',
    permutation fuel (P ++ B ++ Q) (len P) (len B) G = Some (P ++ B' ++ Q, G') /\
    rekeyed set_key B B' /\
    Permutation (map key B') (keys_upto (len B)) /\
    G_ok G' /\ G' <> G_zero.
Proof.
  intros Hf Hlen Hok Hnz. unfold permutation.
  destruct (Z.eqb_spec (len B) 0) as [E0|Hne].
  - apply len_0_nil in E0. subst B. exists [], G.
    split; [reflexivity|]. split; [constructor|].
    split; [apply Permutation_refl|]. split; assumption.
  - pose proof (len_nonneg B) as H0.
    destruct (permutation_init P B Q Hlen) as (B1 & -> & Hrk1 & Hk1).
    cbn [bind]. rewrite u32_small by lia.
    destruct set_key_laws as (L1 & L2 & L3).
    assert (Hl1 : len B1 = len B)
      by (apply (rekeyed_len key set_key L1 L2 L3); exact Hrk1).
    destruct (shuffle_spec key set_key L1 L2 L3 fuel (Z.to_nat (len B - 1))
                B1 G Hf ltac:(lia) ltac:(lia) Hok Hnz)
      as (B' & G' & Hsh & Hrk & Hperm & Hok' & Hnz').
    exists B', G'. split.
    + apply (shuffle_frame key set_key L1 L2 L3); [lia|exact Hsh].
    + split; [eapply (rekeyed_trans key set_key L1 L2 L3); eauto|].
      split; [rewrite <- Hk1; exact Hperm|]. split; assumption.
Qed.

(** ** [fill_primary_keys] *)

Lemma keys_upto_len (T : list tuple_t) :
  keys_upto (len T) = map Z.of_nat (seq 1 (length T)).
Proof. unfold keys_upto, len. rewrite Nat2Z.id. reflexivity. Qed.

Lemma fill_primary_keys_ok fuel seed_R (T : list tuple_t) :
  (128 <= fuel)%nat -> len T < 2 ^ 32 ->
  exists T' G',
    fill_primary_keys fuel seed_R T (len T) = Some (T', G') /\
    primary_key T' /\ rekeyed set_key T T'.
Proof.
  intros Hf Hlen. destruct (seed_ok seed_R) as [Hok Hnz].
  destruct (permutation_spec fuel [] T [] (seed seed_R) Hf Hlen Hok Hnz)
    as (T' & G' & E & Hrk & Hperm & _).
  rewrite !app_nil_r in E. cbn [app len length] in E.
  exists T', G'. split; [exact E|]. split; [|exact Hrk].
  unfold primary_key. rewrite <- keys_upto_len.
  destruct set_key_laws as (L1 & L2 & L3).
  rewrite (rekeyed_len key set_key L1 L2 L3 _ _ Hrk). exact Hperm.
Qed.

(** ** [fill_foreign_keys] *)

Lemma occurrences_app D B k :
  occurrences (D ++ B) k = occurrences D k + occurrences B k.
Proof. unfold occurrences. rewrite map_app, count_occ_app. lia. Qed.

Lemma occurrences_perm B n k :
  Permutation (map key B) (keys_upto n) ->
  occurrences B k = if (1 <=? k) && (k <=? n) then 1 else 0.
Proof.
  intros H. unfold occurrences.
  rewrite (proj1 (Permutation_count_occ Z.eq_dec _ _) H k), keys_upto_count.
  destruct ((1 <=? k) && (k <=? n)); reflexivity.
Qed.

Lemma occurrences_In T t : In t T -> 1 <= occurrences T (key t).
Proof.
  intros H. unfold occurrences.
  assert (Hin : In (key t) (map key T)) by (apply in_map; exact H).
  apply (count_occ_In Z.eq_dec) in Hin. lia.
Qed.

Lemma fill_foreign_keys_ok fuel sizeR seed_S (T : list tuple_t) :
  (128 <= fuel)%nat -> 1 <= sizeR -> len T < 2 ^ 32 ->
  exists T' G',
    fill_foreign_keys fuel sizeR seed_S T (len T) = Some (T', G') /\
    rekeyed set_key T T' /\
    forall k, occurrences T' k =
      if (1 <=? k) && (k <=? sizeR)
      then len T / sizeR + (if k <=? len T mod sizeR then 1 else 0)
      else 0.
Proof.
  intros Hf HR Hlen. destruct (seed_ok seed_S) as [Hok Hnz].
  destruct set_key_laws as (L1 & L2 & L3).
  unfold fill_foreign_keys, c_div, c_mod.
  destruct (Z.eqb_spec sizeR 0) as [|_]; [lia|]. cbn [bind].
  pose proof (len_nonneg T) as H0.
  set (ratio := len T / sizeR).
  assert (Hratio : 0 <= ratio) by (apply Z.div_pos; lia).
  pose proof (Z.div_mod (len T) sizeR ltac:(lia)) as Hdm. fold ratio in Hdm.
  pose proof (Z.mod_pos_bound (len T) sizeR ltac:(lia)) as Hmod.
  set (Inv := fun (i : Z) (s : list tuple_t * randgen_t) =>
    exists D D0 Rest, fst s = D ++ Rest /\ T = D0 ++ Rest /\
      len D = i * sizeR /\ rekeyed set_key D0 D /\
      (forall k, occurrences D k =
         if (1 <=? k) && (k <=? sizeR) then i else 0) /\
      G_ok (snd s) /\ snd s <> G_zero).
  destruct (for_range_inv Inv
              (fun i '(T, G) => permutation fuel T (u32 (i * sizeR)) sizeR G)
              0 ratio (T, seed seed_S) Hratio) as ([T1 G1] & -> & HI).
  - exists [], [], T. cbn [fst snd app].
    split; [reflexivity|]. split; [reflexivity|]. split; [reflexivity|].
    split; [constructor|]. split; [|split; assumption].
    intros k. destruct ((1 <=? k) && (k <=? sizeR)); reflexivity.
  - intros j [Tj Gj] Hj (D & D0 & Rest & E & ET & HlD & Hrk & Hocc & HGok & HGnz).
    cbn [fst snd] in *. subst Tj.
    assert (HlD0 : len D0 = len D) by (symmetry; apply (rekeyed_len key set_key L1 L2 L3); exact Hrk).
    assert (HlR : len Rest = len T - j * sizeR).
    { assert (len T = len D0 + len Rest) by (rewrite ET at 1; apply len_app). lia. }
    assert (Hroom : sizeR <= len Rest) by nia.
    destruct (split_at_le Rest sizeR ltac:(pose proof (len_nonneg Rest); lia))
      as (B & Q & -> & HlB).
    rewrite u32_small by nia. rewrite <- HlD, <- HlB.
    destruct (permutation_spec fuel D B Q Gj Hf ltac:(lia) HGok HGnz)
      as (B' & G' & -> & Hrk' & Hperm & Hok' & Hnz').
    eexists. split; [reflexivity|].
    exists (D ++ B'), (D0 ++ B), Q. cbn [fst snd].
    split; [rewrite <- app_assoc; reflexivity|].
    split; [rewrite <- app_assoc; exact ET|].
    split.
    { rewrite len_app, (rekeyed_len key set_key L1 L2 L3 _ _ Hrk'). lia. }
    split; [apply (rekeyed_app key set_key L1 L2 L3); assumption|].
    split; [|split; assumption].
    intros k. rewrite occurrences_app, Hocc.
    rewrite (occurrences_perm B' (len B) k Hperm), HlB.
    destruct ((1 <=? k) && (k <=? sizeR)); lia.
  - destruct HI as (D & D0 & Rest & E & ET & HlD & Hrk & Hocc & HGok & HGnz).
    cbn [fst snd bind] in *. subst T1.
    assert (HlD0 : len D0 = len D) by (symmetry; apply (rekeyed_len key set_key L1 L2 L3); exact Hrk).
    assert (HlR : len Rest = len T mod sizeR).
    { assert (len T = len D0 + len Rest) by (rewrite ET at 1; apply len_app). lia. }
    rewrite u32_small by nia. rewrite <- HlD, <- HlR.
    replace (D ++ Rest) with (D ++ Rest ++ [])
      by (rewrite app_nil_r; reflexivity).
    destruct (permutation_spec fuel D Rest [] G1 Hf ltac:(lia) HGok HGnz)
      as (B' & G' & -> & Hrk' & Hperm & Hok' & Hnz').
    rewrite app_nil_r.
    exists (D ++ B'), G'. split; [reflexivity|]. split.
    + rewrite ET. apply (rekeyed_app key set_key L1 L2 L3); assumption.
    + intros k. rewrite occurrences_app, Hocc.
      rewrite (occurrences_perm B' (len Rest) k Hperm), HlR.
      fold ratio.
      destruct (Z.leb_spec 1 k); destruct (Z.leb_spec k sizeR);
        destruct (Z.leb_spec k (len T mod sizeR)); cbn [andb]; lia.
Qed.

Lemma occurrences_range (T : list tuple_t) n :
  (forall k, ~ (1 <= k <= n) -> occurrences T k = 0) ->
  Forall (fun s => 1 <= key s <= n) T.
Proof.
  intros H. apply Forall_forall. intros t Ht.
  pose proof (occurrences_In T t Ht) as H1.
  destruct (Z.le_gt_cases 1 (key t)); destruct (Z.le_gt_cases (key t) n);
    try lia; rewrite H in H1 by lia; lia.
Qed.

(** ** [fill_skewed_keys] *)

Lemma for_range_total {St} (f : Z -> St -> St) lo hi (st : St) :
  lo <= hi -> exists st', for_range lo hi (fun i s => Some (f i s)) st = Some st'.
Proof.
  intros H.
  destruct (for_range_inv (fun _ _ => True) (fun i s => Some (f i s)) lo hi st H I)
    as (s' & E & _).
  - intros j s _ _. eexists. split; [reflexivity|exact I].
  - exists s'. exact E.
Qed.

Lemma junk_ztab {X} (junk : nat -> X) n :
  map junk (seq 0 (Z.to_nat n)) = ztab (fun i => junk (Z.to_nat i)) n.
Proof.
  unfold ztab. apply map_ext. intros a. rewrite Nat2Z.id. reflexivity.
Qed.

Section Libm.

Context (double : Type) (of_Z : Z -> double)
  (fadd fdiv pow : double -> double -> double)
  (flt fge : double -> double -> bool)
  (RAND_MAX : Z) (rand : Z -> nat -> Z)
  (junk_keys : nat -> Z) (junk_table : nat -> double).

Lemma skew_search_ok (Table : list double) x fuel : forall l r,
  0 <= l <= r -> r < len Table -> r < 2 ^ 32 ->
  r - l <= 2 ^ Z.of_nat fuel ->
  exists r', skew_search double flt fuel Table x l r = Some r' /\ l <= r' <= r.
Proof.
  induction fuel as [|fuel IH]; intros l r Hlr Hr H32 Hd.
  - cbn [skew_search]. rewrite u32_small by lia.
    cbn in Hd. destruct (Z.ltb_spec 1 (r - l)); [lia|].
    exists r. split; [reflexivity|lia].
  - cbn [skew_search]. rewrite u32_small by lia.
    destruct (Z.ltb_spec 1 (r - l)) as [Hgt|];
      [|exists r; split; [reflexivity|lia]].
    rewrite Nat2Z.inj_succ, Z.pow_succ_r in Hd by lia.
    set (m := l + (r - l) / 2).
    assert (Hm : l < m < r /\ r - m <= 2 ^ Z.of_nat fuel /\
                 m - l <= 2 ^ Z.of_nat fuel).
    { unfold m. pose proof (Z.div_mod (r - l) 2 ltac:(lia)).
      pose proof (Z.mod_pos_bound (r - l) 2 ltac:(lia)). lia. }
    cbv zeta. rewrite (u32_small m) by lia.
    destruct (rd_lt Table m ltac:(lia)) as (tm & ->). cbn [bind].
    destruct (flt tm x).
    + destruct (IH m r ltac:(lia) Hr H32 ltac:(lia)) as (r' & -> & Hr').
      exists r'. split; [reflexivity|lia].
    + destruct (IH l m ltac:(lia) ltac:(lia) ltac:(lia) ltac:(lia))
        as (r' & -> & Hr').
      exists r'. split; [reflexivity|lia].
Qed.

Lemma fill_skewed_keys_ok fuel sizeR seed_S z (T : list tuple_t) :
  (128 <= fuel)%nat -> 1 <= sizeR < 2 ^ 32 -> len T < 2 ^ 32 ->
  exists T' G',
    fill_skewed_keys double of_Z fadd fdiv pow flt fge RAND_MAX rand
      junk_keys junk_table fuel sizeR seed_S z T (len T) = Some (T', G') /\
    rekeyed set_key T T' /\ Forall (fun s => 1 <= key s <= sizeR) T'.
Proof.
  intros Hf HR Hlen. destruct (seed_ok seed_S) as [Hok Hnz].
  destruct set_key_laws as (L1 & L2 & L3).
  unfold fill_skewed_keys. cbv zeta.
  (* the keys 1, ..., |R| *)
  rewrite junk_ztab.
  destruct (for_range_inv
              (fun j Keys => Keys = ztab (fun i => if i <? j then i + 1
                                                   else junk_keys (Z.to_nat i)) sizeR)
              (fun i Keys => wr Keys i (u32 (i + 1)))
              0 sizeR (ztab (fun i => junk_keys (Z.to_nat i)) sizeR)
              ltac:(lia)) as (Keys1 & -> & HK1).
  { apply ztab_ext. intros i Hi. destruct (Z.ltb_spec i 0); [lia|reflexivity]. }
  { intros j s Hj ->. rewrite wr_ztab by lia. eexists. split; [reflexivity|].
    apply ztab_ext. intros i Hi. rewrite u32_small by lia.
    destruct (Z.eqb_spec i j) as [->|Hne].
    - destruct (Z.ltb_spec j (j + 1)); [reflexivity|lia].
    - destruct (Z.ltb_spec i j); destruct (Z.ltb_spec i (j + 1));
        try reflexivity; lia. }
  cbn [bind].
  assert (EK1 : Keys1 = keys_upto sizeR).
  { rewrite HK1, keys_upto_ztab. apply ztab_ext. intros i Hi.
    destruct (Z.ltb_spec i sizeR); [reflexivity|lia]. }
  clear HK1. subst Keys1.
  assert (HlK : len (keys_upto sizeR) = sizeR).
  { rewrite keys_upto_ztab. apply len_ztab. lia. }
  rewrite (u32_small (sizeR - 1)) by lia.
  destruct (shuffle_spec (fun k => k) (fun _ k => k)
              ltac:(reflexivity) ltac:(reflexivity) ltac:(reflexivity)
              fuel (Z.to_nat (sizeR - 1)) (keys_upto sizeR) (seed seed_S)
              Hf ltac:(lia) ltac:(lia) Hok Hnz)
    as (Keys & G' & -> & HrkK & HpermK & Hok' & Hnz').
  cbn [bind]. rewrite !map_id in HpermK.
  assert (HlKeys : len Keys = sizeR).
  { unfold len. rewrite (Permutation_length HpermK). exact HlK. }
  (* the table *)
  rewrite junk_ztab.
  destruct (for_range_total
              (fun i d => fadd d (fdiv (of_Z 1) (pow (of_Z (u32 (i + 1))) z)))
              0 sizeR (of_Z 0) ltac:(lia)) as (d & ->).
  cbn [bind].
  match goal with
  | |- context [for_range 0 sizeR ?body (of_Z 0, ?tab)] =>
      destruct (for_range_inv
                  (fun (j : Z) (s : double * list double) => len (snd s) = sizeR)
                  body 0 sizeR (of_Z 0, tab) ltac:(lia))
        as ([s Table] & -> & HlT)
  end.
  { cbn [snd]. apply len_ztab. lia. }
  { intros j [s Tb] Hj Hl. cbn [snd] in Hl. cbv beta iota.
    destruct (wr_lt Tb j (fdiv (fadd s (fdiv (of_Z 1) (pow (of_Z (u32 (j + 1))) z))) d)
                ltac:(lia)) as (Tb' & E).
    rewrite E. cbn [bind]. eexists. split; [reflexivity|].
    cbn [snd]. apply wr_len in E. lia. }
  cbn [bind snd] in *.
  (* the keys of S *)
  pose proof (len_nonneg T) as H0.
  match goal with
  | |- context [for_range 0 (len T) ?body T] =>
      destruct (for_range_inv
                  (fun (i : Z) (Ti : list tuple_t) =>
                     exists D D0 Rest, Ti = D ++ Rest /\ T = D0 ++ Rest /\
                       len D = i /\ rekeyed set_key D0 D /\
                       Forall (fun s => 1 <= key s <= sizeR) D)
                  body 0 (len T) T H0) as (T' & -> & HT')
  end.
  { exists [], [], T.
    split; [reflexivity|]. split; [reflexivity|]. split; [reflexivity|].
    split; constructor. }
  { intros j Tj Hj (D & D0 & Rest & -> & ET & HlD & Hrk & Hin). cbv beta.
    destruct (rd_lt Table 0 ltac:(lia)) as (t0 & ->). cbn [bind].
    set (x := fdiv (of_Z (rand seed_S (Z.to_nat j))) (of_Z RAND_MAX)).
    set (r0 := if fge t0 x then 0 else sizeR - 1).
    assert (Hr0 : 0 <= r0 < sizeR) by (unfold r0; destruct (fge t0 x); lia).
    destruct (skew_search_ok Table x 32 0 r0 ltac:(lia) ltac:(lia) ltac:(lia)
                ltac:(change (2 ^ Z.of_nat 32) with (2 ^ 32); lia))
      as (r & -> & Hr).
    cbn [bind].
    destruct (rd_lt Keys r ltac:(lia)) as (k & Ek). rewrite Ek. cbn [bind].
    assert (Hk : 1 <= k <= sizeR).
    { apply keys_upto_In. eapply Permutation_in; [exact HpermK|].
      eapply rd_In. exact Ek. }
    assert (HlD0 : len D0 = len D)
      by (symmetry; apply (rekeyed_len key set_key L1 L2 L3); exact Hrk).
    assert (HlR : 0 < len Rest).
    { assert (len T = len D0 + len Rest) by (rewrite ET at 1; apply len_app). lia. }
    destruct Rest as [|t Rest]; [cbn in HlR; lia|].
    rewrite <- HlD, rd_mid. cbn [bind]. rewrite wr_mid.
    eexists. split; [reflexivity|].
    exists (D ++ [set_key t k]), (D0 ++ [t]), Rest.
    split; [rewrite <- app_assoc; reflexivity|].
    split; [rewrite <- app_assoc; exact ET|].
    split; [rewrite len_app; cbn; lia|].
    split.
    - apply (rekeyed_app key set_key L1 L2 L3); [exact Hrk|].
      constructor; [eexists; reflexivity|constructor].
    - apply Forall_app. split; [exact Hin|].
      constructor; [exact Hk|constructor]. }
  cbn [bind]. exists T', G'. split; [reflexivity|].
  destruct HT' as (D & D0 & Rest & -> & ET & HlD & Hrk & Hin).
  assert (HlD0 : len D0 = len D)
    by (symmetry; apply (rekeyed_len key set_key L1 L2 L3); exact Hrk).
  assert (Rest = []).
  { apply len_0_nil.
    assert (len T = len D0 + len Rest) by (rewrite ET at 1; apply len_app).
    pose proof (len_nonneg Rest). lia. }
  subst Rest. rewrite app_nil_r in *. subst T. split; assumption.
Qed.

End Libm.

(** ** Loops that may stop *)

Lemma for_loop_partial {St} (P : Z -> St -> Prop) body n : forall i st st',
  P i st ->
  (forall j s s', i <= j < i + Z.of_nat n -> P j s -> body j s = Some s' ->
     P (j + 1) s') ->
  for_loop n i body st = Some st' -> P (i + Z.of_nat n) st'.
Proof.
  induction n as [|n IH]; intros i st st' HP Hstep H.
  - cbn in H. inversion H; subst. rewrite Z.add_0_r. exact HP.
  - cbn [for_loop] in H. destruct (body i st) as [s1|] eqn:E; [|discriminate].
    cbn [bind] in H. replace (i + Z.of_nat (S n)) with (i + 1 + Z.of_nat n) by lia.
    apply (IH (i + 1) s1 st').
    + apply (Hstep i st s1); [lia|exact HP|exact E].
    + intros j s s' Hj. apply Hstep. lia.
    + exact H.
Qed.

Lemma for_range_partial {St} (P : Z -> St -> Prop) body lo hi st st' :
  lo <= hi -> P lo st ->
  (forall j s s', lo <= j < hi -> P j s -> body j s = Some s' -> P (j + 1) s') ->
  for_range lo hi body st = Some st' -> P hi st'.
Proof.
  intros Hle HP Hstep H. unfold for_range in H.
  replace hi with (lo + Z.of_nat (Z.to_nat (hi - lo))) by lia.
  eapply for_loop_partial; [exact HP| |exact H].
  intros j s s' Hj. apply Hstep. lia.
Qed.

(** ** The shares *)

Lemma share_offset_succ total N k :
  0 <= k -> 0 < N ->
  share_offset total N (k + 1) = share_offset total N k + share_size total N k.
Proof.
  intros Hk HN. unfold share_offset, share_size.
  destruct (Z.ltb_spec k (total mod N)); lia.
Qed.

Lemma share_offset_0 total N : 0 < N -> 0 <= total -> share_offset total N 0 = 0.
Proof.
  intros HN Ht. unfold share_offset.
  pose proof (Z.mod_pos_bound total N HN). lia.
Qed.

Lemma share_offset_N total N :
  0 < N -> share_offset total N N = total.
Proof.
  intros HN. unfold share_offset.
  pose proof (Z.mod_pos_bound total N HN).
  pose proof (Z.div_mod total N ltac:(lia)). lia.
Qed.

Lemma share_size_range total N k :
  0 < N -> 0 <= total -> total / N <= share_size total N k <= total / N + 1.
Proof.
  intros HN Ht. unfold share_size. destruct (k <? total mod N); lia.
Qed.

Lemma share_size_pos total N k :
  0 < N -> N <= total -> 1 <= share_size total N k.
Proof.
  intros HN Ht. unfold share_size.
  assert (1 <= total / N).
  { apply Z.div_le_lower_bound; lia. }
  destruct (k <? total mod N); lia.
Qed.

Lemma share_offset_le total N k :
  0 < N -> 0 <= total -> 0 <= k <= N -> 0 <= share_offset total N k <= total.
Proof.
  intros HN Ht Hk. unfold share_offset.
  pose proof (Z.mod_pos_bound total N HN).
  pose proof (Z.div_mod total N ltac:(lia)).
  assert (0 <= total / N) by (apply Z.div_pos; lia). nia.
Qed.

Lemma take_share_spec total N k :
  0 < N -> 0 <= total < 2 ^ 32 -> 0 <= k ->
  take_share (total / N) (Z.max 0 (total mod N - k)) =
  (share_size total N k, Z.max 0 (total mod N - (k + 1))).
Proof.
  intros HN Ht Hk. unfold take_share, share_size.
  pose proof (Z.mod_pos_bound total N HN).
  pose proof (Z.div_mod total N ltac:(lia)).
  assert (0 <= total / N) by (apply Z.div_pos; lia).
  assert (total / N <= total).
  { apply Z.div_le_upper_bound; [lia|]. nia. }
  assert (0 < total mod N -> total / N + 1 <= total) by nia.
  destruct (Z.ltb_spec 0 (Z.max 0 (total mod N - k)));
    destruct (Z.ltb_spec k (total mod N)); try lia;
    rewrite !u32_small by lia; f_equal; lia.
Qed.

Lemma share_offset_u32 total N k :
  0 < N -> 0 <= total < 2 ^ 32 -> 0 <= k < N ->
  u32 (u32 (k * (total / N)) + u32 (total mod N - Z.max 0 (total mod N - k))) =
  share_offset total N k.
Proof.
  intros HN Ht Hk. unfold share_offset.
  pose proof (Z.mod_pos_bound total N HN).
  pose proof (Z.div_mod total N ltac:(lia)).
  assert (0 <= total / N) by (apply Z.div_pos; lia).
  replace (total mod N - Z.max 0 (total mod N - k)) with (Z.min k (total mod N))
    by lia.
  assert (0 <= k * (total / N) <= N * (total / N)) by nia.
  rewrite (u32_small (k * (total / N))) by lia.
  rewrite (u32_small (Z.min k (total mod N))) by lia.
  apply u32_small. lia.
Qed.

(** ** [prepare_threads_meta] *)

Lemma div_ceil_pos a b q :
  1 <= a < 2 ^ 32 -> 0 <= b -> div_ceil a b = Some q ->
  1 <= q <= a /\ a <= q * b /\ 0 < b.
Proof.
  intros Ha Hb H. unfold div_ceil, c_div, c_mod in H.
  destruct (Z.eqb_spec b 0) as [|Hne]; [discriminate|]. cbn [bind] in H.
  inversion H; subst; clear H.
  pose proof (Z.mod_pos_bound a b ltac:(lia)).
  pose proof (Z.div_mod a b ltac:(lia)).
  assert (0 <= a / b) by (apply Z.div_pos; lia).
  assert (a / b <= a) by (apply Z.div_le_upper_bound; [lia|nia]).
  destruct (Z.ltb_spec 0 (a mod b)).
  - assert (a / b < a) by nia. rewrite u32_small by lia. nia.
  - assert (1 <= a / b) by nia. rewrite u32_small by lia. nia.
Qed.

Lemma prepare_threads_meta_shares SysInfo favor N sizeR sizeS tm :
  0 <= N < 2 ^ 32 -> 0 <= sizeR < 2 ^ 32 -> 0 <= sizeS < 2 ^ 32 ->
  0 <= cores_per_llc SysInfo ->
  prepare_threads_meta SysInfo favor N sizeR sizeS = Some tm ->
  1 <= N <= MAXTIDS /\ N <= num_cpus SysInfo /\
  1 <= utilized_llcs tm <= num_llcs SysInfo /\
  tm_num_groups tm = utilized_llcs tm /\
  map fst (Args tm) = ztab (share_thread N sizeR sizeS (utilized_llcs tm)) N.
Proof.
  intros HN HR HS Hcpl H. unfold prepare_threads_meta in H.
  set (cpl := if favor && (N <=? num_cores SysInfo) then cores_per_llc SysInfo
              else u32 (cpus_per_core SysInfo * cores_per_llc SysInfo)) in H.
  assert (Hcpl' : 0 <= cpl).
  { unfold cpl. destruct (favor && (N <=? num_cores SysInfo)); [exact Hcpl|].
    apply u32_range. }
  destruct (div_ceil N cpl) as [U|] eqn:EU; [|discriminate]. cbn [bind] in H.
  destruct (div_ceil N (u32 (U * cores_per_llc SysInfo))) as [ucpc|] eqn:Ec;
    [|discriminate]. cbn [bind] in H.
  destruct (Z.ltb_spec (num_llcs SysInfo) U) as [|HU]; [discriminate|].
  cbn [negb c_assert bind] in H.
  unfold c_div, c_mod in H.
  destruct (Z.eqb_spec N 0) as [|HN0]; [discriminate|]. cbn [bind] in H.
  destruct (Z.leb_spec N (num_cpus SysInfo)) as [Hcpus|]; [|discriminate].
  cbn [c_assert bind] in H.
  destruct (div_ceil_pos N cpl U ltac:(lia) Hcpl' EU) as (HU1 & _).
  match type of H with
  | context [for_range 0 N ?body ?st0] =>
      destruct (for_range 0 N body st0) as [st|] eqn:Eloop; [|discriminate];
      pose proof (for_range_partial
        (fun j st =>
           ms_llc st = j mod U /\
           ms_R_leftover st = Z.max 0 (sizeR mod N - j) /\
           ms_S_leftover st = Z.max 0 (sizeS mod N - j) /\
           map fst (ms_Args st) = ztab (share_thread N sizeR sizeS U) j)
        body 0 N st0 st ltac:(lia)) as Hinv
  end.
  cbn [bind] in H. unfold barrier_init in H.
  destruct (Z.leb_spec N MAXTIDS) as [Hmax|]; [|discriminate].
  cbn [c_assert bind] in H.
  change (3 <? MAGICNUM) with true in H.
  change (MAGICNUM <? Z.shiftl 1 8) with true in H.
  change (MAXTIDS <? Z.shiftl 1 16) with true in H.
  cbn [c_assert bind] in H. inversion H; subst tm; clear H.
  cbn [utilized_llcs tm_num_groups Args].
  split; [lia|]. split; [exact Hcpus|]. split; [lia|]. split; [reflexivity|].
  apply Hinv; [| |exact Eloop].
  - cbn [ms_llc ms_R_leftover ms_S_leftover ms_Args map].
    pose proof (Z.mod_pos_bound sizeR N ltac:(lia)).
    pose proof (Z.mod_pos_bound sizeS N ltac:(lia)).
    rewrite Z.mod_0_l by lia. repeat split; try lia.
  - clear Hinv Eloop. intros j s s' Hj (Hllc & HRl & HSl & Hargs) Hbody.
    unfold prepare_thread in Hbody. rewrite HRl, HSl in Hbody.
    rewrite (take_share_spec sizeR N j) in Hbody by lia.
    rewrite (take_share_spec sizeS N j) in Hbody by lia.
    rewrite (share_offset_u32 sizeR N j) in Hbody by lia.
    rewrite (share_offset_u32 sizeS N j) in Hbody by lia.
    cbv zeta in Hbody.
    repeat match type of Hbody with
           | (bind ?m _) = Some _ =>
               let x := fresh "x" in
               destruct m as [x|] eqn:?; [cbn [bind] in Hbody|discriminate]
           end.
    inversion Hbody; subst s'; clear Hbody.
    cbn [ms_llc ms_R_leftover ms_S_leftover ms_Args].
    pose proof (Z.mod_pos_bound j U ltac:(lia)) as Hjm.
    split.
    { match goal with
      | E : c_mod _ U = Some ?v |- ?v = _ =>
          unfold c_mod in E; destruct (Z.eqb_spec U 0); [lia|];
          inversion E; subst; clear E
      end.
      rewrite Hllc, u32_small by lia.
      apply Zplus_mod_idemp_l. }
    split; [reflexivity|]. split; [reflexivity|].
    rewrite map_app, Hargs, ztab_succ by lia. cbn [map fst].
    f_equal. f_equal. unfold share_thread. rewrite Hllc. reflexivity.
Qed.

(** ** Phases in which one worker acts *)

Lemma each_thread_id {St} (f : thread_t -> St -> option (thread_t * St)) Ts st :
  (forall X, In X Ts -> f X st = Some (X, st)) ->
  each_thread f Ts st = Some (Ts, st).
Proof.
  induction Ts as [|T Ts IH]; intros H; [reflexivity|].
  cbn [each_thread]. rewrite (H T) by (left; reflexivity). cbn [bind].
  rewrite IH by (intros X HX; apply H; right; exact HX). reflexivity.
Qed.

Lemma each_thread_one {St} (f : thread_t -> St -> option (thread_t * St))
    A T B st T' st' :
  (forall X, In X A -> f X st = Some (X, st)) ->
  (forall X, In X B -> f X st' = Some (X, st')) ->
  f T st = Some (T', st') ->
  each_thread f (A ++ T :: B) st = Some (A ++ T' :: B, st').
Proof.
  intros HA HB HT. induction A as [|X A IH].
  - cbn [app each_thread]. rewrite HT. cbn [bind].
    rewrite (each_thread_id f B st' HB). reflexivity.
  - cbn [app each_thread]. rewrite (HA X) by (left; reflexivity). cbn [bind].
    rewrite IH by (intros Y HY; apply HA; right; exact HY). reflexivity.
Qed.

(** ** The shares and the array *)

Lemma shares_of_tail which total A T B :
  shares_of which total (A ++ T :: B) ->
  tid T = len A /\
  offset (Sub_of which T) = share_offset total (len (A ++ T :: B)) (len A) /\
  size (Sub_of which T) = share_size total (len (A ++ T :: B)) (len A).
Proof.
  intros H. apply (H (length A) T).
  rewrite nth_error_app2, Nat.sub_diag by lia. reflexivity.
Qed.

Lemma shares_of_In which total Ts X :
  shares_of which total Ts -> In X Ts ->
  exists k, nth_error Ts k = Some X /\ (k < length Ts)%nat /\ tid X = Z.of_nat k.
Proof.
  intros H HX. apply In_nth_error in HX. destruct HX as (k & Hk).
  exists k. split; [exact Hk|]. split.
  - apply nth_error_Some. congruence.
  - apply (H k X Hk).
Qed.

Lemma Sub_of_load which Rel T :
  Sub_of which (load which Rel T) =
  {| tuples := slice Rel (offset (Sub_of which T)) (size (Sub_of which T));
     size := size (Sub_of which T); offset := offset (Sub_of which T);
     id := id (Sub_of which T) |}.
Proof. destruct which; reflexivity. Qed.

Lemma tid_load which Rel T : tid (load which Rel T) = tid T.
Proof. destruct which; reflexivity. Qed.

Lemma load_concat which (Rel : list tuple_t) : forall B A,
  1 <= len (A ++ B) -> 0 <= len Rel ->
  shares_of which (len Rel) (A ++ B) ->
  flat_map (fun T => tuples (Sub_of which T)) (map (load which Rel) B) =
  skipn (Z.to_nat (share_offset (len Rel) (len (A ++ B)) (len A))) Rel.
Proof.
  induction B as [|T B IH]; intros A HN H0 Hsh.
  - cbn [map flat_map]. rewrite app_nil_r.
    rewrite share_offset_N by (rewrite app_nil_r in HN; lia).
    unfold len. rewrite Nat2Z.id, skipn_all. reflexivity.
  - cbn [map flat_map]. rewrite Sub_of_load. cbn [tuples].
    destruct (shares_of_tail which _ A T B Hsh) as (_ & -> & ->).
    replace (A ++ T :: B) with ((A ++ [T]) ++ B) in *
      by (rewrite <- app_assoc; reflexivity).
    rewrite (IH (A ++ [T]) HN H0 Hsh).
    set (N := len ((A ++ [T]) ++ B)) in *.
    pose proof (len_nonneg A) as HA.
    assert (HAN : len A < N).
    { unfold N. rewrite !len_app, len_cons, len_nil.
      pose proof (len_nonneg B). lia. }
    rewrite (slice_app_skipn Rel (share_offset (len Rel) N (len A))
               (share_size (len Rel) N (len A))).
    + rewrite len_app, len_cons, len_nil.
      rewrite <- share_offset_succ by lia. reflexivity.
    + apply share_offset_le; lia.
    + pose proof (share_size_range (len Rel) N (len A) ltac:(lia) H0).
      assert (0 <= len Rel / N) by (apply Z.div_pos; lia). lia.
Qed.

Lemma load_all which (Rel : list tuple_t) Ts :
  1 <= len Ts -> shares_of which (len Rel) Ts ->
  flat_map (fun T => tuples (Sub_of which T)) (map (load which Rel) Ts) = Rel.
Proof.
  intros HN Hsh.
  rewrite (load_concat which Rel Ts [] HN (len_nonneg Rel) Hsh).
  cbn [app]. rewrite len_nil, share_offset_0 by (pose proof (len_nonneg Rel); lia).
  reflexivity.
Qed.

(** ** [create_rel] *)

Section CreateRel.

Context (double : Type) (of_Z : Z -> double)
  (fadd fdiv pow : double -> double -> double)
  (flt fge : double -> double -> bool)
  (RAND_MAX : Z) (rand : Z -> nat -> Z)
  (junk_keys : nat -> Z) (junk_table : nat -> double)
  (junk_tuples : rel_id -> nat -> tuple_t).

Context (which : rel_id) (total : Z) (Ts : list thread_t).
Hypothesis Htotal : 0 <= total.
Hypothesis HTs : 1 <= len Ts.
Hypothesis Hsh : shares_of which total Ts.

Let N := len Ts.
Let off := share_offset total N.
Let sz := share_size total N.

Lemma share_facts k :
  0 <= k < N ->
  0 <= off k /\ 0 <= sz k /\ off k + sz k = off (k + 1) /\ off (k + 1) <= total.
Proof.
  intros Hk. unfold off, sz.
  pose proof (share_offset_le total N k ltac:(unfold N; lia) Htotal ltac:(lia)).
  pose proof (share_offset_le total N (k + 1) ltac:(unfold N; lia) Htotal ltac:(lia)).
  pose proof (share_size_range total N k ltac:(unfold N; lia) Htotal).
  assert (0 <= total / N) by (apply Z.div_pos; unfold N; lia).
  rewrite share_offset_succ in * by (unfold N; lia). lia.
Qed.

(** The zeroing of line 41 covers the whole array. *)
Lemma create_rel_zero_phase :
  each_thread (create_rel_zero which) Ts
    (map (junk_tuples which) (seq 0 (Z.to_nat total)))
  = Some (Ts, repeat zero_tuple (Z.to_nat total)).
Proof.
  rewrite junk_ztab.
  set (tab := fun j => ztab (fun i => if i <? j then zero_tuple
                                      else junk_tuples which (Z.to_nat i)) total).
  destruct (each_thread_phase (create_rel_zero which)
              (fun k Rel => Rel = tab (off (Z.of_nat k))) (fun T => T) Ts
              (ztab (fun i => junk_tuples which (Z.to_nat i)) total))
    as (Rel' & E & HRel).
  - unfold tab. apply ztab_ext. intros i Hi. unfold off.
    cbn [Z.of_nat]. rewrite share_offset_0 by (unfold N; lia).
    destruct (Z.ltb_spec i 0); [lia|reflexivity].
  - intros k T s Hk ->. destruct (Hsh k T Hk) as (Htid & Hoff & Hsz).
    assert (HkN : 0 <= Z.of_nat k < N).
    { assert (k < length Ts)%nat by (apply nth_error_Some; congruence).
      unfold N, len. lia. }
    destruct (share_facts (Z.of_nat k) HkN) as (Ho & Hs & Hnext & Hle).
    unfold create_rel_zero. rewrite Hoff, Hsz.
    fold N. fold (off (Z.of_nat k)). fold (sz (Z.of_nat k)).
    destruct (for_range_inv (fun j Rel => Rel = tab j)
                (fun i Rel => wr Rel i {| key := 0; payload := 0 |})
                (off (Z.of_nat k)) (off (Z.of_nat k) + sz (Z.of_nat k))
                (tab (off (Z.of_nat k))) ltac:(lia) eq_refl)
      as (Rel1 & -> & ->).
    + intros j s Hj ->. unfold tab. rewrite wr_ztab by lia.
      eexists. split; [reflexivity|]. apply ztab_ext. intros i Hi.
      destruct (Z.eqb_spec i j) as [->|Hne].
      * destruct (Z.ltb_spec j (j + 1)); [reflexivity|lia].
      * destruct (Z.ltb_spec i j); destruct (Z.ltb_spec i (j + 1));
          try reflexivity; lia.
    + cbn [bind]. eexists. split; [reflexivity|].
      rewrite Hnext. f_equal. f_equal. lia.
  - rewrite map_id in E. rewrite E. f_equal. f_equal. rewrite HRel.
    unfold tab, off. fold (len Ts). fold N.
    rewrite share_offset_N by (unfold N; lia).
    rewrite repeat_ztab. apply ztab_ext. intros i Hi.
    destruct (Z.ltb_spec i total); [reflexivity|lia].
Qed.

(** Worker zero alone acts in the phase of lines 45-49. *)
Lemma create_rel_fill_phase fuel sizeR sizeS seed_R seed_S skewed z Rel T0 Ts'
    Rel' :
  Ts = T0 :: Ts' ->
  create_rel_fill double of_Z fadd fdiv pow flt fge RAND_MAX rand junk_keys
    junk_table fuel which sizeR sizeS seed_R seed_S skewed z T0 Rel
    = Some (T0, Rel') ->
  each_thread
    (create_rel_fill double of_Z fadd fdiv pow flt fge RAND_MAX rand junk_keys
       junk_table fuel which sizeR sizeS seed_R seed_S skewed z) Ts Rel
  = Some (Ts, Rel').
Proof.
  intros ETs Hfill. rewrite ETs.
  apply (each_thread_one _ [] T0 Ts' Rel T0 Rel');
    [intros X []| |exact Hfill].
  intros X HX. unfold create_rel_fill.
  apply In_nth_error in HX. destruct HX as (k & Hk).
  destruct (Hsh (S k) X) as (Htid & _).
  { rewrite ETs. exact Hk. }
  destruct (Z.eqb_spec (tid X) 0); [lia|reflexivity].
Qed.

(** The turns of lines 55-63: every worker copies its share. *)
Lemma create_rel_turns_spec (Rel : list tuple_t) : forall A B,
  len Rel = total -> Ts = A ++ B ->
  create_rel_turns junk_tuples which (length A) (A ++ map (load which Rel) B)
    (firstn (Z.to_nat (off (len A))) Rel)
  = Some (map (load which Rel) Ts, []).
Proof.
  intros A. induction A as [|T A IH] using rev_ind; intros B HRel ETs.
  - cbn [length create_rel_turns app]. rewrite ETs. cbn [app].
    unfold off. rewrite len_nil, share_offset_0 by (unfold N; lia).
    reflexivity.
  - rewrite length_app. cbn [length]. rewrite Nat.add_1_r.
    cbn [create_rel_turns].
    rewrite <- app_assoc in ETs. cbn [app] in ETs.
    pose proof Hsh as Hsh'. rewrite ETs in Hsh'.
    destruct (shares_of_tail which total A T B Hsh') as (Htid & Hoff & Hsz).
    rewrite <- ETs in Hoff, Hsz. fold N in Hoff, Hsz.
    fold (off (len A)) in Hoff. fold (sz (len A)) in Hsz.
    assert (HAN : 0 <= len A < N).
    { unfold N. rewrite ETs, len_app, len_cons.
      pose proof (len_nonneg A). pose proof (len_nonneg B). lia. }
    destruct (share_facts (len A) HAN) as (Ho & Hs & Hnext & Hle).
    rewrite <- app_assoc. cbn [app].
    rewrite len_app, len_cons, len_nil.
    replace (len A + (1 + 0)) with (len A + 1) by lia.
    rewrite (each_thread_one _ A T (map (load which Rel) B)
               (firstn (Z.to_nat (off (len A + 1))) Rel)
               (load which Rel T)
               (firstn (Z.to_nat (off (len A))) Rel)).
    + cbn [bind]. change (load which Rel T :: map (load which Rel) B)
        with (map (load which Rel) (T :: B)).
      apply IH; [exact HRel|exact ETs].
    + intros X HX. unfold create_rel_localize.
      destruct (shares_of_In which total Ts X Hsh) as (k & Hk & Hlt & HtX).
      { rewrite ETs. apply in_or_app. left. exact HX. }
      apply In_nth_error in HX. destruct HX as (k' & Hk').
      assert (Hk'lt : (k' < length A)%nat) by (apply nth_error_Some; congruence).
      assert (nth_error Ts k' = Some X).
      { rewrite ETs, nth_error_app1 by exact Hk'lt. exact Hk'. }
      destruct (Hsh k' X H) as (HtX' & _).
      destruct (Z.eqb_spec (Z.of_nat (length A)) (tid X)); [lia|reflexivity].
    + intros X HX. unfold create_rel_localize.
      apply in_map_iff in HX. destruct HX as (Y & <- & HY).
      rewrite tid_load.
      apply In_nth_error in HY. destruct HY as (k' & Hk').
      assert (nth_error Ts (S (length A) + k') = Some Y).
      { rewrite ETs, nth_error_app2 by lia.
        replace (S (length A) + k' - length A)%nat with (S k') by lia.
        exact Hk'. }
      destruct (Hsh _ Y H) as (HtY & _).
      destruct (Z.eqb_spec (Z.of_nat (length A)) (tid Y)); [lia|reflexivity].
    + unfold create_rel_localize. fold (len A). rewrite Htid, Z.eqb_refl.
      rewrite Hoff, Hsz.
      assert (Hl : len (firstn (Z.to_nat (off (len A + 1))) Rel) = off (len A + 1)).
      { apply len_firstn. lia. }
      rewrite Hl.
      destruct (Z.leb_spec 0 (off (len A))); [|lia].
      destruct (Z.leb_spec 0 (sz (len A))); [|lia].
      destruct (Z.leb_spec (off (len A) + sz (len A)) (off (len A + 1))); [|lia].
      cbn [andb c_assert bind]. f_equal. f_equal.
      * unfold load. rewrite Hoff, Hsz. f_equal. unfold slice.
        rewrite <- Hnext.
        rewrite skipn_firstn_comm, firstn_firstn.
        f_equal. lia.
      * unfold realloc. rewrite firstn_firstn.
        replace (Z.to_nat (off (len A)) - _)%nat with 0%nat.
        { cbn [seq map]. rewrite app_nil_r. f_equal. lia. }
        unfold len at 1 in Hl. lia.
Qed.

End CreateRel.

(** ** The thread table of [prepare_threads_meta] *)

Lemma nth_error_ztab {A} (f : Z -> A) n k x :
  nth_error (ztab f n) k = Some x -> x = f (Z.of_nat k) /\ Z.of_nat k < n.
Proof.
  intros H. unfold ztab in H. rewrite nth_error_map in H.
  destruct (nth_error (seq 0 (Z.to_nat n)) k) as [i|] eqn:E; [|discriminate].
  assert (Hk : (k < length (seq 0 (Z.to_nat n)))%nat)
    by (apply nth_error_Some; congruence).
  rewrite length_seq in Hk.
  rewrite nth_error_seq in E.
  destruct (Nat.ltb_spec k (Z.to_nat n)); [|lia].
  inversion E; subst. cbn in H. inversion H. split; [reflexivity|lia].
Qed.

Lemma share_threads_shares which N sizeR sizeS U :
  0 <= N ->
  shares_of which (match which with id_R => sizeR | id_S => sizeS end)
    (ztab (share_thread N sizeR sizeS U) N).
Proof.
  intros HN k T Hk. apply nth_error_ztab in Hk. destruct Hk as [-> Hk].
  rewrite len_ztab by exact HN. destruct which; repeat split; reflexivity.
Qed.

Lemma shares_of_load which other total Rel Ts :
  which <> other ->
  shares_of which total Ts -> shares_of which total (map (load other Rel) Ts).
Proof.
  intros Hne H k T Hk. rewrite nth_error_map in Hk.
  destruct (nth_error Ts k) as [X|] eqn:E; [|discriminate].
  cbn in Hk. inversion Hk; subst T. rewrite len_map.
  destruct (H k X E) as (H1 & H2 & H3).
  destruct which, other; try congruence; repeat split; assumption.
Qed.

Lemma load_comm RelR RelS T :
  load id_R RelR (load id_S RelS T) = load id_S RelS (load id_R RelR T).
Proof. reflexivity. Qed.

(** ** [create_rel] *)

Section Generate.

Context (double : Type) (of_Z : Z -> double)
  (fadd fdiv pow : double -> double -> double)
  (flt fge : double -> double -> bool)
  (RAND_MAX : Z) (rand : Z -> nat -> Z)
  (junk_keys : nat -> Z) (junk_table : nat -> double)
  (junk_tuples : rel_id -> nat -> tuple_t).

#[local] Abbreviation create_rel' :=
  (create_rel double of_Z fadd fdiv pow flt fge RAND_MAX rand junk_keys
     junk_table junk_tuples).

Lemma rekeyed_zero n T' :
  rekeyed set_key (repeat zero_tuple n) T' ->
  Forall (fun t => payload t = 0) T'.
Proof.
  intros H. apply rekeyed_payload in H.
  apply Forall_forall. intros t Ht.
  assert (Hin : In (payload t) (map payload T')) by (apply in_map; exact Ht).
  rewrite H in Hin. apply in_map_iff in Hin. destruct Hin as (x & <- & Hx).
  apply repeat_spec in Hx. subst x. reflexivity.
Qed.

(** The three phases of [create_rel], given what worker zero's fill
    does to the zeroed array. *)
Lemma create_rel_phases fuel which sizeR sizeS seed_R seed_S skewed z Ts
    T0 Ts' Rel :
  let total := match which with id_R => sizeR | id_S => sizeS end in
  0 <= total -> Ts = T0 :: Ts' -> shares_of which total Ts ->
  create_rel_fill double of_Z fadd fdiv pow flt fge RAND_MAX rand junk_keys
    junk_table fuel which sizeR sizeS seed_R seed_S skewed z T0
    (repeat zero_tuple (Z.to_nat total)) = Some (T0, Rel) ->
  len Rel = total ->
  create_rel' fuel which (len Ts) sizeR sizeS seed_R seed_S skewed z Ts
  = Some (map (load which Rel) Ts).
Proof.
  intros total Htot ETs Hsh Hfill HlRel.
  assert (HTs : 1 <= len Ts).
  { rewrite ETs, len_cons. pose proof (len_nonneg Ts'). lia. }
  unfold create_rel. fold total.
  rewrite (create_rel_zero_phase double of_Z fadd fdiv pow flt fge RAND_MAX
             rand junk_keys junk_table junk_tuples which total Ts Htot HTs Hsh).
  cbn [bind].
  rewrite (create_rel_fill_phase double of_Z fadd fdiv pow flt fge RAND_MAX rand
             junk_keys junk_table junk_tuples which total Ts Htot HTs Hsh
             fuel sizeR sizeS seed_R seed_S skewed z _ T0 Ts' Rel ETs Hfill).
  cbn [bind].
  pose proof (create_rel_turns_spec double of_Z fadd fdiv pow flt fge RAND_MAX
                rand junk_keys junk_table junk_tuples which total Ts Htot HTs
                Hsh Rel Ts [] HlRel (eq_sym (app_nil_r Ts))) as Hturns.
  cbn [map] in Hturns. rewrite app_nil_r in Hturns.
  rewrite share_offset_N in Hturns by lia.
  rewrite <- HlRel in Hturns. unfold len in Hturns at 1.
  rewrite Nat2Z.id, firstn_all in Hturns.
  unfold len. rewrite Nat2Z.id. rewrite Hturns. reflexivity.
Qed.

Lemma first_worker which total Ts :
  1 <= len Ts -> shares_of which total Ts ->
  exists T0 Ts', Ts = T0 :: Ts' /\ tid T0 = 0.
Proof.
  intros HTs Hsh. destruct Ts as [|T0 Ts']; [cbn in HTs; lia|].
  exists T0, Ts'. split; [reflexivity|]. apply (Hsh 0%nat T0). reflexivity.
Qed.

#[local] Abbreviation generated_S' :=
  (generated_S double of_Z fadd fdiv pow flt fge RAND_MAX rand junk_keys
     junk_table).

Lemma generated_R_ok fuel seed_R sizeR :
  (128 <= fuel)%nat -> 0 <= sizeR < 2 ^ 32 ->
  exists G',
    fill_primary_keys fuel seed_R (repeat zero_tuple (Z.to_nat sizeR)) sizeR
    = Some (generated_R fuel seed_R sizeR, G') /\
    len (generated_R fuel seed_R sizeR) = sizeR /\
    primary_key (generated_R fuel seed_R sizeR) /\
    Forall (fun t => payload t = 0) (generated_R fuel seed_R sizeR).
Proof.
  intros Hf HR. unfold generated_R.
  set (Z0 := repeat zero_tuple (Z.to_nat sizeR)).
  assert (HlZ : len Z0 = sizeR) by (unfold Z0; rewrite len_repeat; lia).
  destruct (fill_primary_keys_ok fuel seed_R Z0 Hf ltac:(lia))
    as (Rel & G' & E & Hpk & Hrk).
  rewrite HlZ in E. rewrite E.
  destruct set_key_laws as (L1 & L2 & L3).
  exists G'. split; [reflexivity|].
  split; [rewrite (rekeyed_len key set_key L1 L2 L3 _ _ Hrk); exact HlZ|].
  split; [exact Hpk|]. apply (rekeyed_zero _ _ Hrk).
Qed.

Lemma generated_S_ok fuel sizeR sizeS seed_S skewed z :
  (128 <= fuel)%nat -> 1 <= sizeR < 2 ^ 32 -> 0 <= sizeS < 2 ^ 32 ->
  let Rel := generated_S' fuel sizeR sizeS seed_S skewed z in
  exists G',
    (if skewed
     then fill_skewed_keys double of_Z fadd fdiv pow flt fge RAND_MAX rand
            junk_keys junk_table fuel sizeR seed_S z
            (repeat zero_tuple (Z.to_nat sizeS)) sizeS
     else fill_foreign_keys fuel sizeR seed_S
            (repeat zero_tuple (Z.to_nat sizeS)) sizeS) = Some (Rel, G') /\
    len Rel = sizeS /\ Forall (fun s => 1 <= key s <= sizeR) Rel /\
    (skewed = false ->
     forall k, occurrences Rel k =
       if (1 <=? k) && (k <=? sizeR)
       then sizeS / sizeR + (if k <=? sizeS mod sizeR then 1 else 0)
       else 0).
Proof.
  intros Hf HR HS Rel. unfold Rel, generated_S. cbv zeta.
  set (Z0 := repeat zero_tuple (Z.to_nat sizeS)).
  assert (HlZ : len Z0 = sizeS) by (unfold Z0; rewrite len_repeat; lia).
  destruct set_key_laws as (L1 & L2 & L3).
  destruct skewed.
  - destruct (fill_skewed_keys_ok double of_Z fadd fdiv pow flt fge RAND_MAX
                rand junk_keys junk_table fuel sizeR seed_S z Z0 Hf HR
                ltac:(lia)) as (T' & G' & E & Hrk & Hin).
    rewrite HlZ in E. rewrite E. exists G'. split; [reflexivity|].
    split; [rewrite (rekeyed_len key set_key L1 L2 L3 _ _ Hrk); exact HlZ|].
    split; [exact Hin|discriminate].
  - destruct (fill_foreign_keys_ok fuel sizeR seed_S Z0 Hf ltac:(lia)
                ltac:(lia)) as (T' & G' & E & Hrk & Hocc).
    rewrite HlZ in E, Hocc. rewrite E. exists G'. split; [reflexivity|].
    split; [rewrite (rekeyed_len key set_key L1 L2 L3 _ _ Hrk); exact HlZ|].
    split; [|intros _; exact Hocc].
    apply occurrences_range. intros k Hk. rewrite Hocc.
    destruct (Z.leb_spec 1 k); destruct (Z.leb_spec k sizeR);
      cbn [andb]; try reflexivity; lia.
Qed.

Lemma create_rel_R fuel sizeR sizeS seed_R seed_S skewed z Ts :
  (128 <= fuel)%nat -> 1 <= len Ts -> 0 <= sizeR < 2 ^ 32 ->
  shares_of id_R sizeR Ts ->
  create_rel' fuel id_R (len Ts) sizeR sizeS seed_R seed_S skewed z Ts
  = Some (map (load id_R (generated_R fuel seed_R sizeR)) Ts).
Proof.
  intros Hf HTs HR Hsh.
  destruct (first_worker id_R sizeR Ts HTs Hsh) as (T0 & Ts' & ETs & Htid).
  destruct (generated_R_ok fuel seed_R sizeR Hf HR) as (G' & E & Hl & _).
  apply (create_rel_phases fuel id_R sizeR sizeS seed_R seed_S skewed z Ts
           T0 Ts'); try assumption; [lia|].
  unfold create_rel_fill. rewrite Htid. cbn [Z.eqb]. rewrite E. reflexivity.
Qed.

Lemma create_rel_S fuel sizeR sizeS seed_R seed_S skewed z Ts :
  (128 <= fuel)%nat -> 1 <= len Ts -> 1 <= sizeR < 2 ^ 32 ->
  0 <= sizeS < 2 ^ 32 -> shares_of id_S sizeS Ts ->
  create_rel' fuel id_S (len Ts) sizeR sizeS seed_R seed_S skewed z Ts
  = Some (map (load id_S (generated_S' fuel sizeR sizeS seed_S skewed z)) Ts).
Proof.
  intros Hf HTs HR HS Hsh.
  destruct (first_worker id_S sizeS Ts HTs Hsh) as (T0 & Ts' & ETs & Htid).
  destruct (generated_S_ok fuel sizeR sizeS seed_S skewed z Hf HR HS)
    as (G' & E & Hl & _).
  apply (create_rel_phases fuel id_S sizeR sizeS seed_R seed_S skewed z Ts
           T0 Ts'); try assumption; [lia|].
  unfold create_rel_fill. rewrite Htid. cbn [Z.eqb]. rewrite E. reflexivity.
Qed.

(** ** [create_R] and [create_S] *)

Lemma create_relations_ok fuel sizeR sizeS seed_R seed_S skewed z Ts :
  (128 <= fuel)%nat -> 1 <= len Ts -> 1 <= sizeR < 2 ^ 32 ->
  0 <= sizeS < 2 ^ 32 ->
  shares_of id_R sizeR Ts -> shares_of id_S sizeS Ts ->
  create_relations double of_Z fadd fdiv pow flt fge RAND_MAX rand junk_keys
    junk_table junk_tuples fuel (len Ts) sizeR sizeS seed_R seed_S skewed z Ts
  = Some (loaded (generated_R fuel seed_R sizeR)
            (generated_S' fuel sizeR sizeS seed_S skewed z) Ts).
Proof.
  intros Hf HTs HR HS HshR HshS. unfold create_relations, loaded.
  destruct (negb ((16 * 128 * 1000 * 1000 <? sizeS) && skewed)).
  - rewrite create_rel_R by (assumption || lia). cbn [bind].
    rewrite <- (len_map (load id_R (generated_R fuel seed_R sizeR)) Ts) at 1.
    rewrite create_rel_S;
      [|assumption|rewrite len_map; assumption|assumption|assumption|
       apply shares_of_load; [discriminate|assumption]].
    cbn [bind]. rewrite map_map. reflexivity.
  - cbn [bind]. rewrite create_rel_S by assumption. cbn [bind].
    rewrite <- (len_map (load id_S (generated_S' fuel sizeR sizeS seed_S skewed z))
                  Ts) at 1.
    rewrite create_rel_R;
      [|assumption|rewrite len_map; assumption|lia|
       apply shares_of_load; [discriminate|assumption]].
    rewrite map_map. reflexivity.
Qed.

End Generate.

(** ** Sums of keys *)

Lemma sum_keys_map (l : list tuple_t) :
  sum_keys l = fold_right Z.add 0 (map key l).
Proof.
  induction l as [|t l IH]; [reflexivity|].
  cbn [sum_keys map fold_right] in *. rewrite <- IH. reflexivity.
Qed.

Lemma sum_Permutation (l l' : list Z) :
  Permutation l l' -> fold_right Z.add 0 l = fold_right Z.add 0 l'.
Proof.
  induction 1 as [|x l l' H IH|x y l|l1 l2 l3 H1 IH1 H2 IH2];
    cbn [fold_right]; lia.
Qed.

Lemma sum_seq n :
  2 * fold_right Z.add 0 (map Z.of_nat (seq 1 n)) = Z.of_nat n * (Z.of_nat n + 1).
Proof.
  induction n as [|n IH]; [reflexivity|].
  replace (S n) with (n + 1)%nat by lia.
  rewrite seq_app, map_app. cbn [seq map].
  assert (E : forall a b, fold_right Z.add 0 (a ++ [b]) = fold_right Z.add 0 a + b).
  { intros a b. induction a as [|x a IHa]; cbn [app fold_right]; lia. }
  rewrite E. lia.
Qed.

Lemma sum_keys_primary (R : list tuple_t) :
  primary_key R -> sum_keys R = len R * (len R + 1) / 2.
Proof.
  intros H. rewrite sum_keys_map, (sum_Permutation _ _ H).
  pose proof (sum_seq (length R)) as E. fold (len R) in E.
  apply Z.div_unique_exact; lia.
Qed.

Lemma sum_vals_zero (R S : list tuple_t) :
  Forall (fun t => payload t = 0) R -> sum_vals false R S = 0.
Proof.
  intros H. rewrite Forall_forall in H.
  induction S as [|s S IH]; [reflexivity|].
  cbn [sum_vals fold_right]. fold (sum_vals false R S). rewrite IH.
  unfold val_of. destruct (find (fun t => key t =? key s) R) as [t|] eqn:E;
    [|reflexivity].
  apply find_some in E. unfold stored. rewrite (H t) by apply E. reflexivity.
Qed.

(** ** The input of the join as [main] builds it *)

Lemma loaded_all (RelR RelS : list tuple_t) Ts :
  1 <= len Ts ->
  shares_of id_R (len RelR) Ts -> shares_of id_S (len RelS) Ts ->
  all_R (loaded RelR RelS Ts) = RelR /\ all_S (loaded RelR RelS Ts) = RelS.
Proof.
  intros HTs HR HS. unfold all_R, all_S, loaded. rewrite !flat_map_map. split.
  - etransitivity; [|apply (load_all id_R RelR Ts HTs HR)].
    rewrite flat_map_map. reflexivity.
  - etransitivity; [|apply (load_all id_S RelS Ts HTs HS)].
    rewrite flat_map_map. reflexivity.
Qed.

Lemma share_slice_len total N k (Rel : list tuple_t) :
  len Rel = total -> 0 < N -> 0 <= k < N ->
  len (slice Rel (share_offset total N k) (share_size total N k))
  = share_size total N k.
Proof.
  intros HRel HN Hk. pose proof (len_nonneg Rel) as H0.
  pose proof (share_offset_le total N k HN ltac:(lia) ltac:(lia)).
  pose proof (share_offset_le total N (k + 1) HN ltac:(lia) ltac:(lia)) as H1.
  rewrite share_offset_succ in H1 by lia.
  pose proof (share_size_range total N k HN ltac:(lia)).
  assert (0 <= total / N) by (apply Z.div_pos; lia).
  apply len_slice; lia.
Qed.

Lemma main_join_input rad N U sizeR sizeS (RelR RelS : list tuple_t) :
  1 <= N -> 1 <= U -> 1 <= sizeR < 2 ^ 31 -> 0 <= sizeS < 2 ^ 32 ->
  len RelR = sizeR -> len RelS = sizeS ->
  primary_key RelR -> Forall (fun s => 1 <= key s <= sizeR) RelS ->
  join_input (main_globals rad N U sizeR sizeS)
    (loaded RelR RelS (ztab (share_thread N sizeR sizeS U) N)).
Proof.
  intros HN HU HR HS HlR HlS Hpk Hfk.
  set (Ts := ztab (share_thread N sizeR sizeS U) N).
  assert (HlTs : len Ts = N) by (apply len_ztab; lia).
  pose proof (share_threads_shares id_R N sizeR sizeS U ltac:(lia)) as HshR.
  pose proof (share_threads_shares id_S N sizeR sizeS U ltac:(lia)) as HshS.
  fold Ts in HshR, HshS. cbv iota in HshR, HshS.
  destruct (loaded_all RelR RelS Ts ltac:(lia)
              ltac:(rewrite HlR; exact HshR) ltac:(rewrite HlS; exact HshS))
    as (EaR & EaS).
  unfold join_input. rewrite EaR, EaS. cbn [main_globals RelR_size RelS_size].
  split; [|repeat (split; [first [assumption | lia | congruence]|]);
           unfold foreign_key; rewrite HlR; exact Hfk].
  unfold threads_ok. cbn [main_globals Threads_N num_groups].
  unfold loaded. rewrite len_map, HlTs.
  split; [reflexivity|]. split; [lia|]. split; [lia|].
  intros k T Hk. rewrite nth_error_map in Hk.
  destruct (nth_error Ts k) as [X|] eqn:E; [|discriminate].
  cbn in Hk. inversion Hk; subst T; clear Hk.
  apply nth_error_ztab in E. destruct E as [-> HkN].
  unfold load, set_tuples, share_thread, set_SubR, set_SubS, Sub_of.
  cbn [tid group SubR SubS size offset id tuples].
  split; [reflexivity|]. split; [reflexivity|].
  split; [symmetry; apply share_slice_len; lia|].
  split; [symmetry; apply share_slice_len; lia|]. split; reflexivity.
Qed.

Lemma main_nonempty_R N U sizeR sizeS (RelR RelS : list tuple_t) :
  1 <= N -> N <= sizeR ->
  nonempty_R (loaded RelR RelS (ztab (share_thread N sizeR sizeS U) N)).
Proof.
  intros HN HR T HT. unfold loaded in HT.
  apply in_map_iff in HT. destruct HT as (X & <- & HX).
  apply In_nth_error in HX. destruct HX as (k & Hk).
  apply nth_error_ztab in Hk. destruct Hk as [-> Hk].
  unfold load, set_tuples, share_thread, set_SubR, set_SubS, Sub_of.
  cbn [SubR SubS size].
  apply share_size_pos; lia.
Qed.

Lemma main_nonempty_S N U sizeR sizeS (RelR RelS : list tuple_t) :
  1 <= N -> N <= sizeS ->
  nonempty_S (loaded RelR RelS (ztab (share_thread N sizeR sizeS U) N)).
Proof.
  intros HN HS T HT. unfold loaded in HT.
  apply in_map_iff in HT. destruct HT as (X & <- & HX).
  apply In_nth_error in HX. destruct HX as (k & Hk).
  apply nth_error_ztab in Hk. destruct Hk as [-> Hk].
  unfold load, set_tuples, share_thread, set_SubR, set_SubS, Sub_of.
  cbn [SubR SubS size].
  apply share_size_pos; lia.
Qed.

Lemma main_legal rad N U sizeR sizeS (RelR RelS : list tuple_t) :
  1 <= N -> 1 <= U <= N -> 1 <= sizeR < 2 ^ 31 -> 0 <= sizeS < 2 ^ 32 ->
  len RelR = sizeR -> len RelS = sizeS ->
  primary_key RelR -> Forall (fun s => 1 <= key s <= sizeR) RelS ->
  radix_fits rad N U sizeR sizeS ->
  legal_configuration (main_globals rad N U sizeR sizeS)
    (loaded RelR RelS (ztab (share_thread N sizeR sizeS U) N)).
Proof.
  intros HN HU HR HS HlR HlS Hpk Hfk Hfit.
  split; [apply main_join_input; assumption || lia|].
  split; [reflexivity|]. split; [reflexivity|].
  cbn [main_globals Radix Threads_N num_groups RelR_size]. cbv zeta.
  unfold radix_fits in Hfit. cbv zeta in Hfit.
  destruct Hfit as [H0|(Hr & Hdiv & HNR & Hcase)]; [left; exact H0|].
  right. split; [exact Hr|]. split; [exact Hdiv|].
  split; [apply main_nonempty_R; assumption|].
  destruct Hcase as [Hc|(Hs & HNS & Hud)]; [left; exact Hc|].
  right. split; [exact Hs|].
  split; [apply main_nonempty_S; assumption|]. split; [lia|exact Hud].
Qed.

(** ** [main] *)

Section Main.

Context (TEST : bool) (junk : Z -> nat -> Z) (sched : list Z).
Context (double : Type) (of_Z : Z -> double)
  (fadd fdiv pow : double -> double -> double)
  (flt fge : double -> double -> bool)
  (RAND_MAX : Z) (rand : Z -> nat -> Z)
  (junk_keys : nat -> Z) (junk_table : nat -> double)
  (junk_tuples : rel_id -> nat -> tuple_t)
  (sscanf_lf : String.string -> CmdArgs.scanned double).

#[local] Abbreviation main' :=
  (main TEST junk sched double of_Z fadd fdiv pow flt fge RAND_MAX rand junk_keys
     junk_table junk_tuples sscanf_lf).

#[local] Abbreviation generated_S' :=
  (generated_S double of_Z fadd fdiv pow flt fge RAND_MAX rand junk_keys
     junk_table).

(** The run of [main] from the parsed arguments on. *)
Lemma main_joined fuel SysInfo args ival0 dval0 st tm rad :
  let N := CmdArgs.Threads_N _ st in
  let sizeR := CmdArgs.RelR_size _ st in
  let sizeS := CmdArgs.RelS_size _ st in
  let skew := CmdArgs.RelS_skew _ st in
  (128 <= fuel)%nat -> llc_size SysInfo <> 0 -> 0 <= cores_per_llc SysInfo ->
  CmdArgs.extract_cmd_args double sscanf_lf args
    (default_state double of_Z SysInfo ival0 dval0)
  = Some (CmdArgs.Running _ st) ->
  0 <= N < 2 ^ 32 -> 1 <= sizeR < 2 ^ 31 -> 0 <= sizeS < 2 ^ 32 ->
  prepare_threads_meta SysInfo (CmdArgs.favor_physical_cores _ st)
    N sizeR sizeS = Some tm ->
  select_radix SysInfo (CmdArgs.Radix _ st) sizeR = Some rad ->
  radix_fits rad N (utilized_llcs tm) sizeR sizeS ->
  Radix_S rad = 0 \/ frees_in_order (utilized_llcs tm) sched ->
  main' fuel SysInfo args ival0 dval0
  = Some (Main_joined (CmdArgs.printed _ st) rad sizeS
            (u64 (sizeR * (sizeR + 1) / 2
                  + (if TEST
                     then sum_keys (generated_S' fuel sizeR sizeS 54321
                                      (flt (of_Z 0) skew) skew)
                     else 0)))).
Proof.
  intros N sizeR sizeS skew Hf Hllc Hcpl Hargs HN HR HS Hmeta Hrad Hfit Hsched.
  unfold main. destruct (Z.eqb_spec (llc_size SysInfo) 0) as [|_]; [contradiction|].
  cbn [negb c_assert bind]. rewrite Hargs. cbn [bind].
  fold N sizeR sizeS skew. rewrite Hmeta, Hrad. cbn [bind].
  destruct (prepare_threads_meta_shares SysInfo _ N sizeR sizeS tm HN
              ltac:(lia) HS Hcpl Hmeta) as (HN1 & _ & HU & EU & EArgs).
  rewrite EArgs, EU.
  set (U := utilized_llcs tm) in *.
  set (Ts := ztab (share_thread N sizeR sizeS U) N).
  assert (HlTs : len Ts = N) by (apply len_ztab; lia).
  pose proof (share_threads_shares id_R N sizeR sizeS U ltac:(lia)) as HshR.
  pose proof (share_threads_shares id_S N sizeR sizeS U ltac:(lia)) as HshS.
  fold Ts in HshR, HshS. cbv iota in HshR, HshS.
  rewrite <- HlTs at 1.
  rewrite (create_relations_ok double of_Z fadd fdiv pow flt fge RAND_MAX rand
             junk_keys junk_table junk_tuples fuel sizeR sizeS 12345 54321
             (flt (of_Z 0) skew) skew Ts Hf ltac:(lia) ltac:(lia) HS HshR HshS).
  cbn [bind].
  destruct (generated_R_ok double of_Z fadd fdiv pow flt fge RAND_MAX rand
              junk_keys junk_table junk_tuples fuel 12345 sizeR Hf ltac:(lia))
    as (G1 & _ & HlR & Hpk & Hpay).
  destruct (generated_S_ok double of_Z fadd fdiv pow flt fge RAND_MAX rand
              junk_keys junk_table junk_tuples fuel sizeR sizeS 54321
              (flt (of_Z 0) skew) skew Hf ltac:(lia) HS)
    as (G2 & _ & HlS & Hfk & _).
  set (RelR := generated_R fuel 12345 sizeR) in *.
  set (RelS := generated_S' fuel sizeR sizeS 54321 (flt (of_Z 0) skew) skew) in *.
  assert (HU' : 1 <= U <= N).
  { unfold prepare_threads_meta in Hmeta.
    match type of Hmeta with
    | (bind (div_ceil N ?c) _) = _ =>
        destruct (div_ceil N c) as [U0|] eqn:EU0; [|discriminate];
        assert (Hc : 0 <= c)
    end.
    { destruct (CmdArgs.favor_physical_cores double st && (N <=? num_cores SysInfo));
        [exact Hcpl|apply u32_range]. }
    destruct (div_ceil_pos N _ U0 ltac:(lia) Hc EU0) as (HU0 & _).
    cbn [bind] in Hmeta.
    repeat match type of Hmeta with
           | (bind ?m _) = Some _ =>
               let x := fresh "x" in
               destruct m as [x|] eqn:?; [cbn [bind] in Hmeta|discriminate]
           end.
    inversion Hmeta; subst tm. unfold U. cbn [utilized_llcs]. exact HU0. }
  pose proof (main_legal rad N U sizeR sizeS RelR RelS ltac:(lia) HU' HR HS
                HlR HlS Hpk Hfk Hfit) as Hlegal.
  unfold main_globals in Hlegal. fold Ts in Hlegal.
  rewrite (execute_join_spec TEST junk sched _ _ Hlegal Hsched). cbn [bind].
  unfold join_totals.
  destruct (loaded_all RelR RelS Ts ltac:(lia)
              ltac:(rewrite HlR; exact HshR) ltac:(rewrite HlS; exact HshS))
    as (EaR & EaS).
  rewrite EaR, EaS, HlS. rewrite (sum_keys_primary RelR Hpk), HlR.
  f_equal. f_equal. f_equal. f_equal.
  destruct TEST.
  - apply sum_vals_keys; [exact Hpk|].
    unfold foreign_key. rewrite HlR. exact Hfk.
  - apply sum_vals_zero. exact Hpay.
Qed.

End Main.

(** ** util/util.c: the logarithms and the rounded division *)

(** X1: for a 32-bit [N >= 1], [lg_floor N] returns the [r] with
    [2^r <= N < 2^(r+1)], the floor of the binary logarithm; for [N < 1]
    the assertion stops the run. *)
Theorem lg_floor_bounds (N : Z) :
  N < 2 ^ 32 ->
  (N < 1 -> lg_floor N = None) /\
  (1 <= N -> exists r, lg_floor N = Some r /\
                       0 <= r < 32 /\ 2 ^ r <= N < 2 ^ (r + 1)).
Proof.
  intros HN. split.
  - intros H0. unfold lg_floor.
    destruct (Z.leb_spec 1 N); [lia|reflexivity].
  - intros H1. exists (Z.log2 N).
    split; [apply lg_floor_spec; lia|].
    split; [apply log2_lt_32; lia|].
    pose proof (Z.log2_spec N ltac:(lia)) as H.
    replace (Z.succ (Z.log2 N)) with (Z.log2 N + 1) in H by lia. exact H.
Qed.

Lemma lg_floor_bounds_witness :
  exists r, lg_floor 1000 = Some r /\ 0 <= r < 32 /\ 2 ^ r <= 1000 < 2 ^ (r + 1).
Proof.
  apply (proj2 (lg_floor_bounds 1000 ltac:(lia))). lia.
Defined.

(** X2: for a 32-bit [N >= 1], [lg_ceil N] returns the least [r] with
    [N <= 2^r], the ceiling of the binary logarithm. *)
Theorem lg_ceil_least (N : Z) :
  1 <= N < 2 ^ 32 ->
  exists r, lg_ceil N = Some r /\ 0 <= r <= 32 /\ N <= 2 ^ r /\
            forall k, 0 <= k -> N <= 2 ^ k -> r <= k.
Proof.
  intros HN. exists (Z.log2_up N).
  split; [apply lg_ceil_spec; exact HN|].
  assert (H0 : 0 <= Z.log2_up N) by apply Z.log2_up_nonneg.
  split.
  - split; [exact H0|]. apply Z.log2_up_le_pow2; lia.
  - split.
    + destruct (Z.eq_dec N 1) as [->|]; [cbn; lia|].
      apply (Z.log2_up_spec N). lia.
    + intros k Hk HNk. apply Z.log2_up_le_pow2; lia.
Qed.

Lemma lg_ceil_least_witness :
  exists r, lg_ceil 1000 = Some r /\ 0 <= r <= 32 /\ 1000 <= 2 ^ r /\
            forall k, 0 <= k -> 1000 <= 2 ^ k -> r <= k.
Proof. apply (lg_ceil_least 1000). lia. Defined.

(** X3: [div_ceil a b] is the quotient rounded up: the least [q] with
    [a <= q * b]; a zero divisor stops the run. *)
Theorem div_ceil_rounds_up (a b : Z) :
  0 <= a < 2 ^ 32 -> 0 <= b ->
  (b = 0 -> div_ceil a b = None) /\
  (0 < b -> exists q, div_ceil a b = Some q /\
                      (q - 1) * b < a <= q * b).
Proof.
  intros Ha Hb. unfold div_ceil, c_div, c_mod. split.
  - intros ->. reflexivity.
  - intros Hb0. destruct (Z.eqb_spec b 0) as [|_]; [lia|]. cbn [bind].
    pose proof (Z.mod_pos_bound a b Hb0) as Hm.
    pose proof (Z.div_mod a b ltac:(lia)) as Hd.
    assert (0 <= a / b) by (apply Z.div_pos; lia).
    assert (a / b <= a) by (apply Z.div_le_upper_bound; [lia|nia]).
    eexists. split; [reflexivity|].
    destruct (Z.ltb_spec 0 (a mod b)).
    + assert (a / b < a) by nia. rewrite u32_small by lia. nia.
    + rewrite u32_small by lia. nia.
Qed.

Lemma div_ceil_rounds_up_witness :
  exists q, div_ceil 100000 32758 = Some q /\
            (q - 1) * 32758 < 100000 <= q * 32758.
Proof.
  apply (proj2 (div_ceil_rounds_up 100000 32758 ltac:(lia) ltac:(lia))). lia.
Defined.

(** ** common.h: the random number generator *)

(** X4: [xorshift128] maps a state of four 32-bit words that are not all
    zero to such a state again, and returns a 32-bit value: the all-zero
    state, on which the generator would return zero for ever, is never
    reached. *)
Theorem xorshift128_keeps_nonzero (G : randgen_t) :
  G_ok G -> G <> G_zero ->
  0 <= fst (xorshift128 G) < 2 ^ 32 /\
  G_ok (snd (xorshift128 G)) /\ snd (xorshift128 G) <> G_zero.
Proof.
  intros Hok Hnz. destruct (xorshift128_range G Hok) as [Hr Hok'].
  split; [exact Hr|]. split; [exact Hok'|].
  apply xorshift128_nonzero; assumption.
Qed.

Lemma xorshift128_keeps_nonzero_witness :
  0 <= fst (xorshift128 (seed 12345)) < 2 ^ 32 /\
  G_ok (snd (xorshift128 (seed 12345))) /\
  snd (xorshift128 (seed 12345)) <> G_zero.
Proof.
  apply (xorshift128_keeps_nonzero (seed 12345));
    [apply (proj1 (seed_ok 12345))|apply (proj2 (seed_ok 12345))].
Defined.

(** X5: for [1 <= max < 2^32] and a generator state that is not all
    zero, the rejection loop of [randgen] ends within 128 draws and the
    call returns a value in [0, max), the state again not all zero; with
    [max = 0] the division stops the run. *)
Theorem randgen_in_range (fuel : nat) (max : Z) (G : randgen_t) :
  (128 <= fuel)%nat -> 0 <= max < 2 ^ 32 -> G_ok G -> G <> G_zero ->
  (max = 0 -> randgen fuel max G = None) /\
  (1 <= max -> exists v G', randgen fuel max G = Some (v, G') /\
                 0 <= v < max /\ G_ok G' /\ G' <> G_zero).
Proof.
  intros Hf Hmax Hok Hnz. split.
  - intros ->. reflexivity.
  - intros H1. apply randgen_returns; assumption || lia.
Qed.

Lemma randgen_in_range_witness :
  exists v G', randgen 128 10 (seed 12345) = Some (v, G') /\
               0 <= v < 10 /\ G_ok G' /\ G' <> G_zero.
Proof.
  apply (proj2 (randgen_in_range 128 10 (seed 12345) ltac:(lia) ltac:(lia)
                  (proj1 (seed_ok 12345)) (proj2 (seed_ok 12345)))).
  lia.
Defined.

(** ** util/generate.c *)

(** X6: [permutation(T + off, N)] returns and leaves in the [N] cells
    from [off] on a permutation of the keys 1, ..., N; the payloads of
    these cells and the cells before and after them are unchanged. *)
Theorem permutation_permutes (fuel : nat) (P B Q : list tuple_t)
    (G : randgen_t) :
  (128 <= fuel)%nat -> len B < 2 ^ 32 -> G_ok G -> G <> G_zero ->
  exists B' G',
    permutation fuel (P ++ B ++ Q) (len P) (len B) G
    = Some (P ++ B' ++ Q, G') /\
    Permutation (map key B') (keys_upto (len B)) /\
    map payload B' = map payload B.
Proof.
  intros Hf Hlen Hok Hnz.
  destruct (permutation_spec fuel P B Q G Hf Hlen Hok Hnz)
    as (B' & G' & E & Hrk & Hperm & _).
  exists B', G'. split; [exact E|]. split; [exact Hperm|].
  apply rekeyed_payload. exact Hrk.
Qed.

Lemma permutation_permutes_witness :
  exists B' G',
    permutation 128
      ([{| key := 7; payload := 70 |}]
       ++ [{| key := 0; payload := 1 |}; {| key := 0; payload := 2 |};
           {| key := 0; payload := 3 |}]
       ++ [{| key := 9; payload := 90 |}])
      (len [{| key := 7; payload := 70 |}])
      (len [{| key := 0; payload := 1 |}; {| key := 0; payload := 2 |};
            {| key := 0; payload := 3 |}])
      (seed 12345)
    = Some ([{| key := 7; payload := 70 |}] ++ B'
            ++ [{| key := 9; payload := 90 |}], G') /\
    Permutation (map key B')
      (keys_upto (len [{| key := 0; payload := 1 |}; {| key := 0; payload := 2 |};
                       {| key := 0; payload := 3 |}])) /\
    map payload B'
    = map payload [{| key := 0; payload := 1 |}; {| key := 0; payload := 2 |};
                   {| key := 0; payload := 3 |}].
Proof.
  apply (permutation_permutes 128);
    [lia|cbn; lia|apply (proj1 (seed_ok 12345))|apply (proj2 (seed_ok 12345))].
Defined.

(** X7: [fill_primary_keys] returns and leaves in a relation of fewer
    than 2^32 tuples a permutation of the keys 1, ..., |R|, whatever the
    seed; it changes no payload. *)
Theorem fill_primary_keys_primary (fuel : nat) (seed_R : Z)
    (T : list tuple_t) :
  (128 <= fuel)%nat -> len T < 2 ^ 32 ->
  exists T' G',
    fill_primary_keys fuel seed_R T (len T) = Some (T', G') /\
    primary_key T' /\ map payload T' = map payload T.
Proof.
  intros Hf Hlen.
  destruct (fill_primary_keys_ok fuel seed_R T Hf Hlen)
    as (T' & G' & E & Hpk & Hrk).
  exists T', G'. split; [exact E|]. split; [exact Hpk|].
  apply rekeyed_payload. exact Hrk.
Qed.

Lemma fill_primary_keys_primary_witness :
  exists T' G',
    fill_primary_keys 128 12345 (repeat zero_tuple 5)
      (len (repeat zero_tuple 5)) = Some (T', G') /\
    primary_key T' /\ map payload T' = map payload (repeat zero_tuple 5).
Proof. apply (fill_primary_keys_primary 128 12345); [lia|cbn; lia]. Defined.

(** X8: [fill_foreign_keys] returns and deals the keys of R evenly: in
    the relation it fills, every key of [1, |R|] occurs [|S| / |R|] times,
    and once more when it is at most [|S| mod |R|]; no other key occurs
    and no payload changes. *)
Theorem fill_foreign_keys_uniform (fuel : nat) (sizeR seed_S : Z)
    (T : list tuple_t) :
  (128 <= fuel)%nat -> 1 <= sizeR -> len T < 2 ^ 32 ->
  exists T' G',
    fill_foreign_keys fuel sizeR seed_S T (len T) = Some (T', G') /\
    map payload T' = map payload T /\
    forall k, occurrences T' k =
      if (1 <=? k) && (k <=? sizeR)
      then len T / sizeR + (if k <=? len T mod sizeR then 1 else 0)
      else 0.
Proof.
  intros Hf HR Hlen.
  destruct (fill_foreign_keys_ok fuel sizeR seed_S T Hf HR Hlen)
    as (T' & G' & E & Hrk & Hocc).
  exists T', G'. split; [exact E|]. split; [|exact Hocc].
  apply rekeyed_payload. exact Hrk.
Qed.

Lemma fill_foreign_keys_uniform_witness :
  exists T' G',
    fill_foreign_keys 128 3 54321 (repeat zero_tuple 8)
      (len (repeat zero_tuple 8)) = Some (T', G') /\
    map payload T' = map payload (repeat zero_tuple 8) /\
    forall k, occurrences T' k =
      if (1 <=? k) && (k <=? 3)
      then len (repeat zero_tuple 8) / 3
           + (if k <=? len (repeat zero_tuple 8) mod 3 then 1 else 0)
      else 0.
Proof. apply (fill_foreign_keys_uniform 128 3 54321); [lia|lia|cbn; lia]. Defined.

(** X9: whatever the floating-point operations and [rand] return,
    [fill_skewed_keys] returns and every key it writes is a key of R, a
    number of [1, |R|]; the search never reads outside the table.  No
    payload changes. *)
Theorem fill_skewed_keys_foreign (double : Type) (of_Z : Z -> double)
    (fadd fdiv pow : double -> double -> double)
    (flt fge : double -> double -> bool)
    (RAND_MAX : Z) (rand : Z -> nat -> Z)
    (junk_keys : nat -> Z) (junk_table : nat -> double)
    (fuel : nat) (sizeR seed_S : Z) (z : double) (T : list tuple_t) :
  (128 <= fuel)%nat -> 1 <= sizeR < 2 ^ 32 -> len T < 2 ^ 32 ->
  exists T' G',
    fill_skewed_keys double of_Z fadd fdiv pow flt fge RAND_MAX rand
      junk_keys junk_table fuel sizeR seed_S z T (len T) = Some (T', G') /\
    Forall (fun s => 1 <= key s <= sizeR) T' /\
    map payload T' = map payload T.
Proof.
  intros Hf HR Hlen.
  destruct (fill_skewed_keys_ok double of_Z fadd fdiv pow flt fge RAND_MAX rand
              junk_keys junk_table fuel sizeR seed_S z T Hf HR Hlen)
    as (T' & G' & E & Hrk & Hin).
  exists T', G'. split; [exact E|]. split; [exact Hin|].
  apply rekeyed_payload. exact Hrk.
Qed.

Lemma fill_skewed_keys_foreign_witness :
  exists T' G',
    fill_skewed_keys Z (fun n => n) Z.add Z.div Z.pow Z.ltb Z.geb 2147483647
      (fun s n => s + Z.of_nat n) (fun _ => 0) (fun _ => 0)
      128 4 54321 1 (repeat zero_tuple 6) (len (repeat zero_tuple 6))
    = Some (T', G') /\
    Forall (fun s => 1 <= key s <= 4) T' /\
    map payload T' = map payload (repeat zero_tuple 6).
Proof.
  apply (fill_skewed_keys_foreign Z (fun n => n) Z.add Z.div Z.pow Z.ltb Z.geb
           2147483647 (fun s n => s + Z.of_nat n) (fun _ => 0) (fun _ => 0)
           128 4 54321 1 (repeat zero_tuple 6)); [lia|lia|cbn; lia].
Defined.

(** ** util/threads.c *)

(** X10: when [prepare_threads_meta] returns, there are between 1 and
    2048 workers, not more than there are CPUs; worker [k] has thread id
    [k] and group [k mod utilized_llcs], and of either relation the share
    of [size / N] tuples, one more for the first [size mod N] workers,
    at the offset that is the sum of the shares before it. *)
Theorem prepare_threads_meta_table (SysInfo : sys_info_t) (favor : bool)
    (N sizeR sizeS : Z) (tm : threads_meta) :
  0 <= N < 2 ^ 32 -> 0 <= sizeR < 2 ^ 32 -> 0 <= sizeS < 2 ^ 32 ->
  0 <= cores_per_llc SysInfo ->
  prepare_threads_meta SysInfo favor N sizeR sizeS = Some tm ->
  1 <= N <= MAXTIDS /\ N <= num_cpus SysInfo /\
  1 <= utilized_llcs tm <= num_llcs SysInfo /\
  tm_num_groups tm = utilized_llcs tm /\
  map fst (Args tm) = ztab (share_thread N sizeR sizeS (utilized_llcs tm)) N /\
  (forall total k, 0 <= total -> 0 <= k < N ->
     share_offset total N 0 = 0 /\
     share_offset total N (k + 1)
     = share_offset total N k + share_size total N k /\
     share_offset total N N = total).
Proof.
  intros HN HR HS Hcpl H.
  destruct (prepare_threads_meta_shares SysInfo favor N sizeR sizeS tm
              HN HR HS Hcpl H) as (H1 & H2 & H3 & H4 & H5).
  repeat (split; [assumption|]).
  intros total k Ht Hk.
  split; [apply share_offset_0; lia|].
  split; [apply share_offset_succ; lia|apply share_offset_N; lia].
Qed.

Lemma prepare_threads_meta_table_witness :
  1 <= 6 <= MAXTIDS /\ 6 <= num_cpus sample_SysInfo /\
  1 <= utilized_llcs sample_meta <= num_llcs sample_SysInfo /\
  tm_num_groups sample_meta = utilized_llcs sample_meta /\
  map fst (Args sample_meta)
  = ztab (share_thread 6 10 22 (utilized_llcs sample_meta)) 6 /\
  (forall total k, 0 <= total -> 0 <= k < 6 ->
     share_offset total 6 0 = 0 /\
     share_offset total 6 (k + 1)
     = share_offset total 6 k + share_size total 6 k /\
     share_offset total 6 6 = total).
Proof.
  apply (prepare_threads_meta_table sample_SysInfo true 6 10 22 sample_meta);
    [lia|lia|lia|cbn; lia|vm_compute; reflexivity].
Defined.

(** ** util/generate.c: [create_R] and [create_S] *)

(** X11: on a thread table that deals the tuples of R and S to the
    workers, [create_R] and [create_S] return; afterwards the
    sub-relations of the workers, laid end to end in thread order, are a
    relation R that holds a permutation of the keys 1, ..., |R| with
    payloads zero, and a relation S of |S| tuples whose keys are keys of
    R; worker [k] holds of each the tuples from its offset on. *)
Theorem create_relations_deal (double : Type) (of_Z : Z -> double)
    (fadd fdiv pow : double -> double -> double)
    (flt fge : double -> double -> bool)
    (RAND_MAX : Z) (rand : Z -> nat -> Z)
    (junk_keys : nat -> Z) (junk_table : nat -> double)
    (junk_tuples : rel_id -> nat -> tuple_t)
    (fuel : nat) (sizeR sizeS seed_R seed_S : Z) (skewed : bool) (z : double)
    (Ts : list thread_t) :
  (128 <= fuel)%nat -> 1 <= len Ts -> 1 <= sizeR < 2 ^ 32 ->
  0 <= sizeS < 2 ^ 32 ->
  shares_of id_R sizeR Ts -> shares_of id_S sizeS Ts ->
  exists Ts',
    create_relations double of_Z fadd fdiv pow flt fge RAND_MAX rand junk_keys
      junk_table junk_tuples fuel (len Ts) sizeR sizeS seed_R seed_S skewed z
      Ts = Some Ts' /\
    len (all_R Ts') = sizeR /\ primary_key (all_R Ts') /\
    Forall (fun t => payload t = 0) (all_R Ts') /\
    len (all_S Ts') = sizeS /\ foreign_key (all_S Ts') (all_R Ts') /\
    Ts' = map (fun T =>
                 set_SubS
                   (set_SubR T
                      {| tuples := slice (all_R Ts') (offset (SubR T))
                                     (size (SubR T));
                         size := size (SubR T); offset := offset (SubR T);
                         id := id (SubR T) |} (BlocksR T))
                   {| tuples := slice (all_S Ts') (offset (SubS T))
                                  (size (SubS T));
                      size := size (SubS T); offset := offset (SubS T);
                      id := id (SubS T) |} (BlocksS T)) Ts.
Proof.
  intros Hf HTs HR HS HshR HshS.
  pose proof (create_relations_ok double of_Z fadd fdiv pow flt fge RAND_MAX
                rand junk_keys junk_table junk_tuples fuel sizeR sizeS seed_R
                seed_S skewed z Ts Hf HTs HR HS HshR HshS) as E.
  destruct (generated_R_ok double of_Z fadd fdiv pow flt fge RAND_MAX rand
              junk_keys junk_table junk_tuples fuel seed_R sizeR Hf ltac:(lia))
    as (G1 & _ & HlR & Hpk & Hpay).
  destruct (generated_S_ok double of_Z fadd fdiv pow flt fge RAND_MAX rand
              junk_keys junk_table junk_tuples fuel sizeR sizeS seed_S
              skewed z Hf HR HS) as (G2 & _ & HlS & Hfk & _).
  set (RelR := generated_R fuel seed_R sizeR) in *.
  set (RelS := generated_S double of_Z fadd fdiv pow flt fge RAND_MAX rand
                 junk_keys junk_table fuel sizeR sizeS seed_S skewed z) in *.
  destruct (loaded_all RelR RelS Ts HTs
              ltac:(rewrite HlR; exact HshR) ltac:(rewrite HlS; exact HshS))
    as (EaR & EaS).
  exists (loaded RelR RelS Ts). split; [exact E|].
  rewrite EaR, EaS.
  split; [exact HlR|]. split; [exact Hpk|]. split; [exact Hpay|].
  split; [exact HlS|].
  split; [unfold foreign_key; rewrite HlR; exact Hfk|].
  reflexivity.
Qed.

Lemma create_relations_deal_witness :
  exists Ts',
    create_relations Z (fun n => n) Z.add Z.div Z.pow Z.ltb Z.geb 2147483647
      (fun s n => s + Z.of_nat n) (fun _ => 0) (fun _ => 0)
      (fun _ _ => {| key := 99; payload := 99 |})
      128 (len (ztab (share_thread 3 7 11 1) 3)) 7 11 12345 54321 false 0
      (ztab (share_thread 3 7 11 1) 3) = Some Ts' /\
    len (all_R Ts') = 7 /\ primary_key (all_R Ts') /\
    Forall (fun t => payload t = 0) (all_R Ts') /\
    len (all_S Ts') = 11 /\ foreign_key (all_S Ts') (all_R Ts') /\
    Ts' = map (fun T =>
                 set_SubS
                   (set_SubR T
                      {| tuples := slice (all_R Ts') (offset (SubR T))
                                     (size (SubR T));
                         size := size (SubR T); offset := offset (SubR T);
                         id := id (SubR T) |} (BlocksR T))
                   {| tuples := slice (all_S Ts') (offset (SubS T))
                                  (size (SubS T));
                      size := size (SubS T); offset := offset (SubS T);
                      id := id (SubS T) |} (BlocksS T))
            (ztab (share_thread 3 7 11 1) 3).
Proof.
  apply (create_relations_deal Z (fun n => n) Z.add Z.div Z.pow Z.ltb Z.geb
           2147483647 (fun s n => s + Z.of_nat n) (fun _ => 0) (fun _ => 0)
           (fun _ _ => {| key := 99; payload := 99 |})
           128 7 11 12345 54321 false 0 (ztab (share_thread 3 7 11 1) 3));
    [lia|rewrite len_ztab by lia; lia|lia|lia| | ].
  - apply (share_threads_shares id_R 3 7 11 1). lia.
  - apply (share_threads_shares id_S 3 7 11 1). lia.
Defined.

(** ** main.c *)

(** X12: for an LLC of 6 bytes to 2^61 bytes, [main] keeps the radix
    pair it has when the user gave one or when four bytes per tuple of R
    are less than 6/5 of the LLC size rounded down; otherwise it sets
    both radices to the same value, the least [r] with [2^r >= q], [q]
    being the quotient, rounded down, of four bytes per tuple of R by 2/3
    of the LLC size rounded down.  Both divisions are integer divisions:
    the radix can be one less than the exact quotient would need. *)
Theorem select_radix_formula (SysInfo : sys_info_t) (Radix : radix_info_t)
    (sizeR : Z) :
  0 <= sizeR < 2 ^ 32 -> 6 <= llc_size SysInfo < 2 ^ 61 ->
  select_radix SysInfo Radix sizeR
  = Some (if user_defined Radix
             || (4 * sizeR <? llc_size SysInfo * 6 / 5)
          then Radix
          else
            let r := Z.log2_up (4 * sizeR / (llc_size SysInfo * 2 / 3)) in
            {| Radix_R := r; Radix_S := r; user_defined := false |}).
Proof.
  intros HR Hllc. unfold select_radix.
  set (A := llc_size SysInfo * 6 / 5). set (B := llc_size SysInfo * 2 / 3).
  assert (HA : 7 <= A) by (unfold A; apply Z.div_le_lower_bound; lia).
  assert (HB : 4 <= B) by (unfold B; apply Z.div_le_lower_bound; lia).
  assert (HBA : B <= A).
  { unfold A, B.
    pose proof (Z.div_mod (llc_size SysInfo * 6) 5 ltac:(lia)).
    pose proof (Z.mod_pos_bound (llc_size SysInfo * 6) 5 ltac:(lia)).
    pose proof (Z.div_mod (llc_size SysInfo * 2) 3 ltac:(lia)).
    pose proof (Z.mod_pos_bound (llc_size SysInfo * 2) 3 ltac:(lia)). lia. }
  rewrite (u64_small (4 * sizeR))
    by (change (2 ^ 64) with (2 ^ 32 * 2 ^ 32); lia).
  rewrite (u64_small (llc_size SysInfo * 6))
    by (change (2 ^ 64) with (2 ^ 61 * 8); lia).
  rewrite (u64_small (llc_size SysInfo * 2))
    by (change (2 ^ 64) with (2 ^ 61 * 8); lia).
  fold A B. unfold c_div.
  destruct (Z.eqb_spec A 0) as [|_]; [lia|].
  destruct (Z.eqb_spec B 0) as [|_]; [lia|]. cbn [bind].
  assert (HqA : 0 <= 4 * sizeR / A < 2 ^ 32).
  { split; [apply Z.div_pos; lia|].
    apply Z.div_lt_upper_bound; lia. }
  assert (HqB : 0 <= 4 * sizeR / B < 2 ^ 32).
  { split; [apply Z.div_pos; lia|].
    apply Z.div_lt_upper_bound; lia. }
  rewrite !u32_small by assumption.
  destruct (user_defined Radix) eqn:Eud; cbn [negb andb orb]; [reflexivity|].
  destruct (Z.ltb_spec (4 * sizeR) A) as [Hlt|Hge].
  - rewrite Z.div_small by lia. reflexivity.
  - assert (1 <= 4 * sizeR / A) by (apply Z.div_le_lower_bound; lia).
    destruct (Z.leb_spec 1 (4 * sizeR / A)); [|lia].
    assert (1 <= 4 * sizeR / B).
    { apply Z.div_le_lower_bound; lia. }
    rewrite lg_ceil_spec by lia. reflexivity.
Qed.

(** 699051 tuples of R for an LLC of 1 MiB: [q] is 4 and the radix 2,
    where the exact quotient is above 4. *)
Lemma select_radix_formula_witness :
  select_radix sample_SysInfo
    {| Radix_R := 0; Radix_S := 0; user_defined := false |} 699051
  = Some {| Radix_R := 2; Radix_S := 2; user_defined := false |}.
Proof.
  exact (select_radix_formula sample_SysInfo
           {| Radix_R := 0; Radix_S := 0; user_defined := false |} 699051
           ltac:(lia) ltac:(cbn; lia)).
Defined.

(** ** main.c *)

(** X13: a run of [main] whose arguments are read without an exit, with
    at least one tuple of R and sizes that fit, whose thread table can be
    prepared and whose radix pair fits the workers and the groups, and in
    which, when S is partitioned, the workers of the groups other than
    the first read [Threads.HTables] in the cleanup of Model II before
    worker 0 frees it, prints [|S|] matches and the checksum
    [|R| (|R| + 1) / 2], to which the keys of S add when keys are stored
    in place of payloads: the relations [main] generates join in
    full. *)
Theorem main_totals (TEST : bool) (junk : Z -> nat -> Z) (sched : list Z)
    (double : Type) (of_Z : Z -> double)
    (fadd fdiv pow : double -> double -> double)
    (flt fge : double -> double -> bool)
    (RAND_MAX : Z) (rand : Z -> nat -> Z)
    (junk_keys : nat -> Z) (junk_table : nat -> double)
    (junk_tuples : rel_id -> nat -> tuple_t)
    (sscanf_lf : String.string -> CmdArgs.scanned double)
    (fuel : nat) (SysInfo : sys_info_t) (args : list String.string)
    (ival0 : Z) (dval0 : double) (st : CmdArgs.state double)
    (tm : threads_meta) (rad : radix_info_t) :
  let N := CmdArgs.Threads_N _ st in
  let sizeR := CmdArgs.RelR_size _ st in
  let sizeS := CmdArgs.RelS_size _ st in
  let skew := CmdArgs.RelS_skew _ st in
  (128 <= fuel)%nat -> llc_size SysInfo <> 0 -> 0 <= cores_per_llc SysInfo ->
  CmdArgs.extract_cmd_args double sscanf_lf args
    (default_state double of_Z SysInfo ival0 dval0)
  = Some (CmdArgs.Running _ st) ->
  0 <= N < 2 ^ 32 -> 1 <= sizeR < 2 ^ 31 -> 0 <= sizeS < 2 ^ 32 ->
  prepare_threads_meta SysInfo (CmdArgs.favor_physical_cores _ st)
    N sizeR sizeS = Some tm ->
  select_radix SysInfo (CmdArgs.Radix _ st) sizeR = Some rad ->
  radix_fits rad N (utilized_llcs tm) sizeR sizeS ->
  Radix_S rad = 0 \/ frees_in_order (utilized_llcs tm) sched ->
  main TEST junk sched double of_Z fadd fdiv pow flt fge RAND_MAX rand junk_keys
    junk_table junk_tuples sscanf_lf fuel SysInfo args ival0 dval0
  = Some (Main_joined (CmdArgs.printed _ st) rad sizeS
            (u64 (sizeR * (sizeR + 1) / 2
                  + (if TEST
                     then sum_keys
                            (generated_S double of_Z fadd fdiv pow flt fge
                               RAND_MAX rand junk_keys junk_table fuel sizeR
                               sizeS 54321 (flt (of_Z 0) skew) skew)
                     else 0)))).
Proof.
  intros N sizeR sizeS skew.
  apply (main_joined TEST junk sched double of_Z fadd fdiv pow flt fge RAND_MAX rand
           junk_keys junk_table junk_tuples sscanf_lf fuel SysInfo args ival0
           dval0 st tm rad).
Qed.

Lemma main_totals_witness :
  main true (fun _ _ => 0) [1; 0; 0] Z (fun z => z) Z.add Z.div Z.pow Z.ltb Z.geb
    2147483647 (fun s n => s + Z.of_nat n) (fun _ => 0) (fun _ => 0)
    (fun _ _ => {| key := 99; payload := 99 |})
    (fun _ => CmdArgs.MatchFailure) 128 sample_SysInfo SampleRun.args 0 0
  = Some (Main_joined [] {| Radix_R := 1; Radix_S := 1; user_defined := true |}
            12 48).
Proof.
  apply (main_totals true (fun _ _ => 0) [1; 0; 0] Z (fun z => z) Z.add Z.div Z.pow
           Z.ltb Z.geb 2147483647 (fun s n => s + Z.of_nat n) (fun _ => 0)
           (fun _ => 0) (fun _ _ => {| key := 99; payload := 99 |})
           (fun _ => CmdArgs.MatchFailure) 128 sample_SysInfo SampleRun.args
           0 0 SampleRun.state SampleRun.meta
           {| Radix_R := 1; Radix_S := 1; user_defined := true |});
    [lia|discriminate|cbn; lia|reflexivity|cbn; lia|cbn; lia|cbn; lia
    |reflexivity|reflexivity| |].
  - right. cbn. repeat split; lia.
  - right. intros g Hg. change (utilized_llcs SampleRun.meta) with 2 in Hg.
    assert (g = 1) as -> by lia.
    exists [], [0; 0]. split; [reflexivity|]. cbn. lia.
Defined.

(** ** The options of the command line *)

Module CmdArgsRun.

Import Ascii String CmdArgs CmdArgsSpec CmdArgsNames.

Lemma slen_app (a b : string) :
  Z.of_nat (String.length (a ++ b)) =
  Z.of_nat (String.length a) + Z.of_nat (String.length b).
Proof.
  induction a as [|c a IH]; cbn [String.append String.length]; lia.
Qed.

Lemma sapp_assoc (a b c : string) : ((a ++ b) ++ c = a ++ (b ++ c))%string.
Proof.
  induction a as [|x a IH]; cbn [String.append]; [reflexivity|].
  rewrite IH. reflexivity.
Qed.

Lemma sapp_nil_r (a : string) : (a ++ "" = a)%string.
Proof.
  induction a as [|x a IH]; cbn [String.append]; [reflexivity|].
  rewrite IH. reflexivity.
Qed.

Lemma scan_name_spec (arg buffer : string) :
  Z.of_nat (String.length buffer) <= LINEMAX - 1 ->
  scan_name arg buffer (Z.of_nat (String.length buffer))
  = if Z.of_nat (String.length buffer) + Z.of_nat (String.length (name_of arg))
       <=? LINEMAX - 1
    then Some ((buffer ++ name_of arg)%string, value_of arg)
    else None.
Proof.
  revert buffer. induction arg as [|c rest IH]; intros buffer Hb.
  - cbn [scan_name name_of value_of String.length]. rewrite sapp_nil_r.
    destruct (Z.leb_spec (Z.of_nat (String.length buffer) + Z.of_nat 0)
                (LINEMAX - 1)) as [H|H]; [reflexivity|lia].
  - cbn [scan_name name_of value_of].
    destruct (Ascii.eqb_spec c "-"%char) as [->|Hd].
    + cbn [Ascii.eqb Bool.eqb]. cbn [andb]. apply IH. exact Hb.
    + destruct (Ascii.eqb_spec c "="%char) as [->|He].
      * cbn [String.length]. rewrite sapp_nil_r.
        destruct (Z.leb_spec (Z.of_nat (String.length buffer) + Z.of_nat 0)
                    (LINEMAX - 1)) as [H|H]; [reflexivity|lia].
      * cbn [String.length]. unfold c_assert.
        destruct (Z.ltb_spec (Z.of_nat (String.length buffer)) (LINEMAX - 1))
          as [Hlt|Hge].
        -- cbn [bind].
           assert (E : u32 (Z.of_nat (String.length buffer) + 1)
                       = Z.of_nat (String.length (buffer ++ String c ""))).
           { rewrite slen_app. cbn [String.length].
             apply u32_small. unfold LINEMAX in Hlt.
             change (2 ^ 32) with 4294967296. lia. }
           rewrite E, IH by (rewrite slen_app; cbn [String.length]; lia).
           rewrite slen_app, sapp_assoc. cbn [String.length String.append].
           replace (Z.of_nat (String.length buffer) + Z.of_nat 1
                    + Z.of_nat (String.length (name_of rest)))
             with (Z.of_nat (String.length buffer)
                   + Z.of_nat (S (String.length (name_of rest)))) by lia.
           reflexivity.
        -- cbn [bind].
           destruct (Z.leb_spec
                       (Z.of_nat (String.length buffer)
                        + Z.of_nat (S (String.length (name_of rest))))
                       (LINEMAX - 1)); [lia|reflexivity].
Qed.

Lemma extract_arg_spec (double : Type) (sscanf_lf : string -> scanned double)
    (arg : string) (st : state double) :
  extract_arg double sscanf_lf arg st
  = if Z.of_nat (String.length (name_of arg)) <=? LINEMAX - 1
    then Some (compare_options double sscanf_lf (name_of arg) (value_of arg) st)
    else None.
Proof.
  unfold extract_arg.
  pose proof (scan_name_spec arg EmptyString
                ltac:(cbn; unfold LINEMAX; lia)) as E.
  cbn [String.length String.append] in E. change (Z.of_nat 0) with 0 in E.
  rewrite E, Z.add_0_l.
  destruct (Z.of_nat (String.length (name_of arg)) <=? LINEMAX - 1);
    reflexivity.
Qed.

(** What an argument does to the radix bits. *)
Lemma compare_options_radix (double : Type)
    (sscanf_lf : string -> scanned double) (buffer value : string)
    (st : state double) :
  Radix double (state_of (compare_options double sscanf_lf buffer value st))
  = Radix double st \/
  (In buffer radix_options /\
   user_defined
     (Radix double
        (state_of (compare_options double sscanf_lf buffer value st))) = true).
Proof.
  unfold compare_options, valued_u, valued_lf, radix_options.
  destruct (String.eqb_spec buffer "radix") as [->|H1].
  { cbn. destruct (sscanf_u value); cbn;
      first [left; reflexivity | right; split; [tauto | reflexivity]]. }
  destruct (String.eqb_spec buffer "radixR") as [->|H2].
  { cbn. destruct (sscanf_u value); cbn;
      first [left; reflexivity | right; split; [tauto | reflexivity]]. }
  destruct (String.eqb_spec buffer "radixS") as [->|H3].
  { cbn. destruct (sscanf_u value); cbn;
      first [left; reflexivity | right; split; [tauto | reflexivity]]. }
  left.
  destruct (buffer =? "threads")%string;
    [destruct (sscanf_u value); cbn [set_ival sscanf_true state_of]; try reflexivity|];
  (destruct (buffer =? "r")%string;
    [destruct (sscanf_u value); cbn [set_ival sscanf_true state_of]; try reflexivity|]);
  (destruct (buffer =? "s")%string;
    [destruct (sscanf_u value); cbn [set_ival sscanf_true state_of]; try reflexivity|]);
  (destruct (buffer =? "skew")%string;
    [destruct (sscanf_lf value); cbn [set_dval sscanf_true state_of]; try reflexivity|]);
  (destruct (buffer =? "sched")%string; [reflexivity|]);
  (destruct (buffer =? "favor_hyperthreading")%string; [reflexivity|]);
  (destruct ((buffer =? "h") || (buffer =? "help"))%string; [reflexivity|]);
  destruct buffer; reflexivity.
Qed.

Lemma compare_options_raised (double : Type)
    (sscanf_lf : string -> scanned double) (buffer value : string)
    (st : state double) :
  user_defined (Radix double st) = true ->
  user_defined
    (Radix double
       (state_of (compare_options double sscanf_lf buffer value st))) = true.
Proof.
  intros H.
  destruct (compare_options_radix double sscanf_lf buffer value st)
    as [E|(_ & E)]; [rewrite E; exact H|exact E].
Qed.

Lemma extract_args_raised (double : Type)
    (sscanf_lf : string -> scanned double) (args : list string) :
  forall (st : state double) out,
  user_defined (Radix double st) = true ->
  extract_args double sscanf_lf args st = Some out ->
  user_defined (Radix double (state_of out)) = true.
Proof.
  induction args as [|arg args IH]; intros st out H E.
  - cbn in E. inversion E; subst out. exact H.
  - cbn [extract_args] in E. rewrite extract_arg_spec in E.
    destruct (Z.of_nat (String.length (name_of arg)) <=? LINEMAX - 1);
      [|discriminate].
    cbn [bind] in E.
    pose proof (compare_options_raised double sscanf_lf (name_of arg)
                  (value_of arg) st H) as H'.
    destruct (compare_options double sscanf_lf (name_of arg) (value_of arg) st)
      as [st'|st'].
    + apply (IH st' out H' E).
    + inversion E; subst out. exact H'.
Qed.

Lemma extract_args_radix (double : Type)
    (sscanf_lf : string -> scanned double) (args : list string) :
  forall (st : state double) out,
  extract_args double sscanf_lf args st = Some out ->
  Radix double (state_of out) = Radix double st \/
  (user_defined (Radix double (state_of out)) = true /\
   exists arg, In arg args /\ In (name_of arg) radix_options).
Proof.
  induction args as [|arg args IH]; intros st out E.
  - cbn in E. inversion E; subst out. left. reflexivity.
  - cbn [extract_args] in E. rewrite extract_arg_spec in E.
    destruct (Z.of_nat (String.length (name_of arg)) <=? LINEMAX - 1);
      [|discriminate].
    cbn [bind] in E.
    destruct (compare_options_radix double sscanf_lf (name_of arg)
                (value_of arg) st) as [E1|(Hin & Hud)].
    + destruct (compare_options double sscanf_lf (name_of arg) (value_of arg) st)
        as [st'|st'].
      * cbn [state_of] in E1.
        destruct (IH st' out E) as [E2|(Hud & a & Ha & Hn)].
        -- left. rewrite E2. exact E1.
        -- right. split; [exact Hud|]. exists a. split; [right; exact Ha|exact Hn].
      * inversion E; subst out. left. exact E1.
    + right. split.
      * destruct (compare_options double sscanf_lf (name_of arg) (value_of arg) st)
          as [st'|st'].
        -- apply (extract_args_raised double sscanf_lf args st' out Hud E).
        -- inversion E; subst out. exact Hud.
      * exists arg. split; [left; reflexivity|exact Hin].
Qed.

(** X14: [extract_cmd_args] stops on the assertion of line 36 exactly for
    an argument with more than 4095 characters other than dashes before
    its first [=]; any other argument is compared by its name, the
    characters before the first [=] with every dash left out, with the
    text after that [=] as its value. *)
Theorem extract_arg_scans (double : Type)
    (sscanf_lf : string -> scanned double) (arg : string) (st : state double) :
  extract_arg double sscanf_lf arg st
  = if Z.of_nat (String.length (name_of arg)) <=? 4095
    then Some (compare_options double sscanf_lf (name_of arg) (value_of arg) st)
    else None.
Proof. apply extract_arg_spec. Qed.

Lemma compare_options_unrecognized (double : Type)
    (sscanf_lf : string -> scanned double) (buffer value : string)
    (st : state double) :
  buffer <> EmptyString ->
  ~ In buffer ["sched"; "favor_hyperthreading"; "h"; "help"]%string ->
  (In buffer unsigned_options -> sscanf_u value = MatchFailure) ->
  (buffer = "skew"%string -> sscanf_lf value = MatchFailure) ->
  compare_options double sscanf_lf buffer value st
  = Running double (printf double st (Msg_unrecognized buffer)).
Proof.
  intros Hne Hno Hu Hlf.
  assert (Eu : forall name, In name unsigned_options ->
            valued_u double buffer name value st = (st, false)).
  { intros name Hn. unfold valued_u.
    destruct (String.eqb_spec buffer name) as [->|_]; [|reflexivity].
    rewrite (Hu Hn). reflexivity. }
  assert (El : valued_lf double sscanf_lf buffer "skew" value st = (st, false)).
  { unfold valued_lf.
    destruct (String.eqb_spec buffer "skew") as [E|_]; [|reflexivity].
    rewrite (Hlf E). reflexivity. }
  unfold compare_options.
  rewrite (Eu "threads"%string) by (unfold unsigned_options; simpl; tauto).
  rewrite (Eu "r"%string) by (unfold unsigned_options; simpl; tauto).
  rewrite (Eu "s"%string) by (unfold unsigned_options; simpl; tauto).
  rewrite El.
  rewrite (Eu "radix"%string) by (unfold unsigned_options; simpl; tauto).
  rewrite (Eu "radixR"%string) by (unfold unsigned_options; simpl; tauto).
  rewrite (Eu "radixS"%string) by (unfold unsigned_options; simpl; tauto).
  destruct (String.eqb_spec buffer "sched") as [E|_];
    [exfalso; apply Hno; rewrite E; simpl; tauto|].
  destruct (String.eqb_spec buffer "favor_hyperthreading") as [E|_];
    [exfalso; apply Hno; rewrite E; simpl; tauto|].
  destruct (String.eqb_spec buffer "h") as [E|_];
    [exfalso; apply Hno; rewrite E; simpl; tauto|].
  destruct (String.eqb_spec buffer "help") as [E|_];
    [exfalso; apply Hno; rewrite E; simpl; tauto|].
  cbn [orb]. destruct buffer; [contradiction|reflexivity].
Qed.

(** The arguments after a prefix are read from the parameters the prefix
    left. *)
Lemma extract_args_prefix (double : Type)
    (sscanf_lf : string -> scanned double) (args args' : list string)
    (st : state double) :
  extract_args double sscanf_lf (args ++ args') st
  = match extract_args double sscanf_lf args st with
    | Some (Running _ st') => extract_args double sscanf_lf args' st'
    | Some (Exited _ st') => Some (Exited double st')
    | None => None
    end.
Proof.
  revert st. induction args as [|arg args IH]; intros st.
  - reflexivity.
  - cbn [app extract_args].
    destruct (extract_arg double sscanf_lf arg st) as [[st'|st']|];
      cbn [bind]; [apply IH|reflexivity|reflexivity].
Qed.

(** X15: an argument whose name is not empty and is none of the options,
    or is a valued option whose value [sscanf] cannot convert (a matching
    failure, as for a value that is a lone sign), changes no parameter:
    it is reported as unrecognized and the run goes on. *)
Theorem option_not_taken (double : Type)
    (sscanf_lf : string -> scanned double) (buffer value : string)
    (st : state double) :
  buffer <> EmptyString ->
  ~ In buffer ["sched"; "favor_hyperthreading"; "h"; "help"]%string ->
  (In buffer unsigned_options -> sscanf_u value = MatchFailure) ->
  (buffer = "skew"%string -> sscanf_lf value = MatchFailure) ->
  compare_options double sscanf_lf buffer value st
  = Running double (printf double st (Msg_unrecognized buffer)).
Proof. apply compare_options_unrecognized. Qed.

(** [--threads=+]: the lone sign is a matching failure. *)
Lemma option_not_taken_witness :
  sscanf_u "+" = MatchFailure /\
  compare_options unit (fun _ => MatchFailure) "threads" "+"
    (initial_state 7 tt)
  = Running unit (printf unit (initial_state 7 tt) (Msg_unrecognized "threads")).
Proof.
  split; [reflexivity|].
  apply (option_not_taken unit (fun _ => MatchFailure) "threads" "+"
           (initial_state 7 tt)).
  - discriminate.
  - simpl. intuition discriminate.
  - intros _. reflexivity.
  - intros _. reflexivity.
Defined.

(** X16: the arguments are read from left to right, each from the
    parameters the ones before it left, and nothing is read after an
    argument that exits: when the arguments before it run on, an argument
    named [sched] prints the notice of line 83, one named [h] or [help]
    the notice of line 95, and the program exits with the parameters the
    arguments before it left, whatever follows it. *)
Theorem extract_args_exits (double : Type)
    (sscanf_lf : string -> scanned double) (args args' : list string)
    (arg : string) (st st' : state double) :
  extract_args double sscanf_lf args st = Some (Running double st') ->
  In (name_of arg) ["sched"; "h"; "help"]%string ->
  extract_args double sscanf_lf (args ++ arg :: args') st
  = Some (Exited double
            (printf double st'
               (if (name_of arg =? "sched")%string then Msg_TODO
                else Msg_help))).
Proof.
  intros E Hin.
  rewrite extract_args_prefix, E.
  cbn [extract_args]. rewrite extract_arg_spec.
  cbn [In] in Hin.
  destruct Hin as [<-|[<-|[<-|[]]]]; reflexivity.
Qed.

(** [--threads=4 --help --r=100]: the relation keeps its size. *)
Lemma extract_args_exits_witness :
  extract_args unit (fun _ => MatchFailure)
    (["--threads=4"%string] ++ "--help"%string :: ["--r=100"%string])
    (initial_state 0 tt)
  = Some (Exited unit
            (printf unit
               (set_Threads_N unit
                  (set_ival unit (initial_state 0 tt) (Matched 4)) 4)
               Msg_help)).
Proof.
  apply (extract_args_exits unit (fun _ => MatchFailure)
           ["--threads=4"%string] ["--r=100"%string] "--help"%string
           (initial_state 0 tt)
           (set_Threads_N unit
              (set_ival unit (initial_state 0 tt) (Matched 4)) 4)).
  - reflexivity.
  - simpl. tauto.
Defined.

(** X17: [extract_cmd_args] lowers [Radix.user_defined] on entry, and
    only [--radix], [--radixR] and [--radixS] raise it: when it is set
    at the end, one of the arguments has such a name, and when it is not
    the radix bits are the ones on entry. *)
Theorem radix_user_defined (double : Type)
    (sscanf_lf : string -> scanned double) (args : list string)
    (st : state double) (out : outcome double) :
  extract_cmd_args double sscanf_lf args st = Some out ->
  if user_defined (Radix double (state_of out))
  then exists arg, In arg args /\ In (name_of arg) radix_options
  else Radix_R (Radix double (state_of out)) = Radix_R (Radix double st) /\
       Radix_S (Radix double (state_of out)) = Radix_S (Radix double st).
Proof.
  unfold extract_cmd_args. intros E.
  destruct (extract_args_radix double sscanf_lf args _ out E)
    as [E1|(Hud & Harg)].
  - rewrite E1. cbn. split; reflexivity.
  - rewrite Hud. exact Harg.
Qed.

Lemma radix_user_defined_witness :
  exists arg, In arg ["--r=5"; "--radix-S=3"]%string /\
              In (name_of arg) radix_options.
Proof.
  apply (radix_user_defined unit (fun _ => MatchFailure)
           ["--r=5"; "--radix-S=3"]%string (initial_state 0 tt)
           (Running unit
              {| Threads_N := 1; RelR_size := 5; RelS_size := 0;
                 RelS_skew := tt; favor_physical_cores := true;
                 Radix := {| Radix_R := 0; Radix_S := 3;
                             user_defined := true |};
                 ival := 3; dval := tt; printed := [] |})).
  reflexivity.
Defined.

End CmdArgsRun.

(** ** join/run.c: the workers one by one *)

Lemma stats_of_final TEST R0 (Ts : list thread_t) (pre fin : thread_t -> thread_t) :
  (forall T, tid (fin (pre T)) = tid T /\
     matches (fin (pre T)) = u64 (len (tuples (SubS T))) /\
     checksum (fin (pre T))
     = u64 (sum_keys (tuples (SubR T)) + sum_vals TEST R0 (tuples (SubS T)))) ->
  let Ts' := map fin (map pre Ts) in
  map tid Ts' = map tid Ts /\
  map matches Ts' = map (fun T => u64 (len (tuples (SubS T)))) Ts /\
  map checksum Ts'
  = map (fun T => u64 (sum_keys (tuples (SubR T))
                       + sum_vals TEST R0 (tuples (SubS T)))) Ts.
Proof.
  intros H Ts'. unfold Ts'. rewrite !map_map.
  repeat split; apply map_ext; intros T; apply (H T).
Qed.

Lemma stats_of_final_same TEST R0 (Ts : list thread_t)
    (fin : thread_t -> thread_t) :
  (forall T, tid (fin T) = tid T /\
     matches (fin T) = u64 (len (tuples (SubS T))) /\
     checksum (fin T)
     = u64 (sum_keys (tuples (SubR T)) + sum_vals TEST R0 (tuples (SubS T)))) ->
  map tid (map fin Ts) = map tid Ts /\
  map matches (map fin Ts) = map (fun T => u64 (len (tuples (SubS T)))) Ts /\
  map checksum (map fin Ts)
  = map (fun T => u64 (sum_keys (tuples (SubR T))
                       + sum_vals TEST R0 (tuples (SubS T)))) Ts.
Proof.
  intros H. rewrite !map_map.
  repeat split; apply map_ext; intros T; apply (H T).
Qed.

(** X18: in a legal configuration, with a cleanup of Model II in which
    [Threads.HTables] is read before worker 0 frees it, every worker
    leaves the join with the thread id it came with, as many matches as
    its own part of S has tuples, and as checksum the keys of its own
    part of R plus what its own tuples of S read from the table:
    whatever the model, also after a skew switch, the work is shared as
    the relations were dealt. *)
Theorem join_threads_workers (TEST : bool) (junk : Z -> nat -> Z)
    (sched : list Z) (g : globals) (Ts : list thread_t) :
  legal_configuration g Ts -> cleanup_in_order g sched ->
  exists g' Ts',
    join_threads TEST junk sched g Ts = Some (g', Ts') /\
    map tid Ts' = map tid Ts /\
    map matches Ts' = map (fun T => u64 (len (tuples (SubS T)))) Ts /\
    map checksum Ts'
    = map (fun T => u64 (sum_keys (tuples (SubR T))
                         + sum_vals TEST (all_R Ts) (tuples (SubS T)))) Ts.
Proof.
  intros (Hin & HHSO & Hch & Hcfg) Hsched. cbn zeta in Hcfg.
  pose proof Hin as (Hok & HR & HS & HR31 & HS32 & Hpk & Hfk).
  pose proof Hok as (HN & HN1 & HG & _).
  unfold join_threads.
  destruct Hcfg as [(HR0 & HS0) | (Hr & Hdiv & Hpart & Hcase)].
  - (* Model I *)
    rewrite HR0. cbn [Z.ltb Z.compare bind].
    unfold join_thread_dispatch. rewrite HR0, HS0. cbn [Z.eqb andb].
    rewrite (ColBP_I_spec TEST junk g Ts Hin HR0 HS0). cbn [bind].
    eexists. eexists. split; [reflexivity|].
    apply (stats_of_final_same TEST (all_R Ts) Ts).
    intros T. repeat split.
  - destruct (Z.ltb_spec 0 (Radix_R (Radix g))) as [_|]; [|lia].
    destruct Hcase as [(HS0 & Hlog) | (HRS & HpS & HGN & Hud)].
    + (* Model III *)
      rewrite (ICP_S_all_radix0 g Ts HS0). cbn [bind].
      destruct (partition_R_then_III TEST junk g Ts Hin Hpart Hr HS0 Hdiv Hlog)
        as (g1 & Ts1 & E1 & ERad & E3).
      rewrite E1. cbn [bind]. rewrite ERad.
      unfold join_thread_dispatch. rewrite HS0.
      destruct (Z.eqb_spec (Radix_R (Radix g)) 0) as [|_]; [lia|].
      cbn [Z.eqb andb negb]. rewrite E3. cbn [bind].
      eexists. eexists. split; [reflexivity|].
      apply (stats_of_final_same TEST (all_R Ts) Ts).
      intros T. repeat split.
    + pose proof (workers_lt_2_32 g Ts Hin Hpart) as HN32.
      rewrite (ICP_S_all_spec g Ts ltac:(lia) HN1 HN HN32 HHSO).
      2:{ intros T HT. apply (ICP_call_ok_S g Ts T Hin HpS HT).
          rewrite HRS. assumption. }
      destruct (Z.eqb_spec (reports g Ts) (Threads_N g)) as [Eall|Enot].
      * (* all the workers reported: the switch, then Model III *)
        cbn [bind].
        assert (Hud' : user_defined (Radix g) = false)
          by (apply (reports_positive g Ts); lia).
        specialize (Hud Hud').
        pose proof (log2_up_le_31 _ HR31) as Hl31.
        set (g' := switched g (reports g Ts)).
        assert (Hg' : g' = {| Radix := {| Radix_R := Radix_R (Radix g) + 1;
                                          Radix_S := 0;
                                          user_defined := user_defined (Radix g) |};
                              Threads_N := Threads_N g; num_groups := num_groups g;
                              RelR_size := RelR_size g; RelS_size := RelS_size g;
                              HighSkewObserved := reports g Ts;
                              ChangedRadixS := true;
                              ModelIII_shift := ModelIII_shift g |}).
        { unfold g', switched, skew_switch.
          cbn [set_HighSkewObserved HighSkewObserved Threads_N Radix num_groups
               RelR_size RelS_size ModelIII_shift Z.eqb andb].
          rewrite Eall, Z.eqb_refl.
          rewrite u32_small by (change (2 ^ 32) with 4294967296; lia).
          reflexivity. }
        clearbody g'. subst g'.
        match goal with
        | |- context [ICP_R_all ?g0 ?Ts0] => set (g' := g0); set (Ts' := Ts0)
        end.
        destruct (join_input_unpartitioned g g' Ts
                    (fun T => {| blocks_N := ICP_num_blocks (size (SubS T));
                                 Pos := [] |})
                    eq_refl eq_refl eq_refl eq_refl Hin)
          as (Hin' & ER & ES & Hpart').
        fold Ts' in Hin', ER, ES, Hpart'.
        destruct (partition_R_then_III TEST junk g' Ts' Hin' (Hpart' Hpart))
          as (g1 & Ts1 & E1 & ERad & E3).
        { cbn. lia. }
        { reflexivity. }
        { cbn. apply pow2_succ_divisible; lia. }
        { cbn. lia. }
        rewrite E1. cbn [bind]. rewrite ERad.
        unfold join_thread_dispatch. cbn [g' Radix Radix_R Radix_S].
        destruct (Z.eqb_spec (Radix_R (Radix g) + 1) 0) as [|_]; [lia|].
        cbn [Z.eqb andb negb]. rewrite E3. cbn [bind].
        eexists. eexists. split; [reflexivity|].
        rewrite <- ER. unfold Ts' at 1 3 5.
        apply (stats_of_final TEST (all_R Ts') Ts).
        intros T. repeat split.
      * (* Model II *)
        cbn [bind].
        set (g' := if estimating g
                   then set_HighSkewObserved g (reports g Ts) else g).
        assert (Hin' : join_input g' Ts)
          by (unfold g'; destruct (estimating g); exact Hin).
        assert (ERad : Radix g' = Radix g)
          by (unfold g'; destruct (estimating g); reflexivity).
        assert (ERes : forall Sub rdx, ICP_result g' Sub rdx = ICP_result g Sub rdx)
          by (intros; unfold g'; destruct (estimating g); reflexivity).
        assert (Hord : frees_in_order (num_groups g) sched)
          by (destruct Hsched as [E0|H]; [lia|exact H]).
        assert (EG : num_groups g' = num_groups g)
          by (unfold g'; destruct (estimating g); reflexivity).
        destruct (partition_R_then_II TEST junk sched g' Ts Hin' Hpart HpS)
          as (Ts2 & E2 & E3 & _).
        { rewrite ERad. assumption. }
        { rewrite ERad. assumption. }
        { rewrite ERad. unfold g'. destruct (estimating g); assumption. }
        { unfold g'. destruct (estimating g); assumption. }
        rewrite EG in E3. specialize (E3 Hord).
        rewrite ERad in E2.
        rewrite (map_ext _ _ (fun T => f_equal2 (set_SubS T)
                                (f_equal fst (ERes (SubS T) (Radix_S (Radix g))))
                                (f_equal snd (ERes (SubS T) (Radix_S (Radix g))))))
          in E2.
        rewrite E2. cbn [bind]. rewrite ERad.
        unfold join_thread_dispatch. rewrite HRS, Z.eqb_refl.
        destruct (Z.eqb_spec (Radix_R (Radix g)) 0) as [|_]; [lia|].
        cbn [andb negb]. rewrite E3. cbn [bind].
        eexists. eexists. split; [reflexivity|].
        apply (stats_of_final_same TEST (all_R Ts) Ts).
        intros T. repeat split.
Qed.

(** Model II on the sample, worker 1 first in the cleanup. *)
Lemma join_threads_workers_witness :
  exists g' Ts',
    join_threads true sample_junk [1; 0; 0] (mk_globals 1 1 true 2 2 4 6)
      sample_threads
    = Some (g', Ts') /\
    map tid Ts' = map tid sample_threads /\
    map matches Ts'
    = map (fun T => u64 (len (tuples (SubS T)))) sample_threads /\
    map checksum Ts'
    = map (fun T => u64 (sum_keys (tuples (SubR T))
                         + sum_vals true (all_R sample_threads)
                             (tuples (SubS T)))) sample_threads.
Proof.
  apply (join_threads_workers true sample_junk [1; 0; 0]
           (mk_globals 1 1 true 2 2 4 6) sample_threads).
  - exact sample_legal_II.
  - right. exact sample_in_order.
Defined.

(** ** Runs that stop in [ICP] *)

Lemma ICP_setup_empty g Sub radix :
  size Sub = 0 -> ICP_setup g Sub radix = None.
Proof.
  intros H. unfold ICP_setup.
  destruct (shl1 radix) as [f|]; cbn [bind]; [|reflexivity].
  rewrite H.
  destruct (id Sub);
    [destruct (Radix_S (Radix g) =? 0);
       [destruct (lg_ceil (RelR_size g)); cbn [bind]; [|reflexivity]|]|];
    reflexivity.
Qed.

Lemma shl1_pow radix f : shl1 radix = Some f -> f = 2 ^ radix.
Proof.
  unfold shl1. destruct (Z.leb_spec 0 radix); cbn [andb]; [|discriminate].
  destruct (radix <? 31); [|discriminate].
  intros E. inversion E. rewrite Z.shiftl_1_l. reflexivity.
Qed.

Lemma ICP_setup_indivisible g Sub radix :
  2 ^ radix mod num_groups g <> 0 -> ICP_setup g Sub radix = None.
Proof.
  intros H. unfold ICP_setup.
  destruct (shl1 radix) as [f|] eqn:Ef; cbn [bind]; [|reflexivity].
  apply shl1_pow in Ef. subst f.
  match goal with
  | |- bind ?m _ = None => destruct m as [[g1 shift]|]; cbn [bind];
                           [|reflexivity]
  end.
  destruct (div_ceil (size Sub) ChunkSize) as [nb|]; cbn [bind]; [|reflexivity].
  destruct (c_div (size Sub) nb) as [avg|]; cbn [bind]; [|reflexivity].
  destruct (c_mod (size Sub) nb) as [rem0|]; cbn [bind]; [|reflexivity].
  destruct (c_div (2 ^ radix) (num_groups g)) as [sbp|]; cbn [bind];
    [|reflexivity].
  unfold c_mod. destruct (num_groups g =? 0); cbn [bind]; [reflexivity|].
  destruct (Z.eqb_spec (2 ^ radix mod num_groups g) 0) as [E|_];
    [contradiction|reflexivity].
Qed.

Lemma ICP_setup_stops g Sub radix :
  size Sub = 0 \/ 2 ^ radix mod num_groups g <> 0 ->
  ICP_setup g Sub radix = None.
Proof.
  intros [H|H]; [apply ICP_setup_empty | apply ICP_setup_indivisible]; exact H.
Qed.

Lemma ICP_own_report_stops g Sub radix :
  radix <> 0 -> size Sub = 0 \/ 2 ^ radix mod num_groups g <> 0 ->
  ICP_own_report g Sub radix = None.
Proof.
  intros Hr H. unfold ICP_own_report.
  destruct (Z.eqb_spec radix 0) as [|_]; [contradiction|].
  rewrite (ICP_setup_stops g Sub radix H). reflexivity.
Qed.

Lemma ICP_rec_stops fuel g peers tid Sub radix Blocks :
  radix <> 0 -> size Sub = 0 \/ 2 ^ radix mod num_groups g <> 0 ->
  ICP_rec fuel g peers tid Sub radix Blocks = None.
Proof.
  intros Hr H. destruct fuel as [|fuel]; cbn [ICP_rec];
    destruct (Z.eqb_spec radix 0) as [|_]; try contradiction; [reflexivity|].
  rewrite (ICP_setup_stops g Sub radix H). reflexivity.
Qed.

Lemma map_opt_None {X Y} (f : X -> option Y) (l : list X) (x : X) :
  In x l -> f x = None -> map_opt f l = None.
Proof.
  intros Hin Hx. induction l as [|a l IH]; [contradiction|].
  cbn [map_opt]. destruct Hin as [->|Hin].
  - rewrite Hx. reflexivity.
  - destruct (f a); cbn [bind]; [|reflexivity].
    rewrite (IH Hin). reflexivity.
Qed.

Lemma ICP_S_all_stops g Ts T :
  In T Ts -> Radix_S (Radix g) <> 0 ->
  size (SubS T) = 0 \/ 2 ^ Radix_S (Radix g) mod num_groups g <> 0 ->
  ICP_S_all g Ts = None.
Proof.
  intros HT Hr H. unfold ICP_S_all.
  rewrite (map_opt_None _ Ts T HT); [reflexivity|].
  apply ICP_own_report_stops; assumption.
Qed.

Lemma ICP_R_all_stops g Ts T :
  In T Ts -> Radix_R (Radix g) <> 0 ->
  size (SubR T) = 0 \/ 2 ^ Radix_R (Radix g) mod num_groups g <> 0 ->
  ICP_R_all g Ts = None.
Proof.
  intros HT Hr H. unfold ICP_R_all.
  rewrite (map_opt_None _ Ts T HT); [reflexivity|].
  unfold ICP. rewrite ICP_rec_stops by assumption. reflexivity.
Qed.

Lemma execute_join_stops TEST junk sched g Ts T :
  0 < Radix_R (Radix g) -> In T Ts ->
  (Radix_S (Radix g) <> 0 /\
   (size (SubS T) = 0 \/ 2 ^ Radix_S (Radix g) mod num_groups g <> 0)) \/
  (Radix_S (Radix g) = 0 /\
   (size (SubR T) = 0 \/ 2 ^ Radix_R (Radix g) mod num_groups g <> 0)) ->
  execute_join TEST junk sched g Ts = None.
Proof.
  intros Hr HT H. unfold execute_join, join_threads.
  destruct (Z.ltb_spec 0 (Radix_R (Radix g))) as [_|]; [|lia].
  destruct H as [(HS & H)|(HS & H)].
  - rewrite (ICP_S_all_stops g Ts T HT HS H). reflexivity.
  - rewrite (ICP_S_all_radix0 g Ts HS). cbn [bind].
    rewrite (ICP_R_all_stops g Ts T HT ltac:(lia) H). reflexivity.
Qed.

Lemma share_size_none total N : 0 <= total < N -> share_size total N (N - 1) = 0.
Proof.
  intros H. unfold share_size.
  rewrite Z.div_small, Z.mod_small by lia.
  destruct (Z.ltb_spec (N - 1) total); [lia|reflexivity].
Qed.

Section Main.

Context (TEST : bool) (junk : Z -> nat -> Z) (sched : list Z).
Context (double : Type) (of_Z : Z -> double)
  (fadd fdiv pow : double -> double -> double)
  (flt fge : double -> double -> bool)
  (RAND_MAX : Z) (rand : Z -> nat -> Z)
  (junk_keys : nat -> Z) (junk_table : nat -> double)
  (junk_tuples : rel_id -> nat -> tuple_t)
  (sscanf_lf : String.string -> CmdArgs.scanned double).

(** The run of [main] with more workers than tuples. *)
Lemma main_stopped fuel SysInfo args ival0 dval0 st rad :
  let N := CmdArgs.Threads_N _ st in
  let sizeR := CmdArgs.RelR_size _ st in
  let sizeS := CmdArgs.RelS_size _ st in
  (128 <= fuel)%nat -> 0 <= cores_per_llc SysInfo ->
  CmdArgs.extract_cmd_args double sscanf_lf args
    (default_state double of_Z SysInfo ival0 dval0)
  = Some (CmdArgs.Running _ st) ->
  0 <= N < 2 ^ 32 -> 1 <= sizeR < 2 ^ 32 -> 0 <= sizeS < 2 ^ 32 ->
  select_radix SysInfo (CmdArgs.Radix _ st) sizeR = Some rad ->
  0 < Radix_R rad ->
  (Radix_S rad <> 0 /\ sizeS < N) \/ (Radix_S rad = 0 /\ sizeR < N) ->
  main TEST junk sched double of_Z fadd fdiv pow flt fge RAND_MAX rand
    junk_keys junk_table junk_tuples sscanf_lf fuel SysInfo args ival0 dval0
  = None.
Proof.
  intros N sizeR sizeS Hf Hcpl Hargs HN HR HS Hrad Hr Hfew.
  unfold main. destruct (negb (llc_size SysInfo =? 0)); [|reflexivity].
  cbn [c_assert bind]. rewrite Hargs. cbn [bind].
  fold N sizeR sizeS.
  destruct (prepare_threads_meta SysInfo (CmdArgs.favor_physical_cores _ st)
              N sizeR sizeS) as [tm|] eqn:Hmeta; [|reflexivity].
  rewrite Hrad. cbn [bind].
  destruct (prepare_threads_meta_shares SysInfo _ N sizeR sizeS tm HN
              ltac:(lia) HS Hcpl Hmeta) as (HN1 & _ & HU & EU & EArgs).
  rewrite EArgs, EU.
  set (U := utilized_llcs tm) in *.
  set (Ts := ztab (share_thread N sizeR sizeS U) N).
  assert (HlTs : len Ts = N) by (apply len_ztab; lia).
  pose proof (share_threads_shares id_R N sizeR sizeS U ltac:(lia)) as HshR.
  pose proof (share_threads_shares id_S N sizeR sizeS U ltac:(lia)) as HshS.
  fold Ts in HshR, HshS. cbv iota in HshR, HshS.
  rewrite <- HlTs at 1.
  rewrite (create_relations_ok double of_Z fadd fdiv pow flt fge RAND_MAX rand
             junk_keys junk_table junk_tuples fuel sizeR sizeS 12345 54321
             (flt (of_Z 0) (CmdArgs.RelS_skew _ st)) (CmdArgs.RelS_skew _ st)
             Ts Hf ltac:(lia) HR HS HshR HshS).
  cbn [bind].
  set (RelR := generated_R fuel 12345 sizeR).
  set (RelS := generated_S double of_Z fadd fdiv pow flt fge RAND_MAX rand
                 junk_keys junk_table fuel sizeR sizeS 54321
                 (flt (of_Z 0) (CmdArgs.RelS_skew _ st))
                 (CmdArgs.RelS_skew _ st)).
  set (T := load id_S RelS (load id_R RelR (share_thread N sizeR sizeS U (N - 1)))).
  assert (HT : In T (loaded RelR RelS Ts)).
  { unfold loaded. apply in_map_iff.
    exists (share_thread N sizeR sizeS U (N - 1)). split; [reflexivity|].
    unfold Ts, ztab. apply in_map_iff.
    exists (Z.to_nat (N - 1)). split; [f_equal; lia|].
    apply in_seq. lia. }
  rewrite (execute_join_stops TEST junk sched _ (loaded RelR RelS Ts) T);
    [reflexivity|exact Hr|exact HT|].
  cbn [Radix num_groups].
  destruct Hfew as [(H1 & H2)|(H1 & H2)]; [left|right];
    (split; [exact H1|left]).
  - unfold T, load, set_tuples, share_thread, set_SubR, set_SubS, Sub_of.
    cbn [SubS SubR size]. apply share_size_none. lia.
  - unfold T, load, set_tuples, share_thread, set_SubR, set_SubS, Sub_of.
    cbn [SubS SubR size]. apply share_size_none. lia.
Qed.

End Main.

(** X19: [ICP] with radix bits stops, on the division by the number of
    blocks, when the sub-relation is empty, and at the latest on the
    assertion of line 73 when the number of groups does not divide the
    fanout. *)
Theorem ICP_stops (g : globals) (peers tid : Z) (Sub : relation_t)
    (radix : Z) (Blocks : block_meta_t) :
  radix <> 0 -> size Sub = 0 \/ 2 ^ radix mod num_groups g <> 0 ->
  ICP g peers tid Sub radix Blocks = None.
Proof.
  intros Hr H. unfold ICP. apply ICP_rec_stops; assumption.
Qed.

Lemma ICP_stops_witness :
  ICP (mk_globals 2 2 true 3 3 4 6) 0 0
    {| tuples := []; size := 0; offset := 0; id := id_S |} 2
    {| blocks_N := 0; Pos := [] |} = None.
Proof.
  apply (ICP_stops (mk_globals 2 2 true 3 3 4 6) 0 0
           {| tuples := []; size := 0; offset := 0; id := id_S |} 2
           {| blocks_N := 0; Pos := [] |}); [lia|left; reflexivity].
Defined.

(** X20: a run of [main] with radix bits for R and more workers than
    tuples, of S when S is partitioned too and of R otherwise, does not
    reach the join's result: the last worker has no tuple to partition
    and [ICP] divides by the number of its blocks, zero. *)
Theorem main_stops_few_tuples (TEST : bool) (junk : Z -> nat -> Z)
    (sched : list Z)
    (double : Type) (of_Z : Z -> double)
    (fadd fdiv pow : double -> double -> double)
    (flt fge : double -> double -> bool)
    (RAND_MAX : Z) (rand : Z -> nat -> Z)
    (junk_keys : nat -> Z) (junk_table : nat -> double)
    (junk_tuples : rel_id -> nat -> tuple_t)
    (sscanf_lf : String.string -> CmdArgs.scanned double)
    (fuel : nat) (SysInfo : sys_info_t) (args : list String.string)
    (ival0 : Z) (dval0 : double) (st : CmdArgs.state double)
    (rad : radix_info_t) :
  let N := CmdArgs.Threads_N _ st in
  let sizeR := CmdArgs.RelR_size _ st in
  let sizeS := CmdArgs.RelS_size _ st in
  (128 <= fuel)%nat -> 0 <= cores_per_llc SysInfo ->
  CmdArgs.extract_cmd_args double sscanf_lf args
    (default_state double of_Z SysInfo ival0 dval0)
  = Some (CmdArgs.Running _ st) ->
  0 <= N < 2 ^ 32 -> 1 <= sizeR < 2 ^ 32 -> 0 <= sizeS < 2 ^ 32 ->
  select_radix SysInfo (CmdArgs.Radix _ st) sizeR = Some rad ->
  0 < Radix_R rad ->
  (Radix_S rad <> 0 /\ sizeS < N) \/ (Radix_S rad = 0 /\ sizeR < N) ->
  main TEST junk sched double of_Z fadd fdiv pow flt fge RAND_MAX rand
    junk_keys junk_table junk_tuples sscanf_lf fuel SysInfo args ival0 dval0
  = None.
Proof.
  intros N sizeR sizeS.
  apply (main_stopped TEST junk sched double of_Z fadd fdiv pow flt fge RAND_MAX rand
           junk_keys junk_table junk_tuples sscanf_lf fuel SysInfo args ival0
           dval0 st rad).
Qed.

Lemma main_stops_few_tuples_witness :
  main true (fun _ _ => 0) [] Z (fun z => z) Z.add Z.div Z.pow Z.ltb Z.geb
    2147483647 (fun s n => s + Z.of_nat n) (fun _ => 0) (fun _ => 0)
    (fun _ _ => {| key := 99; payload := 99 |})
    (fun _ => CmdArgs.MatchFailure) 128 sample_SysInfo SampleRun.few_args 0 0
  = None.
Proof.
  apply (main_stops_few_tuples true (fun _ _ => 0) [] Z (fun z => z) Z.add Z.div
           Z.pow Z.ltb Z.geb 2147483647 (fun s n => s + Z.of_nat n)
           (fun _ => 0) (fun _ => 0) (fun _ _ => {| key := 99; payload := 99 |})
           (fun _ => CmdArgs.MatchFailure) 128 sample_SysInfo
           SampleRun.few_args 0 0 SampleRun.few_state
           {| Radix_R := 1; Radix_S := 1; user_defined := true |});
    [lia|cbn; lia|reflexivity|cbn; lia|cbn; lia|cbn; lia|reflexivity|cbn; lia|].
  left. cbn. lia.
Defined.

(** ** util/threads.c: the workers and their CPUs *)

Lemma div_mod_succ t U :
  0 < U -> 0 <= t ->
  (t mod U + 1 < U /\ (t + 1) / U = t / U /\ (t + 1) mod U = t mod U + 1) \/
  (t mod U + 1 = U /\ (t + 1) / U = t / U + 1 /\ (t + 1) mod U = 0).
Proof.
  intros HU Ht.
  pose proof (Z.div_mod t U ltac:(lia)) as E.
  pose proof (Z.mod_pos_bound t U HU) as B.
  destruct (Z_lt_le_dec (t mod U + 1) U) as [H|H].
  - left. split; [exact H|].
    assert (E1 : t + 1 = U * (t / U) + (t mod U + 1)) by lia.
    split.
    + symmetry. apply (Z.div_unique_pos (t + 1) U (t / U) (t mod U + 1)); lia.
    + symmetry. apply (Z.mod_unique_pos (t + 1) U (t / U) (t mod U + 1)); lia.
  - right. split; [lia|].
    assert (E1 : t + 1 = U * (t / U + 1) + 0) by lia.
    split.
    + symmetry. apply (Z.div_unique_pos (t + 1) U (t / U + 1) 0); lia.
    + symmetry. apply (Z.mod_unique_pos (t + 1) U (t / U + 1) 0); lia.
Qed.

Lemma placed_here U t : 0 < U -> placed U t (t mod U) = t / U.
Proof.
  intros HU. unfold placed. rewrite Z.ltb_irrefl. lia.
Qed.

Lemma placed_succ U t l :
  0 < U -> 0 <= t -> 0 <= l < U ->
  placed U (t + 1) l = placed U t l + (if l =? t mod U then 1 else 0).
Proof.
  intros HU Ht Hl. unfold placed.
  pose proof (Z.mod_pos_bound t U HU) as B.
  destruct (div_mod_succ t U HU Ht) as [(H & -> & ->)|(H & -> & ->)];
    destruct (Z.ltb_spec l (t mod U)); destruct (Z.eqb_spec l (t mod U));
    try destruct (Z.ltb_spec l (t mod U + 1)); try destruct (Z.ltb_spec l 0);
    lia.
Qed.

Lemma div_ceil_spec a b :
  1 <= a < 2 ^ 32 -> 0 < b ->
  exists q, div_ceil a b = Some q /\ 1 <= q /\ (q - 1) * b < a <= q * b.
Proof.
  intros Ha Hb. unfold div_ceil, c_div, c_mod.
  destruct (Z.eqb_spec b 0) as [|_]; [lia|]. cbn [bind].
  pose proof (Z.mod_pos_bound a b Hb) as B.
  pose proof (Z.div_mod a b ltac:(lia)) as E.
  assert (0 <= a / b) by (apply Z.div_pos; lia).
  assert (a / b <= a) by (apply Z.div_le_upper_bound; [lia|nia]).
  eexists. split; [reflexivity|].
  destruct (Z.ltb_spec 0 (a mod b)).
  - assert (a / b < a) by nia. rewrite u32_small by lia. nia.
  - assert (1 <= a / b) by nia. rewrite u32_small by lia. nia.
Qed.

Lemma in_use_succ m q c' :
  1 <= m -> 0 <= q -> 0 <= c' -> c' <> q / m ->
  in_use m (q + 1) c' = in_use m q c'.
Proof.
  intros Hm Hq Hc Hne. unfold in_use.
  pose proof (Z.div_mod q m ltac:(lia)) as E.
  pose proof (Z.mod_pos_bound q m ltac:(lia)) as B.
  destruct (Z_lt_le_dec c' (q / m)) as [H|H].
  - assert (q - c' * m >= m) by nia. lia.
  - assert (q + 1 - c' * m <= 0) by nia. lia.
Qed.

Lemma in_use_here m q :
  1 <= m -> 0 <= q ->
  in_use m q (q / m) = q mod m /\ in_use m (q + 1) (q / m) = q mod m + 1.
Proof.
  intros Hm Hq. unfold in_use.
  pose proof (Z.div_mod q m ltac:(lia)) as E.
  pose proof (Z.mod_pos_bound q m ltac:(lia)) as B.
  split; nia.
Qed.

Section Pins.

Context (S : sys_info_t) (U ucpc N : Z)
  (R_section S_section R_remainder S_remainder : Z).
Hypothesis Hok : topology_ok S.
Hypothesis HU : 1 <= U <= num_llcs S.
Hypothesis Hm : 1 <= ucpc <= cpus_per_core S.
Hypothesis HN : N <= ucpc * U * cores_per_llc S.

Lemma prepare_thread_pins t st :
  0 <= t < N -> pins_inv S U ucpc t st ->
  exists st',
    prepare_thread S U ucpc R_section S_section R_remainder S_remainder t st
    = Some st' /\ pins_inv S U ucpc (t + 1) st'.
Proof.
  intros Ht (Hllc & Hcores & Hcpus & Hlen & Hargs).
  destruct Hok as (Hcpl & Hcpc & Hnl & Hbound & Hcore & Hcid & Hxid).
  assert (B32 : num_llcs S < 2 ^ 32 /\ cores_per_llc S < 2 ^ 32 /\
                cpus_per_core S < 2 ^ 32).
  { assert (num_llcs S <= num_llcs S * cores_per_llc S) by nia.
    assert (cores_per_llc S <= num_llcs S * cores_per_llc S) by nia.
    assert (num_llcs S * cores_per_llc S
            <= num_llcs S * cores_per_llc S * cpus_per_core S) by nia.
    assert (cpus_per_core S
            <= num_llcs S * cores_per_llc S * cpus_per_core S) by nia.
    lia. }
  set (l := t mod U). set (q := t / U).
  pose proof (Z.mod_pos_bound t U ltac:(lia)) as Bl. fold l in Bl.
  assert (Hq : 0 <= q) by (apply Z.div_pos; lia).
  assert (Epl : placed U t l = q) by (unfold l, q; apply placed_here; lia).
  assert (Hq' : q < ucpc * cores_per_llc S).
  { apply Z.div_lt_upper_bound; [lia|]. nia. }
  set (c := q / ucpc). set (h := q mod ucpc).
  assert (Hc : 0 <= c < cores_per_llc S).
  { split; [apply Z.div_pos; lia|]. apply Z.div_lt_upper_bound; lia. }
  pose proof (Z.mod_pos_bound q ucpc ltac:(lia)) as Bh. fold h in Bh.
  destruct (in_use_here ucpc q ltac:(lia) Hq) as (Ih1 & Ih2).
  fold c h in Ih1, Ih2.
  destruct (Hcore l c ltac:(lia) Hc) as (core & Ecore & Hid & Hcpus').
  destruct (Hcpus' h ltac:(lia)) as (x & Ex).
  assert (Eh : rd (ms_cpus_on_core st) (core_id core) = Some h).
  { rewrite (Hcpus l c core ltac:(lia) Hc Ecore).
    destruct (Z.ltb_spec l U); [|lia].
    rewrite Epl.
    rewrite Ih1. reflexivity. }
  unfold prepare_thread.
  destruct (take_share R_section (ms_R_leftover st)) as [szR lR].
  destruct (take_share S_section (ms_S_leftover st)) as [szS lS].
  cbv zeta. rewrite Hllc. fold l.
  unfold core_at in Ecore.
  destruct (rd (LLCs S) l) as [L|] eqn:EL; [|discriminate].
  cbn [bind] in Ecore |- *.
  rewrite Hcores, rd_ztab by lia. cbn [bind].
  rewrite Epl. fold c.
  rewrite Ecore. cbn [bind]. rewrite Eh. cbn [bind]. rewrite Ex. cbn [bind].
  destruct (wr_lt (ms_cpus_on_core st) (core_id core) (u32 (h + 1)))
    as (cpus' & Ecpus').
  { apply (rd_Some_range _ _ _ Eh). }
  rewrite Ecpus'. cbn [bind].
  rewrite (u32_small (h + 1)) in * by lia.
  rewrite (u32_small (c + 1)) by lia.
  rewrite (u32_small (l + 1)) by lia.
  rewrite wr_ztab by lia.
  unfold c_mod. destruct (Z.eqb_spec U 0) as [|_]; [lia|].
  assert (Ecores' :
    (if h + 1 =? ucpc
     then Some (ztab (fun j => if j =? l then c + 1
                               else placed U t j / ucpc) U)
     else Some (ztab (fun l0 => placed U t l0 / ucpc) U))
    = Some (ztab (fun l0 => placed U (t + 1) l0 / ucpc) U)).
  { destruct (Z.eqb_spec (h + 1) ucpc) as [E|E]; f_equal; apply ztab_ext;
      intros j Hj; rewrite placed_succ by lia; fold l;
      destruct (Z.eqb_spec j l) as [->|Hne]; rewrite ?Z.add_0_r;
      try reflexivity; rewrite Epl;
      destruct (div_mod_succ q ucpc ltac:(lia) Hq)
        as [(H1 & H2 & _)|(H1 & H2 & _)]; fold h in H1; fold c in H2; lia. }
  rewrite Ecores'. cbn [bind].
  eexists. split; [reflexivity|].
  unfold pins_inv. cbn [ms_llc ms_cores_on_llc ms_cpus_on_core ms_Args].
  split.
  { unfold l. apply Zplus_mod_idemp_l. }
  split; [reflexivity|].
  split.
  { intros l' c' core' Hl' Hc' Ecore'.
    destruct (Z.eq_dec (core_id core) (core_id core')) as [Eid|Nid].
    - assert (Ecore0 : core_at S l c = Some core)
        by (unfold core_at; rewrite EL; exact Ecore).
      destruct (Hcid l c l' c' core core' Ecore0 Ecore' Eid) as (<- & <-).
      rewrite <- Eid, (rd_wr_eq _ _ _ _ Ecpus').
      destruct (Z.ltb_spec l U); [|lia].
      rewrite placed_succ by lia. fold l. rewrite Z.eqb_refl.
      rewrite Epl.
      rewrite Ih2. reflexivity.
    - rewrite (rd_wr_neq _ _ _ _ _ Ecpus' Nid).
      rewrite (Hcpus l' c' core' Hl' Hc' Ecore').
      destruct (Z.ltb_spec l' U) as [HlU|]; [|reflexivity].
      rewrite placed_succ by lia. fold l.
      destruct (Z.eqb_spec l' l) as [->|Hne]; [|rewrite Z.add_0_r; reflexivity].
      rewrite Epl.
      rewrite in_use_succ; [reflexivity|lia|exact Hq|lia|].
      fold c. intros ->. apply Nid.
      unfold core_at in Ecore'. fold l in Ecore'. rewrite EL in Ecore'.
      cbn [bind] in Ecore'. congruence. }
  split.
  { rewrite len_app, Hlen. reflexivity. }
  intros t' T x' Hrd.
  destruct (Z_lt_le_dec t' (len (ms_Args st))) as [Hlt|Hge].
  - rewrite rd_app_l in Hrd by exact Hlt. apply (Hargs t' T x' Hrd).
  - pose proof (rd_Some_range _ _ _ Hrd) as Hr.
    rewrite len_app in Hr. change (len [_]) with 1 in Hr.
    assert (t' = len (ms_Args st)) by lia. subst t'.
    rewrite rd_mid in Hrd. inversion Hrd; subst T x'; clear Hrd.
    rewrite Hlen. fold l q c h. cbn [group tid].
    split; [|split; reflexivity].
    unfold cpu_at, core_at. rewrite EL. cbn [bind]. rewrite Ecore.
    cbn [bind]. exact Ex.
Qed.

End Pins.

Lemma NoDup_map_rd {A B} (f : A -> B) (l : list A) :
  (forall i j x y, rd l i = Some x -> rd l j = Some y -> f x = f y -> i = j) ->
  NoDup (map f l).
Proof.
  intros H. apply NoDup_nth_error. intros i j Hi E.
  rewrite length_map in Hi. rewrite !nth_error_map in E.
  destruct (nth_error l i) as [x|] eqn:Ei;
    [|apply nth_error_None in Ei; lia].
  destruct (nth_error l j) as [y|] eqn:Ej; [|discriminate].
  cbn in E. inversion E as [Exy].
  assert (Er : forall k, rd l (Z.of_nat k) = nth_error l k).
  { intros k. unfold rd. destruct (Z.ltb_spec (Z.of_nat k) 0); [lia|].
    rewrite Nat2Z.id. reflexivity. }
  apply Nat2Z.inj. apply (H _ _ x y); [rewrite Er| rewrite Er|]; assumption.
Qed.

Lemma pin_inj U m t t' :
  1 <= U -> 1 <= m -> 0 <= t -> 0 <= t' ->
  t mod U = t' mod U -> t / U / m = t' / U / m ->
  (t / U) mod m = (t' / U) mod m -> t = t'.
Proof.
  intros HU Hm Ht Ht' E1 E2 E3.
  assert (E : t / U = t' / U).
  { rewrite (Z.div_mod (t / U) m), (Z.div_mod (t' / U) m) by lia.
    rewrite E2, E3. reflexivity. }
  rewrite (Z.div_mod t U), (Z.div_mod t' U) by lia.
  rewrite E, E1. reflexivity.
Qed.

(** The thread table on a hierarchy with room for the workers. *)
Lemma prepare_threads_meta_placed S favor N sizeR sizeS :
  topology_ok S -> 1 <= N <= MAXTIDS -> N <= num_cpus S ->
  N <= capacity S favor N ->
  exists U ucpc st,
    1 <= U <= num_llcs S /\
    1 <= ucpc <= (if favor && (N <=? num_cores S) then 1
                  else cpus_per_core S) /\
    N <= ucpc * U * cores_per_llc S /\
    prepare_threads_meta S favor N sizeR sizeS
    = Some {| Args := ms_Args st; tm_num_groups := U; utilized_llcs := U;
              utilized_cpus_per_core := ucpc |} /\
    pins_inv S U ucpc N st.
Proof.
  intros Hok HN Hcpus Hcap. unfold capacity in Hcap.
  pose proof Hok as (Hcpl & Hcpc & Hnl & Hbound & Hcore & Hcid & Hxid).
  unfold prepare_threads_meta.
  set (b := favor && (N <=? num_cores S)) in *.
  set (m := if b then 1 else cpus_per_core S) in *.
  assert (Hm : 1 <= m <= cpus_per_core S) by (unfold m; destruct b; lia).
  assert (B1 : cores_per_llc S * m <= num_llcs S * cores_per_llc S * m) by nia.
  assert (B2 : num_llcs S * cores_per_llc S * m
               <= num_llcs S * cores_per_llc S * cpus_per_core S).
  { apply Z.mul_le_mono_nonneg_l; nia. }
  assert (Ecpl : (if b then cores_per_llc S
                  else u32 (cpus_per_core S * cores_per_llc S))
                 = cores_per_llc S * m).
  { unfold m. destruct b; [lia|]. rewrite u32_small by nia. lia. }
  rewrite Ecpl.
  change (2 ^ 32) with 4294967296 in *. unfold MAXTIDS in HN.
  destruct (div_ceil_spec N (cores_per_llc S * m)
              ltac:(change (2 ^ 32) with 4294967296; lia) ltac:(nia))
    as (U & -> & HU1 & HUlo & HUhi).
  cbn [bind].
  assert (HU : U <= num_llcs S) by nia.
  assert (B3 : U * cores_per_llc S <= num_llcs S * cores_per_llc S) by nia.
  assert (B4 : num_llcs S * cores_per_llc S
               <= num_llcs S * cores_per_llc S * m) by nia.
  rewrite (u32_small (U * cores_per_llc S))
    by (change (2 ^ 32) with 4294967296; nia).
  destruct (div_ceil_spec N (U * cores_per_llc S)
              ltac:(change (2 ^ 32) with 4294967296; lia) ltac:(nia))
    as (ucpc & -> & Hc1 & Hclo & Hchi).
  cbn [bind].
  assert (Hcm : ucpc <= m) by nia.
  destruct (Z.ltb_spec (num_llcs S) U) as [|_]; [lia|].
  cbn [negb c_assert bind]. unfold c_div, c_mod.
  destruct (Z.eqb_spec N 0) as [|_]; [lia|]. cbn [bind].
  destruct (Z.leb_spec N (num_cpus S)) as [_|]; [|lia].
  cbn [c_assert bind].
  match goal with
  | |- context [for_range 0 N ?body ?st0] =>
      destruct (for_range_inv (pins_inv S U ucpc) body 0 N st0 ltac:(lia))
        as (st & Eloop & Hinv)
  end.
  - unfold pins_inv. cbn [ms_llc ms_cores_on_llc ms_cpus_on_core ms_Args].
    split; [rewrite Z.mod_0_l by lia; reflexivity|].
    split.
    { rewrite repeat_ztab. apply ztab_ext. intros l Hl. unfold placed.
      rewrite Z.mod_0_l, Z.div_0_l by lia.
      destruct (Z.ltb_spec l 0); [lia|]. reflexivity. }
    split.
    { intros l c core Hl Hc Ecore.
      destruct (Hcore l c Hl Hc) as (core' & Ecore' & Hid & _).
      rewrite Ecore in Ecore'. inversion Ecore'; subst core'.
      rewrite repeat_ztab, rd_ztab by lia.
      unfold placed, in_use. rewrite Z.mod_0_l, Z.div_0_l by lia.
      destruct (Z.ltb_spec l 0); [lia|].
      destruct (l <? U); [|reflexivity]. f_equal. nia. }
    split; [reflexivity|].
    intros t' T x Hrd. unfold rd in Hrd.
    destruct (t' <? 0); [discriminate|].
    destruct (Z.to_nat t'); discriminate.
  - intros j s Hj Hs.
    apply (prepare_thread_pins S U ucpc N (sizeR / N) (sizeS / N)
             (sizeR mod N) (sizeS mod N) Hok ltac:(lia) ltac:(lia)
             ltac:(nia) j s Hj Hs).
  - rewrite Eloop. cbn [bind]. unfold barrier_init.
    destruct (Z.leb_spec N MAXTIDS) as [_|]; [|unfold MAXTIDS in *; lia].
    cbn [c_assert bind].
    exists U, ucpc, st. split; [lia|]. split; [fold m; lia|].
    split; [nia|]. split; [reflexivity|exact Hinv].
Qed.

(** What a thread table that was prepared tells of the workers. *)
Lemma prepare_threads_meta_room S favor N sizeR sizeS tm :
  topology_ok S -> 0 <= N < 2 ^ 32 ->
  prepare_threads_meta S favor N sizeR sizeS = Some tm ->
  1 <= N <= MAXTIDS /\ N <= num_cpus S /\ N <= capacity S favor N.
Proof.
  intros Hok HN H.
  pose proof Hok as (Hcpl & Hcpc & Hnl & Hbound & _).
  unfold capacity. unfold prepare_threads_meta in H.
  set (b := favor && (N <=? num_cores S)) in *.
  set (m := if b then 1 else cpus_per_core S) in *.
  assert (Hm : 1 <= m <= cpus_per_core S) by (unfold m; destruct b; lia).
  assert (Ecpl : (if b then cores_per_llc S
                  else u32 (cpus_per_core S * cores_per_llc S))
                 = cores_per_llc S * m).
  { unfold m. destruct b; [lia|]. rewrite u32_small by nia. lia. }
  rewrite Ecpl in H.
  destruct (Z.eq_dec N 0) as [->|HN0].
  { exfalso. unfold div_ceil at 1 in H. unfold c_div, c_mod in H.
    destruct (cores_per_llc S * m =? 0); [discriminate|].
    cbn [bind] in H. rewrite Z.div_0_l, Z.mod_0_l in H by nia.
    cbn in H. discriminate. }
  destruct (div_ceil_spec N (cores_per_llc S * m) ltac:(lia) ltac:(nia))
    as (U & EU & HU1 & HUlo & HUhi).
  rewrite EU in H. cbn [bind] in H.
  destruct (div_ceil N (u32 (U * cores_per_llc S))) as [ucpc|];
    [|discriminate].
  cbn [bind] in H.
  destruct (Z.ltb_spec (num_llcs S) U) as [|HU]; [discriminate|].
  cbn [negb c_assert bind] in H. unfold c_div, c_mod in H.
  destruct (Z.eqb_spec N 0) as [|_]; [lia|]. cbn [bind] in H.
  destruct (Z.leb_spec N (num_cpus S)) as [Hcpus|]; [|discriminate].
  cbn [c_assert bind] in H.
  match type of H with
  | bind ?x _ = _ => destruct x; [|discriminate]
  end.
  cbn [bind] in H. unfold barrier_init in H.
  destruct (Z.leb_spec N MAXTIDS) as [Hmax|]; [|discriminate].
  split; [lia|]. split; [exact Hcpus|]. nia.
Qed.

(** X21: on a hierarchy in which every LLC has [cores_per_llc] cores and
    every core [cpus_per_core] hardware threads, [prepare_threads_meta]
    returns exactly when there are between 1 and 2048 workers, not more
    than CPUs, and not more than the LLCs have cores, or hardware threads
    when hyperthreads are in use; otherwise it stops. *)
Theorem prepare_threads_meta_accepts (S : sys_info_t) (favor : bool)
    (N sizeR sizeS : Z) :
  topology_ok S -> 0 <= N < 2 ^ 32 ->
  (exists tm, prepare_threads_meta S favor N sizeR sizeS = Some tm) <->
  (1 <= N <= MAXTIDS /\ N <= num_cpus S /\ N <= capacity S favor N).
Proof.
  intros Hok HN. split.
  - intros (tm & H).
    apply (prepare_threads_meta_room S favor N sizeR sizeS tm Hok HN H).
  - intros (H1 & H2 & H3).
    destruct (prepare_threads_meta_placed S favor N sizeR sizeS Hok H1 H2 H3)
      as (U & ucpc & st & _ & _ & _ & E & _).
    eexists. exact E.
Qed.

(** X22: every worker of the thread table is pinned to a hardware thread
    of the LLC its group names, on one of the first [cores_per_llc] cores
    of that LLC and among the first [utilized_cpus_per_core] hardware
    threads of the core, and no two workers are pinned to the same CPU. *)
Theorem prepare_threads_meta_pins (S : sys_info_t) (favor : bool)
    (N sizeR sizeS : Z) (tm : threads_meta) :
  topology_ok S -> 0 <= N < 2 ^ 32 ->
  prepare_threads_meta S favor N sizeR sizeS = Some tm ->
  len (Args tm) = N /\
  1 <= utilized_cpus_per_core tm <= cpus_per_core S /\
  (forall t T x, rd (Args tm) t = Some (T, x) ->
     tid T = t /\ 0 <= group T < utilized_llcs tm /\
     exists c h, 0 <= c < cores_per_llc S /\
                 0 <= h < utilized_cpus_per_core tm /\
                 cpu_at S (group T) c h = Some x) /\
  NoDup (map (fun a => cpu_id (snd a)) (Args tm)).
Proof.
  intros Hok HN H.
  destruct (prepare_threads_meta_room S favor N sizeR sizeS tm Hok HN H)
    as (H1 & H2 & H3).
  destruct (prepare_threads_meta_placed S favor N sizeR sizeS Hok H1 H2 H3)
    as (U & ucpc & st & HU & Hm & HNc & E & Hinv).
  rewrite E in H. inversion H; subst tm; clear H E.
  cbn [Args utilized_llcs utilized_cpus_per_core].
  destruct Hinv as (_ & _ & _ & Hlen & Hargs).
  pose proof Hok as (Hcpl & Hcpc & Hnl & Hbound & Hcore & Hcid & Hxid).
  split; [exact Hlen|]. split.
  { destruct (favor && (N <=? num_cores S)); lia. }
  split.
  - intros t T x Hrd.
    pose proof (rd_Some_range _ _ _ Hrd) as Ht. rewrite Hlen in Ht.
    destruct (Hargs t T x Hrd) as (Hx & Hg & Htid).
    split; [exact Htid|]. rewrite Hg.
    split; [apply Z.mod_pos_bound; lia|].
    assert (Hq : 0 <= t / U) by (apply Z.div_pos; lia).
    assert (Hq' : t / U < ucpc * cores_per_llc S).
    { apply Z.div_lt_upper_bound; [lia|]. nia. }
    exists (t / U / ucpc), ((t / U) mod ucpc).
    split.
    { split; [apply Z.div_pos; lia|]. apply Z.div_lt_upper_bound; lia. }
    split; [apply Z.mod_pos_bound; lia|exact Hx].
  - apply NoDup_map_rd. intros i j [Ti xi] [Tj xj] Hi Hj Eid. cbn [snd] in Eid.
    pose proof (rd_Some_range _ _ _ Hi) as Ri.
    pose proof (rd_Some_range _ _ _ Hj) as Rj.
    destruct (Hargs i Ti xi Hi) as (Hxi & _).
    destruct (Hargs j Tj xj Hj) as (Hxj & _).
    destruct (Hxid _ _ _ _ _ _ xi xj Hxi Hxj Eid) as (E1 & E2 & E3).
    apply (pin_inj U ucpc i j); lia || assumption.
Qed.

(** The sample machine. *)
Lemma rd_two {A} (a b : A) i x :
  rd [a; b] i = Some x -> (i = 0 /\ x = a) \/ (i = 1 /\ x = b).
Proof.
  intros H. pose proof (rd_Some_range _ _ _ H) as R.
  change (len [a; b]) with 2 in R.
  assert (E : i = 0 \/ i = 1) by lia.
  destruct E as [-> | ->]; cbn in H; inversion H; auto.
Qed.

Lemma sample_core_at l c core :
  core_at sample_SysInfo l c = Some core ->
  core = sample_core (2 * l + c) /\ 0 <= l < 2 /\ 0 <= c < 2.
Proof.
  unfold core_at. cbn [sample_SysInfo LLCs]. intros H.
  destruct (rd [sample_llc 0; sample_llc 1] l) as [L|] eqn:EL; [|discriminate].
  cbn [bind] in H.
  destruct (rd_two _ _ _ _ EL) as [(-> & ->)|(-> & ->)];
    cbn [sample_llc llc_Cores] in H;
    destruct (rd_two _ _ _ _ H) as [(-> & ->)|(-> & ->)];
    (split; [reflexivity|lia]).
Qed.

Lemma sample_cpu_at l c h x :
  cpu_at sample_SysInfo l c h = Some x ->
  x = sample_cpu (4 * l + 2 * c + h) /\ 0 <= l < 2 /\ 0 <= c < 2 /\ 0 <= h < 2.
Proof.
  unfold cpu_at. intros H.
  destruct (core_at sample_SysInfo l c) as [core|] eqn:Ec; [|discriminate].
  cbn [bind] in H.
  destruct (sample_core_at l c core Ec) as (-> & Hl & Hc).
  cbn [sample_core core_CPUs] in H.
  destruct (rd_two _ _ _ _ H) as [(-> & ->)|(-> & ->)];
    (split; [f_equal; lia|lia]).
Qed.

Lemma sample_topology_ok : topology_ok sample_SysInfo.
Proof.
  unfold topology_ok.
  cbn [sample_SysInfo cores_per_llc cpus_per_core num_llcs num_cores].
  split; [lia|]. split; [lia|]. split; [lia|]. split; [lia|].
  split; [|split].
  - intros l c Hl Hc.
    assert (El : l = 0 \/ l = 1) by lia. assert (Ec : c = 0 \/ c = 1) by lia.
    destruct El as [-> | ->]; destruct Ec as [-> | ->];
      (eexists; split; [reflexivity|]; split; [cbn; lia|]);
      intros h Hh; assert (Eh : h = 0 \/ h = 1) by lia;
      destruct Eh as [-> | ->]; eexists; reflexivity.
  - intros l c l' c' core core' E E' Eid.
    destruct (sample_core_at l c core E) as (-> & Hl & Hc).
    destruct (sample_core_at l' c' core' E') as (-> & Hl' & Hc').
    cbn [sample_core core_id] in Eid. lia.
  - intros l c h l' c' h' x x' E E' Eid.
    destruct (sample_cpu_at l c h x E) as (-> & Hl & Hc & Hh).
    destruct (sample_cpu_at l' c' h' x' E') as (-> & Hl' & Hc' & Hh').
    cbn [sample_cpu cpu_id] in Eid. lia.
Qed.

Lemma prepare_threads_meta_accepts_witness :
  (exists tm, prepare_threads_meta sample_SysInfo true 6 10 22 = Some tm) <->
  (1 <= 6 <= MAXTIDS /\ 6 <= num_cpus sample_SysInfo /\
   6 <= capacity sample_SysInfo true 6).
Proof.
  apply (prepare_threads_meta_accepts sample_SysInfo true 6 10 22
           sample_topology_ok).
  lia.
Defined.

Lemma prepare_threads_meta_pins_witness :
  len (Args sample_meta) = 6 /\
  1 <= utilized_cpus_per_core sample_meta <= cpus_per_core sample_SysInfo /\
  (forall t T x, rd (Args sample_meta) t = Some (T, x) ->
     tid T = t /\ 0 <= group T < utilized_llcs sample_meta /\
     exists c h, 0 <= c < cores_per_llc sample_SysInfo /\
                 0 <= h < utilized_cpus_per_core sample_meta /\
                 cpu_at sample_SysInfo (group T) c h = Some x) /\
  NoDup (map (fun a => cpu_id (snd a)) (Args sample_meta)).
Proof.
  apply (prepare_threads_meta_pins sample_SysInfo true 6 10 22 sample_meta
           sample_topology_ok); [lia|reflexivity].
Defined.

(** ** util/util.c: [sbarrier] *)

Lemma tally_range f n : 0 <= tally f n <= Z.of_nat n.
Proof.
  induction n as [|n IH]; [cbn; lia|].
  cbn [tally]. destruct (f (Z.of_nat n)); lia.
Qed.

Lemma tally_ext f g n :
  (forall u, 0 <= u < Z.of_nat n -> f u = g u) -> tally f n = tally g n.
Proof.
  induction n as [|n IH]; intros H; [reflexivity|].
  cbn [tally]. rewrite IH by (intros u Hu; apply H; lia).
  rewrite (H (Z.of_nat n)) by lia. reflexivity.
Qed.

Lemma tally_full f n :
  tally f n = Z.of_nat n <-> forall u, 0 <= u < Z.of_nat n -> f u = true.
Proof.
  induction n as [|n IH].
  - cbn. split; [intros _ u Hu; lia|reflexivity].
  - cbn [tally]. pose proof (tally_range f n) as R. split.
    + intros H u Hu. destruct (f (Z.of_nat n)) eqn:E; [|lia].
      destruct (Z.eq_dec u (Z.of_nat n)) as [->|Hne]; [exact E|].
      apply IH; lia.
    + intros H. rewrite (H (Z.of_nat n)) by lia.
      rewrite (proj2 IH) by (intros u Hu; apply H; lia). lia.
Qed.

Lemma tally_none f n :
  (forall u, 0 <= u < Z.of_nat n -> f u = false) -> tally f n = 0.
Proof.
  induction n as [|n IH]; intros H; [reflexivity|].
  cbn [tally]. rewrite IH by (intros u Hu; apply H; lia).
  rewrite (H (Z.of_nat n)) by lia. reflexivity.
Qed.

Lemma tally_flip f g n t :
  0 <= t < Z.of_nat n -> f t = false -> g t = true ->
  (forall u, 0 <= u < Z.of_nat n -> u <> t -> g u = f u) ->
  tally g n = tally f n + 1.
Proof.
  induction n as [|n IH]; intros Ht Hf Hg H; [lia|].
  cbn [tally]. destruct (Z.eq_dec t (Z.of_nat n)) as [->|Hne].
  - rewrite Hf, Hg.
    rewrite (tally_ext g f n) by (intros u Hu; apply H; lia). lia.
  - rewrite IH by (try lia; try assumption; intros u Hu; apply H; lia).
    rewrite (H (Z.of_nat n)) by lia. lia.
Qed.

Lemma arrived_count_range a N e : 0 <= N -> 0 <= arrived_count a N e <= N.
Proof.
  intros HN. unfold arrived_count.
  pose proof (tally_range (fun u => e <? a u) (Z.to_nat N)). lia.
Qed.

Lemma arrived_count_full a N e :
  0 <= N ->
  (arrived_count a N e = N <-> forall u, 0 <= u < N -> e < a u).
Proof.
  intros HN. unfold arrived_count.
  pose proof (tally_full (fun u => e <? a u) (Z.to_nat N)) as H.
  rewrite Z2Nat.id in H by lia. rewrite H.
  split; intros H' u Hu; specialize (H' u Hu);
    destruct (Z.ltb_spec e (a u)); congruence || lia.
Qed.

Lemma arrived_count_none a N e :
  (forall u, 0 <= u < N -> a u <= e) -> arrived_count a N e = 0.
Proof.
  intros H. unfold arrived_count. apply tally_none. intros u Hu.
  destruct (Z.ltb_spec e (a u)); [|reflexivity].
  specialize (H u ltac:(lia)). lia.
Qed.

Lemma arrived_count_bump a N t e :
  0 <= t < N ->
  arrived_count (bump a t) N e
  = arrived_count a N e + (if e =? a t then 1 else 0).
Proof.
  intros Ht. unfold arrived_count.
  destruct (Z.eqb_spec e (a t)) as [->|Hne].
  - apply (tally_flip _ _ _ t); [lia| | |].
    + apply Z.ltb_irrefl.
    + unfold bump. rewrite Z.eqb_refl. apply Z.ltb_lt. lia.
    + intros u Hu Hut. unfold bump.
      destruct (Z.eqb_spec u t); [contradiction|reflexivity].
  - rewrite Z.add_0_r. apply tally_ext. intros u Hu. unfold bump.
    destruct (Z.eqb_spec u t) as [->|]; [|reflexivity].
    destruct (Z.ltb_spec e (a t + 1)); destruct (Z.ltb_spec e (a t)); lia.
Qed.

Lemma arrived_count_ext a a' N e :
  (forall u, 0 <= u < N -> a u = a' u) ->
  arrived_count a N e = arrived_count a' N e.
Proof.
  intros H. unfold arrived_count. apply tally_ext. intros u Hu.
  rewrite (H u) by lia. reflexivity.
Qed.

Lemma mod8_window e e' :
  e mod 8 = e' mod 8 -> - 8 < e - e' < 8 -> e = e'.
Proof.
  intros H Hd.
  pose proof (Z.div_mod e 8 ltac:(lia)).
  pose proof (Z.div_mod e' 8 ltac:(lia)). lia.
Qed.

Lemma barrier_arrive N a P af B t :
  1 <= N <= MAXTIDS -> 0 <= t < N -> 0 <= a t -> P <= a t <= P + 1 ->
  barrier_ok N a P af B ->
  rd B (a t mod MAGICNUM) = Some (arrived_count a N (a t)) /\
  u16 (arrived_count a N (a t) + 1) = arrived_count (bump a t) N (a t) /\
  exists B',
    wr B (a t mod MAGICNUM) (arrived_count (bump a t) N (a t)) = Some B' /\
    barrier_ok N (bump a t) P af B'.
Proof.
  intros HN Ht Ha HP (Hlen & HB). unfold MAGICNUM, MAXTIDS in *.
  assert (E0 : rd B (a t mod 8) = Some (arrived_count a N (a t))).
  { rewrite (HB (a t)) by lia.
    destruct (Z.ltb_spec (a t) 0); [lia|].
    destruct (Z.eqb_spec (a t) (P - 2)); [lia|]. reflexivity. }
  split; [exact E0|].
  pose proof (arrived_count_bump a N t (a t) Ht) as Eb.
  rewrite Z.eqb_refl in Eb.
  pose proof (arrived_count_range (bump a t) N (a t) ltac:(lia)) as R.
  pose proof (arrived_count_range a N (a t) ltac:(lia)) as R0.
  split.
  { rewrite <- Eb. apply u16_small. change (2 ^ 16) with 65536. lia. }
  destruct (wr_lt B (a t mod 8) (arrived_count (bump a t) N (a t)))
    as (B' & EB').
  { apply (rd_Some_range _ _ _ E0). }
  exists B'. split; [exact EB'|]. split.
  { rewrite (wr_len _ _ _ _ EB'). exact Hlen. }
  intros e He. unfold MAGICNUM.
  destruct (Z.eq_dec (e mod 8) (a t mod 8)) as [Em|Em].
  - assert (e = a t) by (apply mod8_window; [exact Em|lia]). subst e.
    rewrite (rd_wr_eq _ _ _ _ EB').
    destruct (Z.ltb_spec (a t) 0); [lia|].
    destruct (Z.eqb_spec (a t) (P - 2)); [lia|]. reflexivity.
  - rewrite (rd_wr_neq _ _ _ _ _ EB') by congruence.
    rewrite (HB e He), arrived_count_bump by lia.
    destruct (Z.eqb_spec e (a t)) as [->|_]; [contradiction|].
    rewrite Z.add_0_r. reflexivity.
Qed.

Lemma barrier_pass0 N a P B :
  0 <= N -> 0 <= P -> barrier_ok N a P false B ->
  (forall u, 0 <= u < N -> P < a u <= P + 2) ->
  barrier_ok N a (P + 1) true B.
Proof.
  intros HN HP (Hlen & HB) Hall. split; [exact Hlen|].
  unfold MAGICNUM in *. intros e He.
  rewrite andb_false_r, orb_false_r.
  destruct (Z.eq_dec e (P + 6)) as [->|Hne].
  - replace (P + 6) with (P - 2 + 1 * 8) by lia.
    rewrite Z_mod_plus_full, (HB (P - 2)) by lia.
    rewrite Z.eqb_refl. cbn [negb andb]. rewrite orb_true_r.
    destruct (Z.ltb_spec (P - 2 + 1 * 8) 0); [lia|].
    symmetry. f_equal. apply arrived_count_none.
    intros u Hu. specialize (Hall u Hu). lia.
  - rewrite (HB e) by lia.
    destruct (Z.eqb_spec e (P - 2)); [lia|].
    cbn [andb]. rewrite orb_false_r. reflexivity.
Qed.

Lemma barrier_clear N a P B :
  barrier_ok N a P true B ->
  exists B',
    wr B ((P - 2) mod MAGICNUM) 0 = Some B' /\ barrier_ok N a P false B'.
Proof.
  intros (Hlen & HB). unfold MAGICNUM in *.
  destruct (wr_lt B ((P - 2) mod 8) 0) as (B' & EB').
  { rewrite Hlen. apply Z.mod_pos_bound. lia. }
  exists B'. split; [exact EB'|]. split.
  { rewrite (wr_len _ _ _ _ EB'). exact Hlen. }
  intros e He. unfold MAGICNUM.
  destruct (Z.eq_dec (e mod 8) ((P - 2) mod 8)) as [Em|Em].
  - assert (e = P - 2) by (apply mod8_window; [exact Em|lia]). subst e.
    rewrite (rd_wr_eq _ _ _ _ EB'), Z.eqb_refl.
    cbn [negb andb]. rewrite orb_true_r. reflexivity.
  - rewrite (rd_wr_neq _ _ _ _ _ EB') by congruence.
    rewrite (HB e He).
    destruct (Z.eqb_spec e (P - 2)) as [->|_]; [contradiction|].
    reflexivity.
Qed.

Lemma prev_index P :
  (if (P - 1) mod MAGICNUM =? 0 then MAGICNUM - 1
   else (P - 1) mod MAGICNUM - 1)
  = (P - 2) mod MAGICNUM.
Proof.
  unfold MAGICNUM.
  pose proof (Z.div_mod (P - 1) 8 ltac:(lia)) as E.
  pose proof (Z.mod_pos_bound (P - 1) 8 ltac:(lia)) as B.
  destruct (Z.eqb_spec ((P - 1) mod 8) 0) as [E0|E0].
  - apply (Z.mod_unique (P - 2) 8 ((P - 1) / 8 - 1) 7); lia.
  - apply (Z.mod_unique (P - 2) 8 ((P - 1) / 8) ((P - 1) mod 8 - 1)); lia.
Qed.

Lemma next_step P :
  u8 (((P - 1) mod MAGICNUM + 1) mod MAGICNUM) = P mod MAGICNUM.
Proof.
  unfold MAGICNUM. rewrite Zplus_mod_idemp_l.
  replace (P - 1 + 1) with P by lia.
  apply u8_small. pose proof (Z.mod_pos_bound P 8 ltac:(lia)).
  change (2 ^ 8) with 256. lia.
Qed.

Lemma thread_ok_frame N a p a' p' Step Step' t pc :
  thread_ok N a p Step t pc ->
  a' t = a t -> p' t = p t -> (forall u, 0 <= u < N -> a u <= a' u) ->
  rd Step' t = rd Step t ->
  thread_ok N a' p' Step' t pc.
Proof.
  intros H Ea Ep Hmono ES. destruct pc as [|step w|step|]; cbn in *;
    rewrite ?Ea, ?Ep, ?ES.
  - exact H.
  - destruct H as (H1 & H2 & H3 & H4). repeat split; try assumption.
    intros Hw u Hu. specialize (H4 Hw u Hu). specialize (Hmono u Hu). lia.
  - exact H.
  - exact H.
Qed.

Lemma is_after_wr pcs pcs' tid pc :
  wr pcs tid pc = Some pcs' ->
  is_after (rd pcs' 0)
  = if tid =? 0 then is_after (Some pc) else is_after (rd pcs 0).
Proof.
  intros H. destruct (Z.eqb_spec tid 0) as [->|Hne].
  - rewrite (rd_wr_eq _ _ _ _ H). reflexivity.
  - rewrite (rd_wr_neq _ _ _ _ _ H) by exact Hne. reflexivity.
Qed.

Lemma sb_arrived_le N a p s u :
  sb_inv N a p s -> 0 <= u < N -> a u <= p u + 1.
Proof.
  intros (Hpcs & _ & _ & _ & Hth & _) Hu.
  destruct (rd_lt (sb_pcs s) u ltac:(lia)) as (pc & Epc).
  specialize (Hth u pc Epc).
  destruct pc; cbn in Hth; lia.
Qed.

(** A step of any worker keeps the invariant. *)
Lemma sbarrier_step_inv N a p s tid :
  1 <= N <= MAXTIDS -> 0 <= tid < N -> sb_inv N a p s ->
  exists ev s',
    sbarrier_step N tid s = Some (ev, s') /\
    sb_inv N (if sb_event_eqb Ev_arrive ev then bump a tid else a)
      (if sb_event_eqb Ev_pass ev then bump p tid else p) s'.
Proof.
  intros HN Ht Hinv.
  pose proof Hinv as (Hpcs & HStep & Hp0 & Hsafe & Hth & Hbar).
  assert (Hle : forall u, 0 <= u < N -> a u <= p u + 1)
    by (intros u Hu; apply (sb_arrived_le N a p s u Hinv Hu)).
  destruct (rd_lt (sb_pcs s) tid ltac:(lia)) as (pc & Epc).
  pose proof (Hth tid pc Epc) as Hme.
  assert (Hwr : forall pc', exists pcs', wr (sb_pcs s) tid pc' = Some pcs')
    by (intros pc'; apply wr_lt; lia).
  unfold sbarrier_step. rewrite Epc. cbn [bind].
  destruct pc as [|step w|step|]; cbn [thread_ok] in Hme.
  - (* the worker arrives *)
    destruct Hme as (Eap & ES). rewrite ES. cbn [bind].
    assert (HaP : p 0 <= a tid <= p 0 + 1).
    { split; [apply Hsafe; lia|]. rewrite Eap.
      pose proof (Hsafe tid 0 Ht ltac:(lia)).
      pose proof (Hle 0 ltac:(lia)). lia. }
    destruct (barrier_arrive N a (p 0) _ (sb_Barrier s) tid HN Ht
                ltac:(rewrite Eap; apply Hp0; lia) HaP Hbar)
      as (Erd & Ew & B' & EB' & Hbar').
    rewrite Erd. cbn [bind]. cbv zeta. rewrite Ew, EB'. cbn [bind].
    destruct (Hwr (SB_loop (a tid mod MAGICNUM)
                     (arrived_count (bump a tid) N (a tid))))
      as (pcs' & Epcs').
    rewrite Epcs'. cbn [bind]. eexists. eexists. split; [reflexivity|].
    cbn [sb_event_eqb]. unfold sb_inv. cbn [sb_pcs sb_Step sb_Barrier].
    split; [rewrite (wr_len _ _ _ _ Epcs'); exact Hpcs|].
    split; [exact HStep|]. split; [exact Hp0|].
    split.
    { intros t u Ht' Hu. specialize (Hsafe t u Ht' Hu). unfold bump.
      destruct (u =? tid); lia. }
    split.
    { intros t pc' Hrd. destruct (Z.eq_dec t tid) as [->|Hne].
      - rewrite (rd_wr_eq _ _ _ _ Epcs') in Hrd. inversion Hrd; subst pc'.
        cbn [thread_ok]. unfold bump at 1. rewrite Z.eqb_refl.
        split; [lia|]. split; [rewrite Eap; reflexivity|].
        split; [exact ES|].
        intros Hw u Hu.
        pose proof (proj1 (arrived_count_full (bump a tid) N (a tid)
                             ltac:(lia)) Hw u Hu). lia.
      - rewrite (rd_wr_neq _ _ _ _ _ Epcs') in Hrd by congruence.
        apply (thread_ok_frame N a p (bump a tid) p (sb_Step s) (sb_Step s)
                 t pc' (Hth t pc' Hrd)).
        + unfold bump. destruct (Z.eqb_spec t tid); [contradiction|reflexivity].
        + reflexivity.
        + intros u Hu. unfold bump. destruct (u =? tid); lia.
        + reflexivity. }
    rewrite (is_after_wr _ _ _ _ Epcs').
    destruct (Z.eqb_spec tid 0) as [->|_]; [rewrite Epc in Hbar'|];
      exact Hbar'.
  - destruct Hme as (Eap & Estep & ES & Hall).
    destruct (Z.eqb_spec w N) as [Ew|Ew].
    + (* the worker passes *)
      specialize (Hall Ew).
      destruct (Hwr (SB_after step)) as (pcs' & Epcs').
      rewrite Epcs'. cbn [bind]. eexists. eexists. split; [reflexivity|].
      cbn [sb_event_eqb]. unfold sb_inv. cbn [sb_pcs sb_Step sb_Barrier].
      split; [rewrite (wr_len _ _ _ _ Epcs'); exact Hpcs|].
      split; [exact HStep|].
      split.
      { intros t Ht'. specialize (Hp0 t Ht'). unfold bump.
        destruct (t =? tid); lia. }
      split.
      { intros t u Ht' Hu. specialize (Hsafe t u Ht' Hu). unfold bump.
        destruct (Z.eqb_spec t tid) as [->|]; [|lia].
        specialize (Hall u Hu). lia. }
      split.
      { intros t pc' Hrd. destruct (Z.eq_dec t tid) as [->|Hne].
        - rewrite (rd_wr_eq _ _ _ _ Epcs') in Hrd. inversion Hrd; subst pc'.
          cbn [thread_ok]. unfold bump. rewrite Z.eqb_refl.
          specialize (Hp0 tid Ht).
          split; [lia|]. split; [lia|].
          split; [|exact ES].
          replace (p tid + 1 - 1) with (p tid) by lia. exact Estep.
        - rewrite (rd_wr_neq _ _ _ _ _ Epcs') in Hrd by congruence.
          apply (thread_ok_frame N a p a (bump p tid) (sb_Step s) (sb_Step s)
                   t pc' (Hth t pc' Hrd)).
          + reflexivity.
          + unfold bump.
            destruct (Z.eqb_spec t tid); [contradiction|reflexivity].
          + intros u Hu. lia.
          + reflexivity. }
      rewrite (is_after_wr _ _ _ _ Epcs').
      destruct (Z.eqb_spec tid 0) as [->|Hne].
      * rewrite Epc in Hbar. cbn [is_after] in Hbar |- *.
        unfold bump. rewrite Z.eqb_refl.
        apply (barrier_pass0 N a (p 0) _ ltac:(lia) (Hp0 0 ltac:(lia)) Hbar).
        intros u Hu. specialize (Hall u Hu).
        pose proof (Hle u Hu). pose proof (Hsafe u 0 Hu ltac:(lia)). lia.
      * unfold bump. destruct (Z.eqb_spec 0 tid); [lia|]. exact Hbar.
    + (* the worker reads the counter again *)
      assert (Erd : rd (sb_Barrier s) step
                    = Some (arrived_count a N (p tid))).
      { destruct Hbar as (_ & HB). rewrite Estep.
        pose proof (Hsafe 0 tid ltac:(lia) Ht).
        pose proof (Hsafe tid 0 Ht ltac:(lia)).
        pose proof (Hle 0 ltac:(lia)). specialize (Hp0 tid Ht).
        rewrite (HB (p tid)) by lia.
        destruct (Z.ltb_spec (p tid) 0); [lia|].
        destruct (Z.eqb_spec (p tid) (p 0 - 2)); [lia|]. reflexivity. }
      rewrite Erd. cbn [bind].
      destruct (Hwr (SB_loop step (arrived_count a N (p tid))))
        as (pcs' & Epcs').
      rewrite Epcs'. cbn [bind]. eexists. eexists. split; [reflexivity|].
      cbn [sb_event_eqb]. unfold sb_inv. cbn [sb_pcs sb_Step sb_Barrier].
      split; [rewrite (wr_len _ _ _ _ Epcs'); exact Hpcs|].
      split; [exact HStep|]. split; [exact Hp0|]. split; [exact Hsafe|].
      split.
      { intros t pc' Hrd. destruct (Z.eq_dec t tid) as [->|Hne].
        - rewrite (rd_wr_eq _ _ _ _ Epcs') in Hrd. inversion Hrd; subst pc'.
          cbn [thread_ok]. repeat split; try assumption.
          intros Hw u Hu.
          apply (proj1 (arrived_count_full a N (p tid) ltac:(lia)) Hw u Hu).
        - rewrite (rd_wr_neq _ _ _ _ _ Epcs') in Hrd by congruence.
          apply (Hth t pc' Hrd). }
      rewrite (is_after_wr _ _ _ _ Epcs').
      destruct (Z.eqb_spec tid 0) as [->|_]; [rewrite Epc in Hbar|];
        exact Hbar.
  - (* worker 0 clears a counter *)
    destruct Hme as (Eap & Hp1 & Estep & ES).
    assert (EB : exists B',
               (if tid =? 0
                then wr (sb_Barrier s)
                       (if step =? 0 then MAGICNUM - 1 else step - 1) 0
                else Some (sb_Barrier s)) = Some B' /\
               barrier_ok N a (p 0)
                 (if tid =? 0 then false else is_after (rd (sb_pcs s) 0)) B').
    { destruct (Z.eqb_spec tid 0) as [->|_].
      - rewrite Estep, prev_index. rewrite Epc in Hbar. cbn [is_after] in Hbar.
        apply (barrier_clear N a (p 0) _ Hbar).
      - eexists. split; [reflexivity|exact Hbar]. }
    destruct EB as (B' & -> & Hbar'). cbn [bind].
    destruct (Hwr SB_incr) as (pcs' & Epcs').
    rewrite Epcs'. cbn [bind]. eexists. eexists. split; [reflexivity|].
    cbn [sb_event_eqb]. unfold sb_inv. cbn [sb_pcs sb_Step sb_Barrier].
    split; [rewrite (wr_len _ _ _ _ Epcs'); exact Hpcs|].
    split; [exact HStep|]. split; [exact Hp0|]. split; [exact Hsafe|].
    split.
    { intros t pc' Hrd. destruct (Z.eq_dec t tid) as [->|Hne].
      - rewrite (rd_wr_eq _ _ _ _ Epcs') in Hrd. inversion Hrd; subst pc'.
        cbn [thread_ok]. rewrite <- Estep. repeat split; assumption.
      - rewrite (rd_wr_neq _ _ _ _ _ Epcs') in Hrd by congruence.
        apply (Hth t pc' Hrd). }
    rewrite (is_after_wr _ _ _ _ Epcs'). cbn [is_after].
    destruct (tid =? 0); exact Hbar'.
  - (* the worker returns *)
    destruct Hme as (Eap & Hp1 & ES). rewrite ES. cbn [bind].
    rewrite next_step.
    destruct (wr_lt (sb_Step s) tid (p tid mod MAGICNUM)) as (Step' & EStep').
    { rewrite HStep. lia. }
    rewrite EStep'. cbn [bind].
    destruct (Hwr SB_out) as (pcs' & Epcs').
    rewrite Epcs'. cbn [bind]. eexists. eexists. split; [reflexivity|].
    cbn [sb_event_eqb]. unfold sb_inv. cbn [sb_pcs sb_Step sb_Barrier].
    split; [rewrite (wr_len _ _ _ _ Epcs'); exact Hpcs|].
    split; [rewrite (wr_len _ _ _ _ EStep'); exact HStep|].
    split; [exact Hp0|]. split; [exact Hsafe|].
    split.
    { intros t pc' Hrd. destruct (Z.eq_dec t tid) as [->|Hne].
      - rewrite (rd_wr_eq _ _ _ _ Epcs') in Hrd. inversion Hrd; subst pc'.
        cbn [thread_ok]. split; [exact Eap|].
        rewrite (rd_wr_eq _ _ _ _ EStep'), Eap. reflexivity.
      - rewrite (rd_wr_neq _ _ _ _ _ Epcs') in Hrd by congruence.
        apply (thread_ok_frame N a p a p (sb_Step s) Step' t pc'
                 (Hth t pc' Hrd)); try reflexivity; try (intros; lia).
        apply (rd_wr_neq _ _ _ _ _ EStep'). congruence. }
    rewrite (is_after_wr _ _ _ _ Epcs').
    destruct (Z.eqb_spec tid 0) as [->|_]; [rewrite Epc in Hbar|];
      exact Hbar.
Qed.

Lemma sb_inv_init N :
  1 <= N <= MAXTIDS -> sb_inv N (fun _ => 0) (fun _ => 0) (sb_init N).
Proof.
  intros HN. unfold sb_inv, sb_init. cbn [sb_pcs sb_Step sb_Barrier].
  split; [rewrite len_repeat; lia|].
  split; [rewrite len_repeat; unfold MAXTIDS; lia|].
  split; [intros; lia|]. split; [intros; lia|].
  split.
  - intros t pc Hrd.
    pose proof (rd_Some_range _ _ _ Hrd) as Ht. rewrite len_repeat in Ht.
    apply rd_In, repeat_spec in Hrd. subst pc. cbn [thread_ok].
    split; [reflexivity|].
    rewrite repeat_ztab, rd_ztab by lia. reflexivity.
  - split; [reflexivity|]. intros e He.
    rewrite repeat_ztab, rd_ztab
      by (apply Z.mod_pos_bound; unfold MAGICNUM; lia).
    destruct (Z.ltb_spec e 0); cbn [orb]; [reflexivity|].
    destruct ((e =? 0 - 2) && _); [reflexivity|].
    symmetry. f_equal. apply arrived_count_none. intros; lia.
Qed.

Lemma sb_inv_ext N a p a' p' s :
  (forall u, a u = a' u) -> (forall u, p u = p' u) ->
  sb_inv N a p s -> sb_inv N a' p' s.
Proof.
  intros Ea Ep (H1 & H2 & H3 & H4 & H5 & H6 & H7).
  split; [exact H1|]. split; [exact H2|].
  split; [intros t Ht; rewrite <- Ep; apply H3; exact Ht|].
  split; [intros t u Ht Hu; rewrite <- Ep, <- Ea; apply H4; assumption|].
  split.
  - intros t pc Hrd. specialize (H5 t pc Hrd).
    destruct pc; cbn [thread_ok] in *; rewrite <- ?Ea, <- ?Ep; try exact H5.
    destruct H5 as (K1 & K2 & K3 & K4). repeat split; try assumption.
    intros Hw u Hu. rewrite <- Ea. apply (K4 Hw u Hu).
  - split; [exact H6|]. intros e He. rewrite <- Ep in *.
    rewrite (H7 e He).
    rewrite (arrived_count_ext a a' N e) by (intros; apply Ea). reflexivity.
Qed.

(** Every run of workers of the table goes through, and keeps the
    invariant. *)
Lemma sb_run_inv N sched : forall a p s,
  1 <= N <= MAXTIDS -> Forall (fun t => 0 <= t < N) sched ->
  sb_inv N a p s ->
  exists evs s',
    sb_run N sched s = Some (evs, s') /\
    sb_inv N (fun u => a u + arrivals evs u) (fun u => p u + passes evs u) s'.
Proof.
  induction sched as [|tid sched IH]; intros a p s HN Hs Hinv.
  - exists [], s. split; [reflexivity|].
    apply (sb_inv_ext N a p); [| |exact Hinv]; intros u; cbn; lia.
  - inversion Hs as [|? ? Htid Hs']; subst.
    destruct (sbarrier_step_inv N a p s tid HN Htid Hinv)
      as (ev & s1 & E1 & Hinv1).
    destruct (IH _ _ s1 HN Hs' Hinv1) as (evs & s2 & E2 & Hinv2).
    exists ((tid, ev) :: evs), s2. cbn [sb_run]. rewrite E1. cbn [bind].
    rewrite E2. cbn [bind]. split; [reflexivity|].
    apply (sb_inv_ext N _ _ _ _ s2) with (3 := Hinv2); intros u;
      unfold arrivals, passes; cbn [count_ev]; rewrite (Z.eqb_sym tid u);
      unfold bump;
      destruct ev; cbn [sb_event_eqb]; rewrite ?andb_true_r, ?andb_false_r;
      destruct (u =? tid); lia.
Qed.

Lemma sb_run_reaches N sched evs s :
  1 <= N <= MAXTIDS -> Forall (fun t => 0 <= t < N) sched ->
  sb_run N sched (sb_init N) = Some (evs, s) ->
  sb_inv N (arrivals evs) (passes evs) s.
Proof.
  intros HN Hs E.
  destruct (sb_run_inv N sched _ _ _ HN Hs (sb_inv_init N HN))
    as (evs' & s' & E' & Hinv).
  rewrite E in E'. inversion E'; subst evs' s'.
  apply (sb_inv_ext N _ _ _ _ s) with (3 := Hinv); intros u; lia.
Qed.

(** X23: however the steps of the workers in [sbarrier] interleave, no
    access to [Step] or [Barrier] is out of bounds, no counter wraps, and
    no worker leaves the loop for the k-th time before every worker has
    added itself to the counter for the k-th time; a worker is one
    barrier ahead of another at most. *)
Theorem sbarrier_safe (N : Z) (sched : list Z) :
  1 <= N <= MAXTIDS -> Forall (fun t => 0 <= t < N) sched ->
  exists evs s,
    sb_run N sched (sb_init N) = Some (evs, s) /\
    forall t u, 0 <= t < N -> 0 <= u < N ->
      passes evs t <= arrivals evs u <= passes evs t + 2.
Proof.
  intros HN Hs.
  destruct (sb_run_inv N sched _ _ _ HN Hs (sb_inv_init N HN))
    as (evs & s & E & Hinv).
  exists evs, s. split; [exact E|].
  pose proof (sb_run_reaches N sched evs s HN Hs E) as Hinv'.
  intros t u Ht Hu.
  pose proof Hinv' as (_ & _ & _ & Hsafe & _).
  pose proof (sb_arrived_le N _ _ s u Hinv' Hu).
  pose proof (sb_arrived_le N _ _ s t Hinv' Ht).
  pose proof (Hsafe t u Ht Hu). pose proof (Hsafe u t Hu Ht). lia.
Qed.

Lemma sbarrier_safe_witness :
  exists evs s,
    sb_run 2 [0; 1; 1; 0; 1; 0; 0; 1; 0] (sb_init 2) = Some (evs, s) /\
    forall t u, 0 <= t < 2 -> 0 <= u < 2 ->
      passes evs t <= arrivals evs u <= passes evs t + 2.
Proof.
  apply (sbarrier_safe 2 [0; 1; 1; 0; 1; 0; 0; 1; 0]).
  - unfold MAXTIDS. lia.
  - repeat constructor; lia.
Defined.

(** X24: a worker that waits in the loop of [sbarrier] when every worker
    has arrived is let through: whatever the others have done since, its
    next step ends the loop, or reads [Threads.N] from the counter, which
    ends the loop at the step after. *)
Theorem sbarrier_releases (N : Z) (sched : list Z)
    (evs : list (Z * sb_event)) (s : sb_state) (t step w : Z) :
  1 <= N <= MAXTIDS -> Forall (fun t => 0 <= t < N) sched ->
  sb_run N sched (sb_init N) = Some (evs, s) ->
  rd (sb_pcs s) t = Some (SB_loop step w) ->
  (forall u, 0 <= u < N -> passes evs t < arrivals evs u) ->
  exists ev s',
    sbarrier_step N t s = Some (ev, s') /\
    (ev = Ev_pass \/
     (ev = Ev_spin /\ rd (sb_pcs s') t = Some (SB_loop step N))).
Proof.
  intros HN Hs E Epc Hall.
  pose proof (sb_run_reaches N sched evs s HN Hs E) as Hinv.
  pose proof Hinv as (Hpcs & HStep & Hp0 & Hsafe & Hth & _ & HB).
  pose proof (rd_Some_range _ _ _ Epc) as Ht. rewrite Hpcs in Ht.
  destruct (Hth t _ Epc) as (Eap & Estep & ES & _).
  unfold sbarrier_step. rewrite Epc. cbn [bind].
  destruct (Z.eqb_spec w N) as [Ew|Ew].
  - destruct (wr_lt (sb_pcs s) t (SB_after step) ltac:(lia)) as (pcs' & ->).
    cbn [bind]. eexists. eexists. split; [reflexivity|]. left. reflexivity.
  - assert (Erd : rd (sb_Barrier s) step = Some N).
    { rewrite Estep.
      pose proof (Hsafe 0 t ltac:(lia) Ht).
      pose proof (Hsafe t 0 Ht ltac:(lia)).
      pose proof (sb_arrived_le N _ _ s 0 Hinv ltac:(lia)).
      specialize (Hp0 t Ht).
      rewrite (HB (passes evs t)) by lia.
      destruct (Z.ltb_spec (passes evs t) 0); [lia|].
      destruct (Z.eqb_spec (passes evs t) (passes evs 0 - 2)); [lia|].
      cbn [orb andb]. f_equal.
      apply (arrived_count_full _ N _ ltac:(lia)). exact Hall. }
    rewrite Erd. cbn [bind].
    destruct (wr_lt (sb_pcs s) t (SB_loop step N) ltac:(lia)) as (pcs' & E').
    rewrite E'. cbn [bind]. eexists. eexists. split; [reflexivity|].
    right. split; [reflexivity|]. cbn [sb_pcs].
    apply (rd_wr_eq _ _ _ _ E').
Qed.

Lemma sbarrier_releases_witness :
  exists ev s',
    sbarrier_step 2 0 (snd sample_sb_run) = Some (ev, s') /\
    (ev = Ev_pass \/
     (ev = Ev_spin /\ rd (sb_pcs s') 0 = Some (SB_loop 0 2))).
Proof.
  apply (sbarrier_releases 2 [0; 1] (fst sample_sb_run) (snd sample_sb_run)
           0 0 1);
    [unfold MAXTIDS; lia | repeat constructor; lia | vm_compute; reflexivity
    | vm_compute; reflexivity | ].
  intros u Hu. assert (E : u = 0 \/ u = 1) by lia.
  destruct E as [-> | ->]; vm_compute; reflexivity.
Defined.

(** ** join/partition.c: the blocks of [ICP] *)

(** X25: for a sub-relation of [N >= 1] tuples [ICP] works on the least
    number of blocks that [ChunkSize] tuples a block allow, of [N / nb]
    tuples each and one more for the first [N mod nb]; no block has more
    than [ChunkSize] = 32758 tuples, so that the 16-bit counters of the
    histogram hold every count.  Every sub-block has
    [fanout / num_groups] partitions. *)
Theorem ICP_blocks_fit (g : globals) (Sub : relation_t) (radix : Z) :
  ICP_pre g Sub radix ->
  exists g1 P rem0,
    ICP_setup g Sub radix = Some (g1, P, rem0) /\
    let nb := ip_num_blocks P in
    let avg := ip_avg_block_size P in
    (nb - 1) * ChunkSize < size Sub <= nb * ChunkSize /\
    size Sub = nb * avg + rem0 /\ 0 <= rem0 < nb /\ 1 <= avg /\
    ip_first_block_size P = avg + (if 0 <? rem0 then 1 else 0) /\
    ip_first_block_size P <= ChunkSize /\ ChunkSize < 2 ^ 16 /\
    ip_fanout P = 2 ^ radix /\
    ip_sub_block_partitions P * num_groups g = ip_fanout P.
Proof.
  intros Hpre. pose proof Hpre as (Hr & Hsz & HN & HG & Hdiv & _).
  rewrite (ICP_setup_spec g Sub radix Hpre). cbv zeta.
  eexists. eexists. eexists. split; [reflexivity|].
  cbn [ip_num_blocks ip_avg_block_size ip_first_block_size ip_fanout
       ip_sub_block_partitions].
  destruct (ICP_geometry (size Sub) HN) as (H1 & H2 & H3 & H4 & H5).
  cbv zeta in *.
  set (N := size Sub) in *. set (nb := ICP_num_blocks N) in *.
  assert (Hnb : (nb - 1) * ChunkSize < N <= nb * ChunkSize).
  { unfold nb, ICP_num_blocks. rewrite ChunkSize_val.
    pose proof (Z.div_mod N 32758 ltac:(lia)).
    pose proof (Z.mod_pos_bound N 32758 ltac:(lia)).
    destruct (Z.ltb_spec 0 (N mod 32758)); lia. }
  split; [exact Hnb|]. split; [exact H1|]. split; [exact H2|].
  split; [exact H3|]. split; [reflexivity|].
  split.
  { unfold ICP_fbs. rewrite ChunkSize_val in *.
    destruct (Z.ltb_spec 0 (ICP_rem N)); nia. }
  split; [rewrite ChunkSize_val; change (2 ^ 16) with 65536; lia|].
  split; [reflexivity|].
  apply Z.mod_divide in Hdiv; [|lia]. destruct Hdiv as (k & Ek).
  rewrite Ek, Z.div_mul by lia. reflexivity.
Qed.

Lemma ICP_blocks_fit_witness :
  exists g1 P rem0,
    ICP_setup (mk_globals 1 1 true 1 1 4 4) sample_Sub 1
    = Some (g1, P, rem0) /\
    let nb := ip_num_blocks P in
    let avg := ip_avg_block_size P in
    (nb - 1) * ChunkSize < size sample_Sub <= nb * ChunkSize /\
    size sample_Sub = nb * avg + rem0 /\ 0 <= rem0 < nb /\ 1 <= avg /\
    ip_first_block_size P = avg + (if 0 <? rem0 then 1 else 0) /\
    ip_first_block_size P <= ChunkSize /\ ChunkSize < 2 ^ 16 /\
    ip_fanout P = 2 ^ 1 /\
    ip_sub_block_partitions P * num_groups (mk_globals 1 1 true 1 1 4 4)
    = ip_fanout P.
Proof.
  apply (ICP_blocks_fit (mk_globals 1 1 true 1 1 4 4) sample_Sub 1).
  apply ICP_call_ok_pre; [lia|exact sample_call_ok].
Defined.

(** ** join/run.c: the checksum of the payloads *)

Lemma sum_vals_map TEST R S :
  sum_vals TEST R S
  = fold_right Z.add 0 (map (fun s => val_of TEST R (key s)) S).
Proof.
  induction S as [|s S IH]; [reflexivity|].
  cbn [sum_vals map fold_right] in *. rewrite <- IH. reflexivity.
Qed.

(** X26: with payloads in the buckets, as the program is built unless it
    is told to store keys, a legal run, with a cleanup of Model II in
    which [Threads.HTables] is read before worker 0 frees it, prints
    [|S|] matches and as checksum the sum of the keys of R plus, for
    every tuple of S, the payload of the tuple of R that has its key. *)
Theorem checksum_payloads (junk : Z -> nat -> Z) (sched : list Z)
    (g : globals) (Ts : list thread_t) :
  legal_configuration g Ts -> cleanup_in_order g sched ->
  exists pay : list Z,
    Forall2 (fun s v => exists t, In t (all_R Ts) /\ key t = key s /\
                                  payload t = v) (all_S Ts) pay /\
    execute_join false junk sched g Ts
    = Some (len (all_S Ts),
            u64 (sum_keys (all_R Ts) + fold_right Z.add 0 pay)).
Proof.
  intros Hlegal Hsched.
  pose proof Hlegal as ((_ & _ & _ & _ & _ & Hpk & Hfk) & _).
  exists (map (fun s => val_of false (all_R Ts) (key s)) (all_S Ts)).
  split.
  - assert (H : forall s, In s (all_S Ts) ->
              exists t, In t (all_R Ts) /\ key t = key s /\
                        payload t = val_of false (all_R Ts) (key s)).
    { intros s Hs.
      destruct (foreign_key_partner _ _ s Hpk Hfk Hs) as (t & Ht & Ek).
      exists t. split; [exact Ht|]. split; [exact Ek|].
      rewrite <- Ek, (val_of_In false _ t (primary_key_NoDup _ Hpk) Ht).
      reflexivity. }
    revert H. generalize (all_S Ts) as S. intros S.
    induction S as [|s S IH]; intros H; [constructor|].
    cbn [map]. constructor.
    + apply H. left. reflexivity.
    + apply IH. intros s' Hs'. apply H. right. exact Hs'.
  - rewrite (execute_join_spec false junk sched g Ts Hlegal Hsched).
    unfold join_totals.
    rewrite sum_vals_map. reflexivity.
Qed.

(** Model II on the sample, worker 1 first in the cleanup. *)
Lemma checksum_payloads_witness :
  exists pay : list Z,
    Forall2 (fun s v => exists t, In t (all_R sample_threads) /\
                                  key t = key s /\ payload t = v)
      (all_S sample_threads) pay /\
    execute_join false sample_junk [1; 0; 0] (mk_globals 1 1 true 2 2 4 6)
      sample_threads
    = Some (len (all_S sample_threads),
            u64 (sum_keys (all_R sample_threads) + fold_right Z.add 0 pay)).
Proof.
  apply (checksum_payloads sample_junk [1; 0; 0]
           (mk_globals 1 1 true 2 2 4 6) sample_threads).
  - exact sample_legal_II.
  - right. exact sample_in_order.
Defined.

(** ** util/sys_info.c: the hierarchy *)

Lemma places_lt {A} (f : A -> Z) l c n j :
  In j (places f l c n) -> 0 <= j < Z.of_nat n.
Proof.
  induction n as [|n IH]; [contradiction|].
  cbn [places]. intros H. apply in_app_or in H. destruct H as [H|H].
  - specialize (IH H). lia.
  - destruct (nth_error l n) as [x|]; [|contradiction].
    destruct (f x =? c); [|contradiction].
    destruct H as [<-|[]]. lia.
Qed.

Lemma places_In {A} (f : A -> Z) l c n j :
  In j (places f l c n) <->
  0 <= j < Z.of_nat n /\
  exists x, nth_error l (Z.to_nat j) = Some x /\ f x = c.
Proof.
  induction n as [|n IH].
  - cbn. split; [contradiction|lia].
  - cbn [places]. rewrite in_app_iff, IH. split.
    + intros [(Hj & Hx)|H]; [split; [lia|exact Hx]|].
      destruct (nth_error l n) as [x|] eqn:E; [|contradiction].
      destruct (Z.eqb_spec (f x) c) as [Ec|]; [|contradiction].
      destruct H as [<-|[]]. split; [lia|].
      exists x. rewrite Nat2Z.id. split; assumption.
    + intros (Hj & x & Ex & Ec).
      destruct (Z.eq_dec j (Z.of_nat n)) as [->|Hne].
      * right. rewrite Nat2Z.id in Ex. rewrite Ex.
        destruct (Z.eqb_spec (f x) c); [left; reflexivity|contradiction].
      * left. split; [lia|]. exists x. split; assumption.
Qed.

Lemma places_NoDup {A} (f : A -> Z) l c n : NoDup (places f l c n).
Proof.
  induction n as [|n IH]; [constructor|].
  cbn [places].
  destruct (nth_error l n) as [x|]; [|rewrite app_nil_r; exact IH].
  destruct (f x =? c); [|rewrite app_nil_r; exact IH].
  apply NoDup_app; [exact IH|repeat constructor; intros []|].
  intros j Hj [<-|[]]. apply places_lt in Hj. lia.
Qed.

Lemma places_len_le {A} (f : A -> Z) l c n :
  len (places f l c n) <= Z.of_nat n.
Proof.
  induction n as [|n IH]; [cbn; lia|].
  cbn [places]. rewrite len_app.
  destruct (nth_error l n) as [x|]; [|cbn; lia].
  destruct (f x =? c); cbn; lia.
Qed.

Lemma places_mono {A} (f : A -> Z) l c n m :
  (n <= m)%nat -> len (places f l c n) <= len (places f l c m).
Proof.
  induction 1 as [|m H IH]; [lia|].
  cbn [places]. rewrite len_app.
  pose proof (len_nonneg
    (match nth_error l m with
     | Some x => if f x =? c then [Z.of_nat m] else []
     | None => []
     end)). lia.
Qed.

Lemma rd_nth_error {A} (l : list A) (n : nat) :
  rd l (Z.of_nat n) = nth_error l n.
Proof.
  unfold rd. destruct (Z.ltb_spec (Z.of_nat n) 0); [lia|].
  rewrite Nat2Z.id. reflexivity.
Qed.

Lemma rd_NoDup_inj {A} (l : list A) i j x :
  NoDup l -> rd l i = Some x -> rd l j = Some x -> i = j.
Proof.
  intros HND Hi Hj.
  pose proof (rd_Some_range _ _ _ Hi). pose proof (rd_Some_range _ _ _ Hj).
  unfold rd in Hi, Hj.
  destruct (Z.ltb_spec i 0); [lia|]. destruct (Z.ltb_spec j 0); [lia|].
  assert (Z.to_nat i = Z.to_nat j); [|lia].
  apply (proj1 (NoDup_nth_error l) HND).
  - apply nth_error_Some. congruence.
  - congruence.
Qed.

(** The sum of the numbers of places over the values. *)
Lemma places_sum {A} (f : A -> Z) (l : list A) K n :
  0 <= K -> (n <= length l)%nat ->
  (forall x, In x l -> 0 <= f x < K) ->
  zsum (fun c => len (places f l c n)) K = Z.of_nat n.
Proof.
  intros HK Hn Hf. induction n as [|n IH].
  - cbn [places]. rewrite (zsum_ext _ (fun _ => 0)) by reflexivity.
    apply zsum_const_0.
  - destruct (nth_error l n) as [x|] eqn:E;
      [|apply nth_error_None in E; lia].
    pose proof (Hf x (nth_error_In _ _ E)) as Hx.
    rewrite (zsum_update (fun c => len (places f l c n)) _ K (f x) Hx).
    + rewrite IH by lia. cbn [places]. rewrite E, Z.eqb_refl, len_app.
      cbn. lia.
    + intros c Hc Hne. cbn [places]. rewrite E.
      destruct (Z.eqb_spec (f x) c); [congruence|].
      rewrite app_nil_r. reflexivity.
Qed.

Lemma zsum_ge f K c :
  0 <= K -> (forall k, 0 <= k < K -> c <= f k) -> K * c <= zsum f K.
Proof.
  intros HK. pattern K. apply natlike_ind; [| |exact HK].
  - intros _. rewrite zsum_0. lia.
  - intros k Hk IH H. change (Z.succ k) with (k + 1).
    rewrite zsum_succ by lia.
    specialize (IH ltac:(intros j Hj; apply H; lia)).
    specialize (H k ltac:(lia)). lia.
Qed.

Lemma MIN_spec X Y : MIN X Y = Z.min X Y.
Proof. unfold MIN. destruct (Z.ltb_spec X Y); lia. Qed.

Lemma MAX_spec X Y : MAX X Y = Z.max X Y.
Proof. unfold MAX. destruct (Z.ltb_spec Y X); lia. Qed.

Lemma min_upto_le f init n j :
  0 <= j < Z.of_nat n -> min_upto f init n <= f j.
Proof.
  induction n as [|n IH]; [lia|]. intros Hj. cbn [min_upto].
  rewrite MIN_spec.
  destruct (Z.eq_dec j (Z.of_nat n)) as [->|]; [lia|].
  specialize (IH ltac:(lia)). lia.
Qed.

Lemma min_upto_ge f init n b :
  b <= init -> (forall j, 0 <= j < Z.of_nat n -> b <= f j) ->
  b <= min_upto f init n.
Proof.
  intros Hi. induction n as [|n IH]; intros H; [exact Hi|].
  cbn [min_upto]. rewrite MIN_spec.
  specialize (IH ltac:(intros j Hj; apply H; lia)).
  specialize (H (Z.of_nat n) ltac:(lia)). lia.
Qed.

Lemma min_upto_init f init n : min_upto f init n <= init.
Proof.
  induction n as [|n IH]; [cbn; lia|]. cbn [min_upto]. rewrite MIN_spec. lia.
Qed.

Lemma count_ids_fold (l : list cpu_t) : forall a b,
  (forall x, In x l ->
     0 <= cpu_core x < 2 ^ 32 - 1 /\ 0 <= cpu_llc x < 2 ^ 32 - 1) ->
  let r := fold_left
             (fun (n : Z * Z) cpu =>
                (MAX (fst n) (u32 (cpu_core cpu + 1)),
                 MAX (snd n) (u32 (cpu_llc cpu + 1))))
             l (a, b) in
  a <= fst r /\ b <= snd r /\
  (forall x, In x l -> cpu_core x + 1 <= fst r /\ cpu_llc x + 1 <= snd r) /\
  (fst r = a \/ exists x, In x l /\ fst r = cpu_core x + 1) /\
  (snd r = b \/ exists x, In x l /\ snd r = cpu_llc x + 1).
Proof.
  induction l as [|y l IH]; intros a b H; cbn [fold_left].
  - cbn. repeat split; try lia; try (intros x []); left; reflexivity.
  - cbn [fst snd].
    destruct (H y (or_introl eq_refl)) as (Hc & Hl).
    rewrite !MAX_spec, !u32_small by lia.
    destruct (IH (Z.max a (cpu_core y + 1)) (Z.max b (cpu_llc y + 1))
                ltac:(intros x Hx; apply H; right; exact Hx))
      as (H1 & H2 & H3 & H4 & H5).
    cbv zeta in *.
    split; [lia|]. split; [lia|]. split.
    { intros x [<-|Hx]; [lia|apply H3; exact Hx]. }
    split.
    + destruct H4 as [E|(x & Hx & E)].
      * destruct (Z.max_spec a (cpu_core y + 1)) as [(_ & E')|(_ & E')].
        -- right. exists y. split; [left; reflexivity|congruence].
        -- left. congruence.
      * right. exists x. split; [right; exact Hx|exact E].
    + destruct H5 as [E|(x & Hx & E)].
      * destruct (Z.max_spec b (cpu_llc y + 1)) as [(_ & E')|(_ & E')].
        -- right. exists y. split; [left; reflexivity|congruence].
        -- left. congruence.
      * right. exists x. split; [right; exact Hx|exact E].
Qed.

Lemma llc_upto_some (CPUs : list cpu_t) c n :
  (n <= length CPUs)%nat -> places cpu_core CPUs c n <> [] ->
  exists x, In x CPUs /\ cpu_core x = c /\ llc_upto CPUs c n = cpu_llc x.
Proof.
  induction n as [|n IH]; intros Hn Hne; [contradiction|].
  cbn [places llc_upto] in *.
  destruct (nth_error CPUs n) as [x|] eqn:E;
    [|apply nth_error_None in E; lia].
  destruct (Z.eqb_spec (cpu_core x) c) as [Ec|Ec].
  - exists x. split; [apply (nth_error_In _ _ E)|]. split; [exact Ec|reflexivity].
  - rewrite app_nil_r in Hne. apply IH; [lia|exact Hne].
Qed.

Lemma rd_map {A B} (f : A -> B) (l : list A) i :
  rd (map f l) i = option_map f (rd l i).
Proof.
  unfold rd. destruct (i <? 0); [reflexivity|]. apply nth_error_map.
Qed.

Lemma In_rd {A} (l : list A) x : In x l -> exists i, rd l i = Some x.
Proof.
  intros H. apply In_nth_error in H. destruct H as (k & Hk).
  exists (Z.of_nat k). rewrite rd_nth_error. exact Hk.
Qed.

Lemma rd_cpu (CPUs : list cpu_t) (i : Z) :
  0 <= i < len CPUs ->
  exists x, rd CPUs i = Some x /\
            nth_error CPUs (Z.to_nat i) = Some x /\ In x CPUs.
Proof.
  intros Hi. destruct (rd_lt CPUs i Hi) as (x & E). exists x.
  split; [exact E|]. unfold rd in E. destruct (Z.ltb_spec i 0); [lia|].
  split; [exact E|apply (nth_error_In _ _ E)].
Qed.

(** Lines 224-227: every core gets the number of its CPUs and the LLC of
    the last of them. *)
Lemma count_cpus_gen (CPUs : list cpu_t) :
  len CPUs < 2 ^ 32 ->
  (forall x, In x CPUs ->
     0 <= cpu_core x < 2 ^ 32 - 1 /\ 0 <= cpu_llc x < 2 ^ 32 - 1) ->
  count_cpus CPUs (u32 (len CPUs))
    (repeat calloc_core (Z.to_nat (fst (count_ids CPUs))))
  = Some (ztab (fun c => {| cc_id := 0;
                            cc_num_cpus := len (cpus_on CPUs c);
                            cc_CPUs := [];
                            cc_llc := llc_on CPUs c |})
            (fst (count_ids CPUs))).
Proof.
  intros HN Hrange.
  destruct (count_ids_fold CPUs 0 0 Hrange) as (H1 & _ & H3 & _).
  cbv zeta in *. fold (count_ids CPUs) in *.
  set (nc := fst (count_ids CPUs)) in *.
  pose proof (len_nonneg CPUs) as HN0.
  rewrite u32_small by lia. unfold count_cpus.
  match goal with
  | |- for_range 0 ?N ?body ?st0 = _ =>
      destruct (for_range_inv
        (fun i Cores =>
           Cores = ztab (fun c =>
                     {| cc_id := 0;
                        cc_num_cpus :=
                          len (places cpu_core CPUs c (Z.to_nat i));
                        cc_CPUs := [];
                        cc_llc := llc_upto CPUs c (Z.to_nat i) |}) nc)
        body 0 N st0 ltac:(lia)) as (s' & E & HP)
  end.
  - rewrite repeat_ztab. apply ztab_ext. reflexivity.
  - intros i Cores Hi ->.
    destruct (rd_cpu CPUs i Hi) as (x & Erd & Enth & Hin).
    assert (Hc : 0 <= cpu_core x < nc)
      by (pose proof (H3 x Hin); pose proof (Hrange x Hin); lia).
    rewrite Erd. cbn [bind]. rewrite rd_ztab by exact Hc. cbn [bind].
    rewrite wr_ztab by exact Hc. eexists. split; [reflexivity|].
    apply ztab_ext. intros c Hc'.
    replace (Z.to_nat (i + 1)) with (S (Z.to_nat i)) by lia.
    cbn [places llc_upto cc_id cc_num_cpus cc_CPUs]. rewrite Enth.
    rewrite (Z.eqb_sym (cpu_core x) c).
    destruct (Z.eqb_spec c (cpu_core x)) as [->|Hne].
    + pose proof (places_len_le cpu_core CPUs (cpu_core x) (Z.to_nat i)).
      pose proof (len_nonneg (places cpu_core CPUs (cpu_core x) (Z.to_nat i))).
      rewrite len_app, u32_small by (change (2 ^ 32) with 4294967296 in *; lia).
      reflexivity.
    + rewrite app_nil_r. reflexivity.
  - rewrite E, HP. f_equal. apply ztab_ext. intros c Hc.
    unfold cpus_on, llc_on, len. rewrite Nat2Z.id. reflexivity.
Qed.

(** Lines 231-247: the loop stops at a core without a CPU. *)
Lemma prepare_cores_gap (n llc : Z -> Z) (nc c cpc0 : Z)
    (LLCs0 : list llc_cell) :
  0 <= c < nc -> n c = 0 ->
  prepare_cores nc
    (cpc0,
     ztab (fun c => {| cc_id := 0; cc_num_cpus := n c; cc_CPUs := [];
                       cc_llc := llc c |}) nc,
     LLCs0) = None.
Proof.
  intros Hc Hn.
  destruct (prepare_cores nc _) as [st'|] eqn:E; [exfalso|reflexivity].
  unfold prepare_cores in E.
  match type of E with
  | for_range _ _ ?body ?st0 = _ =>
      pose proof (for_range_partial
        (fun i (st : Z * list core_cell * list llc_cell) =>
           (forall c', i <= c' < nc ->
              rd (snd (fst st)) c'
              = Some {| cc_id := 0; cc_num_cpus := n c'; cc_CPUs := [];
                        cc_llc := llc c' |}) /\
           (forall j, 0 <= j < i -> 0 < n j))
        body 0 nc st0 st' ltac:(lia)) as HP
  end.
  destruct HP as (_ & HP); [| |exact E|].
  - cbn [fst snd]. split; [|intros j Hj; lia].
    intros c' Hc'. rewrite rd_ztab by lia. reflexivity.
  - intros j [[cpc Cores] LLCs] s' Hj (HA & HB) Hbody.
    cbn [fst snd] in HA. cbn beta iota in Hbody.
    rewrite (HA j) in Hbody by lia. cbn [bind cc_num_cpus cc_llc] in Hbody.
    destruct (Z.ltb_spec 0 (n j)) as [Hpos|]; [|discriminate].
    cbn [c_assert bind] in Hbody.
    destruct (wr Cores j _) as [Cores'|] eqn:Ew; [|discriminate].
    cbn [bind] in Hbody.
    destruct (rd LLCs (llc j)) as [L|]; [|discriminate].
    cbn [bind] in Hbody.
    destruct (wr LLCs (llc j) _) as [LLCs'|]; [|discriminate].
    cbn [bind] in Hbody. inversion Hbody; subst s'. cbn [fst snd].
    split.
    + intros c' Hc'. rewrite (rd_wr_neq _ _ _ _ _ Ew) by lia.
      apply HA. lia.
    + intros j' Hj'. destruct (Z.eq_dec j' j) as [->|]; [exact Hpos|].
      apply HB. lia.
  - specialize (HP c Hc). lia.
Qed.

Section Hierarchy.

Context (CPUs : list cpu_t).
Hypothesis Hok : listing_ok CPUs.

Let N := len CPUs.
Let nc := fst (count_ids CPUs).
Let nl := snd (count_ids CPUs).

Lemma listing_facts :
  1 <= N < 2 ^ 32 /\ 1 <= nc < 2 ^ 32 /\ 1 <= nl < 2 ^ 32 /\
  (forall x, In x CPUs -> 0 <= cpu_core x < nc /\ 0 <= cpu_llc x < nl) /\
  (forall c, 0 <= c < nc -> exists y, In y CPUs /\ cpu_core y = c) /\
  (forall l, 0 <= l < nl -> exists y, In y CPUs /\ cpu_llc y = l).
Proof.
  destruct Hok as (Hne & Hlen & Hrange & Hcd & Hld & _ & _).
  destruct (count_ids_fold CPUs 0 0 Hrange) as (H1 & H2 & H3 & H4 & H5).
  cbv zeta in *. fold (count_ids CPUs) in *. fold nc nl in H1, H2, H3, H4, H5.
  assert (HN : 1 <= N).
  { unfold N. destruct CPUs; [contradiction|]. rewrite len_cons.
    pose proof (len_nonneg l). lia. }
  assert (Hx0 : exists x, In x CPUs)
    by (destruct CPUs as [|x l]; [contradiction|exists x; left; reflexivity]).
  destruct Hx0 as (x0 & Hx0).
  pose proof (H3 x0 Hx0) as (B1 & B2). pose proof (Hrange x0 Hx0) as (B3 & B4).
  assert (Hc : exists x, In x CPUs /\ nc = cpu_core x + 1)
    by (destruct H4 as [E|H4]; [lia|exact H4]).
  assert (Hl : exists x, In x CPUs /\ nl = cpu_llc x + 1)
    by (destruct H5 as [E|H5]; [lia|exact H5]).
  destruct Hc as (xc & Hxc & Ec). destruct Hl as (xl & Hxl & El).
  pose proof (Hrange xc Hxc). pose proof (Hrange xl Hxl).
  split; [unfold N; lia|]. split; [lia|]. split; [lia|].
  split.
  { intros x Hx. pose proof (H3 x Hx). pose proof (Hrange x Hx). lia. }
  split.
  - intros c Hc. apply (Hcd xc c Hxc). lia.
  - intros l Hl. apply (Hld xl l Hxl). lia.
Qed.

Lemma nth_error_rd (i : Z) :
  0 <= i < N -> exists x, rd CPUs i = Some x /\
                nth_error CPUs (Z.to_nat i) = Some x /\ In x CPUs.
Proof. apply rd_cpu. Qed.

Lemma cpus_on_pos c : 0 <= c < nc -> 1 <= len (cpus_on CPUs c).
Proof.
  intros Hc. destruct listing_facts as (_ & _ & _ & _ & Hcd & _).
  destruct (Hcd c Hc) as (y & Hy & Ey).
  apply In_nth_error in Hy. destruct Hy as (k & Hk).
  assert (Hin : In (Z.of_nat k) (cpus_on CPUs c)).
  { unfold cpus_on. apply places_In.
    assert (k < length CPUs)%nat by (apply nth_error_Some; congruence).
    split; [lia|]. exists y. rewrite Nat2Z.id. split; assumption. }
  destruct (cpus_on CPUs c); [contradiction|].
  rewrite len_cons. pose proof (len_nonneg l). lia.
Qed.

Lemma llc_on_spec x :
  In x CPUs -> llc_on CPUs (cpu_core x) = cpu_llc x.
Proof.
  intros Hx. destruct Hok as (_ & _ & _ & _ & _ & Hsame & _).
  destruct listing_facts as (_ & _ & _ & Hr & _).
  pose proof (cpus_on_pos (cpu_core x) (proj1 (Hr x Hx))) as Hpos.
  destruct (llc_upto_some CPUs (cpu_core x) (length CPUs) ltac:(lia))
    as (y & Hy & Ec & E).
  { fold (cpus_on CPUs (cpu_core x)). intros E0. rewrite E0 in Hpos.
    cbn in Hpos. lia. }
  unfold llc_on. rewrite E. apply (Hsame y x Hy Hx Ec).
Qed.

Lemma llc_on_range c : 0 <= c < nc -> 0 <= llc_on CPUs c < nl.
Proof.
  intros Hc. destruct listing_facts as (_ & _ & _ & Hr & Hcd & _).
  destruct (Hcd c Hc) as (y & Hy & <-).
  rewrite (llc_on_spec y Hy). apply (Hr y Hy).
Qed.

Lemma len_core_llcs : len (core_llcs CPUs) = nc.
Proof.
  unfold core_llcs. fold nc. apply len_ztab.
  destruct listing_facts as (_ & H & _). lia.
Qed.

Lemma cores_on_pos l : 0 <= l < nl -> 1 <= len (cores_on CPUs l).
Proof.
  intros Hl. destruct listing_facts as (_ & Hnc & _ & Hr & _ & Hld).
  destruct (Hld l Hl) as (y & Hy & Ey).
  destruct (Hr y Hy) as (Hc & _).
  assert (Hin : In (cpu_core y) (cores_on CPUs l)).
  { unfold cores_on. apply places_In.
    pose proof len_core_llcs as E. unfold len in E.
    split; [lia|]. exists (llc_on CPUs (cpu_core y)).
    split; [|rewrite (llc_on_spec y Hy); exact Ey].
    pose proof (rd_ztab (llc_on CPUs) nc (cpu_core y) Hc) as E'.
    unfold rd in E'. destruct (Z.ltb_spec (cpu_core y) 0); [lia|]. exact E'. }
  destruct (cores_on CPUs l); [contradiction|].
  rewrite len_cons. pose proof (len_nonneg l0). lia.
Qed.

Lemma count_cpus_spec :
  count_cpus CPUs (u32 N) (repeat calloc_core (Z.to_nat nc))
  = Some (ztab (fun c => {| cc_id := 0;
                            cc_num_cpus := len (cpus_on CPUs c);
                            cc_CPUs := [];
                            cc_llc := llc_on CPUs c |}) nc).
Proof.
  destruct Hok as (_ & Hlen & Hrange & _).
  apply (count_cpus_gen CPUs Hlen Hrange).
Qed.

(** Lines 267-271. *)
Lemma append_cpus_spec :
  append_cpus CPUs (u32 N)
    (ztab (fun c => {| cc_id := c; cc_num_cpus := 0;
                       cc_CPUs := repeat None
                                    (Z.to_nat (len (cpus_on CPUs c)));
                       cc_llc := llc_on CPUs c |}) nc)
  = Some (ztab (fun c => {| cc_id := c;
                            cc_num_cpus := len (cpus_on CPUs c);
                            cc_CPUs := map Some (cpus_on CPUs c);
                            cc_llc := llc_on CPUs c |}) nc).
Proof.
  destruct listing_facts as (HN & Hnc & Hnl & Hr & _).
  rewrite u32_small by lia. unfold append_cpus.
  match goal with
  | |- for_range 0 N ?body ?st0 = _ =>
      destruct (for_range_inv
        (fun i Cores =>
           Cores = ztab (fun c =>
                     let P := places cpu_core CPUs c (Z.to_nat i) in
                     {| cc_id := c;
                        cc_num_cpus := len P;
                        cc_CPUs :=
                          map Some P ++
                          repeat None
                            (Z.to_nat (len (cpus_on CPUs c) - len P));
                        cc_llc := llc_on CPUs c |}) nc)
        body 0 N st0 ltac:(lia)) as (s' & E & HP)
  end.
  - apply ztab_ext. intros c Hc. cbn [places map app len length].
    rewrite Z.sub_0_r. reflexivity.
  - intros i Cores Hi ->.
    destruct (nth_error_rd i Hi) as (x & Erd & Enth & Hin).
    destruct (Hr x Hin) as (Hc & _).
    rewrite Erd. cbn [bind]. rewrite rd_ztab by exact Hc. cbn [bind].
    cbv zeta. cbn [cc_id cc_num_cpus cc_CPUs cc_llc].
    set (P := places cpu_core CPUs (cpu_core x) (Z.to_nat i)).
    assert (EP : places cpu_core CPUs (cpu_core x) (S (Z.to_nat i))
                 = P ++ [i]).
    { cbn [places]. rewrite Enth, Z.eqb_refl. fold P.
      rewrite Z2Nat.id by lia. reflexivity. }
    assert (HP1 : len P + 1 <= len (cpus_on CPUs (cpu_core x))).
    { pose proof (places_mono cpu_core CPUs (cpu_core x)
                    (S (Z.to_nat i)) (length CPUs)
                    ltac:(unfold N, len in Hi; lia)) as Hm.
      rewrite EP, len_app in Hm. exact Hm. }
    pose proof (len_nonneg P) as HP0.
    pose proof (places_len_le cpu_core CPUs (cpu_core x) (Z.to_nat i)) as HPi.
    fold P in HPi.
    replace (Z.to_nat (len (cpus_on CPUs (cpu_core x)) - len P))
      with (S (Z.to_nat (len (cpus_on CPUs (cpu_core x)) - len P - 1)))
      by lia.
    cbn [repeat].
    match goal with
    | |- context [wr (map Some P ++ None :: ?R) (len P) (Some i)] =>
        assert (Ew : wr (map Some P ++ None :: R) (len P) (Some i)
                     = Some (map Some P ++ Some i :: R))
          by (rewrite <- (len_map Some P); apply wr_mid);
        rewrite Ew
    end.
    cbn [bind].
    rewrite wr_ztab by exact Hc. eexists. split; [reflexivity|].
    apply ztab_ext. intros c Hc'. cbv zeta.
    replace (Z.to_nat (i + 1)) with (S (Z.to_nat i)) by lia.
    destruct (Z.eqb_spec c (cpu_core x)) as [->|Hne].
    + rewrite EP, len_app, map_app, <- app_assoc.
      rewrite u32_small by (change (2 ^ 32) with 4294967296 in *; lia).
      cbn [map app]. rewrite len_cons, len_nil.
      replace (len (cpus_on CPUs (cpu_core x)) - (len P + (1 + 0)))
        with (len (cpus_on CPUs (cpu_core x)) - len P - 1) by lia.
      reflexivity.
    + cbn [places]. rewrite Enth.
      destruct (Z.eqb_spec (cpu_core x) c); [congruence|].
      rewrite app_nil_r. reflexivity.
  - rewrite E, HP. f_equal. apply ztab_ext. intros c Hc. cbv zeta.
    replace (Z.to_nat N) with (length CPUs) by (unfold N, len; lia).
    fold (cpus_on CPUs c). rewrite Z.sub_diag. cbn [Z.to_nat repeat].
    rewrite app_nil_r. reflexivity.
Qed.

Lemma nth_core_llcs i :
  0 <= i < nc ->
  nth_error (core_llcs CPUs) (Z.to_nat i) = Some (llc_on CPUs i).
Proof.
  intros Hi. pose proof (rd_ztab (llc_on CPUs) nc i Hi) as E.
  unfold rd in E. destruct (Z.ltb_spec i 0); [lia|]. exact E.
Qed.

Lemma cores_upto_succ l i :
  0 <= i < nc ->
  places (fun x : Z => x) (core_llcs CPUs) l (S (Z.to_nat i)) =
  places (fun x : Z => x) (core_llcs CPUs) l (Z.to_nat i) ++
  (if llc_on CPUs i =? l then [i] else []).
Proof.
  intros Hi. cbn [places]. rewrite nth_core_llcs by exact Hi.
  rewrite Z2Nat.id by lia. reflexivity.
Qed.

Lemma cores_upto_all l :
  places (fun x : Z => x) (core_llcs CPUs) l (Z.to_nat nc) = cores_on CPUs l.
Proof.
  unfold cores_on. pose proof len_core_llcs as E. unfold len in E.
  replace (Z.to_nat nc) with (length (core_llcs CPUs)) by lia. reflexivity.
Qed.

(** Lines 231-247. *)
Lemma prepare_cores_spec :
  prepare_cores nc
    (UINT_MAX,
     ztab (fun c => {| cc_id := 0; cc_num_cpus := len (cpus_on CPUs c);
                       cc_CPUs := []; cc_llc := llc_on CPUs c |}) nc,
     repeat calloc_llc (Z.to_nat nl))
  = Some (min_upto (fun c => len (cpus_on CPUs c)) UINT_MAX (Z.to_nat nc),
          ztab (fun c => {| cc_id := c; cc_num_cpus := 0;
                            cc_CPUs := repeat None
                                         (Z.to_nat (len (cpus_on CPUs c)));
                            cc_llc := llc_on CPUs c |}) nc,
          ztab (fun l => {| lc_id := 0;
                            lc_num_cores := len (cores_on CPUs l);
                            lc_Cores := [] |}) nl).
Proof.
  destruct listing_facts as (HN & Hnc & Hnl & Hr & _).
  unfold prepare_cores.
  match goal with
  | |- for_range 0 nc ?body ?st0 = _ =>
      destruct (for_range_inv
        (fun i st =>
           st = (min_upto (fun c => len (cpus_on CPUs c)) UINT_MAX
                   (Z.to_nat i),
                 ztab (fun c =>
                         if c <? i
                         then {| cc_id := c; cc_num_cpus := 0;
                                 cc_CPUs :=
                                   repeat None
                                     (Z.to_nat (len (cpus_on CPUs c)));
                                 cc_llc := llc_on CPUs c |}
                         else {| cc_id := 0;
                                 cc_num_cpus := len (cpus_on CPUs c);
                                 cc_CPUs := []; cc_llc := llc_on CPUs c |})
                   nc,
                 ztab (fun l =>
                         {| lc_id := 0;
                            lc_num_cores :=
                              len (places (fun x : Z => x) (core_llcs CPUs)
                                     l (Z.to_nat i));
                            lc_Cores := [] |}) nl))
        body 0 nc st0 ltac:(lia)) as (s' & E & HP)
  end.
  - f_equal; [f_equal|].
    + apply ztab_ext. intros c Hc.
      destruct (Z.ltb_spec c 0); [lia|reflexivity].
    + rewrite repeat_ztab. apply ztab_ext. reflexivity.
  - intros i s Hi ->. cbn beta iota.
    rewrite rd_ztab by exact Hi. cbn [bind].
    rewrite Z.ltb_irrefl. cbn [cc_num_cpus cc_llc cc_id cc_CPUs].
    pose proof (cpus_on_pos i Hi) as Hpos.
    replace (0 <? len (cpus_on CPUs i)) with true
      by (symmetry; apply Z.ltb_lt; lia).
    cbn [c_assert bind].
    rewrite wr_ztab by exact Hi. cbn [bind].
    pose proof (llc_on_range i Hi) as Hl.
    rewrite rd_ztab by exact Hl. cbn [bind].
    rewrite wr_ztab by exact Hl. cbn [bind].
    eexists. split; [reflexivity|].
    replace (Z.to_nat (i + 1)) with (S (Z.to_nat i)) by lia.
    f_equal; [f_equal|].
    + cbn [min_upto]. rewrite Z2Nat.id by lia. reflexivity.
    + apply ztab_ext. intros c Hc.
      destruct (Z.eqb_spec c i) as [->|Hne].
      * destruct (Z.ltb_spec i (i + 1)); [reflexivity|lia].
      * destruct (Z.ltb_spec c i), (Z.ltb_spec c (i + 1)); try lia;
          reflexivity.
    + apply ztab_ext. intros l Hl'. rewrite cores_upto_succ by exact Hi.
      cbn [lc_id lc_num_cores lc_Cores].
      rewrite (Z.eqb_sym (llc_on CPUs i) l).
      destruct (Z.eqb_spec l (llc_on CPUs i)) as [->|Hne].
      * pose proof (places_len_le (fun x : Z => x) (core_llcs CPUs)
                      (llc_on CPUs i) (Z.to_nat i)).
        pose proof (len_nonneg (places (fun x : Z => x) (core_llcs CPUs)
                      (llc_on CPUs i) (Z.to_nat i))).
        rewrite len_app, u32_small
          by (change (2 ^ 32) with 4294967296 in *; lia).
        reflexivity.
      * rewrite app_nil_r. reflexivity.
  - rewrite E, HP. f_equal. f_equal; [f_equal|].
    + apply ztab_ext. intros c Hc.
      destruct (Z.ltb_spec c nc); [reflexivity|lia].
    + apply ztab_ext. intros l Hl. rewrite cores_upto_all. reflexivity.
Qed.

(** Lines 251-263. *)
Lemma prepare_llcs_spec :
  prepare_llcs nl
    (UINT_MAX,
     ztab (fun l => {| lc_id := 0; lc_num_cores := len (cores_on CPUs l);
                       lc_Cores := [] |}) nl)
  = Some (min_upto (fun l => len (cores_on CPUs l)) UINT_MAX (Z.to_nat nl),
          ztab (fun l => {| lc_id := l; lc_num_cores := 0;
                            lc_Cores := repeat None
                                          (Z.to_nat (len (cores_on CPUs l)))
                         |}) nl).
Proof.
  destruct listing_facts as (HN & Hnc & Hnl & Hr & _).
  unfold prepare_llcs.
  match goal with
  | |- for_range 0 nl ?body ?st0 = _ =>
      destruct (for_range_inv
        (fun i st =>
           st = (min_upto (fun l => len (cores_on CPUs l)) UINT_MAX
                   (Z.to_nat i),
                 ztab (fun l =>
                         if l <? i
                         then {| lc_id := l; lc_num_cores := 0;
                                 lc_Cores :=
                                   repeat None
                                     (Z.to_nat (len (cores_on CPUs l))) |}
                         else {| lc_id := 0;
                                 lc_num_cores := len (cores_on CPUs l);
                                 lc_Cores := [] |})
                   nl))
        body 0 nl st0 ltac:(lia)) as (s' & E & HP)
  end.
  - f_equal. apply ztab_ext. intros l Hl.
    destruct (Z.ltb_spec l 0); [lia|reflexivity].
  - intros i s Hi ->. cbn beta iota.
    rewrite rd_ztab by exact Hi. cbn [bind].
    rewrite Z.ltb_irrefl. cbn [lc_id lc_num_cores lc_Cores].
    pose proof (cores_on_pos i Hi) as Hpos.
    replace (0 <? len (cores_on CPUs i)) with true
      by (symmetry; apply Z.ltb_lt; lia).
    cbn [c_assert bind].
    rewrite wr_ztab by exact Hi. cbn [bind].
    eexists. split; [reflexivity|].
    replace (Z.to_nat (i + 1)) with (S (Z.to_nat i)) by lia.
    f_equal.
    + cbn [min_upto]. rewrite Z2Nat.id by lia. reflexivity.
    + apply ztab_ext. intros l Hl.
      destruct (Z.eqb_spec l i) as [->|Hne].
      * destruct (Z.ltb_spec i (i + 1)); [reflexivity|lia].
      * destruct (Z.ltb_spec l i), (Z.ltb_spec l (i + 1)); try lia;
          reflexivity.
  - rewrite E, HP. f_equal. f_equal.
    apply ztab_ext. intros l Hl.
    destruct (Z.ltb_spec l nl); [reflexivity|lia].
Qed.

(** Lines 274-278. *)
Lemma append_cores_spec :
  append_cores nc
    (ztab (fun c => {| cc_id := c;
                       cc_num_cpus := len (cpus_on CPUs c);
                       cc_CPUs := map Some (cpus_on CPUs c);
                       cc_llc := llc_on CPUs c |}) nc)
    (ztab (fun l => {| lc_id := l; lc_num_cores := 0;
                       lc_Cores := repeat None
                                     (Z.to_nat (len (cores_on CPUs l))) |})
       nl)
  = Some (ztab (fun l => {| lc_id := l;
                            lc_num_cores := len (cores_on CPUs l);
                            lc_Cores := map Some (cores_on CPUs l) |}) nl).
Proof.
  destruct listing_facts as (HN & Hnc & Hnl & Hr & _).
  unfold append_cores.
  match goal with
  | |- for_range 0 nc ?body ?st0 = _ =>
      destruct (for_range_inv
        (fun i LLCs =>
           LLCs = ztab (fun l =>
                    let P := places (fun x : Z => x) (core_llcs CPUs) l
                               (Z.to_nat i) in
                    {| lc_id := l;
                       lc_num_cores := len P;
                       lc_Cores :=
                         map Some P ++
                         repeat None
                           (Z.to_nat (len (cores_on CPUs l) - len P)) |})
                    nl)
        body 0 nc st0 ltac:(lia)) as (s' & E & HP)
  end.
  - apply ztab_ext. intros l Hl. cbn [places map app len length].
    rewrite Z.sub_0_r. reflexivity.
  - intros i LLCs0 Hi ->.
    rewrite rd_ztab by exact Hi. cbn [bind cc_llc].
    pose proof (llc_on_range i Hi) as Hl.
    rewrite rd_ztab by exact Hl. cbn [bind].
    cbv zeta. cbn [lc_id lc_num_cores lc_Cores].
    set (P := places (fun x : Z => x) (core_llcs CPUs) (llc_on CPUs i)
                (Z.to_nat i)).
    assert (EP : places (fun x : Z => x) (core_llcs CPUs) (llc_on CPUs i)
                   (S (Z.to_nat i)) = P ++ [i]).
    { rewrite cores_upto_succ by exact Hi. rewrite Z.eqb_refl. reflexivity. }
    assert (HP1 : len P + 1 <= len (cores_on CPUs (llc_on CPUs i))).
    { pose proof len_core_llcs as El. unfold len in El.
      pose proof (places_mono (fun x : Z => x) (core_llcs CPUs)
                    (llc_on CPUs i) (S (Z.to_nat i))
                    (length (core_llcs CPUs)) ltac:(lia)) as Hm.
      rewrite EP, len_app in Hm. exact Hm. }
    pose proof (len_nonneg P) as HP0.
    pose proof (places_len_le (fun x : Z => x) (core_llcs CPUs)
                  (llc_on CPUs i) (Z.to_nat i)) as HPi.
    fold P in HPi.
    replace (Z.to_nat (len (cores_on CPUs (llc_on CPUs i)) - len P))
      with (S (Z.to_nat (len (cores_on CPUs (llc_on CPUs i)) - len P - 1)))
      by lia.
    cbn [repeat].
    match goal with
    | |- context [wr (map Some P ++ None :: ?R) (len P) (Some i)] =>
        assert (Ew : wr (map Some P ++ None :: R) (len P) (Some i)
                     = Some (map Some P ++ Some i :: R))
          by (rewrite <- (len_map Some P); apply wr_mid);
        rewrite Ew
    end.
    cbn [bind].
    rewrite wr_ztab by exact Hl. eexists. split; [reflexivity|].
    apply ztab_ext. intros l Hl'. cbv zeta.
    replace (Z.to_nat (i + 1)) with (S (Z.to_nat i)) by lia.
    destruct (Z.eqb_spec l (llc_on CPUs i)) as [->|Hne].
    + rewrite EP, len_app, map_app, <- app_assoc.
      rewrite u32_small by (change (2 ^ 32) with 4294967296 in *; lia).
      cbn [map app]. rewrite len_cons, len_nil.
      replace (len (cores_on CPUs (llc_on CPUs i)) - (len P + (1 + 0)))
        with (len (cores_on CPUs (llc_on CPUs i)) - len P - 1) by lia.
      reflexivity.
    + rewrite cores_upto_succ by exact Hi.
      destruct (Z.eqb_spec (llc_on CPUs i) l); [congruence|].
      rewrite app_nil_r. reflexivity.
  - rewrite E, HP. f_equal. apply ztab_ext. intros l Hl. cbv zeta.
    rewrite cores_upto_all. rewrite Z.sub_diag. cbn [Z.to_nat repeat].
    rewrite app_nil_r. reflexivity.
Qed.

Lemma cpus_on_In c i :
  In i (cpus_on CPUs c) <->
  0 <= i < N /\ cpu_core (cpu_val CPUs i) = c.
Proof.
  unfold cpus_on. rewrite places_In.
  change (Z.of_nat (length CPUs)) with N. split.
  - intros (Hi & x & Ex & <-). split; [exact Hi|].
    unfold cpu_val. rewrite (nth_error_nth _ _ _ Ex). reflexivity.
  - intros (Hi & <-). split; [exact Hi|].
    destruct (nth_error_rd i Hi) as (x & _ & Ex & _). exists x.
    split; [exact Ex|]. unfold cpu_val.
    rewrite (nth_error_nth _ _ _ Ex). reflexivity.
Qed.

Lemma cores_on_In l j :
  In j (cores_on CPUs l) <-> 0 <= j < nc /\ llc_on CPUs j = l.
Proof.
  unfold cores_on. rewrite places_In.
  pose proof len_core_llcs as E. unfold len in E. rewrite E. split.
  - intros (Hj & x & Ex & <-). split; [exact Hj|].
    rewrite nth_core_llcs in Ex by exact Hj. congruence.
  - intros (Hj & <-). split; [exact Hj|]. exists (llc_on CPUs j).
    split; [apply nth_core_llcs; exact Hj|reflexivity].
Qed.

Lemma rd_cpu_val i : 0 <= i < N -> rd CPUs i = Some (cpu_val CPUs i).
Proof.
  intros Hi. destruct (nth_error_rd i Hi) as (x & E & Ex & _).
  rewrite E. unfold cpu_val. rewrite (nth_error_nth _ _ _ Ex). reflexivity.
Qed.

Lemma cpu_val_In i : 0 <= i < N -> In (cpu_val CPUs i) CPUs.
Proof. intros Hi. apply (rd_In CPUs i). apply rd_cpu_val. exact Hi. Qed.

(** The pointers of a core and of an LLC, followed. *)
Lemma core_of_cell_spec c :
  core_of_cell CPUs
    {| cc_id := c; cc_num_cpus := len (cpus_on CPUs c);
       cc_CPUs := map Some (cpus_on CPUs c); cc_llc := llc_on CPUs c |}
  = Some (core_val CPUs c).
Proof.
  unfold core_of_cell. cbn [cc_id cc_num_cpus cc_CPUs cc_llc].
  rewrite (map_opt_all _
             (fun p : option Z =>
                match p with Some i => cpu_val CPUs i | None => cpu_zero end)).
  - cbn [bind]. rewrite map_map. reflexivity.
  - intros p Hp. apply in_map_iff in Hp. destruct Hp as (i & <- & Hi).
    cbn [bind]. apply rd_cpu_val. apply cpus_on_In in Hi. apply Hi.
Qed.

Lemma llc_of_cell_spec l :
  llc_of_cell CPUs
    (ztab (fun c => {| cc_id := c;
                       cc_num_cpus := len (cpus_on CPUs c);
                       cc_CPUs := map Some (cpus_on CPUs c);
                       cc_llc := llc_on CPUs c |}) nc)
    {| lc_id := l; lc_num_cores := len (cores_on CPUs l);
       lc_Cores := map Some (cores_on CPUs l) |}
  = Some (llc_val CPUs l).
Proof.
  unfold llc_of_cell. cbn [lc_id lc_num_cores lc_Cores].
  rewrite (map_opt_all _
             (fun p : option Z =>
                match p with
                | Some j => core_val CPUs j
                | None => core_val CPUs 0
                end)).
  - cbn [bind]. rewrite map_map. reflexivity.
  - intros p Hp. apply in_map_iff in Hp. destruct Hp as (j & <- & Hj).
    cbn [bind]. apply cores_on_In in Hj. destruct Hj as (Hj & _).
    rewrite rd_ztab by exact Hj. cbn [bind]. apply core_of_cell_spec.
Qed.

(** [prepare_sys_hierarchy] on a listing it can work with. *)
Lemma prepare_sys_hierarchy_spec z :
  prepare_sys_hierarchy z CPUs = Some (hierarchy_of z CPUs).
Proof.
  destruct listing_facts as (HN & Hnc & Hnl & Hr & _).
  assert (Eids : count_ids CPUs = (nc, nl))
    by (unfold nc, nl; apply surjective_pairing).
  unfold prepare_sys_hierarchy. rewrite Eids. cbn beta iota zeta.
  change (len CPUs) with N.
  rewrite count_cpus_spec. cbn [bind].
  rewrite prepare_cores_spec. cbn [bind]. cbn beta iota.
  rewrite prepare_llcs_spec. cbn [bind]. cbn beta iota.
  rewrite append_cpus_spec. cbn [bind].
  rewrite append_cores_spec. cbn [bind].
  rewrite (map_opt_all _ (fun cell => llc_val CPUs (lc_id cell))).
  - cbn [bind]. rewrite map_ztab. cbn [lc_id].
    rewrite u32_small by lia. reflexivity.
  - intros cell Hcell. unfold ztab in Hcell. apply in_map_iff in Hcell.
    destruct Hcell as (k & <- & Hk). cbn [lc_id]. apply llc_of_cell_spec.
Qed.

Lemma cpus_sum : zsum (fun c => len (cpus_on CPUs c)) nc = N.
Proof.
  destruct listing_facts as (HN & Hnc & Hnl & Hr & _).
  unfold cpus_on.
  rewrite (places_sum cpu_core CPUs nc (length CPUs));
    [reflexivity|lia|lia|].
  intros x Hx. apply (Hr x Hx).
Qed.

Lemma cores_sum : zsum (fun l => len (cores_on CPUs l)) nl = nc.
Proof.
  destruct listing_facts as (HN & Hnc & Hnl & Hr & _).
  unfold cores_on.
  rewrite (places_sum (fun x : Z => x) (core_llcs CPUs) nl
             (length (core_llcs CPUs)));
    [apply len_core_llcs|lia|lia|].
  intros x Hx. unfold core_llcs, ztab in Hx. apply in_map_iff in Hx.
  destruct Hx as (k & <- & Hk). apply in_seq in Hk.
  apply llc_on_range. fold nc in Hk. lia.
Qed.

Lemma per_bounds z :
  let S := hierarchy_of z CPUs in
  1 <= cores_per_llc S /\ 1 <= cpus_per_core S /\
  (forall l, 0 <= l < nl -> cores_per_llc S <= len (cores_on CPUs l)) /\
  (forall c, 0 <= c < nc -> cpus_per_core S <= len (cpus_on CPUs c)) /\
  nl * cores_per_llc S <= nc /\ nc * cpus_per_core S <= N.
Proof.
  destruct listing_facts as (HN & Hnc & Hnl & Hr & _).
  cbv zeta. unfold hierarchy_of. cbn [cores_per_llc cpus_per_core].
  fold nc nl.
  assert (HU : 1 <= UINT_MAX) by (unfold UINT_MAX; lia).
  assert (A1 : forall l, 0 <= l < nl ->
            min_upto (fun l => len (cores_on CPUs l)) UINT_MAX (Z.to_nat nl)
            <= len (cores_on CPUs l)).
  { intros l Hl.
    apply (min_upto_le (fun l => len (cores_on CPUs l))). lia. }
  assert (A2 : forall c, 0 <= c < nc ->
            min_upto (fun c => len (cpus_on CPUs c)) UINT_MAX (Z.to_nat nc)
            <= len (cpus_on CPUs c)).
  { intros c Hc.
    apply (min_upto_le (fun c => len (cpus_on CPUs c))). lia. }
  split.
  { apply min_upto_ge; [exact HU|]. intros j Hj. apply cores_on_pos. lia. }
  split.
  { apply min_upto_ge; [exact HU|]. intros j Hj. apply cpus_on_pos. lia. }
  split; [exact A1|]. split; [exact A2|]. split.
  - pose proof (zsum_ge (fun l => len (cores_on CPUs l)) nl _
                  ltac:(lia) A1) as Z1.
    rewrite cores_sum in Z1. exact Z1.
  - pose proof (zsum_ge (fun c => len (cpus_on CPUs c)) nc _
                  ltac:(lia) A2) as Z2.
    rewrite cpus_sum in Z2. exact Z2.
Qed.

Lemma core_at_hierarchy z l c core :
  core_at (hierarchy_of z CPUs) l c = Some core <->
  0 <= l < nl /\
  exists j, rd (cores_on CPUs l) c = Some j /\ core = core_val CPUs j.
Proof.
  destruct listing_facts as (HN & Hnc & Hnl & Hr & _).
  unfold core_at, hierarchy_of. cbn [LLCs]. fold nl. split.
  - intros H.
    destruct (rd (ztab (llc_val CPUs) nl) l) as [L|] eqn:EL; [|discriminate].
    pose proof (rd_Some_range _ _ _ EL) as Hl.
    rewrite len_ztab in Hl by lia.
    rewrite rd_ztab in EL by exact Hl. inversion EL; subst L.
    cbn [bind llc_val llc_Cores] in H. rewrite rd_map in H.
    destruct (rd (cores_on CPUs l) c) as [j|]; [|discriminate].
    cbn [option_map] in H. inversion H. split; [exact Hl|].
    exists j. split; reflexivity.
  - intros (Hl & j & Ej & ->). rewrite rd_ztab by exact Hl.
    cbn [bind llc_val llc_Cores]. rewrite rd_map, Ej. reflexivity.
Qed.

Lemma cpu_at_hierarchy z l c h x :
  cpu_at (hierarchy_of z CPUs) l c h = Some x <->
  0 <= l < nl /\
  exists j i, rd (cores_on CPUs l) c = Some j /\
              rd (cpus_on CPUs j) h = Some i /\ x = cpu_val CPUs i.
Proof.
  unfold cpu_at. split.
  - intros H.
    destruct (core_at (hierarchy_of z CPUs) l c) as [core|] eqn:E;
      [|discriminate].
    apply core_at_hierarchy in E. destruct E as (Hl & j & Ej & ->).
    cbn [bind core_val core_CPUs] in H. rewrite rd_map in H.
    destruct (rd (cpus_on CPUs j) h) as [i|] eqn:Ei; [|discriminate].
    cbn [option_map] in H. inversion H. split; [exact Hl|].
    exists j, i. repeat split; assumption.
  - intros (Hl & j & i & Ej & Ei & ->).
    rewrite (proj2 (core_at_hierarchy z l c (core_val CPUs j)))
      by (split; [exact Hl|exists j; split; [exact Ej|reflexivity]]).
    cbn [bind core_val core_CPUs]. rewrite rd_map, Ei. reflexivity.
Qed.

Lemma core_place l c l' c' j :
  rd (cores_on CPUs l) c = Some j -> rd (cores_on CPUs l') c' = Some j ->
  l = l' /\ c = c'.
Proof.
  intros H H'.
  pose proof (proj1 (cores_on_In _ _) (rd_In _ _ _ H)) as (_ & E).
  pose proof (proj1 (cores_on_In _ _) (rd_In _ _ _ H')) as (_ & E').
  assert (El : l = l') by congruence. clear E E'. subst l'.
  split; [reflexivity|].
  apply (rd_NoDup_inj (cores_on CPUs l) c c' j);
    [apply places_NoDup|exact H|exact H'].
Qed.

Lemma cpu_place c h c' h' i :
  rd (cpus_on CPUs c) h = Some i -> rd (cpus_on CPUs c') h' = Some i ->
  c = c' /\ h = h'.
Proof.
  intros H H'.
  pose proof (proj1 (cpus_on_In _ _) (rd_In _ _ _ H)) as (_ & E).
  pose proof (proj1 (cpus_on_In _ _) (rd_In _ _ _ H')) as (_ & E').
  assert (Ec : c = c') by congruence. clear E E'. subst c'.
  split; [reflexivity|].
  apply (rd_NoDup_inj (cpus_on CPUs c) h h' i);
    [apply places_NoDup|exact H|exact H'].
Qed.

Lemma cpu_val_inj i i' :
  0 <= i < N -> 0 <= i' < N ->
  cpu_id (cpu_val CPUs i) = cpu_id (cpu_val CPUs i') -> i = i'.
Proof.
  intros Hi Hi' E. destruct Hok as (_ & _ & _ & _ & _ & _ & HND).
  destruct (nth_error_rd i Hi) as (x & _ & Ex & _).
  destruct (nth_error_rd i' Hi') as (x' & _ & Ex' & _).
  unfold cpu_val in E.
  rewrite (nth_error_nth _ _ _ Ex), (nth_error_nth _ _ _ Ex') in E.
  assert (Z.to_nat i = Z.to_nat i'); [|lia].
  apply (proj1 (NoDup_nth_error (map cpu_id CPUs)) HND).
  - rewrite length_map. unfold N, len in Hi. lia.
  - rewrite !nth_error_map, Ex, Ex'. cbn [option_map]. congruence.
Qed.

Lemma hierarchy_topology_ok z : topology_ok (hierarchy_of z CPUs).
Proof.
  destruct listing_facts as (HN & Hnc & Hnl & Hr & _).
  pose proof (per_bounds z) as (B1 & B2 & B3 & B4 & B5 & B6).
  cbv zeta in *.
  unfold topology_ok.
  change (num_llcs (hierarchy_of z CPUs)) with nl.
  change (num_cores (hierarchy_of z CPUs)) with nc.
  set (cpl := cores_per_llc (hierarchy_of z CPUs)) in *.
  set (cpc := cpus_per_core (hierarchy_of z CPUs)) in *.
  split; [exact B1|]. split; [exact B2|]. split; [lia|]. split.
  { assert (nl * cpl * cpc <= nc * cpc)
      by (apply Z.mul_le_mono_nonneg_r; lia).
    lia. }
  split.
  { intros l c Hl Hc.
    destruct (rd_lt (cores_on CPUs l) c) as (j & Ej);
      [specialize (B3 l Hl); lia|].
    exists (core_val CPUs j). split.
    - apply core_at_hierarchy. split; [exact Hl|].
      exists j. split; [exact Ej|reflexivity].
    - pose proof (proj1 (cores_on_In _ _) (rd_In _ _ _ Ej)) as (Hj & _).
      cbn [core_val core_id core_CPUs]. split; [exact Hj|].
      intros h Hh. apply rd_lt. rewrite len_map.
      specialize (B4 j Hj). lia. }
  split.
  { intros l c l' c' core core' H H' E.
    apply core_at_hierarchy in H, H'.
    destruct H as (_ & j & Ej & ->), H' as (_ & j' & Ej' & ->).
    cbn [core_val core_id] in E. subst j'.
    apply (core_place l c l' c' j Ej Ej'). }
  intros l c h l' c' h' x x' H H' E.
  apply cpu_at_hierarchy in H, H'.
  destruct H as (_ & j & i & Ej & Ei & ->).
  destruct H' as (_ & j' & i' & Ej' & Ei' & ->).
  pose proof (proj1 (cpus_on_In _ _) (rd_In _ _ _ Ei)) as (Hi & _).
  pose proof (proj1 (cpus_on_In _ _) (rd_In _ _ _ Ei')) as (Hi' & _).
  pose proof (cpu_val_inj i i' Hi Hi' E). subst i'.
  destruct (cpu_place j h j' h' i Ei Ei') as (<- & <-).
  destruct (core_place l c l' c' j Ej Ej') as (<- & <-).
  repeat split.
Qed.

(** Every CPU of the hierarchy is a CPU of the listing, under the LLC
    and the core of its line. *)
Lemma hierarchy_sound z l c h x :
  cpu_at (hierarchy_of z CPUs) l c h = Some x ->
  In x CPUs /\ cpu_llc x = l /\
  exists core, core_at (hierarchy_of z CPUs) l c = Some core /\
               core_id core = cpu_core x /\ core_llc core = l.
Proof.
  intros H. apply cpu_at_hierarchy in H.
  destruct H as (Hl & j & i & Ej & Ei & ->).
  pose proof (proj1 (cpus_on_In _ _) (rd_In _ _ _ Ei)) as (Hi & Ec).
  pose proof (proj1 (cores_on_In _ _) (rd_In _ _ _ Ej)) as (Hj & El).
  pose proof (cpu_val_In i Hi) as Hin.
  split; [exact Hin|]. split.
  - rewrite <- (llc_on_spec _ Hin), Ec. exact El.
  - exists (core_val CPUs j). split.
    + apply core_at_hierarchy. split; [exact Hl|].
      exists j. split; [exact Ej|reflexivity].
    + cbn [core_val core_id core_llc]. split; [symmetry; exact Ec|exact El].
Qed.

(** Every CPU of the listing is in the hierarchy. *)
Lemma hierarchy_complete z x :
  In x CPUs -> exists c h, cpu_at (hierarchy_of z CPUs) (cpu_llc x) c h = Some x.
Proof.
  intros Hx. destruct listing_facts as (HN & Hnc & Hnl & Hr & _).
  destruct (Hr x Hx) as (Hc & Hl).
  destruct (In_nth_error _ _ Hx) as (k & Ek).
  assert (Hk : 0 <= Z.of_nat k < N).
  { assert (k < length CPUs)%nat by (apply nth_error_Some; congruence).
    unfold N, len. lia. }
  assert (Ev : cpu_val CPUs (Z.of_nat k) = x).
  { unfold cpu_val. rewrite Nat2Z.id. apply (nth_error_nth _ _ _ Ek). }
  assert (Hi : In (Z.of_nat k) (cpus_on CPUs (cpu_core x))).
  { apply cpus_on_In. split; [exact Hk|]. rewrite Ev. reflexivity. }
  assert (Hj : In (cpu_core x) (cores_on CPUs (cpu_llc x))).
  { apply cores_on_In. split; [exact Hc|]. apply llc_on_spec. exact Hx. }
  destruct (In_rd _ _ Hi) as (h & Eh). destruct (In_rd _ _ Hj) as (c & Ec).
  exists c, h. apply cpu_at_hierarchy. split; [exact Hl|].
  exists (cpu_core x), (Z.of_nat k).
  split; [exact Ec|]. split; [exact Eh|]. symmetry. exact Ev.
Qed.

End Hierarchy.

Lemma cpus_on_gap (CPUs : list cpu_t) c :
  (forall x, In x CPUs -> cpu_core x <> c) -> len (cpus_on CPUs c) = 0.
Proof.
  intros H. destruct (cpus_on CPUs c) as [|i l] eqn:E; [reflexivity|].
  exfalso. assert (Hi : In i (cpus_on CPUs c)) by (rewrite E; left; reflexivity).
  unfold cpus_on in Hi. apply places_In in Hi.
  destruct Hi as (_ & x & Ex & Ec).
  apply (H x (nth_error_In _ _ Ex) Ec).
Qed.

(** X27: on a listing whose core and LLC numbers are used from 0 on
    without a gap, with the CPUs of a core on one LLC,
    [prepare_sys_hierarchy] returns the hierarchy in which every LLC has
    its cores in the order of their numbers and every core its CPUs in
    the order of the lines, with the smallest number of cores of an LLC as
    [cores_per_llc] and the smallest number of CPUs of a core as
    [cpus_per_core]. *)
Theorem prepare_sys_hierarchy_returns (z : Z) (CPUs : list cpu_t) :
  listing_ok CPUs ->
  prepare_sys_hierarchy z CPUs = Some (hierarchy_of z CPUs).
Proof. intros Hok. apply prepare_sys_hierarchy_spec. exact Hok. Qed.

(** X28: the hierarchy [prepare_sys_hierarchy] returns is one
    [prepare_threads_meta] can place workers on: every LLC has
    [cores_per_llc] cores at least, every core [cpus_per_core] CPUs at
    least, no core and no CPU is there twice, and the CPUs are counted. *)
Theorem prepare_sys_hierarchy_topology (z : Z) (CPUs : list cpu_t) :
  listing_ok CPUs ->
  exists S, prepare_sys_hierarchy z CPUs = Some S /\
            topology_ok S /\ num_cpus S = len CPUs /\
            num_llcs S * cores_per_llc S <= num_cores S /\
            num_cores S * cpus_per_core S <= num_cpus S.
Proof.
  intros Hok. exists (hierarchy_of z CPUs).
  split; [apply prepare_sys_hierarchy_spec; exact Hok|].
  split; [apply hierarchy_topology_ok; exact Hok|].
  split; [reflexivity|].
  pose proof (per_bounds CPUs Hok z) as (_ & _ & _ & _ & B5 & B6).
  split; [exact B5|exact B6].
Qed.

(** X29: the hierarchy [prepare_sys_hierarchy] returns holds the CPUs of
    the listing and no others: a CPU found under an LLC and a core is a
    line of the listing that names this LLC and this core, and every
    line of the listing is found under the LLC it names. *)
Theorem prepare_sys_hierarchy_places (z : Z) (CPUs : list cpu_t) :
  listing_ok CPUs ->
  exists S, prepare_sys_hierarchy z CPUs = Some S /\
    (forall l c h x, cpu_at S l c h = Some x ->
       In x CPUs /\ cpu_llc x = l /\
       exists core, core_at S l c = Some core /\
                    core_id core = cpu_core x /\ core_llc core = l) /\
    (forall x, In x CPUs ->
       exists c h, cpu_at S (cpu_llc x) c h = Some x).
Proof.
  intros Hok. exists (hierarchy_of z CPUs).
  split; [apply prepare_sys_hierarchy_spec; exact Hok|]. split.
  - intros l c h x. apply hierarchy_sound. exact Hok.
  - intros x. apply hierarchy_complete. exact Hok.
Qed.

(** X30: when a core number below the largest one of the listing has no
    CPU, [prepare_sys_hierarchy] stops at the assertion of line 236. *)
Theorem prepare_sys_hierarchy_gap (z : Z) (CPUs : list cpu_t) (c : Z) :
  len CPUs < 2 ^ 32 ->
  (forall x, In x CPUs ->
     0 <= cpu_core x < 2 ^ 32 - 1 /\ 0 <= cpu_llc x < 2 ^ 32 - 1) ->
  0 <= c < fst (count_ids CPUs) ->
  (forall x, In x CPUs -> cpu_core x <> c) ->
  prepare_sys_hierarchy z CPUs = None.
Proof.
  intros Hlen Hrange Hc Hgap. unfold prepare_sys_hierarchy.
  rewrite (surjective_pairing (count_ids CPUs)) at 1. cbn beta iota zeta.
  rewrite (count_cpus_gen CPUs Hlen Hrange). cbn [bind].
  rewrite (prepare_cores_gap _ _ _ c); [reflexivity|exact Hc|].
  apply cpus_on_gap. exact Hgap.
Qed.

(** The lines of [lscpu] on the machine of [sample_SysInfo]. *)
Definition sample_listing : list cpu_t :=
  map sample_cpu [0; 1; 2; 3; 4; 5; 6; 7].

(** Two lines that leave core 1 out. *)
Definition gap_listing : list cpu_t :=
  [ {| cpu_id := 0; cpu_core := 0; cpu_llc := 0 |};
    {| cpu_id := 1; cpu_core := 2; cpu_llc := 0 |} ].

Lemma sample_listing_In x :
  In x sample_listing <-> exists i, 0 <= i < 8 /\ x = sample_cpu i.
Proof.
  unfold sample_listing. rewrite in_map_iff. split.
  - intros (i & <- & Hi). exists i. split; [|reflexivity].
    cbn in Hi. lia.
  - intros (i & Hi & ->). exists i. split; [reflexivity|].
    cbn. lia.
Qed.

Lemma sample_listing_ok : listing_ok sample_listing.
Proof.
  unfold listing_ok. split; [discriminate|]. split; [cbn; lia|]. split.
  { intros x Hx. apply sample_listing_In in Hx. destruct Hx as (i & Hi & ->).
    cbn [sample_cpu cpu_core cpu_llc].
    pose proof (Z.div_pos i 2). pose proof (Z.div_pos i 4).
    assert (i / 2 < 4) by (apply Z.div_lt_upper_bound; lia).
    assert (i / 4 < 2) by (apply Z.div_lt_upper_bound; lia). lia. }
  split.
  { intros x c Hx Hc. apply sample_listing_In in Hx.
    destruct Hx as (i & Hi & ->). cbn [sample_cpu cpu_core] in Hc.
    assert (i / 2 < 4) by (apply Z.div_lt_upper_bound; lia).
    exists (sample_cpu (2 * c)). split.
    - apply sample_listing_In. exists (2 * c). split; [lia|reflexivity].
    - cbn [sample_cpu cpu_core]. rewrite Z.mul_comm. apply Z.div_mul. lia. }
  split.
  { intros x l Hx Hl. apply sample_listing_In in Hx.
    destruct Hx as (i & Hi & ->). cbn [sample_cpu cpu_llc] in Hl.
    assert (i / 4 < 2) by (apply Z.div_lt_upper_bound; lia).
    exists (sample_cpu (4 * l)). split.
    - apply sample_listing_In. exists (4 * l). split; [lia|reflexivity].
    - cbn [sample_cpu cpu_llc]. rewrite Z.mul_comm. apply Z.div_mul. lia. }
  split.
  { intros x y Hx Hy. apply sample_listing_In in Hx, Hy.
    destruct Hx as (i & Hi & ->), Hy as (j & Hj & ->).
    cbn [sample_cpu cpu_core cpu_llc]. intros E.
    change 4 with (2 * 2).
    rewrite <- (Z.div_div i 2 2), <- (Z.div_div j 2 2) by lia.
    rewrite E. reflexivity. }
  cbn. repeat constructor; cbn; intuition lia.
Qed.

Lemma prepare_sys_hierarchy_returns_witness :
  listing_ok sample_listing /\
  prepare_sys_hierarchy 1048576 sample_listing = Some sample_SysInfo.
Proof.
  split; [exact sample_listing_ok|].
  exact (prepare_sys_hierarchy_returns 1048576 sample_listing
           sample_listing_ok).
Defined.

Lemma prepare_sys_hierarchy_topology_witness :
  listing_ok sample_listing /\
  exists S, prepare_sys_hierarchy 1048576 sample_listing = Some S /\
            topology_ok S /\ num_cpus S = len sample_listing /\
            num_llcs S * cores_per_llc S <= num_cores S /\
            num_cores S * cpus_per_core S <= num_cpus S.
Proof.
  split; [exact sample_listing_ok|].
  exact (prepare_sys_hierarchy_topology 1048576 sample_listing
           sample_listing_ok).
Defined.

Lemma prepare_sys_hierarchy_places_witness :
  listing_ok sample_listing /\
  exists S, prepare_sys_hierarchy 1048576 sample_listing = Some S /\
    (forall l c h x, cpu_at S l c h = Some x ->
       In x sample_listing /\ cpu_llc x = l /\
       exists core, core_at S l c = Some core /\
                    core_id core = cpu_core x /\ core_llc core = l) /\
    (forall x, In x sample_listing ->
       exists c h, cpu_at S (cpu_llc x) c h = Some x).
Proof.
  split; [exact sample_listing_ok|].
  exact (prepare_sys_hierarchy_places 1048576 sample_listing
           sample_listing_ok).
Defined.

Lemma prepare_sys_hierarchy_gap_witness :
  prepare_sys_hierarchy 1048576 gap_listing = None.
Proof.
  apply (prepare_sys_hierarchy_gap 1048576 gap_listing 1).
  - cbn. lia.
  - intros x [<-|[<-|[]]]; cbn; lia.
  - vm_compute. split; [discriminate|reflexivity].
  - intros x [<-|[<-|[]]]; cbn; lia.
Defined.

(** ** The forms of a valued option *)

Module CmdArgsForms.

Import Ascii String CmdArgs CmdArgsSpec CmdArgsNames CmdArgsRun CmdArgsValues.

(** The digits of a numeral, read after a positive accumulator. *)
Lemma read_digits_acc (d : Decimal.uint) (acc : positive) :
  read_digits (DecimalString.NilEmpty.string_of_uint d) (Z.pos acc)
  = Z.pos (Pos.of_uint_acc d acc).
Proof.
  revert acc.
  induction d as [|d IH|d IH|d IH|d IH|d IH|d IH|d IH|d IH|d IH|d IH];
    intros acc;
    cbn [DecimalString.NilEmpty.string_of_uint read_digits Pos.of_uint_acc];
    [reflexivity|..];
    match goal with
    | |- context [digit_of ?c] =>
        let v := eval vm_compute in (digit_of c) in
        change (digit_of c) with v; cbv iota
    end;
    rewrite <- IH; f_equal; lia.
Qed.

Lemma read_digits_uint (d : Decimal.uint) :
  read_digits (DecimalString.NilEmpty.string_of_uint d) 0
  = Z.of_N (N.of_uint d).
Proof.
  unfold N.of_uint.
  induction d as [|d IH|d IH|d IH|d IH|d IH|d IH|d IH|d IH|d IH|d IH];
    cbn [DecimalString.NilEmpty.string_of_uint read_digits Pos.of_uint];
    [reflexivity|..];
    match goal with
    | |- context [digit_of ?c] =>
        let v := eval vm_compute in (digit_of c) in
        change (digit_of c) with v; cbv iota
    end;
    [exact IH|..];
    cbn [Z.of_N]; rewrite <- read_digits_acc; reflexivity.
Qed.

(** [sscanf] on a numeral: the value of its digits, as [strtoul] and the
    store to an [unsigned int] leave it. *)
Lemma sscanf_u_uint (d : Decimal.uint) :
  sscanf_u (DecimalString.NilZero.string_of_uint d)
  = Matched (u32 (strtoul false (Z.of_N (N.of_uint d)))).
Proof.
  rewrite <- read_digits_uint.
  destruct d; reflexivity.
Qed.

Lemma sscanf_u_decimal (n : Z) :
  0 <= n < 2 ^ 32 -> sscanf_u (decimal n) = Matched n.
Proof.
  intros Hn. unfold decimal.
  rewrite sscanf_u_uint, DecimalN.Unsigned.of_to, Z2N.id by lia.
  unfold strtoul.
  assert (H64 : (2:Z) ^ 32 < 2 ^ 64) by (vm_compute; reflexivity).
  destruct (Z.leb_spec (2 ^ 64) n) as [H|_]; [lia|].
  rewrite (u64_small n) by lia.
  rewrite (u32_small n) by lia. reflexivity.
Qed.

(** [--name=value] for the options that read an unsigned. *)
Lemma extract_arg_unsigned (double : Type)
    (sscanf_lf : string -> scanned double) (st : state double)
    (name value : string) (v : Z) :
  In name unsigned_options ->
  sscanf_u value = Matched v ->
  extract_arg double sscanf_lf ("--" ++ name ++ "=" ++ value)%string st
  = Some (Running double (set_param name v (set_ival double st (Matched v)))).
Proof.
  intros Hin Hv.
  assert (Hname : name = "threads"%string \/ name = "r"%string \/
                  name = "s"%string \/ name = "radix"%string \/
                  name = "radixR"%string \/ name = "radixS"%string).
  { cbn in Hin. intuition (subst; auto). }
  destruct Hname as [ -> | [ -> | [ -> | [ -> | [ -> | -> ] ] ] ] ];
    unfold extract_arg; cbn; unfold compare_options, valued_u, valued_lf;
    cbn; rewrite Hv; reflexivity.
Qed.

Lemma plain_name_of (s : string) : plain s = true -> name_of s = s.
Proof.
  induction s as [|c s IH]; [reflexivity|].
  cbn [plain name_of]. intros H.
  apply andb_prop in H. destruct H as (H & Hs).
  apply andb_prop in H. destruct H as (Hd & He).
  apply negb_true_iff in Hd. apply negb_true_iff in He.
  rewrite Hd, He, (IH Hs). reflexivity.
Qed.

Lemma plain_value_of (s : string) : plain s = true -> value_of s = EmptyString.
Proof.
  induction s as [|c s IH]; [reflexivity|].
  cbn [plain value_of]. intros H.
  apply andb_prop in H. destruct H as (H & Hs).
  apply andb_prop in H. destruct H as (_ & He).
  apply negb_true_iff in He.
  rewrite He. exact (IH Hs).
Qed.

(** An argument that begins with a digit has the name of no option. *)
Lemma digit_not_option (s : string) :
  starts_with_digit s = true -> ~ In s option_names.
Proof.
  destruct s as [|c s]; [discriminate|].
  cbn [starts_with_digit]. intros H Hin.
  unfold option_names in Hin. cbn [In] in Hin.
  repeat (destruct Hin as [Hin|Hin];
          [injection Hin as <- _; vm_compute in H; discriminate|]).
  exact Hin.
Qed.

(** A value given as an argument of its own. *)
Lemma extract_arg_value (double : Type)
    (sscanf_lf : string -> scanned double) (st : state double)
    (value : string) :
  starts_with_digit value = true ->
  plain value = true ->
  Z.of_nat (String.length value) <= 4095 ->
  extract_arg double sscanf_lf value st
  = Some (Running double (printf double st (Msg_unrecognized value))).
Proof.
  intros Hd Hp Hl.
  rewrite extract_arg_spec, (plain_name_of value Hp), (plain_value_of value Hp).
  unfold LINEMAX.
  destruct (Z.leb_spec (Z.of_nat (String.length value)) (4096 - 1)) as [_|H];
    [|lia].
  f_equal.
  pose proof (digit_not_option value Hd) as Hno.
  unfold option_names in Hno. cbn [In] in Hno.
  apply compare_options_unrecognized.
  - intros ->. discriminate.
  - cbn [In]. tauto.
  - intros Hin. exfalso. unfold unsigned_options in Hin. cbn [In] in Hin. tauto.
  - intros ->. discriminate.
Qed.

(** C10 (amended): for every valued option the single-argument form
    [--name=value] sets the parameter to the value given: for the options
    that read an unsigned, a decimal value below 2^32; for [skew], the
    value [sscanf] converts.  The two-argument form [--name value] does
    not: the arguments are read one by one, and the value, an argument of
    its own, sets no parameter and is reported as an option the program
    does not know. *)
Theorem C10_option_forms (double : Type)
    (sscanf_lf : string -> scanned double) (name : string) :
  In name unsigned_options ->
  (forall (st : state double) n, 0 <= n < 2 ^ 32 ->
     extract_arg double sscanf_lf ("--" ++ name ++ "=" ++ decimal n)%string st
     = Some (Running double
               (set_param name n (set_ival double st (Matched n))))) /\
  (forall (st : state double) value d, sscanf_lf value = Matched d ->
     extract_arg double sscanf_lf ("--skew=" ++ value)%string st
     = Some (Running double
               (set_RelS_skew double (set_dval double st (Matched d)) d))) /\
  (forall (st : state double) value,
     starts_with_digit value = true -> plain value = true ->
     Z.of_nat (String.length value) <= 4095 ->
     extract_arg double sscanf_lf value st
     = Some (Running double (printf double st (Msg_unrecognized value)))).
Proof.
  intros Hin. split; [|split].
  - intros st n Hn.
    apply extract_arg_unsigned; [exact Hin|].
    apply sscanf_u_decimal. exact Hn.
  - intros st value d Hd.
    unfold extract_arg; cbn; unfold compare_options, valued_u, valued_lf;
      cbn; rewrite Hd; reflexivity.
  - intros st value. apply extract_arg_value.
Qed.

(** [--threads=8] sets the number of workers to 8, [--skew=2] the skew to
    what [sscanf] converts ([sscanf] for an unsigned standing for the one
    for a double), and [8] alone is reported. *)
Lemma C10_option_forms_witness :
  extract_arg Z sscanf_u "--threads=8"%string (initial_state 0 0)
  = Some (Running Z
            (set_param "threads"%string 8
               (set_ival Z (initial_state 0 0) (Matched 8)))) /\
  extract_arg Z sscanf_u "--skew=2"%string (initial_state 0 0)
  = Some (Running Z
            (set_RelS_skew Z (set_dval Z (initial_state 0 0) (Matched 2)) 2)) /\
  extract_arg Z sscanf_u "8"%string (initial_state 0 0)
  = Some (Running Z (printf Z (initial_state 0 0) (Msg_unrecognized "8"))).
Proof.
  destruct (C10_option_forms Z sscanf_u "threads"%string) as (H1 & H2 & H3);
    [simpl; tauto|].
  split; [|split].
  - apply (H1 (initial_state 0 0) 8). lia.
  - apply (H2 (initial_state 0 0) "2"%string 2). reflexivity.
  - apply (H3 (initial_state 0 0) "8"%string); [reflexivity|reflexivity|].
    simpl. lia.
Defined.

End CmdArgsForms.
